(* ===== verification/_CoqProject ===== *)
-Q . S2P
Prelude.v
MachineInt.v
CircularArray.v
DequeSpec.v
WorkDeque.v
ChaseLev.v
ChaseLevProof.v
ChaseLevTso.v
GlobalQueue.v
Victims.v
ThreadPool.v
ThreadPoolProof.v
ThreadPoolTheorems.v
Scheduler.v
PoolProgress.v
PoolRelaxed.v
PoolRelaxedProof.v
PoolDeques.v
PoolDequesProof.v
PoolWhole.v
PoolWholeProof.v
Completion.v
Uring.v
IoContext.v
BufferMemory.v
IoContextProof.v
IoContextTheorems.v
Explore.v
StopHelper.v
StopHelperProof.v
Senders.v
SendersProof.v
Runtime.v
EchoServer.v
EchoServerProof.v
SessionServers.v
EpollServer.v
BenchClient.v
BenchStats.v
ExampleServer.v
ExampleMain.v
ExampleMainProof.v
CoroMain.v
