(* ===== verification/Prelude.v ===== *)
(** * Verification of the async runtime

    This library models the C++ runtime of this repository and proves what makes
    it correct.

    ** The program and its parts

    The runtime has two engines.  The _thread pool_ (src/src/thread_pool.cpp) runs tasks
    on worker threads: every worker owns a Chase-Lev work-stealing deque over a
    growable circular array; other threads put tasks in a global queue; an idle
    worker pops its deque, then the global queue, then steals from the others in
    an order chosen by a small generator, and finally sleeps on a condition
    variable.  The _io_context_ (src/src/io_uring_ctx.cpp) submits operations to io_uring and
    runs an event loop that turns completions into callbacks.  On top of them are
    senders in the style of P2300 (src/include/async_runtime/io_context.hpp, scheduler.hpp), the
    [runtime] object that owns one pool and one io_context (src/src/runtime.cpp), and
    servers that use them (src/examples/echo_server.cpp, src/benchmarks/).

    ** Which file models what

    - Prelude.v: undefined behaviour as a value ([outcome]), reachability ([runs]),
      executable schedules ([exec]), tactics, the hint database [rt], list lemmas.
    - MachineInt.v: 32- and 64-bit integers: checked signed operations, unsigned
      wrap-around, masks of powers of two.
    - CircularArray.v: [work_stealing_deque::circular_array] and its [grow].
    - DequeSpec.v: what a deque promises: a list with three operations, and the
      atomic deque automaton (call, linearization point, return) for one owner and
      any number of thieves.
    - WorkDeque.v: the deque's operations as sequential code, equivalent to the list.
    - ChaseLev.v, ChaseLevProof.v: the same operations one shared-memory access at a
      time, the owner and the thieves interleaving arbitrarily; a forward simulation
      to the atomic automaton.
    - ChaseLevTso.v: the owner's stores delayed by a store buffer, as the memory orders
      of the source allow on total store order.
    - GlobalQueue.v: [global_task_queue].
    - Victims.v: the generator and the scan of [steal_from_others].
    - ThreadPool.v, ThreadPoolProof.v, ThreadPoolTheorems.v: [thread_pool::impl] as a
      state machine: [worker_loop], [enqueue], the sleep protocol, the destructor;
      its inductive invariant; the theorems.  Deques enter this machine as lists
      with atomic operations.
    - PoolDeques.v, PoolDequesProof.v: the same pool on the deques of ChaseLev.v, one
      access at a time, and the simulation that justifies the atomic lists.
    - PoolRelaxed.v, PoolRelaxedProof.v: the same pool with loads of [sleeping_workers] and
      [stop] that may return old values, as their memory orders allow.
    - PoolWhole.v, PoolWholeProof.v: both at once, the real deques and the stale loads.
    - PoolProgress.v: how many of its own steps a worker needs to find a task.
    - Scheduler.v: scheduler and [schedule_sender] on several pools, with the one
      [thread_local] pointer that the pools share; operations are started by threads of the
      program and by tasks of any pool.
    - Completion.v: [io_result], the completion signals, [make_io_callback].
    - Uring.v: liburing as a parameter: the class [Liburing] of its operations, the
      laws the runtime relies on ([LiburingLaws], which let a submission fail or hand over
      a part of the queue only; [refuses] is the state in which an entry cannot be had),
      and two concrete rings that satisfy them, one that works and one that refuses
      submissions.
    - IoContext.v, IoContextProof.v, IoContextTheorems.v: [io_context]: every [submit]
      function, cancellation, [stop], buffer registration, and [run] one step at a
      time, interleaved with calls from any thread; the ownership invariant; the
      theorems.
    - BufferMemory.v: what the kernel does with the memory that a request names.
    - Explore.v: reachability of finite transition systems by computation.
    - StopHelper.v, StopHelperProof.v: [stop_helper]: [start] racing with the stop
      callback, the completion and the destruction of the operation, with store
      buffers for the release/acquire atomics.
    - Senders.v, SendersProof.v: the seven senders, from [async_read] and the others
      to the entry in the submission queue.
    - Runtime.v: [runtime] as the composition of the pool's and the io_context's machines,
      its destruction included.
    - EchoServer.v, EchoServerProof.v: the pool of registered buffers, the connections
      and the accept loop of the two benchmark servers that use the io_context.
    - SessionServers.v: sessions and accept loops of the thread-per-connection and of the
      coroutine server, as instances of one interface.
    - EpollServer.v: the reactor of the epoll server.
    - BenchClient.v, BenchStats.v: the connections of the benchmark client and what it
      counts; the percentiles that it computes in floating point.
    - ExampleServer.v, ExampleMain.v, ExampleMainProof.v: the example program: its listening
      socket, the operations that serve a client, and [main] with its threads, the
      handlers and the descriptors of the process on top of Runtime.v.
    - CoroMain.v: the coroutine server: its threads with their sockets and io_contexts, [start]
      and [stop].

    ** What the theorems show

    - Deque: the concurrent deque refines the atomic one (C1); tasks are conserved and
      none is returned twice (C2, C3); every operation ends after at most eight accesses of
      its own thread, six for a steal (C4); the sequential code computes the list operations, growth and
      64-bit indices included (C5), and the destructor deletes the tasks that are left and the arrays (C6); delayed
      stores on total store order are not observable (C12).
    - Pool: tasks are conserved and run at most once (C7); no wake-up is lost (C8); the pool
      is never stuck with work or a destructor pending (C9); mutual exclusion of all its
      threads and the sleep counter (C10); what is left after destruction (C11); stealing finds a task if
      there is one (C17); a worker that is awake finds a task in a bounded number of its
      own steps when there is one (C38).  On its real deques the pool behaves as with
      atomic ones, and no worker is stuck inside a deque (C14).  With stale loads of its own
      atomics on top of that, a pool that sleeps has executed everything, and the only states
      in which no thread can go on are that one and the end of the destructor (C13).
      Limits: a task may be dropped at shutdown (C16), [wait] can return while tasks run ([wait_returns_early]), a notification for a
      task enqueued by a task can be missed ([local_notification_can_be_missed]).
    - io_context: results are classified totally and faithfully (C18); memory safety under
      every interleaving, but for the null entry of a full queue that the kernel does not
      empty (C19); each operation completes exactly once (C20); the kernel is
      asked for exactly what was called for, in order, when buffers are below 4 GiB (C21); a
      completion reaches the receiver its operation was submitted with (C37); [stop] ends
      [run] in a bounded number of steps once the kernel has taken its no-op (C22); what
      each call does with an entry and without one (C24).  Limits: a stop before [run] is
      lost ([stop_before_run_is_lost]), and so is one whose no-op the kernel does not take
      ([stop_on_busy_ring_is_lost]); without an entry all calls but [stop] dereference null
      (C24); lengths are truncated to 32 bits ([request_length_truncates]).
    - Cancellation: never lost with sequentially consistent atomics, at most two
      cancellations, only of the own address (C26); lost with the atomics of the
      source (C27); memory safe when started on the loop's thread (C28), not otherwise
      ([start_uses_destroyed_operation]).
    - Composition: a sender submits its request, to its context, for its receiver (C30);
      on any number of pools every scheduled receiver is run exactly once, by the
      scheduler's pool or, for a call from a worker of another pool, by the caller's (C31,
      [cross_pool_task_runs_on_callers_pool]); a run
      of the runtime is a run of each of its members, so that their guarantees hold in
      it (C39); tasks can outlive its io_context, and operations in flight are abandoned
      with it (C33).
    - Echo servers: sessions echo faithfully in the asynchronous servers, by requests that
      stay inside the connection's buffer (C34), in the
      thread-per-connection and coroutine servers (C23) and in the epoll server, which
      moreover never sits on data without having asked to be told when it can go on (C36);
      registered buffers are not shared or leaked (C35).  Limits: a failed accept ends the
      accept loops ([failed_accept_ends_the_loop], [coro_failed_accept_ends]); a failed operation
      leaks the descriptor of a coroutine session (C23); the epoll server discards data on a
      half-close ([half_close_discards]).
    - Coroutine server: threads that serve have sockets of their own, contexts are destroyed
      only when nobody runs them, and when [stop] has returned all threads have ended and
      their sockets are closed; but [stop] may use a context that is gone (C32,
      [stop_uses_destroyed_context]), or wait forever for a thread that came late
      ([late_registration_hangs]).
    - Benchmark client: it counts complete round trips, and closes what it opened (C29);
      the percentiles it prints are samples with the right rank, all roundings of the
      floating-point index included (C25).
    - Example program: it serves its client from one buffer, which no request leaves, and
      closes the client's descriptor once, unless an operation is stopped or fails, and the
      failure terminates it (C40); [main] closes its socket, destroys the runtime only when
      nobody uses it, leaves open at most the descriptor of a client that it abandoned, and
      is free of undefined behaviour while the kernel takes the submissions (C15).  Limit: it
      hangs when its thread comes late ([late_thread_hangs]).

    ** Conventions, bounds and fuel

    An execution that C++ leaves undefined is [Undef] with its reason, never a made-up
    value; theorems show when it cannot happen.  Signed arithmetic is checked at its
    width, unsigned arithmetic wraps.  C4, C5, C12, C13 and C14 assume fewer than [2^61]
    pushes or steps, so that the 64-bit indices and the array's capacity do not overflow.  There
    is no fuel in the models except in loops whose number of iterations is known when they start ([grow],
    destruction, the stealing scan); [run_alone] takes a number of steps and C22 gives
    one that is enough; Explore.v takes a number of rounds, and the closure test that
    follows shows that it was enough.  C25 is for up to [2^40]
    samples, where the roundings cannot move an index below its rank.

    Threads interleave at single accesses to shared state, with sequentially consistent
    memory, except in StopHelper.v and ChaseLevTso.v, which have store buffers, and in
    PoolRelaxed.v and PoolWhole.v, where loads may be stale.  Critical
    sections of a mutex that nothing else observes are one step; where the mutex interacts with a condition variable its
    acquisition and release are steps.

    ** What is not modelled

    stdexec and liburing are libraries outside the repository: the first appears through
    the documented behaviour of receivers, [then], [start_detached] and stop tokens, the second through
    the laws of Uring.v.  sender.hpp holds aliases of stdexec's concepts only.  Tasks that
    throw (the program ends), allocation failure, the socket set-up and the command lines of
    the other benchmark programs, which only wrap what is modelled, and the average and the
    rates that the benchmark client prints are left out, as are the tests.  The memory models
    are sequential consistency, total store order for the deque and stale loads for the
    pool's own atomics: reorderings that only weaker processors make inside the deque are
    not covered.  What remains of the sources is declarations and deleted or defaulted members. *)

From stdpp Require Export prelude gmap list sorting.
From stdpp Require Import options.

(** ** Undefined behaviour as a value

    C++ leaves some executions undefined.  The models below never pick a
    value for them: an operation that could reach undefined behaviour (or an
    [assert] that fails, or an exception that leaves a [noexcept] function)
    returns [Undef] with the reason, and the theorems show which states
    exclude it. *)

Inductive ub : Type :=
| SignedOverflow   (** signed integer arithmetic out of range *)
| OutOfBounds      (** an array is accessed outside its bounds *)
| NullDeref        (** a null pointer is dereferenced *)
| UseAfterFree     (** an object is accessed after its lifetime *)
| DoubleFree       (** [delete] of an address that is not allocated *)
| AssertFailed     (** an [assert] of the source fails *)
| DivByZero        (** integer division or remainder by zero *)
| BadConversion.   (** a [double] out of the range of the integer type it is converted to *)

#[export] Instance ub_eq_dec : EqDecision ub.
Proof. solve_decision. Defined.

Inductive outcome (A : Type) : Type :=
| Ok (a : A)
| Undef (u : ub).
Arguments Ok {A} a.
Arguments Undef {A} u.

#[export] Instance outcome_ret : MRet outcome := @Ok.
#[export] Instance outcome_bind : MBind outcome := λ A B f m,
  match m with Ok a => f a | Undef u => Undef u end.
#[export] Instance outcome_fmap : FMap outcome := λ A B f m,
  match m with Ok a => Ok (f a) | Undef u => Undef u end.

Definition is_ok {A} (m : outcome A) : bool :=
  match m with Ok _ => true | Undef _ => false end.

Lemma outcome_bind_ok {A B} (m : outcome A) (f : A → outcome B) b :
  m ≫= f = Ok b ↔ ∃ a, m = Ok a ∧ f a = Ok b.
Proof. destruct m; naive_solver. Qed.

(** ** Tactics and hint databases of the development *)

Create HintDb rt discriminated.
#[export] Hint Extern 1 (_ ≤ _)%Z => lia : rt.
#[export] Hint Extern 1 (_ < _)%Z => lia : rt.
#[export] Hint Extern 1 (_ ≤ _)%nat => lia : rt.
#[export] Hint Extern 1 (_ < _)%nat => lia : rt.

(** Inverts every bind of the outcome monad that is known to succeed. *)
Ltac outcome_inv :=
  repeat match goal with
  | H : _ ≫= _ = Ok _ |- _ => apply outcome_bind_ok in H as (? & ? & ?)
  | H : Ok _ = Ok _ |- _ => injection H as H; simplify_eq
  | H : Undef _ = Ok _ |- _ => discriminate H
  | H : Ok _ = Undef _ |- _ => discriminate H
  end.

(** Splits on the next boolean test or match of the goal. *)
Ltac case_next :=
  match goal with
  | |- context [if ?b then _ else _] => destruct b eqn:?
  | |- context [match ?x with _ => _ end] => destruct x eqn:?
  end.

(** Turns boolean comparisons on [Z] in the context into propositions. *)
Ltac zbool :=
  repeat match goal with
  | H : (_ && _) = true |- _ => apply andb_true_iff in H as [? ?]
  | H : (_ <? _)%Z = true |- _ => apply Z.ltb_lt in H
  | H : (_ <? _)%Z = false |- _ => apply Z.ltb_ge in H
  | H : (_ <=? _)%Z = true |- _ => apply Z.leb_le in H
  | H : (_ <=? _)%Z = false |- _ => apply Z.leb_gt in H
  | H : (_ =? _)%Z = true |- _ => apply Z.eqb_eq in H
  | H : (_ =? _)%Z = false |- _ => apply Z.eqb_neq in H
  end.

(** ** Lists *)

Section lists.
Context {A : Type}.
Implicit Types (l k : list A) (x : A).

Lemma snoc_case l : l = [] ∨ ∃ k x, l = k ++ [x].
Proof. induction l using rev_ind; [by left | right; eauto]. Qed.

Lemma lookup_snoc_lt l x i : i < length l → (l ++ [x]) !! i = l !! i.
Proof. intros. by rewrite lookup_app_l. Qed.

Lemma lookup_snoc_eq l x : (l ++ [x]) !! length l = Some x.
Proof. by rewrite lookup_app_r, Nat.sub_diag. Qed.

(** The number of elements of a list that satisfy a test. *)
Definition countb (f : A → bool) l : nat := length (List.filter f l).

Lemma countb_cons f x l : countb f (x :: l) = (if f x then 1 else 0) + countb f l.
Proof. unfold countb; simpl. by destruct (f x). Qed.

Lemma countb_le f l : countb f l ≤ length l.
Proof.
  induction l as [|y l IH]; [done|]. rewrite countb_cons; simpl.
  destruct (f y); simpl; lia.
Qed.

Lemma countb_insert f l i x y :
  l !! i = Some x →
  countb f (<[i:=y]> l) + (if f x then 1 else 0) = countb f l + (if f y then 1 else 0).
Proof.
  revert i. induction l as [|z l IH]; intros [|i] Hi; simplify_eq/=.
  - rewrite !countb_cons. destruct (f x), (f y); lia.
  - rewrite !countb_cons. specialize (IH _ Hi). destruct (f z); lia.
Qed.

Lemma countb_zero f l : countb f l = 0 ↔ Forall (λ x, f x = false) l.
Proof.
  induction l as [|y l IH]; [done|]. rewrite countb_cons, Forall_cons, <- IH.
  destruct (f y); simpl; naive_solver lia.
Qed.

Lemma countb_pos f l i x : l !! i = Some x → f x = true → 0 < countb f l.
Proof.
  intros Hi Hx. destruct (countb f l) eqn:E; [|lia].
  apply countb_zero in E. rewrite Forall_lookup in E.
  by rewrite (E _ _ Hi) in Hx.
Qed.
End lists.

Lemma bind_insert_perm {A B} (f : A → list B) (l : list A) i x y :
  l !! i = Some x → (<[i:=y]> l ≫= f) ++ f x ≡ₚ (l ≫= f) ++ f y.
Proof.
  revert i. induction l as [|z l IH]; intros [|i] Hi; simplify_eq/=.
  - solve_Permutation.
  - rewrite <- !app_assoc. f_equiv. by apply IH.
Qed.

Lemma bind_nil {A B} (f : A → list B) (l : list A) :
  Forall (λ x, f x = []) l → l ≫= f = [].
Proof. induction 1 as [|x l Hx _ IH]; csimpl; [done|]. by rewrite Hx, IH. Qed.

Lemma alter_insert_lookup {A} (f : A → A) (l : list A) i x :
  l !! i = Some x → alter f i l = <[i:=f x]> l.
Proof.
  revert i. induction l as [|z l IH]; intros [|i] Hi; simplify_eq/=; [done|].
  f_equal. by apply IH.
Qed.

(** ** Reachability

    A labelled transition system is explored through [runs]: a list of
    labels and the state it leads to.  Invariants are proved by induction on
    it. *)

Section runs.
Context {S L : Type} (step : S → L → S → Prop).

Inductive runs : S → list L → S → Prop :=
| runs_nil s : runs s [] s
| runs_snoc s ls s' l s'' : runs s ls s' → step s' l s'' → runs s (ls ++ [l]) s''.

Lemma runs_invariant (P : S → Prop) s ls s' :
  P s → (∀ a l b, P a → step a l b → P b) → runs s ls s' → P s'.
Proof. intros Hs Hstep. induction 1; eauto. Qed.

Lemma runs_trans s ls s' ls' s'' :
  runs s ls s' → runs s' ls' s'' → runs s (ls ++ ls') s''.
Proof.
  intros H H'. induction H' as [|s' ls' u l v ? IH].
  - by rewrite app_nil_r.
  - rewrite app_assoc. econstructor; eauto.
Qed.

Lemma runs_one s l s' : step s l s' → runs s [l] s'.
Proof. intros. apply (runs_snoc _ [] s); [constructor | done]. Qed.
End runs.
#[export] Hint Constructors runs : rt.

(** An executable schedule: apply the labels one after the other. *)
Section exec.
Context {S L : Type} (f : L → S → option S).

Fixpoint exec (ls : list L) (s : S) : option S :=
  match ls with
  | [] => Some s
  | l :: ls => f l s ≫= exec ls
  end.

Lemma exec_runs (step : S → L → S → Prop) ls s s' :
  (∀ a l b, f l a = Some b → step a l b) → exec ls s = Some s' → runs step s ls s'.
Proof.
  intros Hf. revert s. induction ls as [|l ls IH]; intros s; simpl.
  - intros [= ->]. constructor.
  - destruct (f l s) as [u|] eqn:E; simpl; [|done]. intros H.
    apply (runs_trans _ s [l] u ls s'); [|by apply IH].
    by apply runs_one, Hf.
Qed.
End exec.
