(* ===== verification/MachineInt.v ===== *)
(** * Machine integers

    The fixed-width integer types the runtime uses ([std::int64_t] deque
    indices, [std::uint32_t] generator state, [std::int32_t] results,
    [std::size_t] sizes).  Signed arithmetic is checked: leaving the range is
    undefined behaviour.  Unsigned arithmetic wraps. *)

From S2P Require Import Prelude.
From stdpp Require Import options.
Local Open Scope Z_scope.

Definition int64_min : Z := -2^63.
Definition int64_max : Z := 2^63 - 1.
Definition int32_min : Z := -2^31.
Definition int32_max : Z := 2^31 - 1.

Definition int64_ok (z : Z) : bool := (int64_min <=? z) && (z <=? int64_max).
Definition int32_ok (z : Z) : bool := (int32_min <=? z) && (z <=? int32_max).

Definition int64_chk (z : Z) : outcome Z := if int64_ok z then Ok z else Undef SignedOverflow.
Definition int32_chk (z : Z) : outcome Z := if int32_ok z then Ok z else Undef SignedOverflow.

Definition int64_add (a b : Z) : outcome Z := int64_chk (a + b).
Definition int64_sub (a b : Z) : outcome Z := int64_chk (a - b).
Definition int64_mul (a b : Z) : outcome Z := int64_chk (a * b).

(** Conversion to an unsigned type of the given width. *)
Definition uint32 (z : Z) : Z := z mod 2^32.
Definition uint64 (z : Z) : Z := z mod 2^64.

(** Conversion of an [unsigned] to [int] (two's complement since C++20). *)
Definition to_int32 (z : Z) : Z :=
  let u := uint32 z in if u <=? int32_max then u else u - 2^32.

Lemma int64_chk_ok z : int64_min ≤ z ≤ int64_max → int64_chk z = Ok z.
Proof.
  intros [??]. unfold int64_chk, int64_ok.
  by rewrite (proj2 (Z.leb_le _ _)), (proj2 (Z.leb_le _ _)) by lia.
Qed.

Lemma int64_chk_inv z y : int64_chk z = Ok y → y = z ∧ int64_min ≤ z ≤ int64_max.
Proof. unfold int64_chk, int64_ok. case_match; naive_solver (zbool; lia). Qed.

Lemma int64_add_ok a b : int64_min ≤ a + b ≤ int64_max → int64_add a b = Ok (a + b).
Proof. apply int64_chk_ok. Qed.
Lemma int64_sub_ok a b : int64_min ≤ a - b ≤ int64_max → int64_sub a b = Ok (a - b).
Proof. apply int64_chk_ok. Qed.
Lemma int64_mul_ok a b : int64_min ≤ a * b ≤ int64_max → int64_mul a b = Ok (a * b).
Proof. apply int64_chk_ok. Qed.

Lemma uint32_range z : 0 ≤ uint32 z < 2^32.
Proof. apply Z.mod_pos_bound; lia. Qed.
Lemma uint64_range z : 0 ≤ uint64 z < 2^64.
Proof. apply Z.mod_pos_bound; lia. Qed.

(** Linear arithmetic with the bounds of the integer types, and the rewriting
    of every checked operation whose result is in range. *)
Ltac int_lia := unfold int64_min, int64_max, int32_min, int32_max in *; lia.

Ltac int_ok :=
  repeat (first [rewrite int64_sub_ok by int_lia
                |rewrite int64_add_ok by int_lia
                |rewrite int64_mul_ok by int_lia]; simpl).

(** ** Power-of-two masks *)

Definition is_pow2 (c : Z) : Prop := ∃ k, 0 ≤ k ∧ c = 2^k.

Lemma is_pow2_pos c : is_pow2 c → 0 < c.
Proof. intros (k & ? & ->). apply Z.pow_pos_nonneg; lia. Qed.

Lemma is_pow2_double c : is_pow2 c → is_pow2 (c * 2).
Proof.
  intros (k & ? & ->). exists (k + 1). split; [lia|].
  by rewrite Z.pow_add_r, Z.pow_1_r by lia.
Qed.

Lemma is_pow2_1024 : is_pow2 1024.
Proof. by exists 10. Qed.

Lemma land_mask i c : is_pow2 c → Z.land i (c - 1) = i mod c.
Proof.
  intros (k & ? & ->). replace (2^k - 1) with (Z.ones k) by (rewrite Z.ones_equiv; lia).
  by apply Z.land_ones.
Qed.

Lemma land_mask_range i c : is_pow2 c → 0 ≤ Z.land i (c - 1) < c.
Proof.
  intros Hc. rewrite land_mask by done. apply Z.mod_pos_bound. by apply is_pow2_pos.
Qed.

(** Two indices less than a capacity apart never share a slot. *)
Lemma mod_window i j c : 0 < c → i mod c = j mod c → -c < i - j < c → i = j.
Proof.
  intros Hc Heq Hd.
  pose proof (Z.div_mod i c ltac:(lia)). pose proof (Z.div_mod j c ltac:(lia)).
  assert (i - j = c * (i / c - j / c)) as E by lia. rewrite E in Hd.
  assert (i / c - j / c = 0) by nia. lia.
Qed.

#[export] Hint Resolve is_pow2_pos is_pow2_double is_pow2_1024 : rt.
