(* ===== verification/CircularArray.v ===== *)
(** * The circular array of the work-stealing deque

    [work_stealing_deque::circular_array] of src/src/thread_pool.cpp: a
    power-of-two ring of task pointers addressed by unbounded logical indices
    through [i & mask], and its [grow] operation.  A task pointer is an
    [option T]: [None] is [nullptr].  Both the sequential model of the deque
    and the interleaving model are built on this file. *)

From S2P Require Import Prelude MachineInt.
From stdpp Require Import options.
Local Open Scope Z_scope.

Section circular_array.
Context {T : Type}.

Record circular_array := CircularArray {
  capacity : Z;
  mask : Z;
  buffer : list (option T);
}.

(** The constructor: every slot is stored as [nullptr]. *)
Definition new_circular_array (cap : Z) : circular_array :=
  {| capacity := cap; mask := cap - 1; buffer := replicate (Z.to_nat cap) None |}.

(** [buffer[i].load()] and [buffer[i].store(p)]: [operator[]] does not check. *)
Definition buf_load (a : circular_array) (i : Z) : outcome (option T) :=
  if i <? 0 then Undef OutOfBounds else
  match buffer a !! Z.to_nat i with
  | Some p => Ok p
  | None => Undef OutOfBounds
  end.

Definition buf_store (a : circular_array) (i : Z) (p : option T) : outcome circular_array :=
  if i <? 0 then Undef OutOfBounds else
  match buffer a !! Z.to_nat i with
  | Some _ =>
      Ok {| capacity := capacity a; mask := mask a; buffer := <[Z.to_nat i := p]> (buffer a) |}
  | None => Undef OutOfBounds
  end.

(** The loop [for (i = t; i < b; ++i)] of [grow]; it runs [n = b - t] times. *)
Fixpoint grow_copy (n : nat) (i : Z) (src dst : circular_array) : outcome circular_array :=
  match n with
  | O => Ok dst
  | S n =>
      p ← buf_load src (Z.land i (mask src));
      dst' ← buf_store dst (Z.land i (mask dst)) p;
      grow_copy n (i + 1) src dst'
  end.

Definition grow (a : circular_array) (b t : Z) : outcome circular_array :=
  cap2 ← int64_mul (capacity a) 2;
  grow_copy (Z.to_nat (b - t)) t a (new_circular_array cap2).

(** ** The array as a map from logical indices *)

(** The pointer a logical index reads. *)
Definition slot (a : circular_array) (i : Z) : option T :=
  mjoin (buffer a !! Z.to_nat (Z.land i (mask a))).

Record array_wf (a : circular_array) : Prop := {
  wf_pow2 : is_pow2 (capacity a);
  wf_mask : mask a = capacity a - 1;
  wf_len : Z.of_nat (length (buffer a)) = capacity a;
}.

Implicit Types (a : circular_array) (i j b t : Z) (p : option T).

Lemma array_wf_idx a i :
  array_wf a → 0 ≤ Z.land i (mask a) ∧ (Z.to_nat (Z.land i (mask a)) < length (buffer a))%nat.
Proof.
  intros [Hp Hm Hl]. rewrite Hm. pose proof (land_mask_range i _ Hp). lia.
Qed.

Lemma new_array_wf c : is_pow2 c → array_wf (new_circular_array c).
Proof.
  intros Hc. pose proof (is_pow2_pos _ Hc). split; simpl; [done|done|].
  rewrite length_replicate. lia.
Qed.

Lemma buf_load_slot a i : array_wf a → buf_load a (Z.land i (mask a)) = Ok (slot a i).
Proof.
  intros Hwf. destruct (array_wf_idx a i Hwf) as [Hnn Hlt].
  unfold buf_load, slot. rewrite (proj2 (Z.ltb_ge _ _)) by done.
  destruct (lookup_lt_is_Some_2 _ _ Hlt) as [q ->]. done.
Qed.

(** The array after the store at logical index [i]. *)
Definition store_slot a i p : circular_array :=
  {| capacity := capacity a; mask := mask a;
     buffer := <[Z.to_nat (Z.land i (mask a)) := p]> (buffer a) |}.

Lemma buf_store_slot a i p :
  array_wf a → buf_store a (Z.land i (mask a)) p = Ok (store_slot a i p).
Proof.
  intros Hwf. destruct (array_wf_idx a i Hwf) as [Hnn Hlt].
  unfold buf_store. rewrite (proj2 (Z.ltb_ge _ _)) by done.
  by destruct (lookup_lt_is_Some_2 _ _ Hlt) as [q ->].
Qed.

Lemma store_slot_wf a i p : array_wf a → array_wf (store_slot a i p).
Proof. intros [???]; split; simpl; [done..|]. by rewrite length_insert. Qed.

Lemma slot_store_eq a i p : array_wf a → slot (store_slot a i p) i = p.
Proof.
  intros Hwf. destruct (array_wf_idx a i Hwf) as [_ Hlt].
  unfold slot, store_slot; simpl. by rewrite list_lookup_insert_eq.
Qed.

(** Indices less than a capacity apart do not interfere. *)
Lemma slot_store_ne a i j p :
  array_wf a → i ≠ j → - capacity a < i - j < capacity a →
  slot (store_slot a i p) j = slot a j.
Proof.
  intros Hwf Hne Hd. pose proof (wf_pow2 _ Hwf) as Hp.
  unfold slot, store_slot; simpl. rewrite list_lookup_insert_ne; [done|].
  rewrite (wf_mask _ Hwf), !land_mask by done. intros Heq.
  pose proof (Z.mod_pos_bound i (capacity a) (is_pow2_pos _ Hp)).
  pose proof (Z.mod_pos_bound j (capacity a) (is_pow2_pos _ Hp)).
  apply Hne, (mod_window i j (capacity a)); [by apply is_pow2_pos | lia | done].
Qed.

(** ** Growing preserves the window [t, b) *)

Lemma grow_copy_spec n i src dst :
  array_wf src → array_wf dst → Z.of_nat n ≤ capacity dst →
  ∃ dst', grow_copy n i src dst = Ok dst' ∧ array_wf dst' ∧ capacity dst' = capacity dst ∧
    (∀ j, i ≤ j < i + Z.of_nat n → slot dst' j = slot src j) ∧
    (∀ j, i + Z.of_nat n - capacity dst ≤ j < i → slot dst' j = slot dst j).
Proof.
  intros Hs. revert i dst. induction n as [|n IH]; intros i dst Hd Hn.
  - exists dst. split_and!; [done..| |done]. intros; lia.
  - simpl. rewrite buf_load_slot by done; simpl. rewrite buf_store_slot by done; simpl.
    destruct (IH (i + 1) (store_slot dst i (slot src i))) as (d & -> & Hw & Hc & H1 & H2);
      [by apply store_slot_wf | simpl; lia |].
    exists d. split_and!; [done..| |].
    + intros j Hj. destruct (decide (j = i)) as [->|]; [|apply H1; lia].
      rewrite H2 by (simpl; lia). by apply slot_store_eq.
    + intros j Hj. rewrite H2 by (simpl; lia). apply slot_store_ne; [done|lia|].
      lia.
Qed.

Lemma grow_spec a b t :
  array_wf a → capacity a * 2 ≤ int64_max → b - t ≤ capacity a →
  ∃ a', grow a b t = Ok a' ∧ array_wf a' ∧ capacity a' = capacity a * 2 ∧
    ∀ j, t ≤ j < b → slot a' j = slot a j.
Proof.
  intros Hwf Hmax Hsz. pose proof (is_pow2_pos _ (wf_pow2 _ Hwf)).
  unfold grow. rewrite int64_mul_ok by (unfold int64_min; lia). simpl.
  destruct (grow_copy_spec (Z.to_nat (b - t)) t a (new_circular_array (capacity a * 2)))
    as (a' & -> & Hw & Hc & H1 & _); [done| |simpl; lia|].
  { apply new_array_wf, is_pow2_double, Hwf. }
  exists a'. split_and!; [done..|]. intros j Hj. apply H1. lia.
Qed.

Lemma grow_inv a a' b t :
  array_wf a → b - t ≤ capacity a → grow a b t = Ok a' →
  array_wf a' ∧ capacity a' = capacity a * 2 ∧ ∀ j, t ≤ j < b → slot a' j = slot a j.
Proof.
  intros Hwf Hsz Hg. destruct (decide (capacity a * 2 ≤ int64_max)) as [Hmax|Hmax].
  - destruct (grow_spec a b t Hwf Hmax Hsz) as (a1 & Hg1 & Hrest).
    rewrite Hg1 in Hg. by injection Hg as <-.
  - exfalso. unfold grow, int64_mul, int64_chk, int64_ok in Hg.
    rewrite (proj2 (Z.leb_gt (capacity a * 2) int64_max)), andb_false_r in Hg by lia. done.
Qed.

End circular_array.
Arguments circular_array : clear implicits.
#[export] Hint Resolve new_array_wf store_slot_wf : rt.
