(* ===== verification/DequeSpec.v ===== *)
(** * What a work-stealing deque promises

    The abstract deque is a list of tasks, the oldest first.  The owner pushes
    and pops at the right end, thieves take from the left end.  [ref_apply] is
    the executable reference; [Atomic] is the canonical atomic object: every
    operation is an invocation, one atomic action on the list, and a response.
    A concurrent implementation is linearizable when its traces of
    invocations and responses are traces of [Atomic]. *)

From S2P Require Import Prelude.
From stdpp Require Import options.

Section reference.
Context {T : Type}.

Inductive dop : Type :=
| OpPush (x : T)
| OpPop
| OpSteal.

(** Takes the newest element. *)
Definition ref_pop (q : list T) : option T * list T :=
  match last q with
  | Some x => (Some x, take (length q - 1) q)
  | None => (None, q)
  end.

(** Takes the oldest element. *)
Definition ref_steal (q : list T) : option T * list T :=
  match q with
  | x :: q' => (Some x, q')
  | [] => (None, [])
  end.

Definition ref_apply (o : dop) (q : list T) : option T * list T :=
  match o with
  | OpPush x => (None, q ++ [x])
  | OpPop => ref_pop q
  | OpSteal => ref_steal q
  end.

Fixpoint ref_run (os : list dop) (q : list T) : list (option T) * list T :=
  match os with
  | [] => ([], q)
  | o :: os =>
      let '(r, q1) := ref_apply o q in
      let '(rs, q2) := ref_run os q1 in (r :: rs, q2)
  end.

Lemma ref_pop_snoc q x : ref_pop (q ++ [x]) = (Some x, q).
Proof.
  unfold ref_pop. rewrite last_snoc, length_app; simpl.
  by rewrite Nat.add_sub, take_app_length.
Qed.

Lemma ref_pop_nil : ref_pop [] = (None, []).
Proof. done. Qed.

Definition is_push (o : dop) : bool := match o with OpPush _ => true | _ => false end.

End reference.
Arguments dop : clear implicits.

(** ** The canonical atomic deque *)

Module Atomic.
Section atomic.
Context {T : Type}.

(** Where the owner thread and a thief stand. *)
Inductive owner_st : Type :=
| OIdle
| OPushing (x : T) | OPushed
| OPopping | OPopped (r : option T).

Inductive thief_st : Type :=
| TIdle
| TStealing
| TStolen (r : option T).

Record state := State {
  queue : list T;
  owner : owner_st;
  thieves : list thief_st;
}.

(** Observable labels: invocations and responses. *)
Inductive label : Type :=
| InvPush (x : T) | RetPush
| InvPop | RetPop (r : option T)
| InvSteal (i : nat) | RetSteal (i : nat) (r : option T).

Definition set_queue (q : list T) (s : state) : state := State q (owner s) (thieves s).
Definition set_owner (o : owner_st) (s : state) : state := State (queue s) o (thieves s).
Definition set_thief (i : nat) (p : thief_st) (s : state) : state :=
  State (queue s) (owner s) (<[i:=p]> (thieves s)).

Definition init (n : nat) : state := State [] OIdle (replicate n TIdle).

(** A label is [None] for the internal atomic action.  A steal may also
    report failure whatever the queue holds: it lost a race. *)
Inductive step : state → option label → state → Prop :=
| inv_push s x : owner s = OIdle → step s (Some (InvPush x)) (set_owner (OPushing x) s)
| do_push s x : owner s = OPushing x →
    step s None (set_queue (queue s ++ [x]) (set_owner OPushed s))
| ret_push s : owner s = OPushed → step s (Some RetPush) (set_owner OIdle s)
| inv_pop s : owner s = OIdle → step s (Some InvPop) (set_owner OPopping s)
| do_pop s q x : owner s = OPopping → queue s = q ++ [x] →
    step s None (set_queue q (set_owner (OPopped (Some x)) s))
| do_pop_empty s : owner s = OPopping → queue s = [] →
    step s None (set_owner (OPopped None) s)
| ret_pop s r : owner s = OPopped r → step s (Some (RetPop r)) (set_owner OIdle s)
| inv_steal s i : thieves s !! i = Some TIdle →
    step s (Some (InvSteal i)) (set_thief i TStealing s)
| do_steal s i x q : thieves s !! i = Some TStealing → queue s = x :: q →
    step s None (set_queue q (set_thief i (TStolen (Some x)) s))
| do_steal_fail s i : thieves s !! i = Some TStealing →
    step s None (set_thief i (TStolen None) s)
| ret_steal s i r : thieves s !! i = Some (TStolen r) →
    step s (Some (RetSteal i r)) (set_thief i TIdle s).

(** ** Bookkeeping over a trace *)

(** Tasks a trace hands to the deque, and tasks it hands out. *)
Definition pushed_of (l : option label) : list T :=
  match l with Some (InvPush x) => [x] | _ => [] end.

Definition taken_of (l : option label) : list T :=
  match l with
  | Some (RetPop (Some x)) | Some (RetSteal _ (Some x)) => [x]
  | _ => []
  end.

Definition pushed (ls : list (option label)) : list T := ls ≫= pushed_of.
Definition taken (ls : list (option label)) : list T := ls ≫= taken_of.

(** Tasks held by operations in progress. *)
Definition owner_held (o : owner_st) : list T :=
  match o with OPushing x | OPopped (Some x) => [x] | _ => [] end.
Definition thief_held (p : thief_st) : list T :=
  match p with TStolen (Some x) => [x] | _ => [] end.
Definition held (s : state) : list T :=
  owner_held (owner s) ++ (thieves s ≫= thief_held).

(** Pushed tasks are exactly the queued ones, the ones in the hands of an
    operation in progress, and the ones handed out. *)
Lemma atomic_conservation n ls s :
  runs step (init n) ls s → pushed ls ≡ₚ queue s ++ held s ++ taken ls.
Proof.
  unfold pushed, taken. intros H.
  remember (init n) as s0 eqn:Hs0. induction H as [|s ls s' l s'' Hr IH Hst]; subst.
  - unfold init, held; simpl. by induction n.
  - specialize (IH eq_refl). rewrite !bind_app; simpl. rewrite !app_nil_r, IH. clear IH Hr.
    unfold held. destruct Hst as
      [s x Ho|s x Ho|s Ho|s Ho|s q x Ho Hq|s Ho Hq|s r Ho|s i Ht|s i x q Ht Hq|s i Ht|s i r Ht];
      simpl; rewrite ?Ho, ?Hq; simpl; try (destruct r); try solve_Permutation.
    all: match goal with |- context [<[_:=?p]> (thieves _)] =>
           pose proof (bind_insert_perm thief_held _ _ _ p Ht) as E end; simpl in E.
    all: rewrite ?app_nil_r in E; first [rewrite E | rewrite <- E]; solve_Permutation.
Qed.

End atomic.
Arguments owner_st : clear implicits.
Arguments thief_st : clear implicits.
Arguments state : clear implicits.
Arguments label : clear implicits.
End Atomic.
