(* ===== verification/WorkDeque.v ===== *)
(** * The work-stealing deque, one operation at a time

    [work_stealing_deque] of src/src/thread_pool.cpp translated statement by
    statement into the outcome monad: [push], [pop], [steal], [empty] and the
    destructor run without interference.  [represents d q] relates the deque
    to the abstract list of DequeSpec; the theorems show that every operation
    is defined (no overflow, no access out of bounds) and acts on the list as
    the reference does.  Interference is the subject of ChaseLev.v. *)

From S2P Require Import Prelude MachineInt CircularArray DequeSpec.
From stdpp Require Import options.
Local Open Scope Z_scope.

Section work_deque.
Context {T : Type}.

Record work_stealing_deque := WorkStealingDeque {
  top_ : Z;
  bottom_ : Z;
  array_ : circular_array T;
  history_ : list (circular_array T);
}.

(** The constructor and its assertion on the capacity. *)
Definition new_deque (initial_capacity : Z) : outcome work_stealing_deque :=
  if Z.land initial_capacity (initial_capacity - 1) =? 0
  then Ok {| top_ := 0; bottom_ := 0;
             array_ := new_circular_array initial_capacity; history_ := [] |}
  else Undef AssertFailed.

(** The default argument of the constructor. *)
Definition initial_capacity_default : Z := 1024.

Definition set_bottom (b : Z) (d : work_stealing_deque) : work_stealing_deque :=
  {| top_ := top_ d; bottom_ := b; array_ := array_ d; history_ := history_ d |}.

(** [top_.compare_exchange_strong(expected, desired)]. *)
Definition cas_top (expected desired : Z) (d : work_stealing_deque) :
    bool * work_stealing_deque :=
  if top_ d =? expected
  then (true, {| top_ := desired; bottom_ := bottom_ d; array_ := array_ d;
                 history_ := history_ d |})
  else (false, d).

Definition push (task : T) (d : work_stealing_deque) : outcome work_stealing_deque :=
  let b := bottom_ d in
  let t := top_ d in
  let a := array_ d in
  size ← int64_sub b t;
  limit ← int64_sub (capacity a) 1;
  '(a, hist) ← (if limit <=? size
                then new_a ← grow a b t; Ok (new_a, history_ d ++ [a])
                else Ok (a, history_ d));
  a ← buf_store a (Z.land b (mask a)) (Some task);
  b1 ← int64_add b 1;
  Ok {| top_ := t; bottom_ := b1; array_ := a; history_ := hist |}.

Definition pop (d : work_stealing_deque) : outcome (option T * work_stealing_deque) :=
  b ← int64_sub (bottom_ d) 1;
  let a := array_ d in
  let d := set_bottom b d in
  let t := top_ d in
  size ← int64_sub b t;
  if size <? 0 then
    b1 ← int64_add b 1;
    Ok (None, set_bottom b1 d)
  else
    task ← buf_load a (Z.land b (mask a));
    if size =? 0 then
      t1 ← int64_add t 1;
      let '(won, d) := cas_top t t1 d in
      b1 ← int64_add b 1;
      Ok (if won then task else None, set_bottom b1 d)
    else Ok (task, d).

Definition steal (d : work_stealing_deque) : outcome (option T * work_stealing_deque) :=
  let t := top_ d in
  let b := bottom_ d in
  size ← int64_sub b t;
  if size <=? 0 then Ok (None, d) else
  let a := array_ d in
  task ← buf_load a (Z.land t (mask a));
  t1 ← int64_add t 1;
  let '(won, d) := cas_top t t1 d in
  if won then Ok (task, d) else Ok (None, d).

Definition empty (d : work_stealing_deque) : bool :=
  let b := bottom_ d in
  let t := top_ d in
  b <=? t.

(** The destructor's loop: the pointers it passes to [delete]. *)
Fixpoint destroy_loop (n : nat) (i : Z) (arr : circular_array T) : outcome (list (option T)) :=
  match n with
  | O => Ok []
  | S n =>
      task ← buf_load arr (Z.land i (mask arr));
      rest ← destroy_loop n (i + 1) arr;
      Ok (task :: rest)
  end.

(** The tasks and the arrays that are deleted: the current array at the end of the body, the
    replaced ones with the member [history_]. *)
Definition destroy (d : work_stealing_deque) :
    outcome (list (option T) * list (circular_array T)) :=
  tasks ← destroy_loop (Z.to_nat (bottom_ d - top_ d)) (top_ d) (array_ d);
  Ok (tasks, array_ d :: history_ d).

(** ** The abstraction *)

Record represents (d : work_stealing_deque) (q : list T) : Prop := {
  rep_wf : array_wf (array_ d);
  rep_top : 0 ≤ top_ d;
  rep_len : bottom_ d - top_ d = Z.of_nat (length q);
  rep_cap : Z.of_nat (length q) ≤ capacity (array_ d) - 1;
  rep_slot : ∀ k, (k < length q)%nat → slot (array_ d) (top_ d + Z.of_nat k) = q !! k;
}.

(** The sizes for which no 64-bit arithmetic overflows: the indices and the
    doubled capacity stay in range. *)
Definition roomy (d : work_stealing_deque) : Prop :=
  bottom_ d < int64_max ∧ capacity (array_ d) * 2 ≤ int64_max.

Implicit Types (d : work_stealing_deque) (q : list T).

Lemma new_deque_represents c :
  is_pow2 c → ∃ d, new_deque c = Ok d ∧ represents d [] ∧ array_ d = new_circular_array c.
Proof.
  intros Hc. pose proof (is_pow2_pos _ Hc). unfold new_deque.
  rewrite land_mask by done. rewrite Z.mod_same by lia.
  eexists. split; [done|]. split; [|done].
  split; simpl; [eauto with rt|lia..].
Qed.

(** The array in which [push] stores: the old one, or the one it grew. *)
Lemma push_room d q :
  represents d q → roomy d →
  ∃ a hist,
    (if capacity (array_ d) - 1 <=? bottom_ d - top_ d
     then new_a ← grow (array_ d) (bottom_ d) (top_ d); Ok (new_a, history_ d ++ [array_ d])
     else Ok (array_ d, history_ d)) = Ok (a, hist) ∧
    array_wf a ∧ Z.of_nat (length q) < capacity a - 1 ∧
    capacity (array_ d) ≤ capacity a ≤ Z.max (capacity (array_ d)) (2 * (Z.of_nat (length q) + 1)) ∧
    ∀ j, top_ d ≤ j < bottom_ d → slot a j = slot (array_ d) j.
Proof.
  intros [Hw Ht Hl Hc Hs] [Hb Hr]. pose proof (is_pow2_pos _ (wf_pow2 _ Hw)).
  destruct (_ <=? _) eqn:E; zbool.
  - destruct (grow_spec (array_ d) (bottom_ d) (top_ d)) as (a & -> & Ha & Hca & Hsl);
      [done|done|lia|].
    exists a, (history_ d ++ [array_ d]). simpl. split_and!; [done..|lia|lia|lia|done].
  - exists (array_ d), (history_ d). split_and!; [done..|lia|lia|lia|done].
Qed.

Lemma push_correct d q x :
  represents d q → roomy d →
  ∃ d', push x d = Ok d' ∧ represents d' (q ++ [x]) ∧
    top_ d' = top_ d ∧ bottom_ d' = bottom_ d + 1 ∧
    capacity (array_ d') ≤ Z.max (capacity (array_ d)) (2 * (Z.of_nat (length q) + 1)).
Proof.
  intros Hrep Hroom. destruct (push_room d q Hrep Hroom) as (a & hist & Hif & Ha & Hca & Hcl & Hsl).
  destruct Hrep as [Hw Ht Hl Hc Hs]; destruct Hroom as [Hb Hr].
  pose proof (is_pow2_pos _ (wf_pow2 _ Hw)).
  unfold push. int_ok. rewrite Hif; simpl.
  rewrite buf_store_slot by done; simpl.
  int_ok.
  eexists; split_and!; [done| |done|done|simpl; lia].
  split; simpl; rewrite ?length_app; simpl; [eauto with rt|done|lia|lia|].
  intros k Hk. destruct (decide (k = length q)) as [->|Hne].
  - rewrite lookup_snoc_eq. replace (top_ d + _) with (bottom_ d) by lia. by apply slot_store_eq.
  - rewrite lookup_snoc_lt by lia. rewrite slot_store_ne by (done || lia).
    rewrite Hsl by lia. apply Hs. lia.
Qed.

Lemma represents_shrink d q x :
  represents d (q ++ [x]) → represents (set_bottom (bottom_ d - 1) d) q.
Proof.
  intros [Hw Ht Hl Hc Hs]. rewrite length_app in *; simpl in *.
  split; simpl; [done|done|lia|lia|]. intros k Hk.
  rewrite Hs by lia. by apply lookup_snoc_lt.
Qed.

Lemma pop_empty d : represents d [] → bottom_ d ≤ int64_max → pop d = Ok (None, d).
Proof.
  intros [Hw Ht Hl Hc Hs] Hb. simpl in *. unfold pop.
  int_ok.
  rewrite (proj2 (Z.ltb_lt _ _)) by lia.
  int_ok.
  destruct d as [t b a h]; unfold set_bottom; simpl. by rewrite Z.sub_add.
Qed.

Lemma pop_nonempty d q x :
  represents d (q ++ [x]) → bottom_ d ≤ int64_max →
  ∃ d', pop d = Ok (Some x, d') ∧ represents d' q ∧ bottom_ d' ≤ bottom_ d ∧ array_ d' = array_ d.
Proof.
  intros Hrep Hb. pose proof (represents_shrink _ _ _ Hrep) as Hsh.
  destruct Hrep as [Hw Ht Hl Hc Hs]. rewrite length_app in *; simpl in *.
  unfold pop. int_ok.
  rewrite (proj2 (Z.ltb_ge _ _)) by lia. rewrite buf_load_slot by done; simpl.
  assert (slot (array_ d) (bottom_ d - 1) = Some x) as ->.
  { replace (bottom_ d - 1) with (top_ d + Z.of_nat (length q)) by lia.
    rewrite Hs by lia. by rewrite lookup_snoc_eq. }
  destruct (bottom_ d - 1 - top_ d =? 0) eqn:E; zbool.
  - int_ok.
    unfold cas_top; simpl. rewrite Z.eqb_refl.
    int_ok.
    eexists; split_and!; [done| |simpl; lia|done].
    assert (q = []) as -> by (destruct q; simpl in *; [done|lia]).
    split; simpl in *; [done|lia|lia|lia|intros; lia].
  - eexists; split_and!; [done|done|simpl; lia|done].
Qed.

Lemma steal_empty d : represents d [] → bottom_ d ≤ int64_max → steal d = Ok (None, d).
Proof.
  intros [Hw Ht Hl Hc Hs] Hb. simpl in *. unfold steal.
  int_ok.
  by rewrite (proj2 (Z.leb_le _ _)) by lia.
Qed.

Lemma steal_nonempty d q x :
  represents d (x :: q) → bottom_ d ≤ int64_max →
  ∃ d', steal d = Ok (Some x, d') ∧ represents d' q ∧ bottom_ d' = bottom_ d ∧ array_ d' = array_ d.
Proof.
  intros [Hw Ht Hl Hc Hs] Hb. simpl in *. unfold steal.
  int_ok.
  rewrite (proj2 (Z.leb_gt _ _)) by lia. rewrite buf_load_slot by done; simpl.
  pose proof (Hs 0%nat ltac:(lia)) as H0. rewrite Z.add_0_r in H0. rewrite H0.
  int_ok.
  unfold cas_top; simpl. rewrite Z.eqb_refl.
  eexists; split_and!; [done| |done|done]. split; simpl; [done|lia|lia|lia|].
  intros k Hk. change (q !! k) with ((x :: q) !! S k).
  rewrite <- Hs by lia. f_equal. lia.
Qed.

Lemma empty_correct d q : represents d q → empty d = bool_decide (q = []).
Proof.
  intros [Hw Ht Hl Hc Hs]. unfold empty. destruct q; simpl in *.
  - by rewrite (proj2 (Z.leb_le _ _)) by lia.
  - by rewrite (proj2 (Z.leb_gt _ _)) by lia.
Qed.

Lemma destroy_loop_correct a q i :
  array_wf a → (∀ k, (k < length q)%nat → slot a (i + Z.of_nat k) = q !! k) →
  destroy_loop (length q) i a = Ok (Some <$> q).
Proof.
  intros Hw. revert i. induction q as [|x q IH]; intros i Hs; [done|]. simpl.
  rewrite buf_load_slot by done; simpl.
  pose proof (Hs 0%nat ltac:(simpl; lia)) as H0. rewrite Z.add_0_r in H0. rewrite H0.
  rewrite IH; [done|]. intros k Hk. change (q !! k) with ((x :: q) !! S k).
  rewrite <- Hs by (simpl; lia). f_equal. lia.
Qed.

(** ** Sequences of operations *)

Definition apply (o : dop T) (d : work_stealing_deque) :
    outcome (option T * work_stealing_deque) :=
  match o with
  | OpPush x => d' ← push x d; Ok (None, d')
  | OpPop => pop d
  | OpSteal => steal d
  end.

Fixpoint run (os : list (dop T)) (d : work_stealing_deque) :
    outcome (list (option T) * work_stealing_deque) :=
  match os with
  | [] => Ok ([], d)
  | o :: os =>
      '(r, d1) ← apply o d;
      '(rs, d2) ← run os d1;
      Ok (r :: rs, d2)
  end.

(** After [n] pushes the indices are at most [n], and the array was doubled
    only to hold what was pushed. *)
Definition bounded (n : Z) (d : work_stealing_deque) : Prop :=
  bottom_ d ≤ n ∧ capacity (array_ d) ≤ Z.max 1024 (2 * n).

Lemma bounded_roomy n d : bounded n d → n < 2^61 → roomy d.
Proof. intros [??] ?. split; int_lia. Qed.

Lemma apply_correct o d q n :
  represents d q → bounded n d → n < 2^61 →
  ∃ d', apply o d = Ok ((ref_apply o q).1, d') ∧ represents d' (ref_apply o q).2 ∧
    bounded (n + if is_push o then 1 else 0) d'.
Proof.
  intros Hrep Hb Hn. pose proof (bounded_roomy _ _ Hb ltac:(lia)) as Hroom.
  pose proof Hb as [Hbot Hcap]. assert (bottom_ d ≤ int64_max) by int_lia.
  destruct o as [x| |]; simpl.
  - destruct (push_correct d q x Hrep Hroom) as (d' & -> & Hrep' & Ht' & Hb' & Hc').
    exists d'. split_and!; [done..|]. destruct Hrep. split; lia.
  - destruct (snoc_case q) as [->|(q' & x & ->)].
    + exists d. rewrite pop_empty by done. split_and!; [done..|split; simpl; lia].
    + destruct (pop_nonempty d q' x Hrep) as (d' & -> & Hrep' & Hb' & Ha'); [done|].
      exists d'. rewrite ref_pop_snoc. split_and!; [done..|split; simpl; [lia|by rewrite Ha', Z.add_0_r]].
  - destruct q as [|x q].
    + exists d. rewrite steal_empty by done. split_and!; [done..|split; simpl; lia].
    + destruct (steal_nonempty d q x Hrep) as (d' & -> & Hrep' & Hb' & Ha'); [done|].
      exists d'. split_and!; [done..|split; simpl; [lia|by rewrite Ha', Z.add_0_r]].
Qed.

Lemma run_correct os d q n :
  represents d q → bounded n d → n + Z.of_nat (countb is_push os) < 2^61 →
  ∃ d', run os d = Ok ((ref_run os q).1, d') ∧ represents d' (ref_run os q).2.
Proof.
  revert d q n. induction os as [|o os IH]; intros d q n Hrep Hb Hn; [by exists d|].
  rewrite countb_cons in Hn. simpl.
  destruct (apply_correct o d q n Hrep Hb ltac:(lia)) as (d1 & -> & Hrep1 & Hb1); simpl.
  destruct (IH d1 _ _ Hrep1 Hb1) as (d2 & -> & Hrep2); [destruct (is_push o); lia|].
  exists d2. destruct (ref_apply o q) as [r q1]; simpl in *. by destruct (ref_run os q1).
Qed.

(** ** Properties *)

(** (C5) The sequential deque is equivalent to the list reference: from the
    constructor, any sequence of fewer than 2^61 pushes, pops and steals is
    defined (no signed overflow, no access out of bounds), returns the task
    pointers the reference returns, and ends in a deque that represents the
    reference's list.  The array grows on the way as often as needed. *)
Theorem deque_run_equivalent (os : list (dop T)) :
  Z.of_nat (countb is_push os) < 2^61 →
  ∃ d, new_deque initial_capacity_default ≫= run os = Ok ((ref_run os []).1, d) ∧
    represents d (ref_run os []).2.
Proof.
  intros Hn. destruct (new_deque_represents 1024 is_pow2_1024) as (d & Hd & Hrep & Ha).
  unfold initial_capacity_default. rewrite Hd. apply (run_correct os d [] 0 Hrep); [|lia].
  unfold new_deque in Hd. simpl in Hd. injection Hd as <-. split; simpl; lia.
Qed.

(** (C6) The destructor passes to [delete] exactly the tasks still queued, each
    once and oldest first, and never a null pointer; then the current array and
    every array it replaced. *)
Theorem destroy_deletes_remaining (d : work_stealing_deque) (q : list T) :
  represents d q → destroy d = Ok (Some <$> q, array_ d :: history_ d).
Proof.
  intros [Hw Ht Hl Hc Hs]. unfold destroy.
  replace (Z.to_nat _) with (length q) by lia. by rewrite destroy_loop_correct.
Qed.

End work_deque.
Arguments work_stealing_deque : clear implicits.

(** A deque of capacity 2 that grows twice, is popped and stolen from. *)
Definition demo_ops : list (dop nat) :=
  [OpPush 1; OpPush 2; OpPush 3; OpPush 4; OpSteal; OpPop; OpPop; OpSteal; OpSteal; OpPop]%nat.

Lemma deque_run_equivalent_witness :
  ∃ d, new_deque initial_capacity_default ≫= run demo_ops =
         Ok ([None; None; None; None; Some 1; Some 4; Some 3; Some 2; None; None]%nat, d) ∧
       represents d [].
Proof. apply (deque_run_equivalent demo_ops). reflexivity. Defined.

Definition demo_deque : work_stealing_deque nat :=
  {| top_ := 3; bottom_ := 5;
     array_ := {| capacity := 4; mask := 3; buffer := [Some 8; None; None; Some 7]%nat |};
     history_ := [] |}.

Lemma destroy_deletes_remaining_witness :
  destroy demo_deque = Ok ([Some 7%nat; Some 8%nat], [array_ demo_deque]).
Proof.
  apply (destroy_deletes_remaining demo_deque [7; 8]%nat). split; simpl; try lia.
  - split; simpl; [by exists 2|done|done].
  - intros [|[|k]] Hk; [done|done|lia].
Defined.
