(* ===== verification/ChaseLev.v ===== *)
(** * The work-stealing deque under interleaving

    The same operations of [work_stealing_deque] (src/src/thread_pool.cpp) as
    ChaseLev.state transitions: one owner thread executes [push] and [pop],
    any number of thieves execute [steal], and every atomic access to [top_],
    [bottom_], [array_] or a buffer slot is one step, so that the accesses of
    different threads interleave freely.  The memory is sequentially
    consistent: every access to [top_] and [bottom_] that the algorithm
    relies on is [memory_order_seq_cst] in the source, a buffer slot is
    published by the [seq_cst] store of [bottom_], and [array_] by a
    release/acquire pair.  ChaseLevTso drops this assumption for the stores that are
    not [seq_cst].

    Arrays live in a heap addressed by index, since thieves may hold a pointer
    to an array the owner has replaced; nothing is removed from the heap before
    the destructor ([history_] keeps the old arrays alive).

    [chase_lev_linearizable] shows that the traces of invocations and responses
    are traces of the atomic deque of DequeSpec. *)

From S2P Require Import Prelude MachineInt CircularArray DequeSpec.
From stdpp Require Import options.
Local Open Scope Z_scope.
Import Atomic (label, InvPush, RetPush, InvPop, RetPop, InvSteal, RetSteal).

Definition ok {A} (m : outcome A) : option A :=
  match m with Ok a => Some a | Undef _ => None end.

Section chase_lev.
Context {T : Type}.

(** Program counters of the owner.  Each names the access it is about to
    make; the arguments are the local variables already assigned. *)
Inductive owner_pc : Type :=
| O_Idle
| O_PushB (x : T)                              (** load [bottom_] *)
| O_PushT (x : T) (b : Z)                      (** load [top_] *)
| O_PushA (x : T) (b t : Z)                    (** load [array_], test the size *)
| O_PushGrow (x : T) (b t : Z) (a : nat)       (** [a->grow(b, t)] *)
| O_PushPublish (x : T) (b : Z) (a new_a : nat) (** [history_], store [array_] *)
| O_PushStore (x : T) (b : Z) (a : nat)        (** store the slot *)
| O_PushBottom (x : T) (b : Z)                 (** store [bottom_] *)
| O_PushRet
| O_PopB                                       (** load [bottom_] *)
| O_PopA (b : Z)                               (** load [array_] *)
| O_PopDec (b : Z) (a : nat)                   (** store [bottom_] *)
| O_PopT (b : Z) (a : nat)                     (** load [top_], test the size *)
| O_PopLoad (b : Z) (a : nat) (t : Z)          (** load the slot *)
| O_PopCas (b t : Z) (task : option T)         (** compare-exchange on [top_] *)
| O_PopFix (b : Z) (task : option T)           (** store [bottom_] back to [b + 1] *)
| O_PopRet (task : option T).

Inductive thief_pc : Type :=
| T_Idle
| T_Top                                        (** load [top_] *)
| T_Bot (t : Z)                                (** load [bottom_], test the size *)
| T_Arr (t : Z)                                (** load [array_] *)
| T_Load (t : Z) (a : nat)                     (** load the slot *)
| T_Cas (t : Z) (task : option T)              (** compare-exchange on [top_] *)
| T_Ret (task : option T).

Record state := State {
  top : Z;
  bottom : Z;
  array : nat;
  heap : list (circular_array T);
  history : list nat;
  owner : owner_pc;
  thieves : list thief_pc;
}.

Definition with_top (z : Z) (s : state) : state :=
  State z (bottom s) (array s) (heap s) (history s) (owner s) (thieves s).
Definition with_bottom (z : Z) (s : state) : state :=
  State (top s) z (array s) (heap s) (history s) (owner s) (thieves s).
Definition with_heap (h : list (circular_array T)) (s : state) : state :=
  State (top s) (bottom s) (array s) h (history s) (owner s) (thieves s).
Definition publish (a new_a : nat) (s : state) : state :=
  State (top s) (bottom s) new_a (heap s) (history s ++ [a]) (owner s) (thieves s).
Definition with_owner (o : owner_pc) (s : state) : state :=
  State (top s) (bottom s) (array s) (heap s) (history s) o (thieves s).
Definition with_thief (i : nat) (p : thief_pc) (s : state) : state :=
  State (top s) (bottom s) (array s) (heap s) (history s) (owner s) (<[i:=p]> (thieves s)).

Definition init (n : nat) : state :=
  State 0 0 0%nat [new_circular_array 1024] [] O_Idle (replicate n T_Idle).

(** The owner's next access inside [push]. *)
Definition push_step (s : state) : option (option (label T) * state) :=
  match owner s with
  | O_PushB x => Some (None, with_owner (O_PushT x (bottom s)) s)
  | O_PushT x b => Some (None, with_owner (O_PushA x b (top s)) s)
  | O_PushA x b t =>
      a ← heap s !! array s;
      size ← ok (int64_sub b t);
      limit ← ok (int64_sub (capacity a) 1);
      Some (None, with_owner (if limit <=? size then O_PushGrow x b t (array s)
                              else O_PushStore x b (array s)) s)
  | O_PushGrow x b t p =>
      a ← heap s !! p;
      new_a ← ok (grow a b t);
      Some (None, with_owner (O_PushPublish x b p (length (heap s)))
                    (with_heap (heap s ++ [new_a]) s))
  | O_PushPublish x b p new_p =>
      Some (None, with_owner (O_PushStore x b new_p) (publish p new_p s))
  | O_PushStore x b p =>
      a ← heap s !! p;
      a' ← ok (buf_store a (Z.land b (mask a)) (Some x));
      Some (None, with_owner (O_PushBottom x b) (with_heap (<[p:=a']> (heap s)) s))
  | O_PushBottom x b =>
      b1 ← ok (int64_add b 1);
      Some (None, with_owner O_PushRet (with_bottom b1 s))
  | O_PushRet => Some (Some RetPush, with_owner O_Idle s)
  | _ => None
  end.

(** The owner's next access inside [pop]. *)
Definition pop_step (s : state) : option (option (label T) * state) :=
  match owner s with
  | O_PopB =>
      b ← ok (int64_sub (bottom s) 1);
      Some (None, with_owner (O_PopA b) s)
  | O_PopA b => Some (None, with_owner (O_PopDec b (array s)) s)
  | O_PopDec b p => Some (None, with_owner (O_PopT b p) (with_bottom b s))
  | O_PopT b p =>
      size ← ok (int64_sub b (top s));
      Some (None, with_owner (if size <? 0 then O_PopFix b None
                              else O_PopLoad b p (top s)) s)
  | O_PopLoad b p t =>
      a ← heap s !! p;
      task ← ok (buf_load a (Z.land b (mask a)));
      Some (None, with_owner (if b - t =? 0 then O_PopCas b t task else O_PopRet task) s)
  | O_PopCas b t task =>
      if top s =? t
      then t1 ← ok (int64_add t 1);
           Some (None, with_owner (O_PopFix b task) (with_top t1 s))
      else Some (None, with_owner (O_PopFix b None) s)
  | O_PopFix b task =>
      b1 ← ok (int64_add b 1);
      Some (None, with_owner (O_PopRet task) (with_bottom b1 s))
  | O_PopRet task => Some (Some (RetPop task), with_owner O_Idle s)
  | _ => None
  end.

(** Thief [i]'s next access inside [steal]. *)
Definition steal_step (i : nat) (s : state) : option (option (label T) * state) :=
  pc ← thieves s !! i;
  match pc with
  | T_Idle => None
  | T_Top => Some (None, with_thief i (T_Bot (top s)) s)
  | T_Bot t =>
      size ← ok (int64_sub (bottom s) t);
      Some (None, with_thief i (if size <=? 0 then T_Ret None else T_Arr t) s)
  | T_Arr t => Some (None, with_thief i (T_Load t (array s)) s)
  | T_Load t p =>
      a ← heap s !! p;
      task ← ok (buf_load a (Z.land t (mask a)));
      Some (None, with_thief i (T_Cas t task) s)
  | T_Cas t task =>
      if top s =? t
      then t1 ← ok (int64_add t 1);
           Some (None, with_thief i (T_Ret task) (with_top t1 s))
      else Some (None, with_thief i (T_Ret None) s)
  | T_Ret task => Some (Some (RetSteal i task), with_thief i T_Idle s)
  end.

Inductive step : state → option (label T) → state → Prop :=
| step_inv_push s x :
    owner s = O_Idle → step s (Some (InvPush x)) (with_owner (O_PushB x) s)
| step_push s l s' : push_step s = Some (l, s') → step s l s'
| step_inv_pop s :
    owner s = O_Idle → step s (Some InvPop) (with_owner O_PopB s)
| step_pop s l s' : pop_step s = Some (l, s') → step s l s'
| step_inv_steal s i :
    thieves s !! i = Some T_Idle → step s (Some (InvSteal i)) (with_thief i T_Top s)
| step_steal s i l s' : steal_step i s = Some (l, s') → step s l s'.

(** ** Schedules: an executable form of the step relation *)

Inductive action : Type :=
| CallPush (x : T)
| CallPop
| Owner                  (** one access of the owner *)
| CallSteal (i : nat)
| Thief (i : nat).       (** one access of thief [i] *)

Definition act (a : action) (s : state) : option (option (label T) * state) :=
  match a with
  | CallPush x =>
      match owner s with
      | O_Idle => Some (Some (InvPush x), with_owner (O_PushB x) s)
      | _ => None
      end
  | CallPop =>
      match owner s with
      | O_Idle => Some (Some InvPop, with_owner O_PopB s)
      | _ => None
      end
  | Owner => match push_step s with Some r => Some r | None => pop_step s end
  | CallSteal i =>
      match thieves s !! i with
      | Some T_Idle => Some (Some (InvSteal i), with_thief i T_Top s)
      | _ => None
      end
  | Thief i => steal_step i s
  end.

Fixpoint schedule (acts : list action) (s : state) : option (list (option (label T)) * state) :=
  match acts with
  | [] => Some ([], s)
  | a :: acts =>
      '(l, s1) ← act a s;
      '(ls, s2) ← schedule acts s1;
      Some (l :: ls, s2)
  end.

Lemma act_step a s l s' : act a s = Some (l, s') → step s l s'.
Proof.
  destruct a; simpl; intros H.
  1,2: destruct (owner s) eqn:?; simplify_eq; by constructor.
  - destruct (push_step s) eqn:E; simplify_eq; [by apply step_push | by apply step_pop].
  - destruct (thieves s !! i) as [[]|] eqn:?; simplify_eq; by constructor.
  - by eapply step_steal.
Qed.

Lemma schedule_runs acts s ls s' : schedule acts s = Some (ls, s') → runs step s ls s'.
Proof.
  revert s ls. induction acts as [|a acts IH]; intros s ls H; simpl in H.
  - simplify_eq. constructor.
  - apply bind_Some in H as ([l s1] & Ha & H). apply bind_Some in H as ([ls2 s2] & Hs & H).
    simplify_eq. apply (runs_trans _ s [l] s1); [|by apply IH].
    by apply runs_one, (act_step a).
Qed.

(** ** Observations *)

(** The tasks in the deque when no owner operation is in progress, read off
    the current array. *)
Definition content (s : state) : list T :=
  match heap s !! array s with
  | Some a => omap (slot a) (seqZ (top s) (bottom s - top s))
  | None => []
  end.

Definition quiescent (s : state) : Prop :=
  owner s = O_Idle ∧ Forall (λ p, p = T_Idle) (thieves s).

(** How many accesses an operation in progress still has to make, at most. *)
Definition owner_rank (o : owner_pc) : nat :=
  match o with
  | O_Idle => 0
  | O_PushB _ => 8 | O_PushT _ _ => 7 | O_PushA _ _ _ => 6 | O_PushGrow _ _ _ _ => 5
  | O_PushPublish _ _ _ _ => 4 | O_PushStore _ _ _ => 3 | O_PushBottom _ _ => 2 | O_PushRet => 1
  | O_PopB => 8 | O_PopA _ => 7 | O_PopDec _ _ => 6 | O_PopT _ _ => 5 | O_PopLoad _ _ _ => 4
  | O_PopCas _ _ _ => 3 | O_PopFix _ _ => 2 | O_PopRet _ => 1
  end.

Definition thief_rank (p : thief_pc) : nat :=
  match p with
  | T_Idle => 0 | T_Top => 6 | T_Bot _ => 5 | T_Arr _ => 4 | T_Load _ _ => 3 | T_Cas _ _ => 2
  | T_Ret _ => 1
  end.

(** ** The simulation relation *)

(** The end of the abstract queue.  While the owner is inside [pop] and has
    lowered [bottom_] without having taken the task, the queue still reaches
    one slot further. *)
Definition absbot (s : state) : Z :=
  match owner s with
  | O_PopT b _ | O_PopCas b _ _ | O_PopFix b _ => b + 1
  | O_PopLoad b _ t => if b - t =? 0 then b + 1 else b
  | _ => bottom s
  end.

(** [a] holds the queue [q] from logical index [t] on, with a free slot. *)
Definition window (a : circular_array T) (t : Z) (q : list T) : Prop :=
  Z.of_nat (length q) ≤ capacity a - 1 ∧
  ∀ k, (k < length q)%nat → slot a (t + Z.of_nat k) = q !! k.

Definition owner_rel (c : state) (cur : circular_array T) (q : list T)
    (so : Atomic.owner_st T) : Prop :=
  match owner c with
  | O_Idle => so = Atomic.OIdle
  | O_PushB x => so = Atomic.OPushing x
  | O_PushT x b => so = Atomic.OPushing x ∧ b = bottom c
  | O_PushA x b t =>
      so = Atomic.OPushing x ∧ b = bottom c ∧ 0 ≤ t ≤ top c ∧ b - t ≤ capacity cur - 1
  | O_PushGrow x b t p =>
      so = Atomic.OPushing x ∧ b = bottom c ∧ 0 ≤ t ≤ top c ∧ b - t = capacity cur - 1 ∧ p = array c
  | O_PushPublish x b p new_p =>
      so = Atomic.OPushing x ∧ b = bottom c ∧ p = array c ∧
      ∃ new_a, heap c !! new_p = Some new_a ∧ window new_a (top c) q ∧
        Z.of_nat (length q) < capacity new_a - 1
  | O_PushStore x b p =>
      so = Atomic.OPushing x ∧ b = bottom c ∧ p = array c ∧
      Z.of_nat (length q) < capacity cur - 1
  | O_PushBottom x b =>
      so = Atomic.OPushing x ∧ b = bottom c ∧
      Z.of_nat (length q) < capacity cur - 1 ∧ slot cur b = Some x
  | O_PushRet => so = Atomic.OPushed
  | O_PopB => so = Atomic.OPopping
  | O_PopA b => so = Atomic.OPopping ∧ b = bottom c - 1
  | O_PopDec b p => so = Atomic.OPopping ∧ b = bottom c - 1 ∧ p = array c
  | O_PopT b p => so = Atomic.OPopping ∧ b = bottom c ∧ p = array c
  | O_PopLoad b p t =>
      b = bottom c ∧ p = array c ∧ 0 ≤ t ≤ top c ∧ t ≤ b ∧
      if b - t =? 0 then so = Atomic.OPopping
      else ∃ x, so = Atomic.OPopped (Some x) ∧ slot cur b = Some x
  | O_PopCas b t r =>
      so = Atomic.OPopping ∧ b = bottom c ∧ t = b ∧ t ≤ top c ∧ (top c = t → r = head q)
  | O_PopFix b r => so = Atomic.OPopped r ∧ b = bottom c ∧ q = []
  | O_PopRet r => so = Atomic.OPopped r
  end.

Definition thief_rel (c : state) (q : list T) (p : thief_pc) (sp : Atomic.thief_st T) : Prop :=
  match p with
  | T_Idle => sp = Atomic.TIdle
  | T_Top => sp = Atomic.TStealing
  | T_Bot t => sp = Atomic.TStealing ∧ 0 ≤ t ≤ top c
  | T_Arr t => sp = Atomic.TStealing ∧ 0 ≤ t ≤ top c ∧ (top c = t → q ≠ [])
  | T_Load t a =>
      sp = Atomic.TStealing ∧ 0 ≤ t ≤ top c ∧
      ∃ arr, heap c !! a = Some arr ∧ (top c = t → q ≠ [] ∧ slot arr t = head q)
  | T_Cas t r =>
      sp = Atomic.TStealing ∧ 0 ≤ t ≤ top c ∧ (top c = t → q ≠ [] ∧ r = head q)
  | T_Ret r => sp = Atomic.TStolen r
  end.

Record sim (c : state) (s : Atomic.state T) : Prop := {
  sim_heap : Forall array_wf (heap c);
  sim_top : 0 ≤ top c;
  sim_len : absbot c - top c = Z.of_nat (length (Atomic.queue s));
  sim_cur : ∃ cur, heap c !! array c = Some cur ∧
              window cur (top c) (Atomic.queue s) ∧
              owner_rel c cur (Atomic.queue s) (Atomic.owner s);
  sim_thieves : Forall2 (thief_rel c (Atomic.queue s)) (thieves c) (Atomic.thieves s);
}.

End chase_lev.
Arguments owner_pc : clear implicits.
Arguments thief_pc : clear implicits.
Arguments state : clear implicits.
Arguments action : clear implicits.
