(* ===== verification/ChaseLevProof.v ===== *)
(** * Linearizability of the work-stealing deque

    The forward simulation from the interleaved deque of ChaseLev to the
    atomic deque of DequeSpec, and its consequences: trace inclusion, and the
    conservation of tasks (nothing pushed is lost, nothing is handed out
    twice).  The linearization points are the store of [bottom_] in [push], the
    load of [top_] or the compare-exchange in [pop], and the compare-exchange
    in [steal]. *)

From S2P Require Import Prelude MachineInt CircularArray DequeSpec ChaseLev.
From stdpp Require Import options.
Local Open Scope Z_scope.
Import Atomic (label, InvPush, RetPush, InvPop, RetPop, InvSteal, RetSteal).

Section proof.
Context {T : Type}.
Implicit Types (c : state T) (s : Atomic.state T) (q : list T) (cur a : circular_array T).

Lemma ok_inv {A} (m : outcome A) x : ok m = Some x → m = Ok x.
Proof. destruct m; naive_solver. Qed.

Lemma int64_sub_inv x y z : ok (int64_sub x y) = Some z → z = x - y.
Proof. intros H%ok_inv%int64_chk_inv. naive_solver. Qed.
Lemma int64_add_inv x y z : ok (int64_add x y) = Some z → z = x + y.
Proof. intros H%ok_inv%int64_chk_inv. naive_solver. Qed.

(** ** Windows *)

Lemma window_tail a t x q : window a t (x :: q) → window a (t + 1) q.
Proof.
  intros [Hl Hs]. simpl in *. split; [lia|]. intros k Hk.
  change (q !! k) with ((x :: q) !! S k). rewrite <- Hs by lia. f_equal. lia.
Qed.

Lemma window_init a t q x : window a t (q ++ [x]) → window a t q.
Proof.
  intros [Hl Hs]. rewrite length_app in *; simpl in *. split; [lia|]. intros k Hk.
  rewrite Hs by lia. by apply lookup_snoc_lt.
Qed.

Lemma window_last a t q x :
  window a t (q ++ [x]) → slot a (t + Z.of_nat (length q)) = Some x.
Proof.
  intros [Hl Hs]. rewrite length_app in *; simpl in *.
  rewrite Hs by lia. by rewrite lookup_snoc_eq.
Qed.

Lemma window_head a t q : window a t q → q ≠ [] → slot a t = head q.
Proof.
  intros [Hl Hs] Hne. destruct q as [|x q]; [done|]. simpl in *.
  rewrite <- (Z.add_0_r t). by apply (Hs 0%nat); lia.
Qed.

Lemma window_snoc a t b q x :
  window a t q → Z.of_nat (length q) < capacity a - 1 → b = t + Z.of_nat (length q) →
  slot a b = Some x → window a t (q ++ [x]).
Proof.
  intros [Hl Hs] Hc -> Hx. unfold window. rewrite length_app; simpl. split; [lia|].
  intros k Hk. destruct (decide (k = length q)) as [->|].
  - by rewrite lookup_snoc_eq.
  - rewrite lookup_snoc_lt by lia. apply Hs. lia.
Qed.

Lemma window_store a t b q p :
  array_wf a → window a t q → Z.of_nat (length q) < capacity a - 1 →
  b = t + Z.of_nat (length q) → window (store_slot a b p) t q.
Proof.
  intros Hw [Hl Hs] Hc ->. split; [simpl; lia|]. intros k Hk.
  rewrite slot_store_ne by (done || lia). by apply Hs.
Qed.

Lemma window_move a a' t q b' t' :
  window a t q → capacity a ≤ capacity a' → t' ≤ t → t + Z.of_nat (length q) ≤ b' →
  (∀ j, t' ≤ j < b' → slot a' j = slot a j) → window a' t q.
Proof.
  intros [Hl Hs] Hc ?? Hsl. split; [lia|]. intros k Hk. rewrite Hsl by lia. by apply Hs.
Qed.

(** ** Stability of what threads know *)

Lemma thief_rel_stable c c' q q' p sp :
  top c ≤ top c' →
  (top c' = top c → q ≠ [] → q' ≠ [] ∧ head q' = head q) →
  (∀ i a, heap c !! i = Some a → ∃ a', heap c' !! i = Some a' ∧
     (top c' = top c → q ≠ [] → slot a' (top c) = slot a (top c))) →
  thief_rel c q p sp → thief_rel c' q' p sp.
Proof.
  intros Ht Hq Hh. destruct p as [| |t|t|t i|t r|r]; simpl; [done|done|naive_solver lia| | | |done].
  - intros (-> & Hle & Hne). split_and!; [done|lia|lia|]. intros Heq.
    destruct Hq; [lia|apply Hne; lia|done].
  - intros (-> & Hle & a & Ha & Hne). split_and!; [done|lia|lia|].
    destruct (Hh _ _ Ha) as (a' & Ha' & Hsl). exists a'. split; [done|]. intros Heq.
    destruct Hne as [Hn Hs]; [lia|]. destruct Hq as [Hq1 Hq2]; [lia|done|].
    split; [done|]. rewrite Hq2, <- Hs. replace t with (top c) by lia. apply Hsl; [lia|done].
  - intros (-> & Hle & Hne). split_and!; [done|lia|lia|]. intros Heq.
    destruct Hne as [Hn Hs]; [lia|]. destruct Hq as [Hq1 Hq2]; [lia|done|]. by rewrite Hq2.
Qed.

(** The obligation of an owner step, with the thieves taken care of. *)
Lemma sim_update c s c' q' so' :
  sim c s → thieves c' = thieves c → Forall array_wf (heap c') → top c ≤ top c' →
  absbot c' - top c' = Z.of_nat (length q') →
  (∃ cur, heap c' !! array c' = Some cur ∧ window cur (top c') q' ∧ owner_rel c' cur q' so') →
  (top c' = top c → Atomic.queue s ≠ [] → q' ≠ [] ∧ head q' = head (Atomic.queue s)) →
  (∀ i a, heap c !! i = Some a → ∃ a', heap c' !! i = Some a' ∧
     (top c' = top c → Atomic.queue s ≠ [] → slot a' (top c) = slot a (top c))) →
  sim c' (Atomic.State q' so' (Atomic.thieves s)).
Proof.
  intros [Hh Ht Hl Hc Hth] Hths Hh' Hle Hlen Hcur Hq Hheap.
  split; simpl; [done|lia|done|done|]. rewrite Hths.
  eapply Forall2_impl; [exact Hth|]. intros p sp. by apply thief_rel_stable.
Qed.

(** Owner steps that change nothing but the owner's program counter. *)
Lemma sim_owner c s cur o so :
  sim c s → heap c !! array c = Some cur → absbot (with_owner o c) = absbot c →
  owner_rel (with_owner o c) cur (Atomic.queue s) so →
  sim (with_owner o c) (Atomic.set_owner so s).
Proof.
  intros Hsim Hcur Habs Ho. pose proof Hsim as [Hh Ht Hl (cur' & Hc' & Hw & _) Hth].
  simplify_eq. eapply (sim_update c); simpl; [done|done|done|lia|by rewrite Habs|by eauto|done|by eauto].
Qed.

Lemma set_owner_same s : Atomic.set_owner (Atomic.owner s) s = s.
Proof. by destruct s. Qed.

(** The same, when the atomic deque does not move. *)
Lemma sim_owner_stutter c s cur o :
  sim c s → heap c !! array c = Some cur → absbot (with_owner o c) = absbot c →
  owner_rel (with_owner o c) cur (Atomic.queue s) (Atomic.owner s) →
  sim (with_owner o c) s.
Proof. intros. rewrite <- (set_owner_same s). by eapply sim_owner. Qed.

(** A step of the atomic deque with the given label, or no step. *)
Definition move (s : Atomic.state T) (l : option (label T)) (s' : Atomic.state T) : Prop :=
  (l = None ∧ s' = s) ∨ Atomic.step s l s'.

Lemma move_stutter s : move s None s.
Proof. by left. Qed.
Lemma move_step s l s' : Atomic.step s l s' → move s l s'.
Proof. by right. Qed.

(** ** The owner *)

(** Opens a step function: rewrites the program counter and inverts the
    checks it made. *)
Ltac open_step H :=
  repeat (simpl in H; match type of H with
  | Some _ = Some _ => injection H as <- <-
  | None = Some _ => discriminate H
  | _ ≫= _ = Some _ =>
      let x := fresh "v" in let E := fresh "E" in apply bind_Some in H as (x & E & H)
  end).

Lemma sim_push_b c s x l c' :
  sim c s → owner c = O_PushB x ∨ (∃ b, owner c = O_PushT x b) ∨ (∃ b t, owner c = O_PushA x b t) →
  push_step c = Some (l, c') → ∃ s', move s l s' ∧ sim c' s'.
Proof.
  intros Hsim Ho Hst. pose proof Hsim as [Hh Ht Hl (cur & Hcur & Hw & Hrel) Hth].
  exists s. unfold push_step, absbot, owner_rel in *.
  destruct Ho as [Ho|[[b Ho]|(b & t & Ho)]]; rewrite Ho in *; open_step Hst;
    simpl in *; split; try apply move_stutter.
  - eapply sim_owner_stutter; [done..|by unfold absbot; simpl; rewrite Ho|by simpl].
  - destruct Hrel as (Hso & ->), Hw as [Hwl _].
    eapply sim_owner_stutter; [done..|by unfold absbot; simpl; rewrite Ho|].
    unfold owner_rel; simpl. split_and!; done || lia.
  - destruct Hrel as (Hso & -> & Htt & Hsz). simplify_eq.
    apply int64_sub_inv in E0, E1. subst.
    destruct (_ <=? _) eqn:Hle; zbool;
      (eapply sim_owner_stutter; [done..|by unfold absbot; simpl; rewrite Ho|]);
      unfold owner_rel; simpl; split_and!; done || lia.
Qed.

Lemma sim_push_grow c s x b t p l c' :
  sim c s → owner c = O_PushGrow x b t p →
  push_step c = Some (l, c') → ∃ s', move s l s' ∧ sim c' s'.
Proof.
  intros Hsim Ho Hst. pose proof Hsim as [Hh Ht Hl (cur & Hcur & Hw & Hrel) Hth].
  unfold push_step, absbot, owner_rel in *. rewrite Ho in *. open_step Hst. simpl in *.
  destruct Hrel as (Hso & -> & Htt & Hsz & ->). rewrite Hcur in E; injection E as <-.
  assert (array_wf cur) as Hwf by (by eapply Forall_lookup_1).
  apply ok_inv, grow_inv in E0 as (Hwf' & Hcap & Hsl); [|done|lia].
  pose proof (is_pow2_pos _ (wf_pow2 _ Hwf)).
  assert (window v0 (top c) (Atomic.queue s)) as Hw'.
  { eapply window_move; [done|lia| |..|exact Hsl]; lia. }
  exists s. split; [apply move_stutter|]. destruct s as [q so ths]; simpl in *.
  eapply (sim_update c (Atomic.State q so ths) _ q so); simpl; [done|done| |lia|done| |done|].
  - by apply Forall_app; split; [done|apply Forall_singleton].
  - exists cur. rewrite lookup_app_l by (by eapply lookup_lt_Some). split_and!; [done..|].
    split_and!; [done..|]. exists v0; simpl. rewrite lookup_app_r, Nat.sub_diag by done.
    destruct Hw. split_and!; [done..|lia].
  - intros i a Ha. exists a. rewrite lookup_app_l by (by eapply lookup_lt_Some). done.
Qed.

Lemma sim_push_publish c s x b p p' l c' :
  sim c s → owner c = O_PushPublish x b p p' →
  push_step c = Some (l, c') → ∃ s', move s l s' ∧ sim c' s'.
Proof.
  intros Hsim Ho Hst. pose proof Hsim as [Hh Ht Hl (cur & Hcur & Hw & Hrel) Hth].
  unfold push_step, absbot, owner_rel in *. rewrite Ho in *. open_step Hst. simpl in *.
  destruct Hrel as (Hso & -> & -> & a & Ha & Hwa & Hca).
  exists s. split; [apply move_stutter|]. destruct s as [q so ths]; simpl in *.
  eapply (sim_update c (Atomic.State q so ths) _ q so); simpl; [done|done|done|lia|done| |done|by eauto].
  exists a. split_and!; [done..|]. by unfold owner_rel.
Qed.

Lemma sim_push_store c s x b p l c' :
  sim c s → owner c = O_PushStore x b p →
  push_step c = Some (l, c') → ∃ s', move s l s' ∧ sim c' s'.
Proof.
  intros Hsim Ho Hst. pose proof Hsim as [Hh Ht Hl (cur & Hcur & Hw & Hrel) Hth].
  unfold push_step, absbot, owner_rel in *. rewrite Ho in *. open_step Hst. simpl in *.
  destruct Hrel as (Hso & -> & -> & Hc). rewrite Hcur in E; injection E as <-.
  assert (array_wf cur) as Hwf by (by eapply Forall_lookup_1).
  apply ok_inv in E0. rewrite buf_store_slot in E0 by done. injection E0 as <-.
  exists s. split; [apply move_stutter|]. destruct s as [q so ths]; simpl in *.
  eapply (sim_update c (Atomic.State q so ths) _ q so); simpl; [done|done| |lia|done| |done|].
  - apply Forall_insert; [done|by apply store_slot_wf].
  - exists (store_slot cur (bottom c) (Some x)).
    rewrite list_lookup_insert_eq by (by eapply lookup_lt_Some).
    split_and!; [done|apply window_store; [done..|lia]|].
    split_and!; [done|done|done|by apply slot_store_eq].
  - intros i a Ha. destruct (decide (i = array c)) as [->|].
    + simplify_eq. rewrite list_lookup_insert_eq by (by eapply lookup_lt_Some).
      eexists; split; [done|]. intros _ Hq. destruct q as [|y q]; [done|]. simpl in *.
      apply slot_store_ne; [done|lia|lia].
    + rewrite list_lookup_insert_ne by done. by eauto.
Qed.

Lemma sim_push_bottom c s x b l c' :
  sim c s → owner c = O_PushBottom x b →
  push_step c = Some (l, c') → ∃ s', move s l s' ∧ sim c' s'.
Proof.
  intros Hsim Ho Hst. pose proof Hsim as [Hh Ht Hl (cur & Hcur & Hw & Hrel) Hth].
  unfold push_step, absbot, owner_rel in *. rewrite Ho in *. open_step Hst. simpl in *.
  destruct Hrel as (Hso & -> & Hc & Hx). apply int64_add_inv in E. subst v.
  eexists; split; [apply move_step; by apply Atomic.do_push|].
  eapply (sim_update c s); simpl; [done|done|done|lia| | | |by eauto].
  - rewrite length_app; simpl; unfold absbot; simpl. lia.
  - exists cur. split_and!; [done| |done]. eapply window_snoc; [done|done| |exact Hx]. lia.
  - intros _ Hq. by destruct (Atomic.queue s).
Qed.

Lemma sim_push_step c s l c' :
  sim c s → push_step c = Some (l, c') → ∃ s', move s l s' ∧ sim c' s'.
Proof.
  intros Hsim Hst. pose proof Hst as Hst0. unfold push_step in Hst0.
  destruct (owner c) as [|x|x b|x b t|x b t p|x b p p'|x b p|x b| |
    |b|b p|b p|b p t|b t r|b r|r] eqn:Ho; try discriminate Hst0.
  1-3: by eapply sim_push_b; eauto.
  - by eapply sim_push_grow.
  - by eapply sim_push_publish.
  - by eapply sim_push_store.
  - by eapply sim_push_bottom.
  - open_step Hst0. pose proof Hsim as [_ _ _ (cur & Hcur & _ & Hrel) _].
    unfold owner_rel in Hrel. rewrite Ho in Hrel.
    eexists; split; [apply move_step; by apply Atomic.ret_push|].
    eapply sim_owner; [done..|by unfold absbot; rewrite Ho|done].
Qed.

Lemma length_zero_nil q : Z.of_nat (length q) ≤ 0 → q = [].
Proof. destruct q; simpl; [done|lia]. Qed.

(** Before [bottom_] is lowered, and the store that lowers it. *)
Lemma sim_pop_b c s l c' :
  sim c s → owner c = O_PopB ∨ (∃ b, owner c = O_PopA b) ∨ (∃ b p, owner c = O_PopDec b p) →
  pop_step c = Some (l, c') → ∃ s', move s l s' ∧ sim c' s'.
Proof.
  intros Hsim Ho Hst. pose proof Hsim as [Hh Ht Hl (cur & Hcur & Hw & Hrel) Hth].
  exists s. unfold pop_step, absbot, owner_rel in *.
  destruct Ho as [Ho|[[b Ho]|(b & p & Ho)]]; rewrite Ho in *; open_step Hst;
    simpl in *; split; try apply move_stutter.
  - apply int64_sub_inv in E as ->.
    eapply sim_owner_stutter; [done..|by unfold absbot; simpl; rewrite Ho|done].
  - destruct Hrel as (Hso & ->).
    eapply sim_owner_stutter; [done..|by unfold absbot; simpl; rewrite Ho|done].
  - destruct Hrel as (Hso & -> & ->), s as [q so ths]; simpl in *.
    eapply (sim_update c (Atomic.State q so ths) _ q so); simpl;
      [done|done|done|lia|unfold absbot; simpl; lia| |done|by eauto].
    exists cur. split_and!; [done..|]. unfold owner_rel; simpl. split_and!; done.
Qed.

(** The load of [top_] decides: empty, one task left, or a task to take. *)
Lemma sim_pop_t c s b p l c' :
  sim c s → owner c = O_PopT b p →
  pop_step c = Some (l, c') → ∃ s', move s l s' ∧ sim c' s'.
Proof.
  intros Hsim Ho Hst. pose proof Hsim as [Hh Ht Hl (cur & Hcur & Hw & Hrel) Hth].
  unfold pop_step, absbot, owner_rel in *. rewrite Ho in *. open_step Hst. simpl in *.
  destruct Hrel as (Hso & -> & ->). apply int64_sub_inv in E as ->.
  destruct (_ <? 0) eqn:Hneg; zbool; [|destruct (bottom c - top c =? 0) eqn:Hz; zbool].
  - assert (Atomic.queue s = []) as Hq by (apply length_zero_nil; lia).
    eexists; split; [apply move_step; by apply Atomic.do_pop_empty|].
    eapply sim_owner; [done..|by unfold absbot; simpl; rewrite Ho|]. by rewrite Hq.
  - exists s. split; [apply move_stutter|].
    eapply sim_owner_stutter; [done..| |]; unfold absbot, owner_rel; simpl; rewrite ?Ho.
    + by rewrite (proj2 (Z.eqb_eq _ _)) by lia.
    + rewrite (proj2 (Z.eqb_eq _ _)) by lia. split_and!; done || lia.
  - destruct (snoc_case (Atomic.queue s)) as [Hq|(q & x & Hq)]; rewrite Hq in *.
    { simpl in *. lia. }
    rewrite length_app in Hl; simpl in Hl.
    eexists; split; [apply move_step; by eapply Atomic.do_pop|].
    pose proof (window_last _ _ _ _ Hw) as Hx.
    replace (top c + _) with (bottom c) in Hx by lia.
    eapply (sim_update c s); simpl; [done|done|done|lia| | | |by eauto].
    + unfold absbot; simpl. rewrite (proj2 (Z.eqb_neq _ _)) by lia. lia.
    + exists cur. split_and!; [done|by eapply window_init|]. unfold owner_rel; simpl.
      rewrite (proj2 (Z.eqb_neq _ _)) by lia. split_and!; eauto; lia.
    + intros _ _. rewrite Hq. destruct q as [|y q]; [simpl in *; lia|done].
Qed.

Lemma sim_pop_load c s b p t l c' :
  sim c s → owner c = O_PopLoad b p t →
  pop_step c = Some (l, c') → ∃ s', move s l s' ∧ sim c' s'.
Proof.
  intros Hsim Ho Hst. pose proof Hsim as [Hh Ht Hl (cur & Hcur & Hw & Hrel) Hth].
  unfold pop_step, absbot, owner_rel in *. rewrite Ho in *. open_step Hst. simpl in *.
  destruct Hrel as (-> & -> & Htt & Htb & Hso). rewrite Hcur in E; injection E as <-.
  assert (array_wf cur) as Hwf by (by eapply Forall_lookup_1).
  apply ok_inv in E0. rewrite buf_load_slot in E0 by done. injection E0 as <-.
  exists s. split; [apply move_stutter|].
  destruct (_ =? 0) eqn:Hz; zbool; eapply sim_owner_stutter; try done;
    unfold absbot, owner_rel; simpl; rewrite ?Ho.
  - by rewrite (proj2 (Z.eqb_eq _ _)) by lia.
  - split_and!; [done|done|lia|lia|]. intros Heq. replace (bottom c) with (top c) by lia.
    apply window_head; [done|]. intros Hq. rewrite Hq in Hl. simpl in Hl. lia.
  - by rewrite (proj2 (Z.eqb_neq _ _)) by lia.
  - destruct Hso as (x & -> & Hx). by rewrite Hx.
Qed.

(** The race for the last task. *)
Lemma sim_pop_cas c s b t r l c' :
  sim c s → owner c = O_PopCas b t r →
  pop_step c = Some (l, c') → ∃ s', move s l s' ∧ sim c' s'.
Proof.
  intros Hsim Ho Hst. pose proof Hsim as [Hh Ht Hl (cur & Hcur & Hw & Hrel) Hth].
  unfold pop_step, absbot, owner_rel in *. rewrite Ho in *. simpl in *.
  destruct Hrel as (Hso & -> & -> & Htt & Hr).
  destruct (top c =? bottom c) eqn:Heq; zbool; open_step Hst.
  - apply int64_add_inv in E as ->. rewrite Hr by done.
    destruct (Atomic.queue s) as [|x [|y q]] eqn:Hq; simpl in Hl; [lia| |lia].
    eexists; split; [apply move_step; by apply (Atomic.do_pop _ [] x)|].
    eapply (sim_update c s); simpl; [done|done|done|lia|unfold absbot; simpl; lia| |lia|].
    + exists cur. split_and!; [done|by eapply window_tail; rewrite Heq in Hw|done].
    + intros i a Ha. exists a. split; [done|lia].
  - assert (Atomic.queue s = []) as Hq by (apply length_zero_nil; lia).
    eexists; split; [apply move_step; by apply Atomic.do_pop_empty|].
    eapply sim_owner; [done..|by unfold absbot; simpl; rewrite Ho|].
    unfold owner_rel; simpl. by rewrite Hq.
Qed.

Lemma sim_pop_step c s l c' :
  sim c s → pop_step c = Some (l, c') → ∃ s', move s l s' ∧ sim c' s'.
Proof.
  intros Hsim Hst. pose proof Hst as Hst0. unfold pop_step in Hst0.
  destruct (owner c) as [|x|x b|x b t|x b t p|x b p p'|x b p|x b| |
    |b|b p|b p|b p t|b t r|b r|r] eqn:Ho; try discriminate Hst0.
  1-3: by eapply sim_pop_b; eauto.
  - by eapply sim_pop_t.
  - by eapply sim_pop_load.
  - by eapply sim_pop_cas.
  - open_step Hst0. apply int64_add_inv in E as ->.
    pose proof Hsim as [Hh Ht Hl (cur & Hcur & Hw & Hrel) Hth].
    unfold owner_rel, absbot in *. rewrite Ho in *. destruct Hrel as (Hso & -> & Hq).
    exists s. split; [apply move_stutter|]. destruct s as [q so ths]; simpl in *.
    eapply (sim_update c (Atomic.State q so ths) _ q so); simpl;
      [done|done|done|lia|done| |done|by eauto].
    by exists cur.
  - open_step Hst0. pose proof Hsim as [_ _ _ (cur & Hcur & _ & Hrel) _].
    unfold owner_rel in Hrel. rewrite Ho in Hrel.
    eexists; split; [apply move_step; by apply Atomic.ret_pop|].
    eapply sim_owner; [done..|by unfold absbot; rewrite Ho|done].
Qed.

(** ** The thieves *)

(** Steps that change nothing but the program counter of thief [i]. *)
Lemma sim_thief c s i p' sp' :
  sim c s → thief_rel c (Atomic.queue s) p' sp' →
  sim (with_thief i p' c) (Atomic.set_thief i sp' s).
Proof.
  intros [Hh Ht Hl Hc Hth] Hp. split; simpl; try done. by apply Forall2_insert.
Qed.

Lemma sim_thief_stutter c s i p' sp :
  sim c s → Atomic.thieves s !! i = Some sp → thief_rel c (Atomic.queue s) p' sp →
  sim (with_thief i p' c) s.
Proof.
  intros Hsim Hi Hp. pose proof (sim_thief c s i p' sp Hsim Hp) as H.
  unfold Atomic.set_thief in H. rewrite list_insert_id in H by done. by destruct s.
Qed.

(** What the owner knows survives a successful steal. *)
Lemma owner_rel_steal c cur x q so i p :
  owner_rel c cur (x :: q) so →
  owner_rel (with_thief i p (with_top (top c + 1) c)) cur q so.
Proof.
  unfold owner_rel; simpl. destruct (owner c); simpl; try naive_solver lia.
  intros (-> & -> & -> & arr & Ha & Hw & Hc). split_and!; [done..|].
  exists arr. split_and!; [done|by eapply window_tail|lia].
Qed.

(** A successful compare-exchange takes the oldest task. *)
Lemma sim_steal_win c s i r :
  sim c s → thieves c !! i = Some (T_Cas (top c) r) →
  ∃ s', move s None s' ∧ sim (with_thief i (T_Ret r) (with_top (top c + 1) c)) s'.
Proof.
  intros Hsim Hi. pose proof Hsim as [Hh Ht Hl (cur & Hcur & Hw & Hrel) Hth].
  destruct (Forall2_lookup_l _ _ _ _ _ Hth Hi) as (sp & Hsp & -> & _ & Hr).
  destruct Hr as [Hne ->]; [done|].
  destruct (Atomic.queue s) as [|x q] eqn:Hq; [done|]. simpl in *.
  eexists; split; [apply move_step; by eapply Atomic.do_steal|].
  split; simpl; [done|lia| | |].
  - change (absbot c - (top c + 1) = Z.of_nat (length q)). lia.
  - exists cur. split_and!; [done|by eapply window_tail|by eapply owner_rel_steal].
  - apply Forall2_insert; [|done]. eapply Forall2_impl; [exact Hth|]. intros p' sp'.
    apply thief_rel_stable; simpl; [lia|lia|]. intros j a Ha. exists a. split; [done|lia].
Qed.

Lemma sim_steal_step i c s l c' :
  sim c s → steal_step i c = Some (l, c') → ∃ s', move s l s' ∧ sim c' s'.
Proof.
  intros Hsim Hst. pose proof Hsim as [Hh Ht Hl (cur & Hcur & Hw & Hrel) Hth].
  unfold steal_step in Hst. apply bind_Some in Hst as (pc & Hi & Hst).
  destruct (Forall2_lookup_l _ _ _ _ _ Hth Hi) as (sp & Hsp & Hr).
  destruct pc as [| |t|t|t p|t r|r]; simpl in Hr.
  - discriminate Hst.
  - open_step Hst. subst sp. exists s. split; [apply move_stutter|].
    eapply sim_thief_stutter; [done..|]. simpl. split; [done|lia].
  - open_step Hst. destruct Hr as [-> Htt]. apply int64_sub_inv in E as ->.
    destruct (_ <=? 0) eqn:Hle; zbool.
    + eexists; split; [apply move_step; by apply Atomic.do_steal_fail|]. by apply sim_thief.
    + exists s. split; [apply move_stutter|]. eapply sim_thief_stutter; [done..|]. simpl.
      split_and!; [done|lia|lia|]. intros Heq Hq. rewrite Hq in Hl; simpl in Hl.
      unfold absbot, owner_rel in *. destruct (owner c); try (destruct (_ =? 0)); naive_solver lia.
  - open_step Hst. destruct Hr as (-> & Htt & Hne). exists s. split; [apply move_stutter|].
    eapply sim_thief_stutter; [done..|]. simpl. split_and!; [done|lia|lia|].
    exists cur. split; [done|]. intros Heq. specialize (Hne Heq).
    split; [done|]. rewrite <- Heq. by apply window_head.
  - open_step Hst. destruct Hr as (-> & Htt & a & Ha & Hne).
    rewrite Ha in E; injection E as <-.
    apply ok_inv in E0. rewrite buf_load_slot in E0 by (by eapply Forall_lookup_1).
    injection E0 as <-. exists s. split; [apply move_stutter|].
    eapply sim_thief_stutter; [done..|]. simpl. split_and!; [done|lia|lia|done].
  - destruct (top c =? t) eqn:Heq; zbool; open_step Hst.
    + subst t. apply int64_add_inv in E as ->. by apply sim_steal_win.
    + destruct Hr as (-> & _).
      eexists; split; [apply move_step; by apply Atomic.do_steal_fail|]. by apply sim_thief.
  - open_step Hst. subst sp.
    eexists; split; [apply move_step; by apply Atomic.ret_steal|]. by apply sim_thief.
Qed.

(** ** The simulation *)

Lemma sim_init n : sim (init n : state T) (Atomic.init n).
Proof.
  split; simpl; [|lia|done| |].
  - apply Forall_singleton. eauto with rt.
  - eexists; split_and!; [done| |done]. split; simpl; [lia|intros; lia].
  - induction n; simpl; by constructor.
Qed.

Lemma sim_step c s l c' :
  sim c s → step c l c' → ∃ s', move s l s' ∧ sim c' s'.
Proof.
  intros Hsim Hst. pose proof Hsim as [Hh Ht Hl (cur & Hcur & Hw & Hrel) Hth].
  destruct Hst as [c x Ho|c l c'|c Ho|c l c'|c i Hi|c i l c'].
  - unfold owner_rel in Hrel. rewrite Ho in Hrel.
    eexists; split; [apply move_step; by apply Atomic.inv_push|].
    eapply sim_owner; [done..|by unfold absbot; rewrite Ho|done].
  - by eapply sim_push_step.
  - unfold owner_rel in Hrel. rewrite Ho in Hrel.
    eexists; split; [apply move_step; by apply Atomic.inv_pop|].
    eapply sim_owner; [done..|by unfold absbot; rewrite Ho|done].
  - by eapply sim_pop_step.
  - destruct (Forall2_lookup_l _ _ _ _ _ Hth Hi) as (sp & Hsp & Hr). simpl in Hr. subst sp.
    eexists; split; [apply move_step; by apply Atomic.inv_steal|]. by apply sim_thief.
  - by eapply sim_steal_step.
Qed.

(** The observable part of a trace. *)
Definition visible (ls : list (option (label T))) : list (label T) := omap id ls.

Lemma sim_runs n ls c :
  runs step (init n) ls c →
  ∃ ls' s, runs Atomic.step (Atomic.init n) ls' s ∧ visible ls' = visible ls ∧ sim c s.
Proof.
  intros Hr. remember (init n) as c0 eqn:Hc0.
  induction Hr as [|c0 ls c l c' Hr IH Hst]; subst.
  - exists [], (Atomic.init n). split_and!; [constructor|done|apply sim_init].
  - destruct (IH eq_refl) as (ls' & s & Hr' & Hv & Hsim).
    destruct (sim_step _ _ _ _ Hsim Hst) as (s' & [[-> ->]|Hm] & Hsim').
    + exists ls', s. split_and!; [done| |done].
      unfold visible in *. rewrite omap_app; simpl. by rewrite app_nil_r.
    + exists (ls' ++ [l]), s'. split_and!; [by econstructor| |done].
      unfold visible in *. by rewrite !omap_app, Hv.
Qed.

Lemma seqZ_window a t q :
  window a t q → omap (slot a) (seqZ t (Z.of_nat (length q))) = q.
Proof.
  revert t. induction q as [|x q IH]; intros t Hw; [done|].
  rewrite seqZ_cons by (simpl; lia). simpl.
  rewrite (window_head a t (x :: q)) by done. simpl. f_equal.
  replace (Z.pred _) with (Z.of_nat (length q)) by lia.
  rewrite <- Z.add_1_r. apply IH. by eapply window_tail.
Qed.

Lemma sim_content c s : sim c s → owner c = O_Idle → content c = Atomic.queue s.
Proof.
  intros [Hh Ht Hl (cur & Hcur & Hw & Hrel) Hth] Ho. unfold content. rewrite Hcur.
  unfold absbot in Hl. rewrite Ho in Hl. rewrite Hl. by apply seqZ_window.
Qed.

Lemma visible_pushed ls ls' :
  visible ls = visible ls' → Atomic.pushed ls = Atomic.pushed ls'.
Proof.
  intros Hv. assert (∀ k, Atomic.pushed k = visible k ≫= (λ l, Atomic.pushed_of (Some l))) as E.
  { unfold Atomic.pushed, visible. induction k as [|[l|] k IH]; [done| |exact IH].
    simpl. f_equal. exact IH. }
  by rewrite !E, Hv.
Qed.

Lemma visible_taken ls ls' :
  visible ls = visible ls' → Atomic.taken ls = Atomic.taken ls'.
Proof.
  intros Hv. assert (∀ k, Atomic.taken k = visible k ≫= (λ l, Atomic.taken_of (Some l))) as E.
  { unfold Atomic.taken, visible. induction k as [|[l|] k IH]; [done| |exact IH].
    simpl. f_equal. exact IH. }
  by rewrite !E, Hv.
Qed.

Lemma sim_held_quiescent c s : sim c s → quiescent c → Atomic.held s = [].
Proof.
  intros [Hh Ht Hl (cur & Hcur & Hw & Hrel) Hth] [Ho Hq].
  unfold Atomic.held. unfold owner_rel in Hrel. rewrite Ho in Hrel. rewrite Hrel. simpl.
  clear -Hth Hq. induction Hth as [|p sp ps sps Hp Hth IH]; [done|].
  apply Forall_cons in Hq as [-> Hq]. simpl in *. subst sp. simpl. by apply IH.
Qed.

(** ** Bounds *)

(** The largest index the operation in progress may store in [bottom_]. *)
Definition bottom_high (c : state T) : Z :=
  match owner c with
  | O_Idle | O_PushRet | O_PopB | O_PopA _ | O_PopDec _ _ | O_PopRet _ => bottom c
  | _ => bottom c + 1
  end.

(** After [n] calls of [push]. *)
Definition bnd (n : Z) (c : state T) : Prop :=
  bottom_high c ≤ n ∧ Forall (λ a, capacity a ≤ Z.max 1024 (2 * n)) (heap c).

Lemma bnd_mono n n' c : n ≤ n' → bnd n c → bnd n' c.
Proof.
  intros Hn [Hb Hc]. split; [lia|]. eapply Forall_impl; [exact Hc|]. simpl. lia.
Qed.

Lemma bnd_push_step n c s l c' :
  sim c s → bnd n c → push_step c = Some (l, c') → bnd n c'.
Proof.
  intros [Hh Ht Hl (cur & Hcur & Hw & Hrel) Hth] [Hb Hc] Hst.
  unfold push_step, bottom_high, absbot, owner_rel in *.
  destruct (owner c) eqn:Ho; try discriminate Hst; open_step Hst;
    unfold bnd, bottom_high; simpl in *; try (split; [lia|done]).
  - destruct (_ <=? _); split; simpl; done || lia.
  - destruct Hrel as (_ & -> & ? & ? & ->). rewrite Hcur in E; injection E as <-.
    apply ok_inv, grow_inv in E0 as (_ & Hcap & _); [|by eapply Forall_lookup_1|lia].
    split; [lia|]. apply Forall_app; split; [done|]. apply Forall_singleton. lia.
  - split; [lia|]. apply Forall_insert; [done|]. apply ok_inv in E0.
    rewrite buf_store_slot in E0 by (by eapply Forall_lookup_1). injection E0 as <-.
    exact (Forall_lookup_1 _ _ _ _ Hc E).
  - destruct Hrel as (_ & -> & _). apply int64_add_inv in E as ->. split; [lia|done].
Qed.

Lemma bnd_pop_step n c s l c' :
  sim c s → bnd n c → pop_step c = Some (l, c') → bnd n c'.
Proof.
  intros [Hh Ht Hl (cur & Hcur & Hw & Hrel) Hth] [Hb Hc] Hst.
  unfold pop_step, bottom_high, absbot, owner_rel in *.
  destruct (owner c) eqn:Ho; try discriminate Hst; open_step Hst;
    unfold bnd, bottom_high; simpl in *; try (split; [lia|done]).
  - destruct (_ <? _); split; simpl; done || lia.
  - destruct (_ =? _); split; simpl; done || lia.
  - destruct (_ =? _); open_step Hst; split; simpl; done || lia.
  - destruct Hrel as (_ & -> & _). apply int64_add_inv in E as ->. split; [lia|done].
Qed.

Lemma bnd_steal_step n i c l c' : bnd n c → steal_step i c = Some (l, c') → bnd n c'.
Proof.
  intros Hb Hst. unfold steal_step in Hst. apply bind_Some in Hst as (pc & Hi & Hst).
  destruct pc; try (destruct (_ =? _)); open_step Hst; exact Hb.
Qed.

Lemma bnd_step n c s l c' :
  sim c s → bnd n c → step c l c' → bnd (n + Z.of_nat (length (Atomic.pushed_of l))) c'.
Proof.
  intros Hsim Hb Hst. destruct Hst as [c x Ho|c l c'|c Ho|c l c'|c i Hi|c i l c'].
  - destruct Hb as [Hb Hc]. unfold bnd, bottom_high in *. rewrite Ho in Hb. simpl. split; [lia|].
    eapply Forall_impl; [exact Hc|]. simpl. lia.
  - eapply bnd_mono; [|by eapply bnd_push_step]. lia.
  - eapply bnd_mono; [|unfold bnd, bottom_high in *; rewrite Ho in Hb; exact Hb]. simpl; lia.
  - eapply bnd_mono; [|by eapply bnd_pop_step]. lia.
  - eapply bnd_mono; [|exact Hb]. simpl; lia.
  - eapply bnd_mono; [|by eapply bnd_steal_step]. lia.
Qed.

(** ** Progress *)

Ltac int_opt :=
  repeat (first [rewrite int64_sub_ok by int_lia | rewrite int64_add_ok by int_lia]; simpl).

Lemma push_progress n c s :
  sim c s → bnd n c → n < 2^61 → owner_rank (owner c) ≠ 0%nat → Atomic.owner s ≠ Atomic.OPopping →
  (∀ r, Atomic.owner s ≠ Atomic.OPopped r) →
  ∃ l c', push_step c = Some (l, c') ∧ (owner_rank (owner c') < owner_rank (owner c))%nat.
Proof.
  intros [Hh Ht Hl (cur & Hcur & Hw & Hrel) Hth] [Hb Hc] Hn Hr Hp1 Hp2.
  unfold push_step, bottom_high, absbot, owner_rel in *.
  pose proof (Forall_lookup_1 _ _ _ _ Hh Hcur) as Hwf.
  pose proof (Forall_lookup_1 _ _ _ _ Hc Hcur) as Hcap. simpl in Hcap.
  pose proof (is_pow2_pos _ (wf_pow2 _ Hwf)).
  destruct (owner c) eqn:Ho; simpl in *; try (destruct_and?; naive_solver lia).
  - destruct Hrel as (_ & -> & ? & ?). rewrite Hcur; simpl. int_opt.
    do 2 eexists; split; [done|]. simpl. destruct (_ <=? _); simpl; lia.
  - destruct Hrel as (_ & -> & ? & ? & ->). rewrite Hcur; simpl.
    destruct (grow_spec cur (bottom c) t Hwf) as (a' & -> & _); [int_lia|lia|]. simpl.
    do 2 eexists; split; [done|]. simpl. lia.
  - destruct Hrel as (_ & -> & -> & ?). rewrite Hcur; simpl. rewrite buf_store_slot by done. simpl.
    do 2 eexists; split; [done|]. simpl. lia.
  - destruct Hrel as (_ & -> & ?). int_opt. do 2 eexists; split; [done|]. simpl. lia.
  - destruct Hrel as (? & ? & ? & ? & Hrel). destruct (_ =? 0); naive_solver.
Qed.

Lemma pop_progress n c s :
  sim c s → bnd n c → n < 2^61 → owner_rank (owner c) ≠ 0%nat →
  (∀ x, Atomic.owner s ≠ Atomic.OPushing x) → Atomic.owner s ≠ Atomic.OPushed →
  ∃ l c', pop_step c = Some (l, c') ∧ (owner_rank (owner c') < owner_rank (owner c))%nat.
Proof.
  intros [Hh Ht Hl (cur & Hcur & Hw & Hrel) Hth] [Hb Hc] Hn Hr Hp1 Hp2.
  unfold pop_step, bottom_high, absbot, owner_rel in *.
  pose proof (Forall_lookup_1 _ _ _ _ Hh Hcur) as Hwf.
  destruct (owner c) eqn:Ho; simpl in *; try (destruct_and?; naive_solver lia).
  - int_opt. do 2 eexists; split; [done|]. simpl. lia.
  - destruct Hrel as (_ & -> & ->). int_opt.
    do 2 eexists; split; [done|]. simpl. destruct (_ <? _); simpl; lia.
  - destruct Hrel as (-> & -> & ?). rewrite Hcur; simpl. rewrite buf_load_slot by done. simpl.
    do 2 eexists; split; [done|]. simpl. destruct (_ =? _); simpl; lia.
  - destruct Hrel as (_ & -> & -> & ?). destruct (_ =? _) eqn:Heq; zbool.
    + int_opt. do 2 eexists; split; [done|]. simpl. lia.
    + do 2 eexists; split; [done|]. simpl. lia.
  - destruct Hrel as (_ & -> & ?). int_opt. do 2 eexists; split; [done|]. simpl. lia.
Qed.

Lemma owner_progress n c s :
  sim c s → bnd n c → n < 2^61 → owner c ≠ O_Idle →
  ∃ l c', act Owner c = Some (l, c') ∧ (owner_rank (owner c') < owner_rank (owner c))%nat.
Proof.
  intros Hsim Hb Hn Ho. assert (owner_rank (owner c) ≠ 0%nat) by (by destruct (owner c)).
  assert (∀ l c', pop_step c = Some (l, c') → act Owner c = Some (l, c')) as Hpop.
  { intros l c' Hp. simpl. unfold push_step, pop_step in *. by destruct (owner c). }
  destruct (Atomic.owner s) as [|x| | |r] eqn:Hso.
  - pose proof Hsim as [_ _ _ (cur & _ & _ & Hrel) _]. rewrite Hso in Hrel.
    unfold owner_rel in Hrel. destruct (owner c); try (destruct (_ =? 0)); naive_solver.
  - destruct (push_progress n c s) as (l & c' & E & ?); rewrite ?Hso; simpl; rewrite ?E; eauto.
  - destruct (push_progress n c s) as (l & c' & E & ?); rewrite ?Hso; simpl; rewrite ?E; eauto.
  - destruct (pop_progress n c s) as (l & c' & E & ?); rewrite ?Hso; eauto 6.
  - destruct (pop_progress n c s) as (l & c' & E & ?); rewrite ?Hso; eauto 6.
Qed.

Lemma top_below n c s : sim c s → bnd n c → -1 ≤ bottom c ∧ 0 ≤ top c ≤ n ∧ bottom c ≤ n.
Proof.
  intros [Hh Ht Hl (cur & Hcur & Hw & Hrel) Hth] [Hb Hc].
  unfold bottom_high, absbot, owner_rel in *.
  destruct (owner c); try (destruct (_ =? 0)); simpl in *; naive_solver lia.
Qed.

Lemma steal_progress n c s i p :
  sim c s → bnd n c → n < 2^61 → thieves c !! i = Some p → thief_rank p ≠ 0%nat →
  ∃ l c' p', steal_step i c = Some (l, c') ∧ thieves c' !! i = Some p' ∧
    (thief_rank p' < thief_rank p)%nat.
Proof.
  intros Hsim Hbnd Hn Hi Hr. destruct (top_below _ _ _ Hsim Hbnd) as (Hlo & Htop & Hbot).
  destruct Hsim as [Hh Ht Hl (cur & Hcur & Hw & Hrel) Hth].
  destruct (Forall2_lookup_l _ _ _ _ _ Hth Hi) as (sp & Hsp & Hp).
  unfold steal_step. rewrite Hi; simpl.
  assert (∀ p', <[i:=p']> (thieves c) !! i = Some p') as Hins.
  { intros p'. apply list_lookup_insert_eq. by eapply lookup_lt_Some. }
  destruct p as [| |t|t|t a|t r|r]; simpl in *; [done| | | | | |].
  1,3,6: by do 3 eexists; split; [done|simpl; split; [apply Hins|simpl; lia]].
  - destruct Hp as (_ & ?). int_opt. do 3 eexists; split; [done|simpl; split; [apply Hins|]].
    destruct (_ <=? _); simpl; lia.
  - destruct Hp as (_ & ? & arr & Ha & _). rewrite Ha; simpl.
    rewrite buf_load_slot by (by eapply Forall_lookup_1). simpl.
    do 3 eexists; split; [done|simpl; split; [apply Hins|simpl; lia]].
  - destruct Hp as (_ & ? & _). destruct (_ =? _) eqn:Heq; zbool; int_opt;
      do 3 eexists; (split; [done|simpl; split; [apply Hins|simpl; lia]]).
Qed.

Lemma sim_bnd_runs n ls c :
  runs step (init n) ls c →
  ∃ s, sim c s ∧ bnd (Z.of_nat (length (Atomic.pushed ls))) c.
Proof.
  intros Hr. remember (init n) as c0 eqn:Hc0.
  induction Hr as [|c0 ls c l c' Hr IH Hst]; subst.
  - exists (Atomic.init n). split; [apply sim_init|]. split; simpl; [done|].
    apply Forall_singleton. simpl. lia.
  - destruct (IH eq_refl) as (s & Hsim & Hb).
    destruct (sim_step _ _ _ _ Hsim Hst) as (s' & _ & Hsim'). exists s'. split; [done|].
    pose proof (bnd_step _ _ _ _ _ Hsim Hb Hst) as Hb'.
    unfold Atomic.pushed in *. rewrite bind_app, length_app. simpl.
    by rewrite app_nil_r, Nat2Z.inj_add.
Qed.

(** ** Properties *)

(** (C1) Linearizability.  Whatever the interleaving of the owner's [push] and
    [pop] with any number of concurrent [steal]s, the trace of invocations and
    responses is a trace of the atomic deque: each operation appears to take
    effect at one instant between its call and its return.  Moreover, when the
    owner is between two operations, the tasks the shared memory holds are
    exactly those of the atomic deque. *)
Theorem chase_lev_linearizable n ls c :
  runs step (init n) ls c →
  ∃ ls' s, runs Atomic.step (Atomic.init n) ls' s ∧ visible ls' = visible ls ∧
    (owner c = O_Idle → content c = Atomic.queue s).
Proof.
  intros Hr. destruct (sim_runs n ls c Hr) as (ls' & s & Hr' & Hv & Hsim).
  exists ls', s. split_and!; [done..|]. by apply sim_content.
Qed.

(** (C2) No task is lost.  When no operation is in progress, the tasks pushed
    so far are, as a multiset, the tasks still in the deque and the tasks
    returned by [pop] and [steal]. *)
Theorem chase_lev_conservation n ls c :
  runs step (init n) ls c → quiescent c →
  Atomic.pushed ls ≡ₚ content c ++ Atomic.taken ls.
Proof.
  intros Hr Hq. destruct (sim_runs n ls c Hr) as (ls' & s & Hr' & Hv & Hsim).
  pose proof (Atomic.atomic_conservation n ls' s Hr') as Hp.
  rewrite (sim_held_quiescent c s Hsim Hq) in Hp.
  rewrite (visible_pushed ls' ls Hv), (visible_taken ls' ls Hv) in Hp.
  by rewrite (sim_content c s Hsim (proj1 Hq)).
Qed.

(** (C3) No task is handed out twice, and none is invented: at every moment,
    operations in progress included, the tasks returned by [pop] and [steal]
    form a sub-multiset of the tasks pushed. *)
Theorem chase_lev_no_duplication n ls c :
  runs step (init n) ls c → Atomic.taken ls ⊆+ Atomic.pushed ls.
Proof.
  intros Hr. destruct (sim_runs n ls c Hr) as (ls' & s & Hr' & Hv & _).
  pose proof (Atomic.atomic_conservation n ls' s Hr') as Hp.
  rewrite (visible_pushed ls' ls Hv), (visible_taken ls' ls Hv) in Hp. rewrite Hp.
  rewrite app_assoc. by apply submseteq_inserts_l.
Qed.

(** Which thread an action belongs to. *)
Definition of_owner (a : action T) : bool :=
  match a with CallPush _ | CallPop | Owner => true | CallSteal _ | Thief _ => false end.
Definition of_thief (i : nat) (a : action T) : bool :=
  match a with CallSteal j | Thief j => bool_decide (i = j) | _ => false end.

Lemma thief_keeps_owner (a : action T) c l c' : act a c = Some (l, c') → of_owner a = false → owner c' = owner c.
Proof.
  destruct a; simpl; intros H Ha; try done.
  - by repeat case_match; simplify_eq/=.
  - unfold steal_step in H. unfold mbind, option_bind in H. by repeat case_match; simplify_eq/=.
Qed.

Lemma others_keep_thief i (a : action T) c l c' :
  act a c = Some (l, c') → of_thief i a = false → thieves c' !! i = thieves c !! i.
Proof.
  destruct a; simpl; intros H Ha; try apply bool_decide_eq_false in Ha.
  - by repeat case_match; simplify_eq/=.
  - by repeat case_match; simplify_eq/=.
  - unfold push_step, pop_step, mbind, option_bind in H. by repeat case_match; simplify_eq/=.
  - repeat case_match; simplify_eq/=. by rewrite list_lookup_insert_ne.
  - unfold steal_step in H. unfold mbind, option_bind in H.
    repeat case_match; simplify_eq/=; by rewrite ?list_lookup_insert_ne.
Qed.

(** (C4) Every operation is wait-free and defined.  As long as fewer than 2^61
    tasks were pushed, a thread inside an operation can always make its next
    access: no index overflows 64 bits, no slot is read or written out of
    bounds, no array pointer dangles (a thief may still read an array the owner
    replaced).  Each access strictly decreases the rank of the thread, which is
    at most 8 for the owner and 6 for a thief and which no access of another
    thread changes: so an operation returns after at most that many accesses of
    its own thread, whatever the others do. *)
Theorem chase_lev_wait_free n ls c :
  runs step (init n) ls c → Z.of_nat (length (Atomic.pushed ls)) < 2^61 →
  (owner_rank (owner c) ≤ 8)%nat ∧
  (owner c ≠ O_Idle → ∃ l c', act Owner c = Some (l, c') ∧
     (owner_rank (owner c') < owner_rank (owner c))%nat) ∧
  (∀ (a : action T) l c', act a c = Some (l, c') → of_owner a = false → owner c' = owner c) ∧
  (∀ i p, thieves c !! i = Some p →
     (thief_rank p ≤ 6)%nat ∧
     (p ≠ T_Idle → ∃ l c' p', act (Thief i) c = Some (l, c') ∧ thieves c' !! i = Some p' ∧
        (thief_rank p' < thief_rank p)%nat) ∧
     (∀ (a : action T) l c', act a c = Some (l, c') → of_thief i a = false → thieves c' !! i = Some p)).
Proof.
  intros Hr Hn. destruct (sim_bnd_runs n ls c Hr) as (s & Hsim & Hb). split_and!.
  - destruct (owner c); simpl; lia.
  - intros Ho. by eapply owner_progress.
  - intros a l c'. apply thief_keeps_owner.
  - intros i p Hi. split_and!.
    + destruct p; simpl; lia.
    + intros Hp. eapply (steal_progress _ c s i p); eauto. by destruct p.
    + intros a l c' Ha Ho. rewrite <- Hi. by eapply others_keep_thief.
Qed.

End proof.

(** ** Witnesses

    Two tasks are pushed; a thief has read [top_] and [bottom_] when the owner
    pops the newer task and then races with the thief for the older one.  The
    thief's compare-exchange wins. *)

Definition race_acts : list (action nat) :=
  ((CallPush 7 :: replicate 6 Owner) ++ (CallPush 8 :: replicate 6 Owner) ++
   [CallSteal 0; Thief 0; Thief 0; Thief 0] ++
   (CallPop :: replicate 6 Owner) ++
   (CallPop :: replicate 4 Owner) ++ [Thief 0; Thief 0] ++ replicate 4 Owner ++ [Thief 0])%nat.

Definition race_end : option (list (option (label nat)) * state nat) :=
  Eval vm_compute in schedule race_acts (init 1).
Definition race_trace : list (option (label nat)) := from_option fst [] race_end.
Definition race_state : state nat := from_option snd (init 1) race_end.

Lemma race_runs : runs step (init 1) race_trace race_state.
Proof. apply (schedule_runs race_acts). vm_compute. reflexivity. Qed.

Lemma chase_lev_linearizable_witness :
  visible race_trace =
    [InvPush 7; RetPush; InvPush 8; RetPush; InvSteal 0; InvPop; RetPop (Some 8);
     InvPop; RetPop None; RetSteal 0 (Some 7)]%nat ∧
  ∃ ls' s, runs Atomic.step (Atomic.init 1) ls' s ∧ visible ls' = visible race_trace ∧
    (owner race_state = O_Idle → content race_state = Atomic.queue s).
Proof.
  split; [reflexivity|]. apply (chase_lev_linearizable 1 race_trace race_state), race_runs.
Defined.

Lemma chase_lev_conservation_witness :
  Atomic.pushed race_trace ≡ₚ content race_state ++ Atomic.taken race_trace.
Proof.
  apply (chase_lev_conservation 1); [apply race_runs|]. split; [reflexivity|].
  repeat constructor.
Defined.

Lemma chase_lev_no_duplication_witness :
  Atomic.taken race_trace = [8; 7]%nat ∧ Atomic.taken race_trace ⊆+ Atomic.pushed race_trace.
Proof.
  split; [reflexivity|]. apply (chase_lev_no_duplication 1 race_trace race_state), race_runs.
Defined.

(** In the middle of the race: the owner and the thief are both about to read the slot of the
    older task. *)
Definition mid_acts : list (action nat) := take 30 race_acts.
Definition mid_end : option (list (option (label nat)) * state nat) :=
  Eval vm_compute in schedule mid_acts (init 1).
Definition mid_trace : list (option (label nat)) := from_option fst [] mid_end.
Definition mid_state : state nat := from_option snd (init 1) mid_end.

Lemma chase_lev_wait_free_witness :
  (∃ l c', act Owner mid_state = Some (l, c') ∧
     (owner_rank (owner c') < owner_rank (owner mid_state) ≤ 8)%nat) ∧
  (∃ p l c' p', thieves mid_state !! 0%nat = Some p ∧ act (Thief 0) mid_state = Some (l, c') ∧
     thieves c' !! 0%nat = Some p' ∧ (thief_rank p' < thief_rank p ≤ 6)%nat).
Proof.
  destruct (chase_lev_wait_free 1 mid_trace mid_state) as (H1 & H2 & _ & H3).
  - apply (schedule_runs mid_acts). vm_compute. reflexivity.
  - vm_compute. reflexivity.
  - split.
    + destruct H2 as (l & c' & ? & ?); [vm_compute; discriminate|]. exists l, c'. split; [done|lia].
    + assert (∃ p, thieves mid_state !! 0%nat = Some p ∧ p ≠ T_Idle) as (p & Hp & Hne)
        by (eexists; split; [vm_compute; reflexivity|discriminate]).
      destruct (H3 _ _ Hp) as (H4 & H5 & _). destruct (H5 Hne) as (l & c' & p' & ? & ? & ?).
      exists p, l, c', p'. split; [done|]. split; [done|]. split; [done|lia].
Defined.
