(* ===== verification/ChaseLevTso.v ===== *)
(** * The work-stealing deque on total store order

    ChaseLev lets every access of [work_stealing_deque]
    (src/src/thread_pool.cpp) take effect at once.  A processor with total
    store order delays stores: they enter a first-in first-out buffer of the
    thread that makes them, that thread's loads see them (the view), and
    memory sees them later, one by one.  A [seq_cst] store or a
    compare-exchange waits until the buffer is empty.  Here the owner has such
    a buffer: the construction of a new array in [grow], the release store of
    [array_] and the relaxed store of the slot pass through it.  The thieves
    store nothing but their compare-exchange.

    [deque_tso_linearizable] shows that the delays are unobservable;
    [relaxed_pop_duplicates] that they are not when the store of [bottom_] in
    [pop] is weaker than in the source. *)

From S2P Require Import Prelude MachineInt CircularArray DequeSpec ChaseLev ChaseLevProof.
From stdpp Require Import options.
Local Open Scope Z_scope.
Import Atomic (label, InvPush, RetPush, InvPop, RetPop, InvSteal, RetSteal).

Inductive memory_order : Type := Relaxed | Release | SeqCst.

(** The memory orders of the owner's stores. *)
Record orders := Orders {
  push_array : memory_order;    (** [array_.store(new_a, ...)] *)
  push_slot : memory_order;     (** [buffer\[b & mask\].store(task, ...)] *)
  push_bottom : memory_order;   (** [bottom_.store(b + 1, ...)] of [push] *)
  pop_bottom : memory_order;    (** [bottom_.store(b, ...)] of [pop] *)
  pop_restore : memory_order;   (** [bottom_.store(b + 1, ...)] of [pop] *)
}.

Definition source_orders : orders :=
  Orders Release Relaxed SeqCst SeqCst SeqCst.

Section tso.
Context {T : Type}.

(** A store that memory has not seen yet.  The stores that build a new array
    go to memory that no other thread can name yet; they are one entry. *)
Inductive write : Type :=
| WNew (a : circular_array T)
| WArray (p : nat)
| WSlot (p : nat) (i : Z) (x : option T)
| WBottom (b : Z).

(** [mem] is the shared memory together with the program counters;
    its [history] belongs to the owner alone. *)
Record tso_state := Tso { mem : state T; sb : list write }.

Definition tso_init (n : nat) : tso_state := Tso (init n) [].

Definition with_array (p : nat) (c : state T) : state T :=
  State (top c) (bottom c) p (heap c) (history c) (owner c) (thieves c).
Definition keep_history (p : nat) (c : state T) : state T :=
  State (top c) (bottom c) (array c) (heap c) (history c ++ [p]) (owner c) (thieves c).

Definition perform (w : write) (c : state T) : option (state T) :=
  match w with
  | WNew a => Some (with_heap (heap c ++ [a]) c)
  | WArray p => Some (with_array p c)
  | WSlot p i x =>
      a ← heap c !! p;
      a' ← ok (buf_store a i x);
      Some (with_heap (<[p:=a']> (heap c)) c)
  | WBottom b => Some (with_bottom b c)
  end.

(** What the owner's loads see: memory with its own pending stores. *)
Fixpoint drain (ws : list write) (c : state T) : option (state T) :=
  match ws with
  | [] => Some c
  | w :: ws => c1 ← perform w c; drain ws c1
  end.

Definition view (s : tso_state) : option (state T) := drain (sb s) (mem s).

Definition goto (o : owner_pc T) (s : tso_state) : tso_state :=
  Tso (with_owner o (mem s)) (sb s).

(** A store of the owner: buffered, or directly to memory when the order is
    [seq_cst], for which the buffer has to be empty. *)
Definition issue (o : memory_order) (w : write) (s : tso_state) : option tso_state :=
  match o, sb s with
  | SeqCst, [] => c ← perform w (mem s); Some (Tso c [])
  | SeqCst, _ :: _ => None
  | _, ws => Some (Tso (mem s) (ws ++ [w]))
  end.

Section owner.
Variable ord : orders.

(** The owner's next access inside [push]. *)
Definition tso_push_step (s : tso_state) : option (option (label T) * tso_state) :=
  v ← view s;
  match owner (mem s) with
  | O_PushB x => Some (None, goto (O_PushT x (bottom v)) s)
  | O_PushT x b => Some (None, goto (O_PushA x b (top v)) s)
  | O_PushA x b t =>
      a ← heap v !! array v;
      size ← ok (int64_sub b t);
      limit ← ok (int64_sub (capacity a) 1);
      Some (None, goto (if limit <=? size then O_PushGrow x b t (array v)
                        else O_PushStore x b (array v)) s)
  | O_PushGrow x b t p =>
      a ← heap v !! p;
      new_a ← ok (grow a b t);
      s' ← issue Relaxed (WNew new_a) s;
      Some (None, goto (O_PushPublish x b p (length (heap v))) s')
  | O_PushPublish x b p new_p =>
      s' ← issue (push_array ord) (WArray new_p) (Tso (keep_history p (mem s)) (sb s));
      Some (None, goto (O_PushStore x b new_p) s')
  | O_PushStore x b p =>
      a ← heap v !! p;
      s' ← issue (push_slot ord) (WSlot p (Z.land b (mask a)) (Some x)) s;
      Some (None, goto (O_PushBottom x b) s')
  | O_PushBottom x b =>
      b1 ← ok (int64_add b 1);
      s' ← issue (push_bottom ord) (WBottom b1) s;
      Some (None, goto O_PushRet s')
  | O_PushRet => Some (Some RetPush, goto O_Idle s)
  | _ => None
  end.

(** The owner's next access inside [pop]; the compare-exchange drains the
    buffer as a [seq_cst] store does. *)
Definition tso_pop_step (s : tso_state) : option (option (label T) * tso_state) :=
  v ← view s;
  match owner (mem s) with
  | O_PopB =>
      b ← ok (int64_sub (bottom v) 1);
      Some (None, goto (O_PopA b) s)
  | O_PopA b => Some (None, goto (O_PopDec b (array v)) s)
  | O_PopDec b p =>
      s' ← issue (pop_bottom ord) (WBottom b) s;
      Some (None, goto (O_PopT b p) s')
  | O_PopT b p =>
      size ← ok (int64_sub b (top v));
      Some (None, goto (if size <? 0 then O_PopFix b None else O_PopLoad b p (top v)) s)
  | O_PopLoad b p t =>
      a ← heap v !! p;
      task ← ok (buf_load a (Z.land b (mask a)));
      Some (None, goto (if b - t =? 0 then O_PopCas b t task else O_PopRet task) s)
  | O_PopCas b t task =>
      match sb s with
      | [] =>
          if top (mem s) =? t
          then t1 ← ok (int64_add t 1);
               Some (None, goto (O_PopFix b task) (Tso (with_top t1 (mem s)) []))
          else Some (None, goto (O_PopFix b None) s)
      | _ :: _ => None
      end
  | O_PopFix b task =>
      b1 ← ok (int64_add b 1);
      s' ← issue (pop_restore ord) (WBottom b1) s;
      Some (None, goto (O_PopRet task) s')
  | O_PopRet task => Some (Some (RetPop task), goto O_Idle s)
  | _ => None
  end.

(** Memory takes the oldest store of the owner's buffer. *)
Definition flush (s : tso_state) : option tso_state :=
  match sb s with
  | [] => None
  | w :: ws => c ← perform w (mem s); Some (Tso c ws)
  end.

Inductive tso_action : Type :=
| Do (a : action T)
| Flush.

Definition tso_act (a : tso_action) (s : tso_state) : option (option (label T) * tso_state) :=
  match a with
  | Flush => s' ← flush s; Some (None, s')
  | Do Owner => match tso_push_step s with Some r => Some r | None => tso_pop_step s end
  | Do a => '(l, c) ← act a (mem s); Some (l, Tso c (sb s))
  end.

Definition tso_step (s : tso_state) (l : option (label T)) (s' : tso_state) : Prop :=
  ∃ a, tso_act a s = Some (l, s').

Fixpoint tso_schedule (acts : list tso_action) (s : tso_state) :
    option (list (option (label T)) * tso_state) :=
  match acts with
  | [] => Some ([], s)
  | a :: acts =>
      '(l, s1) ← tso_act a s;
      '(ls, s2) ← tso_schedule acts s1;
      Some (l :: ls, s2)
  end.

Lemma tso_schedule_runs acts s ls s' :
  tso_schedule acts s = Some (ls, s') → runs tso_step s ls s'.
Proof.
  revert s ls. induction acts as [|a acts IH]; intros s ls H; simpl in H.
  - simplify_eq. constructor.
  - apply bind_Some in H as ([l s1] & Ha & H). apply bind_Some in H as ([ls2 s2] & Hs & H).
    simplify_eq. apply (runs_trans _ s [l] s1); [|by apply IH].
    apply runs_one. by exists a.
Qed.

End owner.

(** ** The deque of ChaseLev, lagging behind

    Every state corresponds to a state of ChaseLev whose owner has not yet
    made the stores that wait in the buffer, except that an array under
    construction is already in its heap. *)

Definition shadow (h : list nat) (o : owner_pc T) (news : list (circular_array T))
    (c : state T) : state T :=
  State (top c) (bottom c) (array c) (heap c ++ news) h o (thieves c).

(** [lag hp o ws news o']: the owner stands at [o] with the stores [ws]
    pending, [news] among them arrays under construction; in ChaseLev, where
    the heap is [hp], it still stands at [o']. *)
Inductive lag (hp : list (circular_array T)) :
    owner_pc T → list write → list (circular_array T) → owner_pc T → Prop :=
| lag_none o : lag hp o [] [] o
| lag_new x b p q news :
    lag hp (O_PushPublish x b p q) (WNew <$> news) news (O_PushPublish x b p q)
| lag_publish x b p q news :
    lag hp (O_PushStore x b q) ((WNew <$> news) ++ [WArray q]) news (O_PushPublish x b p q)
| lag_both x b p q a news :
    hp !! q = Some a →
    lag hp (O_PushBottom x b)
      ((WNew <$> news) ++ [WArray q; WSlot q (Z.land b (mask a)) (Some x)]) news
      (O_PushPublish x b p q)
| lag_slot x b q a :
    hp !! q = Some a →
    lag hp (O_PushBottom x b) [WSlot q (Z.land b (mask a)) (Some x)] [] (O_PushStore x b q).
#[local] Hint Constructors lag : core.

Definition lags (s : tso_state) (c : state T) : Prop :=
  ∃ h o news, c = shadow h o news (mem s) ∧
    lag (heap (mem s) ++ news) (owner (mem s)) (sb s) news o.

Lemma lags_init n : lags (tso_init n) (init n).
Proof. by exists [], O_Idle, []. Qed.

Lemma drain_news news ws c :
  drain ((WNew <$> news) ++ ws) c = drain ws (with_heap (heap c ++ news) c).
Proof.
  revert c. induction news as [|a news IH]; intros c; simpl.
  - rewrite app_nil_r. by destruct c.
  - rewrite IH. simpl. by rewrite <- app_assoc.
Qed.

(** A step of ChaseLev with the given label, or no step. *)
Definition follows (c : state T) (l : option (label T)) (c' : state T) : Prop :=
  (l = None ∧ c' = c) ∨ step c l c'.

Lemma follows_stutter c : follows c None c.
Proof. by left. Qed.
Lemma follows_push c l c' : push_step c = Some (l, c') → follows c l c'.
Proof. right. by apply step_push. Qed.
Lemma follows_pop c l c' : pop_step c = Some (l, c') → follows c l c'.
Proof. right. by apply step_pop. Qed.

(** With an empty buffer the two deques differ in [history_] at most. *)
Lemma lags_settled s h o :
  sb s = [] → owner (mem s) = o → lags s (shadow h o [] (mem s)).
Proof. intros Hs Ho. exists h, o, []. rewrite Hs, Ho. auto. Qed.

Lemma shadow_heap h o c : heap (shadow h o [] c) = heap c.
Proof. simpl. apply app_nil_r. Qed.

Ltac open_tso H :=
  repeat (simpl in H; match type of H with
  | Some _ = Some _ => injection H as <- <-
  | None = Some _ => discriminate H
  | _ ≫= _ = Some _ =>
      let x := fresh "v" in let E := fresh "E" in apply bind_Some in H as (x & E & H)
  end).

(** The buffer drains: memory sees an array under construction, which
    ChaseLev's heap has already. *)
Lemma lags_flush_new m a ws news h o :
  lag (heap m ++ a :: news) (owner m) ws news o →
  lags (Tso (with_heap (heap m ++ [a]) m) ws) (shadow h o (a :: news) m).
Proof.
  intros Hlag. exists h, o, news. unfold shadow; simpl. by rewrite <- app_assoc.
Qed.

(** The buffer drains: memory takes the oldest store, and ChaseLev's owner
    makes it. *)
Lemma lags_flush s c s' :
  lags s c → flush s = Some s' → ∃ c', follows c None c' ∧ lags s' c'.
Proof.
  destruct s as [m ws]. intros (h & o & news & -> & Hlag) Hf. unfold flush in Hf. simpl in *.
  inversion Hlag as [o' Eo Ews|x b p q ns Eo|x b p q ns Eo|x b p q a ns Ha Eo|x b q a Ha Eo];
    subst; simpl in Hf; [done|destruct news as [|a0 ns]..|]; simpl in Hf; simplify_eq.
  1,3,5: eexists; split; [apply follows_stutter|]; apply lags_flush_new; rewrite <- Eo; auto.
  - eexists; split; [by apply follows_push|]. eexists _, _, []. simpl. rewrite <- Eo. auto.
  - eexists; split; [by apply follows_push|]. eexists _, _, []. simpl. rewrite <- Eo.
    split; [done|]. eauto.
  - rewrite app_nil_r in Ha. rewrite Ha in Hf. simpl in Hf.
    destruct (ok (buf_store a _ _)) as [a'|] eqn:E; simplify_eq/=.
    eexists; split; [apply follows_push; unfold push_step; simpl|].
    { rewrite app_nil_r, Ha. simpl. rewrite E. reflexivity. }
    eexists _, _, []. unfold shadow; simpl. rewrite <- Eo, !app_nil_r. auto.
Qed.

(** Stores of the owner. *)
Lemma lags_push_grow s c x b t p l s' :
  lags s c → owner (mem s) = O_PushGrow x b t p →
  tso_push_step source_orders s = Some (l, s') → ∃ c', follows c l c' ∧ lags s' c'.
Proof.
  destruct s as [m ws]. intros (h & o & news & -> & Hlag) Ho Hst. simpl in *. rewrite Ho in *.
  inversion Hlag; subst. unfold tso_push_step, view in Hst. simpl in Hst. rewrite Ho in Hst.
  open_tso Hst. simplify_eq/=. eexists; split.
  - apply follows_push. unfold push_step; simpl. rewrite app_nil_r, E; simpl.
    rewrite E0. reflexivity.
  - eexists _, _, [v0]. unfold shadow; simpl. rewrite app_nil_r. split; [done|].
    apply (lag_new _ x b p (length (heap m)) [v0]).
Qed.

Lemma lags_push_publish s c x b p q l s' :
  lags s c → owner (mem s) = O_PushPublish x b p q →
  tso_push_step source_orders s = Some (l, s') → ∃ c', follows c l c' ∧ lags s' c'.
Proof.
  destruct s as [m ws]. intros (h & o & news & -> & Hlag) Ho Hst. simpl in *. rewrite Ho in *.
  unfold tso_push_step in Hst. simpl in Hst. rewrite Ho in Hst. open_tso Hst. simplify_eq/=.
  eexists; split; [apply follows_stutter|]. eexists h, o, news. split; [done|]. simpl.
  inversion Hlag; subst; [apply (lag_publish _ x b p q [])|apply lag_publish].
Qed.

Lemma lags_push_store s c x b q l s' :
  lags s c → owner (mem s) = O_PushStore x b q →
  tso_push_step source_orders s = Some (l, s') → ∃ c', follows c l c' ∧ lags s' c'.
Proof.
  destruct s as [m ws]. intros (h & o & news & -> & Hlag) Ho Hst. simpl in *. rewrite Ho in *.
  unfold tso_push_step, view in Hst. simpl in Hst. rewrite Ho in Hst.
  open_tso Hst. simplify_eq/=.
  eexists; split; [apply follows_stutter|]. eexists h, o, news. split; [done|]. simpl.
  inversion Hlag; subst; simpl in *; simplify_eq.
  - rewrite app_nil_r. by apply lag_slot.
  - rewrite drain_news in E. simplify_eq/=. rewrite <- app_assoc. by apply lag_both.
Qed.

Lemma lags_push_bottom s c x b l s' :
  lags s c → owner (mem s) = O_PushBottom x b →
  tso_push_step source_orders s = Some (l, s') → ∃ c', follows c l c' ∧ lags s' c'.
Proof.
  destruct s as [m ws]. intros (h & o & news & -> & Hlag) Ho Hst. simpl in *. rewrite Ho in *.
  unfold tso_push_step, view in Hst. simpl in Hst. rewrite Ho in Hst.
  open_tso Hst. destruct ws as [|w ws]; [|discriminate E1]. simplify_eq/=.
  inversion Hlag as [o' Eo Ews|? ? ? ? ns|? ? ? ? ns Eo Ews|? ? ? ? ? ns ? Eo Ews|]; subst;
    try (by destruct news). eexists; split.
  - apply follows_push. unfold push_step; simpl. rewrite E0. reflexivity.
  - by eexists _, _, [].
Qed.

(** The accesses of [push] that are not stores before [bottom_]. *)
Definition push_load (o : owner_pc T) : bool :=
  match o with O_PushB _ | O_PushT _ _ | O_PushA _ _ _ | O_PushRet => true | _ => false end.

Lemma lag_settled hp o ws news o' :
  lag hp o ws news o' →
  match o with O_PushPublish _ _ _ _ | O_PushStore _ _ _ | O_PushBottom _ _ => False | _ => True end →
  ws = [] ∧ news = [] ∧ o' = o.
Proof. by destruct 1. Qed.

Lemma lags_push_load s c l s' :
  lags s c → push_load (owner (mem s)) = true →
  tso_push_step source_orders s = Some (l, s') → ∃ c', follows c l c' ∧ lags s' c'.
Proof.
  destruct s as [m ws]. intros (h & o & news & -> & Hlag) Hp Hst. simpl in *.
  destruct (lag_settled _ _ _ _ _ Hlag) as (-> & -> & ->); [by destruct (owner m)|].
  unfold tso_push_step, view in Hst. simpl in Hst.
  destruct (owner m) eqn:Ho; try discriminate Hp; open_tso Hst;
    (eexists; split; [apply follows_push; unfold push_step; simpl|by eexists _, _, []]);
    rewrite ?app_nil_r, ?E; simpl; rewrite ?E0; simpl; rewrite ?E1; reflexivity.
Qed.

Lemma lags_push s c l s' :
  lags s c → tso_push_step source_orders s = Some (l, s') → ∃ c', follows c l c' ∧ lags s' c'.
Proof.
  intros Hl Hst. destruct (push_load (owner (mem s))) eqn:Hp; [by eapply lags_push_load|].
  pose proof Hst as Hst0. unfold tso_push_step in Hst0. apply bind_Some in Hst0 as (v & _ & Hst0).
  destruct (owner (mem s)) eqn:Ho; try discriminate Hp; try discriminate Hst0.
  - by eapply lags_push_grow.
  - by eapply lags_push_publish.
  - by eapply lags_push_store.
  - by eapply lags_push_bottom.
Qed.

Lemma lags_pop s c l s' :
  lags s c → tso_pop_step source_orders s = Some (l, s') → ∃ c', follows c l c' ∧ lags s' c'.
Proof.
  destruct s as [m ws]. intros (h & o & news & -> & Hlag) Hst. simpl in *.
  unfold tso_pop_step in Hst. apply bind_Some in Hst as (v & Hv & Hst). simpl in *.
  destruct (lag_settled _ _ _ _ _ Hlag) as (-> & -> & ->); [by destruct (owner m)|].
  unfold view in Hv; simpl in Hv. injection Hv as <-.
  destruct (owner m) eqn:Ho; try discriminate Hst; simpl in Hst;
    try (destruct (top m =? t) eqn:Ht); open_tso Hst; simplify_eq/=;
    (eexists; split; [apply follows_pop; unfold pop_step; simpl|by eexists _, _, []]);
    rewrite ?app_nil_r, ?Ht, ?E; simpl; rewrite ?E0; reflexivity.
Qed.

(** Thieves read and change memory alone. *)
Lemma shadow_steal h o news m i l m' :
  steal_step i m = Some (l, m') →
  steal_step i (shadow h o news m) = Some (l, shadow h o news m') ∧
  heap m' = heap m ∧ owner m' = owner m.
Proof.
  unfold steal_step. simpl. destruct (thieves m !! i) as [p|]; simpl; [|done].
  destruct p as [| |t|t|t p|t r|r]; intros H; try (destruct (top m =? t)); open_tso H; simpl;
    rewrite ?(lookup_app_l_Some _ _ _ _ E), ?E; simpl; rewrite ?E0; done.
Qed.

Lemma lags_calls s c a l m' :
  lags s c → a ≠ Owner → act a (mem s) = Some (l, m') →
  ∃ c', follows c l c' ∧ lags (Tso m' (sb s)) c'.
Proof.
  destruct s as [m ws]. intros (h & o & news & -> & Hlag) Hne Ha. simpl in *.
  destruct a as [x| | |i|i]; simpl in Ha; [| |done| |].
  1,2: destruct (owner m) eqn:Ho; simplify_eq;
    destruct (lag_settled _ _ _ _ _ Hlag) as (-> & -> & ->); [done|];
    (eexists; split; [right; by constructor|by eexists _, _, []]).
  - destruct (thieves m !! i) as [[]|] eqn:Hi; simplify_eq.
    eexists; split; [right; by constructor|]. by eexists h, o, news.
  - destruct (shadow_steal h o news _ _ _ _ Ha) as (Hs & Hh & Ho).
    eexists; split; [right; by eapply step_steal|]. eexists h, o, news. simpl.
    by rewrite Hh, Ho.
Qed.

Lemma lags_step s c l s' :
  lags s c → tso_step source_orders s l s' → ∃ c', follows c l c' ∧ lags s' c'.
Proof.
  intros Hl [[a|] Ha].
  - destruct a as [x| | |i|i]; cbn [tso_act] in Ha.
    3: destruct (tso_push_step source_orders s) eqn:E; simplify_eq;
      [by eapply lags_push|by eapply lags_pop].
    all: apply bind_Some in Ha as ([l' m'] & Ha & ?); simplify_eq; eapply lags_calls; [done| |done]; done.
  - simpl in Ha. apply bind_Some in Ha as (s1 & Hf & ?). simplify_eq. by eapply lags_flush.
Qed.

(** ** No access is ever stuck *)

(** The pointers in memory and in the hands of thieves are to arrays that
    memory has seen complete. *)
Definition pointers_ok (c : state T) : Prop :=
  (array c < length (heap c))%nat ∧
  ∀ i t p, thieves c !! i = Some (T_Load t p) → (p < length (heap c))%nat.

Lemma pointers_ok_mono c c' :
  pointers_ok c → array c' = array c → thieves c' = thieves c →
  (length (heap c) ≤ length (heap c'))%nat → pointers_ok c'.
Proof.
  intros [Ha Ht] Hac Htc Hle. split; [rewrite Hac; lia|]. intros i t p.
  rewrite Htc. intros H%Ht. lia.
Qed.

Lemma owner_mem s l s' :
  tso_push_step source_orders s = Some (l, s') ∨ tso_pop_step source_orders s = Some (l, s') →
  array (mem s') = array (mem s) ∧ thieves (mem s') = thieves (mem s) ∧
  heap (mem s') = heap (mem s).
Proof.
  destruct s as [m ws]. unfold tso_push_step, tso_pop_step, issue.
  intros [H|H]; apply bind_Some in H as (v & _ & H); simpl in H;
    destruct (owner m), ws; simpl in H; try (destruct (top m =? t));
    open_tso H; simplify_eq/=; done.
Qed.

Lemma perform_pointers w c c' :
  perform w c = Some c' → (∀ p, w = WArray p → (p < length (heap c))%nat) →
  pointers_ok c → pointers_ok c'.
Proof.
  intros Hp Hw Hc. destruct w as [a|p|p i x|b]; simpl in Hp.
  - simplify_eq. eapply pointers_ok_mono; [done..|]. simpl. rewrite length_app. lia.
  - simplify_eq. destruct Hc as [_ Ht]. split; simpl; auto.
  - open_tso Hp. simplify_eq.
    eapply pointers_ok_mono; [done..|]. simpl. by rewrite length_insert.
  - simplify_eq. by eapply pointers_ok_mono.
Qed.

Lemma pointers_flush s c a s' :
  lags s c → sim c a → flush s = Some s' → pointers_ok (mem s) → pointers_ok (mem s').
Proof.
  destruct s as [m ws]. intros (h & o & news & -> & Hlag) [_ _ _ (cur & _ & _ & Ho) _] Hf.
  unfold flush in Hf. destruct ws as [|w ws]; simpl in *; [done|].
  apply bind_Some in Hf as (m' & Hp & ?). simplify_eq/=.
  apply (perform_pointers w); [done|]. intros p ->. unfold owner_rel in Ho. simpl in Ho.
  inversion Hlag; subst; destruct news; simplify_eq/=;
    destruct Ho as (_ & _ & _ & arr & Harr & _); rewrite app_nil_r in Harr;
    by eapply lookup_lt_Some.
Qed.

Lemma pointers_steal i m l m' :
  steal_step i m = Some (l, m') → pointers_ok m → pointers_ok m'.
Proof.
  intros Hs [Ha Ht]. destruct (shadow_steal [] O_Idle [] _ _ _ _ Hs) as (_ & Hh & _).
  unfold steal_step in Hs. apply bind_Some in Hs as (p & Hi & Hs).
  assert (array m' = array m ∧ ∃ p', thieves m' = <[i:=p']> (thieves m) ∧
    ∀ t q, p' = T_Load t q → q = array m) as (Ea & p' & Et & Hp').
  { destruct p; try (destruct (top m =? t)); open_tso Hs; simpl; try (case_match);
      (split; [done|eexists; split; [done|naive_solver]]). }
  split; rewrite Hh, ?Ea; [done|]. intros j t q. rewrite Et, list_lookup_insert_Some.
  intros [(-> & -> & _)|[_ H]]; [|by eapply Ht]. by rewrite (Hp' t q).
Qed.

Lemma pointers_step s c a l s' :
  lags s c → sim c a → tso_step source_orders s l s' → pointers_ok (mem s) →
  pointers_ok (mem s').
Proof.
  intros Hl Hsim [[b|] Ha] Hp.
  - destruct b as [x| | |i|i]; cbn [tso_act] in Ha.
    3: destruct (owner_mem s l s') as (? & ? & Hh);
      [destruct (tso_push_step _ s); simplify_eq; auto|];
      eapply pointers_ok_mono; [done..|by rewrite Hh].
    4: apply bind_Some in Ha as ([l' m'] & Hs & ?); simplify_eq; by eapply pointers_steal.
    all: apply bind_Some in Ha as ([l' m'] & Hs & ?); simpl in Hs; repeat case_match; simplify_eq/=.
    + by eapply pointers_ok_mono.
    + by eapply pointers_ok_mono.
    + destruct Hp as [Har Ht]. split; simpl; [done|]. intros j t q.
      rewrite list_lookup_insert_Some. intros [(? & ? & _)|[_ Hj]]; [done|by eapply Ht].
  - simpl in Ha. apply bind_Some in Ha as (s1 & Hf & ?). simplify_eq. by eapply pointers_flush.
Qed.

(** Every execution with store buffers is an execution without. *)
Lemma reachable_lags n ls s :
  runs (tso_step source_orders) (tso_init n) ls s →
  ∃ ls' c, runs step (init n) ls' c ∧ visible ls' = visible ls ∧ lags s c ∧ pointers_ok (mem s).
Proof.
  intros Hr. remember (tso_init n) as s0 eqn:Hs0.
  induction Hr as [|s0 ls s l s' Hr IH Hst]; subst.
  - exists [], (init n). split_and!; [constructor|done|apply lags_init|].
    split; [simpl; lia|]. intros i t p. simpl. by intros [? _]%lookup_replicate_1.
  - destruct (IH eq_refl) as (ls' & c & Hr' & Hv & Hl & Hp).
    destruct (sim_runs _ _ _ Hr') as (_ & a & _ & _ & Hsim).
    pose proof (pointers_step _ _ _ _ _ Hl Hsim Hst Hp) as Hp'.
    destruct (lags_step _ _ _ _ Hl Hst) as (c' & [[-> ->]|Hm] & Hl').
    + exists ls', c. split_and!; [done| |done..].
      unfold visible in *. rewrite omap_app; simpl. by rewrite app_nil_r.
    + exists (ls' ++ [l]), c'. split_and!; [by econstructor| |done..].
      unfold visible in *. by rewrite !omap_app, Hv.
Qed.

(** With an empty buffer, what ChaseLev's owner can do the owner can do. *)
Lemma owner_enabled m h l c' :
  act Owner (shadow h (owner m) [] m) = Some (l, c') →
  ∃ s', tso_act source_orders (Do Owner) (Tso m []) = Some (l, s').
Proof.
  simpl. unfold push_step, pop_step, tso_push_step, tso_pop_step, view; simpl.
  rewrite app_nil_r. intros H. unfold mbind, option_bind in *.
  destruct (owner m); simpl in *; repeat case_match; simplify_eq/=; eauto.
Qed.

Lemma tso_owner_progress s c a n :
  lags s c → sim c a → bnd n c → n < 2^61 → owner (mem s) ≠ O_Idle →
  ∃ l s', tso_act source_orders (Do Owner) s = Some (l, s') ∨ tso_act source_orders Flush s = Some (l, s').
Proof.
  destruct s as [m ws]. intros (h & o & news & -> & Hlag) Hsim Hb Hn Ho. simpl in *.
  assert (o ≠ O_Idle) as Ho' by (by destruct Hlag).
  destruct (owner_progress _ _ _ Hsim Hb Hn Ho') as (l & c' & Hact & _).
  destruct ws as [|w ws].
  - assert (news = [] ∧ o = owner m) as [-> ->].
    { inversion Hlag; subst; try done; destruct news; try done. }
    destruct (owner_enabled _ _ _ _ Hact) as [s' Hs']. eauto.
  - exists None. unfold flush; simpl.
    inversion Hlag; subst; try destruct news; simplify_eq/=; eauto.
    rewrite !app_nil_r in *. unfold push_step, pop_step in Hact. simpl in Hact.
    rewrite app_nil_r in Hact.
    match goal with H : heap m !! _ = Some _ |- _ => rewrite H in * end. simpl in *.
    destruct (ok _); simpl in *; [eauto|done].
Qed.

Lemma tso_thief_progress s c a n i p :
  lags s c → sim c a → bnd n c → n < 2^61 → pointers_ok (mem s) →
  thieves (mem s) !! i = Some p → p ≠ T_Idle →
  ∃ l s', tso_act source_orders (Do (Thief i)) s = Some (l, s').
Proof.
  destruct s as [m ws]. intros (h & o & news & -> & Hlag) Hsim Hb Hn [_ Hp] Hi Hne. simpl in *.
  destruct (steal_progress _ _ _ i p Hsim Hb Hn) as (l & c' & p' & Hst & _); [done|by destruct p|].
  unfold steal_step in *. simpl in *. rewrite Hi in *. simpl in *.
  destruct p as [| |t|t|t q|t r|r]; try (destruct (top m =? t)); open_tso Hst; simpl; eauto.
  3,4: rewrite lookup_app_l in E by (by eapply Hp); rewrite E; simpl; rewrite E0.
  all: rewrite ?E; simpl; eauto.
Qed.

(** ** Properties *)

(** (C12) The deque is correct on total store order.  With the memory orders
    of the source, whatever the interleaving and however long the owner's
    stores of [array_] and of slots stay in its store buffer, the trace of
    invocations and responses is a trace of the atomic deque, and between the
    owner's operations memory holds exactly the tasks of the atomic deque.
    While fewer than 2^61 tasks were pushed nobody gets stuck: a thief inside
    [steal] can always make its next access (never through a pointer to an
    array that memory has not seen complete), and for an owner inside an
    operation either that holds or a pending store can reach memory. *)
Theorem deque_tso_linearizable n ls s :
  runs (tso_step source_orders) (tso_init n) ls s →
  (∃ ls' a, runs Atomic.step (Atomic.init n) ls' a ∧ visible ls' = visible ls ∧
     (owner (mem s) = O_Idle → content (mem s) = Atomic.queue a)) ∧
  (Z.of_nat (length (Atomic.pushed ls)) < 2^61 →
     (owner (mem s) ≠ O_Idle → ∃ l s',
        tso_act source_orders (Do Owner) s = Some (l, s') ∨
        tso_act source_orders Flush s = Some (l, s')) ∧
     (∀ i p, thieves (mem s) !! i = Some p → p ≠ T_Idle →
        ∃ l s', tso_act source_orders (Do (Thief i)) s = Some (l, s'))).
Proof.
  intros Hr. destruct (reachable_lags _ _ _ Hr) as (ls' & c & Hr' & Hv & Hl & Hp). split.
  - destruct (sim_runs _ _ _ Hr') as (ls2 & a & Hra & Hva & Hsim). exists ls2, a.
    split_and!; [done|congruence|]. intros Ho. destruct Hl as (h & o & news & -> & Hlag).
    rewrite Ho in Hlag. destruct (lag_settled _ _ _ _ _ Hlag I) as (_ & -> & ->).
    rewrite <- (sim_content _ _ Hsim eq_refl). unfold content; simpl. by rewrite app_nil_r.
  - intros Hn. destruct (sim_bnd_runs _ _ _ Hr') as (a & Hsim & Hb).
    rewrite (visible_pushed _ _ Hv) in Hb. split.
    + intros Ho. by eapply tso_owner_progress.
    + intros i p Hi Hne. by eapply tso_thief_progress.
Qed.

End tso.

(** ** Witness and counterexample

    A deque of 1024 slots is filled, so that one more [push] builds a new array
    and publishes it; a thief reads [array_] while that store is pending and
    takes the oldest task from the old array. *)

Definition push_acts (x : nat) : list (tso_action (T := nat)) :=
  ((Do (CallPush x) :: replicate 4 (Do Owner)) ++ Flush :: replicate 2 (Do Owner))%nat.

Definition growth_acts : list (tso_action (T := nat)) :=
  ((seq 0 1023 ≫= push_acts) ++
  (Do (CallPush 1023) :: replicate 6 (Do Owner)) ++
  (Do (CallSteal 0) :: replicate 3 (Do (Thief 0))) ++ replicate 3 Flush ++
  replicate 3 (Do (Thief 0)) ++ replicate 2 (Do Owner))%nat.

Definition growth_end : list (option (label nat)) * tso_state (T := nat) :=
  from_option id ([], tso_init 1) (tso_schedule source_orders growth_acts (tso_init 1)).

Lemma growth_runs : runs (tso_step source_orders) (tso_init 1) growth_end.1 growth_end.2.
Proof.
  apply (tso_schedule_runs _ growth_acts). vm_compute. reflexivity.
Qed.

Lemma deque_tso_linearizable_witness :
  Atomic.taken growth_end.1 = [0%nat] ∧ length (heap (mem growth_end.2)) = 2%nat ∧
  (∃ ls' a, runs Atomic.step (Atomic.init 1) ls' a ∧ visible ls' = visible growth_end.1 ∧
     (owner (mem growth_end.2) = O_Idle → content (mem growth_end.2) = Atomic.queue a)) ∧
  (Z.of_nat (length (Atomic.pushed growth_end.1)) < 2^61 →
     (owner (mem growth_end.2) ≠ O_Idle → ∃ l s',
        tso_act source_orders (Do Owner) growth_end.2 = Some (l, s') ∨
        tso_act source_orders Flush growth_end.2 = Some (l, s')) ∧
     (∀ i p, thieves (mem growth_end.2) !! i = Some p → p ≠ T_Idle →
        ∃ l s', tso_act source_orders (Do (Thief i)) growth_end.2 = Some (l, s'))).
Proof.
  split; [vm_compute; reflexivity|]. split; [vm_compute; reflexivity|].
  apply (deque_tso_linearizable 1 growth_end.1 growth_end.2), growth_runs.
Defined.

(** The store of [bottom_] in [pop] has to be [seq_cst].  Were it a release
    store, it could stay in the buffer: a thief takes the first of two tasks,
    another reads [bottom_] before the owner's store reaches memory, and both it
    and the owner return the second task. *)
Definition relaxed_orders : orders := Orders Release Relaxed SeqCst Release SeqCst.

Definition relaxed_acts : list (tso_action (T := nat)) :=
  (push_acts 7 ++ push_acts 8 ++
  (Do CallPop :: replicate 4 (Do Owner)) ++
  (Do (CallSteal 0) :: replicate 6 (Do (Thief 0))) ++
  (Do (CallSteal 0) :: replicate 6 (Do (Thief 0))) ++
  replicate 2 (Do Owner))%nat.

Lemma relaxed_pop_duplicates :
  ∃ ls s, runs (tso_step relaxed_orders) (tso_init 1) ls s ∧
    Atomic.pushed ls = [7; 8]%nat ∧ Atomic.taken ls = [7; 8; 8]%nat.
Proof.
  destruct (tso_schedule relaxed_orders relaxed_acts (tso_init 1)) as [[ls s]|] eqn:E;
    [|by vm_compute in E].
  exists ls, s. split; [by apply (tso_schedule_runs _ relaxed_acts)|].
  vm_compute in E. injection E as <- <-. by vm_compute.
Qed.
