(* ===== verification/GlobalQueue.v ===== *)
(** * The global task queue

    [global_task_queue] of src/src/thread_pool.cpp.  Every operation runs under
    [mutex_], so an execution is a sequence of whole operations, in the order
    in which they acquire the mutex. *)

From S2P Require Import Prelude.
From stdpp Require Import options.

Section global_queue.
Context {T : Type}.

Record global_task_queue := GlobalTaskQueue { tasks_ : list T }.

Definition new_queue : global_task_queue := {| tasks_ := [] |}.

Definition push (task : T) (g : global_task_queue) : global_task_queue :=
  {| tasks_ := tasks_ g ++ [task] |}.

Definition pop_nonblocking (g : global_task_queue) : option T * global_task_queue :=
  match tasks_ g with
  | [] => (None, g)
  | task :: rest => (Some task, {| tasks_ := rest |})
  end.

Definition empty_relaxed (g : global_task_queue) : bool :=
  match tasks_ g with [] => true | _ => false end.

(** The destructor: the pointers it deletes. *)
Definition destroy (g : global_task_queue) : list T := tasks_ g.

(** ** Executions *)

Inductive gop : Type :=
| GPush (task : T)
| GPop.

(** The result of each [GPop], in order. *)
Fixpoint run (os : list gop) (g : global_task_queue) : list (option T) * global_task_queue :=
  match os with
  | [] => ([], g)
  | GPush x :: os => run os (push x g)
  | GPop :: os =>
      let '(r, g1) := pop_nonblocking g in
      let '(rs, g2) := run os g1 in (r :: rs, g2)
  end.

Definition pushes (os : list gop) : list T :=
  omap (λ o, match o with GPush x => Some x | GPop => None end) os.

Lemma run_fifo os g :
  tasks_ g ++ pushes os = omap id (run os g).1 ++ tasks_ (run os g).2.
Proof.
  revert g. induction os as [|[x|] os IH]; intros g; simpl.
  - by rewrite app_nil_r.
  - rewrite <- IH. simpl. by rewrite <- app_assoc.
  - unfold pop_nonblocking. destruct (tasks_ g) as [|y rest] eqn:E.
    + specialize (IH g). rewrite E in IH. destruct (run os g). exact IH.
    + specialize (IH {| tasks_ := rest |}). destruct (run os _). simpl in *. by f_equal.
Qed.

(** First in, first out.  In any sequence of operations of the global
    queue, the tasks that [pop_nonblocking] returned, followed by the tasks
    the destructor would delete, are the pushed tasks in the order in which
    they were pushed. *)
Lemma global_queue_fifo (os : list gop) :
  pushes os = omap id (run os new_queue).1 ++ destroy (run os new_queue).2.
Proof. apply (run_fifo os new_queue). Qed.

Lemma empty_relaxed_spec g : empty_relaxed g = true ↔ tasks_ g = [].
Proof. unfold empty_relaxed. by destruct (tasks_ g). Qed.

Lemma pop_nonblocking_none g : (pop_nonblocking g).1 = None ↔ tasks_ g = [].
Proof. unfold pop_nonblocking. by destruct (tasks_ g). Qed.

End global_queue.
Arguments global_task_queue : clear implicits.
Arguments gop : clear implicits.
