(* ===== verification/Victims.v ===== *)
(** * Choosing victims

    [thread_pool::impl::steal_from_others] of src/src/thread_pool.cpp: the
    per-thread xorshift generator, the order in which the other workers are
    tried, and the stealing loop itself (run without interference). *)

From S2P Require Import Prelude MachineInt CircularArray DequeSpec WorkDeque.
From stdpp Require Import options.
Local Open Scope Z_scope.

(** ** The generator *)

(** [static thread_local rng_state], on the first call in a thread. *)
Definition rng_seed (worker_id : Z) : Z := uint32 (uint32 worker_id + 1).

Definition xorshift32 (rng_state : Z) : Z :=
  let s := Z.lxor rng_state (uint32 (Z.shiftl rng_state 13)) in
  let s := Z.lxor s (Z.shiftr s 17) in
  Z.lxor s (uint32 (Z.shiftl s 5)).

Lemma uint32_land z : uint32 z = Z.land z (Z.ones 32).
Proof. unfold uint32. by rewrite Z.land_ones. Qed.

Lemma range_bits z : 0 ≤ z < 2^32 ↔ (0 ≤ z ∧ ∀ i, 32 ≤ i → Z.testbit z i = false).
Proof.
  split.
  - intros [H0 H1]. split; [done|]. intros i Hi.
    rewrite <- (Z.mod_small z (2^32)) by lia. by apply Z.mod_pow2_bits_high.
  - intros [H0 Hb]. assert (z = z mod 2^32) as ->; [|apply Z.mod_pos_bound; lia].
    apply Z.bits_inj'. intros i Hi. destruct (decide (i < 32)).
    + by rewrite Z.mod_pow2_bits_low.
    + rewrite Z.mod_pow2_bits_high by lia. apply Hb. lia.
Qed.

(** The two kinds of step of the generator, as linear maps on bits. *)
Definition xs_left (k s : Z) : Z := Z.lxor s (uint32 (Z.shiftl s k)).
Definition xs_right (k s : Z) : Z := Z.lxor s (Z.shiftr s k).

Lemma xorshift32_steps s : xorshift32 s = xs_left 5 (xs_right 17 (xs_left 13 s)).
Proof. done. Qed.

Lemma xs_left_range k s : 0 ≤ s < 2^32 → 0 ≤ xs_left k s < 2^32.
Proof.
  intros [H0 Hb]%range_bits. pose proof (uint32_range (Z.shiftl s k)) as [H1 Hb1]%range_bits.
  apply range_bits. split; [by apply Z.lxor_nonneg|].
  intros i Hi. unfold xs_left. by rewrite Z.lxor_spec, Hb, Hb1.
Qed.

Lemma xs_right_range k s : 0 ≤ k → 0 ≤ s < 2^32 → 0 ≤ xs_right k s < 2^32.
Proof.
  intros Hk [H0 Hb]%range_bits. apply range_bits. split.
  - by apply Z.lxor_nonneg; rewrite Z.shiftr_nonneg.
  - intros i Hi. unfold xs_right. rewrite Z.lxor_spec, Z.shiftr_spec, Hb, Hb by lia. done.
Qed.

Lemma xs_left_bit k s i :
  0 ≤ i → Z.testbit (xs_left k s) i = xorb (Z.testbit s i) ((i <? 32) && Z.testbit s (i - k)).
Proof.
  intros Hi. unfold xs_left. rewrite uint32_land, Z.lxor_spec, Z.land_spec, Z.shiftl_spec by done.
  rewrite Z.testbit_ones_nonneg by lia. by rewrite andb_comm.
Qed.

Lemma xs_right_bit k s i :
  0 ≤ i → Z.testbit (xs_right k s) i = xorb (Z.testbit s i) (Z.testbit s (i + k)).
Proof. intros Hi. unfold xs_right. by rewrite Z.lxor_spec, Z.shiftr_spec. Qed.

Lemma xorb_cancel_r a b c : xorb a c = xorb b c → a = b.
Proof. by destruct a, b, c. Qed.

(** The bits are determined from the lowest to the highest. *)
Lemma xs_left_inj k a b : 0 < k → xs_left k a = xs_left k b → a = b.
Proof.
  intros Hk Heq. apply Z.bits_inj'. apply (Zlt_0_ind (λ i, Z.testbit a i = Z.testbit b i)).
  intros i IH Hi. apply (f_equal (λ z, Z.testbit z i)) in Heq.
  rewrite !xs_left_bit in Heq by done.
  assert (Z.testbit a (i - k) = Z.testbit b (i - k)) as E.
  { destruct (decide (i < k)); [by rewrite !Z.testbit_neg_r by lia|]. apply IH. lia. }
  rewrite E in Heq. by eapply xorb_cancel_r.
Qed.

(** The bits are determined from the highest to the lowest. *)
Lemma xs_right_inj k a b :
  0 < k → 0 ≤ a < 2^32 → 0 ≤ b < 2^32 → xs_right k a = xs_right k b → a = b.
Proof.
  intros Hk [_ Ha]%range_bits [_ Hb]%range_bits Heq. apply Z.bits_inj'. intros i Hi.
  destruct (decide (32 ≤ i)) as [|Hlt]; [by rewrite Ha, Hb|].
  assert (∀ d, 0 ≤ d → ∀ j, 0 ≤ j → 32 - j = d → Z.testbit a j = Z.testbit b j) as H;
    [|by apply (H (32 - i)); lia].
  apply (Zlt_0_ind (λ d, ∀ j, 0 ≤ j → 32 - j = d → Z.testbit a j = Z.testbit b j)).
  intros d IH Hd j Hj Hjd. apply (f_equal (λ z, Z.testbit z j)) in Heq.
  rewrite !xs_right_bit in Heq by done.
  assert (Z.testbit a (j + k) = Z.testbit b (j + k)) as E.
  { destruct (decide (32 ≤ j + k)); [rewrite Ha, Hb by done; done|].
    apply (IH (32 - (j + k))); lia. }
  rewrite E in Heq. by eapply xorb_cancel_r.
Qed.

Lemma xorshift32_range s : 0 ≤ s < 2^32 → 0 ≤ xorshift32 s < 2^32.
Proof.
  intros Hs. rewrite xorshift32_steps. by apply xs_left_range, xs_right_range, xs_left_range.
Qed.

Lemma xorshift32_inj a b :
  0 ≤ a < 2^32 → 0 ≤ b < 2^32 → xorshift32 a = xorshift32 b → a = b.
Proof.
  intros Ha Hb. rewrite !xorshift32_steps. intros Heq.
  apply xs_left_inj in Heq; [|lia]. apply xs_right_inj in Heq; [|lia|by apply xs_left_range..].
  by apply xs_left_inj in Heq; [|lia].
Qed.

(** The generator is a permutation of the non-zero 32-bit words: distinct
    states have distinct successors, and a non-zero state never becomes zero
    (the state on which xorshift would stay forever).  Worker ids below
    2^32 - 1 give a non-zero seed. *)
Lemma xorshift32_permutation (a b : Z) :
  0 < a < 2^32 → 0 < b < 2^32 →
  0 < xorshift32 a < 2^32 ∧ (xorshift32 a = xorshift32 b → a = b) ∧
  rng_seed (a - 1) = a.
Proof.
  intros Ha Hb. pose proof (xorshift32_range a ltac:(lia)) as Hr.
  assert (xorshift32 a ≠ 0) as Hnz.
  { intros Hz. assert (a = 0); [|lia]. by apply xorshift32_inj; [lia|lia|rewrite Hz]. }
  split_and!; [lia|lia|apply xorshift32_inj; lia|].
  unfold rng_seed, uint32. rewrite (Z.mod_small (a - 1)) by lia.
  rewrite Z.mod_small by lia. lia.
Qed.

(** ** The order of the victims *)

Local Open Scope nat_scope.

(** [start_index = rng_state % num_workers]. *)
Definition start_index (rng_state : Z) (num_workers : nat) : nat :=
  Z.to_nat (rng_state mod Z.of_nat num_workers).

(** [target = (start_index + i) % num_workers]. *)
Definition target (start num_workers i : nat) : nat := (start + i) mod num_workers.

(** The deques the loop tries, in order: the worker skips its own. *)
Definition victim_order (worker_id start num_workers : nat) : list nat :=
  filter (λ j, j ≠ worker_id) (target start num_workers <$> seq 0 num_workers).

Lemma mod_window_nat n i j s :
  i < n → j < n → (s + i) mod n = (s + j) mod n → i = j.
Proof.
  intros Hi Hj Heq. apply Nat2Z.inj.
  apply (f_equal Z.of_nat) in Heq. rewrite !Nat2Z.inj_mod in Heq.
  apply mod_window in Heq; lia.
Qed.

Lemma targets_perm start n : target start n <$> seq 0 n ≡ₚ seq 0 n.
Proof.
  apply submseteq_length_Permutation; [|by rewrite length_fmap].
  apply NoDup_submseteq.
  - apply NoDup_fmap_2_strong; [|apply NoDup_seq].
    intros i j Hi%elem_of_seq Hj%elem_of_seq. apply mod_window_nat; lia.
  - intros j (i & -> & Hi%elem_of_seq)%list_elem_of_fmap. apply elem_of_seq.
    pose proof (Nat.mod_upper_bound (start + i) n). unfold target. lia.
Qed.

Lemma victim_order_range worker_id start n :
  Forall (λ j, j < n) (victim_order worker_id start n).
Proof.
  apply Forall_forall. intros j Hj. unfold victim_order in Hj.
  rewrite (targets_perm start n) in Hj. apply list_elem_of_filter in Hj as [_ Hj].
  apply elem_of_seq in Hj. lia.
Qed.

(** Wherever the generator starts, the stealing loop visits the deque of every other
    worker exactly once and never its own. *)
Lemma victims_are_the_others (worker_id start num_workers : nat) :
  victim_order worker_id start num_workers ≡ₚ
    filter (λ j, j ≠ worker_id) (seq 0 num_workers).
Proof. unfold victim_order. by rewrite (targets_perm start num_workers). Qed.

(** ** The stealing loop *)

Section steal.
Context {T : Type}.
Implicit Types (ds : list (work_stealing_deque T)) (qs : list (list T)).

(** The body of the loop over [i]. *)
Fixpoint steal_loop (worker_id start num_workers : nat) (idxs : list nat) ds :
    outcome (option T * list (work_stealing_deque T)) :=
  match idxs with
  | [] => Ok (None, ds)
  | i :: idxs =>
      let tgt := target start num_workers i in
      if decide (tgt = worker_id) then steal_loop worker_id start num_workers idxs ds else
      match ds !! tgt with
      | None => Undef OutOfBounds
      | Some d =>
          '(task, d') ← WorkDeque.steal d;
          let ds' := <[tgt:=d']> ds in
          match task with
          | Some _ => Ok (task, ds')
          | None => steal_loop worker_id start num_workers idxs ds'
          end
      end
  end.

(** [rng] is the thread-local generator: [None] before its first use. *)
Definition steal_from_others (worker_id : nat) (rng : option Z) ds :
    outcome (option T * option Z * list (work_stealing_deque T)) :=
  let num_workers := length ds in
  if decide (num_workers ≤ 1) then Ok (None, rng, ds) else
  let rng_state := xorshift32 (from_option id (rng_seed (Z.of_nat worker_id)) rng) in
  '(task, ds') ← steal_loop worker_id (start_index rng_state num_workers) num_workers
                   (seq 0 num_workers) ds;
  Ok (task, Some rng_state, ds').

Definition deques_ok ds qs : Prop :=
  Forall2 represents ds qs ∧ Forall (λ d, (bottom_ d ≤ int64_max)%Z) ds.

Lemma deques_ok_insert ds qs j d q :
  deques_ok ds qs → represents d q → (bottom_ d ≤ int64_max)%Z →
  deques_ok (<[j:=d]> ds) (<[j:=q]> qs).
Proof. intros [H1 H2] Hd Hb. split; [by apply Forall2_insert|by apply Forall_insert]. Qed.

(** What a steal of one deque does, whether it holds a task or not. *)
Lemma steal_one (d : work_stealing_deque T) q :
  represents d q → (bottom_ d ≤ int64_max)%Z →
  ∃ d', WorkDeque.steal d = Ok ((ref_steal q).1, d') ∧ represents d' (ref_steal q).2 ∧
    (bottom_ d' ≤ int64_max)%Z.
Proof.
  intros Hd Hb. destruct q as [|x q].
  - exists d. by rewrite steal_empty.
  - destruct (steal_nonempty d q x Hd Hb) as (d' & -> & Hd' & Hb' & _). exists d'.
    by rewrite Hb'.
Qed.

Lemma steal_loop_correct worker_id start ds qs idxs :
  deques_ok ds qs → 0 < length ds →
  ∃ r ds', steal_loop worker_id start (length ds) idxs ds = Ok (r, ds') ∧
    match r with
    | Some x => ∃ j q, j ≠ worker_id ∧ qs !! j = Some (x :: q) ∧ deques_ok ds' (<[j:=q]> qs)
    | None => deques_ok ds' qs ∧
        ∀ i, i ∈ idxs → target start (length ds) i ≠ worker_id → qs !! target start (length ds) i = Some []
    end.
Proof.
  intros Hok Hn. revert ds Hok Hn. induction idxs as [|i idxs IH]; intros ds Hok Hn; simpl.
  { exists None, ds. split_and!; [done..|]. by intros i ?%not_elem_of_nil. }
  set (tgt := target start (length ds) i).
  assert (tgt < length ds) as Htgt by (apply Nat.mod_upper_bound; lia).
  case_decide as Hw.
  { destruct (IH ds Hok Hn) as (r & ds' & -> & Hr). exists r, ds'. split; [done|].
    destruct r; [done|]. destruct Hr as [Hr1 Hr2]. split; [done|].
    intros j [->|Hj]%elem_of_cons Hne; [done|by apply Hr2]. }
  destruct (lookup_lt_is_Some_2 ds tgt Htgt) as [d Hd]. rewrite Hd.
  pose proof Hok as [Hrep Hbot].
  destruct (Forall2_lookup_l _ _ _ _ _ Hrep Hd) as (q & Hq & Hdq).
  pose proof (Forall_lookup_1 _ _ _ _ Hbot Hd) as Hb. simpl in Hb.
  destruct (steal_one d q Hdq Hb) as (d' & -> & Hd' & Hb'). simpl.
  destruct q as [|x q]; simpl in *.
  - assert (deques_ok (<[tgt:=d']> ds) qs) as Hok'.
    { rewrite <- (list_insert_id qs tgt []) by done. by apply deques_ok_insert. }
    destruct (IH _ Hok') as (r & ds' & Hrun & Hr); [by rewrite length_insert|].
    rewrite length_insert in Hrun, Hr. rewrite Hrun. exists r, ds'. split; [done|].
    destruct r; [done|]. destruct Hr as [Hr1 Hr2]. split; [done|].
    intros j [->|Hj]%elem_of_cons Hne; [done|by apply Hr2].
  - do 2 eexists; split; [done|]. simpl. exists tgt, q. split_and!; [done..|].
    by apply deques_ok_insert.
Qed.

(** (C17) Stealing without interference finds work when there is some.  For a
    pool of at least one worker whose deques hold [qs], [steal_from_others] is
    defined; when it returns a task, that task was the oldest one of another
    worker's deque and nothing else changed; it returns null only if the deques
    of all other workers are empty. *)
Theorem steal_from_others_complete (worker_id : nat) (rng : option Z) ds qs :
  deques_ok ds qs → worker_id < length ds →
  ∃ r rng' ds', steal_from_others worker_id rng ds = Ok (r, rng', ds') ∧
    match r with
    | Some x => ∃ j q, j ≠ worker_id ∧ qs !! j = Some (x :: q) ∧ deques_ok ds' (<[j:=q]> qs)
    | None => deques_ok ds' qs ∧ ∀ j, j < length qs → j ≠ worker_id → qs !! j = Some []
    end.
Proof.
  intros Hok Hw. pose proof (Forall2_length _ _ _ (proj1 Hok)) as Hlen.
  unfold steal_from_others. case_decide as Hn.
  { do 3 eexists; split; [done|]. simpl. split; [done|]. lia. }
  edestruct (steal_loop_correct worker_id) as (r & ds' & Hrun & Hr); [exact Hok|lia|].
  rewrite Hrun. simpl. do 3 eexists; split; [done|]. destruct r; [done|].
  destruct Hr as [Hr1 Hr2]. split; [done|]. intros j Hj Hne.
  assert (j ∈ target (start_index (xorshift32
     (from_option id (rng_seed (Z.of_nat worker_id)) rng)) (length ds)) (length ds)
     <$> seq 0 (length ds)) as Hin.
  { rewrite (targets_perm _ (length ds)). apply elem_of_seq. lia. }
  apply list_elem_of_fmap in Hin as (i & -> & Hi). by apply Hr2.
Qed.

End steal.

(** Three workers; only worker 2 has tasks, and worker 0 steals the older one. *)
Definition demo_deques : list (work_stealing_deque nat) :=
  [{| top_ := 0; bottom_ := 0; array_ := new_circular_array 4; history_ := [] |};
   {| top_ := 9; bottom_ := 9; array_ := new_circular_array 4; history_ := [] |};
   demo_deque]%Z.

Lemma demo_deques_ok : deques_ok demo_deques [[]; []; [7; 8]].
Proof.
  split.
  - repeat constructor; simpl; try lia; try by exists 2%Z.
    intros [|[|k]] Hk; [done|done|lia].
  - repeat constructor; simpl; int_lia.
Qed.

Lemma steal_from_others_complete_witness :
  ∃ r rng' ds', steal_from_others 0 None demo_deques = Ok (r, rng', ds') ∧
    match r with
    | Some x => ∃ j q, j ≠ 0 ∧ [[]; []; [7; 8]] !! j = Some (x :: q) ∧
                  deques_ok ds' (<[j:=q]> [[]; []; [7; 8]])
    | None => deques_ok ds' [[]; []; [7; 8]] ∧ ∀ j, j < 3 → j ≠ 0 → [[]; []; [7; 8]] !! j = Some []
    end.
Proof. apply (steal_from_others_complete 0 None); [apply demo_deques_ok|simpl; lia]. Defined.
