(* ===== verification/ThreadPool.v ===== *)
(** * The thread pool

    [thread_pool::impl] of src/src/thread_pool.cpp as a state machine: the
    workers' loop, [enqueue] called by workers (inside a task) and by external
    threads, the sleep protocol on [mutex], [cv] and [sleeping_workers], and the
    destructor.  Every access to shared state is a step of its own, so threads
    interleave between any two accesses.

    A deque operation is one atomic step on the abstract list, which is what
    ChaseLevProof.chase_lev_linearizable allows; [ALoseRace] is a steal that
    loses a race and reports null whatever the deque holds, and [AMisread] is an
    [empty()] whose two loads straddle a concurrent operation.  [enqueue] on the
    global queue is atomic because it runs under that queue's own mutex.

    A task is a value of [T]; [body x] lists the tasks that [x] enqueues on this
    pool while it runs (on a worker thread, so through [local_queue]). *)

From S2P Require Import Prelude MachineInt DequeSpec GlobalQueue Victims.
From stdpp Require Import options.

Section thread_pool.
Context {T : Type} (body : T → list T).

(** Where a thread stands inside [enqueue]. *)
Inductive enq_pc : Type :=
| EPush (x : T)          (** push to [local_queue] or to [global_queue] *)
| ELoad                  (** load [sleeping_workers] *)
| ELock                  (** acquire [mutex] *)
| ENotify.               (** [cv.notify_one()], release [mutex] *)

(** Which of the two calls of [steal_from_others] is running. *)
Inductive steal_ctx : Type :=
| Main
| Spin (spin : nat).

(** Program counters of [worker_loop].  The constructors from [WLockedStop] to
    [WPredLocal], and [WDecr], hold [mutex]. *)
Inductive worker_pc : Type :=
| WPop                                         (** [local_queue->pop()] *)
| WGlobal                                      (** [global_queue.pop_nonblocking()] *)
| WSteal (k : steal_ctx) (targets : list nat)  (** the stealing loop *)
| WRun (x : T) (todo : list T) (e : option enq_pc) (** inside [( *task_ptr)()] *)
| WStop                                        (** load [stop] *)
| WSpin (spin : nat)                           (** spin: yield, pop the global queue *)
| WLock                                        (** acquire [mutex] *)
| WLockedStop                                  (** load [stop] *)
| WLockedGlobal                                (** [!global_queue.empty_relaxed()] *)
| WLockedLocal (k : nat)                       (** [has_local_work()], deque [k] *)
| WIncr                                        (** [sleeping_workers.fetch_add(1)] *)
| WPredStop                                    (** predicate of [cv.wait]: [stop] *)
| WPredGlobal                                  (** predicate: the global queue *)
| WPredLocal (k : nat)                         (** predicate: deque [k] *)
| WWait                                        (** blocked in [cv.wait] *)
| WWoken                                       (** notified, re-acquires [mutex] *)
| WDecr                                        (** [sleeping_workers.fetch_sub(1)] *)
| WExit.                                       (** left the loop *)

Inductive dtor_pc : Type :=
| DNone                  (** the pool is alive *)
| DLock                  (** [stop] stored, acquire [mutex] *)
| DNotify                (** [cv.notify_all()], release [mutex] *)
| DJoin (k : nat)        (** [workers[k].join()] *)
| DDone.

Inductive tid : Type :=
| Wk (i : nat)
| Ext (j : nat)
| Dtor.

#[global] Instance tid_eq_dec : EqDecision tid.
Proof. solve_decision. Defined.

Record pool := Pool {
  deques : list (list T);              (** contents, oldest first *)
  global_queue : global_task_queue T;
  stop : bool;
  sleeping_workers : Z;
  mutex : option tid;                  (** the thread that holds it *)
  workers : list worker_pc;
  rngs : list (option Z);              (** thread-local [rng_state] *)
  externs : list (option enq_pc);      (** other threads: inside [enqueue] or not *)
  dtor : dtor_pc;
  submitted : list T;                  (** history: tasks passed to [enqueue] *)
  executed : list T;                   (** history: tasks that ran to completion *)
}.

Definition set_deques v s := Pool v (global_queue s) (stop s) (sleeping_workers s) (mutex s)
  (workers s) (rngs s) (externs s) (dtor s) (submitted s) (executed s).
Definition set_global v s := Pool (deques s) v (stop s) (sleeping_workers s) (mutex s)
  (workers s) (rngs s) (externs s) (dtor s) (submitted s) (executed s).
Definition set_stop v s := Pool (deques s) (global_queue s) v (sleeping_workers s) (mutex s)
  (workers s) (rngs s) (externs s) (dtor s) (submitted s) (executed s).
Definition set_sleeping v s := Pool (deques s) (global_queue s) (stop s) v (mutex s)
  (workers s) (rngs s) (externs s) (dtor s) (submitted s) (executed s).
Definition set_mutex v s := Pool (deques s) (global_queue s) (stop s) (sleeping_workers s) v
  (workers s) (rngs s) (externs s) (dtor s) (submitted s) (executed s).
Definition set_workers v s := Pool (deques s) (global_queue s) (stop s) (sleeping_workers s)
  (mutex s) v (rngs s) (externs s) (dtor s) (submitted s) (executed s).
Definition set_rngs v s := Pool (deques s) (global_queue s) (stop s) (sleeping_workers s)
  (mutex s) (workers s) v (externs s) (dtor s) (submitted s) (executed s).
Definition set_externs v s := Pool (deques s) (global_queue s) (stop s) (sleeping_workers s)
  (mutex s) (workers s) (rngs s) v (dtor s) (submitted s) (executed s).
Definition set_dtor v s := Pool (deques s) (global_queue s) (stop s) (sleeping_workers s)
  (mutex s) (workers s) (rngs s) (externs s) v (submitted s) (executed s).
Definition log_submit x s := Pool (deques s) (global_queue s) (stop s) (sleeping_workers s)
  (mutex s) (workers s) (rngs s) (externs s) (dtor s) (submitted s ++ [x]) (executed s).
Definition log_exec x s := Pool (deques s) (global_queue s) (stop s) (sleeping_workers s)
  (mutex s) (workers s) (rngs s) (externs s) (dtor s) (submitted s) (executed s ++ [x]).

Definition set_worker i pc s := set_workers (<[i:=pc]> (workers s)) s.
Definition set_extern j e s := set_externs (<[j:=e]> (externs s)) s.

(** [thread_pool(thread_count)] makes an [impl] with at least one worker. *)
Definition worker_count (thread_count : nat) : nat :=
  if decide (thread_count = 0) then 1 else thread_count.

(** [impl(thread_count)], with [m] other threads that may call [enqueue]. *)
Definition new_pool (thread_count m : nat) : pool :=
  let n := worker_count thread_count in
  {| deques := replicate n []; global_queue := new_queue; stop := false;
     sleeping_workers := 0; mutex := None; workers := replicate n WPop;
     rngs := replicate n None; externs := replicate m None; dtor := DNone;
     submitted := []; executed := [] |}.

(** ** Mutex and condition variable *)

Definition lock (t : tid) (s : pool) : option pool :=
  match mutex s with None => Some (set_mutex (Some t) s) | Some _ => None end.

Definition unlock (s : pool) : pool := set_mutex None s.

Definition is_waiting (pc : worker_pc) : bool :=
  match pc with WWait => true | _ => false end.

(** [notify_one] wakes the waiter [w] if there is one, and does nothing when
    nobody waits. *)
Definition notify_one (w : nat) (s : pool) : option pool :=
  if existsb is_waiting (workers s)
  then match workers s !! w with
       | Some WWait => Some (set_worker w WWoken s)
       | _ => None
       end
  else Some s.

Definition wake (pc : worker_pc) : worker_pc :=
  match pc with WWait => WWoken | _ => pc end.

Definition notify_all (s : pool) : pool := set_workers (wake <$> workers s) s.

(** ** [enqueue] *)

(** One step inside [enqueue] by thread [me]; [own] is the worker whose deque
    [local_queue] points to, if any; [w] is the waiter a notification picks. *)
Definition enqueue_step (me : tid) (own : option nat) (e : enq_pc) (w : nat) (s : pool) :
    option (pool * option enq_pc) :=
  match e with
  | EPush x =>
      match own with
      | Some i => Some (set_deques (alter (λ q, q ++ [x]) i (deques s)) s, Some ELoad)
      | None => Some (set_global (push x (global_queue s)) s, Some ELoad)
      end
  | ELoad => Some (s, if (0 <? sleeping_workers s)%Z then Some ELock else None)
  | ELock => s1 ← lock me s; Some (s1, Some ENotify)
  | ENotify => s1 ← notify_one w s; Some (unlock s1, None)
  end.

(** ** The worker loop *)

(** After a call of [steal_from_others] that returned null. *)
Definition after_steal (k : steal_ctx) : worker_pc :=
  match k with
  | Main => WStop
  | Spin spin => if decide (S spin < 32) then WSpin (S spin) else WLock
  end.

(** Entering [steal_from_others]: the generator moves and fixes the order. *)
Definition begin_steal (i : nat) (k : steal_ctx) (s : pool) : pool :=
  let n := length (deques s) in
  if decide (n ≤ 1) then set_worker i (after_steal k) s else
  let rng := xorshift32 (from_option id (rng_seed (Z.of_nat i)) (mjoin (rngs s !! i))) in
  set_worker i (WSteal k (victim_order i (start_index rng n) n))
    (set_rngs (<[i:=Some rng]> (rngs s)) s).

(** A task was obtained: it runs on worker [i]. *)
Definition run_task (i : nat) (x : T) (s : pool) : pool :=
  set_worker i (WRun x (body x) None) s.

Definition take_global (i : nat) (s : pool) : option pool :=
  match pop_nonblocking (global_queue s) with
  | (Some x, g) => Some (run_task i x (set_global g s))
  | (None, _) => None
  end.

Definition worker_step (i w : nat) (s : pool) : option pool :=
  pc ← workers s !! i;
  match pc with
  | WPop =>
      q ← deques s !! i;
      match ref_pop q with
      | (Some x, q') => Some (run_task i x (set_deques (<[i:=q']> (deques s)) s))
      | (None, _) => Some (set_worker i WGlobal s)
      end
  | WGlobal =>
      match take_global i s with
      | Some s' => Some s'
      | None => Some (begin_steal i Main s)
      end
  | WSteal k [] => Some (set_worker i (after_steal k) s)
  | WSteal k (j :: js) =>
      q ← deques s !! j;
      match ref_steal q with
      | (Some x, q') => Some (run_task i x (set_deques (<[j:=q']> (deques s)) s))
      | (None, _) => Some (set_worker i (WSteal k js) s)
      end
  | WRun x [] None => Some (set_worker i WPop (log_exec x s))
  | WRun x (y :: ys) None => Some (set_worker i (WRun x ys (Some (EPush y))) (log_submit y s))
  | WRun x ys (Some e) =>
      '(s1, e') ← enqueue_step (Wk i) (Some i) e w s;
      Some (set_worker i (WRun x ys e') s1)
  | WStop => Some (set_worker i (if stop s then WExit else WSpin 0) s)
  | WSpin spin =>
      match take_global i s with
      | Some s' => Some s'
      | None => Some (begin_steal i (Spin spin) s)
      end
  | WLock => s1 ← lock (Wk i) s; Some (set_worker i WLockedStop s1)
  | WLockedStop =>
      Some (if stop s then set_worker i WExit (unlock s) else set_worker i WLockedGlobal s)
  | WLockedGlobal =>
      Some (if empty_relaxed (global_queue s) then set_worker i (WLockedLocal 0) s
            else set_worker i WPop (unlock s))
  | WLockedLocal k =>
      Some (match deques s !! k with
            | None => set_worker i WIncr s
            | Some [] => set_worker i (WLockedLocal (S k)) s
            | Some _ => set_worker i WPop (unlock s)
            end)
  | WIncr => Some (set_worker i WPredStop (set_sleeping (sleeping_workers s + 1)%Z s))
  | WPredStop => Some (set_worker i (if stop s then WDecr else WPredGlobal) s)
  | WPredGlobal =>
      Some (set_worker i (if empty_relaxed (global_queue s) then WPredLocal 0 else WDecr) s)
  | WPredLocal k =>
      Some (match deques s !! k with
            | None => set_worker i WWait (unlock s)
            | Some [] => set_worker i (WPredLocal (S k)) s
            | Some _ => set_worker i WDecr s
            end)
  | WWait => None
  | WWoken => s1 ← lock (Wk i) s; Some (set_worker i WPredStop s1)
  | WDecr => Some (set_worker i WPop (unlock (set_sleeping (sleeping_workers s - 1)%Z s)))
  | WExit => None
  end.

(** A steal attempt that loses a race. *)
Definition lose_race (i : nat) (s : pool) : option pool :=
  match workers s !! i with
  | Some (WSteal k (_ :: js)) => Some (set_worker i (WSteal k js) s)
  | _ => None
  end.

(** An [empty()] inside [has_local_work()] that answers the opposite of the
    deque's contents. *)
Definition misread (i : nat) (s : pool) : option pool :=
  pc ← workers s !! i;
  match pc with
  | WLockedLocal k =>
      q ← deques s !! k;
      Some (match q with
            | [] => set_worker i WPop (unlock s)
            | _ => set_worker i (WLockedLocal (S k)) s
            end)
  | WPredLocal k =>
      q ← deques s !! k;
      Some (match q with
            | [] => set_worker i WDecr s
            | _ => set_worker i (WPredLocal (S k)) s
            end)
  | _ => None
  end.

(** ** External threads and the destructor *)

Definition is_idle (e : option enq_pc) : bool :=
  match e with None => true | Some _ => false end.

(** An external thread calls [enqueue(x)]; the pool must be alive. *)
Definition call_enqueue (j : nat) (x : T) (s : pool) : option pool :=
  match externs s !! j, dtor s with
  | Some None, DNone => Some (set_extern j (Some (EPush x)) (log_submit x s))
  | _, _ => None
  end.

Definition extern_step (j w : nat) (s : pool) : option pool :=
  match externs s !! j with
  | Some (Some e) =>
      '(s1, e') ← enqueue_step (Ext j) None e w s;
      Some (set_extern j e' s1)
  | _ => None
  end.

(** The destructor may only start when no other thread uses the pool. *)
Definition dtor_step (s : pool) : option pool :=
  match dtor s with
  | DNone => if forallb is_idle (externs s) then Some (set_dtor DLock (set_stop true s)) else None
  | DLock => s1 ← lock Dtor s; Some (set_dtor DNotify s1)
  | DNotify => Some (set_dtor (DJoin 0) (unlock (notify_all s)))
  | DJoin k =>
      match workers s !! k with
      | Some WExit => Some (set_dtor (DJoin (S k)) s)
      | Some _ => None
      | None => Some (set_dtor DDone s)
      end
  | DDone => None
  end.

(** ** The pool *)

Inductive action : Type :=
| AWorker (i w : nat)         (** worker [i] makes its next access *)
| ALoseRace (i : nat)
| AMisread (i : nat)
| ASpurious (i : nat)         (** spurious wakeup *)
| ACall (j : nat) (x : T)     (** external thread [j] calls [enqueue(x)] *)
| AExtern (j w : nat)
| ADtor.

Definition pool_act (a : action) (s : pool) : option pool :=
  match a with
  | AWorker i w => worker_step i w s
  | ALoseRace i => lose_race i s
  | AMisread i => misread i s
  | ASpurious i =>
      match workers s !! i with
      | Some WWait => Some (set_worker i WWoken s)
      | _ => None
      end
  | ACall j x => call_enqueue j x s
  | AExtern j w => extern_step j w s
  | ADtor => dtor_step s
  end.

Definition pool_step (s : pool) (a : action) (s' : pool) : Prop := pool_act a s = Some s'.

(** [thread_pool::wait()]: the loop around [impl::empty()], which looks at the queues one
    after the other while the pool goes on. *)
Inductive wait_pc : Type :=
| WtGlobal               (** [global_queue.empty_relaxed()] *)
| WtDeque (k : nat)      (** [deques[k]->empty()] *)
| WtYield                (** [empty()] was false: [yield] *)
| WtReturned.

Definition wait_step (p : wait_pc) (s : pool) : wait_pc :=
  match p with
  | WtGlobal => if empty_relaxed (global_queue s) then WtDeque 0 else WtYield
  | WtDeque k =>
      match deques s !! k with
      | None => WtReturned
      | Some [] => WtDeque (S k)
      | Some _ => WtYield
      end
  | WtYield => WtGlobal
  | WtReturned => WtReturned
  end.

(** The pool together with a thread inside [wait()]; [None] is that thread's step. *)
Definition waiting_act (a : option action) (s : pool * wait_pc) : option (pool * wait_pc) :=
  match a with
  | Some a => p ← pool_act a s.1; Some (p, s.2)
  | None => Some (s.1, wait_step s.2 s.1)
  end.

End thread_pool.
Arguments enq_pc : clear implicits.
Arguments worker_pc : clear implicits.
Arguments pool : clear implicits.
Arguments action : clear implicits.
