(* ===== verification/ThreadPoolProof.v ===== *)
(** * Invariants of the thread pool

    Mutual exclusion, the meaning of [sleeping_workers], the emptiness of a
    starved worker's own deque, the no-lost-wakeup invariant, what the
    destructor can rely on, and the conservation of tasks. *)

From S2P Require Import Prelude MachineInt DequeSpec GlobalQueue Victims ThreadPool.
From stdpp Require Import options.

(** Splits an equation [step s = Some s'] into the branches of the code. *)
Ltac pool_cases H :=
  repeat (simpl in H; lazymatch type of H with
  | Some (_, _) = Some _ => injection H as <- <-
  | Some _ = Some _ => injection H as <-
  | None = Some _ => discriminate H
  | mbind _ _ = Some _ =>
      let x := fresh "v" in let E := fresh "E" in apply bind_Some in H as (x & E & H)
  | (match ?x with _ => _ end) = Some _ => destruct x eqn:?
  end).

(** How a step may change the mutex on behalf of a thread that holds it before
    ([h]) and after ([h']). *)
Definition mutex_move (m m' : option tid) (t : tid) (h h' : bool) : Prop :=
  (m' = m ∧ h' = h) ∨ (m = None ∧ m' = Some t ∧ h' = true) ∨ (h = true ∧ m' = None ∧ h' = false).

(** Discharges the clauses of [worker_effect] for a step that was computed. *)
Ltac effect :=
  split; simpl; unfold mutex_move; first
    [ done | lia | tauto | by rewrite ?length_insert, ?length_alter
    | by intros; rewrite list_lookup_alter_ne | naive_solver lia ].

Section invariants.
Context {T : Type}.
Implicit Types (s : pool T) (pc : worker_pc T).

(** Program counters that hold [mutex]. *)
Definition e_holds (e : option (enq_pc T)) : bool :=
  match e with Some ENotify => true | _ => false end.

Definition w_holds (pc : worker_pc T) : bool :=
  match pc with
  | WLockedStop | WLockedGlobal | WLockedLocal _ | WIncr
  | WPredStop | WPredGlobal | WPredLocal _ | WDecr => true
  | WRun _ _ e => e_holds e
  | _ => false
  end.

Definition d_holds (d : dtor_pc) : bool := match d with DNotify => true | _ => false end.

(** Between [fetch_add] and [fetch_sub]. *)
Definition in_wait (pc : worker_pc T) : bool :=
  match pc with
  | WPredStop | WPredGlobal | WPredLocal _ | WWait | WWoken | WDecr => true
  | _ => false
  end.

(** Since it last found its own deque empty, the worker has not run a task. *)
Definition starved (pc : worker_pc T) : bool :=
  match pc with WPop | WRun _ _ _ => false | _ => true end.

(** The worker will look at the global queue before it blocks. *)
Definition alert (pc : worker_pc T) : bool :=
  match pc with WPredLocal _ | WWait | WExit => false | _ => true end.

(** An enqueuer that has pushed and may still have to notify. *)
Definition e_pending (e : option (enq_pc T)) : bool :=
  match e with Some ELoad | Some ELock | Some ENotify => true | _ => false end.

(** Inside the predicate of [cv.wait] after its load of [stop], or blocked. *)
Definition dozing (pc : worker_pc T) : bool :=
  match pc with WPredGlobal | WPredLocal _ | WWait => true | _ => false end.

Definition d_started (d : dtor_pc) : bool := match d with DNone => false | _ => true end.

(** How many workers the destructor has joined; the rest are still to come. *)
Definition joined (d : dtor_pc) (n : nat) : nat :=
  match d with DJoin k => k | DDone => n | _ => 0 end.

Definition d_notified (d : dtor_pc) : bool :=
  match d with DJoin _ | DDone => true | _ => false end.

Record Inv s : Prop := {
  iv_len : length (deques s) = length (workers s);
  iv_pos : 0 < length (workers s);
  iv_mx_w : ∀ i pc, workers s !! i = Some pc → w_holds pc = true ↔ mutex s = Some (Wk i);
  iv_mx_e : ∀ j e, externs s !! j = Some e → e_holds e = true ↔ mutex s = Some (Ext j);
  iv_mx_d : d_holds (dtor s) = true ↔ mutex s = Some Dtor;
  iv_sleep : sleeping_workers s = Z.of_nat (countb in_wait (workers s));
  iv_own : ∀ i pc, workers s !! i = Some pc → starved pc = true → deques s !! i = Some [];
  iv_stop : stop s = d_started (dtor s);
  iv_exit : ∀ i, workers s !! i = Some WExit → stop s = true;
  iv_wake : stop s = false → tasks_ (global_queue s) ≠ [] →
    (∃ i pc, workers s !! i = Some pc ∧ alert pc = true) ∨
    (∃ j e, externs s !! j = Some e ∧ e_pending e = true);
  iv_doze : d_notified (dtor s) = true →
    ∀ i pc, workers s !! i = Some pc → dozing pc = false;
  iv_join : ∀ i, i < joined (dtor s) (length (workers s)) → workers s !! i = Some WExit;
  iv_ext : d_started (dtor s) = true → Forall (λ e, e = None) (externs s);
  iv_holder : match mutex s with
              | Some (Wk i) => i < length (workers s)
              | Some (Ext j) => j < length (externs s)
              | _ => True
              end;
}.

Definition b2z (b : bool) : Z := if b then 1 else 0.

(** ** The effect of one worker on the invariant *)

Record worker_effect s s' (i : nat) pc pc' : Prop := {
  we_workers : workers s' = <[i:=pc']> (workers s);
  we_externs : externs s' = externs s;
  we_dtor : dtor s' = dtor s;
  we_stop : stop s' = stop s;
  we_len : length (deques s') = length (deques s);
  we_mutex : mutex_move (mutex s) (mutex s') (Wk i) (w_holds pc) (w_holds pc');
  we_sleep : sleeping_workers s' = (sleeping_workers s + b2z (in_wait pc') - b2z (in_wait pc))%Z;
  we_others : ∀ j, j ≠ i → deques s !! j = Some [] → deques s' !! j = Some [];
  we_own : starved pc' = true → deques s' !! i = Some [];
  we_global : tasks_ (global_queue s') ≠ [] → tasks_ (global_queue s) ≠ [];
  we_alert : alert pc = true → alert pc' = false →
    stop s = true ∨ tasks_ (global_queue s') = [];
  we_live : pc ≠ WExit;
  we_exit : pc' = WExit → stop s = true;
  we_doze : dozing pc' = true → dozing pc = true ∨ stop s = false ∨ d_notified (dtor s) = false;
}.

Lemma inv_worker s s' i pc pc' :
  Inv s → workers s !! i = Some pc → worker_effect s s' i pc pc' → Inv s'.
Proof.
  intros [L1 L2 MW ME MD SL OW ST EX WK DZ JN XT HO] Hi
    [Ew Ee Ed Es El Em Esl Eo Eown Eg Ea Elive Eexit Edz].
  pose proof (lookup_lt_Some _ _ _ Hi) as Hlt.
  pose proof (MW _ _ Hi) as MWi.
  assert (∀ k p, workers s' !! k = Some p → (k = i ∧ p = pc') ∨ (k ≠ i ∧ workers s !! k = Some p))
    as Hcase.
  { intros k p. rewrite Ew. destruct (decide (k = i)) as [->|].
    - rewrite list_lookup_insert_eq by done. naive_solver.
    - rewrite list_lookup_insert_ne by done. naive_solver. }
  split; rewrite ?Ew, ?Ee, ?Ed, ?Es, ?length_insert in *.
  - by rewrite El.
  - done.
  - intros k p Hk. apply Hcase in Hk as [[-> ->]|[Hne Hk]].
    + destruct Em as [[-> Hh]|[(?&->&Hh)|(?&->&Hh)]]; rewrite ?Hh; naive_solver.
    + specialize (MW _ _ Hk). destruct Em as [[-> Hh]|[(?&->&Hh)|(?&->&Hh)]]; rewrite ?Hh; naive_solver.
  - intros j e Hj. specialize (ME _ _ Hj).
    destruct Em as [[-> Hh]|[(?&->&Hh)|(?&->&Hh)]]; rewrite ?Hh; naive_solver.
  - destruct Em as [[-> Hh]|[(?&->&Hh)|(?&->&Hh)]]; rewrite ?Hh; naive_solver.
  - rewrite Esl, SL. pose proof (countb_insert in_wait (workers s) i pc pc' Hi) as Hc.
    unfold b2z. destruct (in_wait pc), (in_wait pc'); lia.
  - intros k p Hk Hst. apply Hcase in Hk as [[-> ->]|[Hne Hk]]; eauto.
  - done.
  - intros k Hk. apply Hcase in Hk as [[-> <-]|[Hne Hk]]; eauto.
  - intros Hst Hg. destruct (WK Hst (Eg Hg)) as [(k & p & Hk & Hal)|?]; [|by right].
    left. destruct (decide (k = i)) as [->|Hne].
    + simplify_eq. destruct (alert pc') eqn:Hal'.
      * exists i, pc'. by rewrite list_lookup_insert_eq.
      * destruct (Ea Hal eq_refl); [congruence|done].
    + exists k, p. by rewrite list_lookup_insert_ne.
  - intros Hd k p Hk. apply Hcase in Hk as [[-> ->]|[Hne Hk]]; eauto.
    destruct (dozing pc') eqn:E; [|done]. destruct (Edz eq_refl) as [H|[H|H]].
    + by rewrite (DZ Hd _ _ Hi) in H.
    + rewrite ST in H. by destruct (dtor s).
    + congruence.
  - intros k Hk. specialize (JN _ Hk). destruct (decide (k = i)) as [->|Hne]; [congruence|].
    by rewrite list_lookup_insert_ne.
  - done.
  - destruct Em as [[-> _]|[(_&->&_)|(_&->&_)]]; done.
Qed.

(** ** Every step of a worker has such an effect *)

Lemma begin_steal_effect s i k pc :
  Inv s → workers s !! i = Some pc → starved pc = true → w_holds pc = false →
  in_wait pc = false → alert pc = true → dozing pc = false → pc ≠ WExit →
  worker_effect s (begin_steal i k s) i pc
    (if decide (length (deques s) ≤ 1) then after_steal k else
     WSteal k (victim_order i (start_index
       (xorshift32 (from_option id (rng_seed (Z.of_nat i)) (mjoin (rngs s !! i))))
       (length (deques s))) (length (deques s)))).
Proof.
  intros HI Hi Hst Hh Hw Ha Hd Hx. pose proof (iv_own s HI _ _ Hi Hst) as Hown.
  unfold begin_steal. case_decide.
  - unfold after_steal. destruct k as [|n]; [|case_decide]; split; simpl; rewrite ?Hh, ?Hw, ?Hd; 
      unfold mutex_move; naive_solver lia.
  - split; simpl; rewrite ?Hh, ?Hw, ?Hd; unfold mutex_move; naive_solver lia.
Qed.

(** Local steps of [enqueue] inside a task. *)
Lemma worker_enqueue_inv s s' i w x ys e s1 e' :
  Inv s → workers s !! i = Some (WRun x ys (Some e)) →
  enqueue_step (Wk i) (Some i) e w s = Some (s1, e') → s' = set_worker i (WRun x ys e') s1 →
  Inv s'.
Proof.
  intros HI Hi He ->. destruct e as [y| | |]; simpl in He.
  - pool_cases He. eapply inv_worker; [done..|]. effect.
  - pool_cases He. destruct (0 <? _)%Z; (eapply inv_worker; [done..|effect]).
  - unfold lock in He. pool_cases He. unfold lock in E. destruct (mutex s) eqn:Hm; [done|].
    injection E as <-. eapply inv_worker; [done..|].
    effect.
  - pool_cases He. unfold notify_one in E. destruct (existsb _ _).
    + destruct (workers s !! w) as [[]|] eqn:Hwk; try discriminate E. injection E as <-.
      assert (w ≠ i) by congruence.
      assert (Inv (set_worker w WWoken s)) as HI1.
      { eapply inv_worker; [exact HI|exact Hwk|]. pose proof (iv_own s HI _ _ Hwk eq_refl).
        effect. }
      eapply (inv_worker _ _ i); [exact HI1|simpl; by rewrite list_lookup_insert_ne|].
      effect.
    + injection E as <-. eapply inv_worker; [done..|].
      effect.
Qed.

Lemma lose_race_inv s s' i : Inv s → lose_race i s = Some s' → Inv s'.
Proof.
  intros HI H. unfold lose_race in H. destruct (workers s !! i) as [pc|] eqn:Hi; [|done].
  pose proof (iv_own s HI _ _ Hi) as Hown.
  destruct pc as [| |k [|j js]|x ys e| |spin| | | |k| | | |k| | | |]; try done. injection H as <-.
  specialize (Hown eq_refl). eapply inv_worker; [done..|effect].
Qed.

Lemma misread_inv s s' i : Inv s → misread i s = Some s' → Inv s'.
Proof.
  intros HI H. unfold misread in H. apply bind_Some in H as (pc & Hi & H).
  pose proof (iv_own s HI _ _ Hi) as Hown.
  destruct pc as [| |k js|x ys e| |spin| | | |k| | | |k| | | |]; try done;
    apply bind_Some in H as (q & Hq & H); injection H as <-; specialize (Hown eq_refl);
    destruct q; (eapply inv_worker; [done..|effect]).
Qed.

Lemma wake_inv s i : Inv s → workers s !! i = Some WWait → Inv (set_worker i WWoken s).
Proof.
  intros HI Hi. pose proof (iv_own s HI _ _ Hi eq_refl) as Hown.
  eapply inv_worker; [done..|effect].
Qed.

(** ** External threads *)

(** The common part of an external thread's step: it changes neither the
    workers nor the deques. *)
Lemma inv_extern s s' j e e' :
  Inv s → externs s !! j = Some e → d_started (dtor s) = false →
  workers s' = workers s → deques s' = deques s → stop s' = stop s → dtor s' = dtor s →
  sleeping_workers s' = sleeping_workers s → externs s' = <[j:=e']> (externs s) →
  mutex_move (mutex s) (mutex s') (Ext j) (e_holds e) (e_holds e') →
  (tasks_ (global_queue s') ≠ [] →
     e_pending e' = true ∨
     (∃ i pc, workers s !! i = Some pc ∧ alert pc = true) ∨
     (tasks_ (global_queue s) ≠ [] ∧ e_pending e = false) ∨
     (∃ k p, k ≠ j ∧ externs s !! k = Some p ∧ e_pending p = true)) →
  Inv s'.
Proof.
  intros [L1 L2 MW ME MD SL OW ST EX WK DZ JN XT HO] Hj Hd Ew Edq Es Edt Esl Ee Em Hwk.
  pose proof (lookup_lt_Some _ _ _ Hj) as Hlt. pose proof (ME _ _ Hj) as MEj.
  split; rewrite ?Ew, ?Edq, ?Es, ?Edt, ?Esl, ?Ee; try done.
  - intros i pc Hi. specialize (MW _ _ Hi). destruct Em as [[-> Hh]|[(?&->&Hh)|(?&->&Hh)]]; naive_solver.
  - intros k p Hk. destruct (decide (k = j)) as [->|Hne].
    + rewrite list_lookup_insert_eq in Hk by done. injection Hk as <-.
      destruct Em as [[-> Hh]|[(?&->&Hh)|(?&->&Hh)]]; rewrite ?Hh; naive_solver.
    + rewrite list_lookup_insert_ne in Hk by done. specialize (ME _ _ Hk).
      destruct Em as [[-> Hh]|[(?&->&Hh)|(?&->&Hh)]]; naive_solver.
  - destruct Em as [[-> Hh]|[(?&->&Hh)|(?&->&Hh)]]; naive_solver.
  - intros Hst Hg. destruct (Hwk Hg) as [Hp|[Ha|[[Hg' Hp]|(k & p & Hne & Hk & Hpk)]]]; [|by left| |].
    + right. exists j, e'. by rewrite list_lookup_insert_eq.
    + destruct (WK Hst Hg') as [?|(k & p & Hk & Hpk)]; [by left|]. right.
      exists k, p. rewrite list_lookup_insert_ne; [done|]. congruence.
    + right. exists k, p. by rewrite list_lookup_insert_ne.
  - congruence.
  - rewrite length_insert. destruct Em as [[-> _]|[(_&->&_)|(_&->&_)]]; done.
Qed.

(** With the pool alive and nobody between [fetch_add] and [fetch_sub], every
    worker is alert; there is at least one. *)
Lemma nobody_waits_alert s :
  Inv s → stop s = false → (∀ i pc, workers s !! i = Some pc → in_wait pc = true → alert pc = true) →
  ∃ i pc, workers s !! i = Some pc ∧ alert pc = true.
Proof.
  intros HI Hs Hall. destruct (lookup_lt_is_Some_2 (workers s) 0 (iv_pos s HI)) as [pc Hpc].
  exists 0, pc. split; [done|]. specialize (Hall _ _ Hpc).
  destruct pc; try done; simpl in *; [by apply Hall..|].
  apply (iv_exit s HI) in Hpc. congruence.
Qed.

(** While an external thread holds the mutex no worker is inside the
    predicate, so a worker that is not alert is blocked. *)
Lemma notifier_sees s j i pc :
  Inv s → mutex s = Some (Ext j) → stop s = false →
  workers s !! i = Some pc → alert pc = false → pc = WWait.
Proof.
  intros HI Hm Hs Hi Ha. pose proof (iv_mx_w s HI _ _ Hi) as Hmx.
  destruct pc; try done; simpl in *.
  - destruct Hmx as [Hmx _]. specialize (Hmx eq_refl). congruence.
  - apply (iv_exit s HI) in Hi. congruence.
Qed.

Lemma extern_step_inv s s' j w : Inv s → extern_step j w s = Some s' → Inv s'.
Proof.
  intros HI H. unfold extern_step in H.
  destruct (externs s !! j) as [[e|]|] eqn:Hj; try done.
  apply bind_Some in H as ([s1 e'] & He & H). injection H as <-.
  assert (d_started (dtor s) = false) as Hd.
  { destruct (d_started (dtor s)) eqn:E; [|done].
    pose proof (Forall_lookup_1 _ _ _ _ (iv_ext s HI E) Hj). done. }
  assert (stop s = false) as Hs by (by rewrite (iv_stop s HI)).
  destruct e as [x| | |]; simpl in He.
  - injection He as <- <-. eapply inv_extern; [done..| |]; simpl; unfold mutex_move; naive_solver.
  - injection He as <- <-. destruct (0 <? sleeping_workers s)%Z eqn:Hz; zbool;
      (eapply inv_extern; [done..| |]; simpl; unfold mutex_move; [naive_solver|]).
    + naive_solver.
    + intros _. right; left. apply nobody_waits_alert; [done..|].
      intros i pc Hi Hw. pose proof (countb_pos _ _ _ _ Hi Hw).
      rewrite (iv_sleep s HI) in Hz. lia.
  - apply bind_Some in He as (s2 & Hl & He). injection He as <- <-. unfold lock in Hl.
    destruct (mutex s) eqn:Hm; [done|]. injection Hl as <-.
    eapply inv_extern; [done..| |]; simpl; unfold mutex_move; naive_solver.
  - apply bind_Some in He as (s2 & Hn & He). injection He as <- <-.
    pose proof (proj1 (iv_mx_e s HI _ _ Hj) eq_refl) as Hm. unfold notify_one in Hn.
    destruct (existsb is_waiting (workers s)) eqn:Hex.
    + destruct (workers s !! w) as [[]|] eqn:Hwk; try discriminate Hn. injection Hn as <-.
      eapply (inv_extern (set_worker w WWoken s)); [by apply wake_inv|done..| |];
        simpl; unfold mutex_move; [naive_solver|].
      intros _. right; left. exists w, WWoken. split; [|done].
      apply list_lookup_insert_eq. by eapply lookup_lt_Some.
    + injection Hn as <-. eapply (inv_extern s); [done..| |]; simpl; unfold mutex_move; [naive_solver|].
      intros _. right; left. apply nobody_waits_alert; [done..|]. intros i pc Hi _.
      destruct (alert pc) eqn:Ha; [done|].
      pose proof (notifier_sees s j i pc HI Hm Hs Hi Ha) as ->.
      exfalso. apply not_true_iff_false in Hex. apply Hex, existsb_exists.
      exists WWait. split; [|done]. apply list_elem_of_In. by eapply list_elem_of_lookup_2.
Qed.

Lemma call_enqueue_inv s s' j x : Inv s → call_enqueue j x s = Some s' → Inv s'.
Proof.
  intros HI H. unfold call_enqueue in H. destruct (externs s !! j) as [[e|]|] eqn:Hj; try done.
  destruct (dtor s) eqn:Hd; try done. injection H as <-.
  eapply inv_extern; [done| | |..]; simpl; unfold mutex_move; try done; [by rewrite Hd|naive_solver..].
Qed.

(** ** Conservation of tasks *)

Definition e_hand (e : option (enq_pc T)) : list T :=
  match e with Some (EPush y) => [y] | _ => [] end.

(** The tasks a worker holds: the one it runs, and one it is about to push. *)
Definition w_hand (pc : worker_pc T) : list T :=
  match pc with WRun x _ e => x :: e_hand e | _ => [] end.

(** Queued or executed. *)
Definition settled s : list T :=
  (deques s ≫= id) ++ tasks_ (global_queue s) ++ executed s.

Definition balanced s : Prop :=
  submitted s ≡ₚ settled s ++ (workers s ≫= w_hand) ++ (externs s ≫= e_hand).

Lemma balanced_worker s s' i pc pc' :
  balanced s → workers s !! i = Some pc →
  workers s' = <[i:=pc']> (workers s) → externs s' = externs s →
  settled s ++ w_hand pc ++ submitted s' ≡ₚ settled s' ++ w_hand pc' ++ submitted s →
  balanced s'.
Proof.
  unfold balanced. intros Hb Hi Ew Ee Hs. rewrite Ew, Ee.
  pose proof (bind_insert_perm w_hand _ _ _ pc' Hi) as Hp.
  apply (Permutation_app_inv_l (settled s ++ w_hand pc)). rewrite <- app_assoc, Hs, Hb.
  transitivity (settled s' ++ settled s ++ ((workers s ≫= w_hand) ++ w_hand pc') ++ (externs s ≫= e_hand)).
  { solve_Permutation. }
  rewrite <- Hp. solve_Permutation.
Qed.

Lemma balanced_extern s s' j e e' :
  balanced s → externs s !! j = Some e →
  workers s' = workers s → externs s' = <[j:=e']> (externs s) →
  settled s ++ e_hand e ++ submitted s' ≡ₚ settled s' ++ e_hand e' ++ submitted s →
  balanced s'.
Proof.
  unfold balanced. intros Hb Hj Ew Ee Hs. rewrite Ew, Ee.
  pose proof (bind_insert_perm e_hand _ _ _ e' Hj) as Hp.
  apply (Permutation_app_inv_l (settled s ++ e_hand e)). rewrite <- app_assoc, Hs, Hb.
  transitivity (settled s' ++ settled s ++ (workers s ≫= w_hand) ++ ((externs s ≫= e_hand) ++ e_hand e')).
  { solve_Permutation. }
  rewrite <- Hp. solve_Permutation.
Qed.

(** Taking [x] out of deque [j]. *)
Lemma settled_take (qs : list (list T)) j q q' x :
  qs !! j = Some q → q ≡ₚ x :: q' → (qs ≫= id) ≡ₚ x :: (<[j:=q']> qs ≫= id).
Proof.
  intros Hj Hq. pose proof (bind_insert_perm id _ _ _ q' Hj) as Hp. unfold id in *.
  apply (Permutation_app_inv_r q'). rewrite <- Hp, Hq. solve_Permutation.
Qed.

Lemma balanced_wake s i : balanced s → workers s !! i = Some WWait → balanced (set_worker i WWoken s).
Proof. intros Hb Hi. eapply balanced_worker; [done..|]. unfold settled; simpl. solve_Permutation. Qed.

Lemma notify_one_balanced s s' w : balanced s → notify_one w s = Some s' → balanced s'.
Proof.
  intros Hb Hn. unfold notify_one in Hn. destruct (existsb _ _); [|by injection Hn as <-].
  destruct (workers s !! w) as [[]|] eqn:Hw; try done. injection Hn as <-. by apply balanced_wake.
Qed.

Lemma notify_one_others s s' w i pc :
  notify_one w s = Some s' → workers s !! i = Some pc → pc ≠ WWait → workers s' !! i = Some pc.
Proof.
  intros Hn Hi Hpc. unfold notify_one in Hn. destruct (existsb _ _); [|by injection Hn as <-].
  destruct (workers s !! w) as [[]|] eqn:Hw; try done. injection Hn as <-. simpl.
  rewrite list_lookup_insert_ne; [done|]. congruence.
Qed.

Lemma notify_one_externs s s' w : notify_one w s = Some s' → externs s' = externs s.
Proof.
  intros Hn. unfold notify_one in Hn. destruct (existsb _ _); [|by injection Hn as <-].
  destruct (workers s !! w) as [[]|]; try done. by injection Hn as <-.
Qed.

Lemma worker_enqueue_balanced s i w x ys e s1 e' :
  Inv s → balanced s → workers s !! i = Some (WRun x ys (Some e)) →
  enqueue_step (Wk i) (Some i) e w s = Some (s1, e') → balanced (set_worker i (WRun x ys e') s1).
Proof.
  intros HI Hb Hi He. destruct e as [y| | |]; simpl in He.
  - injection He as <- <-. assert (is_Some (deques s !! i)) as [q Hq].
    { apply lookup_lt_is_Some. rewrite (iv_len s HI). by eapply lookup_lt_Some. }
    eapply balanced_worker; [done|done|done|done|]. unfold settled; simpl.
    rewrite (alter_insert_lookup _ _ _ _ Hq).
    rewrite (settled_take (<[i:=q ++ [y]]> (deques s)) i (q ++ [y]) q y), list_insert_insert_eq,
      list_insert_id by (done || solve_Permutation ||
        (apply list_lookup_insert_eq; by eapply lookup_lt_Some)).
    solve_Permutation.
  - injection He as <- <-. eapply balanced_worker; [done..|]. unfold settled; simpl.
    case_match; simpl; solve_Permutation.
  - apply bind_Some in He as (s2 & Hl & He). injection He as <- <-. unfold lock in Hl.
    destruct (mutex s); [done|]. injection Hl as <-.
    eapply balanced_worker; [done..|]. unfold settled; simpl. solve_Permutation.
  - apply bind_Some in He as (s2 & Hn & He). injection He as <- <-.
    pose proof (notify_one_balanced _ _ _ Hb Hn) as Hb2.
    pose proof (notify_one_others _ _ _ _ _ Hn Hi ltac:(done)) as Hi2.
    eapply (balanced_worker s2); [done..|]. unfold settled; simpl. solve_Permutation.
Qed.

(** ** The destructor *)

Lemma wake_facts pc :
  w_holds (wake pc) = w_holds pc ∧ in_wait (wake pc) = in_wait pc ∧
  starved (wake pc) = starved pc ∧ (wake pc = WExit ↔ pc = WExit) ∧
  (alert pc = true → alert (wake pc) = true) ∧
  (dozing (wake pc) = true → w_holds pc = true).
Proof. by destruct pc. Qed.

Lemma countb_wake (ws : list (worker_pc T)) : countb in_wait (wake <$> ws) = countb in_wait ws.
Proof.
  induction ws as [|pc ws IH]; [done|]. rewrite fmap_cons, !countb_cons, IH.
  by destruct (wake_facts pc) as (_ & -> & _).
Qed.

(** [notify_all] under the destructor's lock: afterwards nobody dozes. *)
Lemma notify_all_inv s :
  Inv s → dtor s = DNotify → Inv (set_dtor (DJoin 0) (unlock (notify_all s))).
Proof.
  intros [L1 L2 MW ME MD SL OW ST EX WK DZ JN XT HO] Hd.
  assert (mutex s = Some Dtor) as Hm by (apply MD; by rewrite Hd).
  split; simpl; rewrite ?length_fmap, ?countb_wake; try done.
  - intros i pc. rewrite list_lookup_fmap. intros (p & Hp & ->)%fmap_Some.
    specialize (MW _ _ Hp). destruct (wake_facts p) as (-> & _). naive_solver.
  - intros j e Hj. specialize (ME _ _ Hj). naive_solver.
  - intros i pc. rewrite list_lookup_fmap. intros (p & Hp & ->)%fmap_Some.
    destruct (wake_facts p) as (_ & _ & -> & _). by apply OW.
  - by rewrite ST, Hd.
  - intros i. rewrite list_lookup_fmap. intros (p & Hp & Hx)%fmap_Some.
    destruct (wake_facts p) as (_ & _ & _ & Hx' & _). symmetry in Hx. apply Hx' in Hx as ->.
    by eapply EX.
  - intros Hs. rewrite ST, Hd in Hs. done.
  - intros _ i pc. rewrite list_lookup_fmap. intros (p & Hp & ->)%fmap_Some.
    destruct (dozing (wake p)) eqn:E; [|done].
    destruct (wake_facts p) as (_ & _ & _ & _ & _ & Hdz). apply Hdz in E.
    apply (MW _ _ Hp) in E. congruence.
  - intros; lia.
  - intros _. apply XT. by rewrite Hd.
Qed.

Lemma dtor_step_inv s s' : Inv s → dtor_step s = Some s' → Inv s'.
Proof.
  intros HI H. unfold dtor_step in H. destruct (dtor s) as [| | |k|] eqn:Hd.
  - destruct (forallb _ _) eqn:Hidle; [|done]. injection H as <-.
    destruct HI as [L1 L2 MW ME MD SL OW ST EX WK DZ JN XT HO]. rewrite Hd in *.
    split; simpl; try done; try (intros; lia).
    intros _. apply Forall_forall. intros e He%list_elem_of_In.
    rewrite forallb_forall in Hidle. specialize (Hidle _ He). by destruct e.
  - apply bind_Some in H as (s1 & Hl & H). injection H as <-. unfold lock in Hl.
    destruct (mutex s) eqn:Hm; [done|]. injection Hl as <-.
    destruct HI as [L1 L2 MW ME MD SL OW ST EX WK DZ JN XT HO]. rewrite Hd in *.
    split; simpl; try done.
    + intros i pc Hi. specialize (MW _ _ Hi). naive_solver.
    + intros j e Hj. specialize (ME _ _ Hj). naive_solver.
  - injection H as <-. by apply notify_all_inv.
  - destruct HI as [L1 L2 MW ME MD SL OW ST EX WK DZ JN XT HO]. rewrite Hd in *.
    destruct (workers s !! k) as [[]|] eqn:Hk; try done; injection H as <-; split; simpl in *; try done.
    + intros i Hi. destruct (decide (i = k)) as [->|]; [done|]. apply JN. lia.
    + intros i Hi. apply JN. apply lookup_ge_None in Hk. lia.
  - done.
Qed.

(** ** Workers *)

Context (body : T → list T).

(** Taking a task from a queue, for a worker outside the sleep protocol. *)
Lemma run_task_effect s s1 i x pc :
  w_holds pc = false → in_wait pc = false → pc ≠ WExit →
  workers s1 = workers s → externs s1 = externs s → dtor s1 = dtor s → stop s1 = stop s →
  mutex s1 = mutex s → sleeping_workers s1 = sleeping_workers s →
  length (deques s1) = length (deques s) →
  (∀ j, deques s !! j = Some [] → deques s1 !! j = Some []) →
  (tasks_ (global_queue s1) ≠ [] → tasks_ (global_queue s) ≠ []) →
  worker_effect s (run_task body i x s1) i pc (WRun x (body x) None).
Proof.
  intros Hh Hw Hx E1 E2 E3 E4 E5 E6 E7 Hd Hg.
  split; simpl; rewrite ?E1, ?Hh, ?Hw; unfold mutex_move; naive_solver lia.
Qed.

Lemma take_global_inv s s' i pc :
  Inv s → workers s !! i = Some pc → w_holds pc = false → in_wait pc = false → pc ≠ WExit →
  take_global body i s = Some s' → Inv s'.
Proof.
  intros HI Hi Hh Hw Hx Ht. unfold take_global, pop_nonblocking in Ht.
  destruct (tasks_ (global_queue s)) as [|x rest] eqn:Hg; [done|]. injection Ht as <-.
  eapply inv_worker; [done..|]. apply run_task_effect; simpl; try done. by rewrite Hg.
Qed.

Lemma insert_nil_stays (qs : list (list T)) i j q q' :
  qs !! i = Some q → q ≠ [] → qs !! j = Some [] → <[i:=q']> qs !! j = Some [].
Proof.
  intros Hi Hq Hj. destruct (decide (i = j)) as [->|]; [congruence|].
  by rewrite list_lookup_insert_ne.
Qed.

(** Worker steps outside the sleep protocol. *)
Lemma worker_seek_inv s s' i w pc :
  Inv s → workers s !! i = Some pc →
  match pc with WPop | WGlobal | WSteal _ _ | WRun _ _ _ | WStop | WSpin _ => true | _ => false end →
  worker_step body i w s = Some s' → Inv s'.
Proof.
  intros HI Hi Hpc Hst. unfold worker_step in Hst. rewrite Hi in Hst. simpl in Hst.
  pose proof (iv_own s HI _ _ Hi) as Hown.
  destruct pc as [| |k js|x ys e| |spin| | | | | | | | | | | |]; try done.
  - apply bind_Some in Hst as (q & Hq & Hst).
    destruct (snoc_case q) as [->|(q' & x & ->)].
    + simpl in Hst. injection Hst as <-. eapply inv_worker; [done..|]. effect.
    + rewrite ref_pop_snoc in Hst. injection Hst as <-. eapply inv_worker; [done..|].
      apply run_task_effect; simpl; try done; [by rewrite length_insert|].
      intros j. eapply insert_nil_stays; [done|]. by destruct q'.
  - destruct (take_global body i s) eqn:Ht.
    + injection Hst as <-. by eapply take_global_inv.
    + injection Hst as <-. eapply inv_worker; [done..|]. by eapply begin_steal_effect.
  - destruct js as [|j js].
    + injection Hst as <-. destruct k as [|n]; simpl; [|case_decide];
        (eapply inv_worker; [done..|]; specialize (Hown eq_refl); effect).
    + apply bind_Some in Hst as (q & Hq & Hst). destruct q as [|x q]; simpl in Hst; injection Hst as <-.
      * eapply inv_worker; [done..|]. specialize (Hown eq_refl). effect.
      * eapply inv_worker; [done..|].
        apply run_task_effect; simpl; try done; [by rewrite length_insert|].
        intros j'. by eapply insert_nil_stays.
  - destruct e as [e|].
    + assert ((enqueue_step (Wk i) (Some i) e w s
                 ≫= λ '(s1, e'), Some (set_worker i (WRun x ys e') s1)) = Some s')
        as Hst' by (by destruct ys).
      apply bind_Some in Hst' as ([s1 e'] & He & Hs). injection Hs as <-.
      by eapply worker_enqueue_inv.
    + destruct ys as [|y ys]; injection Hst as <-; (eapply inv_worker; [done..|effect]).
  - injection Hst as <-. specialize (Hown eq_refl).
    destruct (stop s) eqn:Hs; (eapply inv_worker; [done..|effect]).
  - destruct (take_global body i s) eqn:Ht.
    + injection Hst as <-. by eapply take_global_inv.
    + injection Hst as <-. eapply inv_worker; [done..|]. by eapply begin_steal_effect.
Qed.

(** Worker steps of the sleep protocol. *)
Lemma worker_sleep_inv s s' i w pc :
  Inv s → workers s !! i = Some pc →
  match pc with WPop | WGlobal | WSteal _ _ | WRun _ _ _ | WStop | WSpin _ => false | _ => true end →
  worker_step body i w s = Some s' → Inv s'.
Proof.
  intros HI Hi Hpc Hst. unfold worker_step in Hst. rewrite Hi in Hst. simpl in Hst.
  pose proof (iv_own s HI _ _ Hi) as Hown.
  destruct pc as [| |k js|x ys e| |spin| | | |k| | | |k| | | |]; try done; specialize (Hown eq_refl).
  - apply bind_Some in Hst as (s1 & Hl & Hst). injection Hst as <-. unfold lock in Hl.
    destruct (mutex s) eqn:Hm; [done|]. injection Hl as <-. eapply inv_worker; [done..|effect].
  - injection Hst as <-. destruct (stop s) eqn:Hs; (eapply inv_worker; [done..|effect]).
  - injection Hst as <-. unfold empty_relaxed.
    destruct (tasks_ (global_queue s)) eqn:Hg; (eapply inv_worker; [done..|effect]).
  - injection Hst as <-.
    destruct (deques s !! k) as [[|]|] eqn:Hk; (eapply inv_worker; [done..|effect]).
  - injection Hst as <-. eapply inv_worker; [done..|effect].
  - injection Hst as <-. destruct (stop s) eqn:Hs; (eapply inv_worker; [done..|effect]).
  - injection Hst as <-. unfold empty_relaxed.
    destruct (tasks_ (global_queue s)) eqn:Hg; (eapply inv_worker; [done..|effect]).
  - injection Hst as <-.
    destruct (deques s !! k) as [[|]|] eqn:Hk; (eapply inv_worker; [done..|effect]).
  - apply bind_Some in Hst as (s1 & Hl & Hst). injection Hst as <-. unfold lock in Hl.
    destruct (mutex s) eqn:Hm; [done|]. injection Hl as <-. eapply inv_worker; [done..|effect].
  - injection Hst as <-. eapply inv_worker; [done..|effect].
Qed.

(** ** The invariant holds throughout *)

Lemma inv_init n m : Inv (new_pool n m : pool T).
Proof.
  unfold new_pool. set (n' := if decide (n = 0) then 1 else n).
  assert (0 < n') by (unfold n'; case_decide; lia).
  assert (∀ k, countb in_wait (replicate k (WPop : worker_pc T)) = 0) as Hc.
  { intros k. apply countb_zero, Forall_replicate. done. }
  split; simpl; rewrite ?length_replicate, ?Hc; try done.
  - intros i pc [-> _]%lookup_replicate. done.
  - intros j e [-> _]%lookup_replicate. done.
  - intros i pc [-> _]%lookup_replicate. done.
  - intros i [? _]%lookup_replicate. done.
  - intros; lia.
Qed.

Lemma inv_step s a s' : Inv s → pool_step body s a s' → Inv s'.
Proof.
  intros HI H. unfold pool_step in H. destruct a as [i w|i|i|i|j x|j w|]; simpl in H.
  - destruct (workers s !! i) as [pc|] eqn:Hi.
    + destruct pc; first [ eapply worker_seek_inv; [exact HI|exact Hi|done|exact H]
                         | eapply worker_sleep_inv; [exact HI|exact Hi|done|exact H] ].
    + unfold worker_step in H. by rewrite Hi in H.
  - by eapply lose_race_inv.
  - by eapply misread_inv.
  - destruct (workers s !! i) as [[]|] eqn:Hi; try done. injection H as <-. by apply wake_inv.
  - by eapply call_enqueue_inv.
  - by eapply extern_step_inv.
  - by eapply dtor_step_inv.
Qed.

Lemma inv_runs n m acts s : runs (pool_step body) (new_pool n m) acts s → Inv s.
Proof.
  apply runs_invariant; [apply inv_init|]. intros ???. by eapply inv_step.
Qed.

(** ** Conservation holds throughout *)

Lemma take_global_balanced s s' i pc :
  balanced s → workers s !! i = Some pc → w_hand pc = [] →
  take_global body i s = Some s' → balanced s'.
Proof.
  intros Hb Hi Hh Ht. unfold take_global, pop_nonblocking in Ht.
  destruct (tasks_ (global_queue s)) as [|x rest] eqn:Hg; [done|]. injection Ht as <-.
  eapply balanced_worker; [done..|]. unfold settled; simpl. rewrite Hh, Hg. solve_Permutation.
Qed.

Lemma begin_steal_balanced s i k pc :
  balanced s → workers s !! i = Some pc → w_hand pc = [] → balanced (begin_steal i k s).
Proof.
  intros Hb Hi Hh. unfold begin_steal, after_steal.
  case_decide; [destruct k; [|case_decide]|];
    (eapply balanced_worker; [done..|]; unfold settled; simpl; rewrite Hh; solve_Permutation).
Qed.

Lemma set_worker_balanced s s1 i pc pc' :
  balanced s → workers s !! i = Some pc → w_hand pc = [] → w_hand pc' = [] →
  workers s1 = workers s → externs s1 = externs s → deques s1 = deques s →
  global_queue s1 = global_queue s → executed s1 = executed s → submitted s1 = submitted s →
  balanced (set_worker i pc' s1).
Proof.
  intros Hb Hi Hh Hh' E1 E2 E3 E4 E5 E6.
  eapply balanced_worker; [exact Hb|exact Hi|simpl; by rewrite E1|done|].
  unfold settled; simpl. rewrite Hh, Hh', E3, E4, E5, E6. solve_Permutation.
Qed.

Lemma worker_step_balanced s s' i w :
  Inv s → balanced s → worker_step body i w s = Some s' → balanced s'.
Proof.
  intros HI Hb Hst. unfold worker_step in Hst. apply bind_Some in Hst as (pc & Hi & Hst).
  destruct pc as [| |k js|x ys e| |spin| | | |k| | | |k| | | |].
  - apply bind_Some in Hst as (q & Hq & Hst). destruct (snoc_case q) as [->|(q' & x & ->)].
    + injection Hst as <-. by eapply set_worker_balanced.
    + rewrite ref_pop_snoc in Hst. injection Hst as <-. eapply balanced_worker; [done..|].
      unfold settled; simpl. rewrite (settled_take _ _ _ q' x Hq) by solve_Permutation.
      solve_Permutation.
  - destruct (take_global body i s) eqn:Ht; injection Hst as <-;
      [by eapply take_global_balanced|by eapply begin_steal_balanced].
  - destruct js as [|j js].
    + injection Hst as <-. unfold after_steal.
      destruct k; [|case_decide]; by eapply set_worker_balanced.
    + apply bind_Some in Hst as (q & Hq & Hst). destruct q as [|x q]; injection Hst as <-.
      * by eapply set_worker_balanced.
      * eapply balanced_worker; [done..|]. unfold settled; simpl.
        rewrite (settled_take _ _ _ q x Hq) by done. solve_Permutation.
  - destruct e as [e|].
    + assert ((enqueue_step (Wk i) (Some i) e w s
                 ≫= λ '(s1, e'), Some (set_worker i (WRun x ys e') s1)) = Some s')
        as Hst' by (by destruct ys).
      apply bind_Some in Hst' as ([s1 e'] & He & Hs). injection Hs as <-.
      by eapply worker_enqueue_balanced.
    + destruct ys as [|y ys]; injection Hst as <-;
        (eapply balanced_worker; [done..|]; unfold settled; simpl; solve_Permutation).
  - injection Hst as <-. case_match; by eapply set_worker_balanced.
  - destruct (take_global body i s) eqn:Ht; injection Hst as <-;
      [by eapply take_global_balanced|by eapply begin_steal_balanced].
  - apply bind_Some in Hst as (s1 & Hl & Hst). injection Hst as <-. unfold lock in Hl.
    destruct (mutex s); [done|]. injection Hl as <-. by eapply set_worker_balanced.
  - injection Hst as <-. case_match; by eapply set_worker_balanced.
  - injection Hst as <-. case_match; by eapply set_worker_balanced.
  - injection Hst as <-. destruct (deques s !! k) as [[]|]; by eapply set_worker_balanced.
  - injection Hst as <-. by eapply set_worker_balanced.
  - injection Hst as <-. case_match; by eapply set_worker_balanced.
  - injection Hst as <-. case_match; by eapply set_worker_balanced.
  - injection Hst as <-. destruct (deques s !! k) as [[]|]; by eapply set_worker_balanced.
  - done.
  - apply bind_Some in Hst as (s1 & Hl & Hst). injection Hst as <-. unfold lock in Hl.
    destruct (mutex s); [done|]. injection Hl as <-. by eapply set_worker_balanced.
  - injection Hst as <-. by eapply set_worker_balanced.
  - done.
Qed.

Lemma extern_step_balanced s s' j w :
  balanced s → extern_step j w s = Some s' → balanced s'.
Proof.
  intros Hb H. unfold extern_step in H. destruct (externs s !! j) as [[e|]|] eqn:Hj; try done.
  apply bind_Some in H as ([s1 e'] & He & H). injection H as <-.
  destruct e as [x| | |]; simpl in He.
  - injection He as <- <-. eapply balanced_extern; [done..|]. unfold settled; simpl. solve_Permutation.
  - injection He as <- <-. eapply balanced_extern; [done..|]. unfold settled; simpl.
    case_match; simpl; solve_Permutation.
  - apply bind_Some in He as (s2 & Hl & He). injection He as <- <-. unfold lock in Hl.
    destruct (mutex s); [done|]. injection Hl as <-.
    eapply balanced_extern; [done..|]. unfold settled; simpl. solve_Permutation.
  - apply bind_Some in He as (s2 & Hn & He). injection He as <- <-.
    eapply (balanced_extern s2); [by eapply notify_one_balanced| |done|done|].
    + by rewrite (notify_one_externs _ _ _ Hn).
    + unfold settled; simpl. solve_Permutation.
Qed.

Lemma dtor_step_balanced s s' : balanced s → dtor_step s = Some s' → balanced s'.
Proof.
  intros Hb H. unfold dtor_step in H. destruct (dtor s) as [| | |k|].
  - destruct (forallb _ _); [|done]. by injection H as <-.
  - unfold lock in H. destruct (mutex s); [done|]. by injection H as <-.
  - injection H as <-. unfold balanced, settled in *; simpl. rewrite Hb. do 2 f_equiv. apply reflexive_eq. clear Hb.
    induction (workers s) as [|pc ws IH]; [done|]. simpl. f_equal; [by destruct pc|exact IH].
  - destruct (workers s !! k) as [[]|]; try done; by injection H as <-.
  - done.
Qed.

Lemma balanced_step s a s' : Inv s → balanced s → pool_step body s a s' → balanced s'.
Proof.
  intros HI Hb H. unfold pool_step in H. destruct a as [i w|i|i|i|j x|j w|]; simpl in H.
  - by eapply worker_step_balanced.
  - unfold lose_race in H. destruct (workers s !! i) as [pc|] eqn:Hi; [|done].
    destruct pc as [| |k [|j js]|x ys e| |spin| | | |k| | | |k| | | |]; try done.
    injection H as <-. by eapply set_worker_balanced.
  - unfold misread in H. apply bind_Some in H as (pc & Hi & H).
    destruct pc; try done; apply bind_Some in H as (q & Hq & H); injection H as <-;
      destruct q; by eapply set_worker_balanced.
  - destruct (workers s !! i) as [[]|] eqn:Hi; try done. injection H as <-. by apply balanced_wake.
  - unfold call_enqueue in H. destruct (externs s !! j) as [[e|]|] eqn:Hj; try done.
    destruct (dtor s); try done. injection H as <-.
    eapply balanced_extern; [done..|]. unfold settled; simpl. solve_Permutation.
  - by eapply extern_step_balanced.
  - by eapply dtor_step_balanced.
Qed.

Lemma balanced_runs n m acts s : runs (pool_step body) (new_pool n m) acts s → Inv s ∧ balanced s.
Proof.
  apply (runs_invariant _ (λ s, Inv s ∧ balanced s)).
  - split; [apply inv_init|]. unfold balanced, settled, new_pool; simpl.
    set (n' := if decide (n = 0) then 1 else n).
    assert (∀ k, replicate k ([] : list T) ≫= id = []) as -> by (by induction k).
    assert (∀ k, replicate k (WPop : worker_pc T) ≫= w_hand = []) as -> by (by induction k).
    assert (∀ k, replicate k (None : option (enq_pc T)) ≫= e_hand = []) as -> by (by induction k).
    done.
  - intros a l b [??] ?. split; [by eapply inv_step|by eapply balanced_step].
Qed.

End invariants.
