(* ===== verification/ThreadPoolTheorems.v ===== *)
(** * What the thread pool guarantees

    The properties of [thread_pool] stated over every reachable state of the
    model in ThreadPool.v, from the invariants of ThreadPoolProof.v: tasks are
    conserved and run at most once, the mutex excludes, the pool never blocks
    with work queued, and what the destructor leaves behind. *)

From S2P Require Import Prelude MachineInt DequeSpec GlobalQueue Victims ThreadPool ThreadPoolProof.
From stdpp Require Import options.

(** ** Progress *)

Section progress.
Context {T : Type} (body : T → list T).
Implicit Types (s : pool T) (pc : worker_pc T).

(** The targets of a stealing loop are deques of the pool. *)
Definition targets_ok s : Prop :=
  ∀ i k js, workers s !! i = Some (WSteal k js) → Forall (λ j, j < length (deques s)) js.

Definition not_steal pc : Prop := match pc with WSteal _ _ => False | _ => True end.

Lemma targets_update s s' i pc' :
  targets_ok s → (workers s' = <[i:=pc']> (workers s)) → length (deques s') = length (deques s) →
  match pc' with WSteal _ js => Forall (λ j, j < length (deques s)) js | _ => True end →
  targets_ok s'.
Proof.
  intros Ht Ew El Hpc k c js Hk. rewrite El. rewrite Ew in Hk.
  destruct (decide (k = i)) as [->|Hne].
  - destruct (decide (i < length (workers s))).
    + rewrite list_lookup_insert_eq in Hk by done. injection Hk as ->. done.
    + rewrite list_insert_ge in Hk by lia. by eapply Ht.
  - rewrite list_lookup_insert_ne in Hk by done. by eapply Ht.
Qed.

Lemma targets_begin s i k : targets_ok s → targets_ok (begin_steal i k s).
Proof.
  intros Ht. unfold begin_steal. case_decide.
  - eapply targets_update; [done..|]. unfold after_steal. destruct k; [done|]. by case_decide.
  - eapply targets_update; [done|done|done|]. apply victim_order_range.
Qed.

Lemma targets_notify s s' w : targets_ok s → notify_one w s = Some s' → targets_ok s'.
Proof.
  intros Ht Hn. unfold notify_one in Hn. destruct (existsb _ _); [|by injection Hn as <-].
  destruct (workers s !! w) as [[]|]; try done. injection Hn as <-. by eapply targets_update.
Qed.

Lemma targets_enqueue s s1 me own e w e' :
  targets_ok s → enqueue_step me own e w s = Some (s1, e') → targets_ok s1.
Proof.
  intros Ht He. destruct e; simpl in He.
  - destruct own; injection He as <- <-; [|done].
    intros k c js Hk. simpl. rewrite length_alter. by eapply Ht.
  - by injection He as <- <-.
  - apply bind_Some in He as (s2 & Hl & He). injection He as <- <-. unfold lock in Hl.
    destruct (mutex s); [done|]. by injection Hl as <-.
  - apply bind_Some in He as (s2 & Hn & He). injection He as <- <-.
    exact (targets_notify _ _ _ Ht Hn).
Qed.

Lemma targets_worker s s' i w : targets_ok s → worker_step body i w s = Some s' → targets_ok s'.
Proof.
  intros Ht Hst. unfold worker_step in Hst. apply bind_Some in Hst as (pc & Hi & Hst).
  assert (∀ x, targets_ok x → ∀ i pc', not_steal pc' → targets_ok (set_worker i pc' x)) as Hset.
  { intros x Hx j pc' Hn. eapply targets_update; [done..|]. by destruct pc'. }
  assert (∀ q j, targets_ok (set_deques (<[j:=q]> (deques s)) s)) as Hdq.
  { intros q j k c js Hk. simpl. rewrite length_insert. by eapply Ht. }
  assert (∀ s', take_global body i s = Some s' → targets_ok s') as Htg.
  { intros u Hu. unfold take_global in Hu. destruct (pop_nonblocking _) as [[x|] g]; [|done].
    injection Hu as <-. by apply (Hset (set_global g s)). }
  destruct pc as [| |k js|x ys e| |spin| | | |k| | | |k| | | |];
    try (injection Hst as <-; repeat case_match; by apply Hset).
  - apply bind_Some in Hst as (q & Hq & Hst).
    destruct (ref_pop q) as [[x|] q']; injection Hst as <-; [apply Hset; done|by apply Hset].
  - destruct (take_global body i s) eqn:E; injection Hst as <-; [by apply Htg|by apply targets_begin].
  - destruct js as [|j js].
    + injection Hst as <-. apply Hset; [done|]. unfold after_steal. destruct k; [done|]. by case_decide.
    + apply bind_Some in Hst as (q & Hq & Hst). destruct (ref_steal q) as [[x|] q']; injection Hst as <-.
      * apply Hset; done.
      * eapply targets_update; [done..|]. by eapply Forall_cons_1, (Ht i k (j :: js)).
  - destruct e as [e|].
    + assert ((enqueue_step (Wk i) (Some i) e w s
                 ≫= λ '(s1, e'), Some (set_worker i (WRun x ys e') s1)) = Some s')
        as Hst' by (by destruct ys).
      apply bind_Some in Hst' as ([s1 e'] & He & Hs). injection Hs as <-.
      apply Hset; [by eapply targets_enqueue|done].
    + destruct ys; injection Hst as <-; by apply (Hset (log_exec x s)) || by apply (Hset (log_submit t s)).
  - destruct (take_global body i s) eqn:E; injection Hst as <-; [by apply Htg|by apply targets_begin].
  - apply bind_Some in Hst as (s1 & Hl & Hst). injection Hst as <-. unfold lock in Hl.
    destruct (mutex s); [done|]. injection Hl as <-. by apply (Hset (set_mutex _ s)).
  - done.
  - apply bind_Some in Hst as (s1 & Hl & Hst). injection Hst as <-. unfold lock in Hl.
    destruct (mutex s); [done|]. injection Hl as <-. by apply (Hset (set_mutex _ s)).
  - done.
Qed.

Lemma targets_step s a s' : targets_ok s → pool_step body s a s' → targets_ok s'.
Proof.
  intros Ht H. unfold pool_step in H. destruct a as [i w|i|i|i|j x|j w|]; simpl in H.
  - by eapply targets_worker.
  - unfold lose_race in H. destruct (workers s !! i) as [pc|] eqn:Hi; [|done].
    destruct pc as [| |k [|j js]|x ys e| |spin| | | |k| | | |k| | | |]; try done. injection H as <-.
    eapply targets_update; [done..|]. by eapply Forall_cons_1, (Ht i k (j :: js)).
  - unfold misread in H. apply bind_Some in H as (pc & Hi & H).
    destruct pc; try done; apply bind_Some in H as (q & Hq & H); injection H as <-;
      destruct q; by eapply targets_update.
  - destruct (workers s !! i) as [[]|]; try done. injection H as <-. by eapply targets_update.
  - unfold call_enqueue in H. destruct (externs s !! j) as [[]|]; try done.
    destruct (dtor s); try done. by injection H as <-.
  - unfold extern_step in H. destruct (externs s !! j) as [[e|]|]; try done.
    apply bind_Some in H as ([s1 e'] & He & H). injection H as <-.
    pose proof (targets_enqueue _ _ _ _ _ _ _ Ht He) as Ht1. exact Ht1.
  - unfold dtor_step in H. destruct (dtor s).
    + destruct (forallb _ _); [|done]. by injection H as <-.
    + unfold lock in H. destruct (mutex s); [done|]. by injection H as <-.
    + injection H as <-. intros i k js. simpl. rewrite list_lookup_fmap.
      intros (pc & Hpc & Hw)%fmap_Some. destruct pc; try done. injection Hw as <- <-. by eapply Ht.
    + destruct (workers s !! k) as [[]|]; try done; by injection H as <-.
    + done.
Qed.

Lemma targets_runs n m acts s : runs (pool_step body) (new_pool n m) acts s → targets_ok s.
Proof.
  apply runs_invariant.
  - intros i k js. unfold new_pool; simpl. by intros [? _]%lookup_replicate.
  - intros ???. by apply targets_step.
Qed.

(** Program counters that wait for [mutex]. *)
Definition needs_lock pc : bool :=
  match pc with WLock | WWoken | WRun _ _ (Some ELock) => true | _ => false end.

Lemma notify_one_total s : ∃ w s', notify_one w s = Some s'.
Proof.
  unfold notify_one. destruct (existsb is_waiting (workers s)) eqn:E; [|by exists 0, s].
  apply existsb_exists in E as (pc & Hin & Hw). apply list_elem_of_In in Hin.
  apply list_elem_of_lookup in Hin as (w & Hlk). destruct pc; try done.
  exists w. rewrite Hlk. by eexists.
Qed.

Lemma worker_can_step s i pc :
  length (deques s) = length (workers s) →
  (∀ k js, pc = WSteal k js → Forall (λ j, j < length (deques s)) js) →
  workers s !! i = Some pc → pc ≠ WWait → pc ≠ WExit →
  (needs_lock pc = true → mutex s = None) → ∃ w s', worker_step body i w s = Some s'.
Proof.
  intros Hlen Ht Hi Hw Hx Hm. unfold worker_step. rewrite Hi; simpl.
  assert (∃ q, deques s !! i = Some q) as [q Hq].
  { apply lookup_lt_is_Some. rewrite Hlen. by eapply lookup_lt_Some. }
  destruct pc as [| |k js|x ys e| |spin| | | |k| | | |k| | | |]; simpl in *; try done;
    try (exists 0; by eexists).
  - exists 0. rewrite Hq; simpl. destruct (ref_pop q) as [[]?]; by eexists.
  - exists 0. destruct (take_global _ _ _); by eexists.
  - exists 0. destruct js as [|j js]; [by eexists|].
    specialize (Ht _ _ eq_refl). apply Forall_cons in Ht as [Hj _].
    destruct (lookup_lt_is_Some_2 _ _ Hj) as [q' ->]. simpl. destruct (ref_steal q') as [[]?]; by eexists.
  - destruct e as [[y| | |]|]; simpl.
    1,2: exists 0; destruct ys; by eexists.
    + exists 0. unfold lock. rewrite Hm by done. destruct ys; by eexists.
    + destruct (notify_one_total s) as (w & s' & Hn). exists w. rewrite Hn. destruct ys; by eexists.
    + exists 0. destruct ys; by eexists.
  - exists 0. destruct (take_global _ _ _); by eexists.
  - exists 0. unfold lock. rewrite Hm by done. by eexists.
  - exists 0. unfold lock. rewrite Hm by done. by eexists.
Qed.

(** Moves of the pool's own threads: no new call, no spurious wakeup. *)
Definition internal (a : action T) : bool :=
  match a with AWorker _ _ | AExtern _ _ | ADtor => true | _ => false end.

Definition can_move s : Prop := ∃ a s', internal a = true ∧ pool_step body s a s'.

(** Whoever holds the mutex can move. *)
Lemma holder_moves s t : Inv s → targets_ok s → mutex s = Some t → can_move s.
Proof.
  intros HI Ht Hm. pose proof (iv_holder s HI) as Hh. rewrite Hm in Hh.
  destruct t as [i|j|].
  - destruct (lookup_lt_is_Some_2 _ _ Hh) as [pc Hi].
    pose proof (proj2 (iv_mx_w s HI _ _ Hi) Hm) as Hold.
    destruct (worker_can_step s i pc (iv_len s HI)) as (w & s' & Hst); [by intros k js ->; apply (Ht i k)|done|by intros ->..| |].
    + destruct pc; try done. by destruct e as [[]|].
    + by exists (AWorker i w), s'.
  - destruct (lookup_lt_is_Some_2 _ _ Hh) as [e Hj].
    pose proof (proj2 (iv_mx_e s HI _ _ Hj) Hm) as Hold. destruct e as [[]|]; try done.
    destruct (notify_one_total s) as (w & s' & Hn). exists (AExtern j w).
    unfold pool_step; simpl. unfold extern_step. rewrite Hj; simpl. rewrite Hn; simpl. by eexists.
  - pose proof (proj2 (iv_mx_d s HI) Hm) as Hold. destruct (dtor s) eqn:Hd; try done.
    exists ADtor. unfold pool_step; simpl. unfold dtor_step. rewrite Hd. by eexists.
Qed.

Lemma awake_moves s i pc :
  Inv s → targets_ok s → workers s !! i = Some pc → pc ≠ WWait → pc ≠ WExit → can_move s.
Proof.
  intros HI Ht Hi Hw Hx. destruct (mutex s) as [t|] eqn:Hm; [by eapply holder_moves|].
  destruct (worker_can_step s i pc (iv_len s HI)) as (w & s' & Hst);
    [by intros k js ->; apply (Ht i k)|done..|].
  by exists (AWorker i w), s'.
Qed.

Lemma pending_extern_moves s j e :
  Inv s → targets_ok s → externs s !! j = Some (Some e) → can_move s.
Proof.
  intros HI Ht Hj. destruct (mutex s) as [t|] eqn:Hm; [by eapply holder_moves|].
  destruct (notify_one_total s) as (w & s' & Hn). exists (AExtern j w).
  unfold pool_step; simpl. unfold extern_step. rewrite Hj; simpl.
  destruct e; simpl; unfold lock; rewrite ?Hm; simpl; [by eexists..|].
  rewrite Hn; simpl. by eexists.
Qed.

Lemma stopping_moves s i pc :
  Inv s → targets_ok s → stop s = true → workers s !! i = Some pc → pc ≠ WExit → can_move s.
Proof.
  intros HI Ht Hs Hi Hx. destruct (mutex s) as [t|] eqn:Hm; [by eapply holder_moves|].
  rewrite (iv_stop s HI) in Hs. destruct (dtor s) as [| | |k|] eqn:Hd; try done.
  - exists ADtor. unfold pool_step; simpl. unfold dtor_step, lock. rewrite Hd, Hm. by eexists.
  - exists ADtor. unfold pool_step; simpl. unfold dtor_step. rewrite Hd. by eexists.
  - pose proof (iv_doze s HI) as Hz. rewrite Hd in Hz. specialize (Hz eq_refl _ _ Hi).
    eapply awake_moves; [done..|by intros ->|done].
  - pose proof (iv_join s HI i) as Hj. rewrite Hd in Hj. simpl in Hj.
    specialize (Hj (lookup_lt_Some _ _ _ Hi)). congruence.
Qed.

Definition queued s : Prop :=
  tasks_ (global_queue s) ≠ [] ∨ ∃ i q, deques s !! i = Some q ∧ q ≠ [].

Lemma queued_awake s :
  Inv s → stop s = false → queued s →
  (∃ i pc, workers s !! i = Some pc ∧ pc ≠ WWait ∧ pc ≠ WExit) ∨
  (∃ j e, externs s !! j = Some (Some e)).
Proof.
  intros HI Hs [Hg|(i & q & Hq & Hne)].
  - destruct (iv_wake s HI Hs Hg) as [(i & pc & Hi & Ha)|(j & e & Hj & He)].
    + left. exists i, pc. split; [done|]. by destruct pc.
    + right. destruct e as [e|]; [|done]. by exists j, e.
  - left. assert (∃ pc, workers s !! i = Some pc) as [pc Hi].
    { apply lookup_lt_is_Some. rewrite <- (iv_len s HI). by eapply lookup_lt_Some. }
    exists i, pc. split; [done|]. pose proof (iv_own s HI _ _ Hi) as Hown.
    destruct pc; try done; specialize (Hown eq_refl); congruence.
Qed.

End progress.

(** ** Properties *)

Section properties.
Context {T : Type} (body : T → list T).
Implicit Types (s : pool T).

(** (C7) Tasks are conserved.  In every reachable state the tasks passed to
    [enqueue] are, as a multiset, those in the worker deques, those in the
    global queue, those that ran to completion, and those in the hands of a
    thread (being pushed, or running).  Hence no task is lost, duplicated or
    run twice, whatever the interleaving. *)
Theorem pool_conserves_tasks n m acts s :
  runs (pool_step body) (new_pool n m) acts s →
  submitted s ≡ₚ (deques s ≫= id) ++ tasks_ (global_queue s) ++ executed s ++
    (workers s ≫= w_hand) ++ (externs s ≫= e_hand).
Proof.
  intros [_ Hb]%balanced_runs. unfold balanced, settled in Hb. by rewrite <- !app_assoc in Hb.
Qed.

(** When every worker is blocked and nobody enqueues, nothing is queued, and everything
    has been executed. *)
Lemma asleep_means_empty s :
  Inv s → stop s = false →
  Forall (λ pc, pc = WWait) (workers s) → Forall (λ e, e = None) (externs s) →
  tasks_ (global_queue s) = [] ∧ Forall (λ q, q = []) (deques s).
Proof.
  intros HI Hs Hw He.
  assert (¬ queued s) as Hnq.
  { intros Hq. destruct (queued_awake s HI Hs Hq) as [(i & pc & Hi & Hp & _)|(j & e & Hj)].
    - by apply Hp, (Forall_lookup_1 _ _ _ _ Hw Hi).
    - by pose proof (Forall_lookup_1 _ _ _ _ He Hj). }
  split.
  - destruct (tasks_ (global_queue s)) eqn:E; [done|]. exfalso. apply Hnq. left. by rewrite E.
  - apply Forall_lookup. intros i q Hq. destruct q; [done|]. exfalso. apply Hnq. right. eauto.
Qed.

Lemma asleep_means_done s :
  Inv s → balanced s → stop s = false →
  Forall (λ pc, pc = WWait) (workers s) → Forall (λ e, e = None) (externs s) →
  executed s ≡ₚ submitted s.
Proof.
  intros HI Hb Hs Hw He. destruct (asleep_means_empty s HI Hs Hw He) as [Hg Hd].
  unfold balanced, settled in Hb.
  rewrite !bind_nil in Hb; [|eapply Forall_impl; [eassumption|]; by intros ? ->..].
  rewrite Hg, !app_nil_r in Hb. simpl in Hb. by symmetry.
Qed.

Lemma live_pool_moves s :
  Inv s → targets_ok s →
  (stop s = false ∧ queued s) ∨
  (stop s = true ∧ ∃ i pc, workers s !! i = Some pc ∧ pc ≠ WExit) →
  can_move body s.
Proof.
  intros HI Ht [[Hs Hq]|(Hs & i & pc & Hi & Hx)].
  - destruct (queued_awake s HI Hs Hq) as [(i & pc & Hi & Hw & Hx)|(j & e & Hj)].
    + by eapply awake_moves.
    + by eapply pending_extern_moves.
  - by eapply stopping_moves.
Qed.

(** (C8) No lost wakeup.  While the pool is alive, if every worker is blocked in
    [cv.wait] and no external thread is inside [enqueue], then no task is
    queued anywhere: neither in the global queue nor in any worker's deque. *)
Theorem pool_no_lost_wakeup n m acts s :
  runs (pool_step body) (new_pool n m) acts s → stop s = false →
  Forall (λ pc, pc = WWait) (workers s) → Forall (λ e, e = None) (externs s) →
  tasks_ (global_queue s) = [] ∧ Forall (λ q, q = []) (deques s).
Proof. intros HI%inv_runs. by apply asleep_means_empty. Qed.

(** (C9) The pool does not deadlock.  Whenever a task is queued, or the
    destructor has begun and some worker has not left its loop, some worker, some
    thread inside [enqueue] or the destructor can make its next access (without
    relying on spurious wakeups or on further calls). *)
Theorem pool_deadlock_free n m acts s :
  runs (pool_step body) (new_pool n m) acts s →
  (stop s = false ∧ queued s) ∨
  (stop s = true ∧ ∃ i pc, workers s !! i = Some pc ∧ pc ≠ WExit) →
  can_move body s.
Proof.
  intros Hr. apply live_pool_moves; [by eapply inv_runs|by eapply targets_runs].
Qed.

(** The thread is inside a section protected by [mutex]. *)
Definition in_section s (t : tid) : Prop :=
  match t with
  | Wk i => ∃ pc, workers s !! i = Some pc ∧ w_holds pc = true
  | Ext j => ∃ e, externs s !! j = Some e ∧ e_holds e = true
  | Dtor => d_holds (dtor s) = true
  end.

Lemma section_mutex s t : Inv s → in_section s t ↔ mutex s = Some t.
Proof.
  intros HI. destruct t as [i|j|]; simpl.
  - split.
    + intros (pc & Hi & Hh). by apply (iv_mx_w s HI _ _ Hi).
    + intros Hm. pose proof (iv_holder s HI) as Hl. rewrite Hm in Hl.
      destruct (lookup_lt_is_Some_2 _ _ Hl) as [pc Hi]. exists pc. split; [done|].
      by apply (iv_mx_w s HI _ _ Hi).
  - split.
    + intros (e & Hj & Hh). by apply (iv_mx_e s HI _ _ Hj).
    + intros Hm. pose proof (iv_holder s HI) as Hl. rewrite Hm in Hl.
      destruct (lookup_lt_is_Some_2 _ _ Hl) as [e Hj]. exists e. split; [done|].
      by apply (iv_mx_e s HI _ _ Hj).
  - apply (iv_mx_d s HI).
Qed.

(** (C10) Mutual exclusion and the sleep counter.  At most one thread, among the
    workers, the threads that call [enqueue] and the one that runs the destructor,
    is inside a section protected by [mutex], and it is the holder of the mutex;
    [sleeping_workers] counts exactly the workers between [fetch_add] and
    [fetch_sub], and so lies between 0 and the number of workers. *)
Theorem pool_sleep_counter n m acts s :
  runs (pool_step body) (new_pool n m) acts s →
  sleeping_workers s = Z.of_nat (countb in_wait (workers s)) ∧
  (0 ≤ sleeping_workers s ≤ Z.of_nat (length (workers s)))%Z ∧
  (∀ t, in_section s t ↔ mutex s = Some t) ∧
  (∀ t t', in_section s t → in_section s t' → t = t').
Proof.
  intros HI%inv_runs. pose proof (iv_sleep s HI) as Hsl.
  pose proof (countb_le in_wait (workers s)). split_and!; [done|lia|lia| |].
  - intros t. by apply section_mutex.
  - intros t t' H1%section_mutex H2%section_mutex; [congruence|done..].
Qed.

(** A destructor that is done has joined every worker. *)
Lemma all_exited n m acts s :
  runs (pool_step body) (new_pool n m) acts s → dtor s = DDone →
  Forall (λ pc, pc = WExit) (workers s).
Proof.
  intros HI%inv_runs Hd. pose proof (iv_join s HI) as Hj. rewrite Hd in Hj. simpl in Hj.
  apply Forall_lookup. intros i pc Hi. specialize (Hj i (lookup_lt_Some _ _ _ Hi)). congruence.
Qed.

(** (C11) What destruction leaves.  When the destructor has joined its threads,
    every worker has left its loop and every worker deque is empty; the only
    tasks that did not run are those still in the global queue. *)
Theorem pool_after_destructor n m acts s :
  runs (pool_step body) (new_pool n m) acts s → dtor s = DDone →
  Forall (λ pc, pc = WExit) (workers s) ∧ Forall (λ q, q = []) (deques s) ∧
  submitted s ≡ₚ tasks_ (global_queue s) ++ executed s.
Proof.
  intros Hr Hd. pose proof (all_exited n m acts s Hr Hd) as Hw.
  destruct (balanced_runs _ _ _ _ _ Hr) as [HI Hb].
  assert (Forall (λ q, q = []) (deques s)) as Hq.
  { apply Forall_lookup. intros i q Hq. assert (workers s !! i = Some WExit) as Hi.
    { destruct (lookup_lt_is_Some_2 (workers s) i) as [pc Hpc].
      { rewrite <- (iv_len s HI). by eapply lookup_lt_Some. }
      rewrite Hpc. f_equal. by eapply Forall_lookup_1 in Hw. }
    pose proof (iv_own s HI _ _ Hi eq_refl). congruence. }
  split_and!; [done..|]. unfold balanced, settled in Hb. rewrite Hb.
  assert (Forall (λ e, e = None) (externs s)) as He by (apply (iv_ext s HI); by rewrite Hd).
  rewrite !bind_nil; [by rewrite !app_nil_r|..];
    (eapply Forall_impl; [eassumption|]; by intros ? ->).
Qed.

End properties.

(** ** Concrete executions *)

(** Task 0 enqueues tasks 1 and 2; the others enqueue nothing. *)
Definition demo_body (x : nat) : list nat := if decide (x = 0) then [1; 2] else [].

Definition play (n m : nat) (acts : list (action nat)) : option (pool nat) :=
  exec (pool_act demo_body) acts (new_pool n m).

Lemma play_runs n m acts s :
  play n m acts = Some s → runs (pool_step demo_body) (new_pool n m) acts s.
Proof. by apply exec_runs. Qed.

(** A worker that finds nothing to do goes to sleep after 45 accesses; an
    external thread pushes a task and is about to take the mutex. *)
Definition sleepy_acts : list (action nat) := replicate 45 (AWorker 0 0).
Definition wakeup_acts : list (action nat) :=
  sleepy_acts ++ [ACall 0 7; AExtern 0 0; AExtern 0 0].

Definition sleepy : pool nat := Eval vm_compute in from_option id (new_pool 1 1) (play 1 1 sleepy_acts).
Definition wakeup : pool nat := Eval vm_compute in from_option id (new_pool 1 1) (play 1 1 wakeup_acts).

Lemma sleepy_runs : runs (pool_step demo_body) (new_pool 1 1) sleepy_acts sleepy.
Proof. apply play_runs. vm_compute. reflexivity. Qed.
Lemma wakeup_runs : runs (pool_step demo_body) (new_pool 1 1) wakeup_acts wakeup.
Proof. apply play_runs. vm_compute. reflexivity. Qed.

(** Two workers: worker 0 takes task 0 from the global queue and spawns 1 and
    2; worker 1 steals 1 and is running it while worker 0 has finished 2. *)
Definition busy_acts : list (action nat) :=
  [ACall 0 0; AExtern 0 0; AExtern 0 0; AWorker 0 0; AWorker 0 0] ++
  replicate 7 (AWorker 0 0) ++ replicate 3 (AWorker 1 0) ++ replicate 2 (AWorker 0 0).
Definition busy : pool nat := Eval vm_compute in from_option id (new_pool 2 1) (play 2 1 busy_acts).

Lemma busy_runs : runs (pool_step demo_body) (new_pool 2 1) busy_acts busy.
Proof. apply play_runs. vm_compute. reflexivity. Qed.

Lemma pool_conserves_tasks_witness :
  submitted busy = [0; 1; 2] ∧ executed busy = [0; 2] ∧ (workers busy ≫= w_hand) = [1] ∧
  submitted busy ≡ₚ (deques busy ≫= id) ++ tasks_ (global_queue busy) ++ executed busy ++
    (workers busy ≫= w_hand) ++ (externs busy ≫= e_hand).
Proof. split_and!; [reflexivity..|]. apply (pool_conserves_tasks _ _ _ _ _ busy_runs). Defined.

Lemma pool_no_lost_wakeup_witness :
  sleeping_workers sleepy = 1%Z ∧
  (tasks_ (global_queue sleepy) = [] ∧ Forall (λ q, q = []) (deques sleepy)).
Proof.
  split; [reflexivity|]. apply (pool_no_lost_wakeup _ _ _ _ _ sleepy_runs); repeat constructor.
Defined.

Lemma pool_deadlock_free_witness : workers wakeup = [WWait] ∧ can_move demo_body wakeup.
Proof.
  split; [reflexivity|]. apply (pool_deadlock_free _ _ _ _ _ wakeup_runs).
  left. split; [reflexivity|]. left. by vm_compute.
Defined.

(** The worker sleeps, and the thread that enqueued task 7 is about to notify it. *)
Definition notifying : pool nat :=
  Eval vm_compute in from_option id (new_pool 1 1) (play 1 1 (wakeup_acts ++ [AExtern 0 0])).

Lemma pool_sleep_counter_witness :
  sleeping_workers notifying = 1%Z ∧ in_section notifying (Ext 0) ∧
  (∀ t, in_section notifying t → t = Ext 0).
Proof.
  assert (runs (pool_step demo_body) (new_pool 1 1) (wakeup_acts ++ [AExtern 0 0]) notifying) as Hr.
  { apply play_runs. vm_compute. reflexivity. }
  destruct (pool_sleep_counter _ _ _ _ _ Hr) as (H1 & _ & H2 & H3).
  assert (in_section notifying (Ext 0)) as Hs by (apply H2; reflexivity).
  split; [rewrite H1; reflexivity|]. split; [exact Hs|]. intros t Ht. by apply H3.
Defined.

(** The worker has searched for work and spun 32 times when a task arrives and
    the destructor begins; the worker then takes the mutex, sees [stop] and
    leaves. *)
Definition drop_acts : list (action nat) :=
  replicate 35 (AWorker 0 0) ++ [ACall 0 7; AExtern 0 0; AExtern 0 0; ADtor] ++
  replicate 2 (AWorker 0 0) ++ replicate 4 ADtor.
Definition dropped : pool nat := Eval vm_compute in from_option id (new_pool 1 1) (play 1 1 drop_acts).

Lemma dropped_runs : runs (pool_step demo_body) (new_pool 1 1) drop_acts dropped.
Proof. apply play_runs. vm_compute. reflexivity. Qed.

Lemma pool_after_destructor_witness :
  Forall (λ pc, pc = WExit) (workers dropped) ∧ Forall (λ q, q = []) (deques dropped) ∧
  submitted dropped ≡ₚ tasks_ (global_queue dropped) ++ executed dropped.
Proof. apply (pool_after_destructor _ _ _ _ _ dropped_runs). reflexivity. Defined.

(** (C16) Destruction can drop an accepted task.  There is an execution in which
    [enqueue] of a task has returned before the destructor is called, the
    destructor joins all workers, and the task was never run: it is still in the
    global queue, whose destructor deletes it.  The worker tests [stop] under
    the mutex before it looks at the queues again. *)
Theorem shutdown_can_drop_a_task :
  ∃ acts s, runs (pool_step demo_body) (new_pool 1 1) acts s ∧ dtor s = DDone ∧
    submitted s = [7] ∧ executed s = [] ∧ GlobalQueue.destroy (global_queue s) = [7].
Proof. exists drop_acts, dropped. split; [apply dropped_runs|]. by vm_compute. Qed.

(** A worker takes task 7 from the global queue; then a thread calls [wait()]. *)
Definition early_acts : list (option (action nat)) :=
  (Some <$> [ACall 0 7; AExtern 0 0; AExtern 0 0; AWorker 0 0; AWorker 0 0]) ++
  replicate 3 None.

(** A worker runs task 0; the thread in [wait()] finds all queues empty, and before it
    returns the task enqueues task 1. *)
Definition behind_acts : list (option (action nat)) :=
  (Some <$> [ACall 0 0; AExtern 0 0; AExtern 0 0; AWorker 0 0; AWorker 0 0]) ++
  replicate 2 None ++ (Some <$> [AWorker 0 0; AWorker 0 0]) ++ [None].

(** [thread_pool::wait] may return before the work is done.  Its loop ends as soon as
    [empty()] has found every queue empty, one after the other: it may return while
    the only task submitted is still running, and even while a task is queued,
    because a task that was running enqueued it behind the scan. *)
Lemma wait_returns_early :
  (∃ s, exec (waiting_act demo_body) early_acts (new_pool 1 1, WtGlobal) = Some (s, WtReturned) ∧
     stop s = false ∧ submitted s = [7] ∧ executed s = [] ∧ workers s = [WRun 7 [] None]) ∧
  (∃ s, exec (waiting_act demo_body) behind_acts (new_pool 1 1, WtGlobal) = Some (s, WtReturned) ∧
     stop s = false ∧ executed s = [] ∧ deques s = [[1]]).
Proof. split; eexists; (split; [vm_compute; reflexivity|]); vm_compute; done. Qed.
