(* ===== verification/Scheduler.v ===== *)
(** * The scheduler, on several pools

    [thread_pool_scheduler] and [schedule_sender] of
    src/include/async_runtime/scheduler.hpp, and [enqueue] as [start()] calls it from any thread:
    one of the program, a worker of the same pool inside a task, or a worker of another
    pool.  [local_queue] is one [thread_local] pointer for all pools, so the task of a
    worker goes to the worker's own deque, whatever pool [enqueue] is called on, while
    [sleeping_workers], [mutex] and [cv] are those of that pool.

    A task made by [schedule_sender] calls [set_value] on its receiver, so tasks are
    represented by receivers, and [executed] has those whose [set_value] has returned.
    What a receiver schedules in turn is any sequence of calls while its task runs. *)

From S2P Require Import Prelude MachineInt DequeSpec GlobalQueue Victims ThreadPool ThreadPoolProof.
From stdpp Require Import options.

Record thread_pool_scheduler := Scheduler { sched_pool : nat }.
Record schedule_sender := ScheduleSender { ss_pool : nat }.

(** [thread_pool::get_scheduler], [thread_pool_scheduler::schedule], [operator==]. *)
Definition get_scheduler (this : nat) : thread_pool_scheduler := Scheduler this.
Definition schedule (s : thread_pool_scheduler) : schedule_sender := ScheduleSender (sched_pool s).
Definition scheduler_eqb (a b : thread_pool_scheduler) : bool :=
  bool_decide (sched_pool a = sched_pool b).

Section pools.
Context {R : Type}.

Record schedule_operation := ScheduleOp { so_pool : nat; so_receiver : option R }.

Definition schedule_connect (s : schedule_sender) (r : R) : schedule_operation :=
  ScheduleOp (ss_pool s) (Some r).

(** The pools, and the workers that are inside [enqueue] of another pool: worker [i] of pool
    [k] is there as thread [j] of pool [k'], [away !! (k, i) = Some (k', j)]. *)
Record sched_sys := SchedSys {
  pools : gmap nat (pool R);
  away : gmap (nat * nat) (nat * nat);
}.

(** The thread that calls. *)
Inductive caller : Type :=
| Outside (j : nat)            (** [local_queue] is null; thread [j] of the pool called on *)
| OnWorker (k i j : nat).      (** worker [i] of pool [k] inside a task; thread [j] of the pool
                                   called on, if that is another one *)

(** No worker of another pool is thread [j] of pool [k]. *)
Definition free_slot (k j : nat) (s : sched_sys) : bool :=
  bool_decide ((k, j) ∉ (map_to_list (away s)).*2).

(** [this->enqueue(x)] up to its first access: the push to the deque of [local_queue], if
    another pool's, otherwise a call that the steps of pool [this] carry out. *)
Definition enqueue_from (c : caller) (this : nat) (x : R) (s : sched_sys) : option sched_sys :=
  match c with
  | Outside j =>
      p ← pools s !! this;
      p' ← (if free_slot this j s then call_enqueue j x p else None);
      Some (SchedSys (<[this := p']> (pools s)) (away s))
  | OnWorker k i j =>
      p ← pools s !! k;
      match workers p !! i, away s !! (k, i) with
      | Some (WRun y [] None), None =>
          if decide (k = this)
          then Some (SchedSys (<[k := set_worker i (WRun y [] (Some (EPush x))) (log_submit x p)]> (pools s))
                       (away s))
          else
            q ← pools s !! this;
            match externs q !! j, dtor q, free_slot this j s with
            | Some None, DNone, true =>
                let p' := set_deques (alter (λ d, d ++ [x]) i (deques p)) (log_submit x p) in
                Some (SchedSys (<[this := set_extern j (Some ELoad) q]> (<[k := p']> (pools s)))
                        (<[(k, i) := (this, j)]> (away s)))
            | _, _, _ => None
            end
      | _, _ => None
      end
  end.

(** [schedule_sender::operation::start]: the receiver is moved into the task. *)
Definition schedule_start (c : caller) (op : schedule_operation) (s : sched_sys) :
    option (schedule_operation * sched_sys) :=
  r ← so_receiver op;
  s' ← enqueue_from c (so_pool op) r s;
  Some (ScheduleOp (so_pool op) None, s').

Inductive sched_action : Type :=
| SStart (c : caller) (k : nat) (r : R)      (** an operation on pool [k] is started *)
| SPool (k : nat) (a : ThreadPool.action R)  (** a step of pool [k] *)
| SReturn (k i : nat).                       (** worker [i] of pool [k] is back from the other pool *)

(** A worker inside another pool's [enqueue] does not go on with its task. *)
Definition at_home (k : nat) (a : ThreadPool.action R) (s : sched_sys) : bool :=
  match a with
  | AWorker i _ => bool_decide (away s !! (k, i) = None)
  | ACall _ _ => false
  | _ => true
  end.

Definition sched_act (a : sched_action) (s : sched_sys) : option sched_sys :=
  match a with
  | SStart c k r =>
      '(_, s') ← schedule_start c (schedule_connect (schedule (get_scheduler k)) r) s; Some s'
  | SPool k a =>
      p ← pools s !! k;
      if at_home k a s
      then p' ← pool_act (λ _, []) a p; Some (SchedSys (<[k := p']> (pools s)) (away s))
      else None
  | SReturn k i =>
      '(k', j) ← away s !! (k, i);
      q ← pools s !! k';
      match externs q !! j with
      | Some None => Some (SchedSys (pools s) (delete (k, i) (away s)))
      | _ => None
      end
  end.

Definition sched_step (s : sched_sys) (a : sched_action) (s' : sched_sys) : Prop :=
  sched_act a s = Some s'.

Definition sched_exec : list sched_action → sched_sys → option sched_sys := exec sched_act.

(** The pool whose workers will run the receiver of an operation. *)
Definition landing (c : caller) (k : nat) : nat :=
  match c with Outside _ => k | OnWorker k' _ _ => k' end.

(** The receivers that a sequence of actions hands to pool [k]. *)
Definition lands (k : nat) (a : sched_action) : option R :=
  match a with
  | SStart c k' r => if decide (landing c k' = k) then Some r else None
  | _ => None
  end.

(** ** Invariant *)

Implicit Types (s : sched_sys) (p : pool R) (a : sched_action).

(** No worker has calls of its own left: all calls are actions. *)
Definition no_todo (pc : worker_pc R) : Prop :=
  match pc with WRun _ ys _ => ys = [] | _ => True end.

Record PoolOk (l : list R) p : Prop := {
  po_inv : Inv p;
  po_balanced : balanced p;
  po_todo : Forall no_todo (workers p);
  po_submitted : submitted p = l;
}.

Lemma pool_frame p b p' :
  pool_step (λ _, []) p b p' → Forall no_todo (workers p) → (∀ j x, b ≠ ACall j x) →
  Forall no_todo (workers p') ∧ submitted p' = submitted p.
Proof.
  unfold pool_step, pool_act. intros H Ht Hb.
  assert (∀ i pc, no_todo pc → Forall no_todo (<[i:=pc]> (workers p))) as Hins
    by (intros i pc Hpc; by apply Forall_insert).
  destruct b.
  - unfold worker_step in H. apply bind_Some in H as (pc & Hi & H).
    pose proof (Forall_lookup_1 _ _ _ _ Ht Hi) as Hpc.
    unfold begin_steal, take_global, run_task, enqueue_step, lock, notify_one, after_steal in H.
    unfold mbind, option_bind in H.
    repeat case_match; simplify_eq/=; (split; [|done]); try done; try (by apply Hins);
      by (apply Forall_insert; [apply Hins|]).
  - unfold lose_race in H. repeat case_match; simplify_eq/=; (split; [by apply Hins|done]).
  - unfold misread, mbind, option_bind in H.
    repeat case_match; simplify_eq/=; (split; [by apply Hins|done]).
  - repeat case_match; simplify_eq/=; (split; [by apply Hins|done]).
  - by destruct (Hb j x).
  - unfold extern_step, enqueue_step, lock, notify_one, mbind, option_bind in H.
    repeat case_match; simplify_eq/=; (split; [first [done|by apply Hins]|done]).
  - unfold dtor_step, lock, notify_all, mbind, option_bind in H.
    repeat case_match; simplify_eq/=; (split; [|done]); try done.
    apply Forall_fmap. eapply Forall_impl; [done|]. by intros [].
Qed.

(** A worker calls [enqueue] of its own pool. *)
Lemma ok_own l p i y x :
  PoolOk l p → workers p !! i = Some (WRun y [] None) →
  PoolOk (l ++ [x]) (set_worker i (WRun y [] (Some (EPush x))) (log_submit x p)).
Proof.
  intros [HI Hb Ht Hs] Hi. split; simpl.
  - eapply inv_worker; [done..|effect].
  - eapply balanced_worker; [done..|]. unfold settled; simpl. solve_Permutation.
  - by apply Forall_insert.
  - by rewrite Hs.
Qed.

(** A worker calls [enqueue] of another pool: its own, and the other. *)
Lemma ok_push l p i y x :
  PoolOk l p → workers p !! i = Some (WRun y [] None) →
  PoolOk (l ++ [x]) (set_deques (alter (λ d, d ++ [x]) i (deques p)) (log_submit x p)).
Proof.
  intros [HI Hb Ht Hs] Hi.
  assert (is_Some (deques p !! i)) as [d Hd].
  { apply lookup_lt_is_Some. rewrite (iv_len p HI). by eapply lookup_lt_Some. }
  assert (workers p = <[i:=WRun y [] None]> (workers p)) as Ew by (by rewrite list_insert_id).
  split; simpl.
  - eapply (inv_worker p _ i _ (WRun y [] None)); [done..|effect].
  - eapply (balanced_worker p _ i _ (WRun y [] None)); [done..|]. unfold settled; simpl.
    rewrite (alter_insert_lookup _ _ _ _ Hd).
    rewrite (settled_take (<[i:=d ++ [x]]> (deques p)) i (d ++ [x]) d x), list_insert_insert_eq,
      list_insert_id by (done || solve_Permutation ||
        (apply list_lookup_insert_eq; by eapply lookup_lt_Some)).
    solve_Permutation.
  - done.
  - by rewrite Hs.
Qed.

Lemma ok_visit l p j :
  PoolOk l p → externs p !! j = Some None → dtor p = DNone → PoolOk l (set_extern j (Some ELoad) p).
Proof.
  intros [HI Hb Ht Hs] Hj Hd. split; [| |done|done].
  - eapply inv_extern; [done| | |..]; simpl; unfold mutex_move; try done; [by rewrite Hd|naive_solver..].
  - eapply balanced_extern; [done..|]. unfold settled; simpl. solve_Permutation.
Qed.

Lemma ok_call l p j x p' : PoolOk l p → call_enqueue j x p = Some p' → PoolOk (l ++ [x]) p'.
Proof.
  intros [HI Hb Ht Hs] Hc. split.
  - by eapply call_enqueue_inv.
  - by eapply (balanced_step (λ _, []) p (ACall j x)).
  - unfold call_enqueue in Hc. repeat case_match; simplify_eq/=; done.
  - unfold call_enqueue in Hc. repeat case_match; simplify_eq/=; done.
Qed.

Lemma ok_step l p b p' :
  PoolOk l p → pool_step (λ _, []) p b p' → (∀ j x, b ≠ ACall j x) → PoolOk l p'.
Proof.
  intros [HI Hb Ht Hs] Hst Hna. destruct (pool_frame _ _ _ Hst Ht Hna) as [Ht' Hs'].
  split; [by eapply inv_step|by eapply balanced_step|done|congruence].
Qed.

Definition SchedInv (ls : list sched_action) s : Prop :=
  map_Forall (λ k p, PoolOk (omap (lands k) ls) p) (pools s).

Lemma lands_snoc k ls a : omap (lands k) (ls ++ [a]) = omap (lands k) ls ++ option_list (lands k a).
Proof. rewrite omap_app. simpl. by destruct (lands k a). Qed.

(** A step that changes the pools in [m], and hands a receiver to one of them at most. *)
Lemma sched_inv_update ls s a (m : gmap nat (pool R)) aw :
  SchedInv ls s →
  map_Forall (λ k p, PoolOk (omap (lands k) ls ++ option_list (lands k a)) p) m →
  (∀ k, m !! k = None → lands k a = None) →
  SchedInv (ls ++ [a]) (SchedSys (m ∪ pools s) aw).
Proof.
  intros HI Hm Hn k p Hp. simpl in Hp. rewrite lands_snoc.
  apply lookup_union_Some_raw in Hp as [Hp|[Hk Hp]]; [by apply Hm|].
  rewrite (Hn k Hk). simpl. rewrite app_nil_r. by apply HI.
Qed.

Lemma union_one (k : nat) p (m : gmap nat (pool R)) : <[k:=p]> m = {[k:=p]} ∪ m.
Proof. by rewrite insert_union_singleton_l. Qed.

Lemma lands_start_ne c k k' r : k' ≠ landing c k → lands k' (SStart c k r) = None.
Proof. intros. simpl. by rewrite decide_False. Qed.

Lemma lands_start_eq c k k' r : k' = landing c k → lands k' (SStart c k r) = Some r.
Proof. intros. simpl. by rewrite decide_True. Qed.

Lemma sched_inv_start ls s c k r s' :
  SchedInv ls s → enqueue_from c k r s = Some s' → SchedInv (ls ++ [SStart c k r]) s'.
Proof.
  intros HI H. destruct c as [j|k1 i j]; simpl in H.
  - apply bind_Some in H as (p & Hp & H). destruct (free_slot k j s); [|done].
    apply bind_Some in H as (p' & Hc & [= <-]). rewrite union_one. apply sched_inv_update; [done| |].
    + apply map_Forall_singleton. rewrite lands_start_eq by done. eapply ok_call; [by apply HI|done].
    + intros k' Hk'%lookup_singleton_None. by apply lands_start_ne.
  - apply bind_Some in H as (p & Hp & H). destruct (workers p !! i) as [[]|] eqn:Hi; try done.
    destruct todo; [|done]. destruct e; [done|]. destruct (away s !! (k1, i)); [done|].
    case_decide as Hk.
    + injection H as <-. rewrite union_one. apply sched_inv_update; [done| |].
      * apply map_Forall_singleton. rewrite lands_start_eq by done.
        eapply ok_own; [by apply HI|done].
      * intros k' Hk'%lookup_singleton_None. by apply lands_start_ne.
    + apply bind_Some in H as (q & Hq & H). destruct (externs q !! j) as [[]|] eqn:Hj; try done.
      destruct (dtor q) eqn:Hd; try done. destruct (free_slot k j s); [|done]. injection H as <-.
      rewrite !union_one, (assoc_L (∪)). apply sched_inv_update; [done| |].
      * intros k' p' Hp'. apply lookup_union_Some_raw in Hp' as [Hp'|[_ Hp']];
          apply lookup_singleton_Some in Hp' as [<- <-].
        -- rewrite lands_start_ne by (simpl; congruence). simpl. rewrite app_nil_r.
           apply ok_visit; [by apply HI|done..].
        -- rewrite lands_start_eq by done. eapply ok_push; [by apply HI|done].
      * intros k' Hk'. apply lookup_union_None in Hk' as [_ Hk'%lookup_singleton_None].
        by apply lands_start_ne.
Qed.

Lemma sched_inv_step ls s a s' : SchedInv ls s → sched_step s a s' → SchedInv (ls ++ [a]) s'.
Proof.
  unfold sched_step. intros HI H. destruct a as [c k r|k b|k i]; cbn in H.
  - apply bind_Some in H as ([op s1] & H & [= <-]). unfold schedule_start in H. simpl in H.
    apply bind_Some in H as (s2 & H & [= _ <-]). by apply (sched_inv_start _ s).
  - apply bind_Some in H as (p & Hp & H). destruct (at_home k b s) eqn:Hh; [|done].
    apply bind_Some in H as (p' & Hb & [= <-]). rewrite union_one. apply sched_inv_update; [done| |done].
    apply map_Forall_singleton. simpl. rewrite app_nil_r.
    eapply ok_step; [by apply HI|exact Hb|]. by intros j x ->.
  - apply bind_Some in H as ([k' j] & _ & H). apply bind_Some in H as (q & _ & H).
    destruct (externs q !! j) as [[]|]; try done. injection H as <-. intros k1 p1 Hp1. simpl in Hp1.
    rewrite lands_snoc. simpl. rewrite app_nil_r. by apply HI.
Qed.

Lemma sched_inv_init ps :
  map_Forall (λ _ p, ∃ n m, p = new_pool n m) ps → SchedInv [] (SchedSys ps ∅).
Proof.
  intros Hps k p Hp. destruct (Hps k p Hp) as (n & m & ->).
  destruct (balanced_runs (λ _ : R, []) n m [] (new_pool n m)) as [HI Hb]; [constructor|].
  split; [done..| |done]. simpl. apply Forall_replicate. done.
Qed.

Lemma sched_reachable ps ls s :
  map_Forall (λ _ p, ∃ n m, p = new_pool n m) ps → runs sched_step (SchedSys ps ∅) ls s →
  SchedInv ls s.
Proof.
  intros Hps. remember (SchedSys ps ∅) as s0 eqn:E0. induction 1 as [|s0 ls s1 a s2 ? IH Hs].
  - subst. by apply sched_inv_init.
  - eapply sched_inv_step; [by apply IH|done].
Qed.

(** ** Properties *)

(** Nothing is queued and no thread has a task in its hands. *)
Definition drained p : Prop :=
  deques p ≫= id = [] ∧ tasks_ (global_queue p) = [] ∧ workers p ≫= w_hand = [] ∧
  externs p ≫= e_hand = [].

(** (C31) Every scheduled receiver is run exactly once, on a pool that is known.  Take any
    pools, and any interleaving of their workers and destructors with operations
    [get_scheduler(pool k).schedule()] started by threads of the program and by tasks of
    any of the pools.  The receivers of the operations started so far are, as a
    multiset, those on which [set_value] was called together with those queued or in the
    hands of a thread: pool by pool, where an operation belongs to the pool of its
    scheduler when it was started by a thread of the program or by a task of that pool,
    and to the caller's pool when it was started by a task of another one.  Once a pool
    is drained, each of its receivers has got [set_value] exactly once.  Starting an
    operation moves the receiver out of it and touches no pool but the scheduler's and the
    caller's; two schedulers are equal exactly when they stand for the same pool. *)
Theorem scheduled_exactly_once (ps : gmap nat (pool R)) ls s :
  map_Forall (λ _ p, ∃ n m, p = new_pool n m) ps → runs sched_step (SchedSys ps ∅) ls s →
  (∀ k p, pools s !! k = Some p →
     omap (lands k) ls ≡ₚ (deques p ≫= id) ++ tasks_ (global_queue p) ++ executed p ++
       (workers p ≫= w_hand) ++ (externs p ≫= e_hand) ∧
     (drained p → omap (lands k) ls ≡ₚ executed p)) ∧
  (∀ c k r op s', schedule_start c (schedule_connect (schedule (get_scheduler k)) r) s = Some (op, s') →
     so_receiver op = None ∧
     ∀ k', k' ≠ k → k' ≠ landing c k → pools s' !! k' = pools s !! k') ∧
  (∀ k k', scheduler_eqb (get_scheduler k) (get_scheduler k') = true ↔ k = k').
Proof.
  intros Hps Hr. pose proof (sched_reachable _ _ _ Hps Hr) as HI. split_and!.
  - intros k p Hp. destruct (HI k p Hp) as [_ Hb _ <-]. unfold balanced, settled in Hb.
    rewrite <- !app_assoc in Hb. split; [done|]. intros (E1 & E2 & E3 & E4).
    by rewrite Hb, E1, E2, E3, E4, app_nil_r.
  - intros c k r op s' H. unfold schedule_start in H. simpl in H.
    apply bind_Some in H as (s1 & H & [= <- <-]). split; [done|]. intros k' Hk Hl.
    destruct c as [j|k1 i j]; simpl in H, Hl.
    + apply bind_Some in H as (p & _ & H). apply bind_Some in H as (p' & _ & [= <-]). simpl.
      by rewrite lookup_insert_ne.
    + apply bind_Some in H as (p & _ & H). repeat case_match; simplify_eq/=; try done;
        try (by rewrite lookup_insert_ne);
        apply bind_Some in H as (q & _ & H); repeat case_match; simplify_eq/=; try done;
        by rewrite !lookup_insert_ne.
  - intros k k'. unfold scheduler_eqb. simpl. by rewrite bool_decide_eq_true.
Qed.

End pools.
Arguments schedule_operation : clear implicits.
Arguments sched_sys : clear implicits.
Arguments sched_action : clear implicits.

(** ** Two pools

    A thread schedules task 7 on pool 0; running on the worker of pool 0, it schedules task 9
    on pool 1 and task 8 on its own. *)

Definition two_pools : gmap nat (pool nat) := {[ 0 := new_pool 1 1; 1 := new_pool 2 1 ]}.

Definition cross_acts : list (sched_action nat) :=
  [SStart (Outside 0) 0 7; SPool 0 (AExtern 0 0); SPool 0 (AExtern 0 0);
   SPool 0 (AWorker 0 0); SPool 0 (AWorker 0 0);
   SStart (OnWorker 0 0 0) 1 9; SPool 1 (AExtern 0 0); SReturn 0 0;
   SStart (OnWorker 0 0 0) 0 8; SPool 0 (AWorker 0 0); SPool 0 (AWorker 0 0);
   SPool 0 (AWorker 0 0); SPool 0 (AWorker 0 0); SPool 0 (AWorker 0 0);
   SPool 0 (AWorker 0 0); SPool 0 (AWorker 0 0)].

Definition cross_end : sched_sys nat :=
  default (SchedSys ∅ ∅) (sched_exec cross_acts (SchedSys two_pools ∅)).

Lemma scheduled_exactly_once_witness :
  ∃ p, pools cross_end !! 0 = Some p ∧ executed p = [7; 8; 9] ∧
    omap (lands 0) cross_acts = [7; 9; 8] ∧ omap (lands 0) cross_acts ≡ₚ executed p.
Proof.
  destruct (scheduled_exactly_once two_pools cross_acts cross_end) as [H _].
  - intros k p Hp. unfold two_pools in Hp. apply lookup_insert_Some in Hp as [[_ <-]|[_ Hp]].
    + by exists 1, 1.
    + apply lookup_singleton_Some in Hp as [_ <-]. by exists 2, 1.
  - apply exec_runs with (f := sched_act); [done|]. vm_compute. reflexivity.
  - destruct (pools cross_end !! 0) as [p|] eqn:E; [|vm_compute in E; discriminate E].
    destruct (H 0 p E) as [_ H']. vm_compute in E. injection E as <-. eexists.
    split; [reflexivity|]. split; [reflexivity|]. split; [reflexivity|].
    apply H'. by vm_compute.
Defined.

(** A task enqueued on another pool runs on the wrong pool: task 9, enqueued on pool 1 from a
    task of pool 0, is executed by pool 0, and pool 1 never sees it. *)
Lemma cross_pool_task_runs_on_callers_pool :
  ∃ p0 p1, pools cross_end !! 0 = Some p0 ∧ pools cross_end !! 1 = Some p1 ∧
    9 ∈ executed p0 ∧ p1 = new_pool 2 1.
Proof. do 2 eexists. split; [vm_compute; reflexivity|]. split; [vm_compute; reflexivity|]. vm_compute. split; [|done]. set_solver. Qed.
