(* ===== verification/PoolProgress.v ===== *)
(** * Progress of the workers

    A worker that is not asleep finds a queued task by its own steps: run alone from
    any reachable state in which it can take the mutex, it starts a task within a
    number of steps that is linear in the number of workers.  With the absence of
    deadlock (C9), which holds for all threads together, this excludes that a worker
    goes round its loop without ever seeing the work. *)

From S2P Require Import Prelude MachineInt DequeSpec GlobalQueue Victims.
From S2P Require Import ThreadPool ThreadPoolProof ThreadPoolTheorems.
From stdpp Require Import options.

Section progress.
Context {T : Type} (body : T → list T).
Implicit Types (s : pool T) (pc : worker_pc T).

Definition nonempty (q : list T) : bool := match q with [] => false | _ => true end.

(** Some deque among the targets holds a task. *)
Definition avail s (js : list nat) : bool :=
  existsb (λ j, match deques s !! j with Some q => nonempty q | None => false end) js.

(** The worker will look at every queue before it blocks. *)
Definition hungry s pc : bool :=
  match pc with
  | WRun _ _ _ | WWait | WExit => false
  | WPredLocal k => existsb nonempty (drop k (deques s))
  | _ => true
  end.

(** Steps until the worker has found a task, at most. *)
Definition dist s pc : nat :=
  let n := length (deques s) in
  match pc with
  | WPop => n + 3
  | WGlobal => n + 2
  | WSteal k js => if avail s js then length js else length js + 3 * n + 13
  | WStop => n + 3
  | WSpin _ => n + 2
  | WLock => 3 * n + 12
  | WLockedStop => 3 * n + 11
  | WLockedGlobal => 3 * n + 10
  | WLockedLocal k => (n - k) + 2 * n + 9
  | WIncr | WWoken => 2 * n + 8
  | WPredStop => 2 * n + 7
  | WPredGlobal => 2 * n + 6
  | WPredLocal k => (n - k) + n + 5
  | WDecr => n + 4
  | WRun _ _ _ | WWait | WExit => 0
  end.

(** The worker alone, until it runs a task. *)
Fixpoint seek (fuel : nat) (i : nat) s : option (pool T) :=
  match workers s !! i, fuel with
  | Some (WRun _ _ _), _ => Some s
  | _, O => None
  | _, S fuel => worker_step body i 0 s ≫= seek fuel i
  end.

(** Worker [i] has started a task. *)
Definition started i s : Prop := ∃ x, workers s !! i = Some (WRun x (body x) None).

(** The mutex is free, or the worker's. *)
Definition lockable i s : Prop := mutex s = None ∨ mutex s = Some (Wk i).

(** The search goes on: nothing but the worker's own state has changed. *)
Record closer i pc s s' : Prop := {
  cl_deques : deques s' = deques s;
  cl_global : global_queue s' = global_queue s;
  cl_stop : stop s' = stop s;
  cl_lock : lockable i s';
  cl_pc : ∃ pc', workers s' !! i = Some pc' ∧ hungry s' pc' = true ∧ dist s' pc' < dist s pc;
}.

Lemma avail_in s js j q : j ∈ js → deques s !! j = Some q → q ≠ [] → avail s js = true.
Proof.
  intros Hj Hq Hne. apply existsb_exists. exists j. split; [by apply list_elem_of_In|].
  rewrite Hq. by destruct q.
Qed.

Lemma victim_order_elem i start n j : j < n → j ≠ i → j ∈ victim_order i start n.
Proof.
  intros Hj Hne. rewrite victims_are_the_others. apply list_elem_of_filter. split; [done|]. apply elem_of_seq. lia.
Qed.

Lemma victim_order_length i start n : length (victim_order i start n) ≤ n.
Proof.
  rewrite victims_are_the_others. etransitivity; [apply length_filter|]. by rewrite length_seq.
Qed.

(** Moving the worker and nothing else. *)
Lemma closer_set i s pc pc' :
  i < length (workers s) → lockable i s → hungry s pc' = true → dist s pc' < dist s pc →
  closer i pc s (set_worker i pc' s).
Proof.
  intros Hi Hl Hh Hd. split; try done. exists pc'. split; [|done].
  by apply list_lookup_insert_eq.
Qed.

(** A search through all the other deques finds the task. *)
Lemma begin_steal_closer i s pc k q j :
  Inv s → workers s !! i = Some pc → starved pc = true → lockable i s → dist s pc = length (deques s) + 2 →
  deques s !! j = Some q → q ≠ [] → closer i pc s (begin_steal i k s).
Proof.
  intros HI Hi Hst Hl Hd Hq Hne. pose proof (iv_own s HI _ _ Hi Hst) as Hown.
  assert (j ≠ i) as Hji by congruence.
  pose proof (lookup_lt_Some _ _ _ Hq). pose proof (lookup_lt_Some _ _ _ Hown).
  unfold begin_steal. rewrite decide_False by lia. split; try done. simpl.
  eexists. split; [apply list_lookup_insert_eq; by eapply lookup_lt_Some|]. split; [done|].
  rewrite Hd. unfold dist. rewrite (avail_in _ _ j q); [|by apply victim_order_elem|done..]. simpl.
  pose proof (victim_order_length i (start_index (xorshift32 (from_option id (rng_seed (Z.of_nat i))
    (mjoin (rngs s !! i)))) (length (deques s))) (length (deques s))). lia.
Qed.

Lemma run_task_started i x s : i < length (workers s) → started i (run_task body i x s).
Proof. intros. exists x. by apply list_lookup_insert_eq. Qed.

Lemma take_global_cases i s :
  i < length (workers s) →
  (∃ s', take_global body i s = Some s' ∧ started i s') ∨
  take_global body i s = None ∧ tasks_ (global_queue s) = [].
Proof.
  intros Hi. unfold take_global, pop_nonblocking. destruct (tasks_ (global_queue s)) as [|x l] eqn:E.
  - right. done.
  - left. eexists. split; [done|]. by apply run_task_started.
Qed.

(** Taking the mutex and moving. *)
Lemma lock_closer i s pc pc' :
  i < length (workers s) → mutex s = None → hungry s pc' = true → dist s pc' < dist s pc →
  ∃ s1, lock (Wk i) s = Some s1 ∧ closer i pc s (set_worker i pc' s1).
Proof.
  intros Hi Hm Hh Hd. unfold lock. rewrite Hm. eexists. split; [done|].
  split; try done; [by right|]. exists pc'. split; [by apply list_lookup_insert_eq|done].
Qed.

(** Releasing the mutex and moving. *)
Lemma unlock_closer i s pc pc' :
  i < length (workers s) → hungry s pc' = true → dist s pc' < dist s pc →
  closer i pc s (set_worker i pc' (unlock s)).
Proof.
  intros Hi Hh Hd. split; try done; [by left|]. exists pc'. split; [by apply list_lookup_insert_eq|done].
Qed.

Definition advances i pc s : Prop :=
  ∃ s', worker_step body i 0 s = Some s' ∧ (started i s' ∨ closer i pc s s').

Lemma search_advances i s k :
  Inv s → stop s = false → queued s → lockable i s → i < length (workers s) →
  workers s !! i = Some WGlobal ∧ k = Main ∨ (∃ spin, workers s !! i = Some (WSpin spin) ∧ k = Spin spin) →
  ∀ pc, workers s !! i = Some pc → advances i pc s.
Proof.
  intros HI Hs Hq Hl Hi Hcase pc Hpc.
  assert (worker_step body i 0 s =
    match take_global body i s with Some s' => Some s' | None => Some (begin_steal i k s) end ∧
    starved pc = true ∧ dist s pc = length (deques s) + 2) as (Hw & Hst & Hd).
  { unfold worker_step. destruct Hcase as [[H ->]|(spin & H & ->)]; rewrite H in Hpc; injection Hpc as <-;
      rewrite H; done. }
  unfold advances. rewrite Hw. destruct (take_global_cases i s Hi) as [(s' & -> & Ht)|[-> Hg]].
  - eexists. split; [done|by left].
  - eexists. split; [done|right]. destruct Hq as [?|(j & q & Hj & Hne)]; [done|].
    by eapply begin_steal_closer.
Qed.

Lemma steal_advances i s k js :
  Inv s → targets_ok s → lockable i s → workers s !! i = Some (WSteal k js) →
  advances i (WSteal k js) s.
Proof.
  intros HI Ht Hl Hi. pose proof (lookup_lt_Some _ _ _ Hi) as Hlt.
  unfold advances, worker_step. rewrite Hi; simpl. destruct js as [|j js].
  - eexists. split; [done|right]. apply closer_set; try done.
    + unfold after_steal. destruct k; [done|]. by case_decide.
    + simpl. unfold after_steal. destruct k; [|case_decide]; simpl; lia.
  - pose proof (Ht _ _ _ Hi) as Hj. apply Forall_cons in Hj as [Hj _].
    destruct (lookup_lt_is_Some_2 _ _ Hj) as [q Hq]. rewrite Hq. simpl.
    destruct q as [|x q]; simpl.
    + eexists. split; [done|right]. apply closer_set; try done.
      unfold dist, avail. simpl. rewrite Hq. simpl. destruct (existsb _ js); lia.
    + eexists. split; [done|left]. by apply run_task_started.
Qed.

Lemma drop_nonempty s k q :
  deques s !! k = Some q → existsb nonempty (drop k (deques s)) =
    nonempty q || existsb nonempty (drop (S k) (deques s)).
Proof. intros Hq. by rewrite (drop_S _ _ _ Hq). Qed.

Lemma queued_nonempty s :
  queued s → tasks_ (global_queue s) = [] → existsb nonempty (deques s) = true.
Proof.
  intros [?|(j & q & Hj & Hne)] Hg; [done|]. apply existsb_exists. exists q.
  split; [|by destruct q]. apply list_elem_of_In. by eapply list_elem_of_lookup_2.
Qed.

(** The predicate of [cv.wait], and the loop of [has_local_work] before it. *)
Lemma local_advances i s pc k :
  Inv s → lockable i s → workers s !! i = Some pc → hungry s pc = true →
  pc = WLockedLocal k ∨ pc = WPredLocal k → advances i pc s.
Proof.
  intros HI Hl Hi Hh Hpc. pose proof (lookup_lt_Some _ _ _ Hi) as Hlt.
  unfold advances, worker_step. rewrite Hi; simpl.
  destruct Hpc as [-> | ->]; (eexists; split; [done|right]);
    destruct (deques s !! k) as [q|] eqn:Hq.
  - pose proof (lookup_lt_Some _ _ _ Hq).
    destruct q; [apply closer_set|apply unlock_closer]; try done; simpl; lia.
  - apply closer_set; try done. simpl. lia.
  - pose proof (lookup_lt_Some _ _ _ Hq). simpl in Hh. rewrite (drop_nonempty _ _ _ Hq) in Hh.
    destruct q; apply closer_set; try done; simpl; lia.
  - simpl in Hh. apply lookup_ge_None in Hq. by rewrite drop_ge in Hh.
Qed.

Lemma hungry_advances i s pc :
  Inv s → targets_ok s → stop s = false → queued s → lockable i s →
  workers s !! i = Some pc → hungry s pc = true → advances i pc s.
Proof.
  intros HI Ht Hs Hq Hl Hi Hh. pose proof (lookup_lt_Some _ _ _ Hi) as Hlt.
  assert (w_holds pc = false → mutex s = None) as Hm.
  { intros Hw. destruct Hl as [Hl|Hl]; [done|]. apply (iv_mx_w s HI _ _ Hi) in Hl. congruence. }
  assert (∃ q, deques s !! i = Some q) as [q Hown].
  { apply lookup_lt_is_Some. by rewrite (iv_len s HI). }
  destruct pc as [| |k js|x ys e| |spin| | | |k| | | |k| | | |]; try done.
  - unfold advances, worker_step. rewrite Hi; simpl. rewrite Hown; simpl.
    destruct (snoc_case q) as [-> |(q' & x & ->)].
    + eexists. split; [done|right]. apply closer_set; try done. simpl. lia.
    + rewrite ref_pop_snoc. eexists. split; [done|left]. by apply run_task_started.
  - by eapply (search_advances i s Main); eauto.
  - by apply steal_advances.
  - unfold advances, worker_step. rewrite Hi; simpl. rewrite Hs. eexists. split; [done|right].
    apply closer_set; try done. simpl. lia.
  - eapply (search_advances i s (Spin spin)); eauto.
  - unfold advances, worker_step. rewrite Hi; simpl.
    destruct (lock_closer i s WLock WLockedStop) as (s1 & -> & Hc); try done; [by apply Hm|simpl; lia|].
    eexists. split; [done|by right].
  - unfold advances, worker_step. rewrite Hi; simpl. rewrite Hs. eexists. split; [done|right].
    apply closer_set; try done. simpl. lia.
  - unfold advances, worker_step. rewrite Hi; simpl. eexists. split; [done|right].
    destruct (empty_relaxed _); [apply closer_set|apply unlock_closer]; try done; simpl; lia.
  - eapply local_advances; eauto.
  - unfold advances, worker_step. rewrite Hi; simpl. eexists. split; [done|right].
    split; try done. exists WPredStop. split; [by apply list_lookup_insert_eq|]. split; [done|simpl; lia].
  - unfold advances, worker_step. rewrite Hi; simpl. rewrite Hs. eexists. split; [done|right].
    apply closer_set; try done. simpl. lia.
  - unfold advances, worker_step. rewrite Hi; simpl. eexists. split; [done|right].
    unfold empty_relaxed. destruct (tasks_ (global_queue s)) eqn:Hg; apply closer_set; try done;
      [|simpl; lia..]. simpl. rewrite drop_0. by apply queued_nonempty.
  - eapply local_advances; eauto.
  - unfold advances, worker_step. rewrite Hi; simpl.
    destruct (lock_closer i s WWoken WPredStop) as (s1 & -> & Hc); try done; [by apply Hm|simpl; lia|].
    eexists. split; [done|by right].
  - unfold advances, worker_step. rewrite Hi; simpl. eexists. split; [done|right].
    split; try done; [by left|]. exists WPop. split; [by apply list_lookup_insert_eq|].
    split; [done|simpl; lia].
Qed.

Lemma seek_finds fuel i s pc :
  Inv s → targets_ok s → stop s = false → queued s → lockable i s →
  workers s !! i = Some pc → hungry s pc = true → dist s pc ≤ fuel →
  ∃ s', seek fuel i s = Some s' ∧ started i s'.
Proof.
  revert s pc. induction fuel as [|fuel IH]; intros s pc HI Ht Hs Hq Hl Hi Hh Hd;
    destruct (hungry_advances i s pc HI Ht Hs Hq Hl Hi Hh) as (s1 & Hw & Hadv).
  - exfalso. destruct Hadv as [_|[_ _ _ _ (pc' & _ & _ & ?)]]; [|lia].
    destruct pc; simpl in *; try done; try lia. destruct (avail _ _) eqn:Ha; [|lia].
    destruct targets; [done|simpl in Hd; lia].
  - assert (seek (S fuel) i s = seek fuel i s1) as ->.
    { simpl. rewrite Hi, Hw. by destruct pc. }
    destruct Hadv as [(x & Hx)|[C1 C2 C3 C4 (pc' & Hi' & Hh' & Hd')]].
    + exists s1. split; [|by exists x]. destruct fuel; simpl; by rewrite Hx.
    + apply (IH s1 pc'); try done; [| | | |lia].
      * apply (inv_step body s (AWorker i 0)); done.
      * by eapply targets_worker.
      * congruence.
      * unfold queued. by rewrite C1, C2.
Qed.

(** (C38) A worker that is awake finds the work.  Take any reachable state of a pool that is
    not being destroyed in which some task is queued, and any worker that is neither
    running a task nor asleep nor already past the queue in the predicate of
    [cv.wait], and that can take the mutex.  Then the worker alone, by its own
    steps, starts a task within three steps per worker, the victims left in its
    current scan, and thirteen. *)
Theorem awake_worker_finds_work n m acts s i pc :
  runs (pool_step body) (new_pool n m) acts s → stop s = false → queued s →
  workers s !! i = Some pc → hungry s pc = true → lockable i s →
  ∃ s', seek (3 * length (workers s) + 13 + match pc with WSteal _ js => length js | _ => 0 end) i s
          = Some s' ∧ started i s'.
Proof.
  intros Hr Hs Hq Hi Hh Hl. pose proof (inv_runs body _ _ _ _ Hr) as HI.
  pose proof (targets_runs body _ _ _ _ Hr) as Ht.
  apply (seek_finds _ i s pc); try done. rewrite <- (iv_len s HI).
  unfold dist. destruct pc; try destruct (avail _ _); lia.
Qed.

End progress.

(** Two workers, the second of which has searched in vain and is in its tenth spin
    when a task arrives in the global queue. *)
Definition seek_acts : list (action nat) :=
  replicate 22 (AWorker 1 0) ++ [ACall 0 7; AExtern 0 0].
Definition seeking : pool nat :=
  Eval vm_compute in from_option id (new_pool 2 1) (play 2 1 seek_acts).

Lemma awake_worker_finds_work_witness :
  ∃ s', seek demo_body (3 * 2 + 13 + 1) 1 seeking = Some s' ∧ started demo_body 1 s'.
Proof.
  eapply (awake_worker_finds_work demo_body 2 1 seek_acts seeking 1).
  - apply play_runs. vm_compute. reflexivity.
  - reflexivity.
  - left. by vm_compute.
  - vm_compute. reflexivity.
  - reflexivity.
  - left. reflexivity.
Defined.
