(* ===== verification/PoolRelaxed.v ===== *)
(** * The thread pool with relaxed atomics

    [sleeping_workers] is read and modified with [memory_order_relaxed], and [stop] is
    stored with release and loaded with acquire: a load may return a value older than the
    last one stored.  Here the machine of ThreadPool runs with such loads.  The values of
    [sleeping_workers] form its modification order; every thread has a view, the oldest value
    it may still read; a mutex hands the view of the thread that unlocks it to the thread that
    locks it next, and a read-modify-write reads the newest value.  Only the synchronization
    of the two mutexes (the pool's and the global queue's) and of [stop] is used; the deques
    synchronize no views here.

    PoolRelaxedProof shows that these orders are enough for the sleep protocol, and
    PoolWholeProof draws the conclusion for the pool on its real deques. *)

From S2P Require Import Prelude MachineInt DequeSpec GlobalQueue Victims.
From S2P Require Import ThreadPool ThreadPoolProof ThreadPoolTheorems.
From stdpp Require Import options.

(** ** Views *)

(** [seen] is an index into the modification order of [sleeping_workers]; [knows_stop] says
    that the store to [stop] happens before. *)
Record view := View { seen : nat; knows_stop : bool }.

Definition join (v w : view) : view := View (seen v `max` seen w) (knows_stop v || knows_stop w).

(** A critical section of the global queue's mutex. *)
Definition queue_sync (b : bool) (v qv : view) : view * view :=
  if b then (join v qv, join v qv) else (v, qv).

(** A step that takes the owner of [mutex] from [m] to [m']. *)
Definition mutex_sync (m m' : option tid) (v mv : view) : view * view :=
  match m, m' with
  | None, Some _ => (join v mv, mv)
  | Some _, None => (v, join mv v)
  | _, _ => (v, mv)
  end.

Section relaxed.
Context {T : Type} (body : T → list T).

Record rpool := RPool {
  rbase : pool T;               (** its [sleeping_workers] and [stop] are the newest values *)
  hist : list Z;                (** modification order of [sleeping_workers] *)
  wviews : list view;           (** of the workers *)
  xviews : list view;           (** of the other threads *)
  mview : view;                 (** of the last owner of [mutex] *)
  qview : view;                 (** of the last owner of [global_queue]'s mutex *)
}.

Definition new_rpool (thread_count m : nat) : rpool :=
  let p := new_pool thread_count m in
  let v := View 0 false in
  RPool p [0%Z] (replicate (length (workers p)) v) (replicate (length (externs p)) v) v v.

Definition set_rbase (s : pool T) (r : rpool) : rpool :=
  RPool s (hist r) (wviews r) (xviews r) (mview r) (qview r).

Definition locks_queue (pc : worker_pc T) : bool :=
  match pc with WGlobal | WSpin _ | WLockedGlobal | WPredGlobal => true | _ => false end.

Definition writes_sleeping (pc : worker_pc T) : bool :=
  match pc with WIncr | WDecr => true | _ => false end.

Definition is_load (pc : worker_pc T) : bool :=
  match pc with
  | WRun _ _ (Some ELoad) | WStop | WLockedStop | WPredStop => true
  | _ => false
  end.

(** Worker [i] at [pc] took the pool to [s'] with a step that is not a load. *)
Definition worker_views (i : nat) (pc : worker_pc T) (v : view) (s' : pool T) (r : rpool) : rpool :=
  let '(v1, qv) := queue_sync (locks_queue pc) v (qview r) in
  let '(v2, h) := if writes_sleeping pc
                  then (View (length (hist r)) (knows_stop v1), hist r ++ [sleeping_workers s'])
                  else (v1, hist r) in
  let '(v3, mv) := mutex_sync (mutex (rbase r)) (mutex s') v2 (mview r) in
  RPool s' h (<[i:=v3]> (wviews r)) (xviews r) mv qv.

Definition extern_views (j : nat) (e : enq_pc T) (v : view) (s' : pool T) (r : rpool) : rpool :=
  let '(v1, qv) := queue_sync (match e with EPush _ => true | _ => false end) v (qview r) in
  let '(v2, mv) := mutex_sync (mutex (rbase r)) (mutex s') v1 (mview r) in
  RPool s' (hist r) (wviews r) (<[j:=v2]> (xviews r)) mv qv.

(** The destructor's thread stored [stop] before anything else. *)
Definition dtor_views (s' : pool T) (r : rpool) : rpool :=
  RPool s' (hist r) (wviews r) (xviews r)
    (mutex_sync (mutex (rbase r)) (mutex s') (View 0 true) (mview r)).2 (qview r).

(** What [enqueue] does with the value [v] of [sleeping_workers]. *)
Definition after_load (v : Z) : option (enq_pc T) := if (0 <? v)%Z then Some ELock else None.

(** What a worker does with the value [b] of [stop]. *)
Definition after_stop (i : nat) (pc : worker_pc T) (b : bool) (s : pool T) : option (pool T) :=
  match pc with
  | WStop => Some (set_worker i (if b then WExit else WSpin 0) s)
  | WLockedStop => Some (if b then set_worker i WExit (unlock s) else set_worker i WLockedGlobal s)
  | WPredStop => Some (set_worker i (if b then WDecr else WPredGlobal) s)
  | _ => None
  end.

Inductive raction : Type :=
| RAct (a : action T)             (** a step that is not a load of these two atomics *)
| RSleepW (i k : nat)             (** worker [i] reads value [k] of [sleeping_workers] *)
| RSleepX (j k : nat)             (** external thread [j] does *)
| RStop (i : nat) (b : bool).     (** worker [i] reads [b] from [stop] *)

Definition rpool_act (a : raction) (r : rpool) : option rpool :=
  match a with
  | RAct ((AWorker i _ | AMisread i) as a) =>
      pc ← workers (rbase r) !! i; v ← wviews r !! i;
      if is_load pc then None else
      s' ← pool_act body a (rbase r); Some (worker_views i pc v s' r)
  | RAct (AExtern j w) =>
      e ← mjoin (externs (rbase r) !! j); v ← xviews r !! j;
      match e with
      | ELoad => None
      | _ => s' ← pool_act body (AExtern j w) (rbase r); Some (extern_views j e v s' r)
      end
  | RAct ADtor => s' ← pool_act body ADtor (rbase r); Some (dtor_views s' r)
  | RAct a => s' ← pool_act body a (rbase r); Some (set_rbase s' r)
  | RSleepW i k =>
      pc ← workers (rbase r) !! i; v ← wviews r !! i; x ← hist r !! k;
      match pc with
      | WRun t ys (Some ELoad) =>
          if decide (seen v ≤ k) then
            Some (RPool (set_worker i (WRun t ys (after_load x)) (rbase r)) (hist r)
                    (<[i:=View k (knows_stop v)]> (wviews r)) (xviews r) (mview r) (qview r))
          else None
      | _ => None
      end
  | RSleepX j k =>
      e ← mjoin (externs (rbase r) !! j); v ← xviews r !! j; x ← hist r !! k;
      match e with
      | ELoad =>
          if decide (seen v ≤ k) then
            Some (RPool (set_extern j (after_load x) (rbase r)) (hist r) (wviews r)
                    (<[j:=View k (knows_stop v)]> (xviews r)) (mview r) (qview r))
          else None
      | _ => None
      end
  | RStop i b =>
      pc ← workers (rbase r) !! i; v ← wviews r !! i;
      if (if b then stop (rbase r) else negb (knows_stop v)) then
        s' ← after_stop i pc b (rbase r);
        let v' := View (seen v) (knows_stop v || b) in
        let '(v'', mv) := mutex_sync (mutex (rbase r)) (mutex s') v' (mview r) in
        Some (RPool s' (hist r) (<[i:=v'']> (wviews r)) (xviews r) mv (qview r))
      else None
  end.

Definition rpool_step (r : rpool) (a : raction) (r' : rpool) : Prop := rpool_act a r = Some r'.

End relaxed.
Arguments rpool : clear implicits.
Arguments raction : clear implicits.
