(* ===== verification/PoolRelaxedProof.v ===== *)
(** * The relaxed atomics of the pool are strong enough

    The invariant of the machine of PoolRelaxed, and its progress.  The invariant extends the invariant of
    ThreadPoolProof by what the views are good for: the increment of a worker that found
    the global queue empty before it blocked happens before every later critical
    section of the queue, so a thread that puts a task there afterwards cannot read a
    value of [sleeping_workers] from before that increment.  The theorem that rests on them
    is in PoolWholeProof. *)

From S2P Require Import Prelude MachineInt DequeSpec GlobalQueue Victims.
From S2P Require Import ThreadPool ThreadPoolProof ThreadPoolTheorems PoolRelaxed.
From stdpp Require Import options.

(** ** Positive suffixes of the modification order *)

Definition positive (h : list Z) (k : nat) : Prop := Forall (λ x, 1 ≤ x)%Z (drop k h).

Lemma positive_mono h k k' : positive h k → k ≤ k' → positive h k'.
Proof.
  unfold positive. intros H Hk. replace k' with (k + (k' - k)) by lia.
  rewrite <- drop_drop. by apply Forall_drop.
Qed.

Lemma positive_snoc h k x : positive h k → (1 ≤ x)%Z → positive (h ++ [x]) k.
Proof.
  unfold positive. intros H Hx. rewrite drop_app. apply Forall_app. split; [done|].
  apply Forall_drop. by repeat constructor.
Qed.

Lemma positive_end h x : (1 ≤ x)%Z → positive (h ++ [x]) (length h).
Proof. intros. unfold positive. rewrite drop_app_length. by repeat constructor. Qed.

Lemma positive_read h k k' x : positive h k → k ≤ k' → h !! k' = Some x → (1 ≤ x)%Z.
Proof.
  intros H Hk Hx. apply (Forall_lookup_1 _ _ (k' - k) x H). rewrite lookup_drop.
  by replace (k + (k' - k)) with k' by lia.
Qed.

Section proof.
Context {T : Type} (body : T → list T).
Implicit Types (s : pool T) (r : rpool T) (pc : worker_pc T).

(** ** What a step of a worker changes *)

Record worker_facts s s' (i : nat) pc pc' : Prop := {
  wf_self : workers s' !! i = Some pc';
  wf_len : length (workers s') = length (workers s);
  wf_others k p : k ≠ i → workers s' !! k = Some p →
    workers s !! k = Some p ∨ workers s !! k = Some WWait ∧ p = WWoken;
  wf_keep k p : k ≠ i → workers s !! k = Some p → alert p = true → workers s' !! k = Some p;
  wf_externs : externs s' = externs s;
  wf_dtor : dtor s' = dtor s;
  wf_stop : stop s' = stop s;
  wf_global : tasks_ (global_queue s') ≠ [] → tasks_ (global_queue s) ≠ [];
  wf_alert : alert pc = true → alert pc' = false →
    stop s = true ∨ tasks_ (global_queue s') = [];
  wf_wait : in_wait pc' = true → in_wait pc = true ∨ pc = WIncr;
  wf_checked : in_wait pc' = true → alert pc' = false → alert pc = false ∨ pc = WPredGlobal;
  wf_sleeping : writes_sleeping pc = false → sleeping_workers s' = sleeping_workers s;
  wf_holds : w_holds pc' = true → w_holds pc = true ∨ mutex s = None ∧ is_Some (mutex s');
}.

Lemma simple_facts s s' i pc pc' :
  workers s !! i = Some pc → workers s' = <[i:=pc']> (workers s) →
  externs s' = externs s → dtor s' = dtor s → stop s' = stop s →
  (tasks_ (global_queue s') ≠ [] → tasks_ (global_queue s) ≠ []) →
  (alert pc = true → alert pc' = false → stop s = true ∨ tasks_ (global_queue s') = []) →
  (in_wait pc' = true → in_wait pc = true ∨ pc = WIncr) →
  (in_wait pc' = true → alert pc' = false → alert pc = false ∨ pc = WPredGlobal) →
  (writes_sleeping pc = false → sleeping_workers s' = sleeping_workers s) →
  (w_holds pc' = true → w_holds pc = true ∨ mutex s = None ∧ is_Some (mutex s')) →
  worker_facts s s' i pc pc'.
Proof.
  intros Hi Ew He Hd Hs Hg Ha Hw Hc Hsl Hh. split; try done; rewrite Ew.
  - apply list_lookup_insert_eq. by eapply lookup_lt_Some.
  - by rewrite length_insert.
  - intros k p Hk. rewrite list_lookup_insert_ne by done. by left.
  - intros k p Hk Hp _. by rewrite list_lookup_insert_ne.
Qed.

Ltac facts Hi := eapply simple_facts; [exact Hi|reflexivity|..]; simpl; first [by intros; congruence|naive_solver].

Lemma take_global_facts s s' i pc :
  workers s !! i = Some pc → alert pc = true → w_holds pc = false → in_wait pc = false →
  take_global body i s = Some s' → ∃ pc', worker_facts s s' i pc pc'.
Proof.
  intros Hi Ha Hh Hw Ht. unfold take_global, pop_nonblocking in Ht.
  destruct (tasks_ (global_queue s)) eqn:Hg; [done|]. injection Ht as <-. eexists. facts Hi.
Qed.

Lemma begin_steal_facts s i k pc :
  workers s !! i = Some pc → alert pc = true → w_holds pc = false → in_wait pc = false →
  ∃ pc', worker_facts s (begin_steal i k s) i pc pc'.
Proof.
  intros Hi Ha Hh Hw. unfold begin_steal, after_steal. repeat case_match; eexists; facts Hi.
Qed.

Lemma notify_facts s s1 i w x ys :
  workers s !! i = Some (WRun x ys (Some ENotify)) → notify_one w s = Some s1 →
  worker_facts s (set_worker i (WRun x ys None) (unlock s1)) i (WRun x ys (Some ENotify)) (WRun x ys None).
Proof.
  intros Hi Hn. pose proof (lookup_lt_Some _ _ _ Hi) as Hlt. unfold notify_one in Hn.
  destruct (existsb _ _); [|injection Hn as <-; facts Hi].
  destruct (workers s !! w) as [[]|] eqn:Hw; try discriminate Hn. injection Hn as <-.
  assert (w ≠ i) as Hne by congruence.
  split; simpl; rewrite ?length_insert; try done.
  - rewrite list_lookup_insert_eq; [done|by rewrite length_insert].
  - intros k p Hk. rewrite list_lookup_insert_ne by done. destruct (decide (k = w)) as [->|].
    + rewrite list_lookup_insert_eq by (by eapply lookup_lt_Some). intros [= <-]. by right.
    + rewrite list_lookup_insert_ne by done. by left.
  - intros k p Hk Hp Ha. rewrite !list_lookup_insert_ne; [done| |done]. intros ->. by simplify_eq.
Qed.

Lemma worker_step_facts s s' i w pc :
  workers s !! i = Some pc → is_load pc = false → worker_step body i w s = Some s' →
  ∃ pc', worker_facts s s' i pc pc'.
Proof.
  intros Hi Hl H. unfold worker_step in H. rewrite Hi in H. simpl in H.
  destruct pc as [| |k js|x ys e| |spin| | | |k| | | |k| | | |]; try discriminate Hl.
  - pool_cases H; eexists; facts Hi.
  - destruct (take_global body i s) eqn:E; injection H as <-;
      [by eapply take_global_facts|by eapply begin_steal_facts].
  - destruct js as [|j js]; [injection H as <-; unfold after_steal; repeat case_match; eexists; facts Hi|].
    pool_cases H; eexists; facts Hi.
  - destruct e as [e|].
    + assert ((enqueue_step (Wk i) (Some i) e w s
                 ≫= λ '(s1, e'), Some (set_worker i (WRun x ys e') s1)) = Some s')
        as H' by (by destruct ys).
      apply bind_Some in H' as ([s1 e'] & He & H'). injection H' as <-.
      destruct e as [y| | |]; try discriminate Hl; simpl in He.
      * injection He as <- <-. eexists. facts Hi.
      * apply bind_Some in He as (s2 & Hs2 & He). injection He as <- <-. unfold lock in Hs2.
        destruct (mutex s) eqn:Hm; [done|]. injection Hs2 as <-. eexists. facts Hi.
      * apply bind_Some in He as (s2 & Hs2 & He). injection He as <- <-.
        eexists. by eapply notify_facts.
    + destruct ys; injection H as <-; eexists; facts Hi.
  - destruct (take_global body i s) eqn:E; injection H as <-;
      [by eapply take_global_facts|by eapply begin_steal_facts].
  - unfold lock in H. destruct (mutex s) eqn:Hm; [done|]. injection H as <-. eexists. facts Hi.
  - injection H as <-. unfold empty_relaxed. repeat case_match; eexists; facts Hi.
  - injection H as <-. repeat case_match; eexists; facts Hi.
  - injection H as <-. eexists. facts Hi.
  - injection H as <-. unfold empty_relaxed. repeat case_match; eexists; facts Hi.
  - injection H as <-. repeat case_match; eexists; facts Hi.
  - done.
  - unfold lock in H. destruct (mutex s) eqn:Hm; [done|]. injection H as <-. eexists. facts Hi.
  - injection H as <-. eexists. facts Hi.
  - done.
Qed.

Lemma misread_facts s s' i pc :
  workers s !! i = Some pc → misread i s = Some s' → ∃ pc', worker_facts s s' i pc pc'.
Proof.
  clear body. intros Hi H. unfold misread in H. rewrite Hi in H. simpl in H.
  destruct pc; try done; apply bind_Some in H as (q & Hq & H); injection H as <-;
    destruct q; eexists; facts Hi.
Qed.

(** ** The invariant *)

(** Views point into the modification order, and know of [stop] only what is true. *)
Definition view_ok r (v : view) : Prop :=
  seen v < length (hist r) ∧ (knows_stop v = true → stop (rbase r) = true).

(** An external thread that has pushed will not miss the sleepers: when it is still to load
    [sleeping_workers], every value that it may read is positive. *)
Definition will_notify r : Prop :=
  ∃ j e v, externs (rbase r) !! j = Some (Some e) ∧ e_pending (Some e) = true ∧
    xviews r !! j = Some v ∧ (e = ELoad → positive (hist r) (seen v)).

Definition some_alert s : Prop := ∃ i pc, workers s !! i = Some pc ∧ alert pc = true.

Record RInv r : Prop := {
  rv_base : Inv (rbase r);
  rv_last : last (hist r) = Some (sleeping_workers (rbase r));
  rv_wlen : length (wviews r) = length (workers (rbase r));
  rv_xlen : length (xviews r) = length (externs (rbase r));
  rv_wviews : Forall (view_ok r) (wviews r);
  rv_xviews : Forall (view_ok r) (xviews r);
  rv_mview : view_ok r (mview r);
  rv_qview : view_ok r (qview r);
  rv_wait i pc v : workers (rbase r) !! i = Some pc → in_wait pc = true →
    wviews r !! i = Some v → positive (hist r) (seen v);
  rv_queue i pc : workers (rbase r) !! i = Some pc → in_wait pc = true → alert pc = false →
    positive (hist r) (seen (qview r));
  rv_wake : stop (rbase r) = false → tasks_ (global_queue (rbase r)) ≠ [] →
    some_alert (rbase r) ∨ will_notify r;
  rv_told : d_notified (dtor (rbase r)) = true → knows_stop (mview r) = true;
  rv_told_w i pc v : d_notified (dtor (rbase r)) = true → workers (rbase r) !! i = Some pc →
    w_holds pc = true → wviews r !! i = Some v → knows_stop v = true;
}.

(** ** Steps of workers *)

(** How worker [i], at [pc] and with view [v], moves the views. *)
Record worker_moves r r' (i : nat) pc (v v' : view) : Prop := {
  wm_view : wviews r !! i = Some v;
  wm_hist : hist r' = hist r ∧ writes_sleeping pc = false ∨
    hist r' = hist r ++ [sleeping_workers (rbase r')] ∧ writes_sleeping pc = true;
  wm_wviews : wviews r' = <[i:=v']> (wviews r);
  wm_xviews : xviews r' = xviews r;
  wm_seen : seen v ≤ seen v';
  wm_self : view_ok r' v';
  wm_knows : knows_stop v = true → knows_stop v' = true;
  wm_incr : pc = WIncr → seen v' = length (hist r);
  wm_check : pc = WPredGlobal → seen v ≤ seen (qview r');
  wm_qseen : seen (qview r) ≤ seen (qview r');
  wm_qview : view_ok r' (qview r');
  wm_mview : view_ok r' (mview r');
  wm_mknows : knows_stop (mview r) = true → knows_stop (mview r') = true;
  wm_lock : mutex (rbase r) = None → is_Some (mutex (rbase r')) →
    knows_stop (mview r) = true → knows_stop v' = true;
}.

Section worker_step.
Context (r r' : rpool T) (i : nat) (pc pc' : worker_pc T) (v v' : view).
Hypothesis HR : RInv r.
Hypothesis HI' : Inv (rbase r').
Hypothesis Hi : workers (rbase r) !! i = Some pc.
Hypothesis HF : worker_facts (rbase r) (rbase r') i pc pc'.
Hypothesis HM : worker_moves r r' i pc v v'.

(** A worker inside the wait keeps the later values positive. *)
Lemma worker_keeps_positive k p n :
  workers (rbase r') !! k = Some p → in_wait p = true →
  positive (hist r) n → positive (hist r') n.
Proof using HI' HM.
  intros Hk Hp Hn. destruct (wm_hist _ _ _ _ _ _ HM) as [[-> _]|[-> _]]; [done|].
  apply positive_snoc; [done|]. rewrite (iv_sleep _ HI').
  pose proof (countb_pos _ _ _ _ Hk Hp). lia.
Qed.

(** A worker of the new state is the one that moved, or looks as before. *)
Lemma worker_cases k p u :
  workers (rbase r') !! k = Some p → wviews r' !! k = Some u →
  k = i ∧ p = pc' ∧ u = v' ∨
  wviews r !! k = Some u ∧ ∃ p0, workers (rbase r) !! k = Some p0 ∧ in_wait p0 = in_wait p ∧
    w_holds p0 = w_holds p ∧ (alert p = false → alert p0 = false).
Proof using HF HM.
  destruct HF as [Hself _ Hoth]. rewrite (wm_wviews _ _ _ _ _ _ HM). intros Hk.
  destruct (decide (k = i)) as [->|Hne].
  - rewrite list_lookup_insert_eq by (eapply lookup_lt_Some, (wm_view _ _ _ _ _ _ HM)). naive_solver.
  - rewrite list_lookup_insert_ne by done. intros Hu. right. split; [done|].
    destruct (Hoth k p Hne Hk) as [H|[H ->]]; eexists; (split; [exact H|done]).
Qed.

Lemma worker_view_lookup k p :
  workers (rbase r') !! k = Some p → is_Some (wviews r' !! k).
Proof using HR HF HM.
  intros Hk. apply lookup_lt_is_Some. rewrite (wm_wviews _ _ _ _ _ _ HM), length_insert, (rv_wlen r HR).
  rewrite <- (wf_len _ _ _ _ _ HF). by eapply lookup_lt_Some.
Qed.

Lemma worker_wait k p u :
  workers (rbase r') !! k = Some p → in_wait p = true → wviews r' !! k = Some u →
  positive (hist r') (seen u).
Proof using HR HI' Hi HF HM.
  intros Hk Hp Hu. destruct (worker_cases k p u Hk Hu) as [(-> & -> & ->)|(Hu0 & p0 & Hp0 & Ew & _)].
  - destruct (wf_wait _ _ _ _ _ HF Hp) as [Hpw|Hpi].
    + eapply worker_keeps_positive; [done..|]. eapply positive_mono; [|apply (wm_seen _ _ _ _ _ _ HM)].
      by eapply (rv_wait r HR), (wm_view _ _ _ _ _ _ HM).
    + rewrite (wm_incr _ _ _ _ _ _ HM Hpi).
      destruct (wm_hist _ _ _ _ _ _ HM) as [[_ Hws]|[-> _]]; [by subst|]. apply positive_end.
      rewrite (iv_sleep _ HI'). pose proof (countb_pos _ _ _ _ Hk Hp). lia.
  - eapply worker_keeps_positive; [done..|]. eapply (rv_wait r HR); [done| |done]. by rewrite Ew.
Qed.

Lemma worker_queue k p :
  workers (rbase r') !! k = Some p → in_wait p = true → alert p = false →
  positive (hist r') (seen (qview r')).
Proof using HR HI' Hi HF HM.
  intros Hk Hp Ha. eapply worker_keeps_positive; [done..|].
  destruct (worker_view_lookup k p Hk) as [u Hu].
  destruct (worker_cases k p u Hk Hu) as [(-> & -> & ->)|(_ & p0 & Hp0 & Ew & _ & Ea)].
  - destruct (wf_checked _ _ _ _ _ HF Hp Ha) as [Hna|Hpc].
    + eapply positive_mono; [|apply (wm_qseen _ _ _ _ _ _ HM)].
      eapply (rv_queue r HR); [exact Hi| |done]. destruct (wf_wait _ _ _ _ _ HF Hp) as [?|E]; [done|].
      by rewrite E in Hna.
    + eapply positive_mono; [|by apply (wm_check _ _ _ _ _ _ HM)].
      eapply (rv_wait r HR); [exact Hi|by rewrite Hpc|apply (wm_view _ _ _ _ _ _ HM)].
  - eapply positive_mono; [|apply (wm_qseen _ _ _ _ _ _ HM)].
    eapply (rv_queue r HR); [done| |by apply Ea]. by rewrite Ew.
Qed.

Lemma worker_wake :
  stop (rbase r') = false → tasks_ (global_queue (rbase r')) ≠ [] →
  some_alert (rbase r') ∨ will_notify r'.
Proof using HR HI' Hi HF HM.
  rewrite (wf_stop _ _ _ _ _ HF). intros Hs Hg.
  destruct (alert pc') eqn:Ha'; [left; exists i, pc'; split; [apply (wf_self _ _ _ _ _ HF)|done]|].
  destruct (alert pc) eqn:Ha; [destruct (wf_alert _ _ _ _ _ HF Ha Ha'); [congruence|done]|].
  destruct (rv_wake r HR Hs (wf_global _ _ _ _ _ HF Hg)) as [(k & p & Hk & Hp)|(j & e & u & Hj & He & Hu & Hps)].
  - left. exists k, p. split; [|done]. apply (wf_keep _ _ _ _ _ HF); [|done..]. intros ->. congruence.
  - right. exists j, e, u. rewrite (wf_externs _ _ _ _ _ HF), (wm_xviews _ _ _ _ _ _ HM).
    split_and!; [done..|]. intros ->.
    destruct (wm_hist _ _ _ _ _ _ HM) as [[-> _]|[_ Hws]]; [by apply Hps|]. by destruct pc.
Qed.

Lemma worker_told k p u :
  d_notified (dtor (rbase r')) = true → workers (rbase r') !! k = Some p →
  w_holds p = true → wviews r' !! k = Some u → knows_stop u = true.
Proof using HR Hi HF HM.
  rewrite (wf_dtor _ _ _ _ _ HF). intros Hd Hk Hp Hu.
  destruct (worker_cases k p u Hk Hu) as [(-> & -> & ->)|(Hu0 & p0 & Hp0 & _ & Eh & _)].
  - destruct (wf_holds _ _ _ _ _ HF Hp) as [Hph|[Hm0 Hm1]].
    + apply (wm_knows _ _ _ _ _ _ HM). by eapply (rv_told_w r HR), (wm_view _ _ _ _ _ _ HM).
    + apply (wm_lock _ _ _ _ _ _ HM); [done..|]. by apply (rv_told r HR).
  - eapply (rv_told_w r HR); [done..| |done]. by rewrite Eh.
Qed.

Lemma rinv_worker : RInv r'.
Proof using HR HI' Hi HF HM.
  pose proof (wf_stop _ _ _ _ _ HF) as Hst.
  assert (∀ u, view_ok r u → view_ok r' u) as Hup.
  { intros u [H1 H2]. split; [|by rewrite Hst].
    destruct (wm_hist _ _ _ _ _ _ HM) as [[-> _]|[-> _]]; rewrite ?length_app; simpl; lia. }
  split; eauto using worker_wait, worker_queue, worker_wake, worker_told, wm_qview, wm_mview.
  - destruct (wm_hist _ _ _ _ _ _ HM) as [[-> Hws]|[-> _]]; [|by rewrite last_snoc].
    by rewrite (wf_sleeping _ _ _ _ _ HF Hws), (rv_last r HR).
  - rewrite (wm_wviews _ _ _ _ _ _ HM), length_insert, (wf_len _ _ _ _ _ HF). apply (rv_wlen r HR).
  - rewrite (wm_xviews _ _ _ _ _ _ HM), (wf_externs _ _ _ _ _ HF). apply (rv_xlen r HR).
  - rewrite (wm_wviews _ _ _ _ _ _ HM). apply Forall_insert; [|apply (wm_self _ _ _ _ _ _ HM)].
    eapply Forall_impl; [exact (rv_wviews r HR)|done].
  - rewrite (wm_xviews _ _ _ _ _ _ HM). eapply Forall_impl; [exact (rv_xviews r HR)|done].
  - rewrite (wf_dtor _ _ _ _ _ HF). intros Hd. by apply (wm_mknows _ _ _ _ _ _ HM), (rv_told r HR).
Qed.

End worker_step.

Lemma view_ok_wview r i v : RInv r → wviews r !! i = Some v → view_ok r v.
Proof. intros HR Hv. by apply (Forall_lookup_1 _ _ _ _ (rv_wviews r HR) Hv). Qed.

Lemma view_ok_join r v w : view_ok r v → view_ok r w → view_ok r (join v w).
Proof.
  intros [H1 H2] [H3 H4]. split; simpl; [lia|]. intros [?|?]%orb_true_iff; auto.
Qed.

Lemma view_ok_stop r r' v :
  length (hist r) ≤ length (hist r') → stop (rbase r') = stop (rbase r) → view_ok r v → view_ok r' v.
Proof. intros Hl Hs [H1 H2]. split; [lia|by rewrite Hs]. Qed.

Lemma queue_sync_ok r b v qv v' qv' :
  queue_sync b v qv = (v', qv') → view_ok r v → view_ok r qv →
  view_ok r v' ∧ view_ok r qv' ∧ seen v ≤ seen v' ∧ seen qv ≤ seen qv' ∧
  (knows_stop v = true → knows_stop v' = true) ∧ (b = true → seen v ≤ seen qv').
Proof.
  unfold queue_sync. destruct b; intros [= <- <-] H1 H2; [|by split_and!].
  split_and!; try by apply view_ok_join.
  all: simpl; first [lia|by intros ->].
Qed.

Lemma mutex_sync_ok r m m' v mv v' mv' :
  mutex_sync m m' v mv = (v', mv') → view_ok r v → view_ok r mv →
  view_ok r v' ∧ view_ok r mv' ∧ seen v ≤ seen v' ∧
  (knows_stop v = true → knows_stop v' = true) ∧ (knows_stop mv = true → knows_stop mv' = true) ∧
  (m = None → is_Some m' → knows_stop mv = true → knows_stop v' = true) ∧
  (seen mv ≤ seen v → seen v' = seen v).
Proof.
  unfold mutex_sync. intros H H1 H2.
  destruct m, m'; injection H as <- <-; split_and!; try by apply view_ok_join.
  all: simpl; rewrite ?orb_true_iff; first [done|lia|by intros ->|naive_solver].
Qed.

Lemma worker_views_moves r s' i pc v :
  RInv r → wviews r !! i = Some v → stop s' = stop (rbase r) →
  ∃ v', worker_moves r (worker_views i pc v s' r) i pc v v'.
Proof.
  intros HR Hv Hs. pose proof (view_ok_wview r i v HR Hv) as Hok.
  unfold worker_views. destruct (queue_sync _ _ _) as [v1 qv] eqn:E1.
  destruct (queue_sync_ok _ _ _ _ _ _ E1 Hok (rv_qview r HR)) as (Q1 & Q2 & Q3 & Q4 & Q5 & Q6).
  set (h := if writes_sleeping pc then hist r ++ [sleeping_workers s'] else hist r).
  set (v2 := if writes_sleeping pc then View (length (hist r)) (knows_stop v1) else v1).
  assert ((if writes_sleeping pc
    then (View (length (hist r)) (knows_stop v1), hist r ++ [sleeping_workers s'])
    else (v1, hist r)) = (v2, h)) as -> by (by unfold v2, h; destruct (writes_sleeping pc)).
  set (r1 := RPool s' h (wviews r) (xviews r) (mview r) qv).
  assert (∀ u, view_ok r u → view_ok r1 u) as Hup.
  { intros u. apply view_ok_stop; [|done]. simpl. unfold h.
    destruct (writes_sleeping pc); rewrite ?length_app; simpl; lia. }
  assert (view_ok r1 v2 ∧ seen v1 ≤ seen v2 ∧ knows_stop v2 = knows_stop v1) as (V1 & V2 & V3).
  { unfold v2. pose proof (Hup v1 Q1) as [V4 V5]. destruct Q1 as [Q1 _].
    unfold r1, h, view_ok in *. simpl in *.
    destruct (writes_sleeping pc); simpl; rewrite ?length_app in *; simpl in *; split_and!; lia || done. }
  destruct (mutex_sync _ _ _ _) as [v3 mv] eqn:E2. exists v3.
  destruct (mutex_sync_ok r1 _ _ _ _ _ _ E2 V1 (Hup _ (rv_mview r HR))) as (M1 & M2 & M3 & M4 & M5 & M6 & M7).
  split; simpl; try done; try lia.
  - unfold h. destruct (writes_sleeping pc); auto.
  - rewrite V3 in M4. auto.
  - intros ->. rewrite M7; [done|]. unfold v2. simpl. destruct (rv_mview r HR). lia.
  - intros ->. by apply Q6.
  - by apply Hup.
Qed.

Lemma rinv_worker_act r i pc v a s' :
  RInv r → workers (rbase r) !! i = Some pc → wviews r !! i = Some v →
  (∃ w, a = AWorker i w) ∨ a = AMisread i → is_load pc = false →
  pool_act body a (rbase r) = Some s' → RInv (worker_views i pc v s' r).
Proof.
  intros HR Hi Hv Ha Hl Hst. pose proof (inv_step body _ a s' (rv_base r HR) Hst) as HI'.
  assert (∃ pc', worker_facts (rbase r) s' i pc pc') as [pc' HF].
  { destruct Ha as [[w ->]| ->]; [by eapply worker_step_facts|by eapply misread_facts]. }
  destruct (worker_views_moves r s' i pc v HR Hv (wf_stop _ _ _ _ _ HF)) as [v' HM].
  assert (rbase (worker_views i pc v s' r) = s') as Eb.
  { unfold worker_views. by repeat case_match. }
  eapply (rinv_worker r _ i pc pc' v v'); by rewrite ?Eb.
Qed.

(** ** Loads by workers *)

Lemma rinv_sleep_load r r' i k : RInv r → rpool_act body (RSleepW i k) r = Some r' → RInv r'.
Proof.
  intros HR H. simpl in H. apply bind_Some in H as (pc & Hi & H). apply bind_Some in H as (v & Hv & H).
  apply bind_Some in H as (x & Hx & H). destruct pc as [| | |t ys [[]|]| | | | | | | | | | | | | |]; try done.
  destruct (decide _) as [Hk|]; [|done]. injection H as <-.
  pose proof (view_ok_wview r i v HR Hv) as [_ Hs]. pose proof (lookup_lt_Some _ _ _ Hx) as Hlt.
  set (pc' := WRun t ys (after_load x)).
  assert (w_holds pc' = false) as Hh by (unfold pc', after_load; by destruct (0 <? x)%Z).
  eapply (rinv_worker r _ i _ pc' v (View k (knows_stop v))); [done| |done| |].
  - eapply inv_worker; [exact (rv_base r HR)|exact Hi|].
    split; simpl; rewrite ?Hh; unfold mutex_move; try done; [by left|unfold b2z; simpl; lia].
  - eapply simple_facts; simpl; rewrite ?Hh; try done. simpl in Hh. by rewrite Hh.
  - split; simpl; try done; [by left|apply (rv_qview r HR)|apply (rv_mview r HR)|by intros ->; intros []].
Qed.

Lemma rinv_stop_load r r' i b : RInv r → rpool_act body (RStop i b) r = Some r' → RInv r'.
Proof.
  intros HR H. simpl in H. apply bind_Some in H as (pc & Hi & H). apply bind_Some in H as (v & Hv & H).
  destruct (if b then _ else _) eqn:Eb; [|done]. apply bind_Some in H as (s' & Hs' & H).
  pose proof (view_ok_wview r i v HR Hv) as [Hsn Hs].
  assert (w_holds pc = true → b = false → d_notified (dtor (rbase r)) = false) as Hdn.
  { intros Hh ->. destruct (d_notified _) eqn:Hd; [|done].
    by rewrite (rv_told_w r HR _ _ _ Hd Hi Hh Hv) in Eb. }
  pose proof (iv_own _ (rv_base r HR) _ _ Hi) as Hown.
  assert (Inv s' ∧ ∃ pc', worker_facts (rbase r) s' i pc pc') as [HI' [pc' HF]].
  { destruct pc; try done; simpl in *; injection Hs' as <-; destruct b;
      (split; [eapply inv_worker; [exact (rv_base r HR)|exact Hi|effect]|eexists; facts Hi]). }
  set (v0 := View (seen v) (knows_stop v || b)) in H.
  assert (view_ok r v0) as Hv0.
  { split; simpl; [done|]. rewrite orb_true_iff. intros [?| ->]; [auto|done]. }
  destruct (mutex_sync _ _ _ _) as [v1 mv] eqn:E. injection H as <-.
  destruct (mutex_sync_ok r _ _ _ _ _ _ E Hv0 (rv_mview r HR)) as (M1 & M2 & M3 & M4 & M5 & M6 & _).
  assert (∀ u, view_ok r u → view_ok (RPool s' (hist r) (<[i:=v1]> (wviews r)) (xviews r) mv (qview r)) u) as Hup.
  { intros u. apply view_ok_stop; [done|]. apply (wf_stop _ _ _ _ _ HF). }
  eapply (rinv_worker r _ i pc pc' v v1); [done..|].
  split; simpl; try done; try by auto using rv_qview.
  - left. split; [done|]. by destruct pc.
  - intros Hkn. apply M4. simpl. by rewrite Hkn.
  - intros ->. done.
  - intros ->. done.
Qed.

(** ** Steps of the other threads *)

(** The workers change at most by being woken. *)
Definition only_wakes s s' : Prop :=
  length (workers s') = length (workers s) ∧
  ∀ k p, workers s' !! k = Some p →
    ∃ p0, workers s !! k = Some p0 ∧ in_wait p0 = in_wait p ∧ w_holds p0 = w_holds p ∧
      (alert p = false → alert p0 = false).

Lemma only_wakes_same s s' : workers s' = workers s → only_wakes s s'.
Proof. intros E. unfold only_wakes. rewrite E. split; [done|]. intros k p Hk. by exists p. Qed.

Lemma only_wakes_one s w s1 s' :
  notify_one w s = Some s1 → workers s' = workers s1 → only_wakes s s'.
Proof.
  intros Hn E. unfold notify_one in Hn. destruct (existsb _ _); [|injection Hn as <-; by apply only_wakes_same].
  destruct (workers s !! w) as [[]|] eqn:Hw; try discriminate Hn. injection Hn as <-.
  unfold only_wakes. rewrite E. simpl. rewrite length_insert. split; [done|]. intros k p Hk.
  destruct (decide (k = w)) as [->|Hne].
  - rewrite list_lookup_insert_eq in Hk by (by eapply lookup_lt_Some). injection Hk as <-.
    exists WWait. done.
  - rewrite list_lookup_insert_ne in Hk by done. by exists p.
Qed.

Lemma rinv_other r s' xv mv qv :
  RInv r → Inv s' → only_wakes (rbase r) s' → sleeping_workers s' = sleeping_workers (rbase r) →
  (stop (rbase r) = true → stop s' = true) →
  let r' := RPool s' (hist r) (wviews r) xv mv qv in
  length xv = length (externs s') → Forall (view_ok r') xv → view_ok r' mv → view_ok r' qv →
  seen (qview r) ≤ seen qv →
  (stop s' = false → tasks_ (global_queue s') ≠ [] → some_alert s' ∨ will_notify r') →
  (d_notified (dtor s') = true → knows_stop mv = true) →
  (d_notified (dtor s') = true → d_notified (dtor (rbase r)) = true ∨
     ∀ i p, workers s' !! i = Some p → w_holds p = false) →
  RInv r'.
Proof.
  intros HR HI' [Hlen Hw] Hsl Hst r' Hxl Hxv Hmv Hqv Hqs Hwk Hmd Hdt.
  assert (∀ u, view_ok r u → view_ok r' u) as Hup by (intros u [H1 H2]; split; [done|by auto]).
  split; simpl; try done.
  - by rewrite Hsl, (rv_last r HR).
  - by rewrite Hlen, (rv_wlen r HR).
  - eapply Forall_impl; [exact (rv_wviews r HR)|done].
  - intros i p v Hi Hp Hv. destruct (Hw _ _ Hi) as (p0 & Hp0 & Ew & _).
    eapply (rv_wait r HR); [done| |done]. by rewrite Ew.
  - intros i p Hi Hp Ha. destruct (Hw _ _ Hi) as (p0 & Hp0 & Ew & _ & Ea).
    eapply positive_mono; [|exact Hqs]. eapply (rv_queue r HR); [done|by rewrite Ew|by apply Ea].
  - intros i p v Hd Hi Hp Hv. destruct (Hw _ _ Hi) as (p0 & Hp0 & _ & Eh & _).
    destruct (Hdt Hd) as [Hd0|Hno]; [|by rewrite (Hno _ _ Hi) in Hp].
    eapply (rv_told_w r HR); [done..| |done]. by rewrite Eh.
Qed.

(** A thread other than [j] that will notify still will after a step of [j]. *)
Lemma will_notify_other r s' j e' v' mv qv :
  externs s' = <[j:=e']> (externs (rbase r)) →
  (∃ k e v, k ≠ j ∧ externs (rbase r) !! k = Some (Some e) ∧ e_pending (Some e) = true ∧
    xviews r !! k = Some v ∧ (e = ELoad → positive (hist r) (seen v))) →
  will_notify (RPool s' (hist r) (wviews r) (<[j:=v']> (xviews r)) mv qv).
Proof.
  intros He (k & e & v & Hne & Hk & Hp & Hv & Hps). exists k, e, v. simpl.
  rewrite He, !list_lookup_insert_ne by done. done.
Qed.

(** Nobody alert: somebody blocks, or is about to, after having seen the queue empty. *)
Lemma nobody_alert s :
  Inv s → stop s = false → ¬ some_alert s →
  ∃ i pc, workers s !! i = Some pc ∧ in_wait pc = true ∧ alert pc = false.
Proof.
  intros HI Hs Hno. destruct (lookup_lt_is_Some_2 (workers s) 0 (iv_pos s HI)) as [pc Hpc].
  exists 0, pc. destruct (alert pc) eqn:Ha; [exfalso; apply Hno; by exists 0, pc|].
  split_and!; [done| |done]. destruct pc; try done. apply (iv_exit s HI) in Hpc. congruence.
Qed.

Lemma some_alert_dec s : some_alert s ∨ ¬ some_alert s.
Proof.
  destruct (existsb alert (workers s)) eqn:E.
  - left. apply existsb_exists in E as (pc & Hin%list_elem_of_In & Ha).
    apply list_elem_of_lookup in Hin as [i Hi]. by exists i, pc.
  - right. intros (i & pc & Hi & Ha). apply not_true_iff_false in E. apply E, existsb_exists.
    exists pc. split; [|done]. apply list_elem_of_In. by eapply list_elem_of_lookup_2.
Qed.

Lemma extern_alive s j e : Inv s → externs s !! j = Some (Some e) → stop s = false ∧ dtor s = DNone.
Proof.
  intros HI Hj. rewrite (iv_stop s HI). destruct (dtor s) eqn:E; [done|..];
    exfalso; pose proof (iv_ext s HI) as Hx; rewrite E in Hx;
    by pose proof (Forall_lookup_1 _ _ _ _ (Hx eq_refl) Hj).
Qed.

(** A notification leaves somebody alert. *)
Lemma notify_alerts s s1 j w :
  Inv s → stop s = false → mutex s = Some (Ext j) → notify_one w s = Some s1 → some_alert s1.
Proof.
  intros HI Hs Hm Hn. unfold notify_one in Hn. destruct (existsb is_waiting (workers s)) eqn:Hex.
  - destruct (workers s !! w) as [[]|] eqn:Hwk; try discriminate Hn. injection Hn as <-.
    exists w, WWoken. split; [|done]. apply list_lookup_insert_eq. by eapply lookup_lt_Some.
  - injection Hn as <-. destruct (some_alert_dec s) as [|Hno]; [done|].
    destruct (nobody_alert s HI Hs Hno) as (i & pc & Hi & _ & Ha).
    pose proof (notifier_sees s j i pc HI Hm Hs Hi Ha) as ->.
    exfalso. apply not_true_iff_false in Hex. apply Hex, existsb_exists.
    exists WWait. split; [|done]. apply list_elem_of_In. by eapply list_elem_of_lookup_2.
Qed.

Lemma extern_effect s s1 j w e e1 :
  Inv s → externs s !! j = Some (Some e) → e ≠ ELoad →
  enqueue_step (Ext j) None e w s = Some (s1, e1) →
  only_wakes s s1 ∧ externs s1 = externs s ∧ stop s1 = stop s ∧ dtor s1 = dtor s ∧
  sleeping_workers s1 = sleeping_workers s ∧
  (some_alert s1 ∨ e1 = Some ENotify ∨
   e1 = Some ELoad ∧ workers s1 = workers s ∧ ∃ x, e = EPush x).
Proof.
  intros HI Hj Hne He.
  destruct e as [x| | |]; simpl in He; [|done|apply bind_Some in He as (s2 & Hl & He)..].
  - injection He as <- <-. split_and!; try done; [by apply only_wakes_same|].
    right; right. by eauto.
  - injection He as <- <-. unfold lock in Hl. destruct (mutex s); [done|]. injection Hl as <-.
    split_and!; try done; [by apply only_wakes_same|auto].
  - injection He as <- <-. pose proof (proj1 (iv_mx_e _ HI _ _ Hj) eq_refl) as Hm.
    destruct (extern_alive _ _ _ HI Hj) as [Hs _].
    split; [by eapply only_wakes_one|]. split; [by apply notify_one_externs in Hl|].
    pose proof (notify_alerts _ _ _ _ HI Hs Hm Hl) as Ha. unfold notify_one in Hl.
    repeat case_match; simplify_eq; split_and!; try done; by left.
Qed.

Lemma rinv_extern_act r r' j w : RInv r → rpool_act body (RAct (AExtern j w)) r = Some r' → RInv r'.
Proof.
  intros HR H. simpl in H. apply bind_Some in H as (e & Hj & H). apply bind_Some in H as (v & Hv & H).
  destruct (externs (rbase r) !! j) as [[e'|]|] eqn:Hj'; try done. injection Hj as ->.
  pose proof (rv_base r HR) as HI. destruct (extern_alive _ _ _ HI Hj') as [Hs Hd].
  assert (∃ s', extern_step j w (rbase r) = Some s' ∧ r' = extern_views j e v s' r) as (s' & Hst & ->).
  { destruct e; try done; apply bind_Some in H as (s' & Hst & H); injection H as <-; eauto. }
  pose proof (inv_step body _ (AExtern j w) s' HI Hst) as HI'.
  pose proof (Forall_lookup_1 _ _ _ _ (rv_xviews r HR) Hv) as Hok.
  unfold extern_step in Hst. rewrite Hj' in Hst. apply bind_Some in Hst as ([s1 e1] & He & Hst).
  injection Hst as <-. unfold extern_views.
  destruct (queue_sync _ _ _) as [v1 qv] eqn:E1.
  destruct (queue_sync_ok r _ _ _ _ _ E1 Hok (rv_qview r HR)) as (Q1 & Q2 & Q3 & Q4 & _).
  destruct (mutex_sync _ _ _ _) as [v2 mv] eqn:E2.
  destruct (mutex_sync_ok r _ _ _ _ _ _ E2 Q1 (rv_mview r HR)) as (M1 & M2 & M3 & _).
  assert (e ≠ ELoad) as Hne by (by intros ->).
  destruct (extern_effect _ _ _ _ _ _ HI Hj' Hne He) as (Hw & Hx & Hst & Hdt & Hsl & Hwk).
  assert (∀ u, view_ok r u → view_ok (RPool (set_extern j e1 s1) (hist r) (wviews r) (<[j:=v2]> (xviews r)) mv qv) u) as Hup.
  { intros u. by apply view_ok_stop. }
  apply rinv_other; simpl; rewrite ?length_insert, ?Hx, ?Hdt, ?Hd; try done; try by apply Hup.
  - by intros; rewrite Hst.
  - apply (rv_xlen r HR).
  - apply Forall_insert; [|by apply Hup]. eapply Forall_impl; [exact (rv_xviews r HR)|done].
  - intros _ _. destruct (some_alert_dec s1) as [Ha|Ha]; [by left|]. right.
    pose proof (lookup_lt_Some _ _ _ Hj') as Hlt. pose proof (lookup_lt_Some _ _ _ Hv) as Hlv.
    destruct Hwk as [?|[->|(-> & Ew & x & ->)]]; [done|..].
    all: eexists j, _, v2; simpl; rewrite Hx, !list_lookup_insert_eq by done; split_and!; try done.
    intros _. assert (¬ some_alert (rbase r)) as Hna by (unfold some_alert in *; by rewrite <- Ew).
    destruct (nobody_alert _ HI Hs Hna) as (i & pc & Hi & Hp & Hal).
    eapply positive_mono; [by eapply (rv_queue r HR)|]. injection E1 as <- <-. simpl in *. lia.
Qed.

(** A stale load by an external thread: if nobody is alert, it is not the thread on which
    the wake-up depends, or it reads a positive value. *)
Lemma rinv_extern_load r r' j k : RInv r → rpool_act body (RSleepX j k) r = Some r' → RInv r'.
Proof.
  intros HR H. simpl in H. apply bind_Some in H as (e & Hj & H). apply bind_Some in H as (v & Hv & H).
  apply bind_Some in H as (x & Hx & H).
  destruct (externs (rbase r) !! j) as [[e'|]|] eqn:Hj'; try done. injection Hj as ->.
  destruct e; try done. destruct (decide _) as [Hk|]; [|done]. injection H as <-.
  pose proof (rv_base r HR) as HI. destruct (extern_alive _ _ _ HI Hj') as [Hs Hd].
  pose proof (lookup_lt_Some _ _ _ Hx) as Hlt.
  assert (tasks_ (global_queue (rbase r)) ≠ [] → some_alert (rbase r) ∨ after_load x = Some (ELock (T := T)) ∨
    ∃ k e u, k ≠ j ∧ externs (rbase r) !! k = Some (Some e) ∧ e_pending (Some e) = true ∧
      xviews r !! k = Some u ∧ (e = ELoad → positive (hist r) (seen u))) as Hcase.
  { intros Hg. destruct (rv_wake r HR Hs Hg) as [?|(k0 & e & u & Hk0 & He & Hu & Hps)]; [by left|].
    right. destruct (decide (k0 = j)) as [->|Hne]; [|right; by exists k0, e, u].
    left. simplify_eq. pose proof (positive_read _ _ _ _ (Hps eq_refl) Hk Hx).
    unfold after_load. by rewrite (proj2 (Z.ltb_lt _ _)) by lia. }
  apply rinv_other; simpl; rewrite ?length_insert, ?Hd; try done.
  - eapply inv_extern; [exact HI|exact Hj'|by rewrite Hd|done..| |]; simpl.
    + left. unfold after_load. by destruct (0 <? x)%Z.
    + intros Hg. destruct (Hcase Hg) as [?|[->|(k0 & e & u & Hne & Hk0 & He & _)]]; [by auto..|].
      right; right; right. by exists k0, (Some e).
  - by apply only_wakes_same.
  - apply (rv_xlen r HR).
  - apply Forall_insert; [|split; [done|]].
    + eapply Forall_impl; [exact (rv_xviews r HR)|]. done.
    + apply (Forall_lookup_1 _ _ _ _ (rv_xviews r HR) Hv).
  - apply (rv_mview r HR).
  - apply (rv_qview r HR).
  - intros _ Hg. destruct (Hcase Hg) as [?|[E|Ho]]; [by left| |right].
    + right. exists j, ELock, (View k (knows_stop v)). simpl. rewrite E.
      rewrite !list_lookup_insert_eq by (by eapply lookup_lt_Some). done.
    + by eapply will_notify_other.
Qed.

Lemma only_wakes_all s s' : workers s' = wake <$> workers s → only_wakes s s'.
Proof.
  intros E. unfold only_wakes. rewrite E, length_fmap. split; [done|]. intros k p.
  rewrite list_lookup_fmap. intros (p0 & Hp0 & ->)%fmap_Some. exists p0.
  destruct (wake_facts p0) as (-> & -> & _ & _ & Ha & _). split_and!; try done.
  intros Hf. destruct (alert p0); [|done]. by rewrite Ha in Hf.
Qed.

Lemma rinv_dtor r r' : RInv r → rpool_act body (RAct ADtor) r = Some r' → RInv r'.
Proof.
  intros HR H. simpl in H. apply bind_Some in H as (s' & Hst & H). injection H as <-.
  pose proof (rv_base r HR) as HI. pose proof (inv_step body _ ADtor s' HI Hst) as HI'.
  assert (only_wakes (rbase r) s' ∧ externs s' = externs (rbase r) ∧ stop s' = true ∧
    sleeping_workers s' = sleeping_workers (rbase r) ∧
    (d_notified (dtor s') = true → d_notified (dtor (rbase r)) = true ∨
       mutex (rbase r) = Some Dtor ∧ mutex s' = None)) as (Hw & Hx & Hs & Hsl & Hn).
  { pose proof (iv_stop _ HI) as Hs. unfold dtor_step in Hst. destruct (dtor (rbase r)) as [| | |k|] eqn:Hd.
    - destruct (forallb _ _); [|done]. injection Hst as <-. split_and!; try done. by apply only_wakes_same.
    - unfold lock in Hst. destruct (mutex _); [done|]. injection Hst as <-.
      split_and!; try done. by apply only_wakes_same.
    - injection Hst as <-. split_and!; try done; [by apply only_wakes_all|]. intros _. right.
      split; [|done]. apply (iv_mx_d _ HI). by rewrite Hd.
    - assert (∃ d, s' = set_dtor d (rbase r)) as [d ->].
      { destruct (workers (rbase r) !! k) as [[]|]; try done; injection Hst as <-; eauto. }
      split_and!; try done; [by apply only_wakes_same|by left].
    - done. }
  assert (∀ u, view_ok r u → seen u < length (hist r)) as Hup by (by intros u []).
  assert (0 < length (hist r)) as Hpos.
  { pose proof (rv_last r HR) as Hl. by destruct (hist r); [|simpl; lia]. }
  assert (seen (mutex_sync (mutex (rbase r)) (mutex s') (View 0 true) (mview r)).2 < length (hist r)) as Hmv.
  { pose proof (Hup _ (rv_mview r HR)). unfold mutex_sync. destruct (mutex _), (mutex s'); simpl; lia. }
  apply rinv_other; try done; rewrite ?Hx, ?Hs; try done.
  - apply (rv_xlen r HR).
  - eapply Forall_impl; [exact (rv_xviews r HR)|]. intros u Hu. split; [by apply Hup|done].
  - split; [by apply Hup, (rv_qview r HR)|done].
  - intros Hd. destruct (Hn Hd) as [Hd0|[-> ->]]; [|simpl; by rewrite orb_true_r].
    pose proof (rv_told r HR Hd0) as Hk. unfold mutex_sync.
    destruct (mutex _), (mutex s'); simpl; rewrite ?Hk; done.
  - intros Hd. destruct (Hn Hd) as [Hd0|[Hm Hm']]; [by left|right]. intros i p Hi.
    destruct (w_holds p) eqn:Hh; [|done]. apply (iv_mx_w _ HI' _ _ Hi) in Hh. congruence.
Qed.

(** ** The invariant holds throughout *)

(** A change of one worker that touches no view. *)
Lemma rinv_quiet r s' i pc pc' :
  RInv r → Inv s' → workers (rbase r) !! i = Some pc → writes_sleeping pc = false → pc ≠ WPredGlobal →
  mutex s' = mutex (rbase r) → worker_facts (rbase r) s' i pc pc' → RInv (set_rbase s' r).
Proof.
  intros HR HI' Hi Hw Hp Hm HF.
  destruct (lookup_lt_is_Some_2 (wviews r) i) as [v Hv].
  { rewrite (rv_wlen r HR). by eapply lookup_lt_Some. }
  assert (∀ u, view_ok r u → view_ok (set_rbase s' r) u) as Hup.
  { intros u. apply view_ok_stop; [done|]. apply (wf_stop _ _ _ _ _ HF). }
  eapply (rinv_worker r _ i pc pc' v v); [done..|].
  split; simpl; try done.
  - by left.
  - by rewrite list_insert_id.
  - by apply Hup, (view_ok_wview r i).
  - by intros ->.
  - apply Hup, (rv_qview r HR).
  - apply Hup, (rv_mview r HR).
  - rewrite Hm. by intros ->; intros [].
Qed.

Lemma rinv_call r r' j x : RInv r → rpool_act body (RAct (ACall j x)) r = Some r' → RInv r'.
Proof.
  intros HR H. simpl in H. apply bind_Some in H as (s' & Hst & H). injection H as <-.
  pose proof (rv_base r HR) as HI. pose proof (inv_step body _ (ACall j x) s' HI Hst) as HI'.
  unfold call_enqueue in Hst. destruct (externs (rbase r) !! j) as [[e|]|] eqn:Hj; try done.
  destruct (dtor (rbase r)) eqn:Hd; try done. injection Hst as <-.
  apply rinv_other; simpl; rewrite ?length_insert, ?Hd; try done.
  - by apply only_wakes_same.
  - apply (rv_xlen r HR).
  - eapply Forall_impl; [exact (rv_xviews r HR)|done].
  - apply (rv_mview r HR).
  - apply (rv_qview r HR).
  - intros Hs Hg. destruct (rv_wake r HR Hs Hg) as [?|(k & e & u & Hk & He & Hu & Hps)]; [by left|right].
    exists k, e, u. simpl. rewrite list_lookup_insert_ne by congruence. done.
Qed.

Lemma rinv_step r a r' : RInv r → rpool_step body r a r' → RInv r'.
Proof.
  intros HR H. unfold rpool_step in H. pose proof (rv_base r HR) as HI.
  destruct a as [[i w|i|i|i|j x|j w|]|i k|j k|i b].
  1,3: simpl in H; apply bind_Some in H as (pc & Hi & H); apply bind_Some in H as (v & Hv & H);
    destruct (is_load pc) eqn:Hl; [done|]; apply bind_Some in H as (s' & Hst & H); injection H as <-.
  - eapply (rinv_worker_act r i pc v (AWorker i w)); [done..|left; by exists w|done|done].
  - eapply (rinv_worker_act r i pc v (AMisread i)); [done..|by right|done|done].
  - simpl in H. apply bind_Some in H as (s' & Hst & H). injection H as <-.
    pose proof (inv_step body _ (ALoseRace i) s' HI Hst) as HI'. unfold lose_race in Hst.
    destruct (workers (rbase r) !! i) as [pc|] eqn:Hi; [|done].
    destruct pc as [| |k [|j js]| | | | | | | | | | | | | | |]; try done. injection Hst as <-.
    eapply rinv_quiet; [done..|]. facts Hi.
  - simpl in H. apply bind_Some in H as (s' & Hst & H). injection H as <-.
    pose proof (inv_step body _ (ASpurious i) s' HI Hst) as HI'.
    destruct (workers (rbase r) !! i) as [[]|] eqn:Hi; try done. injection Hst as <-.
    eapply rinv_quiet; [done..|]. facts Hi.
  - by eapply rinv_call.
  - by eapply rinv_extern_act.
  - by eapply rinv_dtor.
  - by eapply rinv_sleep_load.
  - by eapply rinv_extern_load.
  - by eapply rinv_stop_load.
Qed.

Lemma rinv_init n m : RInv (new_rpool n m : rpool T).
Proof.
  pose proof (inv_init n m : Inv (new_pool n m : pool T)) as HI. split; simpl; rewrite ?length_replicate; try done.
  - apply Forall_replicate. split; simpl; [lia|done].
  - apply Forall_replicate. split; simpl; [lia|done].
  - split; simpl; [lia|done].
  - split; simpl; [lia|done].
  - by intros i pc v [-> _]%lookup_replicate.
  - by intros i pc [-> _]%lookup_replicate.
Qed.

(** ** Tasks and targets *)

Lemma set_mutex_id s : set_mutex (mutex s) s = s.
Proof. by destruct s. Qed.

Lemma base_step r a r' :
  rpool_step body r a r' →
  (∃ a', pool_step body (rbase r) a' (rbase r')) ∨
  (∃ i pc pc' m, workers (rbase r) !! i = Some pc ∧ w_hand pc' = w_hand pc ∧ not_steal pc' ∧
     rbase r' = set_worker i pc' (set_mutex m (rbase r))) ∨
  (∃ j e, externs (rbase r) !! j = Some (Some ELoad) ∧ e_hand e = [] ∧
     rbase r' = set_extern j e (rbase r)).
Proof.
  intros H. unfold rpool_step in H. destruct a as [a|i k|j k|i b]; simpl in H.
  - left. exists a. unfold pool_step. unfold worker_views, extern_views in H.
    destruct a; repeat (apply bind_Some in H as (? & ? & H)); repeat case_match; simplify_eq/=; try done;
    repeat (apply bind_Some in H as (? & ? & H)); repeat case_match; simplify_eq/=; done.
  - apply bind_Some in H as (pc & Hi & H). apply bind_Some in H as (v & Hv & H).
    apply bind_Some in H as (x & Hx & H).
    destruct pc as [| | |t ys [[]|]| | | | | | | | | | | | | |]; try done.
    destruct (decide _); [|done]. injection H as <-. right; left.
    exists i, (WRun t ys (Some ELoad)), (WRun t ys (after_load x)), (mutex (rbase r)).
    rewrite set_mutex_id. split_and!; [done| |done|done]. simpl. unfold after_load. by destruct (0 <? x)%Z.
  - apply bind_Some in H as (e & Hj & H). apply bind_Some in H as (v & Hv & H).
    apply bind_Some in H as (x & Hx & H). destruct (externs (rbase r) !! j) as [[e'|]|] eqn:Hj'; try done.
    injection Hj as ->. destruct e; try done. destruct (decide _); [|done]. injection H as <-.
    right; right. exists j, (after_load x). split_and!; [done| |done].
    unfold after_load. by destruct (0 <? x)%Z.
  - apply bind_Some in H as (pc & Hi & H). apply bind_Some in H as (v & Hv & H).
    destruct (if b then _ else _); [|done]. apply bind_Some in H as (s' & Hs' & H).
    destruct (mutex_sync _ _ _ _). injection H as <-. right; left. exists i, pc.
    destruct pc, b; try done; injection Hs' as <-; simpl;
      first [eexists _, (mutex (rbase r)); rewrite set_mutex_id; split_and!; [..|reflexivity]; done
            |eexists _, None; split_and!; [..|reflexivity]; done].
Qed.

Lemma relaxed_base r n m ls :
  runs (rpool_step body) (new_rpool n m) ls r →
  RInv r ∧ balanced (rbase r) ∧ targets_ok (rbase r).
Proof.
  apply (runs_invariant _ (λ r, RInv r ∧ balanced (rbase r) ∧ targets_ok (rbase r))).
  - split_and!; [apply rinv_init| |].
    + apply (balanced_runs body n m [] (new_pool n m)). constructor.
    + apply (targets_runs body n m [] (new_pool n m)). constructor.
  - intros u a u' (HR & Hb & Ht) Hst. split; [by eapply rinv_step|].
    destruct (base_step _ _ _ Hst) as [[a' Ha]|[(i & pc & pc' & mx & Hi & Hh & Hn & ->)|(j & e & Hj & He & ->)]].
    + split; [|by eapply targets_step]. by eapply balanced_step, Ha; [apply (rv_base u HR)|].
    + split; [eapply balanced_worker; [exact Hb|exact Hi|done..|]; unfold settled; simpl; rewrite Hh; solve_Permutation|].
      eapply targets_update; [exact Ht|done..|]. by destruct pc'.
    + split; [eapply balanced_extern; [exact Hb|exact Hj|done..|]; unfold settled; simpl; rewrite He; solve_Permutation|].
      exact Ht.
Qed.

(** ** Progress *)

Definition by_client (a : raction T) r : bool :=
  match a with
  | RAct (ACall _ _) | RAct (ASpurious _) => true
  | RAct ADtor => match dtor (rbase r) with DNone => true | _ => false end
  | _ => false
  end.

(** The newest value can always be read. *)
Lemma load_can_step r i pc v :
  workers (rbase r) !! i = Some pc → wviews r !! i = Some v → view_ok r v → is_load pc = true →
  (∃ k r', rpool_step body r (RSleepW i k) r') ∨ (∃ b r', rpool_step body r (RStop i b) r').
Proof.
  intros Hi Hv [Hs Hk] Hl. unfold rpool_step.
  destruct (lookup_lt_is_Some_2 (hist r) (pred (length (hist r)))) as [x Hx]; [lia|].
  assert ((if stop (rbase r) then stop (rbase r) else negb (knows_stop v)) = true) as Hst.
  { destruct (stop (rbase r)); [done|]. by destruct (knows_stop v); [by discriminate Hk|]. }
  destruct pc as [| | |t ys [[]|]| | | | | | | | | | | | | |]; try discriminate Hl.
  - left. exists (pred (length (hist r))). simpl. rewrite Hi, Hv, Hx. simpl.
    rewrite decide_True by lia. by eexists.
  - right. exists (stop (rbase r)). simpl. rewrite Hi, Hv. simpl. rewrite Hst. simpl.
    repeat case_match; by eexists.
  - right. exists (stop (rbase r)). simpl. rewrite Hi, Hv. simpl. rewrite Hst. simpl.
    repeat case_match; by eexists.
  - right. exists (stop (rbase r)). simpl. rewrite Hi, Hv. simpl. rewrite Hst. simpl.
    repeat case_match; by eexists.
Qed.

Lemma extern_can_step r j e v :
  externs (rbase r) !! j = Some (Some e) → xviews r !! j = Some v → view_ok r v →
  (e = ELock → mutex (rbase r) = None) →
  (∃ k r', rpool_step body r (RSleepX j k) r') ∨ (∃ w r', rpool_step body r (RAct (AExtern j w)) r').
Proof.
  intros Hj Hv [Hs _] Hm. unfold rpool_step.
  destruct (lookup_lt_is_Some_2 (hist r) (pred (length (hist r)))) as [x Hx]; [lia|].
  destruct (notify_one_total (rbase r)) as (w & s' & Hn).
  assert (e = ELoad ∨ e ≠ ELoad) as [->|Hne] by (destruct e; auto).
  - left. exists (pred (length (hist r))). simpl. rewrite Hj, Hv, Hx. simpl.
    rewrite decide_True by lia. by eexists.
  - right. exists w. cbn [rpool_act]. rewrite Hj, Hv. simpl. unfold extern_step. rewrite Hj.
    destruct e; simpl; [by eexists|done| |rewrite Hn; by eexists].
    unfold lock. rewrite Hm by done. by eexists.
Qed.

End proof.

(** ** An execution

    Task 7 runs on worker 0 while worker 1 goes to sleep; 7 enqueues 9 into the deque of
    worker 0, reads the old value 0 of [sleeping_workers] and notifies nobody. *)

Definition spawns (x : nat) : list nat := if decide (x = 7) then [9] else [].

(** Lets worker [i] make [k] steps that read the newest values. *)
Fixpoint newest (i k : nat) (r : rpool nat) : option (rpool nat) :=
  match k with
  | 0 => Some r
  | S k =>
      pc ← workers (rbase r) !! i;
      r' ← rpool_act spawns
             (match pc with
              | WRun _ _ (Some ELoad) => RSleepW i (pred (length (hist r)))
              | WStop | WLockedStop | WPredStop => RStop i (stop (rbase r))
              | _ => RAct (AWorker i 0)
              end) r;
      newest i k r'
  end.

Definition task_arrives : list (raction nat) :=
  [RAct (ACall 0 7); RAct (AExtern 0 0); RSleepX 0 0; RAct (AWorker 0 0); RAct (AWorker 0 0)].

Lemma newest_runs i k r r' : newest i k r = Some r' → ∃ ls, runs (rpool_step spawns) r ls r'.
Proof.
  revert r. induction k as [|k IH]; intros r; simpl.
  - intros [= ->]. exists []. constructor.
  - intros (pc & _ & (u & Hu & [ls Hr]%IH)%bind_Some)%bind_Some.
    eexists. eapply runs_trans; [apply runs_one; exact Hu|exact Hr].
Qed.

Definition missed_schedule (r : rpool nat) : option (rpool nat) :=
  r ← exec (rpool_act spawns) task_arrives r;
  r ← newest 1 113 r; r ← newest 0 2 r; rpool_act spawns (RSleepW 0 0) r.

Lemma missed_schedule_runs r r' : missed_schedule r = Some r' → ∃ ls, runs (rpool_step spawns) r ls r'.
Proof.
  unfold missed_schedule. generalize 113. intros k E.
  apply bind_Some in E as (r1 & H1 & E). apply bind_Some in E as (r2 & [l2 H2]%newest_runs & E).
  apply bind_Some in E as (r3 & [l3 H3]%newest_runs & E).
  apply (exec_runs _ (rpool_step spawns)) in H1; [|done].
  eexists. eapply runs_trans; [exact H1|]. eapply runs_trans; [exact H2|].
  eapply runs_trans; [exact H3|]. by apply runs_one.
Qed.

Definition missed_state : rpool nat := default (new_rpool 2 1) (missed_schedule (new_rpool 2 1)).

Lemma missed_runs : ∃ ls, runs (rpool_step spawns) (new_rpool 2 1) ls missed_state.
Proof. apply missed_schedule_runs. vm_compute. reflexivity. Qed.

(** The notification that a task enqueued by a task deserves can be missed: worker 1 is
    blocked although task 9 is queued, and nobody is going to wake it up. *)
Lemma local_notification_can_be_missed :
  ∃ ls r, runs (rpool_step spawns) (new_rpool 2 1) ls r ∧
    deques (rbase r) = [[9]; []] ∧ workers (rbase r) = [WRun 7 [] None; WWait] ∧
    externs (rbase r) = [None].
Proof.
  destruct missed_runs as [ls Hr]. exists ls, missed_state. split; [done|].
  split_and!; vm_compute; reflexivity.
Qed.
