(* ===== verification/PoolDeques.v ===== *)
(** * The thread pool on its own deques

    ThreadPool treats an operation of a deque as one step on a list.  Here the pool of
    src/src/thread_pool.cpp runs on the deques of ChaseLev: every worker is the owner of its
    deque and a thief of the others, [pop], [push] and [steal] are made one access at a
    time, [empty()] is two loads, and all of it interleaves.

    [pool_on_deques_refines] shows that every execution of this machine is an execution of
    ThreadPool, so that everything proved there holds for the pool on its real deques. *)

From S2P Require Import Prelude MachineInt CircularArray DequeSpec ChaseLev ChaseLevProof.
From S2P Require Import GlobalQueue Victims ThreadPool.
From stdpp Require Import options.
Import Atomic (label, InvPush, RetPush, InvPop, RetPop, InvSteal, RetSteal).

Section pool_deques.
Context {T : Type} (body : T → list T).

(** [base] is everything but the deques; its field [deques] only says how many there are.
    [probe] is the value of [bottom_] that a worker inside [empty()] has loaded. *)
Record cpool := CPool {
  base : pool T;
  cl : list (ChaseLev.state T);
  probe : list (option Z);
}.

Definition set_base (b : pool T) (c : cpool) : cpool := CPool b (cl c) (probe c).

Definition new_cpool (thread_count m : nat) : cpool :=
  let p := new_pool thread_count m in
  let n := length (deques p) in
  CPool p (replicate n (ChaseLev.init n)) (replicate n None).

(** An access to deque [j]. *)
Definition access (j : nat) (a : ChaseLev.action T) (c : cpool) :
    option (option (label T) * list (ChaseLev.state T)) :=
  d ← cl c !! j;
  '(l, d') ← act a d;
  Some (l, <[j:=d']> (cl c)).

(** The next access of worker [i] to its own deque, inside the call [call]. *)
Definition owner_access (i : nat) (call : ChaseLev.action T) (c : cpool) :
    option (option (label T) * list (ChaseLev.state T)) :=
  d ← cl c !! i;
  match ChaseLev.owner d with
  | O_Idle => access i call c
  | _ => access i Owner c
  end.

(** The next access of worker [i] to deque [j], inside [steal]. *)
Definition thief_access (i j : nat) (c : cpool) :
    option (option (label T) * list (ChaseLev.state T)) :=
  d ← cl c !! j;
  match ChaseLev.thieves d !! i with
  | Some T_Idle => access j (CallSteal i) c
  | _ => access j (Thief i) c
  end.

(** What the caller does with the result of [pop], [steal], [push], [empty]. *)
Definition got (i : nat) (r : option T) (otherwise : worker_pc T) (b : pool T) : pool T :=
  match r with
  | Some x => run_task body i x b
  | None => set_worker i otherwise b
  end.

Definition pop_returns (i : nat) (l : option (label T)) (b : pool T) : pool T :=
  match l with
  | Some (RetPop r) => got i r WGlobal b
  | _ => b
  end.

Definition steal_returns (i : nat) (k : steal_ctx) (js : list nat) (l : option (label T))
    (b : pool T) : pool T :=
  match l with
  | Some (RetSteal _ r) => got i r (WSteal k js) b
  | _ => b
  end.

Definition push_returns (i : nat) (x : T) (ys : list T) (l : option (label T)) (b : pool T) :
    pool T :=
  match l with
  | Some RetPush => set_worker i (WRun x ys (Some ELoad)) b
  | _ => b
  end.

Definition empty_returns (i : nat) (pc : worker_pc T) (e : bool) (b : pool T) : pool T :=
  match pc with
  | WLockedLocal k =>
      if e then set_worker i (WLockedLocal (S k)) b else set_worker i WPop (unlock b)
  | WPredLocal k =>
      if e then set_worker i (WPredLocal (S k)) b else set_worker i WDecr b
  | _ => b
  end.

(** [deques[k]->empty()] called by worker [i]: load [bottom_], load [top_], compare. *)
Definition empty_access (i k : nat) (pc : worker_pc T) (c : cpool) : option cpool :=
  d ← cl c !! k;
  match probe c !! i with
  | Some (Some b) =>
      Some (CPool (empty_returns i pc (b <=? ChaseLev.top d)%Z (base c)) (cl c)
              (<[i:=None]> (probe c)))
  | _ => Some (CPool (base c) (cl c) (<[i:=Some (ChaseLev.bottom d)]> (probe c)))
  end.

Definition cworker_step (i w : nat) (c : cpool) : option cpool :=
  pc ← workers (base c) !! i;
  match pc with
  | WPop =>
      '(l, ds) ← owner_access i CallPop c;
      Some (CPool (pop_returns i l (base c)) ds (probe c))
  | WRun x ys (Some (EPush y)) =>
      '(l, ds) ← owner_access i (CallPush y) c;
      Some (CPool (push_returns i x ys l (base c)) ds (probe c))
  | WSteal k (j :: js) =>
      '(l, ds) ← thief_access i j c;
      Some (CPool (steal_returns i k js l (base c)) ds (probe c))
  | WLockedLocal k | WPredLocal k =>
      if decide (k < length (cl c)) then empty_access i k pc c
      else b ← worker_step body i w (base c); Some (set_base b c)
  | _ => b ← worker_step body i w (base c); Some (set_base b c)
  end.

Definition cpool_act (a : ThreadPool.action T) (c : cpool) : option cpool :=
  match a with
  | AWorker i w => cworker_step i w c
  | ALoseRace _ | AMisread _ => None
  | a => b ← pool_act body a (base c); Some (set_base b c)
  end.

Definition cpool_step (c : cpool) (a : ThreadPool.action T) (c' : cpool) : Prop :=
  cpool_act a c = Some c'.

End pool_deques.
Arguments cpool : clear implicits.
