(* ===== verification/PoolDequesProof.v ===== *)
(** * The pool on its own deques is the pool

    The simulation from PoolDeques to ThreadPool.  A worker of ThreadPool makes the step of a
    deque operation when the operation takes effect on the atomic deque that the
    simulation of ChaseLevProof supplies; the accesses before and after are invisible to
    it.  A failed [steal] is [ALoseRace], an [empty()] that straddles another operation is
    [AMisread]. *)

From S2P Require Import Prelude MachineInt CircularArray DequeSpec ChaseLev ChaseLevProof.
From S2P Require Import GlobalQueue Victims ThreadPool ThreadPoolProof ThreadPoolTheorems PoolDeques.
From stdpp Require Import options.
Import Atomic (label, InvPush, RetPush, InvPop, RetPop, InvSteal, RetSteal).

(** ** What one thread does to the atomic deque *)

Section moves.
Context {T : Type}.
Implicit Types (c : ChaseLev.state T) (s : Atomic.state T).

(** The state of a thief is determined by its program counter. *)
Definition thief_abs (p : thief_pc T) : Atomic.thief_st T :=
  match p with
  | T_Idle => Atomic.TIdle
  | T_Ret r => Atomic.TStolen r
  | _ => Atomic.TStealing
  end.

Lemma sim_thief_abs c s : sim c s → Atomic.thieves s = thief_abs <$> ChaseLev.thieves c.
Proof.
  intros [_ _ _ _ Hth]. apply list_eq. intros i. rewrite list_lookup_fmap.
  destruct (ChaseLev.thieves c !! i) as [p|] eqn:Hi.
  - destruct (Forall2_lookup_l _ _ _ _ _ Hth Hi) as (sp & -> & Hp). simpl. f_equal.
    destruct p; simpl in *; naive_solver.
  - simpl. apply lookup_ge_None_2. rewrite <- (Forall2_length _ _ _ Hth).
    by apply lookup_ge_None_1.
Qed.

(** The owner alone, with the queue. *)
Inductive owner_move : list T → Atomic.owner_st T → option (label T) →
    list T → Atomic.owner_st T → Prop :=
| om_stutter q o : owner_move q o None q o
| om_inv_push q x : owner_move q Atomic.OIdle (Some (InvPush x)) q (Atomic.OPushing x)
| om_push q x : owner_move q (Atomic.OPushing x) None (q ++ [x]) Atomic.OPushed
| om_ret_push q : owner_move q Atomic.OPushed (Some RetPush) q Atomic.OIdle
| om_inv_pop q : owner_move q Atomic.OIdle (Some InvPop) q Atomic.OPopping
| om_pop q x : owner_move (q ++ [x]) Atomic.OPopping None q (Atomic.OPopped (Some x))
| om_pop_empty : owner_move [] Atomic.OPopping None [] (Atomic.OPopped None)
| om_ret_pop q r : owner_move q (Atomic.OPopped r) (Some (RetPop r)) q Atomic.OIdle.

Inductive thief_move (i : nat) : list T → Atomic.thief_st T → option (label T) →
    list T → Atomic.thief_st T → Prop :=
| tm_stutter q p : thief_move i q p None q p
| tm_inv q : thief_move i q Atomic.TIdle (Some (InvSteal i)) q Atomic.TStealing
| tm_steal x q : thief_move i (x :: q) Atomic.TStealing None q (Atomic.TStolen (Some x))
| tm_fail q : thief_move i q Atomic.TStealing None q (Atomic.TStolen None)
| tm_ret q r : thief_move i q (Atomic.TStolen r) (Some (RetSteal i r)) q Atomic.TIdle.

Lemma insert_changes {A} (l : list A) i x y : l !! i = Some x → <[i:=y]> l = l → x = y.
Proof.
  intros Hi E. rewrite <- E in Hi. rewrite list_lookup_insert_eq in Hi; [congruence|].
  apply lookup_lt_Some in Hi. by rewrite length_insert in Hi.
Qed.

Lemma move_owner s l s' :
  move s l s' → Atomic.thieves s' = Atomic.thieves s →
  ∃ q o, s' = Atomic.State q o (Atomic.thieves s) ∧
    owner_move (Atomic.queue s) (Atomic.owner s) l q o.
Proof.
  intros [[-> ->]|Hst] Ht.
  { exists (Atomic.queue s), (Atomic.owner s). split; [by destruct s|constructor]. }
  destruct Hst as [s x Ho|s x Ho|s Ho|s Ho|s q x Ho Hq|s Ho Hq|s r Ho|s i Hi|s i x q Hi Hq|s i Hi|s i r Hi];
    simpl in Ht; try (apply (insert_changes _ _ _ _ Hi) in Ht; discriminate Ht);
    do 2 eexists; (split; [reflexivity|]); rewrite Ho, ?Hq; constructor.
Qed.

Lemma move_thief i s l s' :
  move s l s' → Atomic.owner s' = Atomic.owner s →
  (∀ j, j ≠ i → Atomic.thieves s' !! j = Atomic.thieves s !! j) →
  (l = None → i < length (Atomic.thieves s)) →
  ∃ q p p', Atomic.thieves s !! i = Some p ∧
    s' = Atomic.State q (Atomic.owner s) (<[i:=p']> (Atomic.thieves s)) ∧
    thief_move i (Atomic.queue s) p l q p'.
Proof.
  intros [[-> ->]|Hst] Ho Ht Hlt.
  { destruct (lookup_lt_is_Some_2 (Atomic.thieves s) i) as [p Hp]; [by apply Hlt|].
    exists (Atomic.queue s), p, p. split; [done|]. rewrite list_insert_id by done.
    split; [by destruct s|constructor]. }
  assert (∀ k p p', Atomic.thieves s !! k = Some p →
    (∀ j, j ≠ i → <[k:=p']> (Atomic.thieves s) !! j = Atomic.thieves s !! j) → p ≠ p' → k = i) as Hk.
  { intros k p p' Hp Hj Hne. destruct (decide (k = i)) as [|Hki]; [done|]. exfalso.
    apply Hne, (insert_changes (Atomic.thieves s) k); [done|]. apply list_eq. intros j.
    destruct (decide (j = i)) as [->|]; [by rewrite list_lookup_insert_ne|by apply Hj]. }
  destruct Hst as [s x E|s x E|s E|s E|s q x E Hq|s E Hq|s r E|s k Hi|s k x q Hi Hq|s k Hi|s k r Hi];
    simpl in *; try congruence;
    (assert (k = i) as -> by (by eapply Hk));
    do 3 eexists; (split; [exact Hi|]); (split; [reflexivity|]); rewrite ?Hq; constructor.
Qed.

(** Which fields an access changes. *)
Lemma owner_act_thieves a c l c' :
  act a c = Some (l, c') → (∀ i, a ≠ CallSteal i) → (∀ i, a ≠ Thief i) →
  ChaseLev.thieves c' = ChaseLev.thieves c.
Proof.
  intros H H1 H2. destruct a as [x| | |i|i]; simpl in H.
  - destruct (ChaseLev.owner c); by simplify_eq.
  - destruct (ChaseLev.owner c); by simplify_eq.
  - unfold push_step, pop_step, mbind, option_bind in H. repeat case_match; simplify_eq/=; done.
  - by destruct (H1 i).
  - by destruct (H2 i).
Qed.

Lemma owner_label c l c' :
  act Owner c = Some (l, c') → l = None ∨ l = Some RetPush ∨ ∃ r, l = Some (RetPop r).
Proof.
  simpl. unfold push_step, pop_step, mbind, option_bind. intros H.
  repeat case_match; simplify_eq/=; eauto.
Qed.

Lemma thief_act_frame a i c l c' :
  act a c = Some (l, c') → a = CallSteal i ∨ a = Thief i →
  i < length (ChaseLev.thieves c) ∧
  ChaseLev.owner c' = ChaseLev.owner c ∧ ChaseLev.bottom c' = ChaseLev.bottom c ∧
  ChaseLev.heap c' = ChaseLev.heap c ∧ ChaseLev.array c' = ChaseLev.array c ∧
  ∃ p, ChaseLev.thieves c' = <[i:=p]> (ChaseLev.thieves c).
Proof.
  intros H [->| ->]; simpl in H.
  - destruct (ChaseLev.thieves c !! i) as [[]|] eqn:Hi; simplify_eq.
    split; [by eapply lookup_lt_Some|]. simpl. eauto 10.
  - unfold steal_step in H. apply bind_Some in H as (p & Hi & H).
    split; [by eapply lookup_lt_Some|].
    unfold mbind, option_bind in H. repeat case_match; simplify_eq/=; eauto 10.
Qed.

(** The owner's state is determined too, given the array. *)
Lemma sim_owner_same c s c' s' :
  sim c s → sim c' s' → ChaseLev.owner c' = ChaseLev.owner c →
  ChaseLev.heap c' = ChaseLev.heap c → ChaseLev.array c' = ChaseLev.array c →
  Atomic.owner s' = Atomic.owner s.
Proof.
  intros [_ _ _ (cur & Hcur & _ & Ho) _] [_ _ _ (cur' & Hcur' & _ & Ho') _] Eo Eh Ea.
  rewrite Eh, Ea in Hcur'. simplify_eq. unfold owner_rel in *. rewrite Eo in Ho'.
  destruct (ChaseLev.owner c); try (destruct (_ =? 0)%Z); naive_solver congruence.
Qed.

Lemma owner_access_sim a c s l c' :
  sim c s → act a c = Some (l, c') → (∀ i, a ≠ CallSteal i) → (∀ i, a ≠ Thief i) →
  ∃ q o, sim c' (Atomic.State q o (Atomic.thieves s)) ∧
    owner_move (Atomic.queue s) (Atomic.owner s) l q o.
Proof.
  intros Hsim Ha H1 H2. destruct (sim_step _ _ _ _ Hsim (act_step _ _ _ _ Ha)) as (s' & Hm & Hsim').
  destruct (move_owner s l s' Hm) as (q & o & -> & Ho); [|by eauto].
  rewrite (sim_thief_abs _ _ Hsim), (sim_thief_abs _ _ Hsim').
  by rewrite (owner_act_thieves _ _ _ _ Ha H1 H2).
Qed.

Lemma thief_access_sim a i c s l c' :
  sim c s → act a c = Some (l, c') → a = CallSteal i ∨ a = Thief i →
  ∃ q p p', Atomic.thieves s !! i = Some p ∧
    sim c' (Atomic.State q (Atomic.owner s) (<[i:=p']> (Atomic.thieves s))) ∧
    thief_move i (Atomic.queue s) p l q p'.
Proof.
  intros Hsim Ha Hi. destruct (sim_step _ _ _ _ Hsim (act_step _ _ _ _ Ha)) as (s' & Hm & Hsim').
  destruct (thief_act_frame _ _ _ _ _ Ha Hi) as (Hlt & Eo & _ & Eh & Ea & p & Et).
  destruct (move_thief i s l s' Hm) as (q & p0 & p' & Hp & -> & Hmv); [| | |by eauto 10].
  - by eapply sim_owner_same.
  - intros j Hj. rewrite (sim_thief_abs _ _ Hsim), (sim_thief_abs _ _ Hsim'), Et.
    by rewrite list_fmap_insert, list_lookup_insert_ne.
  - intros _. by rewrite (sim_thief_abs _ _ Hsim), length_fmap.
Qed.

End moves.

Section proof.
Context {T : Type} (body : T → list T).
Implicit Types (c : cpool T) (ss : list (Atomic.state T)) (b : pool T).

(** ** The abstract pool

    [ss] are the atomic deques that the deques of [c] refine. *)

(** The abstract worker is past an operation as soon as the operation has taken effect. *)
Definition abs_pc (ss : list (Atomic.state T)) (i : nat) (pc : worker_pc T) : worker_pc T :=
  match pc with
  | WPop =>
      match Atomic.owner <$> ss !! i with
      | Some (Atomic.OPopped (Some x)) => WRun x (body x) None
      | Some (Atomic.OPopped None) => WGlobal
      | _ => pc
      end
  | WRun x ys (Some (EPush y)) =>
      match Atomic.owner <$> ss !! i with
      | Some Atomic.OPushed => WRun x ys (Some ELoad)
      | _ => pc
      end
  | WSteal k (j :: js) =>
      match ss !! j ≫= λ s, Atomic.thieves s !! i with
      | Some (Atomic.TStolen (Some x)) => WRun x (body x) None
      | Some (Atomic.TStolen None) => WSteal k js
      | _ => pc
      end
  | _ => pc
  end.

Definition project (ss : list (Atomic.state T)) (b : pool T) : pool T :=
  set_deques (Atomic.queue <$> ss) (set_workers (imap (abs_pc ss) (workers b)) b).

(** The state of the owner of a deque fits the program counter of the worker. *)
Definition owner_fits (pc : worker_pc T) (o : Atomic.owner_st T) : Prop :=
  match pc with
  | WPop => match o with Atomic.OPushing _ | Atomic.OPushed => False | _ => True end
  | WRun _ _ (Some (EPush y)) =>
      match o with
      | Atomic.OPushing x => x = y
      | Atomic.OIdle | Atomic.OPushed => True
      | _ => False
      end
  | _ => o = Atomic.OIdle
  end.

Definition steals_from (pc : worker_pc T) (j : nat) : Prop :=
  match pc with WSteal _ (j' :: _) => j' = j | _ => False end.

Record CInv (c : cpool T) (ss : list (Atomic.state T)) : Prop := {
  ci_sim : Forall2 sim (cl c) ss;
  ci_base : deques (base c) = replicate (length ss) [];
  ci_len : length (workers (base c)) = length ss;
  ci_owner : ∀ i pc s, workers (base c) !! i = Some pc → ss !! i = Some s →
    owner_fits pc (Atomic.owner s);
  ci_thief : ∀ i j pc s, workers (base c) !! i = Some pc → ss !! j = Some s →
    ¬ steals_from pc j → Atomic.thieves s !! i = Some Atomic.TIdle;
  ci_thieves : Forall (λ s, length (Atomic.thieves s) = length ss) ss;
}.

Lemma imap_insert {A B} (f : nat → A → B) (l : list A) i x :
  imap f (<[i:=x]> l) = <[i:=f i x]> (imap f l).
Proof.
  apply list_eq. intros j. rewrite list_lookup_imap.
  destruct (decide (i = j)) as [<-|Hne].
  - destruct (decide (i < length l)) as [Hlt|Hge].
    + rewrite !list_lookup_insert_eq by (by rewrite ?length_imap). done.
    + rewrite !list_insert_ge by (rewrite ?length_imap; lia). by rewrite list_lookup_imap.
  - rewrite !list_lookup_insert_ne by done. by rewrite list_lookup_imap.
Qed.

(** When the atomic deques change for the benefit of worker [i] only. *)
Definition only_for (i : nat) (ss ss' : list (Atomic.state T)) : Prop :=
  ∀ i' pc, i' ≠ i → abs_pc ss' i' pc = abs_pc ss i' pc.

Lemma project_update ss ss' b i pc :
  only_for i ss ss' →
  project ss' (set_worker i pc b) =
    set_deques (Atomic.queue <$> ss') (set_worker i (abs_pc ss' i pc) (project ss b)).
Proof.
  intros Hof. unfold project, set_worker, set_workers, set_deques. simpl. f_equal.
  rewrite imap_insert. apply list_eq. intros j. destruct (decide (i = j)) as [<-|Hne].
  - destruct (decide (i < length (workers b))) as [Hlt|Hge].
    + by rewrite !list_lookup_insert_eq by (by rewrite length_imap).
    + rewrite !list_insert_ge by (rewrite length_imap; lia).
      by rewrite !lookup_ge_None_2 by (rewrite length_imap; lia).
  - rewrite !list_lookup_insert_ne by done. rewrite !list_lookup_imap.
    destruct (workers b !! j); simpl; [|done]. f_equal. by apply Hof.
Qed.

Lemma project_stay ss ss' b i pc :
  only_for i ss ss' → workers b !! i = Some pc →
  project ss' b =
    set_deques (Atomic.queue <$> ss') (set_worker i (abs_pc ss' i pc) (project ss b)).
Proof.
  intros Hof Hi. rewrite <- (project_update ss ss' b i pc Hof). f_equal.
  unfold set_worker, set_workers. rewrite list_insert_id by done. by destruct b.
Qed.

Lemma project_lookup ss b i pc :
  workers b !! i = Some pc → workers (project ss b) !! i = Some (abs_pc ss i pc).
Proof. intros Hi. simpl. by rewrite list_lookup_imap, Hi. Qed.

Lemma only_for_owner ss i s q o :
  ss !! i = Some s → only_for i ss (<[i:=Atomic.State q o (Atomic.thieves s)]> ss).
Proof.
  intros Hs i' pc Hne. unfold abs_pc. destruct pc as [| |k [|j js]|x ys [[]|]| | | | | | | | | | | | | |];
    try done; rewrite ?list_lookup_insert_ne by done; try done.
  destruct (decide (i = j)) as [<-|]; [|by rewrite list_lookup_insert_ne].
  rewrite list_lookup_insert_eq by (by eapply lookup_lt_Some). by rewrite Hs.
Qed.

Lemma only_for_thief ss i j s q p :
  ss !! j = Some s →
  only_for i ss (<[j:=Atomic.State q (Atomic.owner s) (<[i:=p]> (Atomic.thieves s))]> ss).
Proof.
  intros Hs i' pc Hne. unfold abs_pc.
  assert (Atomic.owner <$> <[j:=Atomic.State q (Atomic.owner s) (<[i:=p]> (Atomic.thieves s))]> ss !! i'
    = Atomic.owner <$> ss !! i') as E.
  { destruct (decide (j = i')) as [<-|]; [|by rewrite list_lookup_insert_ne].
    rewrite list_lookup_insert_eq by (by eapply lookup_lt_Some). by rewrite Hs. }
  destruct pc as [| |k [|j' js]|x ys [[]|]| | | | | | | | | | | | | |]; try done; rewrite ?E; try done.
  destruct (decide (j = j')) as [<-|]; [|by rewrite list_lookup_insert_ne].
  rewrite list_lookup_insert_eq by (by eapply lookup_lt_Some). rewrite Hs. simpl.
  by rewrite list_lookup_insert_ne.
Qed.

(** At these points a worker is inside an operation of a deque, or about to call one. *)
Definition at_deque (pc : worker_pc T) : bool :=
  match pc with
  | WPop | WSteal _ _ | WRun _ _ (Some (EPush _)) | WLockedLocal _ | WPredLocal _ => true
  | _ => false
  end.

(** Worker [i] was at [pc]: the abstract pool stands still or loses a race, or its worker [i],
    at [pc] too, makes a step. *)
Definition advances (i : nat) (pc : worker_pc T) (p p' : pool T) : Prop :=
  (at_deque pc = true ∧ (p' = p ∨ pool_step body p (ALoseRace i) p')) ∨
  (workers p !! i = Some pc ∧ ∃ a, (a = AMisread i ∨ ∃ w, a = AWorker i w) ∧ pool_step body p a p').

Lemma advances_stay i pc p : at_deque pc = true → advances i pc p p.
Proof. left. by auto. Qed.
Lemma advances_worker i pc p w p' :
  workers p !! i = Some pc → worker_step body i w p = Some p' → advances i pc p p'.
Proof. intros Hi H. right. split; [done|]. exists (AWorker i w). eauto. Qed.

(** ** Steps that do not touch a deque *)

Lemma project_set ss b i pc :
  abs_pc ss i pc = pc → project ss (set_worker i pc b) = set_worker i pc (project ss b).
Proof. intros E. rewrite (project_update ss ss) by done. by rewrite E. Qed.

(** Worker [i] is not inside an operation of a deque. *)
Definition settled_at (ss : list (Atomic.state T)) (i : nat) : Prop :=
  (∀ s, ss !! i = Some s → Atomic.owner s = Atomic.OIdle) ∧
  (∀ j s, ss !! j = Some s → Atomic.thieves s !! i = Some Atomic.TIdle).

Lemma settled_pc ss i pc : settled_at ss i → abs_pc ss i pc = pc.
Proof.
  intros [Ho Ht]. unfold abs_pc.
  destruct pc as [| |k [|j js]|x ys [[]|]| | | | | | | | | | | | | |]; try done.
  - destruct (ss !! i) as [s|] eqn:E; [|done]. simpl. by rewrite (Ho s).
  - destruct (ss !! j) as [s|] eqn:E; [|done]. simpl. by rewrite (Ht j s).
  - destruct (ss !! i) as [s|] eqn:E; [|done]. simpl. by rewrite (Ho s).
Qed.

(** No deque is touched by a worker at [pc]. *)
Definition no_deque (n : nat) (pc : worker_pc T) : Prop :=
  match pc with
  | WPop | WSteal _ (_ :: _) | WRun _ _ (Some (EPush _)) => False
  | WLockedLocal k | WPredLocal k => n ≤ k
  | _ => True
  end.

Lemma no_deque_settled c ss i pc :
  CInv c ss → workers (base c) !! i = Some pc → no_deque (length ss) pc → settled_at ss i.
Proof.
  intros [_ _ _ Ho Ht _] Hi Hn. split.
  - intros s Hs. specialize (Ho i pc s Hi Hs). unfold owner_fits in Ho.
    by destruct pc as [| |k [|]|? ? [[]|]| | | | | | | | | | | | | |].
  - intros j s Hs. apply (Ht i j pc s Hi Hs). intros Hst.
    by destruct pc as [| |k [|]|? ? [[]|]| | | | | | | | | | | | | |]; simpl in *.
Qed.

Lemma abs_waiting ss i pc : is_waiting (abs_pc ss i pc) = is_waiting pc.
Proof. unfold abs_pc. by destruct pc as [| |k [|]|? ? [[]|]| | | | | | | | | | | | | |]; repeat case_match. Qed.

Lemma existsb_imap {A B} (f : B → bool) (g : A → bool) (h : nat → A → B) (l : list A) :
  (∀ i x, f (h i x) = g x) → existsb f (imap h l) = existsb g l.
Proof.
  revert h. induction l as [|x l IH]; intros h E; [done|]. rewrite imap_cons. simpl.
  rewrite E. f_equal. apply IH. intros i y. apply E.
Qed.

Lemma abs_fixed ss i pc pc' :
  abs_pc ss i pc = pc' → pc' = WWait ∨ pc' = WExit → pc = pc'.
Proof.
  unfold abs_pc. intros <- H. destruct pc as [| |k [|]|? ? [[]|]| | | | | | | | | | | | | |];
    try done; repeat case_match; naive_solver.
Qed.

Lemma notify_project ss b w b' :
  notify_one w b = Some b' → notify_one w (project ss b) = Some (project ss b').
Proof.
  unfold notify_one. simpl. rewrite (existsb_imap is_waiting is_waiting) by (apply abs_waiting).
  destruct (existsb is_waiting (workers b)); [|by intros [= ->]].
  rewrite list_lookup_imap. destruct (workers b !! w) as [pc|]; [|done].
  destruct pc; try done. simpl. intros [= <-]. by rewrite project_set.
Qed.

Lemma enqueue_project ss b me own e w b' e' :
  match e with EPush _ => own = None | _ => True end →
  enqueue_step me own e w b = Some (b', e') →
  enqueue_step me own e w (project ss b) = Some (project ss b', e').
Proof.
  intros Ho. unfold enqueue_step. destruct e; try subst own; simpl; try (by intros [= <- <-]).
  - unfold lock. simpl. destruct (mutex b); [done|]. by intros [= <- <-].
  - intros H. apply bind_Some in H as (b1 & Hn & [= <- <-]).
    by rewrite (notify_project _ _ _ _ Hn).
Qed.

Lemma base_worker_step c ss i w pc b' :
  CInv c ss → workers (base c) !! i = Some pc → no_deque (length ss) pc →
  worker_step body i w (base c) = Some b' →
  worker_step body i w (project ss (base c)) = Some (project ss b').
Proof.
  intros HI Hi Hn H. pose proof (no_deque_settled _ _ _ _ HI Hi Hn) as Hs.
  assert (∀ b pc', project ss (set_worker i pc' b) = set_worker i pc' (project ss b)) as Hset.
  { intros b pc'. by apply project_set, settled_pc. }
  assert (length (Atomic.queue <$> ss) = length (deques (base c))) as Hlen.
  { rewrite (ci_base _ _ HI), length_fmap, length_replicate. done. }
  unfold worker_step in *. rewrite (project_lookup _ _ _ _ Hi), settled_pc by done.
  rewrite Hi in H. cbn [mbind option_bind] in *.
  destruct pc as [| |k [|]|x ys [e|]| |spin| | | |k| | | |k| | | |]; try done.
  all: try solve [injection H as <-; simpl; repeat case_match; by rewrite Hset].
  2: assert (match e with EPush _ => Some i = None | _ => True end) as Hne
      by (by destruct e; simpl in Hn);
    destruct ys; apply bind_Some in H as ([b1 e'] & He & [= <-]);
    (rewrite (enqueue_project _ _ _ _ _ _ _ _ Hne He); simpl; by rewrite Hset).
  2: by destruct ys; injection H as <-; rewrite Hset.
  3,6: unfold lock in *; simpl in *; destruct (mutex (base c)); [done|]; injection H as <-;
    simpl; by rewrite Hset.
  3,4: rewrite (lookup_ge_None_2 (deques (base c)) k) in H
      by (rewrite (ci_base _ _ HI), length_replicate; done);
    rewrite (lookup_ge_None_2 (deques (project ss (base c))) k)
      by (simpl; rewrite length_fmap; done); injection H as <-; by rewrite Hset.
  all: unfold take_global in *; simpl in *;
    destruct (pop_nonblocking (global_queue (base c))) as [[x|] g]; injection H as <-;
    unfold run_task, begin_steal; [by rewrite Hset|]; simpl; rewrite Hlen;
    destruct (decide _); by rewrite Hset.
Qed.

(** Steps of other threads. *)
Lemma base_other_step c ss a b' :
  CInv c ss → pool_act body a (base c) = Some b' →
  match a with ASpurious _ | ACall _ _ | AExtern _ _ | ADtor => True | _ => False end →
  pool_act body a (project ss (base c)) = Some (project ss b').
Proof.
  intros HI H Ha. destruct a as [| | |i|j x|j w|]; try done; simpl in *.
  - rewrite list_lookup_imap. destruct (workers (base c) !! i) as [[]|]; try done. simpl.
    injection H as <-. by rewrite project_set.
  - unfold call_enqueue in *. simpl. destruct (externs (base c) !! j) as [[]|]; try done.
    destruct (dtor (base c)); try done. by injection H as <-.
  - unfold extern_step in *. simpl. destruct (externs (base c) !! j) as [[e|]|]; try done.
    apply bind_Some in H as ([b1 e'] & He & [= <-]).
    assert (match e with EPush _ => (None : option nat) = None | _ => True end) as Hne by (by destruct e).
    by rewrite (enqueue_project _ _ _ _ _ _ _ _ Hne He).
  - unfold dtor_step in *. simpl. destruct (dtor (base c)) as [| | |k|]; try done.
    + destruct (forallb is_idle (externs (base c))); [|done]. by injection H as <-.
    + unfold lock in *. simpl. destruct (mutex (base c)); [done|]. by injection H as <-.
    + injection H as <-. f_equal. unfold set_dtor, unlock, set_mutex, notify_all, project, set_workers, set_deques.
      simpl. f_equal.
      apply list_eq. intros i. rewrite !list_lookup_fmap, !list_lookup_imap, list_lookup_fmap.
      destruct (workers (base c) !! i) as [pc|]; [|done]. simpl. f_equal.
      by destruct pc as [| |? [|]|? ? [[]|]| | | | | | | | | | | | | |]; simpl; repeat case_match.
    + rewrite list_lookup_imap. destruct (workers (base c) !! k) as [pc|]; simpl; [|by injection H as <-].
      destruct pc; try done. by injection H as <-.
Qed.

(** ** The invariant *)

Lemma owner_fits_idle pc : owner_fits pc Atomic.OIdle.
Proof. by destruct pc as [| |? [|]|? ? [[]|]| | | | | | | | | | | | | |]. Qed.

(** A step of [base] changes the program counters of workers that are not inside an
    operation of a deque. *)
Definition base_frame (ss : list (Atomic.state T)) (b b' : pool T) : Prop :=
  deques b' = deques b ∧ length (workers b') = length (workers b) ∧
  ∀ k pc, workers b' !! k = Some pc → workers b !! k = Some pc ∨ settled_at ss k.

Lemma cinv_base c ss b' pr :
  CInv c ss → base_frame ss (base c) b' → CInv (CPool b' (cl c) pr) ss.
Proof.
  intros [Hs Hb Hl Ho Ht Hth] (Hd & Hw & Hk). split; simpl; [done|congruence|congruence| | |done].
  - intros i pc s Hi Hss. destruct (Hk i pc Hi) as [Hi'|[Hset _]]; [by eapply Ho|].
    rewrite (Hset s Hss). apply owner_fits_idle.
  - intros i j pc s Hi Hss Hn. destruct (Hk i pc Hi) as [Hi'|[_ Hset]]; [by eapply Ht|by eapply Hset].
Qed.

Lemma base_frame_one c ss i pc pc' b' :
  workers (base c) !! i = Some pc → settled_at ss i →
  deques b' = deques (base c) → workers b' = <[i:=pc']> (workers (base c)) →
  base_frame ss (base c) b'.
Proof.
  intros Hi Hs Hd Hw. split_and!; [done|by rewrite Hw, length_insert|].
  intros k pk. rewrite Hw. destruct (decide (i = k)) as [<-|]; [by right|].
  rewrite list_lookup_insert_ne by done. by left.
Qed.

Lemma notify_frame w (b b' : pool T) :
  notify_one w b = Some b' →
  deques b' = deques b ∧ length (workers b') = length (workers b) ∧
  ∀ k pc, workers b' !! k = Some pc → workers b !! k = Some pc ∨ workers b !! k = Some WWait.
Proof.
  unfold notify_one. destruct (existsb _ _); [|intros [= <-]; auto].
  destruct (workers b !! w) as [[]|] eqn:Hw; try done. intros [= <-]. simpl.
  split_and!; [done|apply length_insert|]. intros k pc. destruct (decide (w = k)) as [<-|];
    [by right|rewrite list_lookup_insert_ne by done; by left].
Qed.

Lemma enqueue_frame me own e w (b b' : pool T) e' :
  enqueue_step me own e w b = Some (b', e') → match e with EPush _ => own = None | _ => True end →
  deques b' = deques b ∧ length (workers b') = length (workers b) ∧
  ∀ k pc, workers b' !! k = Some pc → workers b !! k = Some pc ∨ workers b !! k = Some WWait.
Proof.
  unfold enqueue_step. intros H Ho. destruct e; try subst own; simpl in H.
  - injection H as <- <-. simpl. auto.
  - injection H as <- <-. auto.
  - unfold lock in H. destruct (mutex b); [done|]. injection H as <- <-. simpl. auto.
  - apply bind_Some in H as (b1 & Hn & [= <- <-]). apply notify_frame in Hn. done.
Qed.

(** The frame of a step of worker [i] on [base]. *)
Lemma worker_frame_of (b b' : pool T) i w pc n :
  workers b !! i = Some pc → no_deque n pc → length (deques b) ≤ n →
  worker_step body i w b = Some b' →
  deques b' = deques b ∧ length (workers b') = length (workers b) ∧
  ∀ k pk, workers b' !! k = Some pk → k = i ∨ workers b !! k = Some pk ∨ workers b !! k = Some WWait.
Proof.
  intros Hi Hn Hlen H. unfold worker_step in H. rewrite Hi in H. cbn [mbind option_bind] in H.
  assert (∀ (f : pool T) pc', deques f = deques b → workers f = workers b →
    deques (set_worker i pc' f) = deques b ∧ length (workers (set_worker i pc' f)) = length (workers b) ∧
    ∀ k pk, workers (set_worker i pc' f) !! k = Some pk →
      k = i ∨ workers b !! k = Some pk ∨ workers b !! k = Some WWait) as Hset.
  { intros f pc' Ed Ew. simpl. rewrite Ew. split_and!; [done|apply length_insert|].
    intros k pk. destruct (decide (i = k)) as [->|]; [by left|].
    rewrite list_lookup_insert_ne by done. auto. }
  destruct pc as [| |k [|]|x ys [e|]| |spin| | | |k| | | |k| | | |]; try done.
  3: assert (match e with EPush _ => Some i = None | _ => True end) as Hne
      by (by destruct e; simpl in Hn);
    assert (∃ b1 e', enqueue_step (Wk i) (Some i) e w b = Some (b1, e') ∧
      b' = set_worker i (WRun x ys e') b1) as (b1 & e' & He & ->)
      by (destruct ys; apply bind_Some in H as ([b1 e'] & He & [= <-]); eauto);
    destruct (enqueue_frame _ _ _ _ _ _ _ He Hne) as (Ed & El & Hk); simpl;
    rewrite length_insert; split_and!; [done..|]; intros k pk;
    (destruct (decide (i = k)) as [->|]; [by left|]); rewrite list_lookup_insert_ne by done; auto.
  3: by destruct ys; injection H as <-; apply Hset.
  all: unfold lock, take_global, begin_steal, run_task, mbind, option_bind in H;
    repeat case_match; simplify_eq; by apply Hset.
Qed.

Lemma waiting_settled c ss k :
  CInv c ss → workers (base c) !! k = Some WWait → settled_at ss k.
Proof. intros HI Hk. by eapply no_deque_settled. Qed.

(** What has to be shown of a step. *)
Definition refines (i : nat) (pc : worker_pc T) (c : cpool T) (ss : list (Atomic.state T))
    (c' : cpool T) : Prop :=
  ∃ ss', CInv c' ss' ∧ advances i pc (project ss (base c)) (project ss' (base c')).

Lemma refines_worker c ss i w pc b' :
  CInv c ss → workers (base c) !! i = Some pc → no_deque (length ss) pc →
  worker_step body i w (base c) = Some b' → refines i pc c ss (set_base b' c).
Proof.
  intros HI Hi Hn H. exists ss. split.
  - apply cinv_base; [done|].
    destruct (worker_frame_of (base c) b' i w pc (length ss)) as (Hd & Hl & Hk);
      [done..|by rewrite (ci_base _ _ HI), length_replicate|done|].
    split_and!; [done..|]. intros k pk Hpk. destruct (Hk k pk Hpk) as [->|[?|?]];
      [|by left|right; by eapply waiting_settled]. right. by eapply no_deque_settled.
  - eapply advances_worker; [|by eapply base_worker_step].
    rewrite (project_lookup _ _ _ _ Hi), settled_pc; [done|]. by eapply no_deque_settled.
Qed.

Lemma refines_other c ss a b' :
  CInv c ss → pool_act body a (base c) = Some b' →
  match a with ASpurious _ | ACall _ _ | AExtern _ _ | ADtor => True | _ => False end →
  CInv (set_base b' c) ss ∧ pool_step body (project ss (base c)) a (project ss b').
Proof.
  intros HI H Ha. split; [|by apply base_other_step].
  apply cinv_base; [done|]. destruct a as [| | |i|j x|j w|]; try done; simpl in H.
  - destruct (workers (base c) !! i) as [[]|] eqn:Hi; try done. injection H as <-.
    eapply base_frame_one; [done| |done..]. by eapply waiting_settled.
  - unfold call_enqueue in H. repeat case_match; simplify_eq. split_and!; auto.
  - unfold extern_step in H. destruct (externs (base c) !! j) as [[e|]|]; try done.
    apply bind_Some in H as ([b1 e'] & He & [= <-]).
    destruct (enqueue_frame _ _ _ _ _ _ _ He) as (Hd & Hl & Hk); [by destruct e|].
    split_and!; [done..|]. intros k pk Hpk. destruct (Hk k pk Hpk);
      [by left|right; by eapply waiting_settled].
  - unfold dtor_step, lock, mbind, option_bind in H.
    repeat case_match; simplify_eq/=; try (split_and!; simpl; by auto).
    split_and!; [done|simpl; by rewrite length_fmap|]. intros k pk. simpl. rewrite list_lookup_fmap.
    destruct (workers (base c) !! k) as [pc|] eqn:Hk; [|done]. simpl. intros [= <-].
    destruct pc; simpl; auto. right. by eapply waiting_settled.
Qed.

(** ** Accesses to deques *)

Lemma cl_spec c ss j d : CInv c ss → cl c !! j = Some d → ∃ s, ss !! j = Some s ∧ sim d s.
Proof. intros [Hs _ _ _ _ _] Hj. by destruct (Forall2_lookup_l _ _ _ _ _ Hs Hj) as (s & ? & ?); eauto. Qed.

Lemma cinv_owner c ss i pc pc' s d' q o b' pr :
  CInv c ss → workers (base c) !! i = Some pc → ss !! i = Some s → (∀ j, ¬ steals_from pc j) →
  sim d' (Atomic.State q o (Atomic.thieves s)) → owner_fits pc' o →
  workers b' = <[i:=pc']> (workers (base c)) → deques b' = deques (base c) →
  CInv (CPool b' (<[i:=d']> (cl c)) pr) (<[i:=Atomic.State q o (Atomic.thieves s)]> ss).
Proof.
  intros [Hs Hb Hl Ho Ht Hth] Hi Hss Hns Hsim Hfit Ew Ed.
  assert (i < length ss) as Hlt by (by eapply lookup_lt_Some).
  split; simpl; rewrite ?length_insert.
  - by apply Forall2_insert.
  - congruence.
  - by rewrite Ew, length_insert.
  - intros k pk sk. rewrite Ew. destruct (decide (i = k)) as [<-|].
    + rewrite !list_lookup_insert_eq by (done || lia). by intros [= <-] [= <-].
    + rewrite !list_lookup_insert_ne by done. by apply Ho.
  - intros k j pk sk Hk Hj Hn.
    assert (∃ s0, ss !! j = Some s0 ∧ Atomic.thieves sk = Atomic.thieves s0) as (s0 & Hs0 & ->).
    { destruct (decide (i = j)) as [<-|].
      - rewrite list_lookup_insert_eq in Hj by done. injection Hj as <-. eauto.
      - rewrite list_lookup_insert_ne in Hj by done. eauto. }
    rewrite Ew in Hk. destruct (decide (i = k)) as [<-|].
    + by eapply (Ht i j pc).
    + rewrite list_lookup_insert_ne in Hk by done. by eapply Ht.
  - apply Forall_insert; [done|]. simpl. by eapply Forall_lookup_1 in Hth.
Qed.

Lemma cinv_thief c ss i j pc pc' s d' q p b' pr :
  CInv c ss → workers (base c) !! i = Some pc → ss !! j = Some s → steals_from pc j →
  sim d' (Atomic.State q (Atomic.owner s) (<[i:=p]> (Atomic.thieves s))) →
  steals_from pc' j ∨ p = Atomic.TIdle →
  (∀ o, owner_fits pc o → owner_fits pc' o) →
  workers b' = <[i:=pc']> (workers (base c)) → deques b' = deques (base c) →
  CInv (CPool b' (<[j:=d']> (cl c)) pr)
    (<[j:=Atomic.State q (Atomic.owner s) (<[i:=p]> (Atomic.thieves s))]> ss).
Proof.
  intros [Hs Hb Hl Ho Ht Hth] Hi Hss Hst Hsim Hp Hfit Ew Ed.
  assert (j < length ss) as Hlt by (by eapply lookup_lt_Some).
  assert (i < length ss) as Hlt' by (rewrite <- Hl; by eapply lookup_lt_Some).
  assert (length (Atomic.thieves s) = length ss) as Hls by (by eapply Forall_lookup_1 in Hth).
  split; simpl; rewrite ?length_insert.
  - by apply Forall2_insert.
  - congruence.
  - by rewrite Ew, length_insert.
  - intros k pk sk Hk Hsk.
    assert (∃ s0, ss !! k = Some s0 ∧ Atomic.owner sk = Atomic.owner s0) as (s0 & Hs0 & ->).
    { destruct (decide (j = k)) as [<-|].
      - rewrite list_lookup_insert_eq in Hsk by done. injection Hsk as <-. eauto.
      - rewrite list_lookup_insert_ne in Hsk by done. eauto. }
    rewrite Ew in Hk. destruct (decide (i = k)) as [<-|].
    + rewrite list_lookup_insert_eq in Hk by lia. injection Hk as <-. apply Hfit. by eapply Ho.
    + rewrite list_lookup_insert_ne in Hk by done. by eapply Ho.
  - intros k m pk sk Hk Hm Hn. rewrite Ew in Hk. destruct (decide (i = k)) as [<-|Hik].
    + rewrite list_lookup_insert_eq in Hk by lia. injection Hk as <-.
      destruct (decide (j = m)) as [<-|Hjm].
      * rewrite list_lookup_insert_eq in Hm by done. injection Hm as <-. simpl.
        rewrite list_lookup_insert_eq by lia. by destruct Hp as [?| ->].
      * rewrite list_lookup_insert_ne in Hm by done. eapply (Ht i m pc); [done..|].
        intros Hs2. apply Hjm. destruct pc as [| |? [|]| | | | | | | | | | | | | | |]; try done; by simpl in *; simplify_eq.
    + rewrite list_lookup_insert_ne in Hk by done. destruct (decide (j = m)) as [<-|Hjm].
      * rewrite list_lookup_insert_eq in Hm by done. injection Hm as <-. simpl.
        rewrite list_lookup_insert_ne by done. by eapply Ht.
      * rewrite list_lookup_insert_ne in Hm by done. by eapply Ht.
  - apply Forall_insert; [done|]. simpl. by rewrite length_insert.
Qed.

Lemma set_worker_id (b : pool T) i pc : workers b !! i = Some pc → set_worker i pc b = b.
Proof. intros Hi. unfold set_worker, set_workers. rewrite list_insert_id by done. by destruct b. Qed.

Lemma advances_same ss ss' b i pc pc' :
  only_for i ss ss' → workers b !! i = Some pc → Atomic.queue <$> ss' = Atomic.queue <$> ss →
  abs_pc ss' i pc' = abs_pc ss i pc → at_deque pc = true →
  advances i pc (project ss b) (project ss' (set_worker i pc' b)).
Proof.
  intros Hof Hi Hq Ha Hat. left. split; [done|]. left. rewrite (project_update ss ss') by done. rewrite Hq, Ha.
  rewrite set_worker_id by (by apply project_lookup). done.
Qed.

Lemma advances_act ss ss' b i pc a :
  only_for i ss ss' → workers b !! i = Some pc →
  pool_act body a (project ss b) =
    Some (set_deques (Atomic.queue <$> ss') (set_worker i (abs_pc ss' i pc) (project ss b))) →
  at_deque pc = true → a = ALoseRace i ∨ workers (project ss b) !! i = Some pc ∧ a = AWorker i 0 →
  advances i pc (project ss b) (project ss' b).
Proof.
  intros Hof Hi Ha Hat Hact.
  assert (pool_step body (project ss b) a (project ss' b)) as Hst.
  { unfold pool_step. rewrite Ha. f_equal. by rewrite (project_stay ss ss' b i pc). }
  destruct Hact as [->|[Hpc ->]]; [left; by auto|]. by eapply advances_worker.
Qed.

Lemma queue_same (ss : list (Atomic.state T)) j s o th :
  ss !! j = Some s →
  Atomic.queue <$> <[j:=Atomic.State (Atomic.queue s) o th]> ss = Atomic.queue <$> ss.
Proof.
  intros Hs. rewrite list_fmap_insert. apply list_insert_id. by rewrite list_lookup_fmap, Hs.
Qed.

Lemma owner_access_inv i call c l ds :
  owner_access i call c = Some (l, ds) →
  ∃ d d' a, cl c !! i = Some d ∧ act a d = Some (l, d') ∧ ds = <[i:=d']> (cl c) ∧
    (a = call ∨ a = Owner).
Proof.
  unfold owner_access, access. intros H. apply bind_Some in H as (d & Hd & H). rewrite Hd in H.
  destruct (ChaseLev.owner d); apply bind_Some in H as (d0 & E & H); simplify_eq;
    apply bind_Some in H as ([l' d'] & Ha & H); simplify_eq; eauto 10.
Qed.

Lemma thief_access_inv i j c l ds :
  thief_access i j c = Some (l, ds) →
  ∃ d d' a, cl c !! j = Some d ∧ act a d = Some (l, d') ∧ ds = <[j:=d']> (cl c) ∧
    (a = CallSteal i ∨ a = Thief i).
Proof.
  unfold thief_access, access. intros H. apply bind_Some in H as (d & Hd & H). rewrite Hd in H.
  destruct (ChaseLev.thieves d !! i) as [[]|]; apply bind_Some in H as (d0 & E & H); simplify_eq;
    apply bind_Some in H as ([l' d'] & Ha & H); simplify_eq; eauto 10.
Qed.

(** The invariant after an access to the own deque. *)
Lemma refines_own c ss i pc pc' s d' q o :
  CInv c ss → workers (base c) !! i = Some pc → ss !! i = Some s → (∀ j, ¬ steals_from pc j) →
  sim d' (Atomic.State q o (Atomic.thieves s)) → owner_fits pc' o →
  advances i pc (project ss (base c))
    (project (<[i:=Atomic.State q o (Atomic.thieves s)]> ss) (set_worker i pc' (base c))) →
  refines i pc c ss (CPool (set_worker i pc' (base c)) (<[i:=d']> (cl c)) (probe c)).
Proof.
  intros HI Hi Hs Hns Hsim Hfit Hadv. eexists; split; [|exact Hadv].
  by eapply cinv_owner.
Qed.

(** An access to the own deque, with what it does to the atomic deque. *)
Lemma own_access_spec c ss i pc call l ds :
  CInv c ss → workers (base c) !! i = Some pc → owner_access i call c = Some (l, ds) →
  (∀ k, call ≠ CallSteal k) → (∀ k, call ≠ Thief k) → (∀ j, ¬ steals_from pc j) →
  at_deque pc = true →
  ∃ s q o,
    ss !! i = Some s ∧ owner_move (Atomic.queue s) (Atomic.owner s) l q o ∧
    let ss' := <[i:=Atomic.State q o (Atomic.thieves s)]> ss in
    ss' !! i = Some (Atomic.State q o (Atomic.thieves s)) ∧
    (∀ pc', owner_fits pc' o → q = Atomic.queue s → abs_pc ss' i pc' = abs_pc ss i pc →
       refines i pc c ss (CPool (set_worker i pc' (base c)) ds (probe c))) ∧
    (owner_fits pc o → workers (project ss (base c)) !! i = Some pc →
       worker_step body i 0 (project ss (base c)) =
         Some (set_deques (<[i:=q]> (Atomic.queue <$> ss))
                 (set_worker i (abs_pc ss' i pc) (project ss (base c)))) →
       refines i pc c ss (CPool (base c) ds (probe c))) ∧
    ((∃ d d', act call d = Some (l, d')) ∨ l = None ∨ l = Some RetPush ∨ ∃ r, l = Some (RetPop r)).
Proof.
  intros HI Hi H Hc1 Hc2 Hns Hat. apply owner_access_inv in H as (d & d' & a & Hd & Ha & -> & Hcall).
  destruct (cl_spec _ _ _ _ HI Hd) as (s & Hs & Hsim).
  destruct (owner_access_sim a d s l d') as (q & o & Hsim' & Hm); [done..| | |].
  1,2: by destruct Hcall; subst.
  pose proof (only_for_owner ss i s q o Hs) as Hof.
  exists s, q, o. split; [done|]. split; [done|]. cbv zeta. split_and!.
  - apply list_lookup_insert_eq. by eapply lookup_lt_Some.
  - intros pc' Hf -> Habs. eapply refines_own; try done. eapply advances_same; try done.
    by apply queue_same.
  - intros Hf Hpc Hw. rewrite <- (set_worker_id _ _ _ Hi) at 1. eapply refines_own; try done.
    rewrite set_worker_id by done. eapply (advances_act _ _ _ i _ (AWorker i 0)); [done..| |done|by right].
    rewrite list_fmap_insert. exact Hw.
  - destruct Hcall as [->| ->]; [left; eauto|right; by eapply owner_label].
Qed.

Lemma project_deque ss b j s :
  ss !! j = Some s → deques (project ss b) !! j = Some (Atomic.queue s).
Proof. intros Hs. simpl. by rewrite list_lookup_fmap, Hs. Qed.

Lemma abs_pop ss i s :
  ss !! i = Some s → abs_pc ss i WPop = match Atomic.owner s with
    | Atomic.OPopped (Some x) => WRun x (body x) None
    | Atomic.OPopped None => WGlobal
    | _ => WPop
    end.
Proof. intros Hs. unfold abs_pc. by rewrite Hs. Qed.

Lemma abs_push ss i s x ys y :
  ss !! i = Some s → abs_pc ss i (WRun x ys (Some (EPush y))) = match Atomic.owner s with
    | Atomic.OPushed => WRun x ys (Some ELoad)
    | _ => WRun x ys (Some (EPush y))
    end.
Proof. intros Hs. unfold abs_pc. by rewrite Hs. Qed.

Lemma abs_steal ss i k j js s p :
  ss !! j = Some s → Atomic.thieves s !! i = Some p →
  abs_pc ss i (WSteal k (j :: js)) = match p with
    | Atomic.TStolen (Some x) => WRun x (body x) None
    | Atomic.TStolen None => WSteal k js
    | _ => WSteal k (j :: js)
    end.
Proof. intros Hs Hp. unfold abs_pc. rewrite Hs. simpl. by rewrite Hp. Qed.

Lemma refines_pop c ss i l ds :
  CInv c ss → workers (base c) !! i = Some WPop → owner_access i CallPop c = Some (l, ds) →
  refines i WPop c ss (CPool (pop_returns body i l (base c)) ds (probe c)).
Proof.
  intros HI Hi H. destruct (own_access_spec _ _ _ _ _ _ _ HI Hi H)
    as (s & q & o & Hs & Hm & Hins & Hstay & Hdo & Hl); [done..|by intros j Hj|done|].
  assert (l = Some InvPop ∨ l = None ∨ l = Some RetPush ∨ ∃ r, l = Some (RetPop r)) as Hl'.
  { destruct Hl as [(d & d' & Ha)|Hl]; [|by right]. simpl in Ha. by repeat case_match; simplify_eq; left. }
  clear Hl. pose proof (ci_owner _ _ HI _ _ _ Hi Hs) as Hfit. simpl in Hfit.
  pose proof (project_lookup ss _ _ _ Hi) as Hpl. pose proof (project_deque ss (base c) _ _ Hs) as Hdq.
  rewrite (abs_pop _ _ _ Hs) in Hpl, Hstay. rewrite (abs_pop _ _ _ Hins) in Hdo.
  pose proof (abs_pop _ _ _ Hins) as Habs.
  unfold worker_step in Hdo. rewrite Hpl in Hdo. cbn [mbind option_bind] in Hdo.
  destruct Hm as [q1 o1|q1 x|q1 x|q1|q1|q1 x| |q1 r]; try done;
    try (destruct Hl' as [?|[?|[?|[? ?]]]]; congruence); simpl pop_returns.
  1,2: rewrite <- (set_worker_id _ _ _ Hi) at 1; by apply Hstay.
  - apply Hdo; [done..|]. rewrite Hdq. simpl. by rewrite ref_pop_snoc.
  - apply Hdo; [done..|]. rewrite Hdq. simpl. f_equal.
    rewrite list_insert_id by done. done.
  - destruct r as [x|]; by apply Hstay.
Qed.

Lemma refines_push c ss i x ys y l ds :
  CInv c ss → workers (base c) !! i = Some (WRun x ys (Some (EPush y))) →
  owner_access i (CallPush y) c = Some (l, ds) →
  refines i (WRun x ys (Some (EPush y))) c ss (CPool (push_returns i x ys l (base c)) ds (probe c)).
Proof.
  intros HI Hi H. destruct (own_access_spec _ _ _ _ _ _ _ HI Hi H)
    as (s & q & o & Hs & Hm & Hins & Hstay & Hdo & Hl); [done..|by intros j Hj|done|].
  assert (l = Some (InvPush y) ∨ l = None ∨ l = Some RetPush ∨ ∃ r, l = Some (RetPop r)) as Hl'.
  { destruct Hl as [(d & d' & Ha)|Hl]; [|by right]. simpl in Ha. by repeat case_match; simplify_eq; left. }
  clear Hl. pose proof (ci_owner _ _ HI _ _ _ Hi Hs) as Hfit. simpl in Hfit.
  pose proof (project_lookup ss _ _ _ Hi) as Hpl. pose proof (project_deque ss (base c) _ _ Hs) as Hdq.
  rewrite (abs_push _ _ _ _ _ _ Hs) in Hpl, Hstay. rewrite (abs_push _ _ _ _ _ _ Hins) in Hdo.
  pose proof (abs_push _ _ _ x ys y Hins) as Habs.
  unfold worker_step in Hdo. rewrite Hpl in Hdo. cbn [mbind option_bind] in Hdo.
  destruct Hm as [q1 o1|q1 z|q1 z|q1|q1|q1 z| |q1 r]; try done;
    try (destruct Hl' as [?|[?|[?|[? ?]]]]; congruence); simpl push_returns.
  1,2: rewrite <- (set_worker_id _ _ _ Hi) at 1; apply Hstay; try done.
  1: destruct Hl' as [[= ->]|[?|[?|[? ?]]]]; done.
  - subst z. apply Hdo; [done..|]. simpl.
    rewrite (alter_insert_lookup _ _ _ _ Hdq). by destruct ys.
  - by apply Hstay.
Qed.

(** An access to the deque of a victim, with what it does to the atomic deque. *)
Lemma victim_access_spec c ss i k j js l ds :
  CInv c ss → workers (base c) !! i = Some (WSteal k (j :: js)) →
  thief_access i j c = Some (l, ds) →
  ∃ s q p p', let s' := Atomic.State q (Atomic.owner s) (<[i:=p']> (Atomic.thieves s)) in
    let ss' := <[j:=s']> ss in
    ss !! j = Some s ∧ Atomic.thieves s !! i = Some p ∧
    thief_move i (Atomic.queue s) p l q p' ∧
    ss' !! j = Some s' ∧ Atomic.thieves s' !! i = Some p' ∧
    (∀ pc', steals_from pc' j ∨ p' = Atomic.TIdle → owner_fits pc' Atomic.OIdle →
       (∀ o, owner_fits (@WSteal T k (j :: js)) o → owner_fits pc' o) →
       q = Atomic.queue s → abs_pc ss' i pc' = abs_pc ss i (WSteal k (j :: js)) →
       refines i (WSteal k (j :: js)) c ss (CPool (set_worker i pc' (base c)) ds (probe c))) ∧
    (∀ e, e = ALoseRace i ∨ workers (project ss (base c)) !! i = Some (WSteal k (j :: js)) ∧ e = AWorker i 0 →
       pool_act body e (project ss (base c)) =
         Some (set_deques (<[j:=q]> (Atomic.queue <$> ss))
           (set_worker i (abs_pc ss' i (WSteal k (j :: js))) (project ss (base c)))) →
       refines i (WSteal k (j :: js)) c ss (CPool (base c) ds (probe c))).
Proof.
  intros HI Hi H. apply thief_access_inv in H as (d & d' & a & Hd & Ha & -> & Hcall).
  destruct (cl_spec _ _ _ _ HI Hd) as (s & Hs & Hsim).
  destruct (thief_access_sim a i d s l d') as (q & p & p' & Hp & Hsim' & Hm); [done..|].
  pose proof (only_for_thief ss i j s q p' Hs) as Hof.
  exists s, q, p, p'. cbv zeta. split_and!; [done..| | | |].
  - apply list_lookup_insert_eq. by eapply lookup_lt_Some.
  - apply list_lookup_insert_eq. by eapply lookup_lt_Some.
  - intros pc' H1 _ H2 Hq Habs. eexists. split; [by eapply cinv_thief|].
    eapply advances_same; try done. rewrite Hq. by apply queue_same.
  - intros e Hact He. eexists. split.
    + rewrite <- (set_worker_id _ _ _ Hi) at 1. eapply cinv_thief; try done. by left.
    + eapply (advances_act _ _ _ i _ e); [done..| |done|done]. by rewrite list_fmap_insert.
Qed.

Lemma refines_steal c ss i k j js l ds :
  CInv c ss → workers (base c) !! i = Some (WSteal k (j :: js)) →
  thief_access i j c = Some (l, ds) →
  refines i (WSteal k (j :: js)) c ss (CPool (steal_returns body i k js l (base c)) ds (probe c)).
Proof.
  intros HI Hi H. destruct (victim_access_spec _ _ _ _ _ _ _ _ HI Hi H)
    as (s & q & p & p' & Hs & Hp & Hm & Hins & Hp' & Hstay & Hdo).
  pose proof (project_lookup ss _ _ _ Hi) as Hpl. rewrite (abs_steal _ _ _ _ _ _ _ Hs Hp) in Hpl, Hstay.
  pose proof (project_deque ss (base c) _ _ Hs) as Hdq.
  pose proof (abs_steal _ i k j js _ _ Hins Hp') as Habs. rewrite Habs in Hdo.
  destruct Hm as [q1 p1|q1|x q1|q1|q1 r] eqn:Em; simpl steal_returns.
  1,2: rewrite <- (set_worker_id _ _ _ Hi) at 1; by apply Hstay; [left|..].
  - apply (Hdo (AWorker i 0)); [by right|]. cbn [pool_act]. unfold worker_step. rewrite Hpl.
    cbn [mbind option_bind]. by rewrite Hdq.
  - apply (Hdo (ALoseRace i)); [by left|]. cbn [pool_act]. unfold lose_race. rewrite Hpl.
    rewrite list_insert_id by done. done.
  - destruct r as [x|]; apply Hstay; try done; [by right..|]. unfold abs_pc.
    destruct js as [|j2 js]; [done|]. destruct (decide (j = j2)) as [<-|Hne].
    + rewrite Hins. simpl. simpl in Hp'. by rewrite Hp'.
    + rewrite list_lookup_insert_ne by done. destruct (ss !! j2) as [s2|] eqn:E2; [|done]. simpl.
      by rewrite (ci_thief _ _ HI i j2 _ s2 Hi E2 ltac:(naive_solver)).
Qed.

(** [empty()]: the load of [bottom_] is invisible; the answer is what the abstract pool
    reads, or a misreading. *)
Lemma refines_empty c ss i k pc c' :
  CInv c ss → workers (base c) !! i = Some pc → k < length ss →
  pc = WLockedLocal k ∨ pc = WPredLocal k →
  empty_access i k pc c = Some c' → refines i pc c ss c'.
Proof.
  intros HI Hi Hk Hpc H. unfold empty_access in H. apply bind_Some in H as (d & Hd & H).
  destruct (cl_spec _ _ _ _ HI Hd) as (s & Hs & _).
  pose proof (project_deque ss (base c) _ _ Hs) as Hdq.
  assert (settled_at ss i) as Hset.
  { split.
    - intros s' Hs'. pose proof (ci_owner _ _ HI _ _ _ Hi Hs') as Hf. by destruct Hpc as [-> | ->].
    - intros j s' Hs'. eapply (ci_thief _ _ HI); [done..|]. by destruct Hpc as [-> | ->]; intros Hst. }
  destruct (probe c !! i) as [[b|]|].
  2,3: injection H as <-; exists ss; split; [|apply advances_stay; by destruct Hpc as [-> | ->]];
    apply cinv_base; [done|by split_and!; auto].
  injection H as <-. set (e := (b <=? ChaseLev.top d)%Z).
  assert (∃ pc' b', empty_returns i pc e (base c) = set_worker i pc' b' ∧ deques b' = deques (base c) ∧
    workers b' = workers (base c)) as (pc' & b' & E & Ed & Ew).
  { destruct Hpc as [-> | ->]; destruct e; simpl; by eauto. }
  exists ss. split.
  - apply cinv_base; [done|]. eapply (base_frame_one c ss i pc pc'); [done..| |]; rewrite E; simpl; congruence.
  - right. simpl. pose proof (project_lookup ss _ _ _ Hi) as Hpl. rewrite settled_pc in Hpl by done.
    split; [exact Hpl|].
    assert (∀ b pc', project ss (set_worker i pc' b) = set_worker i pc' (project ss b)) as Hpset.
    { intros b0 pc0. by apply project_set, settled_pc. }
    exists (match Atomic.queue s with
            | [] => if e then AWorker i 0 else AMisread i
            | _ => if e then AMisread i else AWorker i 0
            end).
    split; [by destruct (Atomic.queue s), e; eauto|]. unfold pool_step.
    destruct Hpc as [-> | ->]; destruct e, (Atomic.queue s) as [|x q] eqn:Eq; simpl empty_returns;
      cbn [pool_act]; unfold worker_step, misread; rewrite Hpl; cbn [mbind option_bind];
      rewrite Hdq; cbn [mbind option_bind]; by rewrite Hpset.
Qed.

(** ** The simulation *)

Lemma cworker_step_refines c ss i w pc c' :
  CInv c ss → workers (base c) !! i = Some pc → cworker_step body i w c = Some c' →
  refines i pc c ss c'.
Proof.
  intros HI Hi H. unfold cworker_step in H. rewrite Hi in H. cbn [mbind option_bind] in H.
  assert (length (cl c) = length ss) as Hlen by (apply (Forall2_length _ _ _ (ci_sim _ _ HI))).
  assert (∀ w, no_deque (length ss) pc →
    (b ← worker_step body i w (base c); Some (set_base b c)) = Some c' → refines i pc c ss c') as Hbase.
  { intros w0 Hn H0. apply bind_Some in H0 as (b' & Hb & [= <-]). by eapply refines_worker. }
  destruct pc as [| |k [|j js]|x ys [[y| | |]|]| |spin| | | |k| | | |k| | | |];
    try (by eapply (Hbase w)).
  - apply bind_Some in H as ([l ds] & Hacc & [= <-]). by apply refines_pop.
  - apply bind_Some in H as ([l ds] & Hacc & [= <-]). by eapply refines_steal.
  - apply bind_Some in H as ([l ds] & Hacc & [= <-]). by eapply refines_push.
  - destruct (decide (k < length (cl c))); [|eapply (Hbase w); [simpl; lia|done]].
    eapply (refines_empty c ss i k); [done..|by rewrite <- Hlen|by left|done].
  - destruct (decide (k < length (cl c))); [|eapply (Hbase w); [simpl; lia|done]].
    eapply (refines_empty c ss i k); [done..|by rewrite <- Hlen|by right|done].
Qed.

Lemma cpool_step_refines c ss a c' :
  CInv c ss → cpool_step body c a c' →
  ∃ ss', CInv c' ss' ∧ (project ss' (base c') = project ss (base c) ∨
    ∃ a', pool_step body (project ss (base c)) a' (project ss' (base c'))).
Proof.
  intros HI H. unfold cpool_step in H.
  destruct a as [i w|i|i|i|j x|j w|]; cbn [cpool_act] in H; try done;
    [|apply bind_Some in H as (b' & Hb & [= <-]); exists ss;
      destruct (refines_other _ _ _ _ HI Hb I) as [? ?]; by eauto..].
  assert (∃ pc, workers (base c) !! i = Some pc) as [pc Hi].
  { unfold cworker_step in H. apply bind_Some in H as (pc & Hi & _). eauto. }
  destruct (cworker_step_refines _ _ _ _ _ _ HI Hi H) as (ss' & HI' & Hadv).
  exists ss'. split; [done|]. destruct Hadv as [[_ [?|?]]|(_ & a & _ & ?)]; eauto.
Qed.

Lemma cinv_init n m :
  CInv (new_cpool n m) (replicate (length (deques (new_pool n m : pool T)))
    (Atomic.init (length (deques (new_pool n m : pool T))))).
Proof.
  split; simpl; rewrite ?length_replicate.
  - generalize (worker_count n) as k. intros k.
    assert (∀ p, Forall2 sim (replicate p (ChaseLev.init k : ChaseLev.state T)) (replicate p (Atomic.init k))) as H;
      [|apply H]. induction p; simpl; constructor; [apply sim_init|done].
  - done.
  - done.
  - intros i pc s [-> _]%lookup_replicate [-> _]%lookup_replicate. done.
  - intros i j pc s [_ Hi]%lookup_replicate [-> _]%lookup_replicate _. simpl.
    by apply lookup_replicate_2.
  - apply Forall_replicate. simpl. by rewrite length_replicate.
Qed.

Lemma project_init n m :
  project (replicate (length (deques (new_pool n m : pool T)))
    (Atomic.init (length (deques (new_pool n m : pool T))))) (new_pool n m) = new_pool n m.
Proof.
  unfold project, new_pool, set_deques, set_workers; simpl. rewrite length_replicate.
  generalize (worker_count n) as k. intros k. f_equal.
  - by rewrite fmap_replicate.
  - apply list_eq. intros i. rewrite list_lookup_imap.
    destruct (replicate k WPop !! i) as [pc|] eqn:E; [|done]. apply lookup_replicate in E as [-> Hi].
    simpl. by rewrite lookup_replicate_2.
Qed.

Lemma cpool_runs n m ls c :
  runs (cpool_step body) (new_cpool n m) ls c →
  ∃ ss ls', CInv c ss ∧ runs (pool_step body) (new_pool n m) ls' (project ss (base c)).
Proof.
  intros Hr. remember (new_cpool n m) as c0 eqn:E0.
  induction Hr as [|c0 ls c a c' Hr IH Hst]; subst.
  - eexists _, []. split; [apply cinv_init|]. change (base (new_cpool n m)) with (new_pool n m : pool T). rewrite project_init. constructor.
  - destruct (IH eq_refl) as (ss & ls' & HI & Hr').
    destruct (cpool_step_refines _ _ _ _ HI Hst) as (ss' & HI' & [E|[a' Ha']]).
    + exists ss', ls'. split; [done|]. by rewrite E.
    + exists ss', (ls' ++ [a']). split; [done|]. by econstructor.
Qed.

(** ** Accesses are always possible *)

Lemma cpool_step_cl c a c' :
  cpool_step body c a c' →
  cl c' = cl c ∨ ∃ j d e l d', cl c !! j = Some d ∧ act e d = Some (l, d') ∧ cl c' = <[j:=d']> (cl c).
Proof.
  intros H. unfold cpool_step in H.
  destruct a as [i w|i|i|i|j x|j w|]; cbn [cpool_act] in H; try done;
    [|apply bind_Some in H as (b' & Hb & [= <-]); by left..].
  unfold cworker_step in H. apply bind_Some in H as (pc & Hi & H).
  assert (∀ w, (b ← worker_step body i w (base c); Some (set_base b c)) = Some c' → cl c' = cl c) as Hb.
  { intros w0 H0. by apply bind_Some in H0 as (b' & _ & [= <-]). }
  assert (∀ k, empty_access i k pc c = Some c' → cl c' = cl c) as He.
  { intros k H0. unfold empty_access in H0. apply bind_Some in H0 as (d & _ & H0).
    by destruct (probe c !! i) as [[]|]; injection H0 as <-. }
  destruct pc as [| |k [|j js]|x ys [[y| | |]|]| |spin| | | |k| | | |k| | | |];
    try (left; by eapply Hb); try (destruct (decide _); left; [by eapply He|by eapply Hb]);
    right; apply bind_Some in H as ([l ds] & Hacc & [= <-]).
  2: apply thief_access_inv in Hacc as (d & d' & a & Hd & Ha & -> & _); eauto 10.
  all: apply owner_access_inv in Hacc as (d & d' & a & Hd & Ha & -> & _); eauto 10.
Qed.

Lemma cl_bounded_step c ss a c' k :
  CInv c ss → cpool_step body c a c' → Forall (bnd (Z.of_nat k)) (cl c) →
  Forall (bnd (Z.of_nat (k + 1))) (cl c').
Proof.
  intros HI Hst Hb.
  assert (Forall (bnd (Z.of_nat (k + 1))) (cl c)) as Hm.
  { eapply Forall_impl; [exact Hb|]. intros d. apply bnd_mono. lia. }
  destruct (cpool_step_cl _ _ _ Hst) as [->|(j & d & b & l & d' & Hd & Ha & ->)]; [done|].
  apply Forall_insert; [done|]. destruct (cl_spec _ _ _ _ HI Hd) as (s & _ & Hsim).
  eapply bnd_mono; [|eapply bnd_step; [done| |by eapply act_step]];
    [|by eapply Forall_lookup_1 in Hb].
  assert (length (Atomic.pushed_of l) ≤ 1) by (by destruct l as [[]|]; simpl; lia). lia.
Qed.

Lemma cl_bounded_init n m : Forall (bnd 0) (cl (new_cpool n m : cpool T)).
Proof. simpl. apply Forall_replicate. split; simpl; [done|]. apply Forall_singleton. simpl. lia. Qed.

Lemma cl_bounded n m ls c :
  runs (cpool_step body) (new_cpool n m) ls c → Forall (bnd (Z.of_nat (length ls))) (cl c).
Proof.
  intros Hr. remember (new_cpool n m) as c0 eqn:E0.
  induction Hr as [|c0 ls c a c' Hr IH Hst]; subst; [apply cl_bounded_init|].
  destruct (cpool_runs _ _ _ _ Hr) as (ss & _ & HI & _). rewrite length_app; simpl.
  by eapply cl_bounded_step; [..|apply IH].
Qed.

(** A worker inside an operation of a deque. *)
Definition in_deque_op (n : nat) (pc : worker_pc T) : Prop :=
  match pc with
  | WPop | WRun _ _ (Some (EPush _)) | WSteal _ (_ :: _) => True
  | WLockedLocal k | WPredLocal k => k < n
  | _ => False
  end.

Lemma in_deque_progress c ss N i w pc :
  CInv c ss → Forall (bnd N) (cl c) → (N < 2^61)%Z → targets_ok (project ss (base c)) →
  workers (base c) !! i = Some pc → in_deque_op (length (cl c)) pc →
  ∃ c', cworker_step body i w c = Some c'.
Proof.
  intros HI Hb HN Hto Hi Hop. unfold cworker_step. rewrite Hi. cbn [mbind option_bind].
  assert (length (cl c) = length ss) as Hlen by (apply (Forall2_length _ _ _ (ci_sim _ _ HI))).
  assert (i < length (cl c)) as Hlt.
  { rewrite Hlen, <- (ci_len _ _ HI). by eapply lookup_lt_Some. }
  assert (∀ call, call = CallPop ∨ (∃ y, call = CallPush y) →
    ∃ l ds, owner_access i call c = Some (l, ds)) as Hown.
  { intros call Hcall. unfold owner_access, access.
    destruct (lookup_lt_is_Some_2 _ _ Hlt) as [d Hd]. rewrite Hd. cbn [mbind option_bind].
    destruct (cl_spec _ _ _ _ HI Hd) as (s & _ & Hsim). pose proof (Forall_lookup_1 _ _ _ _ Hb Hd) as Hbd.
    assert (ChaseLev.owner d = O_Idle ∨ ChaseLev.owner d ≠ O_Idle) as [Eo|Eo]
      by (destruct (ChaseLev.owner d); auto).
    - rewrite Eo. destruct Hcall as [->|[y ->]]; simpl; rewrite Eo; simpl; eauto.
    - destruct (owner_progress N d s Hsim Hbd HN Eo) as (l & d' & Ha & _).
      exists l, (<[i:=d']> (cl c)). rewrite Ha. by destruct (ChaseLev.owner d). }
  assert (∀ k, k < length (cl c) → ∃ c', empty_access i k pc c = Some c') as Hemp.
  { intros k Hk. unfold empty_access. destruct (lookup_lt_is_Some_2 _ _ Hk) as [d ->]. simpl.
    destruct (probe c !! i) as [[]|]; eauto. }
  destruct pc as [| |k [|j js]|x ys [[y| | |]|]| |spin| | | |k| | | |k| | | |]; try done; simpl in Hop.
  - destruct (Hown CallPop) as (l & ds & ->); [by left|]. simpl. eauto.
  - assert (∃ d, cl c !! j = Some d) as [d Hd].
    { apply lookup_lt_is_Some_2. destruct (ss !! j) as [s|] eqn:Es.
      - rewrite Hlen. by eapply lookup_lt_Some.
      - pose proof (project_lookup ss _ _ _ Hi) as Hpl. unfold abs_pc in Hpl. rewrite Es in Hpl.
        pose proof (Hto _ _ _ Hpl) as Hj. apply Forall_cons in Hj as [Hj _].
        simpl in Hj. rewrite length_fmap in Hj. lia. }
    destruct (cl_spec _ _ _ _ HI Hd) as (s & Hs & Hsim). pose proof (Forall_lookup_1 _ _ _ _ Hb Hd) as Hbd.
    unfold thief_access, access. rewrite Hd. cbn [mbind option_bind].
    destruct (lookup_lt_is_Some_2 (ChaseLev.thieves d) i) as [p Hp].
    { rewrite <- (length_fmap thief_abs), <- (sim_thief_abs _ _ Hsim).
      pose proof (Forall_lookup_1 _ _ _ _ (ci_thieves _ _ HI) Hs) as ->. by rewrite <- Hlen. }
    rewrite Hp. assert (p = T_Idle ∨ p ≠ T_Idle) as [->|Hne] by (destruct p; auto).
    + simpl. rewrite Hp. simpl. eauto.
    + destruct (steal_progress N d s i p Hsim Hbd HN Hp) as (l & d' & p' & Ha & _); [by destruct p|].
      destruct p; try done; simpl; rewrite Ha; simpl; eauto.
  - destruct (Hown (CallPush y)) as (l & ds & ->); [by eauto|]. simpl. eauto.
  - rewrite decide_True by done. by apply Hemp.
  - rewrite decide_True by done. by apply Hemp.
Qed.

(** A pool that sleeps has done its work. *)
Lemma asleep_on_deques c ss :
  CInv c ss → Inv (project ss (base c)) → balanced (project ss (base c)) → stop (base c) = false →
  Forall (λ pc, pc = WWait) (workers (base c)) → Forall (λ e, e = None) (externs (base c)) →
  executed (base c) ≡ₚ submitted (base c) ∧ tasks_ (global_queue (base c)) = [] ∧
  Forall (λ d, content d = []) (cl c).
Proof.
  intros HI HIp Hb Hs Hw He.
  assert (Forall (λ pc, pc = WWait) (workers (project ss (base c)))) as Hw'.
  { apply Forall_lookup. intros i pc. simpl. rewrite list_lookup_imap.
    destruct (workers (base c) !! i) as [pc0|] eqn:Hi; [|done]. intros [= <-].
    by rewrite (Forall_lookup_1 _ _ _ _ Hw Hi). }
  destruct (asleep_means_empty _ HIp Hs Hw' He) as [Hg Hd].
  split_and!; [by apply (asleep_means_done _ HIp Hb)|done|].
  apply Forall_lookup. intros j d Hj. destruct (cl_spec _ _ _ _ HI Hj) as (s & Hss & Hsim).
    assert (Atomic.queue s = []) as Hq.
    { apply (Forall_lookup_1 _ _ j _ Hd). by apply project_deque. }
    rewrite (sim_content d s Hsim); [done|].
    destruct (lookup_lt_is_Some_2 (workers (base c)) j) as [pc Hpc].
    { rewrite (ci_len _ _ HI). by eapply lookup_lt_Some. }
    pose proof (ci_owner _ _ HI _ _ _ Hpc Hss) as Hfit.
    rewrite (Forall_lookup_1 _ _ _ _ Hw Hpc) in Hfit. simpl in Hfit.
    destruct Hsim as [_ _ _ (cur & _ & _ & Ho) _]. rewrite Hfit in Ho. unfold owner_rel in Ho.
    destruct (ChaseLev.owner d); try (destruct (_ =? 0)%Z); naive_solver.
Qed.

(** ** Properties *)

(** (C14) The pool on its real deques refines the pool with atomic deques.  Whatever the
    interleaving of single accesses to the deques with everything else, the state of
    the pool is that of a run of the pool whose deque operations are atomic: the same
    tasks submitted and executed, the same global queue, flags, mutex, sleep counter and
    threads, the same program counters of workers that are not inside an operation of
    a deque, and the same contents of every deque whose owner is not inside one.  And
    no worker is ever stuck inside a deque: in a run of fewer than 2^61 steps its next
    access is defined. *)
Theorem pool_on_deques_refines n m ls c :
  runs (cpool_step body) (new_cpool n m) ls c →
  (∃ p ls', runs (pool_step body) (new_pool n m) ls' p ∧
     submitted p = submitted (base c) ∧ executed p = executed (base c) ∧
     global_queue p = global_queue (base c) ∧ stop p = stop (base c) ∧
     sleeping_workers p = sleeping_workers (base c) ∧ mutex p = mutex (base c) ∧
     externs p = externs (base c) ∧ dtor p = dtor (base c) ∧
     (∀ i pc, workers (base c) !! i = Some pc → ¬ in_deque_op (length (cl c)) pc →
        workers p !! i = Some pc) ∧
     (∀ j d, cl c !! j = Some d → ChaseLev.owner d = O_Idle → deques p !! j = Some (content d))) ∧
  (∀ i w pc, (Z.of_nat (length ls) < 2^61)%Z →
     workers (base c) !! i = Some pc → in_deque_op (length (cl c)) pc →
     ∃ c', cpool_step body c (AWorker i w) c').
Proof.
  intros Hr. destruct (cpool_runs _ _ _ _ Hr) as (ss & ls' & HI & Hr').
  assert (length (cl c) = length ss) as Hlen by (apply (Forall2_length _ _ _ (ci_sim _ _ HI))).
  split.
  - exists (project ss (base c)), ls'. split_and!; [done..| |].
    + intros i pc Hi Hn. rewrite (project_lookup _ _ _ _ Hi), settled_pc; [done|].
      eapply no_deque_settled; [done..|]. rewrite Hlen in Hn.
      destruct pc as [| |? [|]|? ? [[]|]| | | | | | | | | | | | | |]; simpl in *; try done; lia.
    + intros j d Hd Ho. destruct (cl_spec _ _ _ _ HI Hd) as (s & Hs & Hsim).
      rewrite (project_deque _ _ _ _ Hs). f_equal. symmetry. by apply sim_content.
  - intros i w pc Hn Hi Hop. eapply in_deque_progress; try done; [by eapply cl_bounded|].
    by eapply targets_runs.
Qed.

End proof.

(** ** An execution

    Two workers.  Task 7 arrives through the global queue and enqueues task 9 while it runs
    on worker 0; worker 1 is about to steal 9. *)

Definition demo_tasks (x : nat) : list nat := if decide (x = 7) then [9] else [].

Definition stolen_acts : list (ThreadPool.action nat) :=
  [ACall 0 7; AExtern 0 0; AExtern 0 0] ++ replicate 16 (AWorker 0 0) ++
  replicate 14 (AWorker 1 0).

Definition after (acts : list (ThreadPool.action nat)) : cpool nat :=
  default (new_cpool 2 1) (exec (cpool_act demo_tasks) acts (new_cpool 2 1)).

Lemma after_runs acts :
  is_Some (exec (cpool_act demo_tasks) acts (new_cpool 2 1)) →
  runs (cpool_step demo_tasks) (new_cpool 2 1) acts (after acts).
Proof.
  intros [c Hc]. unfold after. rewrite Hc.
  by apply (exec_runs (cpool_act demo_tasks)).
Qed.

Lemma pool_on_deques_refines_witness :
  workers (base (after stolen_acts)) !! 1 = Some (WSteal Main [0]) ∧
  ∃ c', cpool_step demo_tasks (after stolen_acts) (AWorker 1 0) c'.
Proof.
  split; [vm_compute; reflexivity|].
  apply (pool_on_deques_refines demo_tasks 2 1 stolen_acts (after stolen_acts))
    with (pc := WSteal Main [0]).
  - apply after_runs. by vm_compute; eexists.
  - reflexivity.
  - vm_compute. reflexivity.
  - vm_compute. done.
Defined.
