(* ===== verification/PoolWhole.v ===== *)
(** * The thread pool, one access at a time

    ThreadPool has atomic deques and sequentially consistent atomics; PoolDeques replaces the
    deques by those of ChaseLev, PoolRelaxed the loads of [sleeping_workers] and [stop] by loads
    that may be stale.  Here both come together: the pool of src/src/thread_pool.cpp in which a
    worker makes the accesses to the deques one by one and reads its own atomics as
    their memory orders allow. *)

From S2P Require Import Prelude MachineInt CircularArray DequeSpec ChaseLev GlobalQueue Victims.
From S2P Require Import ThreadPool PoolRelaxed PoolDeques.
From stdpp Require Import options.

Section whole.
Context {T : Type} (body : T → list T).

Record wpool := WPool {
  rp : rpool T;                        (** everything but the contents of the deques *)
  wcl : list (ChaseLev.state T);
  wprobe : list (option Z);
}.

(** The state that the accesses to the deques see. *)
Definition accesses (s : wpool) : cpool T := CPool (rbase (rp s)) (wcl s) (wprobe s).

Definition new_wpool (thread_count m : nat) : wpool :=
  let c := new_cpool thread_count m in
  WPool (new_rpool thread_count m) (cl c) (probe c).

Definition wpool_act (a : raction T) (s : wpool) : option wpool :=
  match a with
  | RAct (AWorker i w) =>
      pc ← workers (rbase (rp s)) !! i; v ← wviews (rp s) !! i;
      if is_load pc then None else
      c ← cworker_step body i w (accesses s);
      Some (WPool (worker_views i pc v (base c) (rp s)) (cl c) (probe c))
  | RAct (ALoseRace _) | RAct (AMisread _) => None
  | a => r ← rpool_act body a (rp s); Some (WPool r (wcl s) (wprobe s))
  end.

Definition wpool_step (s : wpool) (a : raction T) (s' : wpool) : Prop := wpool_act a s = Some s'.

End whole.
Arguments wpool : clear implicits.
