(* ===== verification/PoolWholeProof.v ===== *)
(** * What the pool guarantees, one access at a time

    Every execution of the machine of PoolWhole is one of the relaxed pool with atomic deques
    ([wpool_runs]), so that the guarantees of PoolRelaxedProof hold for it; and it does not
    get stuck. *)

From S2P Require Import Prelude MachineInt CircularArray DequeSpec ChaseLev ChaseLevProof.
From S2P Require Import GlobalQueue Victims ThreadPool ThreadPoolProof ThreadPoolTheorems.
From S2P Require Import PoolRelaxed PoolRelaxedProof PoolDeques PoolDequesProof PoolWhole.
From stdpp Require Import options.

Section proof.
Context {T : Type} (body : T → list T).
Implicit Types (s : wpool T) (ss : list (Atomic.state T)) (r : rpool T).

(** ** The relaxed pool behind a state *)

Definition abstract ss r : rpool T := set_rbase (project body ss (rbase r)) r.

Lemma quiet_views i pc v b r :
  at_deque pc = true → mutex b = mutex (rbase r) → wviews r !! i = Some v →
  worker_views i pc v b r = set_rbase b r.
Proof.
  intros Hat Hm Hv. unfold worker_views, queue_sync, mutex_sync, set_rbase. rewrite Hm.
  assert (locks_queue pc = false ∧ writes_sleeping pc = false) as [-> ->] by (by destruct pc).
  by destruct (mutex (rbase r)); rewrite list_insert_id.
Qed.

Lemma worker_views_abstract i pc v b ss ss' r :
  worker_views i pc v (project body ss' b) (abstract ss r) =
  abstract ss' (worker_views i pc v b r).
Proof.
  unfold worker_views, abstract, set_rbase. simpl.
  destruct (queue_sync _ _ _). destruct (if writes_sleeping pc then _ else _).
  by destruct (mutex_sync _ _ _ _).
Qed.

Lemma extern_views_abstract j e v b ss r :
  extern_views j e v (project body ss b) (abstract ss r) = abstract ss (extern_views j e v b r).
Proof.
  unfold extern_views, abstract, set_rbase. simpl.
  destruct (queue_sync _ _ _). by destruct (mutex_sync _ _ _ _).
Qed.

Definition follows s ss s' : Prop :=
  ∃ ss', CInv (accesses s') ss' ∧
    (abstract ss' (rp s') = abstract ss (rp s) ∨
     ∃ a, rpool_step body (abstract ss (rp s)) a (abstract ss' (rp s'))).

Lemma follows_worker s ss i w pc v c :
  CInv (accesses s) ss → workers (rbase (rp s)) !! i = Some pc → wviews (rp s) !! i = Some v →
  is_load pc = false → cworker_step body i w (accesses s) = Some c →
  follows s ss (WPool (worker_views i pc v (base c) (rp s)) (cl c) (probe c)).
Proof.
  intros HI Hi Hv Hl H. destruct (cworker_step_refines _ _ _ _ _ _ _ HI Hi H) as (ss' & HI' & Hadv).
  assert (rbase (worker_views i pc v (base c) (rp s)) = base c) as Eb.
  { unfold worker_views. by repeat case_match. }
  exists ss'. split; [unfold accesses; simpl; rewrite Eb; by destruct c|]. cbn [rp].
  destruct Hadv as [[Hat [E|E]]|(Hpc & a & Ha & E)].
  - left. assert (mutex (base c) = mutex (rbase (rp s))) as Hm by exact (f_equal mutex E).
    rewrite quiet_views by done. unfold abstract, set_rbase. simpl. simpl in E. by rewrite E.
  - right. exists (RAct (ALoseRace i)). unfold rpool_step. simpl. unfold pool_step in E. simpl in E.
    assert (mutex (base c) = mutex (rbase (rp s))) as Hm.
    { unfold lose_race in E. repeat case_match; try done. by injection E. }
    rewrite quiet_views by done. simpl. by rewrite E.
  - right. exists (RAct a). unfold rpool_step, pool_step in *.
    assert (rpool_act body (RAct a) (abstract ss (rp s)) =
      Some (worker_views i pc v (project body ss' (base c)) (abstract ss (rp s)))) as ->.
    { destruct Ha as [->|[w' ->]]; cbn [rpool_act]; simpl in Hpc |- *; rewrite Hpc, Hv; simpl;
        rewrite Hl; simpl in E |- *; by rewrite E. }
    by rewrite worker_views_abstract.
Qed.

Lemma follows_other s ss a r' :
  CInv (accesses s) ss → rpool_act body (RAct a) (rp s) = Some r' →
  match a with ASpurious _ | ACall _ _ | AExtern _ _ | ADtor => True | _ => False end →
  follows s ss (WPool r' (wcl s) (wprobe s)).
Proof.
  intros HI H Ha.
  assert (∃ b, pool_act body a (rbase (rp s)) = Some b ∧ rbase r' = b ∧
    (pool_act body a (rbase (abstract ss (rp s))) = Some (project body ss b) →
     rpool_act body (RAct a) (abstract ss (rp s)) = Some (abstract ss r'))) as (b & Hb & Er & Hact).
  { destruct a as [| | |i|j x|j w|]; try done.
    3: { cbn [rpool_act] in H |- *. apply bind_Some in H as (e & He & H). apply bind_Some in H as (v & Hv & H).
      assert (∃ b, pool_act body (AExtern j w) (rbase (rp s)) = Some b ∧ r' = extern_views j e v b (rp s) ∧ e ≠ ELoad)
        as (b & Hb & -> & Hne).
      { destruct e; try done; apply bind_Some in H as (b & Hb & [= <-]); eauto. }
      exists b. split_and!; [done|unfold extern_views; by repeat case_match|]. intros Hp.
      simpl in He |- *. rewrite He, Hv. simpl. rewrite <- extern_views_abstract.
      simpl in Hp. destruct e; try done; by rewrite Hp. }
    all: cbn [rpool_act] in H |- *; apply bind_Some in H as (b & Hb & [= <-]); exists b;
      (split_and!; [done|done|]); intros Hp; by rewrite Hp. }
  destruct (refines_other body _ _ _ _ HI Hb) as [HI' Hst]; [by destruct a|].
  exists ss. split; [|right; exists (RAct a); by apply Hact].
  unfold accesses. simpl. by rewrite Er.
Qed.

(** Loads by a worker happen outside the operations of the deques. *)
Lemma load_settled s ss i pc :
  CInv (accesses s) ss → workers (rbase (rp s)) !! i = Some pc → is_load pc = true → settled_at ss i.
Proof.
  intros HI Hi Hl. eapply no_deque_settled; [exact HI|exact Hi|].
  by destruct pc as [| |? [|]|? ? [[]|]| | | | | | | | | | | | | |].
Qed.

Lemma load_frame s ss i pc pc' b :
  CInv (accesses s) ss → workers (rbase (rp s)) !! i = Some pc → is_load pc = true →
  deques b = deques (rbase (rp s)) → workers b = <[i:=pc']> (workers (rbase (rp s))) →
  CInv (CPool b (wcl s) (wprobe s)) ss.
Proof.
  intros HI Hi Hl Hd Hw. apply (cinv_base (accesses s) ss b (wprobe s) HI).
  eapply (base_frame_one (accesses s)); [exact Hi|by eapply load_settled|done|done].
Qed.

Lemma follows_sleep_load s ss i k r' :
  CInv (accesses s) ss → rpool_act body (RSleepW i k) (rp s) = Some r' →
  follows s ss (WPool r' (wcl s) (wprobe s)).
Proof.
  intros HI H. simpl in H. apply bind_Some in H as (pc & Hi & H). apply bind_Some in H as (v & Hv & H).
  apply bind_Some in H as (x & Hx & H). destruct pc as [| | |t ys [[]|]| | | | | | | | | | | | | |]; try done.
  destruct (decide _) as [Hk|] eqn:Ed; [|done]. injection H as <-.
  pose proof (load_settled _ _ _ _ HI Hi eq_refl) as Hset. exists ss. split.
  - unfold accesses; simpl. eapply load_frame; [exact HI|exact Hi|done..].
  - right. exists (RSleepW i k). unfold rpool_step. simpl.
    rewrite list_lookup_imap, Hi. simpl. rewrite Hv, Hx. simpl. rewrite decide_True by done.
    unfold abstract, set_rbase. simpl. by rewrite project_set by (by apply settled_pc).
Qed.

Lemma follows_stop_load s ss i b r' :
  CInv (accesses s) ss → rpool_act body (RStop i b) (rp s) = Some r' →
  follows s ss (WPool r' (wcl s) (wprobe s)).
Proof.
  intros HI H. simpl in H. apply bind_Some in H as (pc & Hi & H). apply bind_Some in H as (v & Hv & H).
  destruct (if b then _ else _) eqn:Eb; [|done]. apply bind_Some in H as (b' & Hb' & H).
  destruct (mutex_sync _ _ _ _) as [v'' mv] eqn:Em. injection H as <-.
  assert (is_load pc = true) as Hl by (by destruct pc).
  pose proof (load_settled _ _ _ _ HI Hi Hl) as Hset.
  assert (∀ b0 pc', project body ss (set_worker i pc' b0) = set_worker i pc' (project body ss b0)) as Hpset.
  { intros b0 pc0. by apply project_set, settled_pc. }
  assert (after_stop i pc b (project body ss (rbase (rp s))) = Some (project body ss b') ∧
    mutex (project body ss b') = mutex b') as [Ha Hm].
  { split; [|done]. destruct pc; try done; destruct b; injection Hb' as <-; simpl; by rewrite Hpset. }
  exists ss. split.
  - assert (∃ pc', workers b' = <[i:=pc']> (workers (rbase (rp s))) ∧ deques b' = deques (rbase (rp s)))
      as (pc' & Hw & Hd).
    { destruct pc; try done; destruct b; injection Hb' as <-; simpl; by eauto. }
    unfold accesses; simpl. eapply load_frame; [exact HI|exact Hi|done..].
  - right. exists (RStop i b). unfold rpool_step. simpl.
    rewrite list_lookup_imap, Hi. simpl. rewrite settled_pc by done. rewrite Hv. simpl. rewrite Eb.
    rewrite Ha. cbn [mbind option_bind]. rewrite Hm, Em. done.
Qed.

Lemma follows_extern_load s ss j k r' :
  CInv (accesses s) ss → rpool_act body (RSleepX j k) (rp s) = Some r' →
  follows s ss (WPool r' (wcl s) (wprobe s)).
Proof.
  intros HI H. exists ss. split.
  - simpl in H. repeat (apply bind_Some in H as (? & ? & H)). repeat case_match; simplify_eq.
    apply (cinv_base (accesses s) ss _ (wprobe s) HI). by split_and!; auto.
  - right. exists (RSleepX j k). unfold rpool_step. simpl in H |- *.
    apply bind_Some in H as (e & He & H). apply bind_Some in H as (v & Hv & H).
    apply bind_Some in H as (x & Hx & H). rewrite He, Hv, Hx. simpl.
    destruct e; try done. destruct (decide _); [|done]. by injection H as <-.
Qed.

Lemma wpool_step_follows s ss a s' :
  CInv (accesses s) ss → wpool_step body s a s' → follows s ss s'.
Proof.
  intros HI H. unfold wpool_step in H.
  destruct a as [[i w|i|i|i|j x|j w|]|i k|j k|i b]; cbn [wpool_act] in H; try done.
  { apply bind_Some in H as (pc & Hi & H). apply bind_Some in H as (v & Hv & H).
    destruct (is_load pc) eqn:Hl; [done|]. apply bind_Some in H as (c & Hc & [= <-]).
    by eapply follows_worker. }
  all: apply bind_Some in H as (r' & Hr & [= <-]).
  1-4: by eapply follows_other.
  - by eapply follows_sleep_load.
  - by eapply follows_extern_load.
  - by eapply follows_stop_load.
Qed.

Lemma wpool_runs n m ls s :
  runs (wpool_step body) (new_wpool n m) ls s →
  ∃ ss ls', CInv (accesses s) ss ∧ runs (rpool_step body) (new_rpool n m) ls' (abstract ss (rp s)).
Proof.
  intros Hr. remember (new_wpool n m) as s0 eqn:E0.
  induction Hr as [|s0 ls s a s' Hr IH Hst]; subst.
  - eexists _, []. split; [apply cinv_init|].
    unfold abstract. change (rbase (rp (new_wpool n m))) with (new_pool n m : pool T).
    rewrite project_init. constructor.
  - destruct (IH eq_refl) as (ss & ls' & HI & Hr').
    destruct (wpool_step_follows _ _ _ _ HI Hst) as (ss' & HI' & [E|[a' Ha']]).
    + exists ss', ls'. split; [done|]. by rewrite E.
    + exists ss', (ls' ++ [a']). split; [done|]. by econstructor.
Qed.

(** ** What holds in every state *)

Record WInv (k : nat) s ss : Prop := {
  wi_cinv : CInv (accesses s) ss;
  wi_rinv : RInv (abstract ss (rp s));
  wi_balanced : balanced (project body ss (rbase (rp s)));
  wi_targets : targets_ok (project body ss (rbase (rp s)));
  wi_bounded : Forall (bnd (Z.of_nat k)) (wcl s);
}.

Lemma wcl_bounded n m ls s :
  runs (wpool_step body) (new_wpool n m) ls s → Forall (bnd (Z.of_nat (length ls))) (wcl s).
Proof.
  intros Hr. remember (new_wpool n m) as s0 eqn:E0.
  induction Hr as [|s0 ls s a s' Hr IH Hst]; subst; [apply cl_bounded_init|].
  specialize (IH eq_refl). destruct (wpool_runs _ _ _ _ Hr) as (ss & _ & HI & _).
  rewrite length_app; simpl. unfold wpool_step in Hst.
  destruct a as [[i w|i|i|i|j x|j w|]|i k|j k|i b]; cbn [wpool_act] in Hst; try done.
  { apply bind_Some in Hst as (pc & Hi & Hst). apply bind_Some in Hst as (v & Hv & Hst).
    destruct (is_load pc); [done|]. apply bind_Some in Hst as (c & Hc & [= <-]).
    by apply (cl_bounded_step body _ _ (AWorker i w) _ _ HI Hc). }
  all: apply bind_Some in Hst as (r' & Hr' & [= <-]); eapply Forall_impl; [exact IH|];
    intros d; apply bnd_mono; lia.
Qed.

Lemma wpool_inv n m ls s :
  runs (wpool_step body) (new_wpool n m) ls s → ∃ ss, WInv (length ls) s ss.
Proof.
  intros Hr. destruct (wpool_runs _ _ _ _ Hr) as (ss & ls' & HI & Hr').
  destruct (relaxed_base body _ _ _ _ Hr') as (HR & Hb & Ht).
  exists ss. split; try done. by eapply wcl_bounded.
Qed.

(** ** Progress

    A thread of the pool or inside it can make a step; nobody calls, no wakeup is spurious. *)
Definition moves s : Prop := ∃ a s', by_client a (rp s) = false ∧ wpool_step body s a s'.

Section progress.
Context (k : nat) (s : wpool T) (ss : list (Atomic.state T)) (HW : WInv k s ss).
Context (Hk : (Z.of_nat k < 2^61)%Z).
Local Abbreviation b := (rbase (rp s)).

Lemma worker_moves i pc :
  workers b !! i = Some pc → pc ≠ WWait → pc ≠ WExit →
  (needs_lock pc = true → mutex b = None) → moves s.
Proof using HW Hk.
  intros Hi Hw Hx Hm. destruct HW as [HI HR _ Ht Hb].
  assert (∃ v, wviews (rp s) !! i = Some v) as [v Hv].
  { apply lookup_lt_is_Some_2. rewrite (rv_wlen _ HR : length (wviews (rp s)) = _). simpl.
    rewrite length_imap. by eapply lookup_lt_Some. }
  destruct (is_load pc) eqn:Hl.
  { destruct (load_can_step body (rp s) i pc v) as [(x & r' & H)|(x & r' & H)];
      [done|done|exact (Forall_lookup_1 _ _ _ _ (rv_wviews _ HR) Hv)|done|..].
    - exists (RSleepW i x). eexists. split; [done|]. unfold wpool_step. cbn [wpool_act]. by rewrite H.
    - exists (RStop i x). eexists. split; [done|]. unfold wpool_step. cbn [wpool_act]. by rewrite H. }
  assert (∃ w c, cworker_step body i w (accesses s) = Some c) as (w & c & Hc).
  { assert (in_deque_op (length (wcl s)) pc ∨ no_deque (length (wcl s)) pc) as [Hop|Hop].
    { destruct pc as [| |? [|]|? ? [[]|]| | | | | | | | | | | | | |]; simpl; try (by auto); lia. }
    { exists 0. by eapply (in_deque_progress body (accesses s)). }
    destruct (worker_can_step body b i pc) as (w & b' & Hst); [|by destruct pc as [| |? [|]| | | | | | | | | | | | | | |]; try done; intros ?? [= <- <-]|done..|].
    { rewrite (ci_base _ _ HI : deques b = _), length_replicate. symmetry. apply (ci_len _ _ HI). }
    exists w. eexists. unfold cworker_step. simpl. rewrite Hi. cbn [mbind option_bind].
    destruct pc as [| |? [|]|? ? [[]|]| | | | | | | | | | | | | |]; try done; simpl in Hop;
      rewrite ?decide_False by lia; by rewrite Hst. }
  exists (RAct (AWorker i w)). eexists. split; [done|]. unfold wpool_step. cbn [wpool_act].
  rewrite Hi, Hv. cbn [mbind option_bind]. rewrite Hl. by rewrite Hc.
Qed.

Lemma extern_moves j e :
  externs b !! j = Some (Some e) → (e = ELock → mutex b = None) → moves s.
Proof using HW.
  intros Hj Hm. pose proof (wi_rinv _ _ _ HW) as HR.
  assert (∃ v, xviews (rp s) !! j = Some v) as [v Hv].
  { apply lookup_lt_is_Some_2. rewrite (rv_xlen _ HR : length (xviews (rp s)) = _). by eapply lookup_lt_Some. }
  destruct (extern_can_step body (rp s) j e v) as [(x & r' & H)|(x & r' & H)];
    [done|done|exact (Forall_lookup_1 _ _ _ _ (rv_xviews _ HR) Hv)|done|..].
  - exists (RSleepX j x). eexists. split; [done|]. unfold wpool_step. cbn [wpool_act]. by rewrite H.
  - exists (RAct (AExtern j x)). eexists. split; [done|]. unfold wpool_step. cbn [wpool_act]. by rewrite H.
Qed.

Lemma dtor_moves b' : dtor b ≠ DNone → dtor_step b = Some b' → moves s.
Proof using HW.
  intros Hd H. exists (RAct ADtor). eexists. split; [simpl; by destruct (dtor b)|].
  unfold wpool_step. cbn [wpool_act rpool_act pool_act]. by rewrite H.
Qed.

Lemma holds_abs i pc : w_holds (abs_pc body ss i pc) = true → w_holds pc = true.
Proof.
  unfold abs_pc. destruct pc as [| |? [|]|? ? [[]|]| | | | | | | | | | | | | |]; try done;
    repeat case_match; done.
Qed.

Lemma owner_of_mutex_moves t : mutex b = Some t → moves s.
Proof using HW Hk.
  intros Hm. pose proof (rv_base _ (wi_rinv _ _ _ HW)) as HI. pose proof (iv_holder _ HI) as Hh.
  simpl in Hh. rewrite Hm in Hh. destruct t as [i|j|].
  - destruct (lookup_lt_is_Some_2 (workers b) i) as [pc Hi]; [by rewrite length_imap in Hh|].
    pose proof (proj2 (iv_mx_w _ HI i _ (project_lookup body _ _ _ _ Hi)) Hm) as Ho%holds_abs.
    eapply worker_moves; [exact Hi|by intros ->..|].
    destruct pc as [| |? [|]|? ? [[]|]| | | | | | | | | | | | | |]; done.
  - destruct (lookup_lt_is_Some_2 _ _ Hh) as [e Hj].
    pose proof (proj2 (iv_mx_e _ HI _ _ Hj) Hm) as Ho. destruct e as [[]|]; try done.
    by eapply extern_moves.
  - pose proof (proj2 (iv_mx_d _ HI) Hm) as Ho. simpl in Ho. destruct (dtor b) eqn:Hd; try done.
    eapply dtor_moves; [by rewrite Hd|]. unfold dtor_step. by rewrite Hd.
Qed.

Lemma stuck_workers : ¬ moves s → mutex b = None ∧ Forall (λ pc, pc = WWait ∨ pc = WExit) (workers b) ∧
  Forall (λ e, e = None) (externs b).
Proof using HW Hk.
  intros Hn. assert (mutex b = None) as Hm.
  { destruct (mutex b) as [t|] eqn:Hm; [|done]. by destruct Hn; eapply owner_of_mutex_moves. }
  split_and!; [done|..]; apply Forall_lookup.
  - intros i pc Hi. destruct pc; auto; destruct Hn; by eapply worker_moves.
  - intros j [e|] Hj; [|done]. destruct Hn. by eapply extern_moves.
Qed.

Lemma stuck_destroyed : ¬ moves s → stop b = true →
  Forall (λ pc, pc = WExit) (workers b) ∧ dtor b = DDone.
Proof using HW Hk.
  intros Hn Hs. destruct (stuck_workers Hn) as (Hm & Hw & _).
  pose proof (rv_base _ (wi_rinv _ _ _ HW)) as HI.
  pose proof (iv_stop _ HI) as Hst. simpl in Hst. rewrite Hs in Hst.
  assert (∀ b', dtor_step b ≠ Some b') as Hd.
  { intros b' H. apply Hn. eapply dtor_moves; [|exact H]. by destruct (dtor b). }
  unfold dtor_step, lock in Hd. rewrite Hm in Hd.
  assert (d_notified (dtor b) = true) as Hnd.
  { destruct (dtor b); try done; by edestruct Hd. }
  assert (Forall (λ pc, pc = WExit) (workers b)) as Hex.
  { apply Forall_lookup. intros i pc Hi. destruct (Forall_lookup_1 _ _ _ _ Hw Hi) as [->|]; [|done].
    by pose proof (iv_doze _ HI Hnd i _ (project_lookup body ss _ _ _ Hi)). }
  split; [done|]. destruct (dtor b) as [| | |k0|]; try done. exfalso.
  destruct (workers b !! k0) as [pc|] eqn:Hi; [|by edestruct Hd].
  rewrite (Forall_lookup_1 _ _ _ _ Hex Hi) in Hd. by edestruct Hd.
Qed.

Lemma stuck_asleep : ¬ moves s → stop b = false →
  Forall (λ pc, pc = WWait) (workers b) ∧ Forall (λ e, e = None) (externs b).
Proof using HW Hk.
  intros Hn Hs. destruct (stuck_workers Hn) as (Hm & Hw & He). split; [|done].
  apply Forall_lookup. intros i pc Hi. destruct (Forall_lookup_1 _ _ _ _ Hw Hi) as [?| ->]; [done|].
  pose proof (iv_exit _ (rv_base _ (wi_rinv _ _ _ HW)) i (project_lookup body ss _ _ _ Hi)) as Hx.
  simpl in Hx. congruence.
Qed.

End progress.

(** ** The property *)

(** (C13) The pool as the hardware runs it, with the accesses to the deques made one by one
    and the loads of [sleeping_workers] and [stop] as stale as their memory orders allow,
    neither loses a task nor gets stuck.  While the destructor has not begun: whenever every
    worker is blocked in [cv.wait] and no thread is inside [enqueue], the tasks submitted are
    exactly those executed, each once, and the global queue and every deque are empty.  And
    in a run of fewer than 2^61 steps some thread can make its next access without a new
    call or a spurious wakeup, except when all workers sleep with nothing left to do, or
    when the destructor has joined them all and returned. *)
Theorem whole_pool_sleeps_soundly n m ls s :
  runs (wpool_step body) (new_wpool n m) ls s →
  let b := rbase (rp s) in
  let asleep := Forall (λ pc, pc = WWait) (workers b) ∧ Forall (λ e, e = None) (externs b) in
  (stop b = false → asleep →
     executed b ≡ₚ submitted b ∧ tasks_ (global_queue b) = [] ∧ Forall (λ d, content d = []) (wcl s)) ∧
  ((Z.of_nat (length ls) < 2^61)%Z → ¬ moves s →
     if stop b then Forall (λ pc, pc = WExit) (workers b) ∧ dtor b = DDone else asleep).
Proof.
  intros Hr b asleep. destruct (wpool_inv _ _ _ _ Hr) as (ss & HW). split.
  - intros Hs [Hw He]. apply (asleep_on_deques body (accesses s) ss); try done; [apply HW| |apply HW].
    apply (rv_base _ (wi_rinv _ _ _ HW)).
  - intros Hk Hn. destruct (stop b) eqn:Hs; [by eapply stuck_destroyed|by eapply stuck_asleep].
Qed.

End proof.

(** ** An execution

    Two workers.  Task 7 arrives through the global queue; it runs on worker 0 and enqueues
    task 9, which worker 1 steals; then both go to sleep. *)

(** Worker [i] makes [k] steps with the newest values; it wakes up the other one. *)
Fixpoint fresh (i k : nat) (s : wpool nat) : option (wpool nat) :=
  match k with
  | 0 => Some s
  | S k =>
      pc ← workers (rbase (rp s)) !! i;
      s' ← wpool_act demo_tasks
             (match pc with
              | WRun _ _ (Some ELoad) => RSleepW i (pred (length (hist (rp s))))
              | WStop | WLockedStop | WPredStop => RStop i (stop (rbase (rp s)))
              | _ => RAct (AWorker i (1 - i))
              end) s;
      fresh i k s'
  end.

Definition full_schedule (k0 k1 k2 k3 : nat) (s : wpool nat) : option (wpool nat) :=
  s ← exec (wpool_act demo_tasks) [RAct (ACall 0 7); RAct (AExtern 0 0); RSleepX 0 0] s;
  s ← fresh 0 k0 s; s ← fresh 1 k1 s; s ← fresh 0 k2 s; fresh 1 k3 s.

Lemma fresh_runs i k s s' : fresh i k s = Some s' → ∃ ls, runs (wpool_step demo_tasks) s ls s'.
Proof.
  revert s. induction k as [|k IH]; intros s; simpl.
  - intros [= ->]. exists []. constructor.
  - intros (pc & _ & (u & Hu & [ls Hr]%IH)%bind_Some)%bind_Some.
    eexists. eapply runs_trans; [apply runs_one; exact Hu|exact Hr].
Qed.

Lemma full_schedule_runs k0 k1 k2 k3 s s' :
  full_schedule k0 k1 k2 k3 s = Some s' → ∃ ls, runs (wpool_step demo_tasks) s ls s'.
Proof.
  unfold full_schedule. intros E.
  apply bind_Some in E as (s1 & H1 & E). apply bind_Some in E as (s2 & [l2 H2]%fresh_runs & E).
  apply bind_Some in E as (s3 & [l3 H3]%fresh_runs & E).
  apply bind_Some in E as (s4 & [l4 H4]%fresh_runs & [l5 H5]%fresh_runs).
  apply (exec_runs _ (wpool_step demo_tasks)) in H1; [|done].
  eexists. eapply runs_trans; [exact H1|]. eapply runs_trans; [exact H2|].
  eapply runs_trans; [exact H3|]. eapply runs_trans; [exact H4|exact H5].
Qed.

Definition final : wpool nat :=
  default (new_wpool 2 1) (full_schedule 16 238 226 8 (new_wpool 2 1)).

Lemma final_runs : ∃ ls, runs (wpool_step demo_tasks) (new_wpool 2 1) ls final.
Proof. apply (full_schedule_runs 16 238 226 8). vm_compute. reflexivity. Qed.

Lemma whole_pool_sleeps_soundly_witness :
  executed (rbase (rp final)) = [9; 7] ∧ submitted (rbase (rp final)) = [7; 9] ∧
  executed (rbase (rp final)) ≡ₚ submitted (rbase (rp final)) ∧
  tasks_ (global_queue (rbase (rp final))) = [] ∧ Forall (λ d, content d = []) (wcl final).
Proof.
  split; [vm_compute; reflexivity|]. split; [vm_compute; reflexivity|].
  destruct final_runs as [ls Hr].
  assert (stop (rbase (rp final)) = false) as Hs by (vm_compute; reflexivity).
  assert (Forall (λ pc, pc = WWait) (workers (rbase (rp final)))) as Hw
    by (vm_compute; repeat constructor).
  assert (Forall (λ e, e = None) (externs (rbase (rp final)))) as He
    by (vm_compute; repeat constructor).
  exact (proj1 (whole_pool_sleeps_soundly demo_tasks 2 1 ls final Hr) Hs (conj Hw He)).
Defined.
