(* ===== verification/Completion.v ===== *)
(** * From completion results to receiver signals

    [io_result] and [detail::make_io_callback] of
    src/include/async_runtime/io_context.hpp: the callback of an operation turns
    the kernel's result code into one of the three completion signals of
    [detail::io_sigs]. *)

From S2P Require Import Prelude MachineInt.
From stdpp Require Import options.
Local Open Scope Z_scope.

Record io_result := IoResult {
  res : Z;      (** [std::int32_t] *)
  flags : Z;    (** [std::uint32_t] *)
}.

(** [io_sigs]: the ways an operation can complete.  An error carries the value
    of the [std::error_code] in the generic category. *)
Inductive signal : Type :=
| set_value (r : io_result)
| set_error (code : Z)
| set_stopped.

#[export] Instance io_result_eq_dec : EqDecision io_result.
Proof. solve_decision. Defined.
#[export] Instance signal_eq_dec : EqDecision signal.
Proof. solve_decision. Defined.

(** <cerrno> on Linux. *)
Definition ECANCELED : Z := 125.
Definition EINTR : Z := 4.

(** The lambda [make_io_callback] returns, applied to a result. *)
Definition make_io_callback (result : io_result) : outcome signal :=
  if res result =? - ECANCELED then Ok set_stopped
  else if res result <? 0 then
    code ← int32_chk (- res result);
    Ok (set_error code)
  else Ok (set_value result).

(** The result code that a signal stands for. *)
Definition signal_res (s : signal) : Z :=
  match s with
  | set_value r => res r
  | set_error code => - code
  | set_stopped => - ECANCELED
  end.

Lemma make_io_callback_total r :
  int32_min < res r ≤ int32_max → ∃ s, make_io_callback r = Ok s ∧ signal_res s = res r.
Proof.
  intros Hr. unfold make_io_callback, int32_chk, int32_ok.
  destruct (res r =? - ECANCELED) eqn:E1; zbool; [by exists set_stopped|].
  destruct (res r <? 0) eqn:E2; zbool; [|by exists (set_value r)].
  rewrite (proj2 (Z.leb_le _ _)), (proj2 (Z.leb_le _ _)) by int_lia. simpl.
  exists (set_error (- res r)). split; [done|simpl; lia].
Qed.

(** (C18) The completion of an operation is total and faithful.  Every 32-bit
    result but the most negative one is delivered as exactly one signal, from
    which the result code can be read back: [set_stopped] exactly for
    [-ECANCELED], [set_error] with a strictly positive code exactly for the other
    negative results, [set_value] with the result itself exactly for the
    non-negative ones. *)
Theorem io_callback_classifies (r : io_result) :
  int32_min < res r ≤ int32_max →
  ∃ s, make_io_callback r = Ok s ∧ signal_res s = res r ∧
    match s with
    | set_stopped => res r = - ECANCELED
    | set_error code => 0 < code ≤ int32_max ∧ code ≠ ECANCELED
    | set_value v => v = r ∧ 0 ≤ res r
    end.
Proof.
  intros Hr. destruct (make_io_callback_total r Hr) as (s & Hs & Hres).
  exists s. split_and!; [done..|]. unfold make_io_callback in Hs.
  destruct (res r =? - ECANCELED) eqn:E1; zbool; [by injection Hs as <-|].
  destruct (res r <? 0) eqn:E2; zbool.
  - outcome_inv. simpl in Hres. unfold ECANCELED in *. split; int_lia.
  - by injection Hs as <-.
Qed.

Lemma io_callback_classifies_witness :
  make_io_callback {| res := -9; flags := 0 |} = Ok (set_error 9) ∧
  ∃ s, make_io_callback {| res := -9; flags := 0 |} = Ok s ∧ signal_res s = -9 ∧
    match s with
    | set_stopped => -9 = - ECANCELED
    | set_error code => 0 < code ≤ int32_max ∧ code ≠ ECANCELED
    | set_value v => v = {| res := -9; flags := 0 |} ∧ 0 ≤ -9
    end.
Proof.
  split; [reflexivity|]. apply (io_callback_classifies {| res := -9; flags := 0 |}).
  simpl. int_lia.
Defined.
