(* ===== verification/Uring.v ===== *)
(** * The liburing interface

    liburing is a library outside the repository: the functions of it that
    src/src/io_uring_ctx.cpp calls are the operations of the class [Liburing], and what
    the runtime relies on is the class [LiburingLaws], which states documented
    behaviour in terms of four observations of a ring: the submission entries
    not yet consumed by the kernel, the history of the entries it consumed, the
    requests in flight, and the completions posted and not yet seen.  The kernel runs concurrently; each call may
    therefore also find that requests have completed in the meantime
    ([progress]).

    [SimpleRing] is a small concrete ring that satisfies the laws. *)

From S2P Require Import Prelude MachineInt.
From stdpp Require Import options.
Local Open Scope Z_scope.

(** [std::span<std::byte>]: an address and a size. *)
Record span := Span { data : Z; size : Z }.

(** What the [io_uring_prep_*] functions the runtime calls put in an entry. *)
Inductive sqe_op : Type :=
| prep_nop
| prep_read (fd addr nbytes offset : Z)
| prep_write (fd addr nbytes offset : Z)
| prep_accept (fd : Z)
| prep_recv (fd addr len flags : Z)
| prep_send (fd addr len flags : Z)
| prep_read_fixed (fd addr nbytes offset buf_index : Z)
| prep_write_fixed (fd addr nbytes offset buf_index : Z)
| prep_cancel (target : Z).

#[export] Instance sqe_op_eq_dec : EqDecision sqe_op.
Proof. solve_decision. Defined.

Record sqe := Sqe { sqe_op_of : sqe_op; sqe_data : Z }.
Record cqe := Cqe { cqe_data : Z; cqe_res : Z; cqe_flags : Z }.

(** An [iovec]. *)
Record iovec := Iovec { iov_base : Z; iov_len : Z }.

Definition set_op (o : sqe_op) (e : sqe) : sqe := {| sqe_op_of := o; sqe_data := sqe_data e |}.
Definition set_data (d : Z) (e : sqe) : sqe := {| sqe_op_of := sqe_op_of e; sqe_data := d |}.

(** A submission entry is referred to by its position in the queue. *)
Class Liburing (ring : Type) := {
  io_uring_queue_init : Z → Z * ring;
  io_uring_get_sqe : ring → option nat * ring;
  io_uring_prep : nat → sqe_op → ring → ring;
  io_uring_sqe_set_data : nat → Z → ring → ring;
  io_uring_submit : ring → Z * ring;
  (** [None]: the call blocks forever. *)
  io_uring_wait_cqe : ring → option (Z * ring);
  (** The [i]-th completion after the head, as [io_uring_for_each_cqe] reads it. *)
  io_uring_cqe_at : nat → ring → option cqe * ring;
  io_uring_cq_advance : nat → ring → ring;
  (** The array and the number of its entries. *)
  io_uring_register_buffers : list iovec → Z → ring → Z * ring;
  io_uring_unregister_buffers : ring → Z * ring;
}.

(** Observations of a ring. *)
Class RingView (ring : Type) := {
  sq : ring → list sqe;
  consumed : ring → list sqe;
  inflight : ring → list sqe;
  cq : ring → list cqe;
}.

Section laws.
Context {ring : Type} `{!Liburing ring, !RingView ring}.

(** Every entry the program ever put in the submission queue, in order. *)
Definition requests (r : ring) : list sqe := consumed r ++ sq r.

(** The user data of everything submitted to the ring and not completed, or
    completed and still in the completion queue from position [i] on. *)
Definition outstanding_from (i : nat) (r : ring) : list Z :=
  (sqe_data <$> sq r) ++ (sqe_data <$> inflight r) ++ (cqe_data <$> drop i (cq r)).

(** Linux result codes: no operation returns less than [-4095]. *)
Definition res_ok (c : cqe) : Prop := -4095 ≤ cqe_res c ≤ int32_max.
Definition ring_ok (r : ring) : Prop := Forall res_ok (cq r).

(** The kernel consumes entries in order and completes requests: the requests
    [fin] leave the ring, each with one completion at the end of the completion
    queue that carries the user data it was submitted with. *)
Record progress (r r' : ring) : Prop := {
  prog_done : ∃ fin new,
    sq r ++ inflight r ≡ₚ fin ++ sq r' ++ inflight r' ∧ cq r' = cq r ++ new ∧
    sqe_data <$> fin = cqe_data <$> new;
  prog_req : requests r' = requests r;
  prog_res : ring_ok r → ring_ok r';
}.

(** The calls that only touch the submission queue. *)
Record same_kernel (r r' : ring) : Prop := {
  same_consumed : consumed r' = consumed r;
  same_inflight : inflight r' = inflight r;
  same_cq : cq r' = cq r;
}.

(** Error returns of the library calls are negated Linux error codes. *)
Definition ret_ok (n : Z) : Prop := -4095 ≤ n ≤ int32_max.

Lemma ret_code n : ret_ok n → n < 0 → int32_chk (- n) = Ok (- n).
Proof.
  unfold ret_ok, int32_chk, int32_ok. intros. by rewrite !(proj2 (Z.leb_le _ _)) by int_lia.
Qed.

Class LiburingLaws := {
  law_init depth n r : io_uring_queue_init depth = (n, r) →
    ret_ok n ∧ (0 ≤ n → requests r = [] ∧ inflight r = [] ∧ cq r = []);
  law_get_some r p r' : io_uring_get_sqe r = (Some p, r') →
    p = length (sq r) ∧ (∃ e, sq r' = sq r ++ [e]) ∧ same_kernel r r';
  law_get_none r r' : io_uring_get_sqe r = (None, r') →
    sq r ≠ [] ∧ sq r' = sq r ∧ same_kernel r r';
  law_prep p o r :
    sq (io_uring_prep p o r) = alter (set_op o) p (sq r) ∧ same_kernel r (io_uring_prep p o r);
  law_set_data p d r :
    sq (io_uring_sqe_set_data p d r) = alter (set_data d) p (sq r) ∧
    same_kernel r (io_uring_sqe_set_data p d r);
  law_submit r n r' : io_uring_submit r = (n, r') → progress r r';
  law_wait r n r' : io_uring_wait_cqe r = Some (n, r') → progress r r' ∧ (0 ≤ n → cq r' ≠ []);
  (** Waiting does not block while a completion is posted or a no-op is in flight. *)
  law_wakes r : io_uring_wait_cqe r = None →
    cq r = [] ∧ Forall (λ e, sqe_op_of e ≠ prep_nop) (inflight r);
  law_at i r c r' : io_uring_cqe_at i r = (c, r') → progress r r' ∧ cq r' !! i = c;
  law_advance n r :
    sq (io_uring_cq_advance n r) = sq r ∧ consumed (io_uring_cq_advance n r) = consumed r ∧
    inflight (io_uring_cq_advance n r) = inflight r ∧
    cq (io_uring_cq_advance n r) = drop n (cq r);
  law_register bs k r n r' : io_uring_register_buffers bs k r = (n, r') →
    progress r r' ∧ ret_ok n;
  law_unregister r n r' : io_uring_unregister_buffers r = (n, r') → progress r r' ∧ ret_ok n;
}.

(** The submission queue is full, and [io_uring_submit], which may fail or hand over a part
    of it only, leaves entries in it. *)
Definition refuses (r : ring) : Prop :=
  ∃ r1 n r2, io_uring_get_sqe r = (None, r1) ∧ io_uring_submit r1 = (n, r2) ∧ sq r2 ≠ [].

#[global] Instance progress_refl : Reflexive progress.
Proof. intros r. split; [|done..]. exists [], []. by rewrite app_nil_r. Qed.

Lemma progress_prefix r r' : progress r r' → cq r `prefix_of` cq r'.
Proof. intros [(fin & new & _ & E & _) _ _]. by exists new. Qed.

(** Progress does not touch the completions already seen. *)
Lemma progress_from i r r' :
  progress r r' → (i ≤ length (cq r))%nat → outstanding_from i r ≡ₚ outstanding_from i r'.
Proof.
  intros [(fin & new & Hp & E & Hd) _ _] Hi. unfold outstanding_from.
  rewrite E, drop_app_le, !fmap_app, <- Hd, !(assoc (++)), <- !fmap_app, Hp by done.
  rewrite !fmap_app. solve_Permutation.
Qed.

Lemma progress_len r r' : progress r r' → (length (cq r) ≤ length (cq r'))%nat.
Proof. intros H. by apply prefix_length, progress_prefix. Qed.

End laws.
Arguments LiburingLaws ring {_ _}.

(** ** A concrete ring

    Submission hands every entry to the kernel; waiting completes, in order,
    everything in flight with the result [kernel_res] gives, and blocks forever
    when nothing is in flight. *)

Module SimpleRing.

Record ring := Ring {
  r_extra : nat;          (** one less than the size of the submission queue *)
  r_sq : list sqe;
  r_log : list sqe;
  r_inflight : list sqe;
  r_cq : list cqe;
  r_buffers : list iovec;
}.

Definition init (extra : nat) : ring := Ring extra [] [] [] [] [].

(** The whole buffer is transferred; [accept] yields descriptor 5; a negative
    descriptor is [-EBADF]. *)
Definition kernel_res (o : sqe_op) : Z :=
  match o with
  | prep_read fd _ n _ | prep_write fd _ n _ | prep_recv fd _ n _ | prep_send fd _ n _
  | prep_read_fixed fd _ n _ _ | prep_write_fixed fd _ n _ _ =>
      if fd <? 0 then -9 else Z.min n int32_max `max` 0
  | prep_accept fd => if fd <? 0 then -9 else 5
  | prep_nop | prep_cancel _ => 0
  end.

Definition finish (e : sqe) : cqe := Cqe (sqe_data e) (kernel_res (sqe_op_of e)) 0.

Definition with_sq (l : list sqe) (r : ring) : ring :=
  Ring (r_extra r) l (r_log r) (r_inflight r) (r_cq r) (r_buffers r).
Definition with_buffers (bs : list iovec) (r : ring) : ring :=
  Ring (r_extra r) (r_sq r) (r_log r) (r_inflight r) (r_cq r) bs.
Definition posted (r : ring) : list cqe := r_cq r ++ (finish <$> r_inflight r).

#[global] Instance simple_ring : Liburing ring := {|
  io_uring_queue_init depth :=
    if (1 <=? depth) && (depth <=? 32768) then (0, init (Z.to_nat (depth - 1)))
    else (-22, init 0);
  io_uring_get_sqe r :=
    if decide (length (r_sq r) ≤ r_extra r)%nat
    then (Some (length (r_sq r)), with_sq (r_sq r ++ [Sqe prep_nop 0]) r)
    else (None, r);
  io_uring_prep p o r := with_sq (alter (set_op o) p (r_sq r)) r;
  io_uring_sqe_set_data p d r := with_sq (alter (set_data d) p (r_sq r)) r;
  io_uring_submit r :=
    (Z.of_nat (length (r_sq r)),
     Ring (r_extra r) [] (r_log r ++ r_sq r) (r_inflight r ++ r_sq r) (r_cq r) (r_buffers r));
  io_uring_wait_cqe r :=
    if decide (posted r = []) then None
    else Some (0, Ring (r_extra r) (r_sq r) (r_log r) [] (posted r) (r_buffers r));
  io_uring_cqe_at i r := (r_cq r !! i, r);
  io_uring_cq_advance n r :=
    Ring (r_extra r) (r_sq r) (r_log r) (r_inflight r) (drop n (r_cq r)) (r_buffers r);
  io_uring_register_buffers bs k r :=
    match r_buffers r with
    | [] => (0, with_buffers (take (Z.to_nat k) bs) r)
    | _ => (-16, r)
    end;
  io_uring_unregister_buffers r :=
    match r_buffers r with [] => (-6, r) | _ => (0, with_buffers [] r) end;
|}.

#[global] Instance simple_view : RingView ring :=
  {| sq := r_sq; consumed := r_log; inflight := r_inflight; cq := r_cq |}.

Lemma kernel_res_ok o : -4095 ≤ kernel_res o ≤ int32_max.
Proof. destruct o; simpl; try (destruct (_ <? 0)); int_lia. Qed.

Lemma wait_progress r :
  progress r (Ring (r_extra r) (r_sq r) (r_log r) [] (posted r) (r_buffers r)).
Proof.
  split; simpl; [|done|].
  - exists (r_inflight r), (finish <$> r_inflight r). split_and!; [|done|].
    + rewrite app_nil_r. apply Permutation_app_comm.
    + by rewrite <- list_fmap_compose.
  - intros Hr. apply Forall_app; split; [done|]. apply Forall_fmap, Forall_true.
    intros e. apply kernel_res_ok.
Qed.

Lemma buffers_progress bs r : progress r (with_buffers bs r).
Proof. split; [|done..]. exists [], []. by rewrite app_nil_r. Qed.

#[global] Instance simple_laws : LiburingLaws ring.
Proof.
  split; simpl.
  - intros depth n r H. destruct (_ && _); injection H as <- <-; unfold ret_ok; (split; [int_lia|done]).
  - intros r p r' H. case_decide; [|done]. injection H as <- <-. simpl. split_and!; eauto; by split.
  - intros r r' H. case_decide as E; [done|]. injection H as <-.
    split; [|by repeat split]. intros E0. rewrite E0 in E. simpl in E. lia.
  - by intros p o r; repeat split.
  - by intros p o r; repeat split.
  - intros r n r' H. injection H as <- <-. split; simpl; [| |done].
    + exists [], []. simpl. rewrite app_nil_r. split_and!; [|done..]. apply Permutation_app_comm.
    + unfold requests; simpl. by rewrite app_nil_r.
  - intros r n r' H. case_decide; [done|]. injection H as <- <-.
    split; [apply wait_progress|done].
  - intros r H. case_decide as E; [|done].
    apply app_eq_nil in E as [? E]. apply fmap_nil_inv in E. by rewrite E.
  - intros i r c r' H. by injection H as <- <-.
  - done.
  - intros bs k r n r' H. unfold ret_ok. destruct (r_buffers r); injection H as <- <-;
      (split; [|int_lia]); [apply buffers_progress|done].
  - intros r n r' H. unfold ret_ok. destruct (r_buffers r); injection H as <- <-;
      (split; [|int_lia]); [done|apply buffers_progress].
Qed.

End SimpleRing.

(** ** A ring whose submissions fail

    [io_uring_submit] may return an error, [-EBUSY] while the completion queue
    overflows for instance, and then consumes nothing.  [BusyRing] is a ring of
    two entries in that condition; it satisfies the same laws. *)

Module BusyRing.

Record ring := Ring { b_sq : list sqe }.

#[global] Instance busy_ring : Liburing ring := {|
  io_uring_queue_init depth := (0, Ring []);
  io_uring_get_sqe r :=
    if decide (length (b_sq r) ≤ 1)%nat
    then (Some (length (b_sq r)), Ring (b_sq r ++ [Sqe prep_nop 0]))
    else (None, r);
  io_uring_prep p o r := Ring (alter (set_op o) p (b_sq r));
  io_uring_sqe_set_data p d r := Ring (alter (set_data d) p (b_sq r));
  io_uring_submit r := (-16, r);
  io_uring_wait_cqe r := None;
  io_uring_cqe_at i r := (None, r);
  io_uring_cq_advance n r := r;
  io_uring_register_buffers bs k r := (-16, r);
  io_uring_unregister_buffers r := (-6, r);
|}.

#[global] Instance busy_view : RingView ring :=
  {| sq := b_sq; consumed r := []; inflight r := []; cq r := [] |}.

#[global] Instance busy_laws : LiburingLaws ring.
Proof.
  split; simpl.
  - intros depth n r [= <- <-]. split; [unfold ret_ok; int_lia|done].
  - intros r p r' H. case_decide; [|done]. injection H as <- <-. simpl. split_and!; eauto; by split.
  - intros r r' H. case_decide as E; [done|]. injection H as <-.
    split; [|by repeat split]. intros E0. rewrite E0 in E. simpl in E. lia.
  - by intros p o r; repeat split.
  - by intros p o r; repeat split.
  - by intros r n r' [= <- <-].
  - done.
  - done.
  - by intros i r c r' [= <- <-].
  - intros n r. by rewrite drop_nil.
  - intros bs k r n r' [= <- <-]. split; [done|unfold ret_ok; int_lia].
  - intros r n r' [= <- <-]. split; [done|unfold ret_ok; int_lia].
Qed.

End BusyRing.
