(* ===== verification/IoContext.v ===== *)
(** * The io_uring context

    [io_context] of src/src/io_uring_ctx.cpp over the interface of Uring.v.  The state
    of [ring_impl] is the ring, the [running] flag and the heap of [io_callback]
    objects whose addresses travel through the ring as user data.

    [io_act] is a transition system: one thread executes [run()], a step at a
    time ([run_step]), while any number of threads, the callbacks that [run()]
    invokes among them, call the other functions.  Each of those is one action,
    because its body is a critical section of [submission_mutex] and the steps of
    the loop outside the mutex touch the completion side of the ring only;
    [stop()] is two actions, since it writes [running] before it takes the
    mutex.  The address that [new] returns is part of the action: any non-null
    address that is not allocated, so that freed addresses may come back.

    An [io_callback] is represented by the receiver that [make_io_callback]
    captured in it: the sender operations build no other callbacks. *)

From S2P Require Import Prelude MachineInt Completion Uring.
From stdpp Require Import options.
Local Open Scope Z_scope.

(** The calls of the private [submit_*] functions. *)
Inductive request : Type :=
| RRead (fd : Z) (buf : span) (offset : Z)
| RWrite (fd : Z) (buf : span) (offset : Z)
| RAccept (fd : Z)
| RRecv (fd : Z) (buf : span) (flags : Z)
| RSend (fd : Z) (buf : span) (flags : Z)
| RReadFixed (fd buf_index : Z) (buf : span) (offset : Z)
| RWriteFixed (fd buf_index : Z) (buf : span) (offset : Z).

(** Where the thread inside [run()] is. *)
Inductive loop_pc : Type :=
| Idle                          (** no thread is inside [run()] *)
| RunEntry                      (** at [running.store(true)] *)
| WhileTest                     (** at the test of the [while] *)
| WaitCqe                       (** at [io_uring_wait_cqe] *)
| ForEach (count : nat)         (** at the [count]-th entry of [io_uring_for_each_cqe] *)
| InCallback (count : nat) (cb : Z) (** the callback was invoked, [delete cb] comes next *)
| Advance (count : nat).        (** at [io_uring_cq_advance] *)

#[export] Instance loop_pc_eq_dec : EqDecision loop_pc.
Proof. solve_decision. Defined.

Section io_context.
Context {ring : Type} `{!Liburing ring} {R : Type}.

Record ring_impl := RingImpl {
  the_ring : ring;
  running : bool;
  heap : gmap Z R;
}.



Definition set_ring (r : ring) (s : ring_impl) : ring_impl := RingImpl r (running s) (heap s).
Definition set_running (b : bool) (s : ring_impl) : ring_impl := RingImpl (the_ring s) b (heap s).
Definition set_heap (h : gmap Z R) (s : ring_impl) : ring_impl := RingImpl (the_ring s) (running s) h.

(** [ring_impl(queue_depth)]: throws a [std::system_error] with the error code. *)
Definition new_ring_impl (queue_depth : Z) : outcome (Z + ring_impl) :=
  let '(ret, r) := io_uring_queue_init queue_depth in
  if ret <? 0 then code ← int32_chk (- ret); Ok (inl code)
  else Ok (inr (RingImpl r false ∅)).

(** [~ring_impl]: [io_uring_queue_exit] releases the ring.  The result is what stays
    allocated: nothing deletes the callbacks of operations in flight. *)
Definition destroy_ring_impl (s : ring_impl) : gmap Z R := heap s.

(** [ring_impl::get_sqe] *)
Definition get_sqe (r : ring) : option nat * ring :=
  let '(sqe, r1) := io_uring_get_sqe r in
  match sqe with
  | Some p => (Some p, r1)
  | None => let '(_, r2) := io_uring_submit r1 in io_uring_get_sqe r2
  end.

(** Any [io_uring_prep_*] on the pointer [get_sqe] returned. *)
Definition prep (sqe : option nat) (o : sqe_op) (r : ring) : outcome ring :=
  match sqe with
  | Some p => Ok (io_uring_prep p o r)
  | None => Undef NullDeref
  end.

Definition sqe_set_data (sqe : option nat) (d : Z) (r : ring) : outcome ring :=
  match sqe with
  | Some p => Ok (io_uring_sqe_set_data p d r)
  | None => Undef NullDeref
  end.

(** [ring_impl::submit_with_cb]; [addr] is the address [new] returns. *)
Definition submit_with_cb (sqe : option nat) (cb : R) (addr : Z) (s : ring_impl) :
    outcome (Z * ring_impl) :=
  let s1 := set_heap (<[addr:=cb]> (heap s)) s in
  r1 ← sqe_set_data sqe addr (the_ring s1);
  let '(_, r2) := io_uring_submit r1 in
  Ok (addr, set_ring r2 s1).

Definition submit_read (fd : Z) (buf : span) (offset : Z) (cb : R) (addr : Z) (s : ring_impl) :
    outcome (Z * ring_impl) :=
  let '(sqe, r) := get_sqe (the_ring s) in
  r1 ← prep sqe (prep_read fd (data buf) (uint32 (size buf)) offset) r;
  submit_with_cb sqe cb addr (set_ring r1 s).

Definition submit_write (fd : Z) (buf : span) (offset : Z) (cb : R) (addr : Z) (s : ring_impl) :
    outcome (Z * ring_impl) :=
  let '(sqe, r) := get_sqe (the_ring s) in
  r1 ← prep sqe (prep_write fd (data buf) (uint32 (size buf)) offset) r;
  submit_with_cb sqe cb addr (set_ring r1 s).

Definition submit_accept (fd : Z) (cb : R) (addr : Z) (s : ring_impl) :
    outcome (Z * ring_impl) :=
  let '(sqe, r) := get_sqe (the_ring s) in
  r1 ← prep sqe (prep_accept fd) r;
  submit_with_cb sqe cb addr (set_ring r1 s).

Definition submit_recv (fd : Z) (buf : span) (flags : Z) (cb : R) (addr : Z) (s : ring_impl) :
    outcome (Z * ring_impl) :=
  let '(sqe, r) := get_sqe (the_ring s) in
  r1 ← prep sqe (prep_recv fd (data buf) (size buf) flags) r;
  submit_with_cb sqe cb addr (set_ring r1 s).

Definition submit_send (fd : Z) (buf : span) (flags : Z) (cb : R) (addr : Z) (s : ring_impl) :
    outcome (Z * ring_impl) :=
  let '(sqe, r) := get_sqe (the_ring s) in
  r1 ← prep sqe (prep_send fd (data buf) (size buf) flags) r;
  submit_with_cb sqe cb addr (set_ring r1 s).

Definition submit_read_fixed (fd buf_index : Z) (buf : span) (offset : Z) (cb : R) (addr : Z)
    (s : ring_impl) : outcome (Z * ring_impl) :=
  let '(sqe, r) := get_sqe (the_ring s) in
  r1 ← prep sqe (prep_read_fixed fd (data buf) (uint32 (size buf)) offset (to_int32 buf_index)) r;
  submit_with_cb sqe cb addr (set_ring r1 s).

Definition submit_write_fixed (fd buf_index : Z) (buf : span) (offset : Z) (cb : R) (addr : Z)
    (s : ring_impl) : outcome (Z * ring_impl) :=
  let '(sqe, r) := get_sqe (the_ring s) in
  r1 ← prep sqe (prep_write_fixed fd (data buf) (uint32 (size buf)) offset (to_int32 buf_index)) r;
  submit_with_cb sqe cb addr (set_ring r1 s).

Definition submit_cancel (cb_ptr : Z) (s : ring_impl) : outcome ring_impl :=
  let '(sqe, r) := get_sqe (the_ring s) in
  r1 ← prep sqe (prep_cancel cb_ptr) r;
  r2 ← sqe_set_data sqe 0 r1;
  let '(_, r3) := io_uring_submit r2 in
  Ok (set_ring r3 s).

(** [stop()] up to the mutex, and its critical section. *)
Definition stop_store (s : ring_impl) : ring_impl := set_running false s.

Definition stop_wake (s : ring_impl) : outcome ring_impl :=
  let '(sqe, r) := get_sqe (the_ring s) in
  match sqe with
  | None => Ok (set_ring r s)
  | Some p =>
      r1 ← prep (Some p) prep_nop r;
      r2 ← sqe_set_data (Some p) 0 r1;
      let '(_, r3) := io_uring_submit r2 in
      Ok (set_ring r3 s)
  end.

Definition stop (s : ring_impl) : outcome ring_impl := stop_wake (stop_store s).

(** [register_buffers]: the error is the code of the [std::error_code]. *)
Definition iovec_of (buf : span) : iovec := Iovec (data buf) (size buf).

Definition register_buffers (buffers : list span) (s : ring_impl) :
    outcome (option Z * ring_impl) :=
  let iovs := iovec_of <$> buffers in
  let '(ret, r) := io_uring_register_buffers iovs (uint32 (Z.of_nat (length iovs))) (the_ring s) in
  if ret <? 0 then code ← int32_chk (- ret); Ok (Some code, set_ring r s)
  else Ok (None, set_ring r s).

Definition unregister_buffers (s : ring_impl) : outcome (option Z * ring_impl) :=
  let '(ret, r) := io_uring_unregister_buffers (the_ring s) in
  if ret <? 0 then code ← int32_chk (- ret); Ok (Some code, set_ring r s)
  else Ok (None, set_ring r s).

(** ** The event loop *)

(** The context, the thread inside [run()], and the signals received so far. *)
Record io_sys := IoSys {
  ctx : ring_impl;
  loop : loop_pc;
  delivered : list (R * signal);
}.

Definition set_ctx (c : ring_impl) (s : io_sys) : io_sys := IoSys c (loop s) (delivered s).
Definition set_loop (pc : loop_pc) (s : io_sys) : io_sys := IoSys (ctx s) pc (delivered s).
Definition log_signal (r : R) (g : signal) (s : io_sys) : io_sys :=
  IoSys (ctx s) (loop s) (delivered s ++ [(r, g)]).

(** One entry of [io_uring_for_each_cqe]. *)
Definition for_each_step (count : nat) (s : io_sys) : outcome io_sys :=
  let '(c, r) := io_uring_cqe_at count (the_ring (ctx s)) in
  let s1 := set_ctx (set_ring r (ctx s)) s in
  match c with
  | None => Ok (set_loop (Advance count) s1)
  | Some cqe =>
      let cb := cqe_data cqe in
      if cb =? 0 then Ok (set_loop (ForEach (S count)) s1)
      else match heap (ctx s1) !! cb with
      | None => Undef UseAfterFree
      | Some receiver =>
          g ← make_io_callback {| res := cqe_res cqe; flags := cqe_flags cqe |};
          Ok (set_loop (InCallback count cb) (log_signal receiver g s1))
      end
  end.

Definition delete_cb (cb : Z) (c : ring_impl) : outcome ring_impl :=
  match heap c !! cb with
  | None => Undef DoubleFree
  | Some _ => Ok (set_heap (delete cb (heap c)) c)
  end.

(** The next step of the thread inside [run()]; [None] when it blocks forever. *)
Definition run_step (s : io_sys) : option (outcome io_sys) :=
  match loop s with
  | Idle => None
  | RunEntry => Some (Ok (set_loop WhileTest (set_ctx (set_running true (ctx s)) s)))
  | WhileTest => Some (Ok (set_loop (if running (ctx s) then WaitCqe else Idle) s))
  | WaitCqe =>
      '(ret, r) ← io_uring_wait_cqe (the_ring (ctx s));
      let s1 := set_ctx (set_ring r (ctx s)) s in
      Some (Ok (if ret <? 0
                then if ret =? - EINTR then set_loop WhileTest s1 else set_loop Idle s1
                else set_loop (ForEach 0) s1))
  | ForEach count => Some (for_each_step count s)
  | InCallback count cb =>
      Some (c ← delete_cb cb (ctx s); Ok (set_loop (ForEach (S count)) (set_ctx c s)))
  | Advance count =>
      Some (Ok (set_loop WhileTest
        (set_ctx (set_ring (io_uring_cq_advance count (the_ring (ctx s))) (ctx s)) s)))
  end.

(** ** Actions *)

Definition submit (rq : request) (cb : R) (addr : Z) (s : ring_impl) : outcome (Z * ring_impl) :=
  match rq with
  | RRead fd buf offset => submit_read fd buf offset cb addr s
  | RWrite fd buf offset => submit_write fd buf offset cb addr s
  | RAccept fd => submit_accept fd cb addr s
  | RRecv fd buf flags => submit_recv fd buf flags cb addr s
  | RSend fd buf flags => submit_send fd buf flags cb addr s
  | RReadFixed fd ix buf offset => submit_read_fixed fd ix buf offset cb addr s
  | RWriteFixed fd ix buf offset => submit_write_fixed fd ix buf offset cb addr s
  end.

Inductive action : Type :=
| ALoop
| ACallRun
| ASubmit (rq : request) (cb : R) (addr : Z)
| ACancel (cb_ptr : Z)
| AStopStore
| AStopWake
| ARegister (buffers : list span)
| AUnregister.

(** An address [new] may return. *)
Definition new_ok (addr : Z) (h : gmap Z R) : bool :=
  negb (addr =? 0) && bool_decide (h !! addr = None).

Definition io_act (a : action) (s : io_sys) : option (outcome io_sys) :=
  match a with
  | ALoop => run_step s
  | ACallRun => match loop s with Idle => Some (Ok (set_loop RunEntry s)) | _ => None end
  | ASubmit rq cb addr =>
      if new_ok addr (heap (ctx s))
      then Some ('(_, c) ← submit rq cb addr (ctx s); Ok (set_ctx c s)) else None
  | ACancel p => Some (c ← submit_cancel p (ctx s); Ok (set_ctx c s))
  | AStopStore => Some (Ok (set_ctx (stop_store (ctx s)) s))
  | AStopWake => Some (c ← stop_wake (ctx s); Ok (set_ctx c s))
  | ARegister bs => Some ('(_, c) ← register_buffers bs (ctx s); Ok (set_ctx c s))
  | AUnregister => Some ('(_, c) ← unregister_buffers (ctx s); Ok (set_ctx c s))
  end.

Definition io_step (s : io_sys) (a : action) (s' : io_sys) : Prop := io_act a s = Some (Ok s').

Definition io_exec : list action → io_sys → option io_sys :=
  exec (λ a s, match io_act a s with Some (Ok s') => Some s' | _ => None end).

(** The loop thread alone, for at most [n] steps. *)
Fixpoint run_alone (n : nat) (s : io_sys) : option (outcome io_sys) :=
  match loop s, n with
  | Idle, _ => Some (Ok s)
  | _, O => Some (Ok s)
  | _, S n =>
      match run_step s with
      | Some (Ok s') => run_alone n s'
      | o => o
      end
  end.

(** A context on which nothing has been called yet. *)
Definition fresh_sys (c : ring_impl) : io_sys := IoSys c Idle [].

End io_context.
Arguments ring_impl : clear implicits.
Arguments io_sys : clear implicits.
Arguments action : clear implicits.
