(* ===== verification/BufferMemory.v ===== *)
(** * What the kernel does with the memory of a request

    A request names a span of the program's memory.  A receive or read stores bytes from
    the start of that span, a send or write transmits bytes from its start, and neither
    moves more bytes than the span is long.  The programs modelled here own one buffer per
    connection, at address [base] with the bytes [mem]: a request whose span leaves that
    buffer makes the kernel touch memory that is not the buffer's, which is [OutOfBounds]
    here. *)

From S2P Require Import Prelude MachineInt Uring IoContext.
From stdpp Require Import options.
Local Open Scope Z_scope.

(** The span, the descriptor and the buffer index of a request. *)
Definition request_span (rq : request) : option span :=
  match rq with
  | RRead _ b _ | RWrite _ b _ | RRecv _ b _ | RSend _ b _
  | RReadFixed _ _ b _ | RWriteFixed _ _ b _ => Some b
  | RAccept _ => None
  end.

Definition request_fd (rq : request) : Z :=
  match rq with
  | RRead fd _ _ | RWrite fd _ _ | RAccept fd | RRecv fd _ _ | RSend fd _ _
  | RReadFixed fd _ _ _ | RWriteFixed fd _ _ _ => fd
  end.

Definition request_index (rq : request) : option Z :=
  match rq with RReadFixed _ ix _ _ | RWriteFixed _ ix _ _ => Some ix | _ => None end.

(** The span the kernel stores into, and the one it transmits. *)
Definition incoming (rq : request) : option span :=
  match rq with RRead _ b _ | RRecv _ b _ | RReadFixed _ _ b _ => Some b | _ => None end.
Definition outgoing (rq : request) : option span :=
  match rq with RWrite _ b _ | RSend _ b _ | RWriteFixed _ _ b _ => Some b | _ => None end.

Section memory.
Context {byte : Type}.
Implicit Types (mem bs : list byte).

Definition inside (base : Z) mem (b : span) : bool :=
  (base <=? data b) && (data b + size b <=? base + Z.of_nat (length mem)).

Definition store (base : Z) (b : span) bs mem : outcome (list byte) :=
  let off := Z.to_nat (data b - base) in
  if inside base mem b then Ok (take off mem ++ bs ++ drop (off + length bs) mem)
  else Undef OutOfBounds.

Definition transmit (base : Z) (b : span) (n : nat) mem : outcome (list byte) :=
  if inside base mem b then Ok (take n (drop (Z.to_nat (data b - base)) mem))
  else Undef OutOfBounds.

Lemma inside_at base mem k n :
  0 ≤ k → k + n ≤ Z.of_nat (length mem) → inside base mem (Span (base + k) n) = true.
Proof. intros. unfold inside. simpl. rewrite !(proj2 (Z.leb_le _ _)) by lia. done. Qed.

Lemma store_start base n bs mem :
  n ≤ Z.of_nat (length mem) → store base (Span base n) bs mem = Ok (bs ++ drop (length bs) mem).
Proof.
  intros. unfold store. pose proof (inside_at base mem 0 n) as Hi. rewrite Z.add_0_r in Hi.
  rewrite Hi by lia. simpl. by rewrite Z.sub_diag.
Qed.

Lemma transmit_at base k n (m : nat) mem :
  0 ≤ k → k + n ≤ Z.of_nat (length mem) →
  transmit base (Span (base + k) n) m mem = Ok (take m (drop (Z.to_nat k) mem)).
Proof. intros. unfold transmit. rewrite inside_at by done. simpl. by rewrite Z.add_simpl_l. Qed.

End memory.
