(* ===== verification/IoContextProof.v ===== *)
(** * The invariant of the io_uring context

    Ownership: at every moment the non-null user data still inside the ring are
    exactly the addresses of the allocated callbacks.  From it follow memory
    safety of the event loop and the exactly-once delivery of completions. *)

From S2P Require Import Prelude MachineInt Completion Uring IoContext.
From stdpp Require Import options.
Local Open Scope Z_scope.
Set Default Proof Using "Type*".

(** ** The submission side *)

(** What the kernel should be asked for: the buffer of the call, all of it. *)
Definition request_op (rq : request) : sqe_op :=
  match rq with
  | RRead fd buf offset => prep_read fd (data buf) (size buf) offset
  | RWrite fd buf offset => prep_write fd (data buf) (size buf) offset
  | RAccept fd => prep_accept fd
  | RRecv fd buf flags => prep_recv fd (data buf) (size buf) flags
  | RSend fd buf flags => prep_send fd (data buf) (size buf) flags
  | RReadFixed fd ix buf offset => prep_read_fixed fd (data buf) (size buf) offset ix
  | RWriteFixed fd ix buf offset => prep_write_fixed fd (data buf) (size buf) offset ix
  end.

(** The requests whose length and index survive the conversions to the 32-bit fields of an
    entry: the buffer is smaller than 4 GiB, the index fits an [int]. *)
Definition fits (rq : request) : Prop :=
  match rq with
  | RRead _ buf _ | RWrite _ buf _ | RRecv _ buf _ | RSend _ buf _ => 0 ≤ size buf < 2^32
  | RReadFixed _ ix buf _ | RWriteFixed _ ix buf _ => 0 ≤ size buf < 2^32 ∧ 0 ≤ ix ≤ int32_max
  | RAccept _ => True
  end.

(** The entry with these conversions. *)
Definition queued_op (rq : request) : sqe_op :=
  match rq with
  | RRead fd buf offset => prep_read fd (data buf) (uint32 (size buf)) offset
  | RWrite fd buf offset => prep_write fd (data buf) (uint32 (size buf)) offset
  | RReadFixed fd ix buf offset =>
      prep_read_fixed fd (data buf) (uint32 (size buf)) offset (to_int32 ix)
  | RWriteFixed fd ix buf offset =>
      prep_write_fixed fd (data buf) (uint32 (size buf)) offset (to_int32 ix)
  | _ => request_op rq
  end.

Lemma queued_fits rq : fits rq → queued_op rq = request_op rq.
Proof.
  assert (∀ z, 0 ≤ z < 2^32 → uint32 z = z) as Hu by (intros; unfold uint32; by apply Z.mod_small).
  assert (∀ z, 0 ≤ z ≤ int32_max → to_int32 z = z) as Hi.
  { intros z Hz. unfold to_int32. rewrite Hu by int_lia. by rewrite (proj2 (Z.leb_le _ _)) by lia. }
  destruct rq; simpl; intros H; try done; rewrite ?Hu, ?Hi by (by destruct H || done); done.
Qed.

Lemma queued_operation rq : queued_op rq ≠ prep_nop.
Proof. by destruct rq. Qed.

Section submission.
Context {ring : Type} `{!Liburing ring, !RingView ring, !LiburingLaws ring}.
Implicit Types (r : ring) (e : sqe).

#[global] Instance progress_trans : Transitive (progress (ring:=ring)).
Proof.
  intros r1 r2 r3 [(f1 & n1 & P1 & C1 & D1) Q1 K1] [(f2 & n2 & P2 & C2 & D2) Q2 K2].
  split; [|by rewrite Q2|auto]. exists (f1 ++ f2), (n1 ++ n2). split_and!.
  - by rewrite P1, P2, (assoc (++)).
  - by rewrite C2, C1, (assoc (++)).
  - by rewrite !fmap_app, D1, D2.
Qed.

Lemma same_progress r r' : sq r' = sq r → same_kernel r r' → progress r r'.
Proof.
  intros Hs [H1 H2 H3]. split.
  - exists [], []. by rewrite Hs, H2, H3, app_nil_r.
  - unfold requests. by rewrite H1, Hs.
  - unfold ring_ok. by rewrite H3.
Qed.

(** The ring after one more entry was queued and handed over. *)
Record enqueued (e : sqe) (r r' : ring) : Prop := {
  enq_done : ∃ fin new,
    (sq r ++ [e]) ++ inflight r ≡ₚ fin ++ sq r' ++ inflight r' ∧ cq r' = cq r ++ new ∧
    sqe_data <$> fin = cqe_data <$> new;
  enq_req : requests r' = requests r ++ [e];
  enq_res : ring_ok r → ring_ok r';
}.

Lemma progress_enqueued r r0 e r' : progress r r0 → enqueued e r0 r' → enqueued e r r'.
Proof.
  intros [(f1 & n1 & P1 & C1 & D1) Q1 K1] [(f2 & n2 & P2 & C2 & D2) Q2 K2].
  split; [|by rewrite Q2, Q1|auto]. exists (f1 ++ f2), (n1 ++ n2). split_and!.
  - rewrite <- !(assoc (++)), <- P2. transitivity (e :: sq r ++ inflight r).
    + solve_Permutation.
    + rewrite P1. solve_Permutation.
  - by rewrite C2, C1, (assoc (++)).
  - by rewrite !fmap_app, D1, D2.
Qed.

Lemma get_sqe_some r p r' :
  get_sqe r = (Some p, r') →
  ∃ r0 e, progress r r0 ∧ p = length (sq r0) ∧ sq r' = sq r0 ++ [e] ∧ same_kernel r0 r'.
Proof.
  unfold get_sqe. destruct (io_uring_get_sqe r) as [[q|] r1] eqn:E1.
  - intros [= <- <-]. apply law_get_some in E1 as (? & [e ?] & ?). exists r, e. by split_and!.
  - apply law_get_none in E1 as (_ & ? & ?). destruct (io_uring_submit r1) as [n r2] eqn:E2.
    intros E3. apply law_submit in E2. apply law_get_some in E3 as (? & [e ?] & ?).
    exists r2, e. split_and!; [|done..]. by trans r1; [apply same_progress|].
Qed.

Lemma get_sqe_null r r' : get_sqe r = (None, r') → progress r r'.
Proof.
  unfold get_sqe. destruct (io_uring_get_sqe r) as [[q|] r1] eqn:E1; [done|].
  apply law_get_none in E1 as (_ & ? & ?). destruct (io_uring_submit r1) as [n r2] eqn:E2.
  intros E3. apply law_submit in E2. apply law_get_none in E3 as (_ & ? & ?).
  trans r1; [by apply same_progress|]. trans r2; [done|by apply same_progress].
Qed.

(** [get_sqe] returns null only when the kernel does not take the queue. *)
Lemma get_sqe_refused r r' : get_sqe r = (None, r') → refuses r.
Proof.
  unfold get_sqe, refuses. destruct (io_uring_get_sqe r) as [[q|] r1] eqn:E1; [done|].
  destruct (io_uring_submit r1) as [n r2] eqn:E2. intros E3.
  exists r1, n, r2. split_and!; [done..|]. by apply law_get_none in E3 as (? & _).
Qed.

Lemma get_sqe_full r r' : get_sqe r = (None, r') → sq r' ≠ [].
Proof.
  unfold get_sqe. destruct (io_uring_get_sqe r) as [[q|] r1]; [done|].
  destruct (io_uring_submit r1) as [n r2]. intros E. apply law_get_none in E as (? & Hs & _).
  by rewrite Hs.
Qed.

(** Filling the entry [get_sqe] returned and submitting it. *)
Lemma fill_enqueued r p r1 o d n r' :
  get_sqe r = (Some p, r1) →
  io_uring_submit (io_uring_sqe_set_data p d (io_uring_prep p o r1)) = (n, r') →
  enqueued (Sqe o d) r r'.
Proof.
  intros Hg Hs. apply get_sqe_some in Hg as (r0 & e & H0 & -> & Hsq & Hk).
  apply law_submit in Hs. set (r2 := io_uring_prep _ _ _) in *.
  set (r3 := io_uring_sqe_set_data _ _ _) in *.
  destruct (law_prep (length (sq r0)) o r1) as [A1 A2]. fold r2 in A1, A2.
  destruct (law_set_data (length (sq r0)) d r2) as [B1 B2]. fold r3 in B1, B2.
  assert (sq r3 = sq r0 ++ [Sqe o d]) as E3.
  { rewrite B1, A1, Hsq, !(alter_insert_lookup _ _ _ _ (lookup_snoc_eq _ _)).
    rewrite insert_app_r_alt, Nat.sub_diag by done. simpl.
    rewrite (alter_insert_lookup _ _ _ _ (lookup_snoc_eq _ _)).
    by rewrite insert_app_r_alt, Nat.sub_diag by done. }
  destruct Hk, A2, B2. apply (progress_enqueued _ r0); [done|].
  destruct Hs as [(fin & new & P & C & D) Q K]. split.
  - exists fin, new. rewrite <- P, E3. split_and!; [|by rewrite C; congruence|done].
    by replace (inflight r3) with (inflight r0) by congruence.
  - rewrite Q. unfold requests. rewrite E3, (assoc (++)). congruence.
  - intros Hr. apply K. unfold ring_ok in *. congruence.
Qed.

(** What a change of the ring does to the user data that it still holds. *)
Record evolves (ds : list Z) (r r' : ring) : Prop := {
  ev_prefix : cq r `prefix_of` cq r';
  ev_res : ring_ok r → ring_ok r';
  ev_out : ∀ i, (i ≤ length (cq r))%nat → outstanding_from i r' ≡ₚ ds ++ outstanding_from i r;
}.

Lemma progress_evolves r r' : progress r r' → evolves [] r r'.
Proof.
  intros H. split; [by apply progress_prefix|apply H|]. intros i Hi. symmetry.
  by apply progress_from.
Qed.

Lemma enqueued_evolves e r r' : enqueued e r r' → evolves [sqe_data e] r r'.
Proof.
  intros [(fin & new & P & C & D) Q K]. split; [by exists new|done|]. intros i Hi.
  unfold outstanding_from. rewrite C, drop_app_le, (fmap_app cqe_data), <- D by done.
  transitivity ((sqe_data <$> (fin ++ sq r' ++ inflight r')) ++ (cqe_data <$> drop i (cq r))).
  - rewrite !fmap_app. solve_Permutation.
  - rewrite <- P, !fmap_app. simpl. solve_Permutation.
Qed.

Lemma prep_set_inv sqe o d r r1 r2 :
  prep sqe o r = Ok r1 → sqe_set_data sqe d r1 = Ok r2 →
  ∃ p, sqe = Some p ∧ r2 = io_uring_sqe_set_data p d (io_uring_prep p o r).
Proof. destruct sqe as [p|]; [|done]. intros [= <-] [= <-]. eauto. Qed.

End submission.

(** ** Effect of each call *)

Section calls.
Context {ring R : Type} `{!Liburing ring, !RingView ring, !LiburingLaws ring}.
Implicit Types (c : ring_impl ring R) (cb : R).

Lemma submit_unfold rq cb addr c :
  submit rq cb addr c =
    let '(sqe, r) := get_sqe (the_ring c) in
    r1 ← prep sqe (queued_op rq) r; submit_with_cb sqe cb addr (set_ring r1 c).
Proof. by destruct rq. Qed.

Lemma submit_effect rq cb addr c a c' :
  submit rq cb addr c = Ok (a, c') →
  a = addr ∧ heap c' = <[addr:=cb]> (heap c) ∧ running c' = running c ∧
  enqueued (Sqe (queued_op rq) addr) (the_ring c) (the_ring c').
Proof.
  rewrite submit_unfold. destruct (get_sqe (the_ring c)) as [q r] eqn:Hg. intros H.
  apply outcome_bind_ok in H as (r1 & Hp & H). unfold submit_with_cb in H.
  apply outcome_bind_ok in H as (r2 & Hd & H). simpl in Hd.
  destruct (prep_set_inv _ _ _ _ _ _ Hp Hd) as (p & -> & ->).
  destruct (io_uring_submit _) as [n r3] eqn:Hs. injection H as <- <-.
  split_and!; [done..|]. by eapply fill_enqueued.
Qed.

Lemma cancel_effect p c c' :
  submit_cancel p c = Ok c' →
  heap c' = heap c ∧ running c' = running c ∧
  enqueued (Sqe (prep_cancel p) 0) (the_ring c) (the_ring c').
Proof.
  unfold submit_cancel. destruct (get_sqe (the_ring c)) as [q r] eqn:Hg. intros H.
  apply outcome_bind_ok in H as (r1 & Hp & H). apply outcome_bind_ok in H as (r2 & Hd & H).
  destruct (prep_set_inv _ _ _ _ _ _ Hp Hd) as (k & -> & ->).
  destruct (io_uring_submit _) as [n r3] eqn:Hs. injection H as <-.
  split_and!; [done..|]. by eapply fill_enqueued.
Qed.

Lemma stop_wake_effect c :
  ∃ c', stop_wake c = Ok c' ∧ heap c' = heap c ∧ running c' = running c ∧
  (enqueued (Sqe prep_nop 0) (the_ring c) (the_ring c') ∨
   (∃ r, get_sqe (the_ring c) = (None, r)) ∧ progress (the_ring c) (the_ring c')).
Proof.
  unfold stop_wake. destruct (get_sqe (the_ring c)) as [[p|] r] eqn:Hg; simpl.
  - destruct (io_uring_submit _) as [n r3] eqn:Hs. eexists. split_and!; [done..|].
    left. by eapply fill_enqueued.
  - eexists. split_and!; [done..|]. right. simpl. split; [eauto|by apply get_sqe_null].
Qed.

Lemma register_effect bs c :
  ∃ e c', register_buffers bs c = Ok (e, c') ∧ heap c' = heap c ∧ running c' = running c ∧
  progress (the_ring c) (the_ring c').
Proof.
  unfold register_buffers. destruct (io_uring_register_buffers _ _ _) as [n r] eqn:E.
  apply law_register in E as [? Hn]. destruct (n <? 0) eqn:El; zbool; [|by eauto 10].
  rewrite ret_code by done. simpl. eauto 10.
Qed.

Lemma unregister_effect c :
  ∃ e c', unregister_buffers c = Ok (e, c') ∧ heap c' = heap c ∧ running c' = running c ∧
  progress (the_ring c) (the_ring c').
Proof.
  unfold unregister_buffers. destruct (io_uring_unregister_buffers _) as [n r] eqn:E.
  apply law_unregister in E as [? Hn]. destruct (n <? 0) eqn:El; zbool; [|by eauto 10].
  rewrite ret_code by done. simpl. eauto 10.
Qed.

End calls.

(** ** The invariant *)

Section invariant.
Context {ring R : Type} `{!Liburing ring, !RingView ring, !LiburingLaws ring}.
Implicit Types (s : io_sys ring R) (a : action R).

(** The number of completions at the head of the queue already processed. *)
Definition seen (pc : loop_pc) : nat :=
  match pc with
  | ForEach count | InCallback count _ | Advance count => count
  | _ => 0
  end.

Definition nonnull (l : list Z) : list Z := filter (λ d, d ≠ 0) l.

#[global] Instance nonnull_perm : Proper ((≡ₚ) ==> (≡ₚ)) nonnull.
Proof. unfold nonnull. solve_proper. Qed.

Lemma nonnull_cons d l : d ≠ 0 → nonnull (d :: l) = d :: nonnull l.
Proof. intros. unfold nonnull. by rewrite filter_cons_True. Qed.

Definition addresses (h : gmap Z R) : list Z := (map_to_list h).*1.
Definition receivers (h : gmap Z R) : list R := (map_to_list h).*2.

(** The callbacks that were not invoked yet. *)
Definition pending s : gmap Z R :=
  match loop s with
  | InCallback _ cb => delete cb (heap (ctx s))
  | _ => heap (ctx s)
  end.

(** The receivers handed over by a sequence of calls. *)
Definition started_by a : option R := match a with ASubmit _ cb _ => Some cb | _ => None end.

Record Inv (started : list R) s : Prop := {
  inv_seen : (seen (loop s) ≤ length (cq (the_ring (ctx s))))%nat;
  inv_res : ring_ok (the_ring (ctx s));
  inv_own : nonnull (outstanding_from (seen (loop s)) (the_ring (ctx s))) ≡ₚ addresses (heap (ctx s));
  inv_cb : match loop s with
           | InCallback i a => a ≠ 0 ∧ ∃ c, cq (the_ring (ctx s)) !! i = Some c ∧ cqe_data c = a
           | _ => True
           end;
  inv_once : started ≡ₚ (delivered s).*1 ++ receivers (pending s);
}.

Lemma elem_addresses (h : gmap Z R) x : x ∈ addresses h ↔ is_Some (h !! x).
Proof.
  unfold addresses. rewrite list_elem_of_fmap. split.
  - intros ([y v] & -> & Hy). apply elem_of_map_to_list in Hy. by exists v.
  - intros [v Hv]. exists (x, v). split; [done|]. by apply elem_of_map_to_list.
Qed.

Lemma addresses_insert (h : gmap Z R) x v :
  h !! x = None → addresses (<[x:=v]> h) ≡ₚ x :: addresses h.
Proof. intros Hx. unfold addresses. by rewrite map_to_list_insert. Qed.

Lemma receivers_insert (h : gmap Z R) x v :
  h !! x = None → receivers (<[x:=v]> h) ≡ₚ v :: receivers h.
Proof. intros Hx. unfold receivers. by rewrite map_to_list_insert. Qed.

Lemma receivers_delete (h : gmap Z R) x v :
  h !! x = Some v → receivers h ≡ₚ v :: receivers (delete x h).
Proof. intros Hx. unfold receivers. by rewrite <- (map_to_list_delete h x v). Qed.

Lemma addresses_delete (h : gmap Z R) x v :
  h !! x = Some v → addresses h ≡ₚ x :: addresses (delete x h).
Proof. intros Hx. unfold addresses. by rewrite <- (map_to_list_delete h x v). Qed.

(** The next completion leaves the set of outstanding user data. *)
Lemma outstanding_next (r : ring) i c :
  cq r !! i = Some c → outstanding_from i r ≡ₚ cqe_data c :: outstanding_from (S i) r.
Proof.
  intros Hc. unfold outstanding_from. rewrite (drop_S _ _ _ Hc). simpl. solve_Permutation.
Qed.

(** The owner of the next completion is allocated. *)
Lemma next_owned st s c :
  Inv st s → cq (the_ring (ctx s)) !! seen (loop s) = Some c → cqe_data c ≠ 0 →
  is_Some (heap (ctx s) !! cqe_data c).
Proof.
  intros HI Hc Hd. apply elem_addresses. rewrite <- (inv_own _ _ HI).
  rewrite (outstanding_next _ _ _ Hc), nonnull_cons by done. left.
Qed.

(** The kernel moves, or entries without a callback are queued. *)
Lemma inv_ring st s r' ds :
  Inv st s → evolves ds (the_ring (ctx s)) r' → nonnull ds = [] →
  Inv st (set_ctx (set_ring r' (ctx s)) s).
Proof.
  intros [H1 H2 H3 H4 H5] [E1 E2 E3] Hds. split; simpl; [|auto| | |done].
  - apply prefix_length in E1. lia.
  - rewrite E3 by done. unfold nonnull in *. by rewrite filter_app, Hds.
  - destruct (loop s); try done. destruct H4 as (? & c & Hc & ?). split; [done|].
    exists c. split; [|done]. by eapply prefix_lookup_Some.
Qed.

(** A control transfer that keeps the number of completions seen. *)
Lemma inv_goto st s pc :
  Inv st s → seen pc = seen (loop s) → (∀ i p, loop s ≠ InCallback i p) →
  (∀ i p, pc ≠ InCallback i p) → Inv st (set_loop pc s).
Proof.
  intros [H1 H2 H3 H4 H5] Hs Hn Hn'. split; simpl; rewrite ?Hs; try done.
  - destruct pc; naive_solver.
  - unfold pending in *; simpl. destruct pc, (loop s); naive_solver.
Qed.

Lemma set_ctx_id (c : ring_impl ring R) s : heap c = heap (ctx s) → running c = running (ctx s) →
  set_ctx c s = set_ctx (set_ring (the_ring c) (ctx s)) s.
Proof. destruct c; simpl. by intros -> ->. Qed.

Lemma inv_submit st s rq cb addr c :
  Inv st s → new_ok addr (heap (ctx s)) = true → submit rq cb addr (ctx s) = Ok (addr, c) →
  Inv (st ++ [cb]) (set_ctx c s).
Proof.
  intros [H1 H2 H3 H4 H5] Hn Hs. apply submit_effect in Hs as (_ & Hh & _ & He).
  apply enqueued_evolves in He as [E1 E2 E3]. simpl in E3.
  apply andb_true_iff in Hn as [Hz Hf]. apply negb_true_iff in Hz. zbool.
  apply bool_decide_eq_true in Hf. split; simpl; [|auto| | |].
  - apply prefix_length in E1. lia.
  - rewrite E3, Hh, nonnull_cons by done. by rewrite H3, addresses_insert.
  - destruct (loop s); try done. destruct H4 as (? & d & Hd & ?). split; [done|].
    exists d. split; [|done]. by eapply prefix_lookup_Some.
  - assert (receivers (pending (set_ctx c s)) ≡ₚ cb :: receivers (pending s)) as ->.
    + unfold pending in *. simpl. rewrite Hh. destruct (loop s) as [| | | | |i p|];
        try (by apply receivers_insert).
      assert (p ≠ addr) as Hne.
      { intros ->. destruct H4 as (_ & d & Hd & <-).
        assert (is_Some (heap (ctx s) !! cqe_data d)) as [v Hv]; [|congruence].
        apply elem_addresses. rewrite <- H3, (outstanding_next _ _ _ Hd), nonnull_cons by done. left. }
      rewrite delete_insert_ne by done. apply receivers_insert. by rewrite lookup_delete_ne.
    + rewrite H5. solve_Permutation.
Qed.

Lemma inv_running st s b : Inv st s → Inv st (set_ctx (set_running b (ctx s)) s).
Proof. by intros [H1 H2 H3 H4 H5]. Qed.

(** An entry without a callback is skipped. *)
Lemma inv_skip st s i c :
  Inv st s → loop s = ForEach i → cq (the_ring (ctx s)) !! i = Some c → cqe_data c = 0 →
  Inv st (set_loop (ForEach (S i)) s).
Proof.
  intros [H1 H2 H3 H4 H5] Hl Hc Hd. unfold pending in *. rewrite Hl in *. simpl in *.
  split; simpl; [|done| |done|done].
  - by apply lookup_lt_Some in Hc.
  - rewrite <- H3, (outstanding_next _ _ _ Hc), Hd. done.
Qed.

(** The callback of an entry is invoked. *)
Lemma inv_invoke st s i c v g :
  Inv st s → loop s = ForEach i → cq (the_ring (ctx s)) !! i = Some c → cqe_data c ≠ 0 →
  heap (ctx s) !! cqe_data c = Some v →
  Inv st (set_loop (InCallback i (cqe_data c)) (log_signal v g s)).
Proof.
  intros [H1 H2 H3 H4 H5] Hl Hc Hd Hv. unfold pending in *. rewrite Hl in *. simpl in *.
  split; simpl; [done..|by eauto|].
  unfold pending; simpl. rewrite H5, (receivers_delete _ _ _ Hv), fmap_app. simpl.
  solve_Permutation.
Qed.

(** The callback of an entry is deleted. *)
Lemma inv_delete st s i p :
  Inv st s → loop s = InCallback i p →
  ∃ c, delete_cb p (ctx s) = Ok c ∧ Inv st (set_loop (ForEach (S i)) (set_ctx c s)).
Proof.
  intros HI Hl. pose proof HI as [H1 H2 H3 H4 H5]. unfold pending in *. rewrite Hl in *.
  destruct H4 as (Hp & c & Hc & <-).
  destruct (next_owned _ _ c HI) as [v Hv]; [by rewrite Hl|done|].
  unfold delete_cb. rewrite Hv. eexists. split; [done|]. simpl in *.
  split; simpl; [by apply lookup_lt_Some in Hc|done| |done|done].
  apply (Permutation_cons_inv (a:=cqe_data c)).
  by rewrite <- nonnull_cons, <- (outstanding_next _ _ _ Hc), H3, <- (addresses_delete _ _ _ Hv).
Qed.

Lemma inv_advance st s i :
  Inv st s → loop s = Advance i →
  Inv st (set_loop WhileTest (set_ctx (set_ring (io_uring_cq_advance i (the_ring (ctx s))) (ctx s)) s)).
Proof.
  intros [H1 H2 H3 H4 H5] Hl. unfold pending in *. rewrite Hl in *. simpl in *.
  destruct (law_advance i (the_ring (ctx s))) as (A1 & A2 & A3 & A4).
  split; simpl; [lia| | |done|done].
  - unfold ring_ok in *. rewrite A4. by apply Forall_drop.
  - rewrite <- H3. unfold outstanding_from. by rewrite A1, A3, A4, drop_0.
Qed.

Lemma inv_for_each st s i :
  Inv st s → loop s = ForEach i → ∃ s', for_each_step i s = Ok s' ∧ Inv st s'.
Proof.
  intros HI Hl. unfold for_each_step.
  destruct (io_uring_cqe_at i _) as [c r] eqn:E. apply law_at in E as [Hp Hc].
  apply progress_evolves in Hp. pose proof (inv_ring _ _ _ _ HI Hp eq_refl) as HI'.
  set (s1 := set_ctx _ s) in *. assert (loop s1 = ForEach i) as Hl1 by done.
  destruct c as [c|]; [|eexists; split; [done|]; apply inv_goto; rewrite ?Hl1; done].
  destruct (cqe_data c =? 0) eqn:Ez; zbool; [eexists; split; [done|]; by eapply inv_skip|].
  destruct (next_owned _ _ c HI') as [v Hv]; [by rewrite Hl1|done|]. rewrite Hv.
  assert (res_ok c) as Hr by (eapply Forall_lookup_1; [apply HI'|done]).
  destruct (make_io_callback_total {| res := cqe_res c; flags := cqe_flags c |}) as (g & Hg & _).
  { unfold res_ok in Hr. simpl. int_lia. }
  rewrite Hg. eexists. split; [done|]. by apply inv_invoke.
Qed.

Lemma inv_run_step st s o : Inv st s → run_step s = Some o → ∃ s', o = Ok s' ∧ Inv st s'.
Proof.
  intros HI. unfold run_step. destruct (loop s) eqn:Hl; intros H.
  - done.
  - injection H as <-. eexists. split; [done|].
    apply inv_goto; [by apply inv_running|by simpl; rewrite ?Hl..].
  - injection H as <-. eexists. split; [done|].
    apply inv_goto; [done|rewrite ?Hl; by destruct (running (ctx s))..].
  - apply bind_Some in H as ([ret r] & Hw & H). injection H as <-. eexists. split; [done|].
    apply law_wait in Hw as [Hp _]. apply progress_evolves in Hp.
    pose proof (inv_ring _ _ _ _ HI Hp eq_refl) as HI'.
    destruct (ret <? 0); [destruct (ret =? _)|];
      (apply inv_goto; [done|simpl; by rewrite ?Hl..]).
  - injection H as <-. by apply inv_for_each.
  - injection H as <-. destruct (inv_delete _ _ _ _ HI Hl) as (c & -> & ?). by eexists.
  - injection H as <-. eexists. split; [done|]. by apply inv_advance.
Qed.

Lemma io_inv_step st s a s' :
  Inv st s → io_step s a s' → Inv (st ++ option_list (started_by a)) s'.
Proof.
  unfold io_step. intros HI H. destruct a; simpl in *; rewrite ?app_nil_r.
  - destruct (inv_run_step _ _ _ HI H) as (? & [= <-] & ?). done.
  - destruct (loop s) eqn:Hl; try done. injection H as <-. apply inv_goto; rewrite ?Hl; done.
  - destruct (new_ok _ _) eqn:Hn; [|done]. injection H as H.
    apply outcome_bind_ok in H as ([p c] & Hs & [= <-]).
    pose proof (submit_effect _ _ _ _ _ _ Hs) as (-> & _). by eapply inv_submit.
  - injection H as H. apply outcome_bind_ok in H as (c & Hs & [= <-]).
    apply cancel_effect in Hs as (? & ? & He). rewrite set_ctx_id by done.
    eapply inv_ring; [done|by apply enqueued_evolves|done].
  - injection H as <-. by apply inv_running.
  - injection H as H. destruct (stop_wake_effect (ctx s)) as (c & Hs & ? & ? & He).
    rewrite Hs in H. injection H as <-. rewrite set_ctx_id by done.
    destruct He as [He|[_ He]];
      (eapply inv_ring; [done|first [by apply enqueued_evolves|by apply progress_evolves]|done]).
  - injection H as H. destruct (register_effect buffers (ctx s)) as (e & c & Hs & ? & ? & He).
    rewrite Hs in H. injection H as <-. rewrite set_ctx_id by done.
    eapply inv_ring; [done|by apply progress_evolves|done].
  - injection H as H. destruct (unregister_effect (ctx s)) as (e & c & Hs & ? & ? & He).
    rewrite Hs in H. injection H as <-. rewrite set_ctx_id by done.
    eapply inv_ring; [done|by apply progress_evolves|done].
Qed.

Lemma io_inv_init depth c : new_ring_impl depth = Ok (inr c) → Inv [] (fresh_sys c).
Proof.
  unfold new_ring_impl. destruct (io_uring_queue_init depth) as [n r] eqn:E.
  apply law_init in E as [_ Hn]. destruct (n <? 0) eqn:El; zbool.
  - intros H. apply outcome_bind_ok in H as (? & _ & H). done.
  - intros [= <-]. destruct (Hn El) as (Hq & Hi & Hc). apply app_eq_nil in Hq as [_ Hs].
    split; simpl; [lia|by unfold ring_ok; rewrite Hc| |done|done].
    unfold outstanding_from. by rewrite Hs, Hi, Hc.
Qed.

Lemma inv_reachable depth c ls s :
  new_ring_impl depth = Ok (inr c) → runs io_step (fresh_sys c) ls s → Inv (omap started_by ls) s.
Proof.
  intros Hc. remember (fresh_sys c) as s0 eqn:E0. induction 1 as [|s0 ls s1 a s2 ? IH Hstep].
  - subst. by eapply io_inv_init.
  - rewrite omap_app. simpl. replace (match started_by a with Some y => [y] | None => [] end)
      with (option_list (started_by a)) by (by destruct (started_by a)).
    eapply io_inv_step; [by apply IH|done].
Qed.
End invariant.
