(* ===== verification/IoContextTheorems.v ===== *)
(** * What the io_uring context guarantees

    The properties of [io_context] over every reachable state of IoContext.v, for
    every ring that satisfies the laws of Uring.v. *)

From S2P Require Import Prelude MachineInt Completion Uring IoContext IoContextProof.
From stdpp Require Import options.
Local Open Scope Z_scope.
Set Default Proof Using "Type*".

Section theorems.
Context {ring R : Type} `{!Liburing ring, !RingView ring, !LiburingLaws ring}.
Implicit Types (s : io_sys ring R) (c : ring_impl ring R) (a : action R).

(** ** Calls that can fail *)

Lemma submit_undef rq cb addr c u :
  submit rq cb addr c = Undef u → u = NullDeref ∧ ∃ r, get_sqe (the_ring c) = (None, r).
Proof.
  rewrite submit_unfold. destruct (get_sqe _) as [[p|] r] eqn:E.
  - unfold submit_with_cb. simpl. by destruct (io_uring_submit _).
  - simpl. intros [= <-]. eauto.
Qed.

Lemma cancel_undef p c u :
  submit_cancel p c = Undef u → u = NullDeref ∧ ∃ r, get_sqe (the_ring c) = (None, r).
Proof.
  unfold submit_cancel. destruct (get_sqe _) as [[q|] r] eqn:E; simpl.
  - by destruct (io_uring_submit _).
  - intros [= <-]. eauto.
Qed.

(** A submission and a cancellation, with and without an entry. *)
Lemma submit_cases rq cb addr c :
  match get_sqe (the_ring c) with
  | (Some _, _) => ∃ o c1, submit rq cb addr c = Ok (addr, c1) ∧ (fits rq → o = request_op rq) ∧
      heap c1 = <[addr:=cb]> (heap c) ∧ running c1 = running c ∧
      enqueued (Sqe o addr) (the_ring c) (the_ring c1)
  | (None, _) => refuses (the_ring c) ∧ submit rq cb addr c = Undef NullDeref
  end.
Proof.
  destruct (get_sqe (the_ring c)) as [[q|] r] eqn:Hg.
  - destruct (submit rq cb addr c) as [[x c1]|u] eqn:E;
      [|apply submit_undef in E as (_ & ? & ?); congruence].
    apply submit_effect in E as (-> & ? & ? & ?). exists (queued_op rq), c1.
    split_and!; try done. apply queued_fits.
  - split; [by eapply get_sqe_refused|]. by rewrite submit_unfold, Hg.
Qed.

Lemma cancel_cases p c :
  match get_sqe (the_ring c) with
  | (Some _, _) => ∃ c1, submit_cancel p c = Ok c1 ∧ heap c1 = heap c ∧ running c1 = running c ∧
      enqueued (Sqe (prep_cancel p) 0) (the_ring c) (the_ring c1)
  | (None, _) => refuses (the_ring c) ∧ submit_cancel p c = Undef NullDeref
  end.
Proof.
  destruct (get_sqe (the_ring c)) as [[q|] r] eqn:Hg.
  - destruct (submit_cancel p c) as [c1|u] eqn:E;
      [|apply cancel_undef in E as (_ & ? & ?); congruence].
    apply cancel_effect in E as (? & ? & ?). by exists c1.
  - split; [by eapply get_sqe_refused|]. unfold submit_cancel. by rewrite Hg.
Qed.

(** Undefined behaviour comes from a null submission entry only. *)
Lemma undef_is_null st s a u :
  Inv st s → io_act a s = Some (Undef u) →
  u = NullDeref ∧ a ≠ ALoop ∧ ∃ r, get_sqe (the_ring (ctx s)) = (None, r).
Proof.
  intros HI H. destruct a; simpl in H.
  - destruct (inv_run_step _ _ _ HI H) as (? & ? & _). done.
  - by destruct (loop s).
  - destruct (new_ok _ _); [|done]. injection H as H.
    destruct (submit _ _ _ _) as [[? ?]|v] eqn:E; [done|]. injection H as <-.
    apply submit_undef in E as [? ?]. by split_and!.
  - injection H as H. destruct (submit_cancel _ _) as [?|v] eqn:E; [done|]. injection H as <-.
    apply cancel_undef in E as [? ?]. by split_and!.
  - done.
  - destruct (stop_wake_effect (ctx s)) as (c' & E & _). by rewrite E in H.
  - destruct (register_effect buffers (ctx s)) as (? & ? & E & _). by rewrite E in H.
  - destruct (unregister_effect (ctx s)) as (? & ? & E & _). by rewrite E in H.
Qed.

(** Calls do not move the thread inside [run()]. *)
Lemma call_keeps_loop (io io' : io_sys ring R) b :
  io_step io b io' → b ≠ ALoop → b ≠ ACallRun → loop io' = loop io.
Proof using ring Liburing0.
  unfold io_step. intros H H1 H2. destruct b; simpl in H; try done.
  1: destruct (new_ok _ _); [|done].
  all: injection H as H; try (by simplify_eq); outcome_inv; repeat case_match; simplify_eq/=;
    try done; by apply outcome_bind_ok in H as (? & _ & [= <-]).
Qed.

Lemma call_keeps_delivered (io io' : io_sys ring R) b :
  io_step io b io' → b ≠ ALoop → delivered io' = delivered io.
Proof using ring Liburing0.
  unfold io_step. intros H H1. destruct b; simpl in H; try done.
  1: by destruct (loop io); simplify_eq/=.
  1: destruct (new_ok _ _); [|done].
  all: injection H as H; try (by simplify_eq); outcome_inv; repeat case_match; simplify_eq/=;
    try done; by apply outcome_bind_ok in H as (? & _ & [= <-]).
Qed.

(** A turn of the loop signals at most one receiver, whose callback was not invoked yet. *)
Lemma loop_delivers (io io' : io_sys ring R) :
  io_step io ALoop io' →
  delivered io' = delivered io ∨
  ∃ cb g v, delivered io' = delivered io ++ [(cb, g)] ∧ cb ∈ receivers (pending io) ∧
    make_io_callback v = Ok g.
Proof.
  unfold io_step. simpl. intros H. unfold run_step in H. unfold pending.
  destruct (loop io) eqn:El; try done.
  - left. by injection H as <-.
  - left. by injection H as <-.
  - left. apply bind_Some in H as ([n r] & _ & H). injection H as <-.
    by destruct (n <? 0); [destruct (n =? _)|].
  - injection H as H. unfold for_each_step in H. destruct (io_uring_cqe_at _ _) as [[d|] r].
    + destruct (cqe_data d =? 0); [left; by injection H as <-|]. simpl in H.
      destruct (heap (ctx io) !! cqe_data d) as [cb|] eqn:Ecb; [|done].
      apply outcome_bind_ok in H as (g & Hg & [= <-]). right. exists cb, g. eexists.
      split_and!; [done| |exact Hg]. rewrite (receivers_delete _ _ _ Ecb). left.
    + left. by injection H as <-.
  - left. injection H as H. by apply outcome_bind_ok in H as (c & _ & [= <-]).
  - left. by injection H as <-.
Qed.

(** (C19) Memory safety of the context under every interleaving of the event
    loop with submissions, cancellations, stops and buffer registrations.  The
    loop itself never reaches undefined behaviour: no completion is delivered
    through a dangling callback and no callback is deleted twice.  The only
    undefined behaviour of the other calls is the dereference of a null
    submission entry, and it happens only when, at that moment, the submission queue
    is full and [io_uring_submit] does not empty it. *)
Theorem io_context_memory_safe depth c ls s a u :
  new_ring_impl depth = Ok (inr c) → runs io_step (fresh_sys c) ls s →
  io_act a s = Some (Undef u) → u = NullDeref ∧ a ≠ ALoop ∧ refuses (the_ring (ctx s)).
Proof.
  intros Hc Hr Ha. pose proof (inv_reachable _ _ _ _ Hc Hr) as HI.
  destruct (undef_is_null _ _ _ _ HI Ha) as (? & ? & r & Hg). split_and!; [done..|].
  by eapply get_sqe_refused.
Qed.

(** (C20) Every operation completes exactly once.  In every reachable state the
    receivers handed to the context are those that received a signal together
    with those whose callback is still allocated; the allocated callbacks are
    exactly the distinct non-null user data still inside the ring; so when the
    ring holds none, every receiver has received exactly one signal. *)
Theorem io_callbacks_exactly_once depth c ls s :
  new_ring_impl depth = Ok (inr c) → runs io_step (fresh_sys c) ls s →
  omap started_by ls ≡ₚ (delivered s).*1 ++ receivers (pending s) ∧
  nonnull (outstanding_from (seen (loop s)) (the_ring (ctx s))) ≡ₚ addresses (heap (ctx s)) ∧
  NoDup (nonnull (outstanding_from (seen (loop s)) (the_ring (ctx s)))) ∧
  (nonnull (outstanding_from (seen (loop s)) (the_ring (ctx s))) = [] →
   omap started_by ls ≡ₚ (delivered s).*1).
Proof.
  intros Hc Hr. pose proof (inv_reachable _ _ _ _ Hc Hr) as [H1 H2 H3 H4 H5].
  split_and!; [done..| |].
  - rewrite H3. apply NoDup_fst_map_to_list.
  - intros E. rewrite E in H3. apply Permutation_nil_l in H3. symmetry in H3.
    apply fmap_nil_inv, map_to_list_empty_iff in H3.
    rewrite H5. unfold pending, receivers. rewrite H3.
    destruct (loop s); rewrite ?delete_empty, map_to_list_empty; simpl; by rewrite app_nil_r.
Qed.

(** (C24) The calls on a context, for every ring and every state of it.  When
    [get_sqe()] finds an entry, each of the seven submit functions returns the address
    of the callback it allocated, keeps every other callback, and adds exactly one
    entry to the requests, with that address as user data and, for a buffer below
    4 GiB, exactly the operation of the call; [submit_cancel] adds one entry that
    names its target and has null user data; [stop()] clears [running] and adds a
    no-op.  When [get_sqe()] returns null, which is when the queue is full and
    [io_uring_submit] leaves entries in it, every submit function and
    [submit_cancel] dereference the null entry, which is undefined, while [stop()],
    the only caller that tests it, is defined and adds nothing. *)
Theorem submission_needs_an_entry rq cb addr p c :
  match get_sqe (the_ring c) with
  | (Some _, _) => ∃ o c1 c2 c3,
      submit rq cb addr c = Ok (addr, c1) ∧ (fits rq → o = request_op rq) ∧
      heap c1 = <[addr:=cb]> (heap c) ∧ running c1 = running c ∧
      enqueued (Sqe o addr) (the_ring c) (the_ring c1) ∧
      submit_cancel p c = Ok c2 ∧ heap c2 = heap c ∧ running c2 = running c ∧
      enqueued (Sqe (prep_cancel p) 0) (the_ring c) (the_ring c2) ∧
      stop c = Ok c3 ∧ heap c3 = heap c ∧ running c3 = false ∧
      enqueued (Sqe prep_nop 0) (the_ring c) (the_ring c3)
  | (None, r) =>
      refuses (the_ring c) ∧
      submit rq cb addr c = Undef NullDeref ∧ submit_cancel p c = Undef NullDeref ∧
      stop c = Ok (set_ring r (set_running false c)) ∧ progress (the_ring c) r
  end.
Proof.
  pose proof (submit_cases rq cb addr c) as H1. pose proof (cancel_cases p c) as H2.
  destruct (get_sqe (the_ring c)) as [[q|] r] eqn:Hg.
  - destruct H1 as (o & c1 & ? & ? & ? & ? & ?), H2 as (c2 & ? & ? & ? & ?).
    destruct (stop_wake_effect (stop_store c)) as (c3 & E3 & ? & ? & He).
    exists o, c1, c2, c3. split_and!; try done.
    destruct He as [?|[[? He] _]]; [done|]. simpl in He. congruence.
  - destruct H1, H2. split_and!; [done..| |by apply get_sqe_null].
    unfold stop, stop_wake. simpl. by rewrite Hg.
Qed.

(** ** The stream of requests *)

(** The entry each call should produce, and the one it does produce. *)
Definition entry_of a : option sqe :=
  match a with
  | ASubmit rq _ addr => Some (Sqe (request_op rq) addr)
  | ACancel p => Some (Sqe (prep_cancel p) 0)
  | AStopWake => Some (Sqe prep_nop 0)
  | _ => None
  end.
Definition queued_entry a : option sqe :=
  match a with
  | ASubmit rq _ addr => Some (Sqe (queued_op rq) addr)
  | _ => entry_of a
  end.

(** Every buffer is below 4 GiB and every buffer index fits an [int]. *)
Definition calls_fit (ls : list (action R)) : Prop :=
  Forall (λ a, match a with ASubmit rq _ _ => fits rq | _ => True end) ls.

Lemma calls_fit_entries ls : calls_fit ls → omap queued_entry ls = omap entry_of ls.
Proof.
  induction 1 as [|a ls Ha _ IH]; [done|].
  destruct a; cbn; rewrite ?queued_fits by done; first [done|by f_equal].
Qed.

(** The entries that are not a wake-up. *)
Definition operations (es : list sqe) : list sqe := filter (λ e, sqe_op_of e ≠ prep_nop) es.

Lemma run_step_requests s s' :
  run_step s = Some (Ok s') → requests (the_ring (ctx s')) = requests (the_ring (ctx s)).
Proof.
  unfold run_step. destruct (loop s); intros H; try done.
  - by injection H as <-.
  - by injection H as <-.
  - apply bind_Some in H as ([n r] & Hw & H). injection H as <-.
    apply law_wait in Hw as [Hp _]. destruct (n <? 0); [destruct (n =? _)|]; apply Hp.
  - injection H as H. unfold for_each_step in H.
    destruct (io_uring_cqe_at _ _) as [o r] eqn:E. apply law_at in E as [Hp _].
    destruct o as [d|]; [|injection H as <-; apply Hp].
    destruct (cqe_data d =? 0); [injection H as <-; apply Hp|].
    simpl in H. destruct (heap _ !! _); [|done].
    apply outcome_bind_ok in H as (g & _ & [= <-]). apply Hp.
  - injection H as H. apply outcome_bind_ok in H as (c & Hd & [= <-]).
    unfold delete_cb in Hd. destruct (heap _ !! _); [|done]. by injection Hd as <-.
  - injection H as <-. simpl.
    destruct (law_advance count (the_ring (ctx s))) as (A1 & A2 & _). unfold requests. by rewrite A1, A2.
Qed.

Lemma step_requests s a s' :
  io_step s a s' →
  requests (the_ring (ctx s')) = requests (the_ring (ctx s)) ++ option_list (queued_entry a) ∨
  a = AStopWake ∧ refuses (the_ring (ctx s)) ∧
    requests (the_ring (ctx s')) = requests (the_ring (ctx s)).
Proof.
  unfold io_step. intros H. destruct a; simpl in *; rewrite ?app_nil_r.
  - left. by apply run_step_requests.
  - left. destruct (loop s); try done. by injection H as <-.
  - left. destruct (new_ok _ _); [|done]. injection H as H.
    apply outcome_bind_ok in H as ([p c] & Hs & [= <-]). apply (submit_effect _ _ _ _ _ _ Hs).
  - left. injection H as H. apply outcome_bind_ok in H as (c & Hs & [= <-]). apply (cancel_effect _ _ _ Hs).
  - left. by injection H as <-.
  - destruct (stop_wake_effect (ctx s)) as (c & E & _ & _ & He). rewrite E in H. injection H as <-.
    destruct He as [He|[[r Hg] He]]; [left; apply He|right].
    split_and!; [done|by eapply get_sqe_refused|apply He].
  - left. destruct (register_effect buffers (ctx s)) as (e & c & E & _ & _ & Hp).
    rewrite E in H. injection H as <-. apply Hp.
  - left. destruct (unregister_effect (ctx s)) as (e & c & E & _ & _ & Hp).
    rewrite E in H. injection H as <-. apply Hp.
Qed.

(** ** The round trip of a receiver through the ring *)

(** The last submission that was given the address [p]. *)
Definition last_submit (ls : list (action R)) (p : Z) : option (request * R) :=
  foldl (λ o a, match a with
                | ASubmit rq cb addr => if addr =? p then Some (rq, cb) else o
                | _ => o
                end) None ls.

Lemma last_submit_snoc ls a p :
  last_submit (ls ++ [a]) p =
    match a with
    | ASubmit rq cb addr => if addr =? p then Some (rq, cb) else last_submit ls p
    | _ => last_submit ls p
    end.
Proof. unfold last_submit. rewrite foldl_app. by destruct a. Qed.

Lemma last_submit_entry ls p rq cb :
  last_submit ls p = Some (rq, cb) → Sqe (queued_op rq) p ∈ omap queued_entry ls.
Proof.
  induction ls as [|a ls IH] using rev_ind; [done|]. rewrite last_submit_snoc, omap_app. intros H.
  apply elem_of_app. destruct a as [| |rq' cb' addr| | | | |]; try (left; by apply IH).
  destruct (addr =? p) eqn:E; zbool; [|left; by apply IH].
  injection H as <- <-. right. subst. simpl. left.
Qed.

(** The callback at an address is the one of the last submission there. *)
Definition owners_ok (ls : list (action R)) s : Prop :=
  map_Forall (λ p cb, ∃ rq, last_submit ls p = Some (rq, cb)) (heap (ctx s)).

(** No step but a submission allocates. *)
Lemma run_step_heap s s' : run_step s = Some (Ok s') → heap (ctx s') ⊆ heap (ctx s).
Proof.
  unfold run_step. destruct (loop s); intros H; try done.
  - by injection H as <-.
  - by injection H as <-.
  - apply bind_Some in H as ([n r] & _ & H). injection H as <-.
    by destruct (n <? 0); [destruct (n =? _)|].
  - injection H as H. unfold for_each_step in H. destruct (io_uring_cqe_at _ _) as [[d|] r].
    + destruct (cqe_data d =? 0); [by injection H as <-|]. simpl in H.
      destruct (heap _ !! _); [|done]. by apply outcome_bind_ok in H as (g & _ & [= <-]).
    + by injection H as <-.
  - injection H as H. apply outcome_bind_ok in H as (c & Hd & [= <-]).
    unfold delete_cb in Hd. destruct (heap _ !! _); [|done]. injection Hd as <-.
    apply delete_subseteq.
  - by injection H as <-.
Qed.

Lemma owners_step ls s a s' : owners_ok ls s → io_step s a s' → owners_ok (ls ++ [a]) s'.
Proof.
  unfold owners_ok, io_step. intros Ho H.
  assert (∀ h : gmap Z R, h ⊆ heap (ctx s) → (∀ rq cb p, a ≠ ASubmit rq cb p) →
    map_Forall (λ p cb, ∃ rq, last_submit (ls ++ [a]) p = Some (rq, cb)) h) as Hsub.
  { intros h Hh Ha p cb Hp. rewrite last_submit_snoc.
    destruct (Ho p cb) as [rq Hq]; [by eapply lookup_weaken|]. exists rq. destruct a; try done. by destruct (Ha rq0 cb0 addr). }
  destruct a as [| |rq cb addr|q| | |bs|]; simpl in H.
  - apply Hsub; [by apply run_step_heap|done].
  - destruct (loop s); try done. injection H as <-. apply Hsub; [reflexivity|done].
  - destruct (new_ok _ _); [|done]. injection H as H.
    apply outcome_bind_ok in H as ([x c] & Hs & [= <-]). apply submit_effect in Hs as (_ & Hh & _).
    simpl. rewrite Hh. intros p cb' Hp. rewrite last_submit_snoc.
    destruct (addr =? p) eqn:E; zbool.
    + subst. rewrite lookup_insert_eq in Hp. injection Hp as <-. by eexists.
    + rewrite lookup_insert_ne in Hp by done. by apply Ho.
  - injection H as H. apply outcome_bind_ok in H as (c & Hs & [= <-]).
    apply cancel_effect in Hs as (Hh & _). apply Hsub; [simpl; rewrite Hh; reflexivity|done].
  - injection H as <-. apply Hsub; [reflexivity|done].
  - injection H as H. apply outcome_bind_ok in H as (c & Hs & [= <-]).
    destruct (stop_wake_effect (ctx s)) as (c' & E & Hh & _). rewrite E in Hs. injection Hs as <-.
    apply Hsub; [simpl; rewrite Hh; reflexivity|done].
  - destruct (register_effect bs (ctx s)) as (e & c & E & Hh & _).
    rewrite E in H. injection H as <-. apply Hsub; [simpl; rewrite Hh; reflexivity|done].
  - destruct (unregister_effect (ctx s)) as (e & c & E & Hh & _).
    rewrite E in H. injection H as <-. apply Hsub; [simpl; rewrite Hh; reflexivity|done].
Qed.

Lemma owners_reachable c ls s :
  heap c = ∅ → runs io_step (fresh_sys c) ls s → owners_ok ls s.
Proof.
  intros Hc. remember (fresh_sys c) as s0 eqn:E0. induction 1 as [|s0 ls s1 a s2 ? IH Hstep].
  - subst. intros p cb Hp. simpl in Hp. by rewrite Hc in Hp.
  - eapply owners_step; [by apply IH|done].
Qed.

Lemma requests_init depth c :
  new_ring_impl depth = Ok (inr c) → requests (the_ring c) = [] ∧ heap c = ∅.
Proof.
  unfold new_ring_impl. destruct (io_uring_queue_init depth) as [n r] eqn:E.
  apply law_init in E as [_ Hn]. destruct (n <? 0) eqn:El; zbool; intros Hc.
  - apply outcome_bind_ok in Hc as (? & _ & Hc). done.
  - injection Hc as <-. split; [apply (Hn El)|done].
Qed.

Lemma elem_of_operations es es' e :
  operations es = operations es' → sqe_op_of e ≠ prep_nop → e ∈ es' → e ∈ es.
Proof using Type.
  unfold operations. intros H Hn He.
  assert (e ∈ filter (λ e, sqe_op_of e ≠ prep_nop) es') as Hf by (by apply list_elem_of_filter).
  rewrite <- H in Hf. by apply list_elem_of_filter in Hf as [_ ?].
Qed.

(** A [stop()] of the run found the queue full and the kernel not taking it. *)
Definition stop_refused (c : ring_impl ring R) (ls : list (action R)) : Prop :=
  ∃ ls1 ls2 s1, ls = ls1 ++ AStopWake :: ls2 ∧ runs io_step (fresh_sys c) ls1 s1 ∧
    refuses (the_ring (ctx s1)).

Lemma requests_reachable c ls s :
  requests (the_ring c) = [] → runs io_step (fresh_sys c) ls s →
  requests (the_ring (ctx s)) `sublist_of` omap queued_entry ls ∧
  operations (requests (the_ring (ctx s))) = operations (omap queued_entry ls) ∧
  (requests (the_ring (ctx s)) = omap queued_entry ls ∨ stop_refused c ls).
Proof.
  intros Hc. remember (fresh_sys c) as s0 eqn:E0. induction 1 as [|s0 ls s1 a s2 Hr IH Hstep].
  { subst. simpl. rewrite Hc. split_and!; [done..|by left]. }
  destruct (IH E0) as (I1 & I2 & I3).
  assert (stop_refused c ls → stop_refused c (ls ++ [a])) as Hmono.
  { intros (k1 & k2 & u & -> & ? & ?). exists k1, (k2 ++ [a]), u.
    by rewrite <- (assoc (++)). }
  assert (∀ x : option sqe, match x with Some y => [y] | None => [] end = option_list x) as Hol
    by (by intros []).
  rewrite omap_app. simpl. rewrite Hol. unfold operations in *.
  apply step_requests in Hstep as [Hs|(-> & Href & Hs)]; rewrite Hs, ?filter_app.
  - split_and!; [by apply sublist_app|by rewrite I2|].
    destruct I3 as [->|I3]; [by left|right; auto].
  - split_and!.
    + by apply sublist_inserts_r.
    + simpl. by rewrite I2, app_nil_r.
    + right. exists ls, [], s1. subst. done.
Qed.

(** (C21) The kernel is asked for exactly what the program called for.  Let every
    submitted buffer be smaller than 4 GiB and every buffer index an [int].  In every
    reachable state the entries the kernel consumed, followed by those still in the
    submission queue, are those of the calls, each once and in the order in which the
    calls took the mutex: the right opcode, descriptor, buffer address, length, offset
    and flags for each of the seven operations, the callback's address as user data,
    the target and null user data for cancellations.  The no-op of [stop()] is among
    them, in its place, unless some [stop()] found the queue full and
    [io_uring_submit] did not empty it: then that no-op alone is missing. *)
Theorem io_requests_in_order depth c ls s :
  new_ring_impl depth = Ok (inr c) → runs io_step (fresh_sys c) ls s → calls_fit ls →
  consumed (the_ring (ctx s)) ++ sq (the_ring (ctx s)) `sublist_of` omap entry_of ls ∧
  operations (consumed (the_ring (ctx s)) ++ sq (the_ring (ctx s))) = operations (omap entry_of ls) ∧
  (consumed (the_ring (ctx s)) ++ sq (the_ring (ctx s)) = omap entry_of ls ∨ stop_refused c ls).
Proof.
  intros Hc Hr Hf. rewrite <- calls_fit_entries by done.
  apply requests_reachable; [|done]. by eapply requests_init.
Qed.

(** (C37) A receiver survives the round trip through the ring.  [submit_with_cb] turns the
    receiver into an address that travels as user data, and the event loop turns the
    user data of a completion back into a callback; addresses may be reused after
    they are freed.  Whenever the loop is about to process a completion with
    non-null user data, whatever the kernel did with the submissions, that user data is
    the address of a request the program submitted (exactly that request, if its buffer
    is below 4 GiB), the loop's step succeeds, and it delivers the completion's result
    to the receiver of the latest submission at that address, and to no other. *)
Theorem completion_reaches_its_receiver depth c ls s i d :
  new_ring_impl depth = Ok (inr c) → runs io_step (fresh_sys c) ls s →
  loop s = ForEach i → cq (the_ring (ctx s)) !! i = Some d → cqe_data d ≠ 0 →
  ∃ rq cb o g s', last_submit ls (cqe_data d) = Some (rq, cb) ∧
    Sqe o (cqe_data d) ∈ requests (the_ring (ctx s)) ∧ (fits rq → o = request_op rq) ∧
    make_io_callback {| res := cqe_res d; flags := cqe_flags d |} = Ok g ∧
    signal_res g = cqe_res d ∧
    io_step s ALoop s' ∧ delivered s' = delivered s ++ [(cb, g)].
Proof.
  intros Hc Hr Hl Hd Hn. pose proof (inv_reachable _ _ _ _ Hc Hr) as HI.
  destruct (requests_init _ _ Hc) as [Hq Hh].
  destruct (requests_reachable _ _ _ Hq Hr) as (_ & Hops & _).
  destruct (next_owned _ _ d HI) as [cb Hcb]; [by rewrite Hl|done|].
  destruct (owners_reachable _ _ _ Hh Hr _ _ Hcb) as [rq Hrq].
  assert (res_ok d) as Hres by (eapply Forall_lookup_1; [apply HI|done]).
  destruct (make_io_callback_total {| res := cqe_res d; flags := cqe_flags d |}) as (g & Hg & Hgr).
  { unfold res_ok in Hres. simpl. int_lia. }
  unfold io_step. simpl. unfold run_step. rewrite Hl. unfold for_each_step.
  destruct (io_uring_cqe_at i (the_ring (ctx s))) as [o r'] eqn:E. apply law_at in E as [Hp Ho].
  rewrite (prefix_lookup_Some _ _ _ _ Hd (progress_prefix _ _ Hp)) in Ho. subst o.
  rewrite (proj2 (Z.eqb_neq _ _) Hn). simpl. rewrite Hcb, Hg.
  exists rq, cb, (queued_op rq), g. eexists. split_and!; [done| |apply queued_fits|done..].
  apply last_submit_entry in Hrq. eapply (elem_of_operations _ _ _ Hops); [|done].
  apply queued_operation.
Qed.

(** ** Stopping *)

(** [running] is false and no thread is about to set it. *)
Definition stopped s : Prop := running (ctx s) = false ∧ loop s ≠ RunEntry.

(** Moreover the loop will not wait for a completion that never comes. *)
Definition woken s : Prop :=
  stopped s ∧
  (loop s = WaitCqe → cq (the_ring (ctx s)) ≠ [] ∨
     Exists (λ e, sqe_op_of e = prep_nop) (inflight (the_ring (ctx s)))).

(** Steps the loop may still take once it is woken. *)
Definition remaining s : nat :=
  match loop s with
  | Idle | RunEntry => 0
  | WhileTest => 1
  | WaitCqe => 2 * length (outstanding_from 0 (the_ring (ctx s))) + 4
  | ForEach i => 2 * length (outstanding_from i (the_ring (ctx s))) + 3
  | InCallback i _ => 2 * length (outstanding_from i (the_ring (ctx s))) + 2
  | Advance _ => 2
  end.

Lemma run_step_stopped s s' : stopped s → run_step s = Some (Ok s') → stopped s' ∧ loop s' ≠ WaitCqe.
Proof.
  unfold stopped, run_step. intros [Hr He] H. destruct (loop s); try done.
  - injection H as <-. simpl. by rewrite Hr.
  - apply bind_Some in H as ([n r] & _ & H). injection H as <-.
    by destruct (n <? 0); [destruct (n =? _)|].
  - injection H as H. unfold for_each_step in H. destruct (io_uring_cqe_at _ _) as [[d|] r].
    + destruct (cqe_data d =? 0); [by injection H as <-|]. simpl in H.
      destruct (heap _ !! _); [|done]. by apply outcome_bind_ok in H as (g & _ & [= <-]).
    + by injection H as <-.
  - injection H as H. apply outcome_bind_ok in H as (c & Hd & [= <-]).
    unfold delete_cb in Hd. destruct (heap _ !! _); [|done]. by injection Hd as <-.
  - by injection H as <-.
Qed.

Lemma step_stopped s a s' : stopped s → a ≠ ACallRun → io_step s a s' → stopped s'.
Proof.
  unfold io_step. intros Hs Ha H. destruct a; simpl in H; try done.
  - by apply (run_step_stopped s).
  - destruct (new_ok _ _); [|done]. injection H as H.
    apply outcome_bind_ok in H as ([p c] & E & [= <-]).
    apply submit_effect in E as (_ & _ & Hr & _). unfold stopped in *. simpl. by rewrite Hr.
  - injection H as H. apply outcome_bind_ok in H as (c & E & [= <-]).
    apply cancel_effect in E as (_ & Hr & _). unfold stopped in *. simpl. by rewrite Hr.
  - injection H as <-. split; [done|apply Hs].
  - injection H as H. apply outcome_bind_ok in H as (c & E & [= <-]).
    destruct (stop_wake_effect (ctx s)) as (c' & E' & _ & Hr & _). rewrite E' in E. injection E as <-.
    unfold stopped in *. simpl. by rewrite Hr.
  - destruct (register_effect buffers (ctx s)) as (e & c & E & _ & Hr & _).
    rewrite E in H. injection H as <-. unfold stopped in *. simpl. by rewrite Hr.
  - destruct (unregister_effect (ctx s)) as (e & c & E & _ & Hr & _).
    rewrite E in H. injection H as <-. unfold stopped in *. simpl. by rewrite Hr.
Qed.

(** After the wake-up the loop finds a no-op in flight or a completion, once the kernel took
    the queue. *)
Lemma stop_wake_woken s c :
  stopped s → stop_wake (ctx s) = Ok c → sq (the_ring c) = [] → woken (set_ctx c s).
Proof.
  intros [Hr Hl] Hw Hq. destruct (stop_wake_effect (ctx s)) as (c' & E & _ & Hr' & He).
  rewrite E in Hw. injection Hw as ->.
  split; [split; [by simpl; rewrite Hr'|done]|]. intros _. simpl.
  destruct He as [[(fin & new & P & C & D) _ _]|[(r & Hg) _]].
  - rewrite Hq in P. simpl in P.
    assert (Sqe prep_nop 0 ∈ fin ++ inflight (the_ring c)) as Hin by (rewrite <- P; set_solver).
    apply elem_of_app in Hin as [Hin|Hin].
    + left. rewrite C. destruct new; [|by intros []%app_eq_nil].
      apply fmap_nil_inv in D as ->. by apply elem_of_nil in Hin.
    + right. apply Exists_exists. by eexists.
  - unfold stop_wake in E. rewrite Hg in E. injection E as <-. simpl in Hq.
    by apply get_sqe_full in Hg.
Qed.

(** The number of outstanding user data is fixed once nothing is submitted. *)
Lemma outstanding_length i (r r' : ring) :
  progress r r' → (i ≤ length (cq r))%nat →
  length (outstanding_from i r') = length (outstanding_from i r).
Proof. intros Hp Hi. symmetry. by apply Permutation_length, progress_from. Qed.

Lemma for_each_remaining s i s' :
  (i ≤ length (cq (the_ring (ctx s))))%nat → loop s = ForEach i → for_each_step i s = Ok s' →
  (remaining s' < remaining s)%nat.
Proof.
  intros Hi Hl H. unfold for_each_step in H. unfold remaining at 2. rewrite Hl.
  destruct (io_uring_cqe_at _ _) as [o r] eqn:E. apply law_at in E as [Hp Hc].
  apply (outstanding_length i) in Hp; [|done]. destruct o as [d|]; [|injection H as <-; unfold remaining; simpl; lia].
  pose proof (Permutation_length (outstanding_next _ _ _ Hc)) as Hn. simpl in Hn.
  destruct (cqe_data d =? 0); [injection H as <-; unfold remaining; simpl; lia|].
  simpl in H. destruct (heap _ !! _); [|done].
  apply outcome_bind_ok in H as (g & _ & [= <-]). unfold remaining; simpl. lia.
Qed.

Lemma run_step_remaining st s s' :
  Inv st s → woken s → run_step s = Some (Ok s') → (remaining s' < remaining s)%nat.
Proof.
  intros [Hi _ _ Hcb _] [[Hr He] _] H. unfold run_step in H. destruct (loop s) eqn:Hl; try done.
  - injection H as <-. rewrite Hr. unfold remaining; simpl. rewrite Hl. lia.
  - apply bind_Some in H as ([n r] & E & H). injection H as <-.
    apply law_wait in E as [Hp _]. apply (outstanding_length 0) in Hp; [|lia].
    unfold remaining at 2. rewrite Hl.
    destruct (n <? 0); [destruct (n =? _)|]; unfold remaining; simpl; lia.
  - injection H as H. by eapply for_each_remaining.
  - injection H as H. apply outcome_bind_ok in H as (c & Hd & [= <-]).
    unfold delete_cb in Hd. destruct (heap _ !! _); [|done]. injection Hd as <-.
    destruct Hcb as (_ & d & Hd & _). apply outstanding_next, Permutation_length in Hd.
    unfold remaining; simpl in *. rewrite Hl. lia.
  - injection H as <-. unfold remaining; simpl. rewrite Hl. lia.
Qed.

Lemma run_step_enabled st s :
  Inv st s → woken s → loop s ≠ Idle → ∃ s', run_step s = Some (Ok s') ∧ Inv st s' ∧ woken s'.
Proof.
  intros HI Hw Hl. destruct (run_step s) as [o|] eqn:E.
  - destruct (inv_run_step _ _ _ HI E) as (s' & -> & HI'). exists s'. split_and!; [done..|].
    destruct Hw as [Hs _]. destruct (run_step_stopped _ _ Hs E). by split.
  - exfalso. unfold run_step in E. destruct (loop s) eqn:Hpc; try done.
    destruct (io_uring_wait_cqe _) as [[n r]|] eqn:Hb; [done|].
    apply law_wakes in Hb as [Hc Hn]. destruct Hw as [_ Hw].
    destruct (Hw Hpc) as [Hw'|Hw']; [done|].
    apply Exists_exists in Hw' as (e & He & Ho). rewrite Forall_forall in Hn. by destruct (Hn e He).
Qed.

Lemma run_alone_ends st s n :
  Inv st s → woken s → (remaining s ≤ n)%nat →
  ∃ s', run_alone n s = Some (Ok s') ∧ loop s' = Idle ∧ Inv st s'.
Proof.
  revert s. induction n as [|n IH]; intros s HI Hw Hn;
    (destruct (decide (loop s = Idle)) as [Hi|Hi]; [exists s; simpl; rewrite Hi; done|]).
  - unfold remaining in Hn. destruct Hw as [[_ He] _]. destruct (loop s); try lia; done.
  - destruct (run_step_enabled _ _ HI Hw Hi) as (s1 & E & HI1 & Hw1).
    pose proof (run_step_remaining _ _ _ HI Hw E) as Hlt.
    destruct (IH s1) as (s' & ? & ?); [done|done|lia|]. exists s'. split; [|done].
    simpl. rewrite E. by destruct (loop s).
Qed.

Lemma remaining_bound s :
  (remaining s ≤ 2 * length (outstanding_from 0 (the_ring (ctx s))) + 4)%nat.
Proof.
  assert (∀ i, length (outstanding_from i (the_ring (ctx s))) ≤
               length (outstanding_from 0 (the_ring (ctx s))))%nat as H.
  { intros i. unfold outstanding_from. rewrite !length_app, !length_fmap, !length_drop. lia. }
  unfold remaining. destruct (loop s); try pose proof (H count); lia.
Qed.

(** (C22) [stop()] ends [run()], without a lost wake-up.  Take any reachable state
    in which [run()] has executed its first store, let a thread execute the first
    half of [stop()], let all threads go on in any way (short of calling [run()]
    again), and let the thread finish [stop()].  If the kernel took the submission queue,
    that is, if it is empty when [stop()] returns, then from there the thread inside
    [run()] returns by its own steps alone, never blocking and never failing, in
    at most twice the number of outstanding operations and four steps.  The condition
    is needed: [stop()] does not look at the result of [io_uring_submit], and on a
    ring that refuses the submission the wake-up is lost
    ([stop_on_busy_ring_is_lost]). *)
Theorem io_stop_ends_run depth c ls s s1 ks s2 s3 :
  new_ring_impl depth = Ok (inr c) → runs io_step (fresh_sys c) ls s → loop s ≠ RunEntry →
  io_step s AStopStore s1 → runs io_step s1 ks s2 → ACallRun ∉ ks → io_step s2 AStopWake s3 →
  sq (the_ring (ctx s3)) = [] →
  ∃ s', run_alone (2 * length (outstanding_from 0 (the_ring (ctx s3))) + 4) s3 = Some (Ok s') ∧
        loop s' = Idle.
Proof.
  intros Hc Hr Hl Hstore Hks Hno Hwake Hsq.
  pose proof (inv_reachable _ _ _ _ Hc Hr) as HI.
  pose proof (io_inv_step _ _ _ _ HI Hstore) as HI1. injection Hstore as <-.
  assert (stopped s2 ∧ ∃ st, Inv st s2) as [Hs2 [st2 HI2]].
  { assert (stopped (set_ctx (stop_store (ctx s)) s)) as Hs1 by (by split).
    remember (set_ctx _ s) as s1 eqn:E1. clear E1 Hwake Hsq. induction Hks as [|? ks u a v ? IH Hstep].
    - split; [done|by eexists].
    - destruct IH as [Hu [st Hst]]; [set_solver|done|done|]. split.
      + eapply step_stopped; [done| |exact Hstep]. set_solver.
      + eexists. by eapply io_inv_step. }
  pose proof (io_inv_step _ _ _ _ HI2 Hwake) as HI3. injection Hwake as Hw.
  apply outcome_bind_ok in Hw as (d & Hd & [= <-]).
  destruct (run_alone_ends _ _ _ HI3 (stop_wake_woken _ _ Hs2 Hd Hsq) (remaining_bound _))
    as (s' & ? & ? & _). by exists s'.
Qed.

End theorems.

(** ** Witnesses

    Receivers are numbers here.  Two reads and an accept run on [SimpleRing]; the
    first completion is being processed while a further request and a [stop()]
    arrive. *)

Section witnesses.
Import SimpleRing.

Definition demo_ctx : ring_impl ring nat := RingImpl (init 1) false ∅.

Lemma demo_ctx_new : new_ring_impl 2 = Ok (inr demo_ctx).
Proof. reflexivity. Qed.

Definition demo_calls : list (action nat) :=
  [ACallRun; ALoop; ASubmit (RRead 3 (Span 4096 64) 0) 7%nat 16;
   ASubmit (RAccept 4) 8%nat 32; ALoop; ALoop; ALoop; ACancel 32].

(** The state after the calls, as computed. *)
Definition demo_state : io_sys ring nat := default (fresh_sys demo_ctx) (io_exec demo_calls (fresh_sys demo_ctx)).

Lemma io_exec_runs {A B} `{!Liburing A} (s s' : io_sys A B) ls :
  io_exec ls s = Some s' → runs io_step s ls s'.
Proof.
  apply exec_runs. intros u l v. unfold io_step.
  destruct (io_act l u) as [[?|?]|]; naive_solver.
Qed.

Lemma demo_runs : runs io_step (fresh_sys demo_ctx) demo_calls demo_state.
Proof. apply io_exec_runs. vm_compute. reflexivity. Qed.

(** On a ring that is busy the hypotheses hold: two reads fill the queue and the
    third finds no entry. *)
Definition busy_ctx : ring_impl BusyRing.ring nat := RingImpl (BusyRing.Ring []) false ∅.
Definition busy_calls : list (action nat) :=
  [ASubmit (RRead 3 (Span 4096 64) 0) 7%nat 16; ASubmit (RRead 3 (Span 4160 64) 0) 8%nat 32].
Definition busy_state : io_sys BusyRing.ring nat :=
  default (fresh_sys busy_ctx) (io_exec busy_calls (fresh_sys busy_ctx)).
Definition busy_next : action nat := ASubmit (RRead 3 (Span 4224 64) 0) 9%nat 48.

Lemma io_context_memory_safe_witness :
  io_act busy_next busy_state = Some (Undef NullDeref) ∧
  (NullDeref = NullDeref ∧ busy_next ≠ ALoop ∧ refuses (the_ring (ctx busy_state))).
Proof.
  split; [vm_compute; reflexivity|].
  apply (io_context_memory_safe 2 busy_ctx busy_calls busy_state busy_next NullDeref).
  - reflexivity.
  - apply io_exec_runs. vm_compute. reflexivity.
  - vm_compute. reflexivity.
Defined.

Lemma io_callbacks_exactly_once_witness :
  delivered demo_state = [(7%nat, set_value {| res := 64; flags := 0 |})] ∧
  omap started_by demo_calls ≡ₚ (delivered demo_state).*1 ++ receivers (pending demo_state).
Proof.
  split; [vm_compute; reflexivity|].
  apply (io_callbacks_exactly_once 2 demo_ctx demo_calls demo_state demo_ctx_new demo_runs).
Defined.

(** The two reads and a [stop()] on the busy ring: the no-op is missing. *)
Definition busy_stopped : io_sys BusyRing.ring nat :=
  default busy_state (io_exec [AStopStore; AStopWake] busy_state).

Lemma io_requests_in_order_witness :
  consumed (the_ring (ctx demo_state)) ++ sq (the_ring (ctx demo_state)) `sublist_of`
    [Sqe (prep_read 3 4096 64 0) 16; Sqe (prep_accept 4) 32; Sqe (prep_cancel 32) 0] ∧
  sq (the_ring (ctx busy_stopped)) = [Sqe (prep_read 3 4096 64 0) 16; Sqe (prep_read 3 4160 64 0) 32] ∧
  operations (sq (the_ring (ctx busy_stopped))) =
    operations (omap entry_of (busy_calls ++ [AStopStore; AStopWake])).
Proof.
  split_and!.
  - apply (io_requests_in_order 2 demo_ctx demo_calls demo_state demo_ctx_new demo_runs).
    repeat constructor; vm_compute; congruence.
  - vm_compute. reflexivity.
  - refine (proj1 (proj2 (io_requests_in_order 2 busy_ctx (busy_calls ++ [AStopStore; AStopWake])
              busy_stopped _ _ _))).
    + reflexivity.
    + apply io_exec_runs. vm_compute. reflexivity.
    + repeat constructor; vm_compute; congruence.
Defined.

Lemma submission_needs_an_entry_witness :
  (∃ c1, submit (RRead 3 (Span 4096 64) 0) 7%nat 16 demo_ctx = Ok (16, c1) ∧
     requests (the_ring c1) = [Sqe (prep_read 3 4096 64 0) 16]) ∧
  submit (RRead 3 (Span 4224 64) 0) 9%nat 48 (ctx busy_state) = Undef NullDeref.
Proof.
  split.
  - destruct (submission_needs_an_entry (RRead 3 (Span 4096 64) 0) 7%nat 16 0 demo_ctx)
      as (o & c1 & _ & _ & H1 & H2 & _ & _ & H3 & _).
    exists c1. split; [exact H1|]. destruct H3 as [_ H3 _]. rewrite H3, H2; [reflexivity|].
    vm_compute. split; congruence.
  - pose proof (submission_needs_an_entry (RRead 3 (Span 4224 64) 0) 9%nat 48 0 (ctx busy_state)) as H.
    assert (∃ r, get_sqe (the_ring (ctx busy_state)) = (None, r)) as [r E]
      by (eexists; vm_compute; reflexivity).
    rewrite E in H. apply H.
Defined.

(** Address 16 is freed and given to a second read: its completion goes to receiver
    9, not to receiver 7. *)
Definition reuse_calls : list (action nat) :=
  [ACallRun; ALoop; ASubmit (RRead 3 (Span 4096 64) 0) 7%nat 16] ++ replicate 6 ALoop ++
  [ASubmit (RRead 5 (Span 8192 32) 0) 9%nat 16; ALoop; ALoop].
Definition reuse_state : io_sys ring nat :=
  default (fresh_sys demo_ctx) (io_exec reuse_calls (fresh_sys demo_ctx)).

Lemma completion_reaches_its_receiver_witness :
  loop reuse_state = ForEach 0 ∧
  ∃ rq cb o g s', last_submit reuse_calls 16 = Some (rq, cb) ∧
    Sqe o 16 ∈ requests (the_ring (ctx reuse_state)) ∧ (fits rq → o = request_op rq) ∧
    make_io_callback {| res := 32; flags := 0 |} = Ok g ∧ signal_res g = 32 ∧
    io_step reuse_state ALoop s' ∧ delivered s' = delivered reuse_state ++ [(cb, g)].
Proof.
  split; [vm_compute; reflexivity|].
  apply (completion_reaches_its_receiver 2 demo_ctx reuse_calls reuse_state 0
           {| cqe_data := 16; cqe_res := 32; cqe_flags := 0 |} demo_ctx_new).
  - apply io_exec_runs. vm_compute. reflexivity.
  - vm_compute. reflexivity.
  - vm_compute. reflexivity.
  - discriminate.
Defined.

Definition demo_between : list (action nat) := [ALoop; ASubmit (RSend 5 (Span 8192 32) 0) 9%nat 48].
Definition demo_stored : io_sys ring nat := set_ctx (stop_store (ctx demo_state)) demo_state.
Definition demo_later : io_sys ring nat := default demo_stored (io_exec demo_between demo_stored).
Definition demo_woken : io_sys ring nat := default demo_later (io_exec [AStopWake] demo_later).

Lemma io_stop_ends_run_witness :
  loop demo_woken = ForEach 1 ∧
  ∃ s', run_alone (2 * length (outstanding_from 0 (the_ring (ctx demo_woken))) + 4) demo_woken =
          Some (Ok s') ∧ loop s' = Idle.
Proof.
  split; [vm_compute; reflexivity|].
  apply (io_stop_ends_run 2 demo_ctx demo_calls demo_state demo_stored demo_between demo_later).
  - exact demo_ctx_new.
  - exact demo_runs.
  - vm_compute. discriminate.
  - reflexivity.
  - apply io_exec_runs. vm_compute. reflexivity.
  - unfold demo_between. set_solver.
  - vm_compute. reflexivity.
  - vm_compute. reflexivity.
Defined.

(** ** What the context does not guarantee *)

(** A [stop()] that comes before the first store of [run()] is lost: [run()]
    sets [running] again, consumes the wake-up like any other completion and
    then waits forever, even when no operation is outstanding.  The run below
    calls [run()], executes the whole of [stop()] before [run()]'s first store,
    and ends in a state in which the loop is blocked. *)
Lemma stop_before_run_is_lost :
  ∃ s, io_exec [ACallRun; AStopStore; AStopWake; ALoop; ALoop; ALoop; ALoop; ALoop; ALoop; ALoop]
         (fresh_sys demo_ctx) = Some s ∧
       running (ctx s) = true ∧ loop s = WaitCqe ∧ io_act ALoop s = None ∧
       outstanding_from 0 (the_ring (ctx s)) = [].
Proof. eexists. split; [vm_compute; reflexivity|]. vm_compute. done. Qed.

(** On a ring that refuses submissions [stop()] is lost as well: the loop waits, a whole
    [stop()] is executed, and the loop still waits, with [running] false. *)
Lemma stop_on_busy_ring_is_lost :
  ∃ s, io_exec [ACallRun; ALoop; ALoop; AStopStore; AStopWake] (fresh_sys busy_ctx) = Some s ∧
       running (ctx s) = false ∧ loop s = WaitCqe ∧ io_act ALoop s = None ∧
       requests (the_ring (ctx s)) = [Sqe prep_nop 0].
Proof. eexists. split; [vm_compute; reflexivity|]. vm_compute. done. Qed.

(** The length field of an entry. *)
Definition entry_length (e : sqe) : Z :=
  match sqe_op_of e with
  | prep_read _ _ n _ | prep_write _ _ n _ | prep_recv _ _ n _ | prep_send _ _ n _
  | prep_read_fixed _ _ n _ _ | prep_write_fixed _ _ n _ _ => n
  | _ => 0
  end.

Lemma uint32_exact z : 0 ≤ z → uint32 z = z ↔ z < 2^32.
Proof.
  intros. pose proof (uint32_range z). unfold uint32 in *. split; [lia|].
  intros. by apply Z.mod_small.
Qed.

(** The length the kernel is asked for is the buffer's size modulo [2^32] for
    the four operations that cast it to [unsigned]: it is the size exactly for
    buffers below 4 GiB, and for a buffer of exactly 4 GiB the kernel is asked for
    zero bytes, whose result is that of an end of file. *)
Lemma request_length_truncates fd ix buf offset cb addr :
  Forall (λ rq, ∃ c' e,
      submit rq cb addr demo_ctx = Ok (addr, c') ∧ consumed (the_ring c') = [e] ∧
      (0 ≤ size buf → entry_length e = size buf ↔ size buf < 2^32) ∧
      (size buf = 2^32 → entry_length e = 0))
    [RRead fd buf offset; RWrite fd buf offset;
     RReadFixed fd ix buf offset; RWriteFixed fd ix buf offset].
Proof.
  repeat constructor; do 2 eexists;
    (split_and!; [reflexivity|reflexivity|simpl; apply uint32_exact|simpl; by intros ->]).
Qed.

End witnesses.
