(* ===== verification/Explore.v ===== *)
(** * Finite-state exploration

    Reachability of a transition system with finitely many reachable states, by
    computation: [explore] collects the states breadth first, [closed] tests that a
    list of states is closed under every action, and [closed_reaches] turns the
    test into an invariant.  Used for StopHelper.v. *)

From S2P Require Import Prelude.
From stdpp Require Import options.

Section explore.
Context {S L : Type} `{!EqDecision S} (f : L → S → option S) (labels : list L).

Definition successors (s : S) : list S := omap (λ l, f l s) labels.

(** Adds the states of the frontier that are new. *)
Fixpoint add_new (l seen fresh : list S) : list S * list S :=
  match l with
  | [] => (seen, fresh)
  | s :: l =>
      if bool_decide (s ∈ seen) then add_new l seen fresh
      else add_new l (s :: seen) (s :: fresh)
  end.

Fixpoint explore (fuel : nat) (seen frontier : list S) : list S :=
  match fuel, frontier with
  | O, _ | _, [] => seen
  | Datatypes.S fuel, _ =>
      let '(seen', fresh) := add_new (frontier ≫= successors) seen [] in
      explore fuel seen' fresh
  end.

Definition reach (fuel : nat) (s : S) : list S := explore fuel [s] [s].

Definition closed (l : list S) : bool :=
  forallb (λ s, forallb (λ s', bool_decide (s' ∈ l)) (successors s)) l.

Lemma closed_reaches (step : S → L → S → Prop) l s ls s' :
  (∀ a x b, step a x b → f x a = Some b) → (∀ x, x ∈ labels) →
  closed l = true → s ∈ l → runs step s ls s' → s' ∈ l.
Proof.
  intros Hf Hl Hc Hs. apply (runs_invariant step (λ s, s ∈ l)); [done|]. intros a x b Ha Hx.
  unfold closed in Hc. rewrite forallb_forall in Hc.
  specialize (Hc a (proj1 (list_elem_of_In _ _) Ha)).
  rewrite forallb_forall in Hc. apply (bool_decide_eq_true_1 _), Hc, list_elem_of_In.
  apply list_elem_of_omap. exists x. auto.
Qed.

End explore.
