(* ===== verification/StopHelper.v ===== *)
(** * Starting an operation that can be cancelled

    [detail::stop_helper] of src/include/async_runtime/io_context.hpp: [start] submits
    the operation and publishes its callback's address in [cb_ptr]; the stop
    callback raises [stop_called] and cancels the address if it is already there;
    [start] then cancels if [stop_called] was raised in the meantime.

    Three threads take part: the one that calls [start], the one that requests the
    stop, and the one inside [run()], which completes the operation; whoever owns
    the operation state may destroy it once it has completed.  The atomics are
    release/acquire, so the model gives each thread a store buffer: a store enters
    the buffer, [AFlush*] moves it to memory, and a load sees the youngest store of
    its own buffer or else the memory.  With [fenced = true] a load waits for the
    thread's own stores, which is what sequentially consistent atomics would add.

    The stop token is the standard's: a callback registered before the request is
    invoked once by the requesting thread, one constructed after it is invoked by
    its constructor, and its destructor waits for an invocation on another thread. *)

From S2P Require Import Prelude.
From stdpp Require Import options.
Local Open Scope Z_scope.

(** Stores to the two atomics of the helper. *)
Inductive store : Type :=
| StPtr (p : Z)           (** [cb_ptr.store(p)] *)
| StStop.                 (** [stop_called.store(true)] *)

Inductive starter_pc : Type :=
| SRequested              (** [stop_token.stop_requested()] *)
| SPossible               (** [stop_token.stop_possible()] *)
| SEmplace                (** [stop_cb.emplace(...)] *)
| SInline                 (** the callback, invoked by its constructor: the store *)
| SInlineLoad             (** ... and the load *)
| SSubmit                 (** [submit()] *)
| SStorePtr (p : Z)       (** [cb_ptr.store(ptr)] *)
| SLoadStop (p : Z)       (** [stop_called.load()] *)
| SCancel (p : Z)         (** [ctx->submit_cancel(ptr)] *)
| SDone.

Inductive stopper_pc : Type :=
| KIdle                   (** no stop requested *)
| KStore                  (** in the callback: [stop_called.store(true)] *)
| KLoad                   (** [cb_ptr.load()] *)
| KCancel (p : Z)         (** [submit_cancel(ptr)] *)
| KDone.

Record hstate := HState {
  cb_ptr : Z;                  (** memory: null is 0 *)
  stop_called : bool;
  starter : starter_pc;
  starter_buf : list store;    (** oldest first *)
  stopper : stopper_pc;
  stopper_buf : list store;
  requested : bool;            (** the token's stop state *)
  registered : bool;           (** [stop_cb] holds a registered callback *)
  submitted : option Z;        (** the address [submit()] returned *)
  set_stopped_called : bool;   (** [start] completed the receiver itself *)
  completed : bool;            (** the event loop has delivered the completion *)
  alive : bool;                (** the operation state still exists *)
  cancels : list Z;            (** calls of [submit_cancel] *)
}.

#[export] Instance store_eq_dec : EqDecision store.
Proof. solve_decision. Defined.

Section stop_helper.
(** The address [submit()] returns, and whether the token can be stopped. *)
Context (ptr : Z) (possible fenced : bool).

Definition new_helper : hstate :=
  {| cb_ptr := 0; stop_called := false; starter := SRequested; starter_buf := [];
     stopper := KIdle; stopper_buf := []; requested := false; registered := false;
     submitted := None; set_stopped_called := false; completed := false; alive := true;
     cancels := [] |}.

Definition set_starter pc s := HState (cb_ptr s) (stop_called s) pc (starter_buf s) (stopper s)
  (stopper_buf s) (requested s) (registered s) (submitted s) (set_stopped_called s) (completed s)
  (alive s) (cancels s).
Definition set_starter_buf b s := HState (cb_ptr s) (stop_called s) (starter s) b (stopper s)
  (stopper_buf s) (requested s) (registered s) (submitted s) (set_stopped_called s) (completed s)
  (alive s) (cancels s).
Definition set_stopper pc s := HState (cb_ptr s) (stop_called s) (starter s) (starter_buf s) pc
  (stopper_buf s) (requested s) (registered s) (submitted s) (set_stopped_called s) (completed s)
  (alive s) (cancels s).
Definition set_stopper_buf b s := HState (cb_ptr s) (stop_called s) (starter s) (starter_buf s)
  (stopper s) b (requested s) (registered s) (submitted s) (set_stopped_called s) (completed s)
  (alive s) (cancels s).
Definition set_requested s := HState (cb_ptr s) (stop_called s) (starter s) (starter_buf s)
  (stopper s) (stopper_buf s) true (registered s) (submitted s) (set_stopped_called s)
  (completed s) (alive s) (cancels s).
Definition set_registered b s := HState (cb_ptr s) (stop_called s) (starter s) (starter_buf s)
  (stopper s) (stopper_buf s) (requested s) b (submitted s) (set_stopped_called s)
  (completed s) (alive s) (cancels s).
Definition set_submitted p s := HState (cb_ptr s) (stop_called s) (starter s) (starter_buf s)
  (stopper s) (stopper_buf s) (requested s) (registered s) (Some p) (set_stopped_called s)
  (completed s) (alive s) (cancels s).
Definition set_stopped s := HState (cb_ptr s) (stop_called s) (starter s) (starter_buf s)
  (stopper s) (stopper_buf s) (requested s) (registered s) (submitted s) true
  (completed s) (alive s) (cancels s).
Definition set_completed s := HState (cb_ptr s) (stop_called s) (starter s) (starter_buf s)
  (stopper s) (stopper_buf s) (requested s) (registered s) (submitted s) (set_stopped_called s)
  true (alive s) (cancels s).
Definition set_dead s := HState (cb_ptr s) (stop_called s) (starter s) (starter_buf s)
  (stopper s) (stopper_buf s) (requested s) false (submitted s) (set_stopped_called s)
  (completed s) false (cancels s).
Definition submit_cancel p s := HState (cb_ptr s) (stop_called s) (starter s) (starter_buf s)
  (stopper s) (stopper_buf s) (requested s) (registered s) (submitted s) (set_stopped_called s)
  (completed s) (alive s) (cancels s ++ [p]).

(** A store reaches memory. *)
Definition write_back (w : store) (s : hstate) : hstate :=
  match w with
  | StPtr p => HState p (stop_called s) (starter s) (starter_buf s)
      (stopper s) (stopper_buf s) (requested s) (registered s) (submitted s) (set_stopped_called s)
      (completed s) (alive s) (cancels s)
  | StStop => HState (cb_ptr s) true (starter s) (starter_buf s)
      (stopper s) (stopper_buf s) (requested s) (registered s) (submitted s) (set_stopped_called s)
      (completed s) (alive s) (cancels s)
  end.

(** Loads through a store buffer. *)
Definition load_ptr (buf : list store) (s : hstate) : Z :=
  foldl (λ v w, match w with StPtr p => p | StStop => v end) (cb_ptr s) buf.
Definition load_stop (buf : list store) (s : hstate) : bool :=
  stop_called s || bool_decide (StStop ∈ buf).

Definition may_load (buf : list store) : bool :=
  if fenced then match buf with [] => true | _ => false end else true.

(** An access to the helper needs the operation state to exist. *)
Definition access {A} (s : hstate) (a : A) : option (outcome A) :=
  Some (if alive s then Ok a else Undef UseAfterFree).

(** [start], one access at a time. *)
Definition start_step (s : hstate) : option (outcome hstate) :=
  match starter s with
  | SRequested =>
      Some (Ok (if requested s then set_starter SDone (set_stopped s)
                else set_starter SPossible s))
  | SPossible => Some (Ok (set_starter (if possible then SEmplace else SSubmit) s))
  | SEmplace =>
      access s (if requested s then set_starter SInline s
                else set_starter SSubmit (set_registered true s))
  | SInline => access s (set_starter SInlineLoad (set_starter_buf (starter_buf s ++ [StStop]) s))
  | SInlineLoad =>
      if may_load (starter_buf s)
      then access s (let p := load_ptr (starter_buf s) s in
                     set_starter SSubmit (if p =? 0 then s else submit_cancel p s))
      else None
  | SSubmit => access s (set_starter (SStorePtr ptr) (set_submitted ptr s))
  | SStorePtr p => access s (set_starter (SLoadStop p) (set_starter_buf (starter_buf s ++ [StPtr p]) s))
  | SLoadStop p =>
      if may_load (starter_buf s)
      then access s (set_starter (if load_stop (starter_buf s) s then SCancel p else SDone) s)
      else None
  | SCancel p => access s (set_starter SDone (submit_cancel p s))
  | SDone => None
  end.

(** [stop_callback_fn::operator()], one access at a time. *)
Definition stop_callback_step (s : hstate) : option (outcome hstate) :=
  match stopper s with
  | KStore => access s (set_stopper KLoad (set_stopper_buf (stopper_buf s ++ [StStop]) s))
  | KLoad =>
      if may_load (stopper_buf s)
      then access s (let p := load_ptr (stopper_buf s) s in
                     set_stopper (if p =? 0 then KDone else KCancel p) s)
      else None
  | KCancel p => access s (set_stopper KDone (submit_cancel p s))
  | KIdle | KDone => None
  end.

Definition in_callback (pc : stopper_pc) : bool :=
  match pc with KStore | KLoad | KCancel _ => true | _ => false end.

Inductive haction : Type :=
| AStart
| ARequestStop
| AStopCallback
| AFlushStarter
| AFlushStopper
| AComplete               (** the event loop invokes and deletes the callback *)
| ADestroy.               (** the owner destroys the completed operation *)

Definition helper_act (a : haction) (s : hstate) : option (outcome hstate) :=
  match a with
  | AStart => start_step s
  | ARequestStop =>
      if possible && negb (requested s)
      then Some (Ok (set_stopper (if registered s then KStore else KDone) (set_requested s)))
      else None
  | AStopCallback => stop_callback_step s
  | AFlushStarter =>
      match starter_buf s with
      | w :: b => Some (Ok (write_back w (set_starter_buf b s)))
      | [] => None
      end
  | AFlushStopper =>
      match stopper_buf s with
      | w :: b => Some (Ok (write_back w (set_stopper_buf b s)))
      | [] => None
      end
  | AComplete =>
      match submitted s with
      | Some _ => if completed s then None else Some (Ok (set_completed s))
      | None => None
      end
  | ADestroy =>
      if (completed s || set_stopped_called s) && alive s && negb (in_callback (stopper s))
      then Some (Ok (set_dead s)) else None
  end.

Definition helper_step (s : hstate) (a : haction) (s' : hstate) : Prop :=
  helper_act a s = Some (Ok s').

Definition helper_exec : list haction → hstate → option hstate :=
  exec (λ a s, match helper_act a s with Some (Ok s') => Some s' | _ => None end).

End stop_helper.
