(* ===== verification/StopHelperProof.v ===== *)
(** * Cancellation: what [stop_helper] guarantees

    With sequentially consistent atomics a stop request is never lost and an
    operation is cancelled at most twice; with the release/acquire atomics of the
    source it can be lost.  Starting an operation is memory safe when its
    completion cannot run before [start] returns, and is not otherwise.

    The model has about a hundred reachable states for a given address, so the
    invariants are checked by exploration (Explore.v) at the address 1 and carried
    to every other non-null address by a renaming simulation. *)

From S2P Require Import Prelude Explore StopHelper.
From stdpp Require Import options.
Local Open Scope Z_scope.

#[export] Instance starter_pc_eq_dec : EqDecision starter_pc.
Proof. solve_decision. Defined.
#[export] Instance stopper_pc_eq_dec : EqDecision stopper_pc.
Proof. solve_decision. Defined.
#[export] Instance hstate_eq_dec : EqDecision hstate.
Proof. solve_decision. Defined.

(** ** Renaming the address *)

Section renaming.
Context (p : Z) (Hp : p ≠ 0).

Definition rn (x : Z) : Z := if x =? 0 then 0 else p.

Definition rn_store (w : store) : store :=
  match w with StPtr x => StPtr (rn x) | StStop => StStop end.
Definition rn_starter (pc : starter_pc) : starter_pc :=
  match pc with
  | SStorePtr x => SStorePtr (rn x)
  | SLoadStop x => SLoadStop (rn x)
  | SCancel x => SCancel (rn x)
  | _ => pc
  end.
Definition rn_stopper (pc : stopper_pc) : stopper_pc :=
  match pc with KCancel x => KCancel (rn x) | _ => pc end.

Definition rename (s : hstate) : hstate :=
  {| cb_ptr := rn (cb_ptr s); stop_called := stop_called s; starter := rn_starter (starter s);
     starter_buf := rn_store <$> starter_buf s; stopper := rn_stopper (stopper s);
     stopper_buf := rn_store <$> stopper_buf s; requested := requested s;
     registered := registered s; submitted := rn <$> submitted s;
     set_stopped_called := set_stopped_called s; completed := completed s; alive := alive s;
     cancels := rn <$> cancels s |}.

Lemma rn_null x : (rn x =? 0) = (x =? 0).
Proof using Hp. unfold rn. destruct (x =? 0) eqn:E; [done|]. by apply Z.eqb_neq. Qed.

Lemma load_ptr_rename buf s : load_ptr (rn_store <$> buf) (rename s) = rn (load_ptr buf s).
Proof.
  unfold load_ptr. simpl. generalize (cb_ptr s). induction buf as [|w buf IH]; intros x; [done|].
  simpl. destruct w; simpl; apply IH.
Qed.

Lemma load_stop_rename buf s : load_stop (rn_store <$> buf) (rename s) = load_stop buf s.
Proof.
  unfold load_stop. simpl. f_equal. apply bool_decide_ext. rewrite list_elem_of_fmap.
  split; [|by exists StStop]. intros ([x|] & ? & ?); done.
Qed.

Lemma may_load_rename fenced buf : may_load fenced (rn_store <$> buf) = may_load fenced buf.
Proof. by destruct fenced, buf. Qed.

Lemma write_back_rename w s : write_back (rn_store w) (rename s) = rename (write_back w s).
Proof. by destruct w. Qed.

Definition rename_res : option (outcome hstate) → option (outcome hstate) :=
  fmap (M:=option) (fmap (M:=outcome) rename).

#[local] Arguments rename_res : simpl never.
#[local] Arguments access : simpl never.

Lemma access_rename s (t : hstate) : access (rename s) (rename t) = rename_res (access s t).
Proof. unfold access. simpl. by destruct (alive s). Qed.

Lemma start_rename possible fenced s :
  start_step p possible fenced (rename s) = rename_res (start_step 1 possible fenced s).
Proof using Hp.
  unfold start_step. simpl. destruct (starter s); simpl;
    rewrite ?may_load_rename, ?load_ptr_rename, ?load_stop_rename, ?rn_null.
  - by destruct (requested s).
  - by destruct possible.
  - rewrite <- access_rename. by destruct (requested s).
  - rewrite <- access_rename. f_equal. unfold rename; simpl. by rewrite fmap_app.
  - destruct (may_load _ _); [|done]. rewrite <- access_rename. f_equal.
    destruct (_ =? 0); [done|]. unfold rename; simpl. by rewrite fmap_app.
  - by rewrite <- access_rename.
  - rewrite <- access_rename. f_equal. unfold rename; simpl. by rewrite fmap_app.
  - destruct (may_load _ _); [|done]. rewrite <- access_rename. by destruct (load_stop _ _).
  - rewrite <- access_rename. f_equal. unfold rename; simpl. by rewrite fmap_app.
  - done.
Qed.

Lemma stop_callback_rename fenced s :
  stop_callback_step fenced (rename s) = rename_res (stop_callback_step fenced s).
Proof using Hp.
  unfold stop_callback_step. simpl. destruct (stopper s); simpl;
    rewrite ?may_load_rename, ?load_ptr_rename, ?rn_null; try done.
  - rewrite <- access_rename. f_equal. unfold rename; simpl. by rewrite fmap_app.
  - destruct (may_load _ _); [|done]. rewrite <- access_rename. by destruct (_ =? 0).
  - rewrite <- access_rename. f_equal. unfold rename; simpl. by rewrite fmap_app.
Qed.

Lemma act_rename possible fenced a s :
  helper_act p possible fenced a (rename s) = rename_res (helper_act 1 possible fenced a s).
Proof using Hp.
  destruct a; simpl.
  - apply start_rename.
  - destruct (possible && _); [|done]. simpl. by destruct (registered s).
  - apply stop_callback_rename.
  - destruct (starter_buf s) as [|w b]; [done|]. unfold rename_res; simpl.
    by rewrite <- write_back_rename.
  - destruct (stopper_buf s) as [|w b]; [done|]. unfold rename_res; simpl.
    by rewrite <- write_back_rename.
  - destruct (submitted s); [|done]. simpl. by destruct (completed s).
  - destruct (_ && _ && _) eqn:E;
      destruct (stopper s); simpl in *; rewrite ?E; simpl; try done.
Qed.

(** Every run at address [p] is the renaming of a run at address 1. *)
Lemma runs_rename possible fenced ls t :
  runs (helper_step p possible fenced) new_helper ls t →
  ∃ s, t = rename s ∧ runs (helper_step 1 possible fenced) new_helper ls s.
Proof using Hp.
  remember new_helper as s0 eqn:E0. induction 1 as [|s0 ls t a t' _ IH Hstep]; subst.
  - exists new_helper. split; [done|constructor].
  - destruct (IH eq_refl) as (s & -> & Hs). unfold helper_step in Hstep.
    rewrite act_rename in Hstep. destruct (helper_act 1 _ _ _ s) as [[s'|u]|] eqn:E; try done.
    injection Hstep as <-. exists s'. split; [done|]. by econstructor.
Qed.

End renaming.

(** ** Exploration at address 1 *)

Definition all_actions : list haction :=
  [AStart; ARequestStop; AStopCallback; AFlushStarter; AFlushStopper; AComplete; ADestroy].

Definition unit_step (possible fenced : bool) (a : haction) (s : hstate) : option hstate :=
  match helper_act 1 possible fenced a s with Some (Ok s') => Some s' | _ => None end.

Definition reached (possible fenced : bool) : list hstate :=
  reach (unit_step possible fenced) all_actions 40 new_helper.

Lemma reached_closed possible fenced :
  closed (unit_step possible fenced) all_actions (reached possible fenced) = true ∧
  bool_decide (new_helper ∈ reached possible fenced) = true.
Proof. destruct possible, fenced; vm_compute; done. Qed.

Lemma runs_reached possible fenced ls s :
  runs (helper_step 1 possible fenced) new_helper ls s → s ∈ reached possible fenced.
Proof.
  destruct (reached_closed possible fenced) as [Hc Hn]. apply bool_decide_eq_true in Hn.
  apply (closed_reaches (unit_step possible fenced) all_actions); [|by intros []; set_solver|done..].
  intros u a v Hv. unfold unit_step. by rewrite Hv.
Qed.

(** A test that holds in every explored state holds in every reachable one. *)
Lemma reached_forall possible fenced (P : hstate → bool) ls s :
  forallb P (reached possible fenced) = true →
  runs (helper_step 1 possible fenced) new_helper ls s → P s = true.
Proof.
  intros HP Hr. apply runs_reached in Hr. rewrite forallb_forall in HP.
  by apply HP, list_elem_of_In.
Qed.

(** The specification of cancellation, as a test. *)
Definition settled_stop (p : Z) (s : hstate) : bool :=
  requested s && alive s && bool_decide (starter s = SDone) && bool_decide (stopper s = KDone) &&
  bool_decide (submitted s = Some p).

Definition cancels_ok (fenced : bool) (s : hstate) : bool :=
  bool_decide (Forall (λ q, q = 1) (cancels s)) && bool_decide (length (cancels s) ≤ 2)%nat &&
  (requested s || bool_decide (cancels s = [])) &&
  (negb (fenced && settled_stop 1 s) || bool_decide (1 ∈ cancels s)).

Lemma reached_cancels_ok possible fenced :
  forallb (cancels_ok fenced) (reached possible fenced) = true.
Proof. destruct possible, fenced; vm_compute; done. Qed.

Lemma settled_rename p s : settled_stop p (rename p s) = true → submitted s = None ∨ submitted s = Some 1 →
  settled_stop 1 s = true.
Proof.
  unfold settled_stop. simpl. intros H Hs. apply andb_true_iff in H as [H Hsub].
  apply andb_true_iff in H as [H Hk]. apply andb_true_iff in H as [H Hst].
  rewrite H. apply bool_decide_eq_true in Hk, Hst, Hsub.
  assert (starter s = SDone) as -> by (by destruct (starter s)).
  assert (stopper s = KDone) as -> by (by destruct (stopper s)).
  destruct Hs as [Hs|Hs]; rewrite Hs in *; [done|]. by rewrite !bool_decide_eq_true_2.
Qed.

Lemma reached_submitted possible fenced :
  forallb (λ s, bool_decide (submitted s = None ∨ submitted s = Some 1)) (reached possible fenced) = true.
Proof. destruct possible, fenced; vm_compute; done. Qed.

(** (C26) Cancellation of an operation.  In every interleaving of [start], the stop
    request and its callback, the event loop and the destruction of the operation,
    only this operation's address is ever cancelled, only after a stop request,
    and at most twice.  If loads wait for the thread's earlier stores, as
    sequentially consistent atomics would make them, no stop request is lost:
    once [start] has submitted the operation and returned and the stop request is
    processed, with the operation state still there, a cancellation of its address
    was submitted. *)
Theorem cancellation_not_lost p possible fenced ls t :
  p ≠ 0 → runs (helper_step p possible fenced) new_helper ls t →
  Forall (λ q, q = p) (cancels t) ∧ (length (cancels t) ≤ 2)%nat ∧
  (cancels t ≠ [] → requested t = true) ∧
  (fenced = true → settled_stop p t = true → p ∈ cancels t).
Proof.
  intros Hp Hr. destruct (runs_rename p Hp _ _ _ _ Hr) as (s & -> & Hs).
  pose proof (reached_forall _ _ _ _ _ (reached_cancels_ok possible fenced) Hs) as Hc.
  pose proof (reached_forall _ _ _ _ _ (reached_submitted possible fenced) Hs) as Hsub.
  apply bool_decide_eq_true in Hsub. unfold cancels_ok in Hc.
  apply andb_true_iff in Hc as [Hc H4]. apply andb_true_iff in Hc as [Hc H3].
  apply andb_true_iff in Hc as [H1 H2]. apply bool_decide_eq_true in H1, H2.
  simpl. split_and!.
  - apply Forall_fmap. eapply Forall_impl; [exact H1|]. intros q ->. done.
  - by rewrite length_fmap.
  - destruct (requested s); [done|]. simpl in H3. apply bool_decide_eq_true in H3. by rewrite H3.
  - intros -> Hset. rewrite (settled_rename p s Hset Hsub) in H4. simpl in H4.
    apply bool_decide_eq_true in H4. apply list_elem_of_fmap. by exists 1.
Qed.

Lemma helper_exec_runs p possible fenced ls s s' :
  helper_exec p possible fenced ls s = Some s' → runs (helper_step p possible fenced) s ls s'.
Proof.
  apply exec_runs. intros a l b. unfold helper_step.
  destruct (helper_act _ _ _ _ _) as [[?|?]|]; naive_solver.
Qed.

(** The stop request arrives between the submission and the publication. *)
Definition race_acts : list haction :=
  replicate 4 AStart ++ [ARequestStop; AStopCallback; AFlushStopper; AStopCallback] ++
  [AStart; AFlushStarter; AStart; AStart].
Definition race_end : hstate := default new_helper (helper_exec 16 true true race_acts new_helper).

Lemma cancellation_not_lost_witness :
  settled_stop 16 race_end = true ∧ 16 ∈ cancels race_end.
Proof.
  split; [vm_compute; reflexivity|].
  apply (cancellation_not_lost 16 true true race_acts race_end).
  - discriminate.
  - apply helper_exec_runs. vm_compute. reflexivity.
  - reflexivity.
  - vm_compute. reflexivity.
Defined.

(** (C27) With release stores and acquire loads, as written, a stop request can be
    lost: each thread's load may overtake its own earlier store, so that [start]
    does not see [stop_called], the callback does not see the address, and
    nobody submits the cancellation, although both stores are in memory at the
    end and the operation is still in flight. *)
Theorem cancellation_can_be_lost :
  ∃ ls s, runs (helper_step 16 true false) new_helper ls s ∧ settled_stop 16 s = true ∧
    starter_buf s = [] ∧ stopper_buf s = [] ∧ stop_called s = true ∧ cb_ptr s = 16 ∧
    completed s = false ∧ cancels s = [].
Proof.
  exists (replicate 5 AStart ++ [ARequestStop; AStopCallback; AStopCallback; AStart;
            AFlushStarter; AFlushStopper]).
  eexists. split; [apply helper_exec_runs; vm_compute; reflexivity|]. vm_compute. done.
Qed.

(** ** Lifetime of the operation state *)

(** The completion does not run while [start] does: [start] is called on the thread
    inside [run()], from a callback for instance. *)
Definition calm_step p possible fenced (s : hstate) (a : haction) (s' : hstate) : Prop :=
  helper_step p possible fenced s a s' ∧ (a = AComplete → starter s = SDone).

Record Lifetime (s : hstate) : Prop := {
  lt_start : starter s ≠ SDone →
    alive s = true ∧ completed s = false ∧ set_stopped_called s = false;
  lt_callback : in_callback (stopper s) = true → alive s = true;
  lt_registered : registered s = true → alive s = true;
}.

Lemma access_ok {A} s (a b : A) : access s a = Some (Ok b) → alive s = true ∧ a = b.
Proof. unfold access. destruct (alive s); naive_solver. Qed.

Lemma lifetime_start p possible fenced s s' :
  Lifetime s → start_step p possible fenced s = Some (Ok s') → Lifetime s'.
Proof.
  intros [H1 H2 H3] H. unfold start_step in H. destruct (starter s) eqn:E;
    repeat case_match; try discriminate H;
    try (apply access_ok in H as [? <-]); try injection H as <-;
    split; simpl; intros; try done; first [by apply H1|by apply H2|by apply H3|congruence].
Qed.

Lemma lifetime_callback fenced s s' :
  Lifetime s → stop_callback_step fenced s = Some (Ok s') → Lifetime s'.
Proof.
  intros [H1 H2 H3] H. unfold stop_callback_step in H. destruct (stopper s) eqn:E;
    repeat case_match; try discriminate H; apply access_ok in H as [? <-];
    split; simpl; naive_solver.
Qed.

Lemma lifetime_step p possible fenced s a s' :
  Lifetime s → calm_step p possible fenced s a s' → Lifetime s'.
Proof.
  intros HL [Hs Ha]. unfold helper_step in Hs. pose proof HL as [H1 H2 H3].
  destruct a; simpl in Hs.
  - by eapply lifetime_start.
  - destruct (_ && _); [|done]. injection Hs as <-. split; simpl; [done| |done].
    destruct (registered s); naive_solver.
  - by eapply lifetime_callback.
  - destruct (starter_buf s) as [|[] ?]; [done|..]; injection Hs as <-; by split.
  - destruct (stopper_buf s) as [|[] ?]; [done|..]; injection Hs as <-; by split.
  - destruct (submitted s); [|done]. destruct (completed s); [done|]. injection Hs as <-.
    split; simpl; naive_solver.
  - destruct (_ && _ && _) eqn:E; [|done]. injection Hs as <-.
    apply andb_true_iff in E as [E Ek]. apply andb_true_iff in E as [E _].
    apply orb_true_iff in E. apply negb_true_iff in Ek. split; simpl; [|congruence|done].
    intros Hn. destruct (H1 Hn) as (_ & ? & ?). destruct E; congruence.
Qed.

(** (C28) Starting an operation from the thread of the event loop is memory safe:
    when the completion cannot be delivered before [start] returns, neither
    [start] nor the stop callback ever touches a destroyed operation state,
    whatever the owner and the stopping thread do. *)
Theorem start_safe_on_loop_thread p possible fenced ls s a u :
  runs (calm_step p possible fenced) new_helper ls s →
  helper_act p possible fenced a s ≠ Some (Undef u).
Proof.
  intros Hr. assert (Lifetime s) as [H1 H2 H3].
  { eapply runs_invariant; [|apply lifetime_step|exact Hr]. by split. }
  destruct a; simpl; repeat case_match; try done; intros H.
  - unfold start_step, access in H. destruct (starter s); try done;
      destruct H1 as (Ha & _); try done; rewrite Ha in H; repeat case_match; done.
  - unfold stop_callback_step, access in H. destruct (stopper s); try done;
      rewrite H2 in H by done; repeat case_match; done.
Qed.

(** The stop callback is registered and running, between its store and its load, while
    [start] has stored the pointer and is about to load the flag. *)
Definition calm_acts : list haction :=
  replicate 4 AStart ++ [ARequestStop; AStopCallback; AStart; AFlushStarter; AFlushStopper].
Definition calm_state : hstate :=
  default new_helper (helper_exec 16 true false calm_acts new_helper).

Lemma start_safe_on_loop_thread_witness :
  starter calm_state = SLoadStop 16 ∧ stopper calm_state = KLoad ∧
  is_Some (helper_act 16 true false AStart calm_state) ∧
  is_Some (helper_act 16 true false AStopCallback calm_state) ∧
  ∀ a u, helper_act 16 true false a calm_state ≠ Some (Undef u).
Proof.
  split; [vm_compute; reflexivity|]. split; [vm_compute; reflexivity|].
  split; [vm_compute; eauto|]. split; [vm_compute; eauto|]. intros a u.
  apply (start_safe_on_loop_thread 16 true false calm_acts).
  apply (exec_runs (λ a s, match helper_act 16 true false a s, a with
                           | _, AComplete => None | Some (Ok s'), _ => Some s' | _, _ => None end)).
  - intros x l y. unfold calm_step, helper_step. destruct (helper_act _ _ _ _ _) as [[?|?]|], l; naive_solver.
  - vm_compute. reflexivity.
Defined.

(** Started from another thread, an operation can be used after its end: the
    event loop may deliver the completion as soon as [submit()] has returned,
    and the receiver's owner may then destroy the operation state; [start] goes
    on to store the address into it. *)
Lemma start_uses_destroyed_operation :
  ∃ ls s, runs (helper_step 16 true true) new_helper ls s ∧ starter s = SStorePtr 16 ∧
    helper_act 16 true true AStart s = Some (Undef UseAfterFree).
Proof.
  exists (replicate 4 AStart ++ [AComplete; ADestroy]). eexists.
  split; [apply helper_exec_runs; vm_compute; reflexivity|]. vm_compute. done.
Qed.
