(* ===== verification/Senders.v ===== *)
(** * The senders of the io_uring context

    The seven sender types of src/include/async_runtime/io_context.hpp with their
    [connect] and the [start] of their operation states, the [async_*] functions
    of src/src/io_uring_ctx.cpp that make them, and [stop_helper] as it runs when no
    other thread interferes (StopHelper.v treats the interleavings).

    A pointer to an io_context is a number; the contexts that exist are a finite
    map.  An operation state holds a copy of its sender's fields; its receiver is
    [None] once it has been moved from. *)

From S2P Require Import Prelude MachineInt Completion Uring IoContext IoContextProof.
From stdpp Require Import options.
Local Open Scope Z_scope.

(** ** Sender types and the functions that make them *)

Record read_sender := ReadSender { rd_ctx : nat; rd_fd : Z; rd_buf : span; rd_offset : Z }.
Record write_sender := WriteSender { wr_ctx : nat; wr_fd : Z; wr_buf : span; wr_offset : Z }.
Record accept_sender := AcceptSender { ac_ctx : nat; ac_fd : Z }.
Record recv_sender := RecvSender { rv_ctx : nat; rv_fd : Z; rv_buf : span; rv_flags : Z }.
Record send_sender := SendSender { sn_ctx : nat; sn_fd : Z; sn_buf : span; sn_flags : Z }.
Record read_fixed_sender := ReadFixedSender {
  rf_ctx : nat; rf_fd : Z; rf_buf_index : Z; rf_buf : span; rf_offset : Z }.
Record write_fixed_sender := WriteFixedSender {
  wf_ctx : nat; wf_fd : Z; wf_buf_index : Z; wf_buf : span; wf_offset : Z }.

Definition async_read (this : nat) (fd : Z) (buf : span) (offset : Z) : read_sender :=
  {| rd_ctx := this; rd_fd := fd; rd_buf := buf; rd_offset := offset |}.
Definition async_write (this : nat) (fd : Z) (buf : span) (offset : Z) : write_sender :=
  {| wr_ctx := this; wr_fd := fd; wr_buf := buf; wr_offset := offset |}.
Definition async_accept (this : nat) (fd : Z) : accept_sender :=
  {| ac_ctx := this; ac_fd := fd |}.
Definition async_recv (this : nat) (fd : Z) (buf : span) (flags : Z) : recv_sender :=
  {| rv_ctx := this; rv_fd := fd; rv_buf := buf; rv_flags := flags |}.
Definition async_send (this : nat) (fd : Z) (buf : span) (flags : Z) : send_sender :=
  {| sn_ctx := this; sn_fd := fd; sn_buf := buf; sn_flags := flags |}.
Definition async_read_fixed (this : nat) (fd buf_index : Z) (buf : span) (offset : Z) :
    read_fixed_sender :=
  {| rf_ctx := this; rf_fd := fd; rf_buf_index := buf_index; rf_buf := buf; rf_offset := offset |}.
Definition async_write_fixed (this : nat) (fd buf_index : Z) (buf : span) (offset : Z) :
    write_fixed_sender :=
  {| wf_ctx := this; wf_fd := fd; wf_buf_index := buf_index; wf_buf := buf; wf_offset := offset |}.

(** What the receiver's environment says when it is asked for its stop token. *)
Record stop_token := StopToken { stop_requested : bool; stop_possible : bool }.

(** [detail::stop_helper]; [stop_cb] tells whether the optional holds a callback. *)
Record stop_helper := StopHelper {
  sh_ctx : nat; cb_ptr : Z; stop_called : bool; stop_cb : bool }.

Definition new_stop_helper (c : nat) : stop_helper :=
  {| sh_ctx := c; cb_ptr := 0; stop_called := false; stop_cb := false |}.

Section senders.
Context {ring R : Type} `{!Liburing ring}.

(** The contexts that exist, and the signals receivers got from [start] itself. *)
Record world := World { contexts : gmap nat (ring_impl ring R); signals : list (R * signal) }.

(** A member function of the context [k] points to. *)
Definition on_ctx {A} (k : nat) (f : ring_impl ring R → outcome (A * ring_impl ring R))
    (w : world) : outcome (A * world) :=
  match contexts w !! k with
  | None => Undef UseAfterFree
  | Some c => '(a, c') ← f c; Ok (a, World (<[k:=c']> (contexts w)) (signals w))
  end.

Definition cancel_on (k : nat) (p : Z) (w : world) : outcome world :=
  '(_, w') ← on_ctx k (λ c, c' ← submit_cancel p c; Ok (tt, c')) w; Ok w'.

(** [stop_helper::start] *)
Definition helper_start (tok : stop_token) (r : R) (submit : world → outcome (Z * world))
    (h : stop_helper) (w : world) : outcome (stop_helper * world) :=
  if stop_requested tok
  then Ok (h, World (contexts w) (signals w ++ [(r, set_stopped)]))
  else
    let h1 := if stop_possible tok
              then StopHelper (sh_ctx h) (cb_ptr h) (stop_called h) true else h in
    '(ptr, w1) ← submit w;
    let h2 := StopHelper (sh_ctx h1) ptr (stop_called h1) (stop_cb h1) in
    if stop_called h2 then w2 ← cancel_on (sh_ctx h2) ptr w1; Ok (h2, w2)
    else Ok (h2, w1).

(** [stop_callback_fn::operator()] *)
Definition stop_callback (h : stop_helper) (w : world) : outcome (stop_helper * world) :=
  let h1 := StopHelper (sh_ctx h) (cb_ptr h) true (stop_cb h) in
  if cb_ptr h1 =? 0 then Ok (h1, w)
  else w1 ← cancel_on (sh_ctx h1) (cb_ptr h1) w; Ok (h1, w1).

(** ** Operation states *)

Record operation (A : Type) := Operation {
  op_sender : A;                 (** [ctx], [fd], [buf], ... *)
  receiver : option R;
  stop_helper_ : stop_helper;
}.
Arguments Operation {A}.
Arguments op_sender {A}.
Arguments receiver {A}.
Arguments stop_helper_ {A}.

(** The operation states' constructors, as their senders' [connect] calls them. *)
Definition read_connect (s : read_sender) (r : R) : operation read_sender :=
  Operation s (Some r) (new_stop_helper (rd_ctx s)).
Definition write_connect (s : write_sender) (r : R) : operation write_sender :=
  Operation s (Some r) (new_stop_helper (wr_ctx s)).
Definition accept_connect (s : accept_sender) (r : R) : operation accept_sender :=
  Operation s (Some r) (new_stop_helper (ac_ctx s)).
Definition recv_connect (s : recv_sender) (r : R) : operation recv_sender :=
  Operation s (Some r) (new_stop_helper (rv_ctx s)).
Definition send_connect (s : send_sender) (r : R) : operation send_sender :=
  Operation s (Some r) (new_stop_helper (sn_ctx s)).
Definition read_fixed_connect (s : read_fixed_sender) (r : R) : operation read_fixed_sender :=
  Operation s (Some r) (new_stop_helper (rf_ctx s)).
Definition write_fixed_connect (s : write_fixed_sender) (r : R) : operation write_fixed_sender :=
  Operation s (Some r) (new_stop_helper (wf_ctx s)).

(** The part the seven [start] functions share: the receiver is moved out, into
    the callback or into [set_stopped].  Starting twice is not allowed. *)
Definition start_with {A} (tok : stop_token) (submit : A → R → world → outcome (Z * world))
    (op : operation A) (w : world) : outcome (operation A * world) :=
  match receiver op with
  | None => Undef UseAfterFree
  | Some r =>
      '(h, w1) ← helper_start tok r (submit (op_sender op) r) (stop_helper_ op) w;
      Ok (Operation (op_sender op) None h, w1)
  end.

Definition read_start (addr : Z) (tok : stop_token) : operation read_sender → world → _ :=
  start_with tok (λ s r, on_ctx (rd_ctx s) (submit_read (rd_fd s) (rd_buf s) (rd_offset s) r addr)).
Definition write_start (addr : Z) (tok : stop_token) : operation write_sender → world → _ :=
  start_with tok (λ s r, on_ctx (wr_ctx s) (submit_write (wr_fd s) (wr_buf s) (wr_offset s) r addr)).
Definition accept_start (addr : Z) (tok : stop_token) : operation accept_sender → world → _ :=
  start_with tok (λ s r, on_ctx (ac_ctx s) (submit_accept (ac_fd s) r addr)).
Definition recv_start (addr : Z) (tok : stop_token) : operation recv_sender → world → _ :=
  start_with tok (λ s r, on_ctx (rv_ctx s) (submit_recv (rv_fd s) (rv_buf s) (rv_flags s) r addr)).
Definition send_start (addr : Z) (tok : stop_token) : operation send_sender → world → _ :=
  start_with tok (λ s r, on_ctx (sn_ctx s) (submit_send (sn_fd s) (sn_buf s) (sn_flags s) r addr)).
Definition read_fixed_start (addr : Z) (tok : stop_token) :
    operation read_fixed_sender → world → _ :=
  start_with tok (λ s r, on_ctx (rf_ctx s)
    (submit_read_fixed (rf_fd s) (rf_buf_index s) (rf_buf s) (rf_offset s) r addr)).
Definition write_fixed_start (addr : Z) (tok : stop_token) :
    operation write_fixed_sender → world → _ :=
  start_with tok (λ s r, on_ctx (wf_ctx s)
    (submit_write_fixed (wf_fd s) (wf_buf_index s) (wf_buf s) (wf_offset s) r addr)).

(** ** The life of an operation

    Making the sender of a request on context [k], connecting it to [r] and
    starting it, as a program does; the result is the operation's helper. *)
Definition launch (k : nat) (rq : request) (r : R) (addr : Z) (tok : stop_token) (w : world) :
    outcome (stop_helper * world) :=
  let finish {A} (res : outcome (operation A * world)) :=
    '(op, w') ← res; Ok (stop_helper_ op, w') in
  match rq with
  | RRead fd buf offset =>
      finish (read_start addr tok (read_connect (async_read k fd buf offset) r) w)
  | RWrite fd buf offset =>
      finish (write_start addr tok (write_connect (async_write k fd buf offset) r) w)
  | RAccept fd => finish (accept_start addr tok (accept_connect (async_accept k fd) r) w)
  | RRecv fd buf flags =>
      finish (recv_start addr tok (recv_connect (async_recv k fd buf flags) r) w)
  | RSend fd buf flags =>
      finish (send_start addr tok (send_connect (async_send k fd buf flags) r) w)
  | RReadFixed fd ix buf offset =>
      finish (read_fixed_start addr tok
        (read_fixed_connect (async_read_fixed k fd ix buf offset) r) w)
  | RWriteFixed fd ix buf offset =>
      finish (write_fixed_start addr tok
        (write_fixed_connect (async_write_fixed k fd ix buf offset) r) w)
  end.

End senders.
Arguments world : clear implicits.
Arguments operation : clear implicits.
