(* ===== verification/SendersProof.v ===== *)
(** * From a sender to the kernel

    The composition of the layers: what the program asks for through a sender is
    what the context submits, to the right context and for the right receiver, and
    what a stop request cancels. *)

From S2P Require Import Prelude MachineInt Completion Uring IoContext IoContextProof.
From S2P Require Import IoContextTheorems Senders.
From stdpp Require Import options.
Local Open Scope Z_scope.
Set Default Proof Using "Type*".

Section senders.
Context {ring R : Type} `{!Liburing ring, !RingView ring, !LiburingLaws ring}.
Implicit Types (w : world ring R) (c : ring_impl ring R).

Lemma launch_unfold k rq (r : R) addr tok w :
  launch k rq r addr tok w =
    helper_start tok r (on_ctx k (submit rq r addr)) (new_stop_helper k) w.
Proof.
  destruct rq; simpl; unfold read_start, write_start, accept_start, recv_start, send_start,
    read_fixed_start, write_fixed_start, start_with; simpl;
    by destruct (helper_start _ _ _ _ _) as [[? ?]|].
Qed.

(** (C30) Launching an operation, for each of the seven senders.  If a stop is
    already requested, the receiver gets [set_stopped] at once and nothing is
    submitted anywhere.  Otherwise, if the context has a submission entry, exactly one
    entry, the one of the call (for a buffer below 4 GiB), is added to the context the
    sender was made from, with a callback for this receiver allocated at its user data;
    the other contexts are untouched and no signal is sent yet; a stop callback invoked
    next on the helper submits the cancellation of exactly that entry.  Where the
    queue is full and [io_uring_submit] does not empty it, so that there is no entry,
    launching, or the stop callback, dereferences a null pointer. *)
Theorem launch_submits_the_request k rq (r : R) addr tok w c :
  contexts w !! k = Some c → addr ≠ 0 →
  if stop_requested tok
  then launch k rq r addr tok w =
         Ok (new_stop_helper k, World (contexts w) (signals w ++ [(r, set_stopped)]))
  else match get_sqe (the_ring c) with
  | (None, _) => refuses (the_ring c) ∧ launch k rq r addr tok w = Undef NullDeref
  | (Some _, _) => ∃ o c',
    let h := StopHelper k addr false (stop_possible tok) in
    let w' := World (<[k:=c']> (contexts w)) (signals w) in
    launch k rq r addr tok w = Ok (h, w') ∧ heap c' = <[addr:=r]> (heap c) ∧
    requests (the_ring c') = requests (the_ring c) ++ [Sqe o addr] ∧
    (fits rq → o = request_op rq) ∧
    match get_sqe (the_ring c') with
    | (None, _) => refuses (the_ring c') ∧ stop_callback h w' = Undef NullDeref
    | (Some _, _) => ∃ c'',
      stop_callback h w' = Ok (StopHelper k addr true (stop_possible tok),
                               World (<[k:=c'']> (contexts w)) (signals w)) ∧
      heap c'' = heap c' ∧
      requests (the_ring c'') = requests (the_ring c') ++ [Sqe (prep_cancel addr) 0]
    end
  end.
Proof.
  intros Hc Ha. rewrite launch_unfold. unfold helper_start.
  destruct (stop_requested tok); [done|]. unfold on_ctx at 1 2. rewrite Hc.
  pose proof (submit_cases rq r addr c) as Hs.
  destruct (get_sqe (the_ring c)) as [[q|] r1]; [|destruct Hs as [? ->]; done].
  destruct Hs as (o & c' & -> & Ho & Hh & _ & [_ Hq _]). exists o, c'. simpl.
  split_and!; [by destruct (stop_possible tok)|done..|].
  unfold stop_callback. simpl. rewrite (proj2 (Z.eqb_neq addr 0)) by done.
  unfold cancel_on, on_ctx. simpl. rewrite lookup_insert_eq.
  pose proof (cancel_cases addr c') as Hx.
  destruct (get_sqe (the_ring c')) as [[q'|] r2]; [|destruct Hx as [? ->]; done].
  destruct Hx as (c'' & -> & Hh' & _ & [_ Hq' _]). exists c''. simpl.
  by rewrite insert_insert_eq.
Qed.

End senders.

Definition demo_world : world SimpleRing.ring nat := World {[ 4%nat := demo_ctx ]} [].

Definition busy_world : world BusyRing.ring nat := World {[ 4%nat := ctx busy_state ]} [].

(** A receive on a fresh ring, with its cancellation, and one on a full ring that the kernel
    does not empty. *)
Lemma launch_submits_the_request_witness :
  (∃ o c', launch 4 (RRecv 7 (Span 4096 512) 0) 9%nat 16 (StopToken false true) demo_world =
            Ok (StopHelper 4 16 false true, World (<[4%nat:=c']> (contexts demo_world)) []) ∧
     requests (the_ring c') = [Sqe o 16] ∧ o = prep_recv 7 4096 512 0) ∧
  refuses (the_ring (ctx busy_state)) ∧
  launch 4 (RRecv 7 (Span 4096 512) 0) 9%nat 48 (StopToken false true) busy_world = Undef NullDeref.
Proof.
  assert (16 ≠ 0) as Hne by discriminate. assert (48 ≠ 0) as Hne' by discriminate. split.
  - destruct (launch_submits_the_request 4 (RRecv 7 (Span 4096 512) 0) 9%nat 16 (StopToken false true)
                demo_world demo_ctx eq_refl Hne) as (o & c' & H1 & _ & H2 & H3 & _).
    exists o, c'. split; [exact H1|]. split; [exact H2|]. apply H3. vm_compute. split; congruence.
  - pose proof (launch_submits_the_request 4 (RRecv 7 (Span 4096 512) 0) 9%nat 48
                  (StopToken false true) busy_world (ctx busy_state) eq_refl Hne') as H.
    assert (∃ r, get_sqe (the_ring (ctx busy_state)) = (None, r)) as [r E]
      by (eexists; vm_compute; reflexivity).
    rewrite E in H. exact H.
Defined.
