(* ===== verification/Runtime.v ===== *)
(** * The runtime

    The [runtime] object of src/src/runtime.cpp that owns a pool and an io_context, its
    construction and destruction, and what its members guarantee inside it. *)

From S2P Require Import Prelude MachineInt Completion Uring IoContext IoContextProof.
From S2P Require Import IoContextTheorems DequeSpec GlobalQueue Victims ThreadPool ThreadPoolProof.
From stdpp Require Import options.

(** ** Runtime *)

Section runtime.
Context {ring T R : Type} `{!Liburing ring} (body : T → list T).

(** Where the destruction of the runtime is. *)
Inductive rt_stage : Type :=
| Alive
| Stopping           (** [~runtime] is inside [stop()], before the mutex *)
| Stopped            (** the body of [~runtime] has ended *)
| DestroyingPool.    (** [io_ctx_], declared last, is gone; [pool_] is being destroyed *)

Record runtime := Runtime {
  pool_ : pool T;
  io_ctx_ : option (io_sys ring R);      (** [None]: destroyed *)
  stage : rt_stage;
  leaked : gmap Z R;                     (** callbacks nothing deletes any more *)
}.

(** [runtime(thread_count, io_queue_depth)]: the error is the one that
    [io_context]'s constructor throws. *)
Definition new_runtime (thread_count m : nat) (io_queue_depth : Z) : outcome (Z + runtime) :=
  let p := new_pool thread_count m in
  io ← new_ring_impl io_queue_depth;
  match io with
  | inl code => Ok (inl code)
  | inr c => Ok (inr (Runtime p (Some (fresh_sys c)) Alive ∅))
  end.

Inductive rt_action : Type :=
| RPool (a : ThreadPool.action T)     (** a step of the pool, its destructor's included *)
| RIo (who : option nat) (a : IoContext.action R)
    (** a call of the io_context, or a step of its loop: by worker [i] inside a task
        ([Some i]), or by another thread *)
| RDtorStore                          (** [~runtime]: [stop()] up to its mutex *)
| RDtorWake                           (** the rest of [stop()] *)
| RDtorIo.                            (** [io_ctx_] is destroyed *)

(** A call on the member [io_ctx_]. *)
Definition on_io (a : IoContext.action R) (st : rt_stage) (s : runtime) : option (outcome runtime) :=
  match io_ctx_ s with
  | None => Some (Undef UseAfterFree)
  | Some io => o ← io_act a io; Some (io' ← o; Ok (Runtime (pool_ s) (Some io') st (leaked s)))
  end.

Definition on_pool_ (a : ThreadPool.action T) (s : runtime) : option (outcome runtime) :=
  p ← pool_act body a (pool_ s); Some (Ok (Runtime p (io_ctx_ s) (stage s) (leaked s))).

(** [runtime::run()] and [runtime::stop()], called by a thread of the program. *)
Definition rt_run (s : runtime) : option (outcome runtime) := on_io ACallRun (stage s) s.

Definition rt_stop (s : runtime) : outcome runtime :=
  match io_ctx_ s with
  | None => Undef UseAfterFree
  | Some io => c ← IoContext.stop (ctx io);
               Ok (Runtime (pool_ s) (Some (set_ctx c io)) (stage s) (leaked s))
  end.

Definition running_task (i : nat) (s : runtime) : bool :=
  match workers (pool_ s) !! i with Some (WRun _ _ _) => true | _ => false end.

(** The program destroys the runtime when no thread of its own uses it. *)
Definition unused (s : runtime) : bool :=
  forallb is_idle (externs (pool_ s)) &&
  match io_ctx_ s with Some io => bool_decide (loop io = Idle) | None => true end.

Definition rt_act (a : rt_action) (s : runtime) : option (outcome runtime) :=
  match a, stage s with
  | RPool ADtor, DestroyingPool => on_pool_ ADtor s
  | RPool ADtor, _ => None
  | RPool (ACall j x), Alive => on_pool_ (ACall j x) s
  | RPool (ACall _ _), _ => None
  | RPool a, _ => on_pool_ a s
  | RIo None a, Alive => on_io a Alive s
  | RIo (Some i) a, st => if running_task i s then on_io a st s else None
  | RDtorStore, Alive => if unused s then on_io AStopStore Stopping s else None
  | RDtorWake, Stopping => on_io AStopWake Stopped s
  | RDtorIo, Stopped =>
      Some (Ok (Runtime (pool_ s) None DestroyingPool
                  match io_ctx_ s with Some io => destroy_ring_impl (ctx io) | None => ∅ end))
  | _, _ => None
  end.

Definition rt_step (s : runtime) (a : rt_action) (s' : runtime) : Prop :=
  rt_act a s = Some (Ok s').

Definition rt_exec : list rt_action → runtime → option runtime :=
  exec (λ a s, match rt_act a s with Some (Ok s') => Some s' | _ => None end).

(** What an action of the runtime is for the pool and for the io_context. *)
Definition pool_part (a : rt_action) : option (ThreadPool.action T) :=
  match a with RPool a => Some a | _ => None end.

Definition io_part (a : rt_action) : option (IoContext.action R) :=
  match a with
  | RIo _ a => Some a
  | RDtorStore => Some AStopStore
  | RDtorWake => Some AStopWake
  | _ => None
  end.

End runtime.
Arguments runtime : clear implicits.
Arguments rt_action : clear implicits.

(** ** The runtime as a composition *)

Section composition.
Context {ring T R : Type} `{!Liburing ring, !RingView ring, !LiburingLaws ring} (body : T → list T).
Implicit Types (s : runtime ring T R) (a : rt_action T R).

(** The effect of an action on the two members. *)
Record acts_on s a s' : Prop := {
  ao_pool : match pool_part a with
            | Some b => pool_step body (pool_ s) b (pool_ s')
            | None => pool_ s' = pool_ s
            end;
  ao_io : ∀ io', io_ctx_ s' = Some io' → ∃ io, io_ctx_ s = Some io ∧
            match io_part a with Some b => io_step io b io' | None => io' = io end;
}.

Lemma on_io_ok b st s s' :
  on_io b st s = Some (Ok s') →
  ∃ io io', io_ctx_ s = Some io ∧ io_step io b io' ∧
    s' = Runtime (pool_ s) (Some io') st (leaked s).
Proof.
  unfold on_io. destruct (io_ctx_ s) as [io|]; [|done]. intros H.
  apply bind_Some in H as (o & Ho & H). injection H as H.
  apply outcome_bind_ok in H as (io' & -> & [= <-]). by exists io, io'.
Qed.

Lemma on_pool_ok b s s' :
  on_pool_ body b s = Some (Ok s') →
  ∃ p, pool_step body (pool_ s) b p ∧ s' = Runtime p (io_ctx_ s) (stage s) (leaked s).
Proof. unfold on_pool_. intros H. apply bind_Some in H as (p & Hp & [= <-]). by exists p. Qed.

Lemma acts_on_io b st s a s' :
  on_io b st s = Some (Ok s') → pool_part a = None → io_part a = Some b → acts_on s a s'.
Proof.
  intros (io & io' & E & Hs & ->)%on_io_ok Hp Hi. split; simpl; [by rewrite Hp|].
  intros io2 [= <-]. exists io. by rewrite Hi.
Qed.

Lemma acts_on_pool b s a s' :
  on_pool_ body b s = Some (Ok s') → pool_part a = Some b → io_part a = None → acts_on s a s'.
Proof.
  intros (p & Hs & ->)%on_pool_ok Hp Hi. split; simpl; [by rewrite Hp|].
  intros io2 E. exists io2. by rewrite Hi.
Qed.

Lemma rt_step_acts s a s' : rt_step body s a s' → acts_on s a s'.
Proof.
  unfold rt_step. intros H. destruct a as [b|who b| | |]; simpl in H.
  - destruct b, (stage s); try discriminate H; by eapply acts_on_pool.
  - destruct who as [i|].
    + destruct (running_task i s); [by eapply acts_on_io|by destruct (stage s)].
    + destruct (stage s); try done. by eapply acts_on_io.
  - destruct (stage s); try done. destruct (unused s); [|done]. by eapply acts_on_io.
  - destruct (stage s); try done. by eapply acts_on_io.
  - destruct (stage s); try done. by injection H as <-.
Qed.

Lemma runtime_projects n m depth rt ls s :
  new_runtime n m depth = Ok (inr rt) → runs (rt_step body) rt ls s →
  runs (pool_step body) (new_pool n m) (omap pool_part ls) (pool_ s) ∧
  ∀ io, io_ctx_ s = Some io → ∃ c, new_ring_impl depth = Ok (inr c) ∧
    runs io_step (fresh_sys c) (omap io_part ls) io.
Proof.
  intros Hn. induction 1 as [s|s0 ls s1 a s2 ? IH Hstep].
  - unfold new_runtime in Hn. apply outcome_bind_ok in Hn as ([code|c] & Hc & Hn); [done|].
    injection Hn as <-. split; [constructor|]. intros io [= <-]. exists c. split; [done|constructor].
  - destruct (IH Hn) as [IHp IHi]. apply rt_step_acts in Hstep as [Hp Hi]. rewrite !omap_app. simpl.
    split.
    + destruct (pool_part a); [by econstructor|]. by rewrite Hp, app_nil_r.
    + intros io Hio. destruct (Hi io Hio) as (io1 & E & Hs). destruct (IHi io1 E) as (c & Hc & Hr).
      exists c. split; [done|]. destruct (io_part a); [by econstructor|]. by rewrite Hs, app_nil_r.
Qed.

Lemma on_io_undef b st s u :
  on_io b st s = Some (Undef u) →
  (io_ctx_ s = None ∧ u = UseAfterFree) ∨ (∃ io, io_ctx_ s = Some io ∧ io_act b io = Some (Undef u)).
Proof.
  unfold on_io. destruct (io_ctx_ s) as [io|]; [|intros [= <-]; by left]. intros H.
  apply bind_Some in H as (o & Ho & H). injection H as H. destruct o; [done|].
  injection H as <-. right. by exists io.
Qed.

(** An undefined step is a call on the io_context. *)
Lemma rt_undef_io s a u :
  rt_act body a s = Some (Undef u) →
  ∃ b st, on_io b st s = Some (Undef u) ∧
    (io_part a = Some b) ∧ (stage s ≠ DestroyingPool ∨ ∃ i, a = RIo (Some i) b ∧ running_task i s = true).
Proof.
  intros H. destruct a as [b|who b| | |]; simpl in H.
  - destruct b, (stage s); try discriminate H; unfold on_pool_ in H;
      apply bind_Some in H as (p & _ & [=]).
  - destruct who as [i|].
    + destruct (running_task i s) eqn:E; [|by destruct (stage s)]. exists b, (stage s).
      split_and!; [by destruct (stage s)|done|]. right. by exists i.
    + destruct (stage s); try done. exists b, Alive. split_and!; [done..|by left].
  - destruct (stage s); try done. destruct (unused s); [|done]. do 2 eexists. split_and!; [done..|by left].
  - destruct (stage s); try done. do 2 eexists. split_and!; [done..|by left].
  - by destruct (stage s).
Qed.

(** The io_context exists until the pool is being destroyed. *)
Lemma io_exists n m depth rt ls s :
  new_runtime n m depth = Ok (inr rt) → runs (rt_step body) rt ls s →
  io_ctx_ s = None → stage s = DestroyingPool.
Proof.
  intros Hn Hr. pattern s. eapply runs_invariant; [| |exact Hr].
  - unfold new_runtime in Hn. apply outcome_bind_ok in Hn as ([code|c] & Hc & Hn); [done|].
    by injection Hn as <-.
  - clear. intros u a v IH H. unfold rt_step in H. destruct a as [b|who b| | |]; simpl in H.
    + destruct b, (stage u) eqn:E; try discriminate H;
        apply on_pool_ok in H as (p & _ & ->); simpl; rewrite ?E; done.
    + destruct who as [i|].
      * destruct (running_task i u); [|by destruct (stage u)].
        assert (on_io b (stage u) u = Some (Ok v)) as H' by (by destruct (stage u)).
        apply on_io_ok in H' as (io & io' & _ & _ & ->). done.
      * destruct (stage u); try done. by apply on_io_ok in H as (io & io' & _ & _ & ->).
    + destruct (stage u); try done. destruct (unused u); [|done].
      by apply on_io_ok in H as (io & io' & _ & _ & ->).
    + destruct (stage u); try done. by apply on_io_ok in H as (io & io' & _ & _ & ->).
    + destruct (stage u); try done. by injection H as <-.
Qed.

Lemma rt_undef_cause n m depth rt ls s a u :
  new_runtime n m depth = Ok (inr rt) → runs (rt_step body) rt ls s →
  rt_act body a s = Some (Undef u) →
  (u = NullDeref ∧ ∃ io, io_ctx_ s = Some io ∧ refuses (the_ring (ctx io))) ∨
  (u = UseAfterFree ∧ stage s = DestroyingPool ∧
   ∃ i b, a = RIo (Some i) b ∧ running_task i s = true).
Proof using Type*.
  intros Hn Hr Hu. destruct (runtime_projects _ _ _ _ _ _ Hn Hr) as [Hp Hi].
  destruct (rt_undef_io _ _ _ Hu) as (b & st & Hb & Ha & Hw).
  destruct (on_io_undef _ _ _ _ Hb) as [[E ->]|(io & E & Hub)].
  - right. pose proof (io_exists _ _ _ _ _ _ Hn Hr E) as Hst.
    split_and!; [done..|]. destruct Hw as [?|(i & -> & ?)]; [done|]. by exists i, b.
  - left. destruct (Hi io E) as (c & Hc & Hio).
    destruct (undef_is_null _ _ _ _ (inv_reachable _ _ _ _ Hc Hio) Hub) as (-> & _ & r & Hg).
    split; [done|]. exists io. split; [done|]. by eapply get_sqe_refused.
Qed.

End composition.

(** (C39) The runtime is the composition of its members.  Every run of the runtime is, seen
    from the pool, a run of the pool and, seen from the io_context while that exists, a
    run of the io_context, whatever the tasks and callbacks call on the other
    side: so all the guarantees of the two hold inside the runtime.  Undefined
    behaviour has only two causes: a submission to a full queue that [io_uring_submit] does
    not empty, and a task that is running on a worker and uses the io_context while
    [pool_] is being destroyed, after [io_ctx_]; in particular there is none before
    the destructor while the kernel takes the submissions. *)
Theorem runtime_composes {ring T R : Type} `{!Liburing ring, !RingView ring, !LiburingLaws ring}
    (body : T → list T) n m depth (rt : runtime ring T R) ls s :
  new_runtime n m depth = Ok (inr rt) → runs (rt_step body) rt ls s →
  runs (pool_step body) (new_pool n m) (omap pool_part ls) (pool_ s) ∧
  (∀ io, io_ctx_ s = Some io → ∃ c, new_ring_impl depth = Ok (inr c) ∧
     runs io_step (fresh_sys c) (omap io_part ls) io) ∧
  (∀ a u, rt_act body a s = Some (Undef u) →
     (u = NullDeref ∧ ∃ io, io_ctx_ s = Some io ∧ refuses (the_ring (ctx io))) ∨
     (u = UseAfterFree ∧ stage s = DestroyingPool ∧
      ∃ i b, a = RIo (Some i) b ∧ running_task i s = true)).
Proof.
  intros Hn Hr. destruct (runtime_projects body _ _ _ _ _ _ Hn Hr) as [Hp Hi].
  split_and!; [done..|]. intros a u. by eapply rt_undef_cause.
Qed.

(** One worker; a task is enqueued and its start delayed until the destructor of the
    runtime has destroyed the io_context. *)
Definition demo_rt : runtime SimpleRing.ring nat nat :=
  Runtime (new_pool 1 1) (Some (fresh_sys (RingImpl (SimpleRing.init 255) false ∅))) Alive ∅.
Definition late_acts : list (rt_action nat nat) :=
  [RPool (ACall 0 7); RPool (AExtern 0 0); RPool (AExtern 0 0); RIo None (ASubmit (RAccept 3) 5 64);
   RDtorStore; RDtorWake; RDtorIo; RPool (AWorker 0 0); RPool (AWorker 0 0)].
Definition late_rt : runtime SimpleRing.ring nat nat :=
  default demo_rt (rt_exec (λ _ : nat, []) late_acts demo_rt).

Lemma late_runs : runs (rt_step (λ _ : nat, [])) demo_rt late_acts late_rt.
Proof.
  apply (exec_runs (λ a s, match rt_act (λ _ : nat, []) a s with Some (Ok s') => Some s' | _ => None end)).
  - intros u l v. unfold rt_step. destruct (rt_act _ l u) as [[?|?]|]; naive_solver.
  - vm_compute. reflexivity.
Qed.

Lemma runtime_composes_witness :
  workers (pool_ late_rt) = [WRun 7 [] None] ∧
  runs (pool_step (λ _ : nat, [])) (new_pool 1 1) (omap pool_part late_acts) (pool_ late_rt).
Proof.
  split; [vm_compute; reflexivity|].
  apply (runtime_composes (λ _ : nat, []) 1 1 256 demo_rt late_acts late_rt); [reflexivity|exact late_runs].
Defined.

(** (C33) A task can run after the runtime's io_context is destroyed.  [~runtime] stops
    the event loop, then its members are destroyed in reverse order of
    declaration, [io_ctx_] first; the workers are joined only by [~thread_pool],
    after that.  In the run below a task that was enqueued before the destructor
    began starts on a worker when [io_ctx_] no longer exists, so that a read it
    submits is undefined; and the accept that was in flight is abandoned, its
    callback neither invoked nor deleted. *)
Theorem task_uses_destroyed_io_context :
  ∃ rt s : runtime SimpleRing.ring nat nat, new_runtime 1 1 256 = Ok (inr rt) ∧ rt_exec (λ _ : nat, []) late_acts rt = Some s ∧
    io_ctx_ s = None ∧ workers (pool_ s) = [WRun 7 [] None] ∧
    rt_act (λ _ : nat, []) (RIo (Some 0) (ASubmit (RRead 4 (Span 4096 64) 0) 9 128)) s =
      Some (Undef UseAfterFree) ∧
    leaked s = {[64%Z := 5]}.
Proof.
  exists demo_rt, late_rt. split; [reflexivity|]. split; [vm_compute; reflexivity|].
  vm_compute. done.
Qed.
