(* ===== verification/EchoServer.v ===== *)
(** * The echo servers built on the io_context

    src/benchmarks/server_async_engine_fixed.cpp and src/benchmarks/server_async_engine.cpp: the
    pool of registered buffers, the connections with their read and write loops,
    and the accept loop.  The two servers differ in where a connection's buffer
    comes from ([new_Connection] and [new_plain_Connection]); the loops of the
    second are those of the first without a buffer index.

    [stdexec::then] runs the handler on [set_value] only, and [upon_error] and
    [upon_stopped] end the chain: [on_signal].  A connection is kept alive by the
    operation in flight; when a handler starts no further one, the last
    [shared_ptr] goes and the destructor runs. *)

From S2P Require Import Prelude MachineInt Completion Uring IoContext BufferMemory.
From stdpp Require Import options.
Local Open Scope Z_scope.

(** ** The pool of registered buffers *)

Definition BUFFER_SIZE : Z := 128.
Definition NUM_BUFFERS : nat := 64.

Record FixedBufferPool := BufferPool {
  registered_ : bool;
  memory_ : Z;                  (** [memory_.data()] *)
  free_indices_ : list Z;
}.

Definition get_span (p : FixedBufferPool) (index : Z) : span :=
  Span (memory_ p + index * BUFFER_SIZE) BUFFER_SIZE.

(** The constructor; [mem] is where [memory_] is allocated. *)
Definition new_FixedBufferPool {ring R} `{!Liburing ring} (mem : Z) (io : ring_impl ring R) :
    outcome (FixedBufferPool * ring_impl ring R) :=
  let buffer_spans := (λ i, Span (mem + Z.of_nat i * BUFFER_SIZE) BUFFER_SIZE) <$> seq 0 NUM_BUFFERS in
  '(err, io') ← register_buffers buffer_spans io;
  Ok (match err with
      | None => BufferPool true mem ((λ i, Z.of_nat (NUM_BUFFERS - 1 - i)) <$> seq 0 NUM_BUFFERS)
      | Some _ => BufferPool false mem []
      end, io').

Definition acquire (p : FixedBufferPool) : option Z * FixedBufferPool :=
  if negb (registered_ p) || bool_decide (free_indices_ p = []) then (None, p)
  else (last (free_indices_ p),
        BufferPool (registered_ p) (memory_ p) (take (length (free_indices_ p) - 1) (free_indices_ p))).

Definition release (index : Z) (p : FixedBufferPool) : FixedBufferPool :=
  if registered_ p then BufferPool (registered_ p) (memory_ p) (free_indices_ p ++ [index]) else p.

(** The destructor. *)
Definition destroy_FixedBufferPool {ring R} `{!Liburing ring} (p : FixedBufferPool)
    (io : ring_impl ring R) : outcome (ring_impl ring R) :=
  if registered_ p then '(_, io') ← unregister_buffers io; Ok io' else Ok io.

(** ** Connections *)

Record Connection := Conn { fd : Z; buf_index : option Z; buffer : span }.

(** The constructors; [addr] is where the connection's own storage is. *)
Definition new_Connection (client_fd addr : Z) (p : FixedBufferPool) : Connection * FixedBufferPool :=
  let '(ix, p') := acquire p in
  (match ix with
   | Some i => Conn client_fd (Some i) (get_span p' i)
   | None => Conn client_fd None (Span addr 128)
   end, p').

Definition new_plain_Connection (client_fd addr : Z) : Connection :=
  Conn client_fd None (Span addr 4096).

(** [~Connection]; the [close] is the caller's. *)
Definition destroy_Connection (c : Connection) (p : FixedBufferPool) : FixedBufferPool :=
  match buf_index c with Some i => release i p | None => p end.

(** What a connection is waiting for. *)
Inductive phase : Type :=
| Reading
| Writing (total_bytes bytes_sent : Z)
| Closed.

#[export] Instance phase_eq_dec : EqDecision phase.
Proof. solve_decision. Defined.

(** The request that [read_loop] and [write_loop] start. *)
Definition read_loop (c : Connection) : request :=
  match buf_index c with
  | Some i => RReadFixed (fd c) i (buffer c) 0
  | None => RRecv (fd c) (buffer c) 0
  end.

Definition write_loop (c : Connection) (total_bytes bytes_sent : Z) : request :=
  let rest := Span (data (buffer c) + bytes_sent) (uint64 (total_bytes - bytes_sent)) in
  match buf_index c with
  | Some i => RWriteFixed (fd c) i rest 0
  | None => RSend (fd c) rest 0
  end.

(** The loops of the server without registered buffers. *)
Definition plain_read_loop (c : Connection) : request := RRecv (fd c) (buffer c) 0.

Definition plain_write_loop (c : Connection) (total_bytes bytes_sent : Z) : request :=
  RSend (fd c) (Span (data (buffer c) + bytes_sent) (uint64 (total_bytes - bytes_sent))) 0.

Lemma plain_loops client_fd addr t k :
  let c := new_plain_Connection client_fd addr in
  read_loop c = plain_read_loop c ∧ write_loop c t k = plain_write_loop c t k.
Proof. done. Qed.

Definition pending_request (c : Connection) (ph : phase) : option request :=
  match ph with
  | Reading => Some (read_loop c)
  | Writing t k => Some (write_loop c t k)
  | Closed => None
  end.

(** The handlers passed to [stdexec::then]. *)
Definition handle_read (r : io_result) : phase :=
  if res r <=? 0 then Closed else Writing (res r) 0.

Definition handle_write (total_bytes bytes_sent : Z) (r : io_result) : phase :=
  if res r <=? 0 then Closed else
  let sent_now := res r in
  if uint64 (bytes_sent + sent_now) <? total_bytes
  then Writing total_bytes (uint64 (bytes_sent + sent_now)) else Reading.

Definition on_signal (ph : phase) (g : signal) : phase :=
  match g, ph with
  | set_value r, Reading => handle_read r
  | set_value r, Writing t k => handle_write t k r
  | _, _ => Closed
  end.

(** ** A session, with the bytes that travel *)

Section session.
Context {byte : Type}.

Record session := Session {
  ph : phase;
  contents : list byte;        (** of the connection's buffer *)
  received : list byte;        (** history: bytes the peer sent *)
  echoed : list byte;          (** history: bytes sent back *)
}.

(** Completions of the operation in flight.  The kernel moves at most as many bytes as the
    request asks for, into or out of the memory that the request names. *)
Inductive completion : Type :=
| Arrived (bs : list byte)
| Transmitted (n : nat)
| Failed (g : signal).

Definition session_act (c : Connection) (e : completion) (s : session) : option (outcome session) :=
  rq ← pending_request c (ph s);
  match e with
  | Arrived bs =>
      b ← incoming rq;
      if Z.of_nat (length bs) <=? size b
      then Some (mem ← store (data (buffer c)) b bs (contents s);
                 Ok (Session (on_signal (ph s) (set_value (IoResult (Z.of_nat (length bs)) 0)))
                       mem (received s ++ bs) (echoed s)))
      else None
  | Transmitted n =>
      b ← outgoing rq;
      if Z.of_nat n <=? size b
      then Some (bs ← transmit (data (buffer c)) b n (contents s);
                 Ok (Session (on_signal (ph s) (set_value (IoResult (Z.of_nat n) 0)))
                       (contents s) (received s) (echoed s ++ bs)))
      else None
  | Failed (set_value _) => None
  | Failed g => Some (Ok (Session (on_signal (ph s) g) (contents s) (received s) (echoed s)))
  end.

Definition session_step (c : Connection) (e : completion) (s : session) : option session :=
  match session_act c e s with Some (Ok s') => Some s' | _ => None end.

Definition start_session (buf : list byte) : session := Session Reading buf [] [].

(** The bytes read and not sent back yet. *)
Definition unsent (s : session) : list byte :=
  match ph s with
  | Writing t k => take (Z.to_nat (t - k)) (drop (Z.to_nat k) (contents s))
  | _ => []
  end.

End session.
Arguments session : clear implicits.
Arguments completion : clear implicits.

(** ** The server *)

Record server := Server {
  pool : FixedBufferPool;
  conns : gmap Z (Connection * phase);   (** by descriptor, with what each waits for *)
  accepting : bool;                      (** an accept is in flight *)
  running : bool;
}.

Definition set_accepting (b : bool) (s : server) : server :=
  Server (pool s) (conns s) b (running s).

(** The handler of [run_accept_loop], which starts the next accept at its end. *)
Definition handle_accept (addr : Z) (r : io_result) (s : server) : server :=
  if negb (running s) then set_accepting false s else
  let s1 := if 0 <=? res r
            then let '(c, p) := new_Connection (res r) addr (pool s) in
                 Server p (<[res r := (c, Reading)]> (conns s)) (accepting s) (running s)
            else s in
  set_accepting true s1.

Definition on_accept (addr : Z) (g : signal) (s : server) : server :=
  match g with
  | set_value r => handle_accept addr r s
  | set_error _ | set_stopped => set_accepting false s
  end.

(** The completion of the operation in flight of connection [k]. *)
Definition on_connection (k : Z) (g : signal) (s : server) : option server :=
  '(c, p) ← conns s !! k;
  Some (match on_signal p g with
        | Closed => Server (destroy_Connection c (pool s)) (delete k (conns s)) (accepting s) (running s)
        | p' => Server (pool s) (<[k := (c, p')]> (conns s)) (accepting s) (running s)
        end).

Inductive server_event : Type :=
| Accepted (addr : Z) (r : io_result)   (** the kernel completes the accept *)
| Progressed (k : Z) (r : io_result).   (** ... the operation of connection [k] *)

(** The kernel never hands out a descriptor that is still open. *)
Definition server_act (e : server_event) (s : server) : option server :=
  match e with
  | Accepted addr r =>
      if accepting s && bool_decide (conns s !! res r = None)
      then match make_io_callback r with Ok g => Some (on_accept addr g s) | Undef _ => None end
      else None
  | Progressed k r =>
      match make_io_callback r with Ok g => on_connection k g s | Undef _ => None end
  end.

Definition server_step (s : server) (e : server_event) (s' : server) : Prop :=
  server_act e s = Some s'.

Definition new_server (p : FixedBufferPool) : server := Server p ∅ true true.
