(* ===== verification/EchoServerProof.v ===== *)
(** * What the echo servers guarantee

    A session echoes exactly what it received, whatever the sizes of the partial
    reads and writes; no two connections share a registered buffer and none is
    leaked; and a failed accept ends the accept loop. *)

From S2P Require Import Prelude MachineInt Completion Uring IoContext BufferMemory EchoServer.
From stdpp Require Import options.
Local Open Scope Z_scope.

(** ** Sessions *)

Section echo.
Context {byte : Type} (c : Connection).
Hypothesis Hsize : 0 < size (buffer c) ≤ int32_max.
Implicit Types s : session byte.

Definition echo_step s (e : completion byte) s' : Prop := session_step c e s = Some s'.

Record EchoInv s : Prop := {
  ei_len : Z.of_nat (length (contents s)) = size (buffer c);
  ei_phase : match ph s with
             | Reading => echoed s = received s
             | Writing t k => 0 ≤ k < t ∧ t ≤ size (buffer c) ∧ received s = echoed s ++ unsent s
             | Closed => echoed s `prefix_of` received s
             end;
}.

Lemma uint64_small z : 0 ≤ z < 2^64 → uint64 z = z.
Proof. intros. unfold uint64. by apply Z.mod_small. Qed.

Lemma echo_arrived s bs :
  EchoInv s → ph s = Reading → (length bs ≤ length (contents s))%nat →
  EchoInv (Session (handle_read (IoResult (Z.of_nat (length bs)) 0))
             (bs ++ drop (length bs) (contents s)) (received s ++ bs) (echoed s)).
Proof using Hsize.
  intros [Hl Hp] Hr Hb. rewrite Hr in Hp. split; simpl.
  - rewrite length_app, length_drop. lia.
  - unfold handle_read; simpl. destruct (_ <=? 0) eqn:E; zbool.
    + rewrite Hp. by apply prefix_app_r.
    + split_and!; [lia..|]. unfold unsent; simpl.
      by rewrite Z.sub_0_r, Nat2Z.id, drop_0, take_app_length, Hp.
Qed.

Lemma echo_transmitted s t k n :
  EchoInv s → ph s = Writing t k → Z.of_nat n ≤ t - k →
  EchoInv (Session (handle_write t k (IoResult (Z.of_nat n) 0)) (contents s) (received s)
             (echoed s ++ take n (drop (Z.to_nat k) (contents s)))).
Proof using Hsize.
  intros [Hl Hp] Hw Hn. unfold unsent in Hp. rewrite Hw in Hp. destruct Hp as (Hk & Ht & Hr).
  assert (take (Z.to_nat (t - k)) (drop (Z.to_nat k) (contents s)) =
          take n (drop (Z.to_nat k) (contents s)) ++
          take (Z.to_nat (t - (k + Z.of_nat n))) (drop (Z.to_nat (k + Z.of_nat n)) (contents s))) as E.
  { replace (Z.to_nat (t - k)) with (n + Z.to_nat (t - (k + Z.of_nat n)))%nat by lia.
    rewrite <- take_take_drop, drop_drop. do 3 f_equal. lia. }
  split; simpl; [done|]. unfold handle_write; simpl. destruct (_ <=? 0) eqn:E0; zbool.
  - replace n with O by lia. rewrite take_0, app_nil_r, Hr. by apply prefix_app_r.
  - rewrite uint64_small by int_lia. destruct (_ <? t) eqn:E1; zbool.
    + split_and!; [lia..|]. unfold unsent; simpl. by rewrite Hr, E, (assoc (++)).
    + rewrite Hr, E. replace (t - (k + Z.of_nat n)) with 0 by lia. by rewrite take_0, app_nil_r.
Qed.

Lemma echo_closed s : EchoInv s → EchoInv (Session Closed (contents s) (received s) (echoed s)).
Proof.
  intros [Hl Hp]. split; simpl; [done|]. destruct (ph s) as [|t k|].
  - by rewrite Hp.
  - destruct Hp as (_ & _ & ->). by apply prefix_app_r.
  - done.
Qed.

(** What the completions do, in a state that satisfies the invariant. *)
Lemma act_arrived s bs :
  EchoInv s → ph s = Reading → Z.of_nat (length bs) ≤ size (buffer c) →
  session_act c (Arrived bs) s =
    Some (Ok (Session (handle_read (IoResult (Z.of_nat (length bs)) 0))
                (bs ++ drop (length bs) (contents s)) (received s ++ bs) (echoed s))).
Proof using Hsize.
  intros [Hl _] Hp Hb. unfold session_act. rewrite Hp. simpl.
  assert (incoming (read_loop c) = Some (buffer c)) as -> by (unfold read_loop; by destruct (buf_index c)).
  simpl. rewrite (proj2 (Z.leb_le _ _) Hb). destruct (buffer c) as [d n]. simpl in *.
  by rewrite store_start by lia.
Qed.

Lemma write_span s t k :
  EchoInv s → ph s = Writing t k →
  outgoing (write_loop c t k) = Some (Span (data (buffer c) + k) (t - k)).
Proof using Hsize.
  intros [_ Hp] Hw. rewrite Hw in Hp. unfold write_loop. rewrite uint64_small by int_lia.
  by destruct (buf_index c).
Qed.

Lemma act_transmitted s t k n :
  EchoInv s → ph s = Writing t k → Z.of_nat n ≤ t - k →
  session_act c (Transmitted n) s =
    Some (Ok (Session (handle_write t k (IoResult (Z.of_nat n) 0)) (contents s) (received s)
                (echoed s ++ take n (drop (Z.to_nat k) (contents s))))).
Proof using Hsize.
  intros HI Hw Hn. unfold session_act. rewrite Hw. simpl.
  rewrite (write_span _ _ _ HI Hw). simpl. rewrite (proj2 (Z.leb_le _ _) Hn).
  destruct HI as [Hl Hp]. rewrite Hw in Hp. by rewrite transmit_at by lia.
Qed.

Lemma write_incoming t k : incoming (write_loop c t k) = None.
Proof. unfold write_loop. by destruct (buf_index c). Qed.

Lemma read_outgoing : outgoing (read_loop c) = None.
Proof. unfold read_loop. by destruct (buf_index c). Qed.

Lemma echo_act s e o :
  EchoInv s → session_act c e s = Some o → ∃ s', o = Ok s' ∧ EchoInv s'.
Proof using Hsize.
  intros HI H. destruct e as [bs|n|g].
  - destruct (ph s) as [|t k|] eqn:Hp; [|unfold session_act in H; rewrite Hp in H;
      simpl in H; by rewrite write_incoming in H|by unfold session_act in H; rewrite Hp in H].
    destruct (decide (Z.of_nat (length bs) ≤ size (buffer c))) as [Hb|Hb].
    + rewrite act_arrived in H by done. injection H as <-. eexists. split; [done|].
      apply echo_arrived; try done. destruct HI. lia.
    + unfold session_act in H. rewrite Hp in H. simpl in H. unfold read_loop in H.
      destruct (buf_index c); simpl in H; rewrite (proj2 (Z.leb_gt _ _)) in H by lia; done.
  - destruct (ph s) as [|t k|] eqn:Hp; [unfold session_act in H; rewrite Hp in H;
      simpl in H; by rewrite read_outgoing in H| |by unfold session_act in H; rewrite Hp in H].
    destruct (decide (Z.of_nat n ≤ t - k)) as [Hn|Hn].
    + rewrite (act_transmitted _ t k) in H by done. injection H as <-. eexists. split; [done|].
      by apply echo_transmitted.
    + unfold session_act in H. rewrite Hp in H. simpl in H. rewrite (write_span _ _ _ HI Hp) in H.
      simpl in H. rewrite (proj2 (Z.leb_gt _ _)) in H by lia. done.
  - unfold session_act in H. apply bind_Some in H as (rq & _ & H).
    destruct g; [done|..]; injection H as <-; eexists; (split; [done|]);
      destruct (ph s); by apply echo_closed.
Qed.

Lemma echo_inv_step s e s' : EchoInv s → echo_step s e s' → EchoInv s'.
Proof using Hsize.
  unfold echo_step, session_step. intros HI H. destruct (session_act c e s) as [o|] eqn:E; [|done].
  destruct (echo_act _ _ _ HI E) as (s1 & -> & ?). by injection H as <-.
Qed.

Definition within (b whole : span) : Prop :=
  data whole ≤ data b ∧ 0 < size b ∧ data b + size b ≤ data whole + size whole.

Lemma pending_within s rq b :
  EchoInv s → pending_request c (ph s) = Some rq → request_span rq = Some b → within b (buffer c).
Proof using Hsize.
  intros [_ Hp] Hq Hb. destruct (ph s) as [|t k|]; simpl in Hq; [..|done]; injection Hq as <-.
  - unfold read_loop in Hb. destruct (buf_index c); injection Hb as <-; unfold within; lia.
  - destruct Hp as (? & ? & _). unfold write_loop in Hb.
    assert (uint64 (t - k) = t - k) as E by (apply uint64_small; int_lia).
    destruct (buf_index c); injection Hb as <-; unfold within; simpl; rewrite E; lia.
Qed.

Lemma echo_prefix s : EchoInv s → echoed s `prefix_of` received s.
Proof.
  intros [_ Hp]. destruct (ph s); [by rewrite Hp| |done].
  destruct Hp as (_ & _ & ->). by apply prefix_app_r.
Qed.

End echo.

(** (C34) A connection echoes what it receives, byte for byte.  Whatever the sizes of
    the partial reads and writes the kernel chooses and whenever the session
    fails, the bytes sent back are a prefix of the bytes received; when the
    connection waits for more input they are all of them; while it writes, the
    bytes missing are exactly those of the span it still has to send.  What is stored
    and what is sent is what the kernel does with the request in flight, which is for
    the connection's descriptor and buffer index, stays inside the connection's buffer
    and is not empty: no completion of it touches other memory. *)
Theorem echo_session_faithful {byte} (c : Connection) (buf : list byte) es s :
  0 < size (buffer c) ≤ int32_max → Z.of_nat (length buf) = size (buffer c) →
  runs (echo_step c) (start_session buf) es s →
  echoed s `prefix_of` received s ∧
  (ph s ≠ Closed → received s = echoed s ++ unsent s) ∧
  (ph s = Reading → echoed s = received s) ∧
  (∀ rq, pending_request c (ph s) = Some rq →
     request_fd rq = fd c ∧ request_index rq = buf_index c ∧
     ∃ b, request_span rq = Some b ∧ within b (buffer c)) ∧
  (∀ e u, session_act c e s ≠ Some (Undef u)).
Proof.
  intros Hs Hb Hr. assert (EchoInv c s) as HI.
  { eapply runs_invariant; [|by apply echo_inv_step|exact Hr]. by split. }
  pose proof HI as [_ Hp]. unfold unsent. split_and!.
  - by apply (echo_prefix c).
  - destruct (ph s) eqn:E; [by rewrite Hp, app_nil_r| |done]. intros _.
    destruct Hp as (_ & _ & Hp). unfold unsent in Hp. by rewrite E in Hp.
  - by intros E; rewrite E in Hp.
  - intros rq Hq.
    assert (request_fd rq = fd c ∧ request_index rq = buf_index c ∧ ∃ b, request_span rq = Some b)
      as (? & ? & b & Hrb).
    { unfold pending_request, read_loop, write_loop in Hq.
      destruct (ph s), (buf_index c); try done; injection Hq as <-; simpl; eauto. }
    split_and!; [done..|]. exists b. split; [done|]. by eapply pending_within.
  - intros e u Hu. by destruct (echo_act _ Hs _ _ _ HI Hu) as (? & ? & _).
Qed.

Definition demo_conn : Connection := new_plain_Connection 7 8192.
Definition demo_buf : list nat := replicate 4096 0%nat.
Definition demo_events : list (completion nat) :=
  [Arrived [1; 2; 3; 4; 5]%nat; Transmitted 2; Transmitted 3; Arrived [6; 7; 8]%nat; Transmitted 1].
Definition demo_session : session nat :=
  default (start_session demo_buf) (exec (session_step demo_conn) demo_events (start_session demo_buf)).

Lemma echo_session_faithful_witness :
  ph demo_session = Writing 3 1 ∧ echoed demo_session = [1; 2; 3; 4; 5; 6]%nat ∧
  echoed demo_session `prefix_of` received demo_session.
Proof.
  split_and!; [vm_compute; reflexivity..|].
  apply (echo_session_faithful demo_conn demo_buf demo_events demo_session).
  - split; [reflexivity|]. vm_compute. discriminate.
  - vm_compute. reflexivity.
  - apply (exec_runs (session_step demo_conn)); [done|]. vm_compute. reflexivity.
Defined.

(** ** The buffer pool *)

Implicit Types s : server.

(** The indices that connections hold. *)
Definition held (m : gmap Z (Connection * phase)) : list Z :=
  omap (λ kc, buf_index kc.2.1) (map_to_list m).

Definition all_indices : list Z := Z.of_nat <$> seq 0 NUM_BUFFERS.

Lemma held_insert m k c q :
  m !! k = None → held (<[k:=(c, q)]> m) ≡ₚ option_list (buf_index c) ++ held m.
Proof.
  intros Hk. unfold held. rewrite map_to_list_insert by done. simpl. by destruct (buf_index c).
Qed.

Lemma held_delete m k c q :
  m !! k = Some (c, q) → held m ≡ₚ option_list (buf_index c) ++ held (delete k m).
Proof.
  intros Hk. rewrite <- (insert_delete_id m k (c, q)) at 1 by done.
  apply held_insert, lookup_delete_eq.
Qed.

Lemma held_update m k c q q' : m !! k = Some (c, q) → held (<[k:=(c, q')]> m) ≡ₚ held m.
Proof.
  intros Hk. rewrite (held_delete m k c q) by done.
  rewrite (held_delete (<[k:=(c, q')]> m) k c q') by apply lookup_insert_eq.
  by rewrite delete_insert_eq.
Qed.

Record PoolInv (reg : bool) (mem : Z) s : Prop := {
  pi_reg : registered_ (pool s) = reg;
  pi_mem : memory_ (pool s) = mem;
  pi_all : free_indices_ (pool s) ++ held (conns s) ≡ₚ if reg then all_indices else [];
  pi_span : map_Forall (λ _ cp, ∀ i, buf_index cp.1 = Some i →
              buffer cp.1 = Span (mem + i * BUFFER_SIZE) BUFFER_SIZE) (conns s);
}.

Lemma acquire_spec p :
  let '(ix, p') := acquire p in
  registered_ p' = registered_ p ∧ memory_ p' = memory_ p ∧
  free_indices_ p ≡ₚ option_list ix ++ free_indices_ p'.
Proof.
  unfold acquire. destruct (negb _ || _) eqn:E; [done|]. apply orb_false_iff in E as [_ E].
  apply bool_decide_eq_false in E. destruct (snoc_case (free_indices_ p)) as [?|(l & x & Hl)]; [done|].
  simpl. split_and!; [done..|]. rewrite Hl, last_snoc, length_app. simpl.
  rewrite Nat.add_sub, take_app_length. apply Permutation_app_comm.
Qed.

Lemma destroy_spec c p :
  let p' := destroy_Connection c p in
  registered_ p' = registered_ p ∧ memory_ p' = memory_ p ∧
  (registered_ p = true → free_indices_ p' ≡ₚ option_list (buf_index c) ++ free_indices_ p) ∧
  (registered_ p = false → free_indices_ p' = free_indices_ p).
Proof.
  unfold destroy_Connection, release. destruct (buf_index c); [|done].
  destruct (registered_ p) eqn:E; simpl; split_and!; try done. intros _. apply Permutation_app_comm.
Qed.

Lemma pool_inv_accept reg mem s addr r :
  PoolInv reg mem s → conns s !! res r = None → PoolInv reg mem (handle_accept addr r s).
Proof.
  intros [H1 H2 H3 H4] Hk. unfold handle_accept. destruct (running s); [|by split].
  simpl. destruct (0 <=? res r); [|by split]. unfold new_Connection.
  pose proof (acquire_spec (pool s)) as Ha. destruct (acquire (pool s)) as [ix p'].
  destruct Ha as (A1 & A2 & A3). split; simpl; [congruence..| |].
  - rewrite <- H3, A3, held_insert by done. destruct ix; simpl; solve_Permutation.
  - apply map_Forall_insert_2; [|done]. destruct ix as [i|]; simpl; [|done].
    intros j [= <-]. unfold get_span. by rewrite A2, H2.
Qed.

Lemma pool_inv_connection reg mem s k g s' :
  PoolInv reg mem s → on_connection k g s = Some s' → PoolInv reg mem s'.
Proof.
  intros [H1 H2 H3 H4] H. unfold on_connection in H.
  apply bind_Some in H as ([c q] & Hk & H). injection H as <-.
  assert (∀ q', PoolInv reg mem (Server (pool s) (<[k:=(c, q')]> (conns s)) (accepting s) (running s)))
    as Hgo.
  { intros q'. split; simpl; [done..| |].
    - by rewrite (held_update _ _ _ _ _ Hk).
    - apply map_Forall_insert_2; [|done]. exact (H4 k (c, q) Hk). }
  destruct (on_signal q g); [apply Hgo..|].
  pose proof (held_delete _ _ _ _ Hk) as Hh. destruct (destroy_spec c (pool s)) as (D1 & D2 & D3 & D4).
  split; simpl; [congruence..| |by apply map_Forall_delete]. rewrite H1 in *. destruct reg.
  - rewrite <- H3, Hh, D3 by done. solve_Permutation.
  - rewrite D4 by done. rewrite Hh in H3. symmetry in H3. apply Permutation_nil_l in H3. symmetry in H3.
    apply app_eq_nil in H3 as [-> H3]. by apply app_eq_nil in H3 as [_ ->].
Qed.

Lemma pool_inv_step reg mem s e s' : PoolInv reg mem s → server_step s e s' → PoolInv reg mem s'.
Proof.
  unfold server_step, server_act. intros HI H. destruct e as [addr r|k r].
  - destruct (accepting s && _) eqn:E; [|done]. apply andb_true_iff in E as [_ E].
    apply bool_decide_eq_true in E. destruct (make_io_callback r) as [g|] eqn:Hg; [|done].
    injection H as <-. destruct g as [r'|code|]; simpl; [|by destruct HI..].
    assert (r' = r) as -> by (unfold make_io_callback in Hg; repeat case_match; outcome_inv; done).
    by apply pool_inv_accept.
  - destruct (make_io_callback r); [|done]. by eapply pool_inv_connection.
Qed.

(** An index that is held by one connection is held by no other. *)
Lemma held_distinct m k1 k2 c1 q1 c2 q2 i1 i2 :
  NoDup (held m) → k1 ≠ k2 → m !! k1 = Some (c1, q1) → m !! k2 = Some (c2, q2) →
  buf_index c1 = Some i1 → buf_index c2 = Some i2 → i1 ≠ i2.
Proof.
  intros Hn Hk H1 H2 E1 E2 ->. rewrite (held_delete _ _ _ _ H1) in Hn.
  assert (delete k1 m !! k2 = Some (c2, q2)) as H2' by (by rewrite lookup_delete_ne).
  rewrite (held_delete _ _ _ _ H2'), E1, E2 in Hn. simpl in Hn.
  apply NoDup_cons in Hn as [Hn _]. apply Hn. left.
Qed.

Lemma all_indices_NoDup : NoDup all_indices.
Proof. apply NoDup_fmap; [by intros x y ?; lia|apply NoDup_seq]. Qed.

Lemma pool_inv_new mem {ring R} `{!Liburing ring} (io io' : ring_impl ring R) p :
  new_FixedBufferPool mem io = Ok (p, io') → PoolInv (registered_ p) mem (new_server p).
Proof.
  unfold new_FixedBufferPool. intros H. apply outcome_bind_ok in H as ([err io1] & _ & H).
  injection H as <- <-. destruct err; split; try done.
  apply (bool_decide_eq_true_1 _). vm_compute. reflexivity.
Qed.

(** (C35) Registered buffers are neither shared nor leaked.  In every state the server
    can reach, the free indices and those held by the open connections are
    together exactly the indices of the pool, each once (none at all when the
    registration failed), and the buffers of two different connections that use
    the pool do not overlap and lie inside the pool's memory. *)
Theorem buffers_never_shared mem {ring R} `{!Liburing ring} (io io' : ring_impl ring R) p es s :
  new_FixedBufferPool mem io = Ok (p, io') → runs server_step (new_server p) es s →
  free_indices_ (pool s) ++ held (conns s) ≡ₚ (if registered_ p then all_indices else []) ∧
  ∀ k1 k2 c1 q1 c2 q2 i1 i2, k1 ≠ k2 →
    conns s !! k1 = Some (c1, q1) → conns s !! k2 = Some (c2, q2) →
    buf_index c1 = Some i1 → buf_index c2 = Some i2 →
    (data (buffer c1) + size (buffer c1) ≤ data (buffer c2) ∨
     data (buffer c2) + size (buffer c2) ≤ data (buffer c1)) ∧
    within (buffer c1) (Span mem (Z.of_nat NUM_BUFFERS * BUFFER_SIZE)).
Proof.
  intros Hp Hr. assert (PoolInv (registered_ p) mem s) as [H1 H2 H3 H4].
  { eapply runs_invariant; [by eapply pool_inv_new|by apply pool_inv_step|exact Hr]. }
  split; [done|]. intros k1 k2 c1 q1 c2 q2 i1 i2 Hk C1 C2 E1 E2.
  assert (i1 ∈ held (conns s)) as Hin by (rewrite (held_delete _ _ _ _ C1), E1; left).
  destruct (registered_ p).
  - assert (NoDup (held (conns s))) as Hn.
    { pose proof all_indices_NoDup as Ha. rewrite <- H3 in Ha. by apply NoDup_app in Ha as (_ & _ & ?). }
    pose proof (held_distinct _ _ _ _ _ _ _ _ _ Hn Hk C1 C2 E1 E2) as Hne.
    pose proof (H4 _ _ C1 _ E1) as B1. pose proof (H4 _ _ C2 _ E2) as B2. simpl in B1, B2.
    rewrite B1, B2. unfold within, BUFFER_SIZE. simpl.
    assert (i1 ∈ all_indices) as Hi by (rewrite <- H3; apply elem_of_app; by right).
    apply list_elem_of_fmap in Hi as (j & -> & Hj). apply elem_of_seq in Hj.
    unfold NUM_BUFFERS in *. split; lia.
  - symmetry in H3. apply Permutation_nil_l in H3. symmetry in H3. apply app_eq_nil in H3 as [_ H3].
    rewrite H3 in Hin. by apply elem_of_nil in Hin.
Qed.

Definition demo_io : ring_impl SimpleRing.ring nat := RingImpl (SimpleRing.init 1) false ∅.
Definition demo_pool : FixedBufferPool :=
  match new_FixedBufferPool 65536 demo_io with Ok (p, _) => p | Undef _ => BufferPool false 0 [] end.
Definition demo_server_events : list server_event :=
  [Accepted 0 (IoResult 5 0); Accepted 0 (IoResult 6 0); Progressed 5 (IoResult 0 0);
   Accepted 0 (IoResult 5 0)].
Definition demo_server : server :=
  default (new_server demo_pool) (exec server_act demo_server_events (new_server demo_pool)).

Lemma demo_server_runs : runs server_step (new_server demo_pool) demo_server_events demo_server.
Proof. apply (exec_runs server_act); [done|]. vm_compute. reflexivity. Qed.

Lemma buffers_never_shared_witness :
  held (conns demo_server) ≡ₚ [0; 1] ∧
  free_indices_ (pool demo_server) ++ held (conns demo_server) ≡ₚ all_indices.
Proof.
  split; [apply (bool_decide_eq_true_1 _); vm_compute; reflexivity|].
  destruct (new_FixedBufferPool 65536 demo_io) as [[p io']|u] eqn:E; [|vm_compute in E; discriminate E].
  assert (p = demo_pool) as -> by (unfold demo_pool; by rewrite E).
  apply (buffers_never_shared 65536 demo_io io' demo_pool demo_server_events demo_server E
           demo_server_runs).
Defined.

(** A failed accept ends the accept loop for good.  A negative result reaches
    the chain as an error, whose handler does nothing: the test [res.res >= 0] of
    the success handler never sees it, no further accept is started, and the
    server accepts no connection from then on, whatever happens. *)
Lemma failed_accept_ends_the_loop addr r s es s' :
  accepting s = true → -4095 ≤ res r < 0 → conns s !! res r = None →
  (∃ s1, server_act (Accepted addr r) s = Some s1 ∧ conns s1 = conns s ∧
     (runs server_step s1 es s' → accepting s' = false)).
Proof.
  intros Ha Hr Hk. exists (set_accepting false s).
  destruct (make_io_callback_total r) as (g & Hg & Hres); [int_lia|]. split_and!; [|done|].
  - unfold server_act. rewrite Ha, bool_decide_eq_true_2, Hg by done. simpl.
    destruct g as [v| |]; [|done..]. exfalso. simpl in Hres.
    unfold make_io_callback in Hg. repeat case_match; outcome_inv; zbool; lia.
  - apply (runs_invariant _ (λ s, accepting s = false)); [done|]. intros u e v Hu H.
    unfold server_step, server_act in H. destruct e as [a' r'|k r']; [by rewrite Hu in H|].
    destruct (make_io_callback r'); [|done]. unfold on_connection in H.
    apply bind_Some in H as ([c q] & _ & H). injection H as <-. by destruct (on_signal _ _).
Qed.
