(* ===== verification/SessionServers.v ===== *)
(** * The thread-per-connection server and the coroutine server

    [handle_client] of src/benchmarks/server_thread_per_connection.cpp and [handle_session] of
    src/benchmarks/server_coroutine.cpp as state machines driven by the answers of the
    kernel, and their accept loops.  What a session of an echo server is was said in
    EchoServer ([session_step]); the class [EchoImpl] asks that every step of an
    implementation is a step of such a session or none, and both servers are instances.

    In the coroutine, [co_await] on an operation that completes with an error throws, and on
    one that is stopped unwinds the coroutine: nothing after it runs, the [close] at the
    end of [handle_session] included. *)

From S2P Require Import Prelude MachineInt Completion Uring IoContext EchoServer EchoServerProof.
From stdpp Require Import options.
Local Open Scope Z_scope.

(** ** The interface *)

Class EchoImpl (byte St A : Type) (c : Connection) := {
  impl_step : A → St → option St;
  impl_view : St → session byte;
  impl_start : list byte → St;
  impl_start_view buf : impl_view (impl_start buf) = start_session buf;
  impl_refines a s s' : EchoInv c (impl_view s) → impl_step a s = Some s' →
    impl_view s' = impl_view s ∨ ∃ e, echo_step c (impl_view s) e (impl_view s');
}.

Section impl.
Context {byte St A : Type} {c : Connection} `{!EchoImpl byte St A c}.
Hypothesis Hsize : 0 < size (buffer c) ≤ int32_max.

Definition impl_run_step (s : St) (a : A) (s' : St) : Prop := impl_step a s = Some s'.

Lemma impl_runs (buf : list byte) ls (s : St) :
  Z.of_nat (length buf) = size (buffer c) →
  runs impl_run_step (impl_start buf) ls s →
  EchoInv c (impl_view s) ∧ ∃ es, runs (echo_step c) (start_session buf) es (impl_view s).
Proof using Hsize.
  intros Hb Hr. remember (impl_start buf) as s0 eqn:E0.
  induction Hr as [|s0 ls s a s' Hr IH Hst]; subst.
  - rewrite impl_start_view. split; [by split|]. exists []. constructor.
  - destruct (IH eq_refl) as (HI & es & He).
    destruct (impl_refines a s s' HI Hst) as [->|[e Hs]]; [by eauto|].
    split; [by eapply echo_inv_step|]. exists (es ++ [e]). by econstructor.
Qed.

End impl.

(** ** [handle_client] *)

Section sessions.
Context {byte : Type}.

Inductive client_pc : Type :=
| HRecv                               (** [recv(client_fd, buffer.data(), buffer.size(), 0)] *)
| HSend (n total_sent : Z)            (** [send(client_fd, buffer.data() + total_sent, ...)] *)
| HDone.                              (** returned, the descriptor closed *)

Record client := Client {
  hpc : client_pc;
  hbuffer : list byte;
  hreceived : list byte;
  hsent : list byte;
  hcloses : nat;                      (** calls of [close(client_fd)] *)
}.

(** A blocking call returns: bytes, a count, or a result that is not positive (end of
    file, error or timeout). *)
Inductive answer : Type :=
| GotBytes (bs : list byte)
| TookBytes (k : nat)
| NotPositive.

Definition put (bs buf : list byte) : list byte := bs ++ drop (length bs) buf.

Definition new_client (buf : list byte) : client := Client HRecv buf [] [] 0.

Definition client_step (a : answer) (s : client) : option client :=
  match hpc s, a with
  | HRecv, GotBytes bs =>
      if bool_decide (bs ≠ [] ∧ (length bs ≤ length (hbuffer s))%nat)
      then Some (Client (HSend (Z.of_nat (length bs)) 0) (put bs (hbuffer s)) (hreceived s ++ bs)
                   (hsent s) (hcloses s))
      else None
  | HSend n total_sent, TookBytes k =>
      if (1 <=? Z.of_nat k) && (Z.of_nat k <=? n - total_sent)
      then let total_sent' := total_sent + Z.of_nat k in
           Some (Client (if total_sent' <? n then HSend n total_sent' else HRecv) (hbuffer s)
                   (hreceived s) (hsent s ++ take k (drop (Z.to_nat total_sent) (hbuffer s)))
                   (hcloses s))
      else None
  | HRecv, NotPositive | HSend _ _, NotPositive =>
      Some (Client HDone (hbuffer s) (hreceived s) (hsent s) (S (hcloses s)))
  | _, _ => None
  end.

Definition client_phase (p : client_pc) : phase :=
  match p with HRecv => Reading | HSend n k => Writing n k | HDone => Closed end.

(** ** [handle_session] *)

Inductive coro_pc : Type :=
| KCheck                              (** [running_.load()] *)
| KRecv                               (** [co_await io.async_recv(client_fd, buf)] *)
| KSend (bytes_to_send bytes_sent : Z) (** [co_await io.async_send(...)] *)
| KDone                               (** [close(client_fd); co_return] *)
| KUnwound.                           (** left by an exception or by [set_stopped] *)

Record coro := Coro {
  kpc : coro_pc;
  kbuf : list byte;
  kreceived : list byte;
  ksent : list byte;
  kcloses : nat;
}.

(** The flag is read, or the operation in flight completes; [bs] are the bytes that a
    receive stored. *)
Inductive coro_event : Type :=
| Flag (running_ : bool)
| Completed (g : signal) (bs : list byte).

Definition at_kpc (p : coro_pc) (s : coro) : coro :=
  Coro p (kbuf s) (kreceived s) (ksent s) (kcloses s).

Definition finish_session (s : coro) : coro :=
  Coro KDone (kbuf s) (kreceived s) (ksent s) (S (kcloses s)).

Definition new_coro (buf : list byte) : coro := Coro KCheck buf [] [] 0.

(** The kernel transfers as many bytes as its result says, and no more than asked. *)
Definition coro_step (e : coro_event) (s : coro) : option coro :=
  match kpc s, e with
  | KCheck, Flag running_ => Some (if running_ then at_kpc KRecv s else finish_session s)
  | KRecv, Completed (set_value r) bs =>
      if bool_decide (Z.of_nat (length bs) = Z.max 0 (res r) ∧ (length bs ≤ length (kbuf s))%nat) then
        let s1 := Coro (kpc s) (put bs (kbuf s)) (kreceived s ++ bs) (ksent s) (kcloses s) in
        Some (if res r <=? 0 then finish_session s1 else at_kpc (KSend (res r) 0) s1)
      else None
  | KSend bytes_to_send bytes_sent, Completed (set_value r) _ =>
      if res r <=? bytes_to_send - bytes_sent then
        if res r <=? 0 then Some (finish_session s)
        else let bytes_sent' := bytes_sent + res r in
             Some (Coro (if bytes_sent' <? bytes_to_send then KSend bytes_to_send bytes_sent' else KCheck)
                     (kbuf s) (kreceived s)
                     (ksent s ++ take (Z.to_nat (res r)) (drop (Z.to_nat bytes_sent) (kbuf s)))
                     (kcloses s))
      else None
  | KRecv, Completed _ _ | KSend _ _, Completed _ _ => Some (at_kpc KUnwound s)
  | _, _ => None
  end.

Definition coro_phase (p : coro_pc) : phase :=
  match p with
  | KCheck | KRecv => Reading
  | KSend n k => Writing n k
  | KDone | KUnwound => Closed
  end.

End sessions.
Arguments client : clear implicits.
Arguments answer : clear implicits.
Arguments coro : clear implicits.
Arguments coro_event : clear implicits.

(** ** Both implement the echo session *)

Section instances.
Context {byte : Type} (fd addr : Z).

Definition conn : Connection := new_plain_Connection fd addr.

Definition client_view (s : client byte) : session byte :=
  Session (client_phase (hpc s)) (hbuffer s) (hreceived s) (hsent s).

Definition coro_view (s : coro byte) : session byte :=
  Session (coro_phase (kpc s)) (kbuf s) (kreceived s) (ksent s).

Lemma conn_size : 0 < size (buffer conn) ≤ int32_max.
Proof. unfold conn; simpl; int_lia. Qed.

Lemma arrived_step (s : session byte) bs :
  EchoInv conn s → ph s = Reading → (length bs ≤ length (contents s))%nat →
  echo_step conn s (Arrived bs)
    (Session (handle_read (IoResult (Z.of_nat (length bs)) 0)) (put bs (contents s))
       (received s ++ bs) (echoed s)).
Proof.
  intros HI Hp Hl. unfold echo_step, session_step. rewrite (act_arrived _ conn_size); [done..|].
  destruct HI. lia.
Qed.

Lemma transmitted_step (s : session byte) t k (n : nat) :
  EchoInv conn s → ph s = Writing t k → 1 ≤ Z.of_nat n ≤ t - k →
  echo_step conn s (Transmitted n)
    (Session (if k + Z.of_nat n <? t then Writing t (k + Z.of_nat n) else Reading) (contents s)
       (received s) (echoed s ++ take n (drop (Z.to_nat k) (contents s)))).
Proof.
  intros HI Hph Hn. unfold echo_step, session_step.
  rewrite (act_transmitted _ conn_size _ t k) by (done || lia). do 2 f_equal.
  destruct HI as [_ Hp]. rewrite Hph in Hp. destruct Hp as (Hk & Ht & _). simpl in Ht.
  unfold handle_write; simpl. rewrite (proj2 (Z.leb_gt _ _)) by lia.
  rewrite uint64_small by int_lia. done.
Qed.

Lemma failed_step (s : session byte) :
  ph s ≠ Closed →
  echo_step conn s (Failed set_stopped) (Session Closed (contents s) (received s) (echoed s)).
Proof. unfold echo_step, session_step, session_act. by destruct (ph s). Qed.

Lemma client_refines a s s' :
  EchoInv conn (client_view s) → client_step a s = Some s' →
  ∃ e, echo_step conn (client_view s) e (client_view s').
Proof.
  intros HI H. unfold client_step in H.
  destruct (hpc s) as [|n t|] eqn:Hp; destruct a as [bs|k|]; try discriminate H.
  - case_bool_decide as Hb; [|done]. destruct Hb as [Hne Hl]. injection H as <-.
    exists (Arrived bs). unfold client_view. rewrite Hp. simpl.
    assert (handle_read (IoResult (Z.of_nat (length bs)) 0) = Writing (Z.of_nat (length bs)) 0) as <-.
    { unfold handle_read. simpl. rewrite (proj2 (Z.leb_gt _ _)); [done|]. destruct bs; [done|simpl; lia]. }
    unfold client_view in HI. rewrite Hp in HI. by apply (arrived_step (Session Reading _ _ _)).
  - injection H as <-. exists (Failed set_stopped). unfold client_view. simpl.
    apply (failed_step (Session (client_phase (hpc s)) _ _ _)). by rewrite Hp.
  - destruct (_ && _) eqn:E; [|done]. apply andb_true_iff in E as [E1 E2]. zbool. injection H as <-.
    exists (Transmitted k). unfold client_view in *. rewrite Hp in *. simpl in *.
    pose proof (transmitted_step _ n t k HI eq_refl ltac:(lia)) as Hs. simpl in Hs.
    by destruct (_ <? n).
  - injection H as <-. exists (Failed set_stopped). unfold client_view. simpl.
    apply (failed_step (Session (client_phase (hpc s)) _ _ _)). by rewrite Hp.
Qed.

Lemma coro_refines e s s' :
  EchoInv conn (coro_view s) → coro_step e s = Some s' →
  coro_view s' = coro_view s ∨ ∃ e', echo_step conn (coro_view s) e' (coro_view s').
Proof.
  intros HI H. unfold coro_step in H.
  assert (∀ st : session byte, ph st ≠ Closed → ∃ e', echo_step conn st e'
    (Session Closed (contents st) (received st) (echoed st))) as Hfail.
  { intros st Hst. exists (Failed set_stopped). by apply failed_step. }
  destruct (kpc s) as [| |n t| |] eqn:Hp; destruct e as [b|g bs]; try discriminate H.
  - injection H as <-. destruct b; [left; unfold coro_view; by rewrite Hp|].
    right. apply (Hfail (coro_view s)). unfold coro_view. by rewrite Hp.
  - right. destruct g as [r| |]; [|by injection H as <-; apply (Hfail (coro_view s));
      unfold coro_view; rewrite Hp..].
    case_bool_decide as Hb; [|done]. destruct Hb as [Hl Hle]. injection H as <-.
    exists (Arrived bs). pose proof (arrived_step (coro_view s) bs) as Hs. simpl in Hs.
    rewrite Hp in Hs. specialize (Hs HI eq_refl Hle). unfold coro_view. simpl.
    assert (handle_read (IoResult (Z.of_nat (length bs)) 0) =
      if res r <=? 0 then Closed else Writing (res r) 0) as E.
    { unfold handle_read. simpl. destruct (res r <=? 0) eqn:E; zbool.
      - by rewrite (proj2 (Z.leb_le _ _)) by lia.
      - rewrite (proj2 (Z.leb_gt _ _)) by lia. f_equal. lia. }
    rewrite E in Hs. unfold coro_view in Hs. simpl in Hs. rewrite Hp in *. by destruct (res r <=? 0).
  - right. destruct g as [r| |]; [|by injection H as <-; apply (Hfail (coro_view s));
      unfold coro_view; rewrite Hp..].
    destruct (res r <=? n - t) eqn:E1; [|done]. destruct (res r <=? 0) eqn:E2; zbool; injection H as <-.
    { apply (Hfail (coro_view s)). unfold coro_view. by rewrite Hp. }
    exists (Transmitted (Z.to_nat (res r))). unfold coro_view in *. rewrite Hp in *. simpl in *.
    pose proof (transmitted_step _ n t (Z.to_nat (res r)) HI eq_refl ltac:(lia)) as Hs. simpl in Hs.
    rewrite Z2Nat.id in Hs by lia. by destruct (_ <? n).
Qed.

#[export] Instance client_impl : EchoImpl byte (client byte) (answer byte) conn := {|
  impl_step := client_step;
  impl_view := client_view;
  impl_start := new_client;
  impl_start_view buf := eq_refl;
  impl_refines a s s' HI H := or_intror (client_refines a s s' HI H);
|}.

#[export] Instance coro_impl : EchoImpl byte (coro byte) (coro_event byte) conn := {|
  impl_step := coro_step;
  impl_view := coro_view;
  impl_start := new_coro;
  impl_start_view buf := eq_refl;
  impl_refines := coro_refines;
|}.

End instances.

(** ** The accept loops *)

(** [main] of the thread-per-connection server: the descriptors that get a thread; the
    loop ends at the first failed [accept], and with it the program. *)
Fixpoint accept_threads (answers : list Z) : list Z * bool :=
  match answers with
  | [] => ([], false)
  | client_fd :: answers =>
      if 0 <=? client_fd
      then let '(fds, ended) := accept_threads answers in (client_fd :: fds, ended)
      else ([], true)
  end.

Inductive accept_pc : Type := ACheck | AAccept | AEnded.

Record coro_server := CoroServer { apc : accept_pc; sessions : list Z }.

(** [CoroutineServer::accept_loop]. *)
Definition coro_accept_step {byte} (e : coro_event byte) (s : coro_server) : option coro_server :=
  match apc s, e with
  | ACheck, Flag running_ => Some (CoroServer (if running_ then AAccept else AEnded) (sessions s))
  | AAccept, Completed (set_value r) _ =>
      Some (if 0 <=? res r then CoroServer ACheck (sessions s ++ [res r])
            else if res r =? - ECANCELED then CoroServer AEnded (sessions s)
            else CoroServer ACheck (sessions s))
  | AAccept, Completed _ _ => Some (CoroServer AEnded (sessions s))
  | _, _ => None
  end.

(** The branch for failures is never taken: a negative result is not a value. *)
Lemma coro_failed_accept_ends {byte} r g (bs : list byte) s :
  -4095 ≤ res r < 0 → make_io_callback r = Ok g → apc s = AAccept →
  coro_accept_step (Completed g bs) s = Some (CoroServer AEnded (sessions s)).
Proof.
  intros Hr Hg Ha. unfold coro_accept_step. rewrite Ha. destruct g as [v| |]; [|done..].
  exfalso. unfold make_io_callback in Hg. repeat case_match; outcome_inv; zbool; lia.
Qed.

(** ** Properties *)

(** (C23) The sessions of the thread-per-connection and of the coroutine server echo
    faithfully.  Both implement the echo session: whatever the kernel answers, the bytes
    sent back are a prefix of the bytes received, all of them when the session waits
    for input, and all but the unsent rest of the buffer while it sends.  A thread
    closes its descriptor exactly once, when it ends; a coroutine closes it exactly once
    when it returns, and not at all when an operation that failed or was stopped
    unwinds it. *)
Theorem session_servers_echo {byte} (buf : list byte) :
  length buf = 4096%nat →
  (∀ ls (s : client byte), runs (λ s a s', client_step a s = Some s') (new_client buf) ls s →
     hsent s `prefix_of` hreceived s ∧ (hpc s = HRecv → hsent s = hreceived s) ∧
     (∀ n t, hpc s = HSend n t →
        hreceived s = hsent s ++ take (Z.to_nat (n - t)) (drop (Z.to_nat t) (hbuffer s))) ∧
     hcloses s = match hpc s with HDone => 1%nat | _ => 0%nat end) ∧
  (∀ ls (s : coro byte), runs (λ s e s', coro_step e s = Some s') (new_coro buf) ls s →
     ksent s `prefix_of` kreceived s ∧ (kpc s = KCheck ∨ kpc s = KRecv → ksent s = kreceived s) ∧
     (∀ n t, kpc s = KSend n t →
        kreceived s = ksent s ++ take (Z.to_nat (n - t)) (drop (Z.to_nat t) (kbuf s))) ∧
     kcloses s = match kpc s with KDone => 1%nat | _ => 0%nat end).
Proof.
  intros Hb. assert (0 < size (buffer (conn 0 0)) ≤ int32_max) as Hsz by (unfold conn; simpl; int_lia).
  assert (Z.of_nat (length buf) = size (buffer (conn 0 0))) as Hbz by (rewrite Hb; done).
  split; intros ls s Hr.
  - destruct (@impl_runs _ _ _ _ (client_impl 0 0) Hsz buf ls s Hbz Hr) as [HI _]. split_and!.
    + by apply (echo_prefix (conn 0 0) (client_view s)).
    + intros Hp. destruct HI as [_ HI]. simpl in HI. by rewrite Hp in HI.
    + intros n t Hp. destruct HI as [_ HI]. unfold unsent in HI. simpl in HI. rewrite Hp in HI. by destruct HI as (_ & _ & ->).
    + refine (runs_invariant _ (λ s, hcloses s = match hpc s with HDone => 1%nat | _ => 0%nat end) _ _ _ _ _ Hr);
        [done|]. intros u a v Hu H. unfold client_step in H.
      repeat case_match; simplify_eq/=; congruence.
  - destruct (@impl_runs _ _ _ _ (coro_impl 0 0) Hsz buf ls s Hbz Hr) as [HI _]. split_and!.
    + by apply (echo_prefix (conn 0 0) (coro_view s)).
    + intros Hp. destruct HI as [_ HI]. simpl in HI. by destruct Hp as [Hp|Hp]; rewrite Hp in HI.
    + intros n t Hp. destruct HI as [_ HI]. unfold unsent in HI. simpl in HI. rewrite Hp in HI. by destruct HI as (_ & _ & ->).
    + refine (runs_invariant _ (λ s, kcloses s = match kpc s with KDone => 1%nat | _ => 0%nat end) _ _ _ _ _ Hr);
        [done|]. intros u a v Hu H. unfold coro_step, finish_session, at_kpc in H.
      repeat case_match; simplify_eq/=; congruence.
Qed.

(** A thread gets three bytes, sends two and then one, and sees the end of the stream; a
    coroutine gets two bytes, and the send of them fails. *)
Lemma session_servers_echo_witness :
  let buf := replicate 4096 0 in
  (∃ s, exec client_step [GotBytes [1; 2; 3]; TookBytes 2; TookBytes 1; NotPositive]
          (new_client buf) = Some s ∧
     hsent s = [1; 2; 3] ∧ hsent s `prefix_of` hreceived s ∧ hcloses s = 1%nat) ∧
  (∃ s, exec coro_step [Flag true; Completed (set_value (IoResult 2 0)) [7; 8];
          Completed (set_error 32) []] (new_coro buf) = Some s ∧
     ksent s `prefix_of` kreceived s ∧ kpc s = KUnwound ∧ kcloses s = 0%nat).
Proof.
  intros buf. destruct (session_servers_echo buf (length_replicate 4096 0)) as [Hc Hk]. split.
  - destruct (exec client_step _ (new_client buf)) as [s|] eqn:E; [|vm_compute in E; discriminate E].
    exists s. pose proof (exec_runs _ (λ s a s', client_step a s = Some s') _ _ _ (λ _ _ _ H, H) E) as Hr.
    destruct (Hc _ _ Hr) as (H1 & _ & _ & H4). vm_compute in E.
    injection E as E. split_and!; [done|by rewrite <- E|done|by rewrite <- E].
  - destruct (exec coro_step _ (new_coro buf)) as [s|] eqn:E; [|vm_compute in E; discriminate E].
    exists s. pose proof (exec_runs _ (λ s e s', coro_step e s = Some s') _ _ _ (λ _ _ _ H, H) E) as Hr.
    destruct (Hk _ _ Hr) as (H1 & _ & _ & H4). vm_compute in E.
    injection E as E. split_and!; [done|done|by rewrite <- E|by rewrite <- E].
Defined.
