(* ===== verification/EpollServer.v ===== *)
(** * The epoll server

    [run_epoll_reactor] of src/benchmarks/server_epoll.cpp: the connections it keeps, the
    loop that accepts, and the handling of an event on a connection, with
    edge-triggered notifications.  The kernel is a list of answers to the calls the
    handler makes ([recv], [send], [accept4]); [Undef] does not occur, and a handler yields
    [None] when the list is not a possible sequence of answers (too short, or more bytes
    than were asked for).

    Next to the server's own state a connection carries what the kernel knows: whether
    [EPOLLOUT] is registered for it, the bytes received and the bytes sent.  The flag
    [want_write] and the byte counters are the code's; the rest is there to state what the
    server guarantees. *)

From S2P Require Import Prelude MachineInt.
From stdpp Require Import options.

Section epoll.
Context {byte : Type} (zero : byte).

Record ConnectionContext := Context_ {
  buffer : list byte;
  read_bytes : nat;
  write_bytes : nat;
  want_write : bool;
  (* kernel and history *)
  armed_out : bool;            (** [EPOLLOUT] registered with [epoll_ctl] *)
  received : list byte;
  sent : list byte;
}.

(** [ConnectionContext ctx(client_fd); ctx.buffer.resize(4096)], registered without
    [EPOLLOUT]. *)
Definition new_context : ConnectionContext :=
  Context_ (replicate 4096 zero) 0 0 false false [] [].

(** Answers of [recv] and [send]: bytes or a count, [EAGAIN], another error. *)
Inductive recv_answer : Type := RData (bs : list byte) | REof | RAgain | RError.
Inductive send_answer : Type := SCount (n : nat) | SAgain | SError.

(** [recv] stores at [buffer.data() + read_bytes] at most [buffer.size() - read_bytes] bytes;
    a positive answer is a non-empty list. *)
Definition receive (bs : list byte) (c : ConnectionContext) : option ConnectionContext :=
  if decide (bs ≠ [] ∧ length bs ≤ length (buffer c) - read_bytes c) then
    let buf := take (read_bytes c) (buffer c) ++ bs ++ drop (read_bytes c + length bs) (buffer c) in
    let rb := read_bytes c + length bs in
    Some (Context_ (if decide (rb = length buf) then buf ++ replicate (length buf) zero else buf)
            rb (write_bytes c) (want_write c) (armed_out c) (received c ++ bs) (sent c))
  else None.

(** The loop around [recv]; [true] when the peer has closed or the call failed.  An answer
    to a call that asks for no bytes can only be [REof]. *)
Fixpoint recv_loop (rs : list recv_answer) (c : ConnectionContext) :
    option (bool * list recv_answer * ConnectionContext) :=
  match rs with
  | [] => None
  | RAgain :: rs => Some (false, rs, c)
  | RError :: rs | REof :: rs => Some (true, rs, c)
  | RData bs :: rs => c' ← receive bs c; recv_loop rs c'
  end.

(** [send(fd, buffer.data() + write_bytes, read_bytes - write_bytes)]; [true] when the
    connection has to be closed. *)
Definition do_send (a : send_answer) (c : ConnectionContext) : option (bool * ConnectionContext) :=
  match a with
  | SCount n =>
      if decide (n ≤ read_bytes c - write_bytes c) then
        Some (false, Context_ (buffer c) (read_bytes c) (write_bytes c + n) (want_write c) (armed_out c)
                (received c) (sent c ++ take n (drop (write_bytes c) (buffer c))))
      else None
  | SAgain => Some (false, c)
  | SError => Some (true, c)
  end.

(** [epoll_ctl(EPOLL_CTL_MOD)] and the assignment of [want_write].  The server does not look at
    the result of [epoll_ctl]; for a descriptor that is registered it is taken to succeed. *)
Definition arm (out : bool) (c : ConnectionContext) : ConnectionContext :=
  Context_ (buffer c) (read_bytes c) (write_bytes c) out out (received c) (sent c).

Definition reset_counters (c : ConnectionContext) : ConnectionContext :=
  Context_ (buffer c) 0 0 (want_write c) (armed_out c) (received c) (sent c).

(** The branch [if (revents & EPOLLIN)]; [None] inside the pair: the connection was closed
    and erased. *)
Definition on_readable (rs : list recv_answer) (ss : list send_answer) (c : ConnectionContext) :
    option (list send_answer * option ConnectionContext) :=
  '(closed, _, c1) ← recv_loop rs c;
  if (closed : bool) then Some (ss, None) else
  if decide (write_bytes c1 < read_bytes c1) then
    match ss with
    | [] => None
    | a :: ss =>
        '(closed, c2) ← do_send a c1;
        if (closed : bool) then Some (ss, None)
        else if decide (write_bytes c2 < read_bytes c2)
             then Some (ss, Some (if want_write c2 then c2 else arm true c2))
             else Some (ss, Some (reset_counters c2))
    end
  else Some (ss, Some c1).

(** The branch [if (revents & EPOLLOUT)]. *)
Definition on_writable (ss : list send_answer) (c : ConnectionContext) :
    option (option ConnectionContext) :=
  let finish c := Some (Some (if decide (write_bytes c = read_bytes c)
                              then reset_counters (arm false c) else c)) in
  if decide (write_bytes c < read_bytes c) then
    match ss with
    | [] => None
    | a :: _ =>
        '(closed, c1) ← do_send a c;
        if (closed : bool) then Some None else finish c1
    end
  else finish c.

(** The events of a connection: a hang-up or error, or readable and writable. *)
Record revents := Revents { hup : bool; epollin : bool; epollout : bool }.

Definition on_event (ev : revents) (rs : list recv_answer) (ss : list send_answer)
    (c : ConnectionContext) : option (option ConnectionContext) :=
  if hup ev then Some None else
  '(ss1, c1) ← (if epollin ev then on_readable rs ss c else Some (ss, Some c));
  match c1 with
  | None => Some None
  | Some c1 => if epollout ev then on_writable ss1 c1 else Some (Some c1)
  end.

(** ** The reactor *)

(** The open connections and, as history, the descriptors accepted and closed. *)
Record reactor := Reactor {
  conns : gmap Z ConnectionContext;
  accepted : list Z;
  closed_fds : list Z;
}.

Definition new_reactor : reactor := Reactor ∅ [] [].

(** The accept loop: it goes on until [accept4] fails, whatever the reason. *)
Fixpoint accept_loop (answers : list Z) (r : reactor) : option reactor :=
  match answers with
  | [] => None
  | client_fd :: answers =>
      if (client_fd <? 0)%Z then Some r
      else accept_loop answers (Reactor (<[client_fd := new_context]> (conns r)) (accepted r ++ [client_fd])
                                 (closed_fds r))
  end.

Inductive event : Type :=
| Incoming (answers : list Z)
| Ready (fd : Z) (ev : revents) (rs : list recv_answer) (ss : list send_answer).

(** One iteration of the loop over [events].  The kernel reports events of registered
    descriptors only, and [accept4] returns descriptors that are not open. *)
Definition handle (e : event) (r : reactor) : option reactor :=
  match e with
  | Incoming answers =>
      if decide (Forall (λ a, conns r !! a = None) answers ∧ NoDup (filter (λ a, 0 ≤ a)%Z answers))
      then accept_loop answers r else None
  | Ready fd ev rs ss =>
      c ← conns r !! fd;
      o ← on_event ev rs ss c;
      Some (match o with
            | None => Reactor (delete fd (conns r)) (accepted r) (closed_fds r ++ [fd])
            | Some c' => Reactor (<[fd := c']> (conns r)) (accepted r) (closed_fds r)
            end)
  end.

Definition reactor_step (r : reactor) (e : event) (r' : reactor) : Prop := handle e r = Some r'.

(** ** The invariant of a connection *)

(** Received and not sent yet. *)
Definition pending (c : ConnectionContext) : list byte :=
  take (read_bytes c - write_bytes c) (drop (write_bytes c) (buffer c)).

Record CtxInv (c : ConnectionContext) : Prop := {
  cx_room : read_bytes c < length (buffer c);
  cx_order : write_bytes c ≤ read_bytes c;
  cx_flag : want_write c = armed_out c;
  cx_echo : received c = sent c ++ pending c;
}.

Lemma ctx_new : CtxInv new_context.
Proof. split; simpl; rewrite ?length_replicate; (lia || done). Qed.

Lemma ctx_receive bs c c' :
  CtxInv c → receive bs c = Some c' →
  CtxInv c' ∧ received c' = received c ++ bs ∧ armed_out c' = armed_out c.
Proof.
  intros [Hr Ho Hf He] H. unfold receive in H. destruct (decide _) as [[Hne Hl]|]; [|done].
  injection H as <-. set (buf := take (read_bytes c) (buffer c) ++ _) in *.
  assert (length buf = length (buffer c)) as Hlen.
  { unfold buf. rewrite !length_app, length_take, length_drop. lia. }
  assert (0 < length bs) by (destruct bs; simpl; [done|lia]).
  assert (∀ tl, take (read_bytes c + length bs - write_bytes c) (drop (write_bytes c) (buf ++ tl)) =
    pending c ++ bs) as Hp.
  { intros tl. assert (pending c = drop (write_bytes c) (take (read_bytes c) (buffer c))) as ->.
    { unfold pending. rewrite take_drop_commute. do 2 f_equal. lia. }
    unfold buf.
    rewrite <- !(assoc (++)), drop_app_le by (rewrite length_take; lia). rewrite (assoc (++)).
    apply take_app_length'. rewrite length_app, length_drop, length_take. lia. }
  split; [|done]. split; simpl.
  - destruct (decide _) as [E|]; rewrite ?length_app, ?length_replicate; lia.
  - lia.
  - done.
  - unfold pending; simpl. rewrite He, <- (assoc (++)). f_equal.
    destruct (decide _); [by rewrite Hp|]. by rewrite <- (app_nil_r buf), Hp.
Qed.

Lemma ctx_recv_loop rs c closed rs' c' :
  CtxInv c → recv_loop rs c = Some (closed, rs', c') →
  CtxInv c' ∧ received c `prefix_of` received c' ∧ sent c' = sent c ∧ armed_out c' = armed_out c.
Proof.
  revert c. induction rs as [|r rs IH]; intros c Hc H; simpl in H; [done|].
  destruct r as [bs| | |]; try (by injection H as <- <- <-).
  apply bind_Some in H as (c1 & H1 & H). destruct (ctx_receive _ _ _ Hc H1) as (Hc1 & E & Ea).
  destruct (IH c1 Hc1 H) as (Hc' & Hp & Hs & Ha). split_and!; [done| | |congruence].
  - etrans; [|exact Hp]. rewrite E. by apply prefix_app_r.
  - rewrite Hs. unfold receive in H1. destruct (decide _); [|done]. by injection H1 as <-.
Qed.

Lemma ctx_send a c closed c' :
  CtxInv c → do_send a c = Some (closed, c') →
  CtxInv c' ∧ received c' = received c ∧ armed_out c' = armed_out c ∧ read_bytes c' = read_bytes c.
Proof.
  intros [Hr Ho Hf He] H. destruct a as [n| |]; simpl in H; [|by injection H as <- <-..].
  destruct (decide _) as [Hn|]; [|done]. injection H as <- <-. split; [|done].
  split; simpl; [done|lia|done|]. rewrite He, <- (assoc (++)). f_equal. unfold pending; simpl.
  replace (read_bytes c - write_bytes c) with (n + (read_bytes c - (write_bytes c + n))) by lia.
  by rewrite <- take_take_drop, drop_drop.
Qed.

Lemma ctx_arm out c : CtxInv c → CtxInv (arm out c).
Proof. by intros []. Qed.

Lemma ctx_reset c : CtxInv c → read_bytes c ≤ write_bytes c → CtxInv (reset_counters c).
Proof.
  intros [Hr Ho Hf He] Hle. split; simpl; [lia|lia|done|]. rewrite He. unfold pending. simpl.
  replace (read_bytes c - write_bytes c) with 0 by lia. by rewrite !take_0.
Qed.

(** What holds between two events: a connection with something to send is registered for
    [EPOLLOUT]. *)
Definition armed (c : ConnectionContext) : Prop :=
  write_bytes c < read_bytes c → armed_out c = true.

Lemma on_readable_inv rs ss c ss' c' :
  CtxInv c → on_readable rs ss c = Some (ss', Some c') →
  CtxInv c' ∧ armed c' ∧ received c `prefix_of` received c'.
Proof.
  intros Hc H. unfold on_readable in H. apply bind_Some in H as ([[closed rs'] c1] & H1 & H).
  destruct (ctx_recv_loop _ _ _ _ _ Hc H1) as (Hc1 & Hp & _ & _).
  destruct closed; [done|]. destruct (decide _) as [Hlt|Hge].
  - destruct ss as [|a ss]; [done|]. apply bind_Some in H as ([cl2 c2] & H2 & H).
    destruct (ctx_send _ _ _ _ Hc1 H2) as (Hc2 & Er & _ & _). rewrite <- Er in Hp.
    destruct cl2; [done|]. destruct (decide _) as [Hlt2|Hge2]; injection H as <- <-.
    + destruct (want_write c2) eqn:Ew.
      * split_and!; [done| |done]. intros _. by rewrite <- (cx_flag _ Hc2).
      * split_and!; [by apply ctx_arm|done|done].
    + split_and!; [apply ctx_reset; [done|lia]| |done]. by intros ?; simpl in *; lia.
  - injection H as <- <-. split_and!; [done| |done]. by intros ?.
Qed.

Lemma on_writable_inv ss c c' :
  CtxInv c → armed c → on_writable ss c = Some (Some c') →
  CtxInv c' ∧ armed c' ∧ received c' = received c.
Proof.
  intros Hc Ha H. unfold on_writable in H.
  assert (∀ c1, CtxInv c1 → armed_out c1 = true ∨ ¬ write_bytes c1 < read_bytes c1 →
    received c1 = received c →
    Some (Some (if decide (write_bytes c1 = read_bytes c1) then reset_counters (arm false c1) else c1))
      = Some (Some c') → CtxInv c' ∧ armed c' ∧ received c' = received c) as Hfin.
  { clear H. intros c1 Hc1 Har Er H1. destruct (decide _) as [E|Hne]; injection H1 as <-.
    - split_and!; [apply ctx_reset; [by apply ctx_arm|simpl; lia]| |done]. by intros ?; simpl in *; lia.
    - split_and!; [done| |done]. intros Hlt. by destruct Har. }
  destruct (decide _) as [Hlt|Hge].
  - destruct ss as [|a ss]; [done|]. apply bind_Some in H as ([cl c1] & H1 & H).
    destruct (ctx_send _ _ _ _ Hc H1) as (Hc1 & Er & Ear & _). destruct cl; [done|].
    apply (Hfin c1); [done| |done|done]. left. rewrite Ear. by apply Ha.
  - apply (Hfin c); auto.
Qed.

Lemma on_event_inv ev rs ss c c' :
  CtxInv c → armed c → on_event ev rs ss c = Some (Some c') →
  CtxInv c' ∧ armed c' ∧ received c `prefix_of` received c'.
Proof.
  intros Hc Ha H. unfold on_event in H. destruct (hup ev); [done|].
  apply bind_Some in H as ([ss1 o] & H1 & H). destruct o as [c1|]; [|done].
  assert (CtxInv c1 ∧ armed c1 ∧ received c `prefix_of` received c1) as (Hc1 & Ha1 & Hp).
  { destruct (epollin ev); [by eapply on_readable_inv|]. by injection H1 as <- <-. }
  destruct (epollout ev); [|by injection H as <-].
  destruct (on_writable_inv _ _ _ Hc1 Ha1 H) as (? & ? & ->). done.
Qed.

(** ** The invariant of the reactor *)

Record ReactorInv (r : reactor) : Prop := {
  rv_conns : map_Forall (λ _ c, CtxInv c ∧ armed c) (conns r);
  rv_fds : accepted r ≡ₚ (map_to_list (conns r)).*1 ++ closed_fds r;
}.

Lemma accept_loop_inv answers r r' :
  ReactorInv r → Forall (λ a, conns r !! a = None) answers → NoDup (filter (λ a, 0 ≤ a)%Z answers) →
  accept_loop answers r = Some r' → ReactorInv r'.
Proof.
  revert r. induction answers as [|a answers IH]; intros r Hr Hf Hn H; simpl in H; [done|].
  apply Forall_cons in Hf as [Ha Hf].
  destruct (a <? 0)%Z eqn:E; zbool; [by injection H as <-|].
  rewrite filter_cons_True in Hn by done. apply NoDup_cons in Hn as [Hni Hn].
  eapply IH; [| | |exact H]; simpl; [|..|done].
  - destruct Hr as [H1 H2]. split; simpl.
    + apply map_Forall_insert_2; [|done]. split; [apply ctx_new|by intros ?; simpl in *; lia].
    + rewrite map_to_list_insert by done. simpl. rewrite H2. solve_Permutation.
  - rewrite Forall_forall in *. intros b Hb. destruct (decide (a = b)) as [<-|Hne].
    + exfalso. apply Hni. by apply list_elem_of_filter.
    + rewrite lookup_insert_ne by done. by apply Hf.
Qed.

Lemma handle_inv r e r' : ReactorInv r → reactor_step r e r' → ReactorInv r'.
Proof.
  intros Hr H. unfold reactor_step in H. destruct e as [answers|fd ev rs ss]; simpl in H.
  - destruct (decide _) as [[Hf Hn]|]; [|done]. by eapply accept_loop_inv.
  - apply bind_Some in H as (c & Hc & H). apply bind_Some in H as (o & Ho & [= <-]).
    destruct Hr as [H1 H2]. destruct (map_Forall_lookup_1 _ _ _ _ H1 Hc) as [Hi Ha].
    assert (∃ l, map_to_list (conns r) ≡ₚ (fd, c) :: l ∧ map_to_list (delete fd (conns r)) ≡ₚ l)
      as (l & El & Ed).
    { exists (map_to_list (delete fd (conns r))). by rewrite map_to_list_delete. }
    destruct o as [c'|]; split; simpl.
    + apply map_Forall_insert_2; [|done]. by destruct (on_event_inv _ _ _ _ _ Hi Ha Ho) as (? & ? & _).
    + rewrite H2, <- insert_delete_eq, map_to_list_insert by (by apply lookup_delete_eq).
      rewrite El, Ed. done.
    + by apply map_Forall_delete.
    + rewrite H2, El, Ed. simpl. solve_Permutation.
Qed.

End epoll.
Arguments ConnectionContext : clear implicits.
Arguments reactor : clear implicits.
Arguments event : clear implicits.
Arguments recv_answer : clear implicits.

(** ** Properties *)

(** (C36) The epoll server echoes faithfully and forgets nothing.  After any sequence of events
    with any answers of the kernel: for every open connection, the bytes received are
    those sent back followed by those waiting in its buffer; the buffer has room, so that
    the next [recv] asks for at least one byte and an answer of 0 means that the peer
    has closed; when bytes are waiting, [EPOLLOUT] is registered ([epoll_ctl] on a registered
    descriptor is taken to succeed), so that an edge-triggered notification will come, and
    [want_write] says so.  And every accepted
    descriptor is either open or has been closed exactly once. *)
Theorem epoll_echo_faithful {byte} (zero : byte) es r :
  runs (reactor_step zero) new_reactor es r →
  accepted r ≡ₚ (map_to_list (conns r)).*1 ++ closed_fds r ∧
  ∀ fd c, conns r !! fd = Some c →
    received c = sent c ++ pending c ∧ read_bytes c < length (buffer c) ∧
    (pending c ≠ [] → armed_out c = true) ∧ want_write c = armed_out c.
Proof.
  intros Hr. assert (ReactorInv r) as [Hc Hf].
  { eapply runs_invariant; [|by apply handle_inv|exact Hr]. split; [apply map_Forall_empty|done]. }
  split; [done|]. intros fd c Hfd. destruct (map_Forall_lookup_1 _ _ _ _ Hc Hfd) as [[H1 H2 H3 H4] Ha].
  split_and!; [done..| |done]. intros Hp. apply Ha.
  destruct (decide (write_bytes c < read_bytes c)); [done|]. exfalso. apply Hp. unfold pending.
  by replace (read_bytes c - write_bytes c) with 0 by lia.
Qed.

(** A client sends five bytes; the socket takes two of them, and the rest later. *)
Definition demo_epoll_events : list (event nat) :=
  [Incoming [6; -11]%Z;
   Ready 6 (Revents false true false) [RData [1; 2; 3]; RData [4; 5]; RAgain] [SCount 2];
   Ready 6 (Revents false false true) [] [SCount 2]].
Definition demo_epoll : reactor nat :=
  default new_reactor (exec (handle 0) demo_epoll_events new_reactor).

Lemma demo_epoll_runs : runs (reactor_step 0) new_reactor demo_epoll_events demo_epoll.
Proof. apply (exec_runs (handle 0)); [done|]. vm_compute. reflexivity. Qed.

Lemma epoll_echo_faithful_witness :
  (pending <$> conns demo_epoll !! 6%Z) = Some [5] ∧
  accepted demo_epoll ≡ₚ (map_to_list (conns demo_epoll)).*1 ++ closed_fds demo_epoll.
Proof.
  split; [vm_compute; reflexivity|].
  apply (epoll_echo_faithful 0 demo_epoll_events demo_epoll demo_epoll_runs).
Defined.

(** A client that sends and then shuts down its side, waiting for the echo: [EPOLLRDHUP]
    arrives together with [EPOLLIN], and the connection is closed without reading. *)
Lemma half_close_discards :
  ∃ r, exec (handle 0) (demo_epoll_events ++ [Ready 6 (Revents true true false) [] []]) new_reactor
         = Some r ∧ conns r = ∅ ∧ closed_fds r = [6%Z].
Proof. eexists. split; [vm_compute; reflexivity|]. done. Qed.
