(* ===== verification/BenchClient.v ===== *)
(** * The benchmark client

    [run_client_thread] of src/benchmarks/benchmark_client.cpp: connections that send a payload,
    wait for as many bytes, count a request and start again, driven by edge-triggered
    events; and the part of [main] that adds up what the threads counted.  The kernel and
    the clock are answers that come with an event; a handler yields [None] when they are
    not a possible sequence of answers.

    A connection uses one buffer for both directions: it sends what it received last.
    Averages and percentiles, computed in floating point from the sorted latencies, are
    left out. *)

From S2P Require Import Prelude MachineInt.
From stdpp Require Import options.

Section client.
Context {byte : Type} (a : byte) (payload_size : nat).

Inductive conn_state : Type := CONNECTING | SENDING | RECEIVING.

Record ConnectionState := Conn {
  fd : Z;
  state : conn_state;
  buffer : list byte;
  write_offset : nat;
  read_offset : nat;
  start_time : Z;               (** nanoseconds *)
  (* history *)
  requests : nat;               (** completed on this connection *)
  sent : list byte;
  received : list byte;
}.

Record ThreadResult := Result { total_requests : Z; latencies_us : list Z }.

(** Answers of [send] and [recv]; a call that fails and one that returns 0 bytes ends the
    loop alike. *)
Inductive send_answer : Type := Took (n : nat) | SendFails.
Inductive recv_answer : Type := Got (bs : list byte) | NothingYet.

Definition new_connection (fd : Z) : ConnectionState :=
  Conn fd CONNECTING (replicate payload_size a) 0 0 0 0 [] [].

(** [while (conn->write_offset < payload_size) send(...)], and the change of state after it;
    what is left of the answers goes to the next loop. *)
Fixpoint send_loop (ss : list send_answer) (c : ConnectionState) :
    option (list send_answer * ConnectionState) :=
  if decide (write_offset c < payload_size) then
    match ss with
    | [] => None
    | Took n :: ss =>
        if decide (n ≤ payload_size - write_offset c) then
          send_loop ss (Conn (fd c) (state c) (buffer c) (write_offset c + n) (read_offset c)
            (start_time c) (requests c) (sent c ++ take n (drop (write_offset c) (buffer c)))
            (received c))
        else None
    | SendFails :: ss => Some (ss, c)
    end
  else Some (ss, c).

Definition set_state (st : conn_state) (c : ConnectionState) : ConnectionState :=
  Conn (fd c) st (buffer c) (write_offset c) (read_offset c) (start_time c) (requests c) (sent c)
    (received c).

Definition send_all (ss : list send_answer) (c : ConnectionState) :
    option (list send_answer * ConnectionState) :=
  '(ss, c) ← send_loop ss c;
  Some (ss, if decide (write_offset c = payload_size) then set_state RECEIVING c else c).

(** [while (conn->read_offset < payload_size) recv(...)]. *)
Fixpoint recv_loop (rs : list recv_answer) (c : ConnectionState) : option ConnectionState :=
  if decide (read_offset c < payload_size) then
    match rs with
    | [] => None
    | Got bs :: rs =>
        if decide (bs ≠ [] ∧ length bs ≤ payload_size - read_offset c) then
          recv_loop rs (Conn (fd c) (state c)
            (take (read_offset c) (buffer c) ++ bs ++ drop (read_offset c + length bs) (buffer c))
            (write_offset c) (read_offset c + length bs) (start_time c) (requests c) (sent c)
            (received c ++ bs))
        else None
    | NothingYet :: _ => Some c
    end
  else Some c.

(** [duration_cast<microseconds>(now - start_time).count()], cast to [uint32_t]. *)
Definition latency (now start : Z) : Z := uint32 (Z.quot (now - start) 1000).

Definition record (now : Z) (c : ConnectionState) (res : ThreadResult) : ThreadResult :=
  Result (uint64 (total_requests res + 1)) (latencies_us res ++ [latency now (start_time c)]).

(** The next request: the state before its [send] loop. *)
Definition restart (now : Z) (c : ConnectionState) : ConnectionState :=
  Conn (fd c) SENDING (buffer c) 0 0 now (S (requests c)) (sent c) (received c).

(** What the kernel and the clock answer while an event is handled. *)
Record answers := Answers {
  err : Z;                      (** [SO_ERROR] *)
  new_fd : Z;                   (** of [socket], when the connection failed *)
  connected_at : Z;
  sends : list send_answer;
  recvs : list recv_answer;
  received_at : Z;
  restarted_at : Z;
}.

(** The branch for [CONNECTING]; the second part is the descriptor that was closed. *)
Definition on_connect (k : answers) (c : ConnectionState) : ConnectionState * list Z :=
  match state c with
  | CONNECTING =>
      if (err k =? 0)%Z
      then (Conn (fd c) SENDING (buffer c) (write_offset c) (read_offset c) (connected_at k)
              (requests c) (sent c) (received c), [])
      else (Conn (new_fd k) CONNECTING (buffer c) (write_offset c) (read_offset c) (start_time c)
              (requests c) [] [], [fd c])
  | _ => (c, [])
  end.

Definition on_writable (out : bool) (ss : list send_answer) (c : ConnectionState) :
    option (list send_answer * ConnectionState) :=
  match out, state c with
  | true, SENDING => send_all ss c
  | _, _ => Some (ss, c)
  end.

Definition on_readable (inp : bool) (k : answers) (ss : list send_answer) (c : ConnectionState)
    (res : ThreadResult) : option (ConnectionState * ThreadResult) :=
  match inp, state c with
  | true, RECEIVING =>
      c1 ← recv_loop (recvs k) c;
      if decide (read_offset c1 = payload_size) then
        '(_, c2) ← send_all ss (restart (restarted_at k) c1);
        Some (c2, record (received_at k) c1 res)
      else Some (c1, res)
  | _, _ => Some (c, res)
  end.

(** ** A thread *)

Record client := Client {
  conns : list ConnectionState;
  result : ThreadResult;
  running : bool;               (** inside the event loop *)
  opened : list Z;              (** history: results of [socket], a failed call's [-1] among
                                    them, and arguments of [close] *)
  closed : list Z;
}.

Definition new_client (fds : list Z) : client :=
  Client (new_connection <$> fds) (Result 0 []) true fds [].

(** An event on connection [i], or the end of the loop (time is over, or [stop_flag]),
    after which the descriptors are closed. *)
Inductive event : Type :=
| Ready (i : nat) (epollin epollout : bool) (k : answers)
| Over.

Definition client_act (e : event) (s : client) : option client :=
  if running s then
    match e with
    | Ready i inp out k =>
        c ← conns s !! i;
        let '(c1, cl) := on_connect k c in
        '(ss, c2) ← on_writable out (sends k) c1;
        '(c3, res) ← on_readable inp k ss c2 (result s);
        Some (Client (<[i:=c3]> (conns s)) res true
                (opened s ++ match cl with [] => [] | _ => [new_fd k] end) (closed s ++ cl))
    | Over => Some (Client (conns s) (result s) false (opened s) (closed s ++ (fd <$> conns s)))
    end
  else None.

Definition client_step (s : client) (e : event) (s' : client) : Prop := client_act e s = Some s'.

End client.
Arguments ConnectionState : clear implicits.
Arguments client : clear implicits.
Arguments event : clear implicits.
Arguments answers : clear implicits.

(** ** [main] *)

(** [total_conns / client_threads]. *)
Definition conns_per_thread (total_conns client_threads : Z) : outcome Z :=
  if (client_threads =? 0)%Z then Undef DivByZero else Ok (total_conns / client_threads)%Z.

(** The sum of the counters, and the latencies of all threads, sorted. *)
Definition add_up (results : list ThreadResult) : Z * list Z :=
  (foldl (λ n r, uint64 (n + total_requests r)) 0%Z results,
   merge_sort Z.le (results ≫= latencies_us)).

(** ** The invariant of a connection *)

Section proof.
Context {byte : Type} (a : byte) (payload_size : nat).
Implicit Types (c : ConnectionState byte).

Definition payload : list byte := replicate payload_size a.

Lemma payload_all : Forall (a =.) payload.
Proof. by apply Forall_replicate. Qed.

Lemma prefix_of_shorter (l1 l2 l3 : list byte) :
  l1 `prefix_of` l2 ++ l3 → length l1 ≤ length l2 → l1 `prefix_of` l2.
Proof.
  intros H Hl. destruct (prefix_weak_total l1 l2 (l2 ++ l3) H) as [?|Hp]; [by apply prefix_app_r|done|].
  by rewrite (prefix_length_eq _ _ Hp Hl).
Qed.

Record ConnInv c : Prop := {
  ci_buffer : length (buffer c) = payload_size;
  ci_write : write_offset c ≤ payload_size;
  ci_read : read_offset c ≤ payload_size;
  ci_state : match state c with
             | CONNECTING => write_offset c = 0 ∧ read_offset c = 0 ∧ requests c = 0
             | SENDING => read_offset c = 0
             | RECEIVING => write_offset c = payload_size
             end;
  ci_sent : length (sent c) = requests c * payload_size + write_offset c;
  ci_received : length (received c) = requests c * payload_size + read_offset c;
  ci_echo : received c `prefix_of` sent c →
    buffer c = payload ∧
    sent c = mjoin (replicate (requests c) payload) ++ take (write_offset c) payload;
}.

Lemma conn_new f : ConnInv (new_connection a payload_size f).
Proof. split; simpl; rewrite ?length_replicate; (lia || done). Qed.

(** A loop of [send] sends; a loop of [recv] receives; neither touches the rest. *)
Lemma conn_send_loop ss c ss' c' :
  ConnInv c → state c = SENDING → send_loop payload_size ss c = Some (ss', c') →
  ConnInv c' ∧ state c' = SENDING ∧ fd c' = fd c ∧ requests c' = requests c.
Proof.
  revert c. induction ss as [|s ss IH]; intros c Hc Hs H; simpl in H.
  { destruct (decide _); [done|]. by injection H as <- <-. }
  destruct (decide (write_offset c < payload_size)) as [Hw|]; [|by injection H as <- <-].
  destruct s as [n|]; [|by injection H as <- <-]. destruct (decide _) as [Hn|]; [|done].
  apply IH in H as (? & ? & ? & ?); [done| |done].
  destruct Hc as [H1 H2 H3 H4 H5 H6 H7]. rewrite Hs in H4.
  split; simpl; rewrite ?Hs, ?length_app, ?length_take, ?length_drop; try lia.
  intros Hp. apply prefix_of_shorter in Hp; [|lia]. destruct (H7 Hp) as [Hb Es]. split; [done|].
  by rewrite Es, <- (assoc (++)), Hb, take_take_drop.
Qed.

Lemma conn_send_all ss c ss' c' :
  ConnInv c → state c = SENDING → send_all payload_size ss c = Some (ss', c') →
  ConnInv c' ∧ fd c' = fd c ∧ requests c' = requests c.
Proof.
  intros Hc Hs H. apply bind_Some in H as ([ss1 c1] & H1 & H). injection H as _ <-.
  destruct (conn_send_loop _ _ _ _ Hc Hs H1) as (Hc1 & Hs1 & Hf & Hr).
  destruct (decide _) as [E|]; [|done]. split; [|done].
  destruct Hc1. rewrite Hs1 in *. by split.
Qed.

Lemma conn_recv_loop rs c c' :
  ConnInv c → state c = RECEIVING → recv_loop payload_size rs c = Some c' →
  ConnInv c' ∧ state c' = RECEIVING ∧ fd c' = fd c ∧ requests c' = requests c.
Proof.
  revert c. induction rs as [|r rs IH]; intros c Hc Hs H; simpl in H.
  { destruct (decide _); [done|]. by injection H as <-. }
  destruct (decide (read_offset c < payload_size)) as [Hw|]; [|by injection H as <-].
  destruct r as [bs|]; [|by injection H as <-]. destruct (decide _) as [[Hne Hn]|]; [|done].
  apply IH in H as (? & ? & ? & ?); [done| |done].
  destruct Hc as [H1 H2 H3 H4 H5 H6 H7]. rewrite Hs in H4.
  split; simpl; rewrite ?Hs, ?length_app, ?length_take, ?length_drop; try lia.
  intros Hp. assert (received c `prefix_of` sent c) as Hp0 by (etrans; [by apply prefix_app_r|done]).
  destruct (H7 Hp0) as [Hb Es]. split; [|done].
  assert (Forall (a =.) (sent c)) as Ha.
  { rewrite Es. apply Forall_app; split; [|apply Forall_take, payload_all].
    apply Forall_join, Forall_replicate, payload_all. }
  destruct Hp as [tl Etl]. rewrite Etl, !Forall_app in Ha. rewrite Hb. symmetry.
  apply replicate_as_Forall. rewrite !length_app, length_take, length_drop, !Forall_app.
  split; [unfold payload; rewrite length_replicate; lia|].
  split; [apply Forall_take, payload_all|]. split; [apply Ha|apply Forall_drop, payload_all].
Qed.

Lemma join_comm k (l : list byte) : mjoin (replicate k l) ++ l = l ++ mjoin (replicate k l).
Proof. induction k as [|k IH]; simpl; [by rewrite app_nil_r|]. by rewrite <- (assoc (++)), IH. Qed.

Lemma conn_restart now c :
  ConnInv c → state c = RECEIVING → read_offset c = payload_size → ConnInv (restart now c).
Proof.
  intros [H1 H2 H3 H4 H5 H6 H7] Hs Hr. rewrite Hs in H4. split; simpl; try (done || lia).
  intros Hp. destruct (H7 Hp) as [Hb Es]. split; [done|]. rewrite Es, app_nil_r, H4.
  rewrite take_ge by (unfold payload; rewrite length_replicate; done).
  apply join_comm.
Qed.

(** ** The invariant of a thread *)

Record ClientInv (s : client byte) : Prop := {
  cl_conns : Forall ConnInv (conns s);
  cl_count : length (latencies_us (result s)) = sum_list_with requests (conns s);
  cl_total : total_requests (result s) = uint64 (Z.of_nat (length (latencies_us (result s))));
  cl_fds : opened s ≡ₚ (if running s then fd <$> conns s else []) ++ closed s;
}.

(** One event on a connection: at most one request more, and at most one new socket. *)
Lemma conn_event k inp out c c1 clo ss c2 c3 (res res' : ThreadResult) :
  ConnInv c → on_connect k c = (c1, clo) →
  on_writable payload_size out (sends k) c1 = Some (ss, c2) →
  on_readable payload_size inp k ss c2 res = Some (c3, res') →
  ConnInv c3 ∧
  (clo = [] ∧ fd c3 = fd c ∨ clo = [fd c] ∧ fd c3 = new_fd k) ∧
  (requests c3 = requests c ∧ res' = res ∨
   requests c3 = S (requests c) ∧ ∃ t, res' = Result (uint64 (total_requests res + 1)) (latencies_us res ++ [t])).
Proof.
  intros Hc H1 H2 H3.
  assert (ConnInv c1 ∧ requests c1 = requests c ∧
    (clo = [] ∧ fd c1 = fd c ∨ clo = [fd c] ∧ fd c1 = new_fd k)) as (Hc1 & Hr1 & Hf1).
  { unfold on_connect in H1. destruct Hc as [K1 K2 K3 K4 K5 K6 K7].
    destruct (state c) eqn:Hs; [|injection H1 as <- <-; (split; [split; rewrite ?Hs; done|by auto])..].
    destruct K4 as (Kw & Kr & Kq). rewrite Kw, Kr, Kq in *. simpl in *.
    assert (sent c = [] ∧ received c = []) as [Es Er] by (split; by apply nil_length_inv).
    destruct (err k =? 0)%Z; injection H1 as <- <-; (split; [split; simpl; rewrite ?Kw, ?Kr, ?Kq; try done|by auto]).
    intros _. split; [|done]. by apply K7; rewrite Es, Er. }
  assert (ConnInv c2 ∧ requests c2 = requests c1 ∧ fd c2 = fd c1) as (Hc2 & Hr2 & Hf2).
  { unfold on_writable in H2. destruct out; [|by injection H2 as <- <-].
    destruct (state c1) eqn:Hs; try (by injection H2 as <- <-).
    by destruct (conn_send_all _ _ _ _ Hc1 Hs H2) as (? & ? & ?). }
  rewrite <- Hr1, <- Hr2, <- Hf2 in *. clear Hr1 Hr2. unfold on_readable in H3.
  destruct inp; [|injection H3 as <- <-; by auto].
  destruct (state c2) eqn:Hs; try (injection H3 as <- <-; by auto).
  apply bind_Some in H3 as (c4 & H4 & H3).
  destruct (conn_recv_loop _ _ _ Hc2 Hs H4) as (Hc4 & Hs4 & Hf4 & Hr4).
  rewrite <- Hf4, <- Hr4 in *. destruct (decide _) as [Hd|]; [|injection H3 as <- <-; by auto].
  apply bind_Some in H3 as ([ss5 c5] & H5 & H3). injection H3 as <- <-.
  destruct (conn_send_all _ _ _ _ (conn_restart (restarted_at k) _ Hc4 Hs4 Hd) eq_refl H5) as (Hc5 & Hf5 & Hr5).
  rewrite Hf5, Hr5. split_and!; [done|done|]. right. split; [done|]. by eexists.
Qed.

Lemma replace_perm {A} (l : list A) i x y :
  l !! i = Some x → ∃ rest, l ≡ₚ x :: rest ∧ <[i:=y]> l ≡ₚ y :: rest.
Proof.
  intros Hi. exists (take i l ++ drop (S i) l). split.
  - rewrite <- (take_drop_middle l i x Hi) at 1. solve_Permutation.
  - rewrite insert_take_drop by (by eapply lookup_lt_Some). solve_Permutation.
Qed.

Lemma client_inv_step (s : client byte) e s' :
  ClientInv s → client_step payload_size s e s' → ClientInv s'.
Proof.
  intros [H1 H2 H3 H4] H. unfold client_step, client_act in H.
  destruct (running s) eqn:Hr; [|done]. destruct e as [i inp out k|].
  - apply bind_Some in H as (c & Hc & H). destruct (on_connect k c) as [c1 clo] eqn:E1.
    apply bind_Some in H as ([ss c2] & E2 & H). apply bind_Some in H as ([c3 res] & E3 & H).
    injection H as <-.
    destruct (conn_event _ _ _ _ _ _ _ _ _ _ _ (Forall_lookup_1 _ _ _ _ H1 Hc) E1 E2 E3)
      as (Hc3 & Hfd & Hrq).
    destruct (replace_perm (conns s) i c c3 Hc) as (rest & P1 & P2). rewrite P1 in H2, H4. simpl in H2, H4.
    split; simpl; rewrite ?P2; simpl.
    + rewrite <- P2. by apply Forall_insert.
    + destruct Hrq as [[-> ->]|[-> [t ->]]]; simpl; rewrite ?length_app; simpl; lia.
    + destruct Hrq as [[_ ->]|[_ [t ->]]]; simpl; [done|]. rewrite H3, length_app, Nat2Z.inj_add. simpl.
      unfold uint64. by rewrite Zplus_mod_idemp_l.
    + rewrite H4. destruct Hfd as [[-> ->]|[-> ->]]; solve_Permutation.
  - injection H as <-. split; simpl; try done. by rewrite H4, (comm (++)).
Qed.

Lemma client_inv_new fds : ClientInv (new_client a payload_size fds).
Proof.
  split; simpl.
  - apply Forall_fmap, Forall_true. intros f. apply conn_new.
  - by induction fds.
  - done.
  - rewrite app_nil_r, <- list_fmap_compose. by rewrite list_fmap_id.
Qed.

End proof.

(** [main] reports as many requests as latencies, and the latencies in order. *)
Lemma add_up_correct (results : list ThreadResult) :
  Forall (λ r, total_requests r = uint64 (Z.of_nat (length (latencies_us r)))) results →
  (add_up results).1 = uint64 (Z.of_nat (length (add_up results).2)) ∧
  Sorted Z.le (add_up results).2 ∧ (add_up results).2 ≡ₚ results ≫= latencies_us.
Proof.
  intros Hr. unfold add_up; simpl. split_and!; [|apply Sorted_merge_sort; apply _|apply merge_sort_Permutation].
  rewrite merge_sort_Permutation.
  assert (∀ n m, n = uint64 (Z.of_nat m) → foldl (λ n r, uint64 (n + total_requests r)) n results =
    uint64 (Z.of_nat (m + length (results ≫= latencies_us)))) as Hgen.
  { induction Hr as [|r results Hr _ IH]; intros n m ->; csimpl; [by rewrite Nat.add_0_r|].
    rewrite (IH _ (m + length (latencies_us r))); [by rewrite length_app, Nat.add_assoc|].
    rewrite Hr, Nat2Z.inj_add. unfold uint64. by rewrite <- Zplus_mod. }
  by apply (Hgen 0%Z 0).
Qed.

(** ** Properties *)

(** (C29) The benchmark client counts what it measures.  Whatever the kernel answers: the
    number of requests is the number of latencies, and the sum over the connections;
    a connection has sent one payload per request plus what of the present one is gone,
    has received as many payloads plus what has come of the present one, and never
    receives more than it has sent; every result of [socket] (the client does not look
    whether the call failed) is in use or was passed to [close] exactly once, and none
    is in use at the end.  With a server that echoes faithfully, so that what
    came back is a prefix of what was sent, every request carried the payload. *)
Theorem bench_client_counts {byte} (a : byte) payload_size fds es (s : client byte) :
  runs (client_step payload_size) (new_client a payload_size fds) es s →
  total_requests (result s) = uint64 (Z.of_nat (length (latencies_us (result s)))) ∧
  length (latencies_us (result s)) = sum_list_with requests (conns s) ∧
  opened s ≡ₚ (if running s then fd <$> conns s else []) ++ closed s ∧
  ∀ i c, conns s !! i = Some c →
    length (sent c) = requests c * payload_size + write_offset c ∧
    length (received c) = requests c * payload_size + read_offset c ∧
    read_offset c ≤ write_offset c ≤ payload_size ∧
    (received c `prefix_of` sent c →
       sent c = mjoin (replicate (requests c) (replicate payload_size a)) ++
         take (write_offset c) (replicate payload_size a)).
Proof.
  intros Hr. assert (ClientInv a payload_size s) as [H1 H2 H3 H4].
  { eapply runs_invariant; [apply client_inv_new| |exact Hr]. intros ???. apply client_inv_step. }
  split_and!; [done..|]. intros i c Hc. destruct (Forall_lookup_1 _ _ _ _ H1 Hc) as [K1 K2 K3 K4 K5 K6 K7].
  split_and!; [done|done| |done|by intros Hp; apply K7].
  destruct (state c); lia.
Qed.

(** One connection, payload of three bytes: the first attempt to connect fails; then a
    request in two sends and two receives, and the next one half sent. *)
Definition demo_events : list (event nat) :=
  [Ready 0 false true (Answers 111 6 0 [] [] 0 0);
   Ready 0 false true (Answers 0 0 1000 [Took 2; SendFails] [] 0 0);
   Ready 0 false true (Answers 0 0 0 [Took 1] [] 0 0);
   Ready 0 true false (Answers 0 0 0 [] [Got [5; 5]; NothingYet] 0 0);
   Ready 0 true false (Answers 0 0 0 [Took 1; SendFails] [Got [5]] 251000 252000)].

Definition demo_client : client nat :=
  default (new_client 5 3 [4%Z]) (exec (client_act 3) demo_events (new_client 5 3 [4%Z])).

Lemma demo_client_runs : runs (client_step 3) (new_client 5 3 [4%Z]) demo_events demo_client.
Proof. apply (exec_runs (client_act 3)); [done|]. vm_compute. reflexivity. Qed.

Lemma bench_client_counts_witness :
  latencies_us (result demo_client) = [250%Z] ∧
  (sent <$> conns demo_client) = [[5; 5; 5; 5]] ∧
  total_requests (result demo_client) = uint64 (Z.of_nat (length (latencies_us (result demo_client)))) ∧
  opened demo_client ≡ₚ
    (if running demo_client then fd <$> conns demo_client else []) ++ closed demo_client.
Proof.
  split; [vm_compute; reflexivity|]. split; [vm_compute; reflexivity|].
  destruct (bench_client_counts 5 3 [4%Z] demo_events demo_client demo_client_runs) as (H1 & _ & H3 & _).
  split; [exact H1|exact H3].
Defined.
