(* ===== verification/BenchStats.v ===== *)
(** * The percentiles of the benchmark client

    The end of [main] of src/benchmarks/benchmark_client.cpp computes indices into the sorted
    latencies in floating point: [all_latencies[all_latencies.size() * 0.99]] converts the
    size to [double], multiplies, rounds, and converts back by truncation.  Doubles are those
    of the Standard Library's SpecFloat, the arithmetic of IEEE 754 as executable functions
    on integers. *)

From Stdlib Require Import Floats.SpecFloat.
From S2P Require Import Prelude MachineInt BenchClient.
From stdpp Require Import sorting options.
Local Open Scope Z_scope.

(** ** [double] *)

Definition double_of_size (n : Z) : spec_float := binary_normalize 53 1024 n 0 false.
Definition double_mul : spec_float → spec_float → spec_float := SFmul 53 1024.

(** A literal is the double nearest to [a / b]. *)
Definition double_literal (a b : Z) : spec_float :=
  SFdiv 53 1024 (double_of_size a) (double_of_size b).

(** Truncation to [size_t], undefined when the result does not fit. *)
Definition size_of_double (x : spec_float) : outcome Z :=
  match x with
  | S754_zero _ => Ok 0
  | S754_finite s m e =>
      let k := if 0 <=? e then Zpos m * 2 ^ e else Zpos m / 2 ^ (- e) in
      if s then if k =? 0 then Ok 0 else Undef BadConversion
      else if k <? 2 ^ 64 then Ok k else Undef BadConversion
  | _ => Undef BadConversion
  end.

(** ** The report *)

Definition percentile_index (n : Z) (p : spec_float) : outcome Z :=
  size_of_double (double_mul (double_of_size n) p).

(** [all_latencies[all_latencies.size() * p]] *)
Definition percentile (l : list Z) (p : spec_float) : outcome Z :=
  i ← percentile_index (Z.of_nat (length l)) p;
  match l !! Z.to_nat i with Some x => Ok x | None => Undef OutOfBounds end.

Definition p50 : spec_float := Eval vm_compute in double_literal 50 100.
Definition p90 : spec_float := Eval vm_compute in double_literal 90 100.
Definition p99 : spec_float := Eval vm_compute in double_literal 99 100.
Definition p999 : spec_float := Eval vm_compute in double_literal 999 1000.

(** The four percentiles that are printed when there are latencies. *)
Definition report (all_latencies : list Z) : outcome (list Z) :=
  match all_latencies with
  | [] => Ok []
  | _ =>
      a ← percentile all_latencies p50; b ← percentile all_latencies p90;
      c ← percentile all_latencies p99; d ← percentile all_latencies p999;
      Ok [a; b; c; d]
  end.

(** ** Rounding *)

Lemma digits_pos m : 2 ^ (Zpos (digits2_pos m) - 1) ≤ Zpos m < 2 ^ Zpos (digits2_pos m).
Proof.
  induction m as [m IH|m IH|]; simpl digits2_pos; [..|done];
    rewrite Pos2Z.inj_succ; replace (Z.succ (Zpos (digits2_pos m)) - 1) with
      (Z.succ (Zpos (digits2_pos m) - 1)) by lia; rewrite !Z.pow_succ_r by lia; lia.
Qed.

Lemma shr_1_m r : 0 ≤ shr_m r → shr_m (shr_1 r) = shr_m r / 2.
Proof.
  destruct r as [m a b]. simpl. intros Hm. destruct m as [|[p|p|]|p]; simpl; try done; try lia.
  - rewrite Pos2Z.inj_xI. rewrite (Z.mul_comm 2), Z.div_add_l by done. done.
  - rewrite Pos2Z.inj_xO, (Z.mul_comm 2), Z.div_mul; done.
Qed.

Lemma iter_shr p r : 0 ≤ shr_m r → shr_m (SpecFloat.iter_pos shr_1 p r) = shr_m r / 2 ^ Zpos p.
Proof.
  revert r. induction p as [p IH|p IH|]; intros r Hr; simpl SpecFloat.iter_pos.
  - assert (0 ≤ shr_m r / 2) by (by apply Z.div_pos).
    assert (0 ≤ shr_m r / 2 / 2 ^ Zpos p) by (apply Z.div_pos; [done|lia]).
    assert (shr_m (SpecFloat.iter_pos shr_1 p (shr_1 r)) = shr_m r / 2 / 2 ^ Zpos p) as E
      by (rewrite IH, shr_1_m; rewrite ?shr_1_m; done).
    rewrite IH, E by (by rewrite E). rewrite !Z.div_div by lia. f_equal.
    replace (Zpos p~1) with (1 + Zpos p + Zpos p) by lia. rewrite !Z.pow_add_r by lia. lia.
  - assert (0 ≤ shr_m r / 2 ^ Zpos p) by (apply Z.div_pos; [done|lia]).
    rewrite IH, IH by (by rewrite ?IH). rewrite Z.div_div by lia. f_equal.
    rewrite Pos2Z.inj_xO, <- Z.pow_add_r by lia. f_equal. lia.
  - by apply shr_1_m.
Qed.

(** What the rounding of a product or an integer does to its value, counted in the smallest
    unit 2^-1074: it changes it by at most one part in 2^52. *)
Definition units (m e : Z) : Z := m * 2 ^ (e + 1074).

Definition close (x y : Z) : Prop := (2 ^ 52 - 1) * x ≤ 2 ^ 52 * y ≤ (2 ^ 52 + 1) * x.

Lemma round_up_by_one m l : m ≤ round_nearest_even m l ≤ m + 1.
Proof. unfold round_nearest_even. destruct l as [|[]]; try lia. destruct (Z.even m); lia. Qed.

(** The first shift: to 53 digits, rounded. *)
Lemma shift_to_53 m e :
  0 < m → -1074 ≤ e → 2 ^ 53 ≤ units m e →
  ∃ r e', shr_fexp 53 1024 m e loc_Exact = (r, e') ∧ e ≤ e' ∧
    let m' := round_nearest_even (shr_m r) (loc_of_shr_record r) in
    0 < m' ≤ 2 ^ 53 ∧ close (units m e) (units m' e').
Proof.
  intros Hm He Hu. destruct m as [|m|]; try lia. unfold shr_fexp, shr. simpl Zdigits2.
  pose proof (digits_pos m) as Hd. set (d := Zpos (digits2_pos m)) in *.
  assert (fexp 53 1024 (d + e) - e = d - 53) as ->.
  { unfold fexp, emin. assert (53 < d + e + 1074); [|lia].
    apply (Z.pow_lt_mono_r_iff 2); [lia|lia|]. unfold units in Hu.
    replace (d + e + 1074) with (d + (e + 1074)) by lia. rewrite Z.pow_add_r by lia.
    eapply Z.le_lt_trans; [exact Hu|]. apply Z.mul_lt_mono_pos_r; lia. }
  destruct (d - 53) as [|k|k] eqn:Ek.
  - exists (Build_shr_record (Zpos m) false false), e. split; [done|]. split; [lia|]. simpl.
    unfold close. assert (d = 53) as -> by lia. split; lia.
  - eexists _, _. split; [done|]. split; [lia|]. cbv zeta.
    set (r := SpecFloat.iter_pos _ _ _).
    assert (shr_m r = Zpos m / 2 ^ Zpos k) as Er by (by apply iter_shr).
    pose proof (round_up_by_one (shr_m r) (loc_of_shr_record r)) as Hr. rewrite Er in Hr |- *.
    set (m' := round_nearest_even _ _) in *.
    assert (d = 53 + Zpos k) as Hdk by lia. rewrite Hdk in Hd.
    replace (53 + Zpos k - 1) with (52 + Zpos k) in Hd by lia. rewrite !Z.pow_add_r in Hd by lia.
    set (q := 2 ^ Zpos k) in *. assert (0 < q) by lia.
    assert (2 ^ 52 ≤ Zpos m / q) as H1 by (apply Z.div_le_lower_bound; lia).
    assert (Zpos m / q < 2 ^ 53) as H2 by (apply Z.div_lt_upper_bound; lia).
    pose proof (Z.mul_div_le (Zpos m) q) as H3. pose proof (Z.mul_succ_div_gt (Zpos m) q) as H4.
    split; [lia|]. unfold close, units.
    replace (e + Zpos k + 1074) with (Zpos k + (e + 1074)) by lia. rewrite (Z.pow_add_r 2 (Zpos k)) by lia. fold q.
    set (w := 2 ^ (e + 1074)). assert (0 < w) by lia.
    assert ((2 ^ 52 - 1) * Zpos m ≤ 2 ^ 52 * (m' * q) ≤ (2 ^ 52 + 1) * Zpos m); [|nia].
    split; nia.
  - exists (Build_shr_record (Zpos m) false false), e. split; [done|]. split; [lia|]. simpl.
    assert (Zpos m ≤ 2 ^ 53); [|unfold close; lia].
    apply Z.lt_le_incl. eapply Z.lt_le_trans; [apply Hd|]. apply Z.pow_le_mono_r; lia.
Qed.

(** The second shift: 2^53 becomes 2^52. *)
Lemma shift_again m e :
  0 < m ≤ 2 ^ 53 → -1074 ≤ e →
  ∃ r e', shr_fexp 53 1024 m e loc_Exact = (r, e') ∧ e ≤ e' ∧ 0 < shr_m r ∧
    units (shr_m r) e' = units m e.
Proof.
  intros Hm He. destruct (decide (m = 2 ^ 53)) as [->|Hne].
  - exists (Build_shr_record (2 ^ 52) false false), (e + 1). split_and!; [|lia|done|].
    + unfold shr_fexp, fexp, emin. change (Zdigits2 (2 ^ 53)) with 54.
      assert (Z.max (54 + e - 53) (3 - 1024 - 53) - e = 1) as -> by lia. done.
    + unfold units. replace (e + 1 + 1074) with (1 + (e + 1074)) by lia.
      rewrite (Z.pow_add_r 2 1) by lia. cbn [shr_m]. lia.
  - exists (Build_shr_record m false false), e. split_and!; [|lia|simpl; lia|done].
    destruct m as [|m|]; try lia. unfold shr_fexp, fexp, emin. simpl Zdigits2.
    pose proof (digits_pos m) as [Hd _]. set (d := Zpos (digits2_pos m)) in *.
    assert (d - 1 < 53); [apply (Z.pow_lt_mono_r_iff 2); lia|].
    assert (Z.max (d + e - 53) (3 - 1024 - 53) - e ≤ 0) as Hk by lia.
    by destruct (Z.max (d + e - 53) (3 - 1024 - 53) - e); try lia.
Qed.

Lemma round_close m e :
  0 < m → -1074 ≤ e → 2 ^ 53 ≤ units m e < 2 ^ 1200 →
  ∃ M E, binary_round_aux 53 1024 false m e loc_Exact = S754_finite false M E ∧ e ≤ E ∧
    close (units m e) (units (Zpos M) E).
Proof.
  intros Hm He [Hu Hv]. destruct (shift_to_53 m e Hm He Hu) as (r & e1 & E1 & He1 & Hm1 & Hc1).
  destruct (shift_again _ e1 Hm1) as (r2 & e2 & E2 & He2 & Hm2 & Hu2); [lia|].
  destruct (shr_m r2) as [|M|] eqn:EM; try lia. exists M, e2. unfold binary_round_aux.
  rewrite E1. cbv beta iota zeta. rewrite E2, EM. rewrite <- Hu2 in Hc1.
  assert (e2 < 971) as Hlt.
  { assert (e2 + 1074 < 1201); [|lia]. apply (Z.pow_lt_mono_r_iff 2); [lia|lia|].
    assert (2 ^ (e2 + 1074) ≤ units (Zpos M) e2) as Hp.
    { unfold units. assert (0 < 2 ^ (e2 + 1074)) by (apply Z.pow_pos_nonneg; lia). nia. }
    eapply Z.le_lt_trans; [exact Hp|]. unfold close in Hc1.
    change (2 ^ 1201) with (2 * 2 ^ 1200). lia. }
  rewrite (proj2 (Z.leb_le _ _)) by lia. split_and!; [done|lia|apply Hc1..].
Qed.

Lemma shift_left m d : Zpos (Pos.iter xO m d) = Zpos m * 2 ^ Zpos d.
Proof.
  induction d as [|d IH] using Pos.peano_ind; [simpl; lia|].
  rewrite Pos.iter_succ, Pos2Z.inj_xO, IH, Pos2Z.inj_succ, Z.pow_succ_r by lia. lia.
Qed.

(** Conversion of a size. *)
Lemma size_close n :
  0 < n < 2 ^ 64 →
  ∃ M E, double_of_size n = S754_finite false M E ∧ -52 ≤ E ∧ close (units n 0) (units (Zpos M) E).
Proof.
  intros Hn. destruct n as [|n|]; try lia. unfold double_of_size, binary_normalize, binary_round.
  assert (∃ mz ez, shl_align n 0 (fexp 53 1024 (Zpos (digits2_pos n) + 0)) = (mz, ez) ∧ -52 ≤ ez ≤ 0 ∧
    units (Zpos mz) ez = units (Zpos n) 0) as (mz & ez & -> & Hez & Hu).
  { unfold shl_align, fexp, emin. pose proof (Pos2Z.is_pos (digits2_pos n)) as Hd.
    destruct (_ - 0) as [|k|k] eqn:Ek; [by exists n, 0|by exists n, 0|].
    eexists _, _. split_and!; [done|lia|lia|]. unfold units. rewrite shift_left.
    replace (Z.max _ _) with (- Zpos k) by lia. rewrite <- Z.mul_assoc, <- Z.pow_add_r by lia.
    do 2 f_equal. lia. }
  assert (2 ^ 1074 ≤ units (Zpos n) 0 < 2 ^ 1138) as [H1 H2].
  { unfold units. change (0 + 1074) with 1074. change (2 ^ 1138) with (2 ^ 64 * 2 ^ 1074). lia. }
  destruct (round_close (Zpos mz) ez) as (M & E & -> & HE & Hc); [lia|lia|..].
  - rewrite Hu. split; [by eapply Z.le_trans; [|exact H1]|by eapply Z.lt_trans; [exact H2|]].
  - exists M, E. rewrite Hu in Hc. split_and!; [done|lia|apply Hc..].
Qed.

(** Truncation. *)
Lemma truncate M E :
  -1074 ≤ E → units (Zpos M) E / 2 ^ 1074 < 2 ^ 64 →
  size_of_double (S754_finite false M E) = Ok (units (Zpos M) E / 2 ^ 1074).
Proof.
  intros HE Hlt. unfold size_of_double.
  assert ((if 0 <=? E then Zpos M * 2 ^ E else Zpos M / 2 ^ (- E)) = units (Zpos M) E / 2 ^ 1074) as ->.
  { unfold units. destruct (0 <=? E) eqn:E0; zbool.
    - rewrite Z.pow_add_r, Z.mul_assoc by lia. by rewrite Z.div_mul.
    - replace (2 ^ 1074) with (2 ^ (- E) * 2 ^ (E + 1074)) by (rewrite <- Z.pow_add_r by lia; f_equal; lia).
      rewrite Z.div_mul_cancel_r; [done|..]; apply Z.pow_nonzero; lia. }
  by rewrite (proj2 (Z.ltb_lt _ _)).
Qed.

(** The indices of a fraction [c / 2^53]: the exact product within two roundings. *)
Lemma index_close n c :
  0 < n < 2 ^ 64 → 2 ^ 52 ≤ Zpos c ≤ 2 ^ 53 - 2 ^ 40 →
  ∃ V, percentile_index n (S754_finite false c (-53)) = Ok (V / 2 ^ 1074) ∧ 0 ≤ V < n * 2 ^ 1074 ∧
    (2 ^ 52 - 1) ^ 2 * (n * Zpos c * 2 ^ 1021) ≤ 2 ^ 104 * V ≤
    (2 ^ 52 + 1) ^ 2 * (n * Zpos c * 2 ^ 1021).
Proof.
  intros Hn Hc. destruct (size_close n Hn) as (M & E & Hd & HE & Hcl).
  unfold percentile_index, double_mul, SFmul. rewrite Hd. simpl xorb.
  assert (units (Zpos (M * c)) (E + -53) * 2 ^ 53 = units (Zpos M) E * Zpos c) as Hp.
  { unfold units. replace (E + 1074) with (E + -53 + 1074 + 53) by lia.
    rewrite (Z.pow_add_r 2 (E + -53 + 1074)) by lia. rewrite Pos2Z.inj_mul. ring. }
  assert (units n 0 = n * 2 ^ 53 * 2 ^ 1021) as Hu0.
  { unfold units. change (0 + 1074) with (53 + 1021). by rewrite Z.pow_add_r, Z.mul_assoc by lia. }
  rewrite Hu0 in Hcl. unfold close in Hcl.
  set (w := 2 ^ 1021) in *. assert (2 ^ 1000 ≤ w) as Hw by done. assert (w < 2 ^ 1022) as Hw' by done.
  set (U := units (Zpos (M * c)) (E + -53)) in *. set (U1 := units (Zpos M) E) in *.
  destruct (round_close (Zpos (M * c)) (E + -53)) as (M2 & E2 & -> & HE2 & Hcl2);
    [lia|lia|fold U|fold U in Hcl2].
  { clearbody U U1. split; nia. }
  set (V := units (Zpos M2) E2) in *. unfold close in Hcl2.
  assert ((2 ^ 52 - 1) ^ 2 * (n * Zpos c * w) ≤ 2 ^ 104 * V ≤ (2 ^ 52 + 1) ^ 2 * (n * Zpos c * w))
    as [Hlo Hhi].
  { assert ((2 ^ 52 - 1) * (n * 2 ^ 53 * w) * Zpos c ≤ 2 ^ 52 * (U * 2 ^ 53) ≤
            (2 ^ 52 + 1) * (n * 2 ^ 53 * w) * Zpos c) as [H1 H2] by (rewrite Hp; clearbody U1; nia).
    clear Hp Hcl. clearbody U V. split; lia. }
  assert (0 ≤ V) as HV by (unfold V, units; apply Z.mul_nonneg_nonneg; lia).
  assert (V < n * 2 ^ 1074) as Hlt.
  { replace (2 ^ 1074) with (2 ^ 53 * w) by (unfold w; by rewrite <- Z.pow_add_r by lia).
    clear -Hhi Hc Hn Hw. assert ((2 ^ 52 + 1) ^ 2 * Zpos c < 2 ^ 157) by lia.
    assert (n * w * ((2 ^ 52 + 1) ^ 2 * Zpos c) < n * w * 2 ^ 157); [|lia].
    apply Z.mul_lt_mono_pos_l; [nia|done]. }
  exists V. split_and!; [|done..]. apply truncate; [lia|]. fold V.
  apply Z.div_lt_upper_bound; [done|]. nia.
Qed.

Lemma index_in_range n c :
  0 < n < 2 ^ 64 → 2 ^ 52 ≤ Zpos c ≤ 2 ^ 53 - 2 ^ 40 →
  ∃ i, percentile_index n (S754_finite false c (-53)) = Ok i ∧ 0 ≤ i < n.
Proof.
  intros Hn Hc. destruct (index_close n c Hn Hc) as (V & -> & HV & _). eexists. split; [done|].
  split; [apply Z.div_pos; lia|]. apply Z.div_lt_upper_bound; lia.
Qed.

(** Fractions that are well apart give indices in order. *)
Lemma index_mono n c c' i i' :
  0 < n < 2 ^ 64 → 2 ^ 52 ≤ Zpos c ≤ 2 ^ 53 - 2 ^ 40 → 2 ^ 52 ≤ Zpos c' ≤ 2 ^ 53 - 2 ^ 40 →
  Zpos c + 2 ^ 10 ≤ Zpos c' →
  percentile_index n (S754_finite false c (-53)) = Ok i →
  percentile_index n (S754_finite false c' (-53)) = Ok i' → i ≤ i'.
Proof.
  intros Hn Hc Hc' Hlt. destruct (index_close n c Hn Hc) as (V & -> & _ & _ & HV).
  destruct (index_close n c' Hn Hc') as (V' & -> & _ & HV' & _). intros [= <-] [= <-].
  apply Z.div_le_mono; [done|].
  assert ((2 ^ 52 + 1) ^ 2 * Zpos c ≤ (2 ^ 52 - 1) ^ 2 * Zpos c') as H by lia.
  assert (0 ≤ n * 2 ^ 1021) as Hw by lia.
  pose proof (Z.mul_le_mono_nonneg_r _ _ _ Hw H). lia.
Qed.

(** The index is high enough: for up to 2^40 samples, the first [i + 1] of them are at least
    the fraction [a / b] of which [c / 2^53] is the nearest double. *)
Lemma index_rank n c a b i :
  0 < n ≤ 2 ^ 40 → 2 ^ 52 ≤ Zpos c ≤ 2 ^ 53 - 2 ^ 40 → 0 < a ≤ b → b ≤ 1000 →
  a * 2 ^ 53 - b ≤ Zpos c * b →
  percentile_index n (S754_finite false c (-53)) = Ok i → a * n ≤ b * (i + 1).
Proof.
  intros Hn Hc Ha Hb Hcb. destruct (index_close n c) as (V & -> & _ & HV & _); [lia|done|].
  intros [= <-]. pose proof (Z.mul_succ_div_gt V (2 ^ 1074) ltac:(done)) as Hi.
  set (i := V / 2 ^ 1074) in *. clearbody i.
  change (2 ^ 1074) with (2 ^ 53 * 2 ^ 1021) in Hi. set (w := 2 ^ 1021) in *.
  assert (0 < w) as Hw by done. clearbody w.
  assert ((2 ^ 52 - 1) ^ 2 * (n * Zpos c) < 2 ^ 157 * (i + 1)) as H1.
  { apply (Z.mul_lt_mono_pos_r w); [done|]. lia. }
  assert ((2 ^ 52 - 1) ^ 2 * (n * (a * 2 ^ 53 - b)) < 2 ^ 157 * (b * (i + 1))) as H2 by nia.
  assert (2 ^ 157 * (a * n - 1) < 2 ^ 157 * (b * (i + 1))) as H3; [|lia].
  eapply Z.le_lt_trans; [|exact H2]. nia.
Qed.

(** ** The property *)

(** [v] is a sample and at least [a] of [b] samples are at most [v]. *)
Definition covers (l : list Z) (a b : Z) (v : Z) : Prop :=
  v ∈ l ∧ a * Z.of_nat (length l) ≤ b * Z.of_nat (length (filter (λ x, x ≤ v) l)).

Lemma sorted_lookup (l : list Z) i j x y :
  StronglySorted Z.le l → (i ≤ j)%nat → l !! i = Some x → l !! j = Some y → x ≤ y.
Proof.
  intros Hs Hij Hx Hy. destruct (decide (i = j)) as [->|Hne]; [simplify_eq; done|].
  rewrite <- (take_drop j l) in Hs. eapply (StronglySorted_app_1_elem_of Z.le); [exact Hs|..].
  - apply list_elem_of_lookup. exists i. rewrite lookup_take_lt by lia. done.
  - apply list_elem_of_lookup. exists 0%nat. by rewrite lookup_drop, Nat.add_0_r.
Qed.

Lemma filter_everything (P : Z → Prop) `{!∀ x, Decision (P x)} l : Forall P l → filter P l = l.
Proof. induction 1 as [|x l Hx Hl IH]; [done|]. by rewrite filter_cons_True, IH. Qed.

Lemma sorted_rank (l : list Z) i (v : Z) :
  StronglySorted Z.le l → l !! i = Some v → (i + 1 ≤ length (filter (λ x, (x ≤ v)%Z) l))%nat.
Proof.
  intros Hs Hv. pose proof (lookup_lt_Some _ _ _ Hv) as Hlt.
  rewrite <- (take_drop (i + 1) l) at 1. rewrite filter_app, length_app.
  rewrite (filter_everything (λ x, x ≤ v)%Z (take (i + 1) l)); [rewrite length_take; lia|].
  apply Forall_lookup. intros j x Hx. apply lookup_take_Some in Hx as [Hx Hj].
  eapply sorted_lookup; [done| |done..]. lia.
Qed.

Lemma percentile_covers l c a b :
  StronglySorted Z.le l → 0 < Z.of_nat (length l) ≤ 2 ^ 40 →
  2 ^ 52 ≤ Zpos c ≤ 2 ^ 53 - 2 ^ 40 → 0 < a ≤ b → b ≤ 1000 → a * 2 ^ 53 - b ≤ Zpos c * b →
  ∃ i v, percentile_index (Z.of_nat (length l)) (S754_finite false c (-53)) = Ok i ∧
    percentile l (S754_finite false c (-53)) = Ok v ∧ l !! Z.to_nat i = Some v ∧ covers l a b v.
Proof.
  intros Hs Hl Hc Ha Hb Hcb. destruct (index_in_range (Z.of_nat (length l)) c) as (i & Hi & Hr); [lia|done|].
  destruct (lookup_lt_is_Some_2 l (Z.to_nat i)) as [v Hv]; [lia|]. exists i, v.
  unfold percentile. rewrite Hi. simpl. rewrite Hv. split_and!; [done..|].
  split; [by eapply list_elem_of_lookup_2|].
  pose proof (index_rank _ _ _ _ _ Hl Hc Ha Hb Hcb Hi) as Hk. pose proof (sorted_rank l _ v Hs Hv). nia.
Qed.

(** (C25) The benchmark reports percentiles.  For up to 2^40 samples (and at least one), the
    indices computed in floating point stay inside the vector; the printed values are
    samples, in ascending order; and at least 50%, 90%, 99% and 99.9% of all samples are at
    most the respective value, roundings notwithstanding. *)
Theorem percentiles_reported (results : list ThreadResult) :
  let l := (add_up results).2 in
  0 < Z.of_nat (length l) ≤ 2 ^ 40 →
  ∃ a b c d, report l = Ok [a; b; c; d] ∧ a ≤ b ≤ c ∧ c ≤ d ∧
    covers l 50 100 a ∧ covers l 90 100 b ∧ covers l 99 100 c ∧ covers l 999 1000 d.
Proof.
  intros l Hl. assert (StronglySorted Z.le l) as Hs.
  { apply Sorted_StronglySorted; [intros ???; lia|]. apply Sorted_merge_sort. apply _. }
  destruct (percentile_covers l 4503599627370496 50 100 Hs Hl) as (i1 & a & I1 & P1 & L1 & C1); [lia..|].
  destruct (percentile_covers l 8106479329266893 90 100 Hs Hl) as (i2 & b & I2 & P2 & L2 & C2); [lia..|].
  destruct (percentile_covers l 8917127262193582 99 100 Hs Hl) as (i3 & c & I3 & P3 & L3 & C3); [lia..|].
  destruct (percentile_covers l 8998192055486251 999 1000 Hs Hl) as (i4 & d & I4 & P4 & L4 & C4); [lia..|].
  assert (i1 ≤ i2) by (eapply index_mono; [..|exact I1|exact I2]; lia).
  assert (i2 ≤ i3) by (eapply index_mono; [..|exact I2|exact I3]; lia).
  assert (i3 ≤ i4) by (eapply index_mono; [..|exact I3|exact I4]; lia).
  assert (∀ i j x y, i ≤ j → l !! Z.to_nat i = Some x → l !! Z.to_nat j = Some y → x ≤ y) as Hm.
  { intros i j x y Hij Hx Hy. eapply sorted_lookup; [exact Hs| |exact Hx|exact Hy]. lia. }
  exists a, b, c, d. split; [|by split_and!; eauto].
  unfold report, p50, p90, p99, p999. destruct l as [|x l0] eqn:El; [done|]. rewrite <- El in *.
  by rewrite P1, P2, P3, P4.
Qed.

(** Two threads, 1000 samples. *)
Definition demo_results : list ThreadResult :=
  [Result 400 (Z.of_nat <$> seq 600 400); Result 600 (Z.of_nat <$> seq 0 600)].

Lemma percentiles_reported_witness :
  report (add_up demo_results).2 = Ok [500; 900; 990; 999] ∧
  ∃ a b c d, report (add_up demo_results).2 = Ok [a; b; c; d] ∧ a ≤ b ≤ c ∧ c ≤ d ∧
    covers (add_up demo_results).2 50 100 a ∧ covers (add_up demo_results).2 90 100 b ∧
    covers (add_up demo_results).2 99 100 c ∧ covers (add_up demo_results).2 999 1000 d.
Proof.
  split; [vm_compute; reflexivity|]. apply (percentiles_reported demo_results).
  assert (length (add_up demo_results).2 = 1000%nat) as -> by (vm_compute; reflexivity). lia.
Defined.
