(* ===== verification/ExampleServer.v ===== *)
(** * The example program

    src/examples/echo_server.cpp: opening the listening socket, and the chain of operations
    accept, receive, send that serves one client with one static buffer; ExampleMain has
    the [main] function around them.

    The socket calls are parameters ([Sockets]) with what POSIX says about the
    descriptors they open and close ([SocketLaws]).  In the chain every operation is
    started with [exec::start_detached] and has a [then] handler only.  An operation
    that is stopped ends the chain without running a handler ([XStopped]); one that
    fails ends the program, because [start_detached] answers [set_error] with
    [std::terminate] ([XTerminated]). *)

From S2P Require Import Prelude MachineInt Completion Uring IoContext BufferMemory.
From stdpp Require Import options.
Local Open Scope Z_scope.

(** ** The listening socket *)

Class Sockets (os : Type) := {
  sys_socket : os → Z * os;
  sys_setsockopt : Z → os → Z * os;
  sys_bind : Z → Z → os → Z * os;       (** descriptor, port *)
  sys_listen : Z → os → Z * os;
  sys_close : Z → os → Z * os;
  (** The kernel accepts a connection for the process, with this descriptor. *)
  sys_accepted : Z → os → os;
}.

(** Observation: the open descriptors of the process and those that listen. *)
Class SocketView (os : Type) := {
  open_fds : os → gset Z;
  listening : os → gset Z;
}.

Class SocketLaws (os : Type) `{!Sockets os, !SocketView os} := {
  law_socket o fd o' : sys_socket o = (fd, o') →
    listening o' = listening o ∧
    (0 ≤ fd → (fd ∉ open_fds o) ∧ open_fds o' = {[fd]} ∪ open_fds o) ∧
    (fd < 0 → open_fds o' = open_fds o);
  law_setsockopt fd o r o' : sys_setsockopt fd o = (r, o') →
    open_fds o' = open_fds o ∧ listening o' = listening o;
  law_bind fd port o r o' : sys_bind fd port o = (r, o') →
    open_fds o' = open_fds o ∧ listening o' = listening o;
  law_listen fd o r o' : sys_listen fd o = (r, o') →
    open_fds o' = open_fds o ∧
    listening o' = (if 0 <=? r then {[fd]} ∪ listening o else listening o);
  law_close fd o r o' : sys_close fd o = (r, o') →
    open_fds o' = open_fds o ∖ {[fd]} ∧ listening o' = listening o ∖ {[fd]};
  law_accepted fd o : open_fds (sys_accepted fd o) = {[fd]} ∪ open_fds o ∧
    listening (sys_accepted fd o) = listening o;
}.

Definition make_listen_socket {os} `{!Sockets os} (port : Z) (o : os) : Z * os :=
  let '(fd, o) := sys_socket o in
  if fd <? 0 then (-1, o) else
  let '(_, o) := sys_setsockopt fd o in
  let '(r, o) := sys_bind fd port o in
  if r <? 0 then let '(_, o) := sys_close fd o in (-1, o) else
  let '(r, o) := sys_listen fd o in
  if r <? 0 then let '(_, o) := sys_close fd o in (-1, o) else
  (fd, o).

(** ** Serving one client *)

Definition buf_size : Z := 4096.

(** The operation in flight. *)
Inductive xphase : Type :=
| XAccept
| XRecv (client_fd : Z)
| XSend (client_fd n : Z)
| XDone                         (** the last handler has returned *)
| XStopped                      (** the operation completed with [set_stopped] *)
| XTerminated.                  (** ... with [set_error]: [std::terminate] *)

#[export] Instance xphase_eq_dec : EqDecision xphase.
Proof. solve_decision. Defined.

(** The requests; [buf] is the address of the static array. *)
Definition xrequest (listen_fd buf : Z) (p : xphase) : option request :=
  match p with
  | XAccept => Some (RAccept listen_fd)
  | XRecv client_fd => Some (RRecv client_fd (Span buf buf_size) 0)
  | XSend client_fd n => Some (RSend client_fd (Span buf n) 0)
  | _ => None
  end.

(** The three handlers: the next operation and the descriptor they close. *)
Definition accept_handler (r : io_result) : xphase * option Z :=
  if res r <? 0 then (XDone, None) else (XRecv (res r), None).

Definition recv_handler (client_fd : Z) (r : io_result) : xphase * option Z :=
  if res r <=? 0 then (XDone, Some client_fd) else (XSend client_fd (res r), None).

Definition send_handler (client_fd : Z) (r : io_result) : xphase * option Z :=
  (XDone, Some client_fd).

Definition chain (p : xphase) (g : signal) : xphase * option Z :=
  match g with
  | set_stopped => (XStopped, None)
  | set_error _ => (XTerminated, None)
  | set_value r =>
      match p with
      | XAccept => accept_handler r
      | XRecv client_fd => recv_handler client_fd r
      | XSend client_fd _ => send_handler client_fd r
      | _ => (p, None)
      end
  end.

Section program.
Context {byte : Type}.

Record xstate := XState {
  xph : xphase;
  xbuf : list byte;            (** contents of the static array *)
  client : option Z;           (** history: the descriptor [accept] returned *)
  closed : list Z;             (** history: calls of [close] *)
  xreceived : list byte;
  xechoed : list byte;
}.

(** A completion of the operation in flight: its result, and the bytes that arrived if
    it is a receive. *)
Definition xevent : Type := io_result * list byte.

Definition in_flight (p : xphase) : bool :=
  match p with XAccept | XRecv _ | XSend _ _ => true | _ => false end.

(** The kernel moves as many bytes as its result says, at most as many as the request
    asks for; no result is below [-4095]. *)
Definition plausible (rq : request) (e : xevent) : bool :=
  (-4095 <=? res e.1) && (res e.1 <=? int32_max) &&
  match incoming rq, outgoing rq with
  | Some b, _ => bool_decide (Z.of_nat (length e.2) = Z.max 0 (res e.1) ∧ res e.1 ≤ Z.max 0 (size b))
  | None, Some b => res e.1 <=? Z.max 0 (size b)
  | None, None => true
  end.

(** The effect of the completed operation, before its handler runs, in the memory that
    its request names; [buf] is the address of the static array. *)
Definition transfer (buf : Z) (rq : request) (e : xevent) (s : xstate) : outcome xstate :=
  match incoming rq, outgoing rq with
  | Some b, _ =>
      mem ← store buf b e.2 (xbuf s);
      Ok (XState (xph s) mem (client s) (closed s) (xreceived s ++ e.2) (xechoed s))
  | None, Some b =>
      bs ← transmit buf b (Z.to_nat (res e.1)) (xbuf s);
      Ok (XState (xph s) (xbuf s) (client s) (closed s) (xreceived s) (xechoed s ++ bs))
  | None, None =>
      Ok (XState (xph s) (xbuf s) (if 0 <=? res e.1 then Some (res e.1) else None) (closed s)
            (xreceived s) (xechoed s))
  end.

(** A completion of the operation in flight: the kernel's part, then the callback. *)
Definition xact (listen_fd buf : Z) (e : xevent) (s : xstate) : option (outcome xstate) :=
  rq ← xrequest listen_fd buf (xph s);
  if plausible rq e then Some (
    s1 ← transfer buf rq e s;
    g ← make_io_callback e.1;
    let '(p, cl) := chain (xph s) g in
    Ok (XState p (xbuf s1) (client s1) (closed s1 ++ option_list cl) (xreceived s1) (xechoed s1)))
  else None.

Definition xstep (listen_fd buf : Z) (e : xevent) (s : xstate) : option xstate :=
  match xact listen_fd buf e s with Some (Ok s') => Some s' | _ => None end.

Definition xinit (buf : list byte) : xstate := XState XAccept buf None [] [] [].

End program.
Arguments xstate : clear implicits.
Arguments xevent : clear implicits.

(** ** Properties *)

(** Opening the listening socket does not leak.  Whatever the calls return,
    [make_listen_socket] yields either a non-negative descriptor that is open, is new
    to the process and listens, or [-1], and then the open descriptors are exactly
    those from before; no other descriptor is touched in either case. *)
Lemma listen_socket_fresh {os} `{!Sockets os, !SocketView os, !SocketLaws os} port (o : os) :
  let '(fd, o') := make_listen_socket port o in
  (0 ≤ fd ∧ (fd ∉ open_fds o) ∧ open_fds o' = {[fd]} ∪ open_fds o ∧ fd ∈ listening o') ∨
  (fd = -1 ∧ open_fds o' = open_fds o).
Proof.
  unfold make_listen_socket. destruct (sys_socket o) as [fd o1] eqn:E1.
  apply law_socket in E1 as (L1 & Hok & Hbad). destruct (fd <? 0) eqn:Ef; zbool; [by right; auto|].
  destruct (Hok Ef) as [Hnew H1]. destruct (sys_setsockopt fd o1) as [r2 o2] eqn:E2.
  apply law_setsockopt in E2 as [H2 L2]. destruct (sys_bind fd port o2) as [r3 o3] eqn:E3.
  apply law_bind in E3 as [H3 L3].
  assert (∀ ox ry oy, open_fds ox = {[fd]} ∪ open_fds o → sys_close fd ox = (ry, oy) →
    open_fds oy = open_fds o) as Hclose.
  { intros ox ry oy Hx Hc. apply law_close in Hc as [-> _]. rewrite Hx. set_solver. }
  destruct (r3 <? 0).
  { destruct (sys_close fd o3) as [r4 o4] eqn:E4. right. split; [done|].
    apply (Hclose o3 r4); [congruence|done]. }
  destruct (sys_listen fd o3) as [r5 o5] eqn:E5. apply law_listen in E5 as [H5 L5].
  destruct (r5 <? 0) eqn:Er; zbool.
  - destruct (sys_close fd o5) as [r6 o6] eqn:E6. right. split; [done|].
    apply (Hclose o5 r6); [congruence|done].
  - left. rewrite (proj2 (Z.leb_le _ _) Er) in L5. rewrite L5. split_and!; [done..|congruence|set_solver].
Qed.

Section chain.
Context {byte : Type}.
Implicit Types s : xstate byte.

(** The descriptors closed so far, by where the chain is. *)
Definition closes (p : xphase) (c : option Z) : list Z :=
  match p, c with XDone, Some fd => [fd] | _, _ => [] end.

Record XInv s : Prop := {
  xi_buf : Z.of_nat (length (xbuf s)) = buf_size;
  xi_closed : closed s = closes (xph s) (client s);
  xi_phase : match xph s with
             | XAccept => client s = None ∧ xreceived s = [] ∧ xechoed s = []
             | XRecv c => client s = Some c ∧ xreceived s = [] ∧ xechoed s = []
             | XSend c n => client s = Some c ∧ 0 < n ≤ buf_size ∧ xechoed s = [] ∧
                            xreceived s = take (Z.to_nat n) (xbuf s)
             | _ => xechoed s `prefix_of` xreceived s ∧ Z.of_nat (length (xreceived s)) ≤ buf_size
             end;
}.

Lemma callback_value r g v : make_io_callback r = Ok g → g = set_value v → v = r ∧ 0 ≤ res r.
Proof.
  unfold make_io_callback. intros H ->. destruct (res r =? _); [done|].
  destruct (res r <? 0) eqn:E; zbool; outcome_inv; done.
Qed.

Lemma callback_not_value r g : make_io_callback r = Ok g → (∀ v, g ≠ set_value v) → res r < 0.
Proof.
  unfold make_io_callback. intros H Hg. destruct (res r =? - ECANCELED) eqn:E1; zbool.
  - unfold ECANCELED in E1. lia.
  - destruct (res r <? 0) eqn:E; zbool; [done|]. injection H as <-. by destruct (Hg r).
Qed.

Section steps.
Context (listen_fd buf : Z).

(** The transfer of a completion that the loop can report. *)
Lemma transfer_ok s e rq :
  XInv s → xrequest listen_fd buf (xph s) = Some rq → plausible rq e = true →
  transfer buf rq e s = Ok match xph s with
    | XAccept => XState (xph s) (xbuf s) (if 0 <=? res e.1 then Some (res e.1) else None) (closed s)
                   (xreceived s) (xechoed s)
    | XRecv _ => XState (xph s) (e.2 ++ drop (length e.2) (xbuf s)) (client s) (closed s)
                   (xreceived s ++ e.2) (xechoed s)
    | _ => XState (xph s) (xbuf s) (client s) (closed s) (xreceived s)
             (xechoed s ++ take (Z.to_nat (res e.1)) (xbuf s))
    end.
Proof.
  intros [H1 H2 H3] Hq Hp. unfold transfer. destruct (xph s) as [|fd|fd n| | |]; try done;
    injection Hq as <-; simpl.
  - done.
  - by rewrite store_start by lia.
  - destruct H3 as (_ & Hn & _).
    pose proof (transmit_at buf 0 n (Z.to_nat (res e.1)) (xbuf s)) as Ht. rewrite Z.add_0_r in Ht.
    by rewrite Ht by lia.
Qed.

(** What a plausible result says about a receive and about a send. *)
Lemma plausible_recv fd (e : xevent byte) :
  plausible (RRecv fd (Span buf buf_size) 0) e = true →
  Z.of_nat (length e.2) = Z.max 0 (res e.1) ∧ res e.1 ≤ buf_size.
Proof.
  unfold plausible. simpl. intros H. apply andb_true_iff in H as [_ H].
  apply bool_decide_eq_true in H. unfold buf_size in *. lia.
Qed.

Lemma plausible_send fd n (e : xevent byte) :
  0 < n → plausible (RSend fd (Span buf n) 0) e = true → res e.1 ≤ n.
Proof. unfold plausible. simpl. intros Hn H. apply andb_true_iff in H as [_ H]. zbool. lia. Qed.

Lemma plausible_callback rq (e : xevent byte) :
  plausible rq e = true → ∃ g, make_io_callback e.1 = Ok g.
Proof.
  unfold plausible. intros H. apply andb_true_iff in H as [H _].
  apply andb_true_iff in H as [H1 H2]. zbool.
  destruct (make_io_callback_total e.1) as (g & Hg & _); [int_lia|by eexists].
Qed.

(** The invariant after a completion that ends the chain without a handler. *)
Lemma xinv_abandoned s e rq p s1 :
  XInv s → xrequest listen_fd buf (xph s) = Some rq → plausible rq e = true → res e.1 < 0 →
  transfer buf rq e s = Ok s1 → (p = XStopped ∨ p = XTerminated) →
  XInv (XState p (xbuf s1) (client s1) (closed s1 ++ []) (xreceived s1) (xechoed s1)).
Proof.
  intros HI Hq Hpl Hr Ht Hp. rewrite (transfer_ok _ _ _ HI Hq Hpl) in Ht. injection Ht as <-.
  destruct HI as [H1 H2 H3].
  assert (∀ c, closes p c = []) as Hc by (destruct Hp as [->| ->]; done).
  assert (∀ c r h, h `prefix_of` r ∧ Z.of_nat (length r) ≤ buf_size → length c = length (xbuf s) →
    ∀ cl, XInv (XState p c cl [] r h)) as Hdone.
  { intros c r h Hh Hl cl. split; simpl; [congruence|by rewrite Hc|]. destruct Hp as [->| ->]; done. }
  destruct (xph s) as [|fd|fd n| | |]; try done; injection Hq as <-; simpl in *; rewrite H2; simpl.
  - destruct H3 as (_ & -> & ->). apply Hdone; [by split|done].
  - destruct H3 as (_ & -> & ->). apply plausible_recv in Hpl as [Hl _].
    assert (e.2 = []) as -> by (apply nil_length_inv; lia). apply Hdone; [by split|done].
  - destruct H3 as (_ & Hn & -> & ->). rewrite (Z2Nat.nonpos (res e.1)) by lia. simpl.
    apply Hdone; [|done]. split; [apply prefix_nil|]. rewrite length_take. lia.
Qed.

(** The invariant after a handler. *)
Lemma xinv_handled s e rq s1 :
  XInv s → xrequest listen_fd buf (xph s) = Some rq → plausible rq e = true → 0 ≤ res e.1 →
  transfer buf rq e s = Ok s1 →
  let '(p, cl) := chain (xph s) (set_value e.1) in
  XInv (XState p (xbuf s1) (client s1) (closed s1 ++ option_list cl) (xreceived s1) (xechoed s1)).
Proof.
  intros HI Hq Hpl Hr Ht. rewrite (transfer_ok _ _ _ HI Hq Hpl) in Ht. injection Ht as <-.
  destruct HI as [H1 H2 H3].
  destruct (xph s) as [|fd|fd n| | |]; try done; injection Hq as <-; simpl in *.
  - unfold accept_handler. rewrite (proj2 (Z.ltb_ge _ _) Hr), (proj2 (Z.leb_le _ _) Hr).
    destruct H3 as (_ & -> & ->). split; simpl; [done|by rewrite H2|done].
  - apply plausible_recv in Hpl as [Hl Hb]. destruct H3 as (Hc & -> & ->).
    assert (Z.of_nat (length (e.2 ++ drop (length e.2) (xbuf s))) = buf_size) as Hlen
      by (rewrite length_app, length_drop; lia).
    unfold recv_handler. destruct (res e.1 <=? 0) eqn:E; zbool.
    + split; simpl; [done|by rewrite H2, Hc|]. split; [apply prefix_nil|lia].
    + split; simpl; [done|by rewrite H2|]. split_and!; [done|lia|lia|done|].
      replace (Z.to_nat (res e.1)) with (length e.2) by lia. by rewrite take_app_length.
  - destruct H3 as (Hc & Hn & -> & ->). apply plausible_send in Hpl; [|lia].
    split; simpl; [done|by rewrite H2, Hc|]. split; [|rewrite length_take; lia].
    rewrite <- (take_drop (Z.to_nat (res e.1)) (take (Z.to_nat n) (xbuf s))) at 1.
    rewrite take_take, Nat.min_l by lia. by apply prefix_app_r.
Qed.

Lemma xinv_act s e o : XInv s → xact listen_fd buf e s = Some o → ∃ s', o = Ok s' ∧ XInv s'.
Proof.
  intros HI H. unfold xact in H. apply bind_Some in H as (rq & Hq & H).
  destruct (plausible rq e) eqn:Hpl; [|done]. injection H as <-.
  pose proof (transfer_ok _ _ _ HI Hq Hpl) as Ht. set (s1 := match xph s with XAccept => _ | _ => _ end) in Ht.
  destruct (plausible_callback _ _ Hpl) as [g Hg]. rewrite Ht, Hg. simpl.
  destruct g as [r|code|].
  - destruct (callback_value _ _ r Hg eq_refl) as [-> Hr].
    pose proof (xinv_handled _ _ _ _ HI Hq Hpl Hr Ht) as H. destruct (chain _ _) as [p cl].
    by eexists.
  - eexists. split; [done|]. eapply xinv_abandoned; try done; [|by right].
    eapply callback_not_value; done.
  - eexists. split; [done|]. eapply xinv_abandoned; try done; [|by left].
    eapply callback_not_value; done.
Qed.

Definition xrun_step s (e : xevent byte) s' : Prop := xstep listen_fd buf e s = Some s'.

Lemma xinv_step s e s' : XInv s → xrun_step s e s' → XInv s'.
Proof.
  unfold xrun_step, xstep. intros HI H. destruct (xact listen_fd buf e s) as [o|] eqn:E; [|done].
  destruct (xinv_act _ _ _ HI E) as (s1 & -> & ?). by injection H as <-.
Qed.

End steps.
End chain.

(** (C40) The example serves one client with one buffer.  Along every sequence of
    completions, no completion makes the kernel touch memory outside the static
    buffer, given only that it moves no more bytes than the request in flight asks
    for: a receive asks for the whole buffer, a send for a non-empty span at its start,
    both on the client's descriptor.  What is sent back is a prefix of what was
    received, which fits in the buffer.  The client's descriptor is closed exactly once
    when the last handler has returned after a successful accept, and not at all
    otherwise: it is still open when the receive or the send was stopped, and when one of
    them failed and [start_detached] has terminated the program. *)
Theorem example_chain_correct {byte} (mem : list byte) listen_fd buf es s :
  Z.of_nat (length mem) = buf_size → runs (xrun_step listen_fd buf) (xinit mem) es s →
  (∀ e u, xact listen_fd buf e s ≠ Some (Undef u)) ∧
  xechoed s `prefix_of` xreceived s ∧ Z.of_nat (length (xreceived s)) ≤ buf_size ∧
  closed s = closes (xph s) (client s) ∧
  (∀ rq b, xrequest listen_fd buf (xph s) = Some rq → request_span rq = Some b →
     client s = Some (request_fd rq) ∧ data b = buf ∧ 0 < size b ≤ buf_size ∧
     (∀ fd fl, rq = RRecv fd b fl → size b = buf_size)).
Proof.
  intros Hb Hr. assert (XInv s) as HI.
  { eapply runs_invariant; [|by apply xinv_step|exact Hr]. by split. }
  pose proof HI as [H1 H2 H3]. split_and!.
  - intros e u Hu. by destruct (xinv_act _ _ _ _ _ HI Hu) as (? & ? & _).
  - destruct (xph s); try (by destruct H3); try (by destruct H3 as (_ & -> & ->)).
    destruct H3 as (_ & _ & -> & _). apply prefix_nil.
  - unfold buf_size in *. destruct (xph s); try (by destruct H3); try (by destruct H3 as (_ & -> & _)).
    destruct H3 as (_ & ? & _ & ->). rewrite length_take. lia.
  - done.
  - intros rq b Hq Hs. destruct (xph s); try done; injection Hq as <-; simpl in Hs; try done;
      injection Hs as <-; simpl; unfold buf_size in *; naive_solver.
Qed.

Definition demo_array : list nat := replicate 4096 0%nat.
Definition demo_events : list (xevent nat) :=
  [(IoResult 9 0, []); (IoResult 3 0, [1; 2; 3]%nat); (IoResult 1 0, [])].
Definition demo_end : xstate nat :=
  default (xinit demo_array) (exec (xstep 3 65536) demo_events (xinit demo_array)).

Lemma example_chain_correct_witness :
  closed demo_end = [9] ∧ xechoed demo_end `prefix_of` xreceived demo_end.
Proof.
  split; [vm_compute; reflexivity|].
  apply (example_chain_correct demo_array 3 65536 demo_events demo_end).
  - vm_compute. reflexivity.
  - apply (exec_runs (xstep 3 65536)); [done|]. vm_compute. reflexivity.
Defined.

(** The run of the witness: three bytes arrive, the kernel sends one of them, and the
    handler of the send closes the connection without looking at the result. *)
Lemma short_send_truncates :
  xreceived demo_end = [1; 2; 3]%nat ∧ xechoed demo_end = [1]%nat ∧ xph demo_end = XDone.
Proof. vm_compute. done. Qed.

(** ** A process table that satisfies the laws of the sockets *)

Module SimpleSockets.

Record os := Os { used : gset Z; listens : gset Z; bind_fails : bool }.

Definition fresh_fd (X : gset Z) : Z := 1 + foldr Z.max 0 (elements X).

Lemma fresh_fd_new X : fresh_fd X ∉ X.
Proof.
  intros H. apply elem_of_elements in H. unfold fresh_fd in H.
  assert (∀ l x, x ∈ l → x ≤ foldr Z.max 0 l) as Hm; [|specialize (Hm _ _ H); lia].
  induction l as [|y l IH]; intros x; [by intros ?%elem_of_nil|].
  intros [->|Hx]%elem_of_cons; simpl; [lia|]. specialize (IH x Hx). lia.
Qed.

#[global] Instance simple_sockets : Sockets os := {|
  sys_socket o :=
    (fresh_fd (used o), Os ({[fresh_fd (used o)]} ∪ used o) (listens o) (bind_fails o));
  sys_setsockopt fd o := (0, o);
  sys_bind fd port o := (if bind_fails o then -98 else 0, o);
  sys_listen fd o := (0, Os (used o) ({[fd]} ∪ listens o) (bind_fails o));
  sys_close fd o := (0, Os (used o ∖ {[fd]}) (listens o ∖ {[fd]}) (bind_fails o));
  sys_accepted fd o := Os ({[fd]} ∪ used o) (listens o) (bind_fails o);
|}.

#[global] Instance simple_socket_view : SocketView os := {| open_fds := used; listening := listens |}.

#[global] Instance simple_socket_laws : SocketLaws os.
Proof.
  split; simpl.
  - intros o fd o' [= <- <-]. split_and!; [done| |].
    + intros _. split; [apply fresh_fd_new|done].
    + unfold fresh_fd. assert (∀ l, 0 ≤ foldr Z.max 0 l) as Hm; [|specialize (Hm (elements (used o))); lia].
      induction l; simpl; lia.
  - by intros fd o r o' [= <- <-].
  - by intros fd port o r o' [= <- <-].
  - by intros fd o r o' [= <- <-].
  - by intros fd o r o' [= <- <-].
  - done.
Qed.

End SimpleSockets.
