(* ===== verification/ExampleMain.v ===== *)
(** * The main function of the example program

    [main] of src/examples/echo_server.cpp as a state machine over the models of its parts: the
    thread that runs [main] itself, the thread [io_thread] it starts, the handlers that
    this thread runs and that submit the next operation of the chain, and the
    workers of the runtime's pool, which have no tasks.  The accesses of these threads
    interleave freely; the pause before [stop] is no more than a chance for
    the others to run. *)

From S2P Require Import Prelude MachineInt ThreadPool ThreadPoolProof ThreadPoolTheorems Completion Uring.
From S2P Require Import IoContext IoContextProof IoContextTheorems.
From S2P Require Import Runtime ExampleServer.
From stdpp Require Import options.
Local Open Scope Z_scope.

Inductive main_pc : Type :=
| MListen               (** [make_listen_socket(port)] *)
| MConstruct            (** [async_runtime::runtime rt] *)
| MThread               (** [std::thread io_thread] *)
| MAccept               (** [start_detached(io.async_accept(listen_fd) | ...)] *)
| MStopStore            (** [rt.stop()], up to the mutex *)
| MStopWake             (** the rest of [rt.stop()] *)
| MJoin                 (** [io_thread.join()] *)
| MClose                (** [close(listen_fd)] *)
| MDestroy              (** [return 0]: the destructor of [rt] *)
| MExited (code : Z)
| MTerminated.          (** the constructor of [rt] threw and nothing catches, or an
                            operation of the chain failed *)

#[export] Instance main_pc_eq_dec : EqDecision main_pc.
Proof. solve_decision. Defined.

(** The thread [io_thread]. *)
Inductive io_thread_pc : Type := NoThread | Ready | InRun | Finished.

Definition port : Z := 18080.
Definition io_queue_depth : Z := 256.

Section main.
Context {os ring : Type} `{!Sockets os, !SocketView os, !Liburing ring}.
(** The number of workers, and the address of the static buffer. *)
Context (hardware_concurrency : nat) (buf : Z).

Record main_state := Main {
  mpc : main_pc;
  sys : os;
  listen_fd : Z;
  rt : option (runtime ring unit xphase);    (** [None]: not constructed *)
  io_thread : io_thread_pc;
  accepted : option Z;                       (** the descriptor the kernel opened for the accept *)
  handler : option (xphase * option Z);      (** what the handler on [io_thread] has left to do:
                                                 the descriptor to close, the operation to start *)
  completions : list (xphase * signal);      (** history: what the operations completed with *)
  closed_fds : list Z;                       (** history: [close] in the handlers *)
}.

Definition main_init (o : os) : main_state := Main MListen o 0 None NoThread None None [] [].

(** [main] and its variables change, [io_thread] goes to [th]. *)
Definition set_main (p : main_pc) (o : os) (fd : Z) (r : option (runtime ring unit xphase))
    (th : io_thread_pc) (s : main_state) : main_state :=
  Main p o fd r th (accepted s) (handler s) (completions s) (closed_fds s).

Definition at_pc (p : main_pc) (s : main_state) : main_state :=
  set_main p (sys s) (listen_fd s) (rt s) (io_thread s) s.

Definition set_handler (h : option (xphase * option Z)) (s : main_state) : main_state :=
  Main (mpc s) (sys s) (listen_fd s) (rt s) (io_thread s) (accepted s) h (completions s) (closed_fds s).

(** An action on [rt], after which [main] is at [p] and [io_thread] at [th]. *)
Definition on_rt (a : rt_action unit xphase) (p : main_pc) (th : io_thread_pc) (s : main_state) :
    option (outcome main_state) :=
  r ← rt s;
  o ← rt_act (λ _, []) a r;
  Some (r' ← o; Ok (set_main p (sys s) (listen_fd s) (Some r') th s)).

(** The next step of the destruction of [rt], [None] when it is over. *)
Definition dtor_action (r : runtime ring unit xphase) : option (rt_action unit xphase) :=
  match stage r with
  | Alive => Some RDtorStore
  | Stopping => Some RDtorWake
  | Stopped => Some RDtorIo
  | DestroyingPool => match dtor (pool_ r) with DDone => None | _ => Some (RPool ADtor) end
  end.

(** The next step of [main]; [addr] is what [new] returns for the callback. *)
Definition main_thread (addr : Z) (s : main_state) : option (outcome main_state) :=
  match mpc s with
  | MListen =>
      let '(fd, o) := make_listen_socket port (sys s) in
      Some (Ok (set_main (if fd <? 0 then MExited 1 else MConstruct) o fd (rt s) (io_thread s) s))
  | MConstruct =>
      Some (r ← new_runtime hardware_concurrency 0 io_queue_depth;
            Ok match r with
               | inl _ => at_pc MTerminated s
               | inr r => set_main MThread (sys s) (listen_fd s) (Some r) (io_thread s) s
               end)
  | MThread => Some (Ok (set_main MAccept (sys s) (listen_fd s) (rt s) Ready s))
  | MAccept => on_rt (RIo None (ASubmit (RAccept (listen_fd s)) XAccept addr)) MStopStore (io_thread s) s
  | MStopStore => on_rt (RIo None AStopStore) MStopWake (io_thread s) s
  | MStopWake => on_rt (RIo None AStopWake) MJoin (io_thread s) s
  | MJoin => match io_thread s with Finished => Some (Ok (at_pc MClose s)) | _ => None end
  | MClose =>
      let '(_, o) := sys_close (listen_fd s) (sys s) in
      Some (Ok (set_main MDestroy o (listen_fd s) (rt s) (io_thread s) s))
  | MDestroy =>
      r ← rt s;
      match dtor_action r with
      | None => Some (Ok (at_pc (MExited 0) s))
      | Some a => on_rt a MDestroy (io_thread s) s
      end
  | MExited _ | MTerminated => None
  end.

(** The signal that a turn of the event loop delivered. *)
Definition new_signal (r r' : runtime ring unit xphase) : option (xphase * signal) :=
  match io_ctx_ r, io_ctx_ r' with
  | Some io, Some io' =>
      if decide (length (delivered io) < length (delivered io'))%nat then last (delivered io') else None
  | _, _ => None
  end.

(** The accept completes with the descriptor that the kernel opened for it, or without one. *)
Definition agrees (p : xphase) (g : signal) (acc : option Z) : bool :=
  match p, g with
  | XAccept, set_value r => bool_decide (acc = Some (res r))
  | XAccept, _ => bool_decide (acc = None)
  | _, _ => true
  end.

(** The receiver of a signal: [then] enters the handler, [start_detached] ignores
    [set_stopped] and terminates the program on [set_error]. *)
Definition receive_signal (sg : option (xphase * signal)) (s : main_state) : option main_state :=
  match sg with
  | None => Some s
  | Some (p, g) =>
      if agrees p g (accepted s) then
        let '(q, cl) := chain p g in
        Some (Main (match q with XTerminated => MTerminated | _ => mpc s end) (sys s) (listen_fd s)
                (rt s) (io_thread s) (accepted s) (Some (q, cl)) (completions s ++ [(p, g)])
                (closed_fds s))
      else None
  end.

(** A turn of the event loop. *)
Definition loop_turn (s : main_state) : option (outcome main_state) :=
  r ← rt s;
  o ← rt_act (λ _, []) (RIo None ALoop) r;
  match o with
  | Undef u => Some (Undef u)
  | Ok r' =>
      s' ← receive_signal (new_signal r r') (set_main (mpc s) (sys s) (listen_fd s) (Some r') InRun s);
      Some (Ok s')
  end.

(** The next step of [io_thread] outside the handlers: it calls [rt.run()] and ends when
    that returns. *)
Definition io_thread_step (s : main_state) : option (outcome main_state) :=
  match io_thread s, handler s with
  | NoThread, _ | Finished, _ | InRun, Some _ => None
  | Ready, _ => on_rt (RIo None ACallRun) (mpc s) InRun s
  | InRun, None =>
      r ← rt s;
      match io_ctx_ r with
      | Some io =>
          match loop io with
          | Idle => Some (Ok (set_main (mpc s) (sys s) (listen_fd s) (rt s) Finished s))
          | _ => loop_turn s
          end
      | None => Some (Undef UseAfterFree)
      end
  end.

(** The next step of the handler that runs on [io_thread]: [close(client_fd)], or the start of
    the next operation, or its return. *)
Definition handler_step (addr : Z) (s : main_state) : option (outcome main_state) :=
  match io_thread s, handler s with
  | InRun, Some (p, Some fd) =>
      let '(_, o) := sys_close fd (sys s) in
      Some (Ok (Main (mpc s) o (listen_fd s) (rt s) (io_thread s) (accepted s) (Some (p, None))
                  (completions s) (closed_fds s ++ [fd])))
  | InRun, Some (p, None) =>
      match xrequest (listen_fd s) buf p with
      | Some rq => on_rt (RIo None (ASubmit rq p addr)) (mpc s) InRun (set_handler None s)
      | None => Some (Ok (set_handler None s))
      end
  | _, _ => None
  end.

(** The accept is submitted. *)
Definition started (p : main_pc) : bool :=
  match p with
  | MStopStore | MStopWake | MJoin | MClose | MDestroy | MExited 0 => true
  | _ => false
  end.

(** The kernel accepts a client while the accept is in flight. *)
Definition kernel_accept (fd : Z) (s : main_state) : option (outcome main_state) :=
  r ← rt s;
  if started (mpc s) && bool_decide (accepted s = None) && bool_decide (completions s = []) &&
     bool_decide (io_ctx_ r ≠ None) && (0 <=? fd) && bool_decide (fd ∉ open_fds (sys s))
  then Some (Ok (Main (mpc s) (sys_accepted fd (sys s)) (listen_fd s) (rt s) (io_thread s) (Some fd)
                   (handler s) (completions s) (closed_fds s)))
  else None.

Inductive main_action : Type :=
| XMain (addr : Z)
| XIo
| XHandler (addr : Z)
| XKernel (fd : Z)
| XPool (a : ThreadPool.action unit).    (** a worker of the pool *)

(** No thread goes on after [std::terminate]. *)
Definition main_act (a : main_action) (s : main_state) : option (outcome main_state) :=
  if decide (mpc s = MTerminated) then None else
  match a with
  | XMain addr => main_thread addr s
  | XIo => io_thread_step s
  | XHandler addr => handler_step addr s
  | XKernel fd => kernel_accept fd s
  | XPool (ACall _ _) | XPool ADtor => None
  | XPool a => on_rt (RPool a) (mpc s) (io_thread s) s
  end.

Definition main_step (s : main_state) (a : main_action) (s' : main_state) : Prop :=
  main_act a s = Some (Ok s').

Definition main_exec : list main_action → main_state → option main_state :=
  exec (λ a s, match main_act a s with Some (Ok s') => Some s' | _ => None end).

(** The client's descriptor, while no handler has closed it. *)
Definition left_open (s : main_state) : gset Z :=
  match accepted s with
  | Some c => if decide (c ∈ closed_fds s) then ∅ else {[c]}
  | None => ∅
  end.

End main.
Arguments main_state : clear implicits.

(** The chain along a sequence of completions: the operation or end it has reached and the
    descriptors its handlers close; [None] if an operation completes that is not the one in
    flight. *)
Fixpoint follow (p : xphase) (l : list (xphase * signal)) : option (xphase * list Z) :=
  match l with
  | [] => Some (p, [])
  | (q, g) :: l =>
      if decide (q = p)
      then '(p2, cls) ← follow (chain p g).1 l; Some (p2, option_list (chain p g).2 ++ cls)
      else None
  end.
