(* ===== verification/ExampleMainProof.v ===== *)
(** * What the example program guarantees

    The invariants of [main]'s state machine in ExampleMain.v (the runtime and the
    threads, the descriptors of the process, the chain of operations with the
    io_context's record of them), the theorem about a run of the program, and runs in
    which the client is served and abandoned. *)

From S2P Require Import Prelude MachineInt ThreadPool ThreadPoolProof ThreadPoolTheorems Completion Uring.
From S2P Require Import IoContext IoContextProof IoContextTheorems.
From S2P Require Import Runtime ExampleServer ExampleMain.
From stdpp Require Import options.
Local Open Scope Z_scope.
Set Default Proof Using "Type*".

(** ** The invariant *)

Section proof.
Context {os ring : Type} `{!Sockets os, !SocketView os, !SocketLaws os}.
Context `{!Liburing ring, !RingView ring, !LiburingLaws ring}.
Context (nw : nat) (buf : Z) (o0 : os).
Implicit Types (s : main_state os ring) (r : runtime ring unit xphase).

(** [main] owns an open listening socket. *)
Definition holds_socket (p : main_pc) : bool :=
  match p with MListen | MDestroy | MExited _ => false | _ => true end.

(** Before [rt] exists, or without it. *)
Definition before_rt (p : main_pc) : bool :=
  match p with MListen | MConstruct | MTerminated | MExited 1 => true | _ => false end.

(** [io_thread] has been joined. *)
Definition joined_io (p : main_pc) : bool :=
  match p with MClose | MDestroy | MExited 0 => true | _ => false end.

Definition reached r : Prop :=
  ∃ r0 ls, new_runtime nw 0 io_queue_depth = Ok (inr r0) ∧ runs (rt_step (λ _, [])) r0 ls r.

Record rt_inv (p : main_pc) (th : io_thread_pc) r : Prop := {
  ri_reached : reached r;
  ri_externs : externs (pool_ r) = [];
  ri_stage : match p with
             | MDestroy => True
             | MExited _ => stage r = DestroyingPool ∧ dtor (pool_ r) = DDone
             | _ => stage r = Alive
             end;
  ri_loop : ∀ io, io_ctx_ r = Some io → th ≠ InRun → loop io = Idle;
  ri_gone : stage r = DestroyingPool → io_ctx_ r = None;
}.

Record RtInv s : Prop := {
  mi_rt : mpc s ≠ MTerminated →
          if before_rt (mpc s) then rt s = None ∧ io_thread s = NoThread
          else ∃ r, rt s = Some r ∧ rt_inv (mpc s) (io_thread s) r;
  mi_thread : mpc s = MThread → io_thread s = NoThread;
  mi_joined : joined_io (mpc s) = true → io_thread s = Finished;
  mi_code : ∀ code, mpc s = MExited code → code = 0 ∨ code = 1;
}.

(** The descriptors of the process. *)
Record FdInv s : Prop := {
  fi_listen : holds_socket (mpc s) = true →
    0 ≤ listen_fd s ∧ (listen_fd s ∉ open_fds o0) ∧ listen_fd s ∈ listening (sys s) ∧
    accepted s ≠ Some (listen_fd s);
  fi_open : open_fds (sys s) =
    (if holds_socket (mpc s) then {[listen_fd s]} else ∅) ∪ left_open s ∪ open_fds o0;
  fi_client : ∀ c, accepted s = Some c → c ∉ open_fds o0;
}.

(** What the handlers close, by where the chain is. *)
Definition phase_ok (p : xphase) (cls : list Z) (acc : option Z) : Prop :=
  match p with
  | XRecv c | XSend c _ => acc = Some c ∧ cls = []
  | XDone => ∃ c, acc = Some c ∧ cls = [c]
  | XAccept | XStopped | XTerminated => cls = []
  end.

(** The operation of the chain that the io_context has. *)
Definition in_ring s (p : xphase) : list xphase :=
  if started (mpc s)
  then match handler s with Some _ => [] | None => if in_flight p then [p] else [] end
  else [].

Record ChainInv s (p : xphase) (cls : list Z) : Prop := {
  ci_follow : follow XAccept (completions s) = Some (p, cls);
  ci_phase : phase_ok p cls (accepted s);
  ci_closed : match handler s with
              | Some (q, cl) => q = p ∧ closed_fds s ++ option_list cl = cls
              | None => closed_fds s = cls
              end;
  ci_io : mpc s ≠ MTerminated → ∀ r io, rt s = Some r → io_ctx_ r = Some io →
    delivered io = completions s ∧ Inv ((completions s).*1 ++ in_ring s p) io;
  ci_new : started (mpc s) = false → mpc s ≠ MTerminated →
    completions s = [] ∧ handler s = None ∧ accepted s = None;
  ci_thread : mpc s ≠ MTerminated → handler s ≠ None → io_thread s = InRun;
}.

Record MainInv s : Prop := {
  mi_rts : RtInv s;
  mi_fds : FdInv s;
  mi_chain : ∃ p cls, ChainInv s p cls;
}.

(** Workers change neither the calls of other threads nor the destructor. *)
Lemma worker_frame (p p' : pool unit) a :
  pool_step (λ _, []) p a p' → externs p = [] → a ≠ ADtor →
  externs p' = [] ∧ dtor p' = dtor p.
Proof.
  unfold pool_step, pool_act. intros H E Hd. destruct a.
  - unfold worker_step, begin_steal, take_global, run_task, enqueue_step, lock, notify_one in H.
    unfold mbind, option_bind in H. repeat case_match; simplify_eq/=; done.
  - unfold lose_race in H. repeat case_match; simplify_eq/=; done.
  - unfold misread, mbind, option_bind in H. repeat case_match; simplify_eq/=; done.
  - repeat case_match; simplify_eq/=; done.
  - unfold call_enqueue in H. by rewrite E in H.
  - unfold extern_step in H. by rewrite E in H.
  - done.
Qed.

Lemma dtor_frame (p p' : pool unit) :
  pool_step (λ _, []) p ADtor p' → externs p' = externs p.
Proof.
  unfold pool_step, pool_act, dtor_step, lock, mbind, option_bind.
  intros H. repeat case_match; simplify_eq/=; done.
Qed.

Lemma reached_step r a r' : reached r → rt_step (λ _, []) r a r' → reached r'.
Proof. intros (r0 & ls & Hn & Hr) Hs. exists r0, (ls ++ [a]). split; [done|by econstructor]. Qed.

Lemma on_rt_ok a p th s s' :
  on_rt a p th s = Some (Ok s') →
  ∃ r r', rt s = Some r ∧ rt_step (λ _, []) r a r' ∧
    s' = set_main p (sys s) (listen_fd s) (Some r') th s.
Proof.
  unfold on_rt. intros H. apply bind_Some in H as (r & Hr & H).
  apply bind_Some in H as (o & Ho & H). injection H as H.
  apply outcome_bind_ok in H as (r' & -> & [= <-]). by exists r, r'.
Qed.

Lemma io_call r b r' :
  rt_step (λ _, []) r (RIo None b) r' →
  stage r = Alive ∧ ∃ io io', io_ctx_ r = Some io ∧ io_step io b io' ∧
    r' = Runtime (pool_ r) (Some io') Alive (leaked r).
Proof.
  unfold rt_step. simpl. destruct (stage r); try done. intros H%on_io_ok. done.
Qed.

Lemma rt_inv_call p th r b p' r' :
  rt_inv p th r → rt_step (λ _, []) r (RIo None b) r' → b ≠ ALoop → b ≠ ACallRun →
  match p' with MDestroy | MExited _ => False | _ => True end → rt_inv p' th r'.
Proof.
  intros [Hr He Hst Hl Hg] Hs H1 H2 Hp. pose proof Hs as (Ha & io & io' & E & Hio & ->)%io_call.
  split; simpl; [by eapply reached_step|done|by destruct p'| |done].
  intros io2 [= <-] Hth. rewrite (call_keeps_loop _ _ _ Hio H1 H2). by apply Hl.
Qed.

Lemma rt_inv_loop p th r b r' :
  rt_inv p th r → rt_step (λ _, []) r (RIo None b) r' →
  match p with MExited _ => False | _ => True end → rt_inv p InRun r'.
Proof.
  intros [Hr He Hst Hl Hg] Hs Hp. pose proof Hs as (Ha & io & io' & E & Hio & ->)%io_call.
  split; simpl; [by eapply reached_step|done|by destruct p|done|done].
Qed.

Lemma rt_inv_worker p th r a r' :
  rt_inv p th r → rt_step (λ _, []) r (RPool a) r' → a ≠ ADtor → rt_inv p th r'.
Proof.
  intros [Hr He Hst Hl Hg] Hs Ha.
  assert (∃ q, pool_step (λ _, []) (pool_ r) a q ∧ r' = Runtime q (io_ctx_ r) (stage r) (leaked r))
    as (q & Hq & Er).
  { unfold rt_step in Hs; simpl in Hs. apply on_pool_ok. by destruct a, (stage r). }
  destruct (worker_frame _ _ _ Hq He Ha) as [He' Hd].
  split; rewrite ?Er; simpl; [rewrite <- Er; by eapply reached_step|done| |done|done].
  rewrite Hd. by destruct p.
Qed.

Lemma rt_inv_dtor th r a r' :
  rt_inv MDestroy th r → dtor_action r = Some a → rt_step (λ _, []) r a r' → th ≠ InRun →
  rt_inv MDestroy th r'.
Proof.
  intros [Hr He Hst Hl Hg] Ha Hs Hth. assert (reached r') as Hr' by (by eapply reached_step).
  unfold dtor_action in Ha. unfold rt_step in Hs.
  destruct (stage r) eqn:E; [..|destruct (dtor (pool_ r)); try done]; injection Ha as <-;
    simpl in Hs; rewrite E in Hs.
  1: destruct (unused r); [|done].
  1,2: apply on_io_ok in Hs as (io & io' & Eio & Hio & ->); split; simpl; try done;
    intros io2 [= <-] _; rewrite (call_keeps_loop _ _ _ Hio); try done; by apply Hl.
  1: injection Hs as <-; by split.
  all: apply on_pool_ok in Hs as (q & Hq & ->); pose proof (dtor_frame _ _ Hq) as Hf;
    split; simpl; rewrite ?E; try done; congruence || (intros; by apply Hg).
Qed.

Lemma reached_alive r : reached r → stage r = Alive → ∃ io, io_ctx_ r = Some io.
Proof.
  intros (r0 & ls & Hn & Hr) Hst. destruct (io_ctx_ r) as [io|] eqn:E; [by eauto|].
  pose proof (io_exists _ _ _ _ _ _ _ Hn Hr E). congruence.
Qed.

(** *** The runtime *)

Lemma rt_keep s r :
  RtInv s → rt s = Some r → mpc s ≠ MTerminated →
  before_rt (mpc s) = false ∧ rt_inv (mpc s) (io_thread s) r.
Proof.
  intros [Hr _ _ _] Er Hm. specialize (Hr Hm). destruct (before_rt (mpc s)); [naive_solver congruence|].
  destruct Hr as (r1 & E & Hi). split; [done|]. congruence.
Qed.

(** Steps of the other threads leave [main] where it is. *)
Lemma rt_inv_other s s' r' :
  RtInv s → before_rt (mpc s) = false → mpc s' = mpc s → rt s' = Some r' →
  rt_inv (mpc s) (io_thread s') r' → (joined_io (mpc s) = true → io_thread s' = Finished) →
  (mpc s = MThread → io_thread s' = NoThread) → RtInv s'.
Proof.
  intros [Hr Ht Hj Hc] Hb Em Er Hi Hjo Hth. split; rewrite ?Em; try done.
  intros _. rewrite Hb. by exists r'.
Qed.

Lemma io_running s :
  RtInv s → io_thread s = Ready ∨ io_thread s = InRun →
  joined_io (mpc s) = false ∧ mpc s ≠ MThread ∧ match mpc s with MExited _ => False | _ => True end ∨
  mpc s = MTerminated ∨ mpc s = MExited 1.
Proof.
  intros [Hr Ht Hj Hc] Hor. destruct (decide (mpc s = MTerminated)); [by right; left|].
  destruct (joined_io (mpc s)) eqn:Ej.
  { specialize (Hj eq_refl). destruct Hor; congruence. }
  destruct (mpc s) as [| | | | | | | | |code|] eqn:Em; try (by left).
  - specialize (Ht eq_refl). destruct Hor; congruence.
  - destruct (Hc code eq_refl) as [->| ->]; [done|by right; right].
Qed.

(** The io_context moves under a thread that is inside [run()], or enters it. *)
Lemma rt_inv_running s s' r r' b :
  RtInv s → mpc s ≠ MTerminated → io_thread s = Ready ∨ io_thread s = InRun → rt s = Some r →
  rt_step (λ _, []) r (RIo None b) r' →
  mpc s' = mpc s ∨ mpc s' = MTerminated → rt s' = Some r' → io_thread s' = InRun → RtInv s'.
Proof.
  intros HI Hm Hth Er Hs Em Er' Eth. destruct (rt_keep _ _ HI Er Hm) as [Hb Hi].
  destruct Em as [Em|Em].
  - destruct (io_running _ HI Hth) as [(Hj & Ht & Hx)|[?|E]]; [|done|by rewrite E in Hb].
    eapply rt_inv_other; rewrite ?Eth; try done; [|by rewrite Hj]. by eapply rt_inv_loop.
  - split; rewrite Em; done.
Qed.

Lemma rt_inv_call_main s s' r r' b :
  RtInv s → mpc s ≠ MTerminated → rt s = Some r → rt_step (λ _, []) r (RIo None b) r' →
  b ≠ ALoop → b ≠ ACallRun → before_rt (mpc s) = false →
  match mpc s' with MStopStore | MStopWake | MJoin => True | _ => False end →
  rt s' = Some r' → io_thread s' = io_thread s → RtInv s'.
Proof.
  intros HI Hm Er Hs H1 H2 Hb Hp Er' Eth. destruct (rt_keep _ _ HI Er Hm) as [_ Hi].
  split; destruct (mpc s') eqn:Em; try done; intros _; simpl; exists r'; rewrite Eth;
    (split; [done|]); by eapply rt_inv_call.
Qed.

Lemma rts_main s s' addr :
  RtInv s → mpc s ≠ MTerminated → main_thread nw addr s = Some (Ok s') → RtInv s'.
Proof.
  intros HI Hm H. pose proof HI as [Hr Ht Hj Hc]. specialize (Hr Hm). unfold main_thread in H.
  destruct (mpc s) eqn:Hp; try done; simpl in Hr.
  - destruct (make_listen_socket port (sys s)) as [fd o]. injection H as <-.
    destruct (fd <? 0); split; simpl; try done. intros code [= <-]. by right.
  - injection H as H. apply outcome_bind_ok in H as (v & Hn & H). destruct Hr as [Hr Hth].
    destruct v as [code|r]; injection H as <-; split; simpl; try done.
    intros _. exists r. split; [done|]. unfold new_runtime in Hn.
    pose proof Hn as Hn0. apply outcome_bind_ok in Hn0 as ([code|c] & Hc0 & [= <-]).
    split; simpl; try done.
    + exists (Runtime (new_pool nw 0) (Some (fresh_sys c)) Alive ∅), []. split; [done|constructor].
    + by intros io [= <-] _.
  - injection H as <-. destruct Hr as (r & Er & [H1 H2 H3 H4 H5]).
    split; simpl; try done. intros _. exists r. split; [done|]. split; try done.
    intros io E _. apply H4; [done|]. by rewrite Ht.
  - apply on_rt_ok in H as (r & r' & Er & Hs & ->). by eapply rt_inv_call_main; rewrite ?Hp.
  - apply on_rt_ok in H as (r & r' & Er & Hs & ->). by eapply rt_inv_call_main; rewrite ?Hp.
  - apply on_rt_ok in H as (r & r' & Er & Hs & ->). by eapply rt_inv_call_main; rewrite ?Hp.
  - destruct Hr as (r & Er & Hi). destruct (io_thread s) eqn:Eth; try done. injection H as <-.
    split; simpl; rewrite ?Eth; try done. intros _. exists r. split; [done|]. by destruct Hi.
  - destruct Hr as (r & Er & Hi). destruct (sys_close (listen_fd s) (sys s)) as [k o].
    injection H as <-. split; simpl; try done. intros _. exists r. split; [done|]. by destruct Hi.
  - destruct Hr as (r & Er & Hi). rewrite Er in H. simpl in H. specialize (Hj eq_refl).
    destruct (dtor_action r) as [a|] eqn:Ea.
    + apply on_rt_ok in H as (r1 & r' & E & Hs & ->). simplify_eq.
      split; simpl; try done. intros _. exists r'. split; [done|].
      eapply rt_inv_dtor; try done. by rewrite Hj.
    + injection H as <-. split; simpl; try done.
      * intros _. exists r. split; [done|]. destruct Hi as [H1 H2 H3 H4 H5]. split; simpl; try done.
        unfold dtor_action in Ea. destruct (stage r); try done. by destruct (dtor (pool_ r)).
      * intros code [= <-]. by left.
Qed.

(** What a turn of the loop does. *)
Lemma receive_signal_ok sg s s' :
  receive_signal sg s = Some s' →
  (sg = None ∧ s' = s) ∨
  ∃ p g q cl, sg = Some (p, g) ∧ agrees p g (accepted s) = true ∧ chain p g = (q, cl) ∧
    s' = Main (match q with XTerminated => MTerminated | _ => mpc s end) (sys s) (listen_fd s)
           (rt s) (io_thread s) (accepted s) (Some (q, cl)) (completions s ++ [(p, g)]) (closed_fds s).
Proof.
  unfold receive_signal. destruct sg as [[p g]|]; [|intros [= <-]; by left].
  destruct (agrees p g (accepted s)) eqn:Ea; [|done]. destruct (chain p g) as [q cl] eqn:Ec.
  intros [= <-]. right. by exists p, g, q, cl.
Qed.

Lemma loop_turn_ok s s' :
  loop_turn s = Some (Ok s') →
  ∃ r r', rt s = Some r ∧ rt_step (λ _, []) r (RIo None ALoop) r' ∧
    receive_signal (new_signal r r') (set_main (mpc s) (sys s) (listen_fd s) (Some r') InRun s) = Some s'.
Proof.
  unfold loop_turn. intros H.
  apply bind_Some in H as (r & Er & H). apply bind_Some in H as (o & Ho & H).
  destruct o as [r'|]; [|done]. apply bind_Some in H as (s1 & H1 & [= <-]). by exists r, r'.
Qed.

Lemma rts_io s s' : RtInv s → mpc s ≠ MTerminated → io_thread_step s = Some (Ok s') → RtInv s'.
Proof.
  intros HI Hm H. unfold io_thread_step in H. destruct (io_thread s) eqn:Eth; try done.
  - apply on_rt_ok in H as (r & r' & Er & Hs & ->). eapply rt_inv_running; eauto.
  - destruct (handler s); [done|].
    apply bind_Some in H as (r & Er & H). destruct (io_ctx_ r) as [io|] eqn:Eio; [|done].
    destruct (decide (loop io = Idle)) as [El|Hl].
    + rewrite El in H. injection H as <-. destruct (rt_keep _ _ HI Er Hm) as [Hb [H1 H2 H3 H4 H5]].
      assert (io_thread s = Ready ∨ io_thread s = InRun) as Hor by auto.
      destruct (io_running _ HI Hor) as [(Hj & Ht & Hx)|[?|E]]; [|done|by rewrite E in Hb].
      eapply rt_inv_other; try done. split; try done. intros io2 E2 _. congruence.
    + assert (loop_turn s = Some (Ok s')) as Hs by (by destruct (loop io)).
      apply loop_turn_ok in Hs as (r1 & r' & E & Hs & Hrec).
      apply receive_signal_ok in Hrec as [[_ ->]|(p & g & q & cl & _ & _ & _ & ->)];
        (eapply (rt_inv_running s); [done|done|auto|done|exact Hs| |done|done]); simpl; [by left|].
      destruct q; auto.
Qed.

Lemma rts_handler s s' addr :
  RtInv s → mpc s ≠ MTerminated → handler_step buf addr s = Some (Ok s') → RtInv s'.
Proof.
  intros HI Hm H. unfold handler_step in H. destruct (io_thread s) eqn:Eth; try done.
  assert (∀ s', mpc s' = mpc s → rt s' = rt s → io_thread s' = io_thread s → RtInv s') as Hsame.
  { intros s1 E1 E2 E3. destruct HI as [Hr Ht Hj Hc]. split; rewrite E1, ?E2, ?E3; done. }
  destruct (handler s) as [[p [fd|]]|]; [| |done].
  - destruct (sys_close fd (sys s)) as [k o]. injection H as <-. by apply Hsame.
  - destruct (xrequest (listen_fd s) buf p) as [rq|]; [|injection H as <-; by apply Hsame].
    apply on_rt_ok in H as (r & r' & Er & Hs & ->). eapply (rt_inv_running s); eauto.
Qed.

Lemma rts_step s a s' : RtInv s → main_step nw buf s a s' → RtInv s'.
Proof.
  intros HI H. unfold main_step, main_act in H. case_decide as Hm; [done|].
  destruct a as [addr| |addr|fd|a].
  - by eapply rts_main.
  - by eapply rts_io.
  - by eapply rts_handler.
  - unfold kernel_accept in H. apply bind_Some in H as (r & Er & H). destruct (_ && _); [|done].
    injection H as <-. by destruct HI.
  - assert (a ≠ ADtor ∧ on_rt (RPool a) (mpc s) (io_thread s) s = Some (Ok s')) as [Ha Hs]
      by (by destruct a).
    apply on_rt_ok in Hs as (r & r' & Er & Hs & ->). destruct (rt_keep _ _ HI Er Hm) as [Hb Hi].
    pose proof HI as [_ Ht Hj _].
    apply (rt_inv_other s _ r'); try done. by eapply rt_inv_worker.
Qed.

Lemma kernel_accept_ok fd s s' :
  kernel_accept fd s = Some (Ok s') →
  started (mpc s) = true ∧ accepted s = None ∧ completions s = [] ∧ (fd ∉ open_fds (sys s)) ∧
  s' = Main (mpc s) (sys_accepted fd (sys s)) (listen_fd s) (rt s) (io_thread s) (Some fd)
         (handler s) (completions s) (closed_fds s).
Proof.
  unfold kernel_accept. intros H. apply bind_Some in H as (r & Er & H).
  destruct (_ && _) eqn:E; [|done]. injection H as <-.
  apply andb_true_iff in E as [E E1%bool_decide_eq_true]. apply andb_true_iff in E as [E _].
  apply andb_true_iff in E as [E _]. apply andb_true_iff in E as [E E2%bool_decide_eq_true].
  apply andb_true_iff in E as [E E3%bool_decide_eq_true]. done.
Qed.

(** *** The chain of operations *)

Lemma follow_snoc p l q cls g :
  follow p l = Some (q, cls) →
  follow p (l ++ [(q, g)]) = Some ((chain q g).1, cls ++ option_list (chain q g).2).
Proof.
  revert p cls. induction l as [|[p' g'] l IH]; intros p cls H; simpl in *.
  - injection H as <- <-. rewrite decide_True by done. simpl. by rewrite app_nil_r.
  - case_decide; [|done]. apply bind_Some in H as ([q2 cls2] & H2 & [= <- <-]).
    rewrite (IH _ _ H2). simpl. by rewrite (assoc (++)).
Qed.

(** The phase after a signal. *)
Lemma phase_ok_chain p cls acc g v :
  phase_ok p cls acc → in_flight p = true → make_io_callback v = Ok g → agrees p g acc = true →
  phase_ok (chain p g).1 (cls ++ option_list (chain p g).2) acc.
Proof.
  intros Hp Hf Hg Ha. destruct g as [r|code|].
  - destruct (callback_value _ _ r Hg eq_refl) as [-> Hr]. destruct p; try done; simpl in *.
    + apply bool_decide_eq_true in Ha. unfold accept_handler. rewrite (proj2 (Z.ltb_ge _ _) Hr).
      simpl. by rewrite Hp.
    + destruct Hp as [-> ->]. unfold recv_handler. destruct (_ <=? 0); simpl; [by eexists|done].
    + destruct Hp as [-> ->]. by eexists.
  - destruct p; try done; simpl in *; destruct_and?; by subst.
  - destruct p; try done; simpl in *; destruct_and?; by subst.
Qed.

(** Steps that the chain does not see. *)
Lemma chain_frame s s' p cls :
  ChainInv s p cls → mpc s ≠ MTerminated →
  mpc s' = MTerminated ∨ started (mpc s') = started (mpc s) →
  accepted s' = accepted s → handler s' = handler s → completions s' = completions s →
  closed_fds s' = closed_fds s → (handler s ≠ None → io_thread s' = InRun) →
  (∀ r' io', rt s' = Some r' → io_ctx_ r' = Some io' →
     (∃ r io, rt s = Some r ∧ io_ctx_ r = Some io ∧ delivered io' = delivered io ∧
        ∀ st, Inv st io → Inv st io') ∨
     (delivered io' = [] ∧ Inv [] io' ∧ started (mpc s) = false)) →
  ChainInv s' p cls.
Proof.
  intros [H1 H2 H3 H4 H5 H6] Hm Hst Ea Eh Ec El Hth Hio.
  split; rewrite ?Ea, ?Eh, ?Ec, ?El; try done.
  - intros Hm' r' io' Er' Eio'. destruct Hst as [?|Hst]; [done|]. unfold in_ring.
    rewrite Hst, Eh. destruct (Hio _ _ Er' Eio') as [(r & io & Er & Eio & -> & Hinv)|(-> & Hi & E)].
    + destruct (H4 Hm _ _ Er Eio) as [-> HI]. split; [done|by apply Hinv].
    + destruct (H5 E Hm) as (-> & _ & _). by rewrite E.
  - intros E Hm'. destruct Hst as [?|Hst]; [done|]. apply H5; [congruence|done].
Qed.

(** An action on the runtime that neither turns the loop nor submits an operation. *)
Lemma chain_rt s s' r r' a p cls :
  ChainInv s p cls → mpc s ≠ MTerminated → rt s = Some r → rt_step (λ _, []) r a r' →
  (∀ b, io_part a = Some b → b ≠ ALoop ∧ started_by b = None) →
  mpc s' = MTerminated ∨ started (mpc s') = started (mpc s) → rt s' = Some r' →
  accepted s' = accepted s → handler s' = handler s → completions s' = completions s →
  closed_fds s' = closed_fds s → (handler s ≠ None → io_thread s' = InRun) → ChainInv s' p cls.
Proof.
  intros HC Hm Er Hs Hb Hst Er' Ea Eh Ec El Hth. eapply chain_frame; try done.
  intros r2 io' E2 Eio'. left. assert (r2 = r') as -> by congruence.
  apply rt_step_acts in Hs as [_ Hio]. destruct (Hio _ Eio') as (io & Eio & Hstep).
  exists r, io. split_and!; [done..| |].
  - destruct (io_part a) as [b|] eqn:Eb; [|by subst].
    destruct (Hb b eq_refl) as [Hl _]. by eapply call_keeps_delivered.
  - intros st HI. destruct (io_part a) as [b|] eqn:Eb; [|by subst].
    destruct (Hb b eq_refl) as [_ Hl]. pose proof (io_inv_step _ _ _ _ HI Hstep) as HI'.
    rewrite Hl in HI'. simpl in HI'. by rewrite app_nil_r in HI'.
Qed.

(** An operation of the chain is submitted. *)
Lemma chain_submit s s' r r' rq p cls addr :
  ChainInv s p cls → mpc s ≠ MTerminated → rt s = Some r →
  rt_step (λ _, []) r (RIo None (ASubmit rq p addr)) r' →
  in_ring s p = [] → in_ring s' p = [p] → rt s' = Some r' → started (mpc s') = true →
  accepted s' = accepted s → handler s' = None → completions s' = completions s →
  closed_fds s' = cls → ChainInv s' p cls.
Proof.
  intros [H1 H2 H3 H4 H5 H6] Hm Er Hs Hr Hr' Er' Hst Ea Eh Ec El.
  split; rewrite ?Ea, ?Eh, ?Ec; try done; [|congruence].
  intros _ r2 io' E2 Eio'. assert (r2 = r') as -> by congruence.
  apply rt_step_acts in Hs as [_ Hio]. destruct (Hio _ Eio') as (io & Eio & Hstep). simpl in Hstep.
  destruct (H4 Hm _ _ Er Eio) as [Hd HI]. pose proof (io_inv_step _ _ _ _ HI Hstep) as HI'.
  simpl in HI'. rewrite Hr, app_nil_r in HI'. rewrite Hr'. split; [|done].
  rewrite <- Hd. by eapply call_keeps_delivered.
Qed.

(** A turn of the loop. *)
Lemma chain_turn s s' p cls :
  ChainInv s p cls → mpc s ≠ MTerminated → handler s = None → loop_turn s = Some (Ok s') →
  ∃ q cls', ChainInv s' q cls'.
Proof.
  intros HC Hm Hh H. apply loop_turn_ok in H as (r & r' & Er & Hs & Hrec).
  pose proof HC as [H1 H2 H3 H4 H5 H6]. rewrite Hh in H3.
  pose proof Hs as (_ & io & io' & Eio & Hstep & Er')%io_call.
  destruct (H4 Hm _ _ Er Eio) as [Hd HI]. pose proof (io_inv_step _ _ _ _ HI Hstep) as HI'.
  simpl in HI'. rewrite app_nil_r in HI'.
  assert (new_signal r r' = if decide (length (delivered io) < length (delivered io'))%nat
                            then last (delivered io') else None) as Hsig
    by (unfold new_signal; by rewrite Eio, Er').
  destruct (loop_delivers _ _ Hstep) as [Hd'|(p' & g & v & Hd' & Hin & Hg)].
  - rewrite Hd', decide_False in Hsig by lia. rewrite Hsig in Hrec. injection Hrec as <-.
    exists p, cls. eapply chain_frame; try done; [by right|].
    simpl. intros r2 io2 [= <-] E2. rewrite Er' in E2. injection E2 as <-. left.
    exists r, io. split_and!; try done. intros st Hst.
    pose proof (io_inv_step _ _ _ _ Hst Hstep) as X. simpl in X. by rewrite app_nil_r in X.
  - rewrite Hd', length_app, decide_True, last_snoc in Hsig by (simpl; lia).
    rewrite Hsig in Hrec.
    apply receive_signal_ok in Hrec as [[? _]|(p2 & g2 & q & cl & [= <- <-] & Ha & Hc & ->)]; [done|].
    assert (p' = p ∧ in_flight p = true ∧ in_ring s p = [p]) as (-> & Hf & Hring).
    { destruct HI as [_ _ _ _ HI]. rewrite Hd in HI. apply Permutation_app_inv_l in HI.
      rewrite <- HI in Hin. unfold in_ring in *. rewrite Hh in *.
      destruct (started (mpc s)); [|by apply elem_of_nil in Hin].
      destruct (in_flight p); [|by apply elem_of_nil in Hin].
      by apply list_elem_of_singleton in Hin. }
    pose proof (phase_ok_chain _ _ _ _ _ H2 Hf Hg Ha) as Hok. rewrite Hc in Hok. simpl in Hok.
    pose proof (follow_snoc _ _ _ _ g H1) as Hfo. rewrite Hc in Hfo. simpl in Hfo.
    exists q, (cls ++ option_list cl). split; simpl; [done|done| | | |done].
    + by rewrite H3.
    + intros Hm' r2 io2 [= <-] E2. rewrite Er' in E2. injection E2 as <-. split; [congruence|].
      unfold in_ring. simpl. rewrite fmap_app. simpl. rewrite Hring in HI'.
      destruct (started match q with XTerminated => _ | _ => _ end); by rewrite app_nil_r.
    + intros Hst Hm'. exfalso. unfold in_ring in Hring. destruct (started (mpc s)) eqn:E; [|done].
      destruct q; simpl in Hst; congruence.
Qed.

Lemma chain_main s s' addr p cls :
  RtInv s → ChainInv s p cls → mpc s ≠ MTerminated → main_thread nw addr s = Some (Ok s') →
  ChainInv s' p cls.
Proof.
  intros HR HC Hm H. pose proof HC as [H1 H2 H3 H4 H5 H6]. pose proof HR as [Hr Ht Hj Hcode].
  specialize (Hr Hm). unfold main_thread in H.
  assert (∀ s', mpc s' = MTerminated ∨ started (mpc s') = started (mpc s) → rt s' = rt s →
    accepted s' = accepted s → handler s' = handler s → completions s' = completions s →
    closed_fds s' = closed_fds s → (handler s ≠ None → io_thread s' = InRun) → ChainInv s' p cls) as Hsame.
  { intros s1 E0 E1 E2 E3 E4 E5 E6. eapply chain_frame; try done.
    intros r io Er Eio. left. exists r, io. split_and!; try done. congruence. }
  assert (started (mpc s) = false → handler s = None) as Hno by (intros E; by apply (H5 E Hm)).
  assert (io_thread s ≠ InRun → handler s = None) as Hno2.
  { intros E. destruct (handler s) eqn:Eh; [|done]. destruct E. by apply H6. }
  destruct (mpc s) eqn:Hp; try done; simpl in Hr, Hno.
  - destruct (make_listen_socket port (sys s)) as [fd o]. injection H as <-.
    apply Hsame; simpl; try done; [right; by destruct (fd <? 0)|]. intros E. by destruct E; apply Hno.
  - injection H as H. apply outcome_bind_ok in H as (v & Hn & H).
    destruct v as [code|r]; injection H as <-.
    { apply Hsame; simpl; try done; [by left|]. intros E. by destruct E; apply Hno. }
    eapply chain_frame; simpl; try done; rewrite ?Hp; try done;
      [by right|intros E; by destruct E; apply Hno|].
    intros r' io' [= <-] Eio. right. unfold new_runtime in Hn.
    apply outcome_bind_ok in Hn as ([code|c] & Hc0 & [= <-]). injection Eio as <-.
    split_and!; [done| |done]. by eapply io_inv_init.
  - injection H as <-. apply Hsame; simpl; try done; [by right|]. intros E. by destruct E; apply Hno.
  - apply on_rt_ok in H as (r & r' & Er & Hs & ->). destruct (H5 eq_refl Hm) as (E1 & E2 & E3).
    rewrite E1 in H1. injection H1 as <- <-.
    eapply (chain_submit s _ r r'); try done; unfold in_ring; simpl; rewrite ?Hp, ?E2; try done.
    by rewrite E2 in H3.
  - apply on_rt_ok in H as (r & r' & Er & Hs & ->).
    eapply (chain_rt s _ r r'); try done; simpl; rewrite ?Hp; auto. by intros b [= <-].
  - apply on_rt_ok in H as (r & r' & Er & Hs & ->).
    eapply (chain_rt s _ r r'); try done; simpl; rewrite ?Hp; auto. by intros b [= <-].
  - destruct (io_thread s) eqn:Eth; try done. injection H as <-. apply Hsame; simpl; auto.
    intros E. by destruct E; apply Hno2.
  - destruct (sys_close (listen_fd s) (sys s)) as [k o]. injection H as <-. apply Hsame; simpl; auto.
  - apply bind_Some in H as (r & Er & H). specialize (Hj eq_refl). rewrite Hj in Hno2.
    destruct (dtor_action r) as [a|] eqn:Ea.
    + apply on_rt_ok in H as (r1 & r' & E & Hs & ->). assert (r1 = r) as -> by congruence.
      eapply (chain_rt s _ r r'); try done; simpl; rewrite ?Hp; auto.
      intros b Hb. unfold dtor_action in Ea. destruct (stage r); simplify_eq/=; try done.
      destruct (dtor (pool_ r)); by simplify_eq/=.
    + injection H as <-. apply Hsame; simpl; auto.
Qed.

Lemma chain_step s a s' p cls :
  RtInv s → ChainInv s p cls → main_step nw buf s a s' → ∃ q cls', ChainInv s' q cls'.
Proof.
  intros HR HC H. unfold main_step, main_act in H. case_decide as Hm; [done|].
  pose proof HC as [H1 H2 H3 H4 H5 H6]. destruct a as [addr| |addr|fd|a].
  - exists p, cls. by eapply chain_main.
  - unfold io_thread_step in H. destruct (io_thread s) eqn:Eth; try done.
    + apply on_rt_ok in H as (r & r' & Er & Hs & ->). exists p, cls.
      eapply (chain_rt s _ r r'); try done; [|by right]. by intros b [= <-].
    + destruct (handler s) eqn:Eh; [done|].
      apply bind_Some in H as (r & Er & H). destruct (io_ctx_ r) as [io|] eqn:Eio; [|done].
      destruct (decide (loop io = Idle)) as [El|Hl].
      * rewrite El in H. injection H as <-. exists p, cls.
        eapply (chain_frame s); simpl; try done; [by right|].
        intros r2 io2 E2 Eio2. left. by exists r2, io2.
      * apply (chain_turn s s' p cls); try done. by destruct (loop io).
  - unfold handler_step in H. destruct (io_thread s) eqn:Eth; try done.
    destruct (handler s) as [[q [fd|]]|] eqn:Eh; [| |done]; destruct H3 as [-> H3];
      (assert (started (mpc s) = true) as Hst
         by (destruct (started (mpc s)) eqn:E; [done|]; by destruct (H5 eq_refl Hm) as (_ & ? & _))).
    + destruct (sys_close fd (sys s)) as [k o]. injection H as <-. exists p, cls.
      split; simpl; rewrite ?Hst; try done; [by rewrite app_nil_r|].
      unfold in_ring in *. simpl. by rewrite Eh in H4.
    + simpl in H3. rewrite app_nil_r in H3. exists p, cls.
      destruct (xrequest (listen_fd s) buf p) as [rq|] eqn:Eq.
      * apply on_rt_ok in H as (r & r' & Er & Hs & ->).
        assert (in_flight p = true) as Hf by (by destruct p).
        eapply (chain_submit s _ r r'); try done; unfold in_ring; simpl; by rewrite ?Hst, ?Eh, ?Hf.
      * injection H as <-. assert (in_flight p = false) as Hf by (by destruct p).
        split; simpl; rewrite ?Hst; try done.
        unfold in_ring in *. simpl. by rewrite Hf, Eh in *.
  - apply kernel_accept_ok in H as (K1 & K2 & K3 & _ & ->).
    exists p, cls. split; simpl; try done; rewrite ?K1; try done.
    rewrite K3 in H1. by injection H1 as <- <-.
  - assert (a ≠ ADtor ∧ on_rt (RPool a) (mpc s) (io_thread s) s = Some (Ok s')) as [Ha Hs]
      by (by destruct a).
    apply on_rt_ok in Hs as (r & r' & Er & Hs & ->). exists p, cls.
    eapply (chain_rt s _ r r'); try done; simpl; auto.
Qed.

(** *** Descriptors *)

Lemma fd_frame s s' :
  FdInv s → holds_socket (mpc s') = holds_socket (mpc s) → sys s' = sys s → listen_fd s' = listen_fd s →
  accepted s' = accepted s → closed_fds s' = closed_fds s → FdInv s'.
Proof.
  intros [H1 H2 H3] E1 E2 E3 E4 E5. split; unfold left_open in *; rewrite ?E1, ?E2, ?E3, ?E4, ?E5; done.
Qed.

Lemma fd_main s s' addr :
  RtInv s → FdInv s → (∃ p cls, ChainInv s p cls) → mpc s ≠ MTerminated →
  main_thread nw addr s = Some (Ok s') → FdInv s'.
Proof.
  intros HR HF (p & cls & HC) Hm H. unfold main_thread in H.
  destruct (mpc s) eqn:Hp; try done.
  - destruct HC as [_ _ _ _ H5 _]. rewrite Hp in H5. destruct (H5 eq_refl Hm) as (_ & _ & Ea).
    destruct HF as [_ Ho _]. unfold left_open in Ho. rewrite Hp, Ea in Ho. simpl in Ho.
    assert (open_fds (sys s) = open_fds o0) as Ho' by set_solver.
    pose proof (listen_socket_fresh port (sys s)) as Hl.
    destruct (make_listen_socket port (sys s)) as [fd o]. injection H as <-. rewrite Ho' in Hl.
    destruct Hl as [(G0 & G1 & G2 & G3)|(-> & G2)].
    + rewrite (proj2 (Z.ltb_ge _ _) G0). split; unfold left_open; simpl; rewrite ?Ea; try done.
      rewrite G2. set_solver.
    + split; unfold left_open; simpl; rewrite ?Ea; try done. rewrite G2. set_solver.
  - injection H as H. apply outcome_bind_ok in H as ([code|r] & _ & [= <-]);
      by apply (fd_frame s); simpl; rewrite ?Hp.
  - injection H as <-. by apply (fd_frame s); simpl; rewrite ?Hp.
  - apply on_rt_ok in H as (r & r' & _ & _ & ->). by apply (fd_frame s); simpl; rewrite ?Hp.
  - apply on_rt_ok in H as (r & r' & _ & _ & ->). by apply (fd_frame s); simpl; rewrite ?Hp.
  - apply on_rt_ok in H as (r & r' & _ & _ & ->). by apply (fd_frame s); simpl; rewrite ?Hp.
  - destruct (io_thread s); try done. injection H as <-. by apply (fd_frame s); simpl; rewrite ?Hp.
  - destruct (sys_close (listen_fd s) (sys s)) as [k o] eqn:Ec. injection H as <-.
    apply law_close in Ec as [Ho _]. destruct HF as [H1 H2 H3]. rewrite Hp in H1, H2. simpl in *.
    destruct (H1 eq_refl) as (_ & Hn & _ & Ha).
    assert (listen_fd s ∉ left_open s) as Hl.
    { unfold left_open. destruct (accepted s) as [c|]; [|set_solver]. case_decide; set_solver. }
    split; simpl; try done. rewrite Ho, H2. unfold left_open in *. simpl. set_solver.
  - apply bind_Some in H as (r & Er & H). destruct (dtor_action r) as [a|].
    + apply on_rt_ok in H as (r1 & r' & _ & _ & ->). by apply (fd_frame s); simpl; rewrite ?Hp.
    + injection H as <-. by apply (fd_frame s); simpl; rewrite ?Hp.
Qed.

(** A handler runs while [main] holds the listening socket. *)
Lemma running_holds s :
  RtInv s → mpc s ≠ MTerminated → io_thread s = InRun → rt s ≠ None → holds_socket (mpc s) = true.
Proof.
  intros HI Hm Hth Hrt. destruct (rt s) as [r|] eqn:Er; [|done].
  destruct (rt_keep _ _ HI Er Hm) as [Hb _].
  destruct (io_running s HI (or_intror Hth)) as [(Hj & _ & Hx)|[?|E]]; [|done|by rewrite E in Hb].
  by destruct (mpc s).
Qed.

Lemma fd_step s a s' :
  RtInv s → FdInv s → (∃ p cls, ChainInv s p cls) → main_step nw buf s a s' → FdInv s'.
Proof.
  intros HR HF HC H. unfold main_step, main_act in H. case_decide as Hm; [done|].
  destruct a as [addr| |addr|fd|a].
  - by eapply fd_main.
  - unfold io_thread_step in H. destruct (io_thread s) eqn:Eth; try done.
    + apply on_rt_ok in H as (r & r' & _ & _ & ->). by apply (fd_frame s).
    + destruct (handler s); [done|]. apply bind_Some in H as (r & Er & H).
      destruct (io_ctx_ r) as [io|]; [|done].
      assert (s' = set_main (mpc s) (sys s) (listen_fd s) (rt s) Finished s ∨ loop_turn s = Some (Ok s'))
        as [->|Ht] by (destruct (loop io); auto; by injection H as <-; left); [by apply (fd_frame s)|].
      apply loop_turn_ok in Ht as (r1 & r' & E & Hs & Hrec).
      apply receive_signal_ok in Hrec as [[_ ->]|(p & g & q & cl & _ & _ & _ & ->)];
        apply (fd_frame s); try done. simpl.
      assert (holds_socket (mpc s) = true) as Hh by (apply running_holds; try done; congruence).
      rewrite Hh. by destruct q.
  - unfold handler_step in H. destruct (io_thread s) eqn:Eth; try done.
    destruct (handler s) as [[q [fd|]]|] eqn:Eh; [| |done].
    + destruct (sys_close fd (sys s)) as [k o] eqn:Ec. injection H as <-.
      apply law_close in Ec as [Ho Hli]. destruct HC as (p & cls & [H1 H2 H3 H4 H5 H6]).
      rewrite Eh in H3. destruct H3 as [-> H3]. simpl in H3.
      assert (accepted s = Some fd ∧ closed_fds s = []) as [Ea Ecl].
      { rewrite <- H3 in H2. assert (∀ l, l ++ [fd] ≠ []) as Hne by (by intros []).
        destruct p as [|c|c n| | |]; simpl in H2; try (by apply Hne in H2);
          try (by destruct H2 as [_ H2%Hne]).
        destruct H2 as (c & Ea & E). destruct (closed_fds s) as [|x l]; simpl in E.
        - by injection E as <-.
        - injection E as _ E. by apply app_eq_nil in E as [_ ?]. }
      assert (holds_socket (mpc s) = true) as Hh.
      { apply running_holds; try done. intros E. destruct HR as [Hr _ _ _]. specialize (Hr Hm).
        destruct (before_rt (mpc s)); [by destruct Hr; congruence|]. destruct Hr as (r & ? & _). congruence. }
      destruct HF as [F1 F2 F3]. destruct (F1 Hh) as (L0 & L1 & L2 & L3). rewrite Hh in F2.
      unfold left_open in F2. rewrite Ea, Ecl in *. rewrite decide_False in F2 by set_solver.
      pose proof (F3 fd eq_refl) as Hfd. assert (fd ≠ listen_fd s) as Hne by congruence.
      split; unfold left_open; simpl; rewrite ?Hh, ?Ea, ?Ecl; simpl.
      * intros _. rewrite Hli. split_and!; try done. set_solver.
      * rewrite decide_True by (by left). rewrite Ho, F2. set_solver.
      * by intros c [= <-].
    + destruct (xrequest (listen_fd s) buf q).
      * apply on_rt_ok in H as (r1 & r' & _ & _ & ->). by apply (fd_frame s).
      * injection H as <-. by apply (fd_frame s).
  - apply kernel_accept_ok in H as (K1 & K2 & K3 & K4 & ->). destruct HC as (p & cls & [C1 C2 C3 C4 C5 C6]).
    assert (closed_fds s = []) as Ecl.
    { rewrite K3 in C1. injection C1 as <- <-. simpl in C2.
      destruct (handler s) as [[q cl]|]; [|congruence]. destruct C3 as [_ C3].
      by apply app_eq_nil in C3 as [? _]. }
    destruct HF as [F1 F2 F3]. unfold left_open in F2. rewrite K2 in F2.
    destruct (law_accepted fd (sys s)) as [A1 A2].
    split; unfold left_open; simpl; rewrite ?Ecl.
    + intros Hh. destruct (F1 Hh) as (L0 & L1 & L2 & _). rewrite A2. split_and!; try done.
      intros [= ->]. apply K4. rewrite F2, Hh. set_solver.
    + rewrite A1, F2, decide_False by set_solver. set_solver.
    + intros c [= <-]. set_solver.
  - assert (on_rt (RPool a) (mpc s) (io_thread s) s = Some (Ok s')) as Hs by (by destruct a).
    apply on_rt_ok in Hs as (r & r' & _ & _ & ->). by apply (fd_frame s).
Qed.

Lemma main_inv_init : MainInv (main_init o0).
Proof.
  split.
  - by split.
  - split; unfold left_open; simpl; try done. set_solver.
  - exists XAccept, []. by split.
Qed.

Lemma main_inv_step s a s' : MainInv s → main_step nw buf s a s' → MainInv s'.
Proof.
  intros [HR HF HC] Hs. split; [by eapply rts_step|by eapply fd_step|].
  destruct HC as (p & cls & HC). by eapply chain_step.
Qed.

(** *** Undefined behaviour *)

(** The queue of the io_context is full and the kernel does not take it. *)
Definition io_refuses s : Prop :=
  ∃ r io, rt s = Some r ∧ io_ctx_ r = Some io ∧ refuses (the_ring (ctx io)).

Lemma rt_undef s a r u :
  RtInv s → mpc s ≠ MTerminated → rt s = Some r → rt_act (λ _, []) a r = Some (Undef u) →
  (∀ i b, a ≠ RIo (Some i) b) → u = NullDeref ∧ io_refuses s.
Proof.
  intros HI Hm Er Ho Ha. destruct (rt_keep _ _ HI Er Hm) as [_ [(r0 & ls & Hn & Hruns) _ _ _ _]].
  destruct (rt_undef_cause _ _ _ _ _ _ _ _ _ Hn Hruns Ho) as [[-> (io & ? & ?)]|(_ & _ & i & b & -> & _)].
  - split; [done|]. by exists r, io.
  - by destruct (Ha i b).
Qed.

Lemma on_rt_undef s a p th u :
  RtInv s → mpc s ≠ MTerminated → on_rt a p th s = Some (Undef u) → (∀ i b, a ≠ RIo (Some i) b) →
  u = NullDeref ∧ io_refuses s.
Proof.
  intros HI Hm H Ha. unfold on_rt in H. apply bind_Some in H as (r & Er & H).
  apply bind_Some in H as (o & Ho & H). destruct o as [r'|u']; [done|]. injection H as <-.
  by eapply rt_undef.
Qed.

Lemma main_undef s a u :
  RtInv s → main_act nw buf a s = Some (Undef u) → u = NullDeref ∧ io_refuses s.
Proof.
  intros HI H. unfold main_act in H. case_decide as Hm; [done|]. destruct a as [addr| |addr|fd|a].
  - unfold main_thread in H. destruct (mpc s) eqn:Hp; try done;
      try (eapply on_rt_undef; by rewrite ?Hp).
    + by destruct (make_listen_socket port (sys s)).
    + injection H as H. unfold new_runtime, new_ring_impl in H.
      destruct (io_uring_queue_init io_queue_depth) as [n r] eqn:E. apply law_init in E as [Hn _].
      destruct (n <? 0) eqn:E0; zbool; simpl in H; [|done]. by rewrite (ret_code _ Hn) in H.
    + by destruct (io_thread s).
    + by destruct (sys_close (listen_fd s) (sys s)).
    + apply bind_Some in H as (r & Er & H). destruct (dtor_action r) as [a|] eqn:Ea; [|done].
      eapply on_rt_undef; [done|by rewrite Hp|done|]. unfold dtor_action in Ea. intros i b ->.
      destruct (stage r); try done. by destruct (dtor (pool_ r)).
  - unfold io_thread_step in H. destruct (io_thread s) eqn:Eth; try done; [by eapply on_rt_undef|].
    destruct (handler s); [done|]. apply bind_Some in H as (r & Er & H).
    destruct (io_ctx_ r) as [io|] eqn:Eio.
    + assert (loop_turn s = Some (Undef u)) as Ht by (destruct (loop io); done).
      apply bind_Some in Ht as (r1 & Er1 & Ht). apply bind_Some in Ht as (o & Ho & Ht).
      destruct o as [r'|u']; [by apply bind_Some in Ht as (? & _ & ?)|]. injection Ht as <-.
      by eapply rt_undef.
    + destruct (rt_keep _ _ HI Er Hm) as [Hb [Hre _ Hst _ _]].
      assert (stage r = Alive) as Ha.
      { destruct (io_running s HI (or_intror Eth)) as [(Hj & _ & Hx)|[?|E]]; [|done|by rewrite E in Hb].
        by destruct (mpc s). }
      destruct (reached_alive _ Hre Ha). congruence.
  - unfold handler_step in H. destruct (io_thread s); try done.
    destruct (handler s) as [[q [fd|]]|]; [by destruct (sys_close fd (sys s))| |done].
    destruct (xrequest (listen_fd s) buf q); [|done].
    assert (RtInv (set_handler None s)) as HI' by (by destruct HI).
    by apply (on_rt_undef _ _ _ _ _ HI' Hm H).
  - unfold kernel_accept in H. apply bind_Some in H as (r & Er & H). by destruct (_ && _).
  - destruct a; try done; by eapply on_rt_undef.
Qed.

End proof.

(** ** Properties *)

(** (C15) The example program cleans up and is free of undefined behaviour.  In every
    interleaving of [main], [io_thread], the handlers, the workers and the kernel's
    accept: a step is undefined only if it submits to a full queue that
    [io_uring_submit] does not empty; while [main] has the listening socket, it is open
    and listens.  The operations complete in the order of the chain, and its handlers
    close the client's descriptor exactly once when the chain has come to its end and
    never otherwise; the open descriptors are at every moment those from the start,
    the listening socket while [main] has it, and the client's until a handler closes
    it.  The runtime is destroyed only after [run()] has returned on [io_thread].  When
    [main] returns with 1, no runtime was made and the descriptors are those from the
    start (the socket could not be opened); when it returns with 0, the io_context is
    gone, [io_thread] has ended, every worker has left its loop, and the descriptors are
    those from the start and that of a client whose chain was abandoned by [stop]. *)
Theorem main_cleans_up {os ring} `{!Sockets os, !SocketView os, !SocketLaws os}
    `{!Liburing ring, !RingView ring, !LiburingLaws ring} nw buf (o : os) ls
    (s : main_state os ring) :
  runs (main_step nw buf) (main_init o) ls s →
  (∀ a u, main_act nw buf a s = Some (Undef u) → u = NullDeref ∧ io_refuses s) ∧
  (holds_socket (mpc s) = true → (listen_fd s ∉ open_fds o) ∧ listen_fd s ∈ listening (sys s)) ∧
  open_fds (sys s) =
    (if holds_socket (mpc s) then {[listen_fd s]} else ∅) ∪ left_open s ∪ open_fds o ∧
  (∃ p cls, follow XAccept (completions s) = Some (p, cls) ∧
     (handler s = None → closed_fds s = cls) ∧
     if decide (p = XDone) then ∃ c, accepted s = Some c ∧ cls = [c] else cls = []) ∧
  (∀ r, mpc s = MDestroy → rt s = Some r → stage r = Alive → unused r = true) ∧
  (∀ code, mpc s = MExited code → handler s = None ∧ open_fds (sys s) = left_open s ∪ open_fds o ∧
     ((code = 1 ∧ rt s = None ∧ left_open s = ∅) ∨
      (code = 0 ∧ io_thread s = Finished ∧ ∃ r, rt s = Some r ∧ io_ctx_ r = None ∧
         Forall (λ pc, pc = WExit) (workers (pool_ r))))).
Proof.
  intros Hr. assert (MainInv nw o s) as [HR HF (p & cls & HC)].
  { eapply runs_invariant; [apply main_inv_init|by apply main_inv_step|exact Hr]. }
  pose proof HR as [Hrt Ht Hj Hc]. pose proof HF as [F1 F2 F3]. pose proof HC as [C1 C2 C3 C4 C5 C6].
  split_and!.
  - intros a u. by eapply main_undef.
  - intros Hh. naive_solver.
  - done.
  - exists p, cls. split_and!; [done|by intros E; rewrite E in C3|].
    destruct p; simpl in *; naive_solver.
  - intros r Hm Er Hst. destruct (rt_keep nw o s r HR Er) as [_ [_ He _ Hl _]]; [by rewrite Hm|].
    unfold unused. rewrite He. simpl. destruct (io_ctx_ r) as [io|] eqn:Eio; [|done].
    apply bool_decide_eq_true, Hl; [done|]. rewrite Hm in Hj. by rewrite Hj.
  - intros code Hm. rewrite Hm in *. simpl in F2.
    assert (open_fds (sys s) = left_open s ∪ open_fds o) as Ho by set_solver.
    destruct (Hc code eq_refl) as [->| ->].
    + assert (handler s = None) as Eh.
      { destruct (handler s) eqn:E; [|done]. rewrite (Hj eq_refl) in C6. by discriminate C6. }
      split_and!; [done..|]. right. destruct Hrt as (r & Er & [(r0 & ls0 & Hn & Hrr) _ [Hst Hd] _ Hg]); [done|].
      split_and!; [done|by apply Hj|]. exists r. split_and!; [done|by apply Hg|].
      destruct (runtime_projects _ _ _ _ _ _ _ Hn Hrr) as [Hp _].
      by apply (all_exited _ _ _ _ _ Hp).
    + destruct C5 as (_ & Eh & Ea); [done..|]. split_and!; [done..|]. left. destruct Hrt as [? _]; [done|].
      unfold left_open. by rewrite Ea.
Qed.

(** ** Executions *)

Definition demo_os : SimpleSockets.os := SimpleSockets.Os {[0; 1; 2]} ∅ false.
Definition demo_main : main_state SimpleSockets.os SimpleRing.ring := main_init demo_os.

(** The program up to the first event: [run()] waits, and a client is accepted. *)
Definition accepted_acts : list main_action :=
  replicate 3 (XMain 0) ++ replicate 2 XIo ++ [XMain 64; XKernel 5] ++ replicate 3 XIo.

(** [main] stops the loop, joins and returns. *)
Definition leaving_acts : list main_action :=
  replicate 2 (XMain 0) ++ replicate 3 XIo ++ replicate 8 (XMain 0) ++
  replicate 3 (XPool (AWorker 0 0)) ++ replicate 3 (XMain 0).

(** The client is accepted, and [main] stops the loop while the receive is in flight. *)
Definition abandoned_acts : list main_action :=
  accepted_acts ++ [XHandler 128] ++ replicate 2 XIo ++ leaving_acts.

(** The client is served: the receive and the send complete, the last handler closes. *)
Definition served_acts : list main_action :=
  accepted_acts ++ [XHandler 128] ++ replicate 6 XIo ++ [XHandler 64] ++ replicate 6 XIo ++
  [XHandler 0; XHandler 0] ++ replicate 2 XIo ++ leaving_acts.

Definition run_main (ls : list main_action) : main_state SimpleSockets.os SimpleRing.ring :=
  default demo_main (main_exec 1 4096 ls demo_main).

Lemma run_main_runs ls s :
  main_exec 1 4096 ls demo_main = Some s → runs (main_step 1 4096) demo_main ls s.
Proof.
  apply (exec_runs (λ a s, match main_act 1 4096 a s with Some (Ok s') => Some s' | _ => None end)).
  intros u l v. unfold main_step. destruct (main_act 1 4096 l u) as [[?|?]|]; naive_solver.
Qed.

(** In the first run the client's descriptor is left open, in the second it is closed. *)
Lemma main_cleans_up_witness :
  (mpc (run_main abandoned_acts) = MExited 0 ∧
   open_fds (sys (run_main abandoned_acts)) = {[5]} ∪ open_fds demo_os ∧
   ((0 = 1 ∧ rt (run_main abandoned_acts) = None ∧ left_open (run_main abandoned_acts) = ∅) ∨
    (0 = 0 ∧ io_thread (run_main abandoned_acts) = Finished ∧
       ∃ r, rt (run_main abandoned_acts) = Some r ∧ io_ctx_ r = None ∧
       Forall (λ pc, pc = WExit) (workers (pool_ r))))) ∧
  mpc (run_main served_acts) = MExited 0 ∧ closed_fds (run_main served_acts) = [5] ∧
  open_fds (sys (run_main served_acts)) = ∅ ∪ open_fds demo_os.
Proof.
  assert (mpc (run_main abandoned_acts) = MExited 0 ∧ mpc (run_main served_acts) = MExited 0) as [Ea Es].
  { split; vm_compute; reflexivity. }
  assert (left_open (run_main abandoned_acts) = {[5]} ∧ left_open (run_main served_acts) = ∅) as [La Ls].
  { split; vm_compute; reflexivity. }
  assert (runs (main_step 1 4096) demo_main abandoned_acts (run_main abandoned_acts)) as Ra.
  { apply run_main_runs. vm_compute. reflexivity. }
  assert (runs (main_step 1 4096) demo_main served_acts (run_main served_acts)) as Rs.
  { apply run_main_runs. vm_compute. reflexivity. }
  split; [split; [done|]|split; [done|split; [vm_compute; reflexivity|]]].
  - rewrite <- La at 1. apply (main_cleans_up 1 4096 demo_os abandoned_acts _ Ra). exact Ea.
  - rewrite <- Ls. eapply (main_cleans_up 1 4096 demo_os served_acts _ Rs). exact Es.
Defined.

(** [main] relies on its pause: when [io_thread] gets to run only after [rt.stop()], the
    store at the beginning of [run()] undoes the stop, the loop waits for
    completions that never come, and [join] does not return. *)
Definition late_thread_acts : list main_action :=
  replicate 6 (XMain 64) ++ [XKernel 5] ++ replicate 5 XIo ++ [XHandler 128] ++ replicate 7 XIo ++
  [XHandler 64] ++ replicate 6 XIo ++ [XHandler 0; XHandler 0] ++ replicate 4 XIo.

Lemma late_thread_hangs :
  ∃ s, main_exec 1 4096 late_thread_acts demo_main = Some s ∧ mpc s = MJoin ∧
    (∀ addr, main_act 1 4096 (XMain addr) s = None) ∧ main_act 1 4096 XIo s = None ∧
    (∀ addr, main_act 1 4096 (XHandler addr) s = None).
Proof.
  eexists. split; [vm_compute; reflexivity|]. by split_and!.
Qed.
