(* ===== verification/CoroMain.v ===== *)
(** * The coroutine server

    [CoroutineServer] of src/benchmarks/server_coroutine.cpp as a state machine: the thread that
    calls [start()] and [stop()], the threads that these start and join, each with its own
    listening socket and its own io_context, and the coroutines that the event loops resume
    and that submit further operations.  What a session does with its bytes is the
    subject of SessionServers; here a coroutine is what it awaits.

    [running_] is loaded relaxed: after [stop()] has stored [false] a thread may still read
    [true].  The descriptors of accepted clients belong to the sessions and are not counted
    here. *)

From S2P Require Import Prelude MachineInt Completion Uring IoContext IoContextProof IoContextTheorems.
From S2P Require Import ExampleServer.
From stdpp Require Import options.
Local Open Scope Z_scope.

(** Where a thread is in [run_thread]. *)
Inductive thread_pc : Type :=
| TSocket               (** [socket(AF_INET, SOCK_STREAM, 0)] *)
| TReuseAddr            (** [setsockopt(listen_fd, SOL_SOCKET, SO_REUSEADDR, ...)] *)
| TReusePort            (** [setsockopt(listen_fd, SOL_SOCKET, SO_REUSEPORT, ...)] *)
| TBind
| TListen
| TFailed               (** [close(listen_fd)] after a failed [bind] or [listen] *)
| TConstruct            (** [std::make_unique<io_context>(1024)] *)
| TRegister             (** the critical section with [contexts_.push_back] *)
| TStart                (** [start_detached(... accept_loop(listen_fd, *io) ...)] *)
| TCallRun              (** [io->run()] *)
| TRun                  (** inside it *)
| TClose                (** [close(listen_fd)] *)
| TDestroy              (** the destructor of [io] *)
| TDone.

(** What a coroutine awaits. *)
Inductive coro : Type :=
| CAccept
| CRecv (client_fd buf : Z)
| CSend (client_fd buf bytes_sent bytes_to_send : Z).

Definition coro_request (listen_fd : Z) (c : coro) : request :=
  match c with
  | CAccept => RAccept listen_fd
  | CRecv fd buf => RRecv fd (Span buf 4096) 0
  | CSend fd buf k n => RSend fd (Span (buf + k) (n - k)) 0
  end.

#[export] Instance thread_pc_eq_dec : EqDecision thread_pc.
Proof. solve_decision. Defined.

(** Where the thread is that calls [start()] and [stop()]; threads and contexts are
    numbered in the order in which the threads are started. *)
Inductive ctl_pc : Type :=
| KIdle                                (** outside both *)
| KSpawn (k : nat)                     (** [start()]: [k] threads are still to be started *)
| KLock                                (** [stop()]: acquire [mu_] *)
| KStore (todo : list nat)             (** [ctx->stop()] up to its mutex, for the first of [todo] *)
| KWake (i : nat) (todo : list nat)    (** the rest of [ctx->stop()] *)
| KJoin (todo : list nat).             (** [t.join()] *)

Definition coro_queue_depth : Z := 1024.

Section server.
Context {os ring : Type} `{!Sockets os, !Liburing ring}.
Context (port_ : Z) (num_threads_ : nat).

Record thread := Thread {
  tpc : thread_pc;
  tfd : Z;                                (** [listen_fd] *)
  tio : option (io_sys ring coro);        (** [io] *)
}.

Record server := Server {
  kpc : ctl_pc;
  running_ : bool;
  mu_ : bool;                             (** held by [stop()] *)
  contexts_ : list nat;
  threads_ : list nat;
  spawned : list thread;                  (** every thread started so far *)
  ssys : os;                       (** the process table, as far as [run_thread] changes it *)
  terminated : bool;                      (** an exception left a thread *)
}.

Definition new_coro_server (o : os) : server := Server KIdle false false [] [] [] o false.

Definition put (i : nat) (t : thread) (o : os) (s : server) : server :=
  Server (kpc s) (running_ s) (mu_ s) (contexts_ s) (threads_ s) (<[i:=t]> (spawned s)) o
    (terminated s).

Definition set_ctl (p : ctl_pc) (s : server) : server :=
  Server p (running_ s) (mu_ s) (contexts_ s) (threads_ s) (spawned s) (ssys s) (terminated s).

(** An action on the io_context of thread [i], which is then at [p]. *)
Definition on_ctx (i : nat) (a : IoContext.action coro) (p : thread_pc) (s : server) :
    option (outcome server) :=
  t ← spawned s !! i;
  match tio t with
  | None => Some (Undef UseAfterFree)
  | Some io =>
      o ← io_act a io;
      Some (io' ← o; Ok (put i (Thread p (tfd t) (Some io')) (ssys s) s))
  end.

(** The next step of thread [i] in [run_thread]; [b] is what it reads from [running_], [addr]
    what [new] returns. *)
Definition run_thread (i : nat) (b : bool) (addr : Z) (s : server) : option (outcome server) :=
  t ← spawned s !! i;
  let goto p o := Some (Ok (put i (Thread p (tfd t) (tio t)) o s)) in
  match tpc t with
  | TSocket =>
      let '(fd, o) := sys_socket (ssys s) in
      Some (Ok (put i (Thread (if fd <? 0 then TDone else TReuseAddr) fd None) o s))
  | TReuseAddr => let '(_, o) := sys_setsockopt (tfd t) (ssys s) in goto TReusePort o
  | TReusePort => let '(_, o) := sys_setsockopt (tfd t) (ssys s) in goto TBind o
  | TBind =>
      let '(r, o) := sys_bind (tfd t) port_ (ssys s) in goto (if r <? 0 then TFailed else TListen) o
  | TListen =>
      let '(r, o) := sys_listen (tfd t) (ssys s) in goto (if r <? 0 then TFailed else TConstruct) o
  | TFailed => let '(_, o) := sys_close (tfd t) (ssys s) in goto TDone o
  | TConstruct =>
      Some (r ← new_ring_impl coro_queue_depth;
            Ok match r with
               | inl _ => Server (kpc s) (running_ s) (mu_ s) (contexts_ s) (threads_ s) (spawned s)
                            (ssys s) true
               | inr c => put i (Thread TRegister (tfd t) (Some (fresh_sys c))) (ssys s) s
               end)
  | TRegister =>
      if mu_ s then None else
      Some (Ok (Server (kpc s) (running_ s) false (contexts_ s ++ [i]) (threads_ s)
                  (<[i:=Thread TStart (tfd t) (tio t)]> (spawned s)) (ssys s) (terminated s)))
  | TStart =>
      if b then on_ctx i (ASubmit (coro_request (tfd t) CAccept) CAccept addr) TCallRun s
      else if running_ s then None else goto TCallRun (ssys s)
  | TCallRun => on_ctx i ACallRun TRun s
  | TRun =>
      io ← tio t;
      match loop io with
      | Idle => goto TClose (ssys s)
      | _ => on_ctx i ALoop TRun s
      end
  | TClose => let '(_, o) := sys_close (tfd t) (ssys s) in goto TDestroy o
  | TDestroy => Some (Ok (put i (Thread TDone (tfd t) None) (ssys s) s))
  | TDone => None
  end.

(** A coroutine that the event loop of thread [i] has resumed starts the operation [c]. *)
Definition resume (i : nat) (c : coro) (addr : Z) (s : server) : option (outcome server) :=
  t ← spawned s !! i; io ← tio t;
  match tpc t, loop io with
  | TRun, InCallback _ _ => on_ctx i (ASubmit (coro_request (tfd t) c) c addr) TRun s
  | _, _ => None
  end.

Definition call_start (s : server) : option server :=
  match kpc s with
  | KIdle => Some (Server (KSpawn num_threads_) true (mu_ s) (contexts_ s) (threads_ s) (spawned s)
                     (ssys s) (terminated s))
  | _ => None
  end.

Definition call_stop (s : server) : option server :=
  match kpc s with
  | KIdle =>
      if running_ s
      then Some (Server KLock false (mu_ s) (contexts_ s) (threads_ s) (spawned s) (ssys s)
                   (terminated s))
      else Some s
  | _ => None
  end.

(** The thread inside [ctx->stop()] for context [i]: the context's own steps leave the
    thread that runs it where it is. *)
Definition stop_ctx (i : nat) (a : IoContext.action coro) (s : server) : option (outcome server) :=
  t ← spawned s !! i; on_ctx i a (tpc t) s.

(** The next step inside [start()] or [stop()]. *)
Definition ctl_step (s : server) : option (outcome server) :=
  match kpc s with
  | KIdle => None
  | KSpawn 0 => Some (Ok (set_ctl KIdle s))
  | KSpawn (S k) =>
      Some (Ok (Server (KSpawn k) (running_ s) (mu_ s) (contexts_ s)
                  (threads_ s ++ [length (spawned s)]) (spawned s ++ [Thread TSocket 0 None])
                  (ssys s) (terminated s)))
  | KLock =>
      if mu_ s then None else
      Some (Ok (Server (KStore (contexts_ s)) (running_ s) true (contexts_ s) (threads_ s)
                  (spawned s) (ssys s) (terminated s)))
  | KStore (i :: todo) =>
      o ← stop_ctx i AStopStore s; Some (s' ← o; Ok (set_ctl (KWake i todo) s'))
  | KWake i todo =>
      o ← stop_ctx i AStopWake s; Some (s' ← o; Ok (set_ctl (KStore todo) s'))
  | KStore [] =>
      Some (Ok (Server (KJoin (threads_ s)) (running_ s) false [] (threads_ s) (spawned s) (ssys s)
                  (terminated s)))
  | KJoin (i :: todo) =>
      t ← spawned s !! i;
      match tpc t with TDone => Some (Ok (set_ctl (KJoin todo) s)) | _ => None end
  | KJoin [] =>
      Some (Ok (Server KIdle (running_ s) (mu_ s) (contexts_ s) [] (spawned s) (ssys s)
                  (terminated s)))
  end.

Inductive coro_action : Type :=
| CallStart
| CallStop
| Ctl
| InThread (i : nat) (b : bool) (addr : Z)
| Resume (i : nat) (c : coro) (addr : Z).

Definition coro_act (a : coro_action) (s : server) : option (outcome server) :=
  if terminated s then None else
  match a with
  | CallStart => Ok <$> call_start s
  | CallStop => Ok <$> call_stop s
  | Ctl => ctl_step s
  | InThread i b addr => run_thread i b addr s
  | Resume i c addr => resume i c addr s
  end.

Definition coro_server_step (s : server) (a : coro_action) (s' : server) : Prop :=
  coro_act a s = Some (Ok s').

Definition coro_exec : list coro_action → server → option server :=
  exec (λ a s, match coro_act a s with Some (Ok s') => Some s' | _ => None end).

End server.
Arguments server : clear implicits.
Arguments thread : clear implicits.

(** ** The invariant *)

(** Between [socket] and [close]; after [listen]; while [io] exists; after [push_back]. *)
Definition holds_fd (p : thread_pc) : bool :=
  match p with TSocket | TDestroy | TDone => false | _ => true end.
Definition listens_on (p : thread_pc) : bool :=
  match p with TConstruct | TRegister | TStart | TCallRun | TRun | TClose => true | _ => false end.
Definition has_io (p : thread_pc) : bool :=
  match p with TRegister | TStart | TCallRun | TRun | TClose | TDestroy => true | _ => false end.
Definition registered (p : thread_pc) : bool :=
  match p with TStart | TCallRun | TRun | TClose | TDestroy | TDone => true | _ => false end.

Section proof.
Context {os ring : Type} `{!Sockets os, !SocketView os, !SocketLaws os}.
Context `{!Liburing ring, !RingView ring, !LiburingLaws ring}.
Context (port_ : Z) (n : nat) (o0 : os).
Implicit Types (s : server os ring) (t u : thread ring) (ts : list (thread ring)).

(** The open descriptors are those of the beginning and one for each thread that has one. *)
Record Owns (o : os) ts : Prop := {
  ow_base : open_fds o0 ⊆ open_fds o;
  ow_held i t : ts !! i = Some t → holds_fd (tpc t) = true →
    (tfd t ∉ open_fds o0) ∧ tfd t ∈ open_fds o ∧ (listens_on (tpc t) = true → tfd t ∈ listening o);
  ow_inj i j t u : ts !! i = Some t → ts !! j = Some u → holds_fd (tpc t) = true →
    holds_fd (tpc u) = true → tfd t = tfd u → i = j;
  ow_all fd : fd ∈ open_fds o → fd ∈ open_fds o0 ∨
    ∃ i t, ts !! i = Some t ∧ holds_fd (tpc t) = true ∧ tfd t = fd;
}.

Lemma owns_keep o o' ts i t t' :
  Owns o ts → ts !! i = Some t → holds_fd (tpc t') = holds_fd (tpc t) →
  (holds_fd (tpc t) = true → tfd t' = tfd t) →
  open_fds o' = open_fds o → listening o ⊆ listening o' →
  (listens_on (tpc t') = true → listens_on (tpc t) = true ∨ tfd t' ∈ listening o') →
  Owns o' (<[i:=t']> ts).
Proof using Type*.
  intros [Hb Hh Hi Ha] Ht Eh Ef Eo Hl Hn. pose proof (lookup_lt_Some _ _ _ Ht) as Hlt. split.
  - by rewrite Eo.
  - intros j u [(<- & -> & _)|[Hne Hj]]%list_lookup_insert_Some Hu.
    + rewrite Eh in Hu. destruct (Hh _ _ Ht Hu) as (H1 & H2 & H3). rewrite Eo, (Ef Hu) in *.
      split_and!; [done..|]. intros [?|?]%Hn; [set_solver|done].
    + destruct (Hh _ _ Hj Hu) as (H1 & H2 & H3). rewrite Eo. split_and!; [done..|set_solver].
  - intros j k u v [(<- & -> & _)|[Hne Hj]]%list_lookup_insert_Some
      [(<- & -> & _)|[Hne' Hk]]%list_lookup_insert_Some Hu Hv E; [done|..].
    + rewrite Eh in Hu. rewrite (Ef Hu) in E. by eapply Hi.
    + rewrite Eh in Hv. rewrite (Ef Hv) in E. by eapply Hi.
    + by eapply Hi.
  - intros fd. rewrite Eo. intros [?|(j & u & Hj & Hu & E)]%Ha; [by left|right].
    destruct (decide (i = j)) as [<-|Hne].
    + simplify_eq. exists i, t'. rewrite list_lookup_insert_eq by done. rewrite Eh. auto.
    + exists j, u. by rewrite list_lookup_insert_ne.
Qed.

Lemma owns_open o o' ts i t t' :
  Owns o ts → ts !! i = Some t → holds_fd (tpc t) = false →
  holds_fd (tpc t') = true → listens_on (tpc t') = false →
  tfd t' ∉ open_fds o → open_fds o' = {[tfd t']} ∪ open_fds o → listening o' = listening o →
  Owns o' (<[i:=t']> ts).
Proof using Type*.
  intros [Hb Hh Hi Ha] Ht Ec Et' Enl Hf Eo El. pose proof (lookup_lt_Some _ _ _ Ht) as Hlt.
  assert (∀ j u, ts !! j = Some u → holds_fd (tpc u) = true → tfd u ≠ tfd t') as Hne.
  { intros j u Hj Hu E. destruct (Hh _ _ Hj Hu) as (_ & H & _). congruence. }
  split.
  - set_solver.
  - intros j u [(<- & -> & _)|[Hij Hj]]%list_lookup_insert_Some Hu.
    + rewrite Enl, Eo. split_and!; [set_solver..|done].
    + destruct (Hh _ _ Hj Hu) as (H1 & H2 & H3). rewrite Eo, El. split_and!; [done|set_solver|done].
  - intros j k u v [(<- & -> & _)|[Hij Hj]]%list_lookup_insert_Some
      [(<- & -> & _)|[Hik Hk]]%list_lookup_insert_Some Hu Hv E; [done|..|by eapply Hi].
    + by destruct (Hne _ _ Hk Hv).
    + by destruct (Hne _ _ Hj Hu).
  - intros fd. rewrite Eo. intros [->%elem_of_singleton|[?|(j & u & Hj & Hu & E)]%Ha]%elem_of_union;
      [|by left|right].
    + right. exists i, t'. by rewrite list_lookup_insert_eq.
    + exists j, u. rewrite list_lookup_insert_ne; [done|]. intros ->. congruence.
Qed.

Lemma owns_close o o' ts i t t' :
  Owns o ts → ts !! i = Some t → holds_fd (tpc t) = true → holds_fd (tpc t') = false →
  open_fds o' = open_fds o ∖ {[tfd t]} → listening o' = listening o ∖ {[tfd t]} →
  Owns o' (<[i:=t']> ts).
Proof using Type*.
  intros [Hb Hh Hi Ha] Ht Ec Ec' Eo El. pose proof (lookup_lt_Some _ _ _ Ht) as Hlt.
  destruct (Hh _ _ Ht Ec) as (Hnew & _).
  assert (∀ j u, (<[i:=t']> ts) !! j = Some u → holds_fd (tpc u) = true →
    ts !! j = Some u ∧ tfd u ≠ tfd t) as Hoth.
  { intros j u [(<- & -> & _)|[Hne Hj]]%list_lookup_insert_Some Hu; [congruence|].
    split; [done|]. intros E. by destruct (Hne (Hi _ _ _ _ Ht Hj Ec Hu (eq_sym E))). }
  split.
  - set_solver.
  - intros j u Hj Hu. destruct (Hoth _ _ Hj Hu) as [Hj' Hne].
    destruct (Hh _ _ Hj' Hu) as (H1 & H2 & H3). rewrite Eo, El. set_solver.
  - intros j k u v Hj Hk Hu Hv E. destruct (Hoth _ _ Hj Hu) as [Hj' _].
    destruct (Hoth _ _ Hk Hv) as [Hk' _]. by eapply Hi.
  - intros fd. rewrite Eo. intros [[?|(j & u & Hj & Hu & E)]%Ha Hne]%elem_of_difference; [by left|right].
    exists j, u. rewrite list_lookup_insert_ne; [done|]. intros ->. set_solver.
Qed.

Lemma owns_snoc o ts t : Owns o ts → holds_fd (tpc t) = false → Owns o (ts ++ [t]).
Proof.
  intros [Hb Hh Hi Ha] Ht.
  assert (∀ j u, (ts ++ [t]) !! j = Some u → holds_fd (tpc u) = true → ts !! j = Some u) as Hold.
  { intros j u [?|[_ H]]%lookup_app_Some Hu; [done|].
    apply list_lookup_singleton_Some in H as [_ <-]. congruence. }
  split; [done|..].
  - intros j u Hj Hu. eapply Hh; [by apply Hold|done].
  - intros j k u v Hj Hk Hu Hv. apply Hi; auto.
  - intros fd [?|(j & u & Hj & Hu & E)]%Ha; [by left|right]. exists j, u.
    split; [by apply lookup_app_l_Some|done].
Qed.

(** The io_context of a thread exists where the thread uses it, and nobody is inside
    [run()] elsewhere. *)
Definition coro_reached (io : io_sys ring coro) : Prop :=
  ∃ c ls, new_ring_impl coro_queue_depth = Ok (inr c) ∧ runs io_step (fresh_sys c) ls io.

Definition thread_ok t : Prop :=
  if has_io (tpc t)
  then ∃ io, tio t = Some io ∧ coro_reached io ∧ (tpc t ≠ TRun → loop io = Idle)
  else tio t = None.

Definition to_join s : list nat :=
  match kpc s with KJoin todo => todo | _ => threads_ s end.

Definition to_stop s : list nat :=
  match kpc s with KStore todo => todo | KWake i todo => i :: todo | _ => [] end.

Record SInv s : Prop := {
  sv_owns : Owns (ssys s) (spawned s);
  sv_threads : Forall thread_ok (spawned s);
  sv_registered i : i ∈ contexts_ s ++ to_stop s →
    ∃ t, spawned s !! i = Some t ∧ registered (tpc t) = true;
  sv_join i t : spawned s !! i = Some t → tpc t ≠ TDone → i ∈ to_join s;
  sv_flag : match kpc s with
            | KIdle => running_ s = false → threads_ s = []
            | KSpawn _ => running_ s = true
            | _ => running_ s = false
            end;
}.

Lemma sinv_new : SInv (new_coro_server o0).
Proof.
  split; simpl; [|by constructor|by intros i ?%elem_of_nil|done|done].
  split; [done|intros; discriminate..|by left].
Qed.

Lemma sinv_put s i t t' o' m cs :
  SInv s → spawned s !! i = Some t → tpc t ≠ TDone → Owns o' (<[i:=t']> (spawned s)) →
  thread_ok t' → (registered (tpc t) = true → registered (tpc t') = true) →
  (∀ j, j ∈ cs → j ∈ contexts_ s ∨ (j = i ∧ registered (tpc t') = true)) →
  SInv (Server (kpc s) (running_ s) m cs (threads_ s) (<[i:=t']> (spawned s)) o' (terminated s)).
Proof.
  intros [Ho Ht Hr Hj Hf] Hi Hd Ho' Hok Hreg Hcs. pose proof (lookup_lt_Some _ _ _ Hi) as Hlt.
  split; simpl; [done|by apply Forall_insert| | |done].
  - assert (∀ j, j ∈ contexts_ s ++ to_stop s →
      ∃ u, <[i:=t']> (spawned s) !! j = Some u ∧ registered (tpc u) = true) as Hold.
    { intros j (u & Hu & Hru)%Hr. destruct (decide (i = j)) as [<-|Hne].
      - exists t'. rewrite list_lookup_insert_eq by done. simplify_eq. auto.
      - exists u. by rewrite list_lookup_insert_ne. }
    intros j [[Hin|[-> Hrt]]%Hcs|Hin]%elem_of_app; [apply Hold, elem_of_app; by left| |
      apply Hold, elem_of_app; by right].
    exists t'. by rewrite list_lookup_insert_eq.
  - intros j u [(<- & -> & _)|[Hne Hu]]%list_lookup_insert_Some Hu'; by eapply Hj.
Qed.

Lemma on_ctx_ok i a p s s' :
  on_ctx i a p s = Some (Ok s') →
  ∃ t io io', spawned s !! i = Some t ∧ tio t = Some io ∧ io_step io a io' ∧
    s' = put i (Thread p (tfd t) (Some io')) (ssys s) s.
Proof.
  unfold on_ctx. intros H. apply bind_Some in H as (t & Hi & H).
  destruct (tio t) as [io|] eqn:Eio; [|done]. apply bind_Some in H as (o & Ho & H). injection H as H.
  apply outcome_bind_ok in H as (io' & -> & [= <-]). by exists t, io, io'.
Qed.

(** An action on a context that is in use. *)
Lemma sinv_ctx i a p s s' t :
  SInv s → spawned s !! i = Some t → on_ctx i a p s = Some (Ok s') →
  holds_fd p = holds_fd (tpc t) → listens_on p = listens_on (tpc t) → has_io p = true →
  (registered (tpc t) = true → registered p = true) →
  (p = TRun ∨ tpc t ≠ TRun ∧ a ≠ ALoop ∧ a ≠ ACallRun) →
  SInv s'.
Proof using Type*.
  intros HI Hi (t1 & io & io' & Hi1 & Eio & Hs & ->)%on_ctx_ok Hh Hl Hp Hr Hrun.
  assert (t1 = t) as -> by congruence. clear Hi1. pose proof (sv_threads _ HI) as Hts. pose proof (Forall_lookup_1 _ _ _ _ Hts Hi) as Hok.
  unfold thread_ok in Hok. destruct (has_io (tpc t)) eqn:Ht; [|congruence].
  destruct Hok as (io1 & E1 & (c & ls & Hc & Hruns) & Hid). assert (io1 = io) as -> by congruence.
  apply (sinv_put s i t); try done.
  - by intros E; rewrite E in Ht.
  - eapply owns_keep; [apply HI|done..|]. simpl. rewrite Hl. by left.
  - unfold thread_ok. simpl. rewrite Hp. exists io'. split_and!; [done| |].
    + exists c, (ls ++ [a]). split; [done|by econstructor].
    + intros Hne. destruct Hrun as [?|(H1 & H2 & H3)]; [done|].
      rewrite (call_keeps_loop _ _ _ Hs H2 H3). by apply Hid.
  - intros j Hj. by left.
Qed.

(** A step of a thread that leaves its context as it is. *)
Lemma sinv_goto i p o s t :
  SInv s → spawned s !! i = Some t → Owns o (<[i:=Thread p (tfd t) (tio t)]> (spawned s)) →
  tpc t ≠ TDone → has_io p = has_io (tpc t) → (registered (tpc t) = true → registered p = true) →
  (∀ io, tio t = Some io → p ≠ TRun → tpc t = TRun → loop io = Idle) →
  SInv (put i (Thread p (tfd t) (tio t)) o s).
Proof.
  intros HI Hi Ho Hd Hp Hr Hl. apply (sinv_put s i t); try done; [|intros j Hj; by left].
  pose proof (Forall_lookup_1 _ _ _ _ (sv_threads _ HI) Hi) as Hok. unfold thread_ok in *. simpl.
  rewrite Hp. destruct (has_io (tpc t)); [|done]. destruct Hok as (io & E & Hre & Hid).
  exists io. split_and!; [done..|]. intros Hne.
  destruct (decide (tpc t = TRun)) as [Et|]; [by apply Hl|by apply Hid].
Qed.

(** Steps of [run_thread] that open, keep and close the socket. *)
Lemma sinv_set_up i b addr s s' t :
  SInv s → spawned s !! i = Some t →
  match tpc t with TSocket | TReuseAddr | TReusePort | TBind | TListen => True | _ => False end →
  run_thread port_ i b addr s = Some (Ok s') → SInv s'.
Proof using Type*.
  intros HI Hi Hp H. pose proof (sv_owns _ HI) as Ho. unfold run_thread in H. rewrite Hi in H.
  cbn [mbind option_bind] in H. destruct (tpc t) eqn:Ht; try done.
  - destruct (sys_socket (ssys s)) as [fd o] eqn:E. injection H as <-.
    apply law_socket in E as (El & Eok & Efail).
    apply (sinv_put s i t); try done; [by rewrite Ht| | |by rewrite Ht|intros j; by left].
    + destruct (fd <? 0) eqn:Ef; zbool.
      * eapply owns_keep; [done..| | | | |]; rewrite ?Ht; try done; [by rewrite Efail|by rewrite El].
      * destruct (Eok Ef) as [Hnew Eo]. eapply owns_open; try done. by rewrite Ht.
    + unfold thread_ok. simpl. by destruct (fd <? 0).
  - destruct (sys_setsockopt _ _) as [r o] eqn:E. injection H as <-. apply law_setsockopt in E as [Eo El].
    eapply sinv_goto; rewrite ?Ht; try done. eapply owns_keep; [done..| | | | |]; rewrite ?Ht; try done. by rewrite El.
  - destruct (sys_setsockopt _ _) as [r o] eqn:E. injection H as <-. apply law_setsockopt in E as [Eo El].
    eapply sinv_goto; rewrite ?Ht; try done. eapply owns_keep; [done..| | | | |]; rewrite ?Ht; try done. by rewrite El.
  - destruct (sys_bind _ _ _) as [r o] eqn:E. injection H as <-. apply law_bind in E as [Eo El].
    eapply sinv_goto; rewrite ?Ht; try done; [|by destruct (r <? 0)..].
    eapply owns_keep; [done..| | | | |]; rewrite ?Ht; try done; [by destruct (r <? 0)|by rewrite El|by destruct (r <? 0)].
  - destruct (sys_listen _ _) as [r o] eqn:E. injection H as <-. apply law_listen in E as [Eo El].
    eapply sinv_goto; rewrite ?Ht; try done; [|by destruct (r <? 0)..].
    eapply owns_keep; [done..| | | | |]; rewrite ?Ht; try done; [by destruct (r <? 0)| |].
    + rewrite El. by destruct (0 <=? r); [set_solver|].
    + destruct (r <? 0) eqn:Er; [done|]. intros _. right. rewrite El. zbool.
      rewrite (proj2 (Z.leb_le 0 r)) by done. set_solver.
Qed.

Lemma sinv_work i b addr s s' t :
  SInv s → spawned s !! i = Some t →
  match tpc t with TSocket | TReuseAddr | TReusePort | TBind | TListen => False | _ => True end →
  run_thread port_ i b addr s = Some (Ok s') → SInv s'.
Proof using Type*.
  intros HI Hi Hp H. pose proof (sv_owns _ HI) as Ho. unfold run_thread in H. rewrite Hi in H.
  cbn [mbind option_bind] in H.
  assert (∀ p, holds_fd p = holds_fd (tpc t) → listens_on p = listens_on (tpc t) →
    Owns (ssys s) (<[i:=Thread p (tfd t) (tio t)]> (spawned s))) as Hkeep.
  { intros p H1 H2. eapply owns_keep; [done..|]. simpl. rewrite H2. by left. }
  assert (∀ p o r, sys_close (tfd t) (ssys s) = (r, o) → holds_fd (tpc t) = true → holds_fd p = false →
    Owns o (<[i:=Thread p (tfd t) (tio t)]> (spawned s))) as Hclose.
  { intros p o r [Eo El]%law_close H1 H2. by eapply owns_close. }
  destruct (tpc t) eqn:Ht; try done.
  - destruct (sys_close _ _) as [r o] eqn:E. injection H as <-.
    eapply sinv_goto; rewrite ?Ht; try done. by eapply Hclose.
  - injection H as H. apply outcome_bind_ok in H as ([code|c] & Hc & [= <-]).
    + by destruct HI as [H1 H2 H3 H4 H5].
    + apply (sinv_put s i t); rewrite ?Ht; try done; [| |intros j; by left].
      * eapply owns_keep; rewrite ?Ht; try done. by left.
      * exists (fresh_sys c). split_and!; [done| |done]. exists c, []. split; [done|constructor].
  - destruct (mu_ s); [done|]. injection H as <-.
    apply (sinv_put s i t); rewrite ?Ht; try done; [by apply Hkeep| |].
    + pose proof (Forall_lookup_1 _ _ _ _ (sv_threads _ HI) Hi) as Hok. unfold thread_ok in *. simpl.
      rewrite Ht in Hok. destruct Hok as (io & E & Hre & Hid). exists io. split_and!; auto.
    + intros j [?|E%list_elem_of_singleton]%elem_of_app; [by left|by right].
  - destruct b.
    + eapply sinv_ctx; rewrite ?Ht; try done. by right.
    + destruct (running_ s); [done|]. injection H as <-.
      eapply sinv_goto; rewrite ?Ht; try done. by apply Hkeep.
  - eapply sinv_ctx; rewrite ?Ht; try done. by left.
  - apply bind_Some in H as (io & Eio & H). destruct (decide (loop io = Idle)) as [El|El].
    + rewrite El in H. injection H as <-. eapply sinv_goto; rewrite ?Ht; try done; [by apply Hkeep|].
      intros io' E _ _. congruence.
    + assert (on_ctx i ALoop TRun s = Some (Ok s')) as Hs by (by destruct (loop io)).
      eapply sinv_ctx; rewrite ?Ht; try done. by left.
  - destruct (sys_close _ _) as [r o] eqn:E. injection H as <-.
    eapply sinv_goto; rewrite ?Ht; try done. by eapply Hclose.
  - injection H as <-. apply (sinv_put s i t); rewrite ?Ht; try done; [|intros j; by left].
    eapply owns_keep; rewrite ?Ht; done.
Qed.

Lemma sinv_resume i c addr s s' :
  SInv s → resume i c addr s = Some (Ok s') → SInv s'.
Proof using Type*.
  intros HI H. unfold resume in H. apply bind_Some in H as (t & Hi & H).
  apply bind_Some in H as (io & Eio & H). destruct (tpc t) eqn:Ht; try done.
  destruct (loop io); try done. eapply sinv_ctx; rewrite ?Ht; try done. by left.
Qed.

(** [ctx->stop()] *)
Lemma sinv_stop_ctx i a s s' :
  SInv s → stop_ctx i a s = Some (Ok s') → a ≠ ALoop → a ≠ ACallRun →
  SInv s' ∧ kpc s' = kpc s ∧ contexts_ s' = contexts_ s ∧ threads_ s' = threads_ s ∧
  running_ s' = running_ s.
Proof using Type*.
  intros HI H H1 H2. unfold stop_ctx in H. apply bind_Some in H as (t & Hi & H).
  pose proof H as (t1 & io & io' & Hi1 & Eio & _ & Es)%on_ctx_ok. split; [|by subst s'].
  assert (t1 = t) as -> by congruence.
  pose proof (Forall_lookup_1 _ _ _ _ (sv_threads _ HI) Hi) as Hok. unfold thread_ok in Hok.
  destruct (has_io (tpc t)) eqn:Eh; [|congruence].
  eapply sinv_ctx; try done. destruct (decide (tpc t = TRun)); [by left|by right].
Qed.

(** A step that changes no thread. *)
Lemma sinv_frame s s' :
  SInv s → spawned s' = spawned s → ssys s' = ssys s →
  (∀ i, i ∈ contexts_ s' ++ to_stop s' → i ∈ contexts_ s ++ to_stop s) →
  (∀ i t, spawned s !! i = Some t → tpc t ≠ TDone → i ∈ to_join s → i ∈ to_join s') →
  match kpc s' with
  | KIdle => running_ s' = false → threads_ s' = []
  | KSpawn _ => running_ s' = true
  | _ => running_ s' = false
  end → SInv s'.
Proof.
  intros [H1 H2 H3 H4 H5] Es Eo Hc Hj Hf. split; rewrite ?Es, ?Eo; auto.
  intros i t Hi Hd. by eapply Hj, H4.
Qed.

Lemma sinv_spawn k s :
  SInv s → kpc s = KSpawn (S k) →
  SInv (Server (KSpawn k) (running_ s) (mu_ s) (contexts_ s) (threads_ s ++ [length (spawned s)])
          (spawned s ++ [Thread TSocket 0 None]) (ssys s) (terminated s)).
Proof.
  intros [H1 H2 H3 H4 H5] Hk. unfold to_stop, to_join in *. rewrite Hk in *.
  split; simpl; [by apply owns_snoc|apply Forall_app; split; [done|by repeat constructor]| | |done].
  - intros i (t & Ht & Hr)%H3. exists t. split; [by apply lookup_app_l_Some|done].
  - intros i t [Hi|[Hge Hi]]%lookup_app_Some Hd.
    + apply elem_of_app. left. by eapply H4.
    + apply list_lookup_singleton_Some in Hi as [Hi _]. apply elem_of_app. right.
      apply list_elem_of_singleton. lia.
Qed.

Lemma sinv_ctl s s' : SInv s → ctl_step s = Some (Ok s') → SInv s'.
Proof using Type*.
  intros HI H. unfold ctl_step in H. pose proof (sv_flag _ HI) as Hf.
  destruct (kpc s) as [|[|k]| |[|i todo]|i todo|[|i todo]] eqn:Hk; try done.
  - injection H as <-. apply (sinv_frame s); unfold to_stop, to_join; simpl; rewrite ?Hk; try done.
    congruence.
  - injection H as <-. by apply sinv_spawn.
  - destruct (mu_ s); [done|]. injection H as <-.
    apply (sinv_frame s); unfold to_stop, to_join; simpl; rewrite ?Hk; try done. set_solver.
  - injection H as <-. apply (sinv_frame s); unfold to_stop, to_join; simpl; rewrite ?Hk; try done.
    set_solver.
  - apply bind_Some in H as (o & Ho & H). injection H as H. apply outcome_bind_ok in H as (s1 & -> & [= <-]).
    destruct (sinv_stop_ctx _ _ _ _ HI Ho) as (HI1 & E1 & E2 & E3 & E4); [done..|].
    apply (sinv_frame s1); unfold to_stop, to_join; simpl; rewrite ?E1, ?E2, ?E3, ?E4, ?Hk; done.
  - apply bind_Some in H as (o & Ho & H). injection H as H. apply outcome_bind_ok in H as (s1 & -> & [= <-]).
    destruct (sinv_stop_ctx _ _ _ _ HI Ho) as (HI1 & E1 & E2 & E3 & E4); [done..|].
    apply (sinv_frame s1); unfold to_stop, to_join; simpl; rewrite ?E1, ?E2, ?E3, ?E4, ?Hk; try done.
    set_solver.
  - injection H as <-. apply (sinv_frame s); unfold to_stop, to_join; simpl; rewrite ?Hk; done.
  - apply bind_Some in H as (t & Hi & H). destruct (tpc t) eqn:Ht; try done. injection H as <-.
    apply (sinv_frame s); unfold to_stop, to_join; simpl; rewrite ?Hk; try done.
    intros j u Hj Hd [->|?]%elem_of_cons; [congruence|done].
Qed.

Lemma sinv_step s a s' : SInv s → coro_server_step port_ n s a s' → SInv s'.
Proof using Type*.
  intros HI H. unfold coro_server_step, coro_act in H. destruct (terminated s); [done|].
  pose proof (sv_flag _ HI) as Hf. destruct a as [| | |i b addr|i c addr].
  - apply fmap_Some in H as (s1 & H & [= <-]). unfold call_start in H.
    destruct (kpc s) eqn:Hk; try done. injection H as <-.
    apply (sinv_frame s); unfold to_stop, to_join; simpl; rewrite ?Hk; done.
  - apply fmap_Some in H as (s1 & H & [= <-]). unfold call_stop in H.
    destruct (kpc s) eqn:Hk; try done. destruct (running_ s); injection H as <-; [|done].
    apply (sinv_frame s); unfold to_stop, to_join; simpl; rewrite ?Hk; done.
  - by apply (sinv_ctl s).
  - pose proof H as H0. unfold run_thread in H0. apply bind_Some in H0 as (t & Hi & _).
    destruct (tpc t) eqn:Ht; first [by eapply sinv_set_up; [done..|rewrite Ht|done]
                                   |by eapply sinv_work; [done..|rewrite Ht|done]].
  - by eapply sinv_resume.
Qed.

(** ** Undefined behaviour *)

(** The queue of some thread's context is full and the kernel does not take it. *)
Definition ctx_refuses s : Prop :=
  ∃ i t io, spawned s !! i = Some t ∧ tio t = Some io ∧ refuses (the_ring (ctx io)).

Lemma coro_ctx_undef i a p s (u : ub) t :
  SInv s → spawned s !! i = Some t → on_ctx i a p s = Some (Undef u) →
  (u = NullDeref ∧ ctx_refuses s) ∨ (u = UseAfterFree ∧ has_io (tpc t) = false).
Proof using Type*.
  intros HI Hi H. unfold on_ctx in H. rewrite Hi in H. cbn [mbind option_bind] in H.
  pose proof (Forall_lookup_1 _ _ _ _ (sv_threads _ HI) Hi) as Hok. unfold thread_ok in Hok.
  destruct (tio t) as [io|] eqn:Eio.
  - left. destruct (has_io (tpc t)); [|done]. destruct Hok as (io1 & [= <-] & (c & ls & Hc & Hr) & _).
    apply bind_Some in H as (o & Ho & H). destruct o as [io'|u']; [done|]. injection H as <-.
    destruct (undef_is_null _ _ _ _ (inv_reachable _ _ _ _ Hc Hr) Ho) as (-> & _ & r & Hg).
    split; [done|]. exists i, t, io. split_and!; [done..|]. by eapply get_sqe_refused.
  - right. injection H as <-. split; [done|]. destruct (has_io (tpc t)); [naive_solver|done].
Qed.

Lemma coro_thread_undef i b addr s (u : ub) :
  SInv s → run_thread port_ i b addr s = Some (Undef u) → u = NullDeref ∧ ctx_refuses s.
Proof using Type*.
  intros HI H. unfold run_thread in H. apply bind_Some in H as (t & Hi & H).
  assert (∀ a p, has_io (tpc t) = true → on_ctx i a p s = Some (Undef u) →
    u = NullDeref ∧ ctx_refuses s) as Hctx.
  { intros a p Hp Ha. destruct (coro_ctx_undef _ _ _ _ _ _ HI Hi Ha) as [?|[_ ?]]; [done|congruence]. }
  destruct (tpc t) eqn:Ht; try done;
    try (by match type of H with context [let '(_, _) := ?e in _] => destruct e end).
  - injection H as H. unfold new_ring_impl in H.
    destruct (io_uring_queue_init coro_queue_depth) as [k r] eqn:E. apply law_init in E as [Hn _].
    destruct (k <? 0) eqn:E0; zbool; simpl in H; [|done]. by rewrite (ret_code _ Hn) in H.
  - by destruct (mu_ s).
  - destruct b; [by eapply Hctx|]. by destruct (running_ s).
  - by eapply Hctx.
  - apply bind_Some in H as (io & Eio & H). destruct (loop io); try done; by eapply Hctx.
Qed.

(** The context that [stop()] is stopping. *)
Definition stopping (p : ctl_pc) (i : nat) : Prop :=
  ∃ todo, p = KStore (i :: todo) ∨ p = KWake i todo.

Lemma coro_stop_undef i a s (u : ub) :
  SInv s → stop_ctx i a s = Some (Undef u) → i ∈ to_stop s →
  (u = NullDeref ∧ ctx_refuses s) ∨
  (u = UseAfterFree ∧ ∃ t, spawned s !! i = Some t ∧ tpc t = TDone).
Proof using Type*.
  intros HI H Hin. unfold stop_ctx in H. apply bind_Some in H as (t & Hi & H).
  destruct (coro_ctx_undef _ _ _ _ _ _ HI Hi H) as [?|[-> Hn]]; [by left|right].
  split; [done|]. exists t. split; [done|].
  destruct (sv_registered _ HI i) as (t1 & Hi1 & Hr); [set_solver|].
  assert (t1 = t) as -> by congruence. by destruct (tpc t).
Qed.

Lemma coro_undef s a (u : ub) :
  SInv s → coro_act port_ n a s = Some (Undef u) →
  (u = NullDeref ∧ ctx_refuses s) ∨
  (u = UseAfterFree ∧ a = Ctl ∧ ∃ i t, stopping (kpc s) i ∧ spawned s !! i = Some t ∧ tpc t = TDone).
Proof using Type*.
  intros HI H. unfold coro_act in H. destruct (terminated s); [done|]. destruct a as [| | |i b addr|i c addr].
  - by apply fmap_Some in H as (s1 & _ & [=]).
  - by apply fmap_Some in H as (s1 & _ & [=]).
  - unfold ctl_step in H. destruct (kpc s) as [|[|k]| |[|i todo]|i todo|[|i todo]] eqn:Hk; try done.
    + by destruct (mu_ s).
    + apply bind_Some in H as (o & Ho & H). destruct o as [?|u']; [done|]. injection H as <-.
      destruct (coro_stop_undef _ _ _ _ HI Ho) as [?|(-> & t & Hi & Ht)];
        [unfold to_stop; rewrite Hk; set_solver|by left|].
      right. split_and!; [done..|]. exists i, t. split_and!; [|done..]. exists todo. by left.
    + apply bind_Some in H as (o & Ho & H). destruct o as [?|u']; [done|]. injection H as <-.
      destruct (coro_stop_undef _ _ _ _ HI Ho) as [?|(-> & t & Hi & Ht)];
        [unfold to_stop; rewrite Hk; set_solver|by left|].
      right. split_and!; [done..|]. exists i, t. split_and!; [|done..]. exists todo. by right.
    + apply bind_Some in H as (t & _ & H). by destruct (tpc t).
  - left. by eapply coro_thread_undef.
  - unfold resume in H. apply bind_Some in H as (t & Hi & H). apply bind_Some in H as (io & Eio & H).
    destruct (tpc t) eqn:Ht; try done. destruct (loop io); try done.
    destruct (coro_ctx_undef _ _ _ _ _ _ HI Hi H) as [?|[_ Hn]]; [by left|]. by rewrite Ht in Hn.
Qed.

End proof.

(** ** The property *)

(** (C32) The coroutine server stops cleanly, or uses a context that is gone.  For any
    number of threads, calls of [start()] and [stop()], answers of the kernel and
    interleavings: a thread that serves has an open socket of its own that listens; an
    io_context is destroyed only when nobody is inside its [run()]; when [stop()] has
    returned, every thread has ended and the listening sockets are closed (the descriptors
    of clients belong to the sessions, which SessionServers.v models, and are not part of
    [ssys]).  The only undefined behaviour, a submission to a full queue that
    [io_uring_submit] does not empty aside, is [stop()] calling [stop()] on the io_context
    of a thread that has already left [run_thread]. *)
Theorem coroutine_server_stops {os ring} `{!Sockets os, !SocketView os, !SocketLaws os}
    `{!Liburing ring, !RingView ring, !LiburingLaws ring} port_ n (o : os) ls (s : server os ring) :
  runs (coro_server_step port_ n) (new_coro_server o) ls s →
  (∀ i t, spawned s !! i = Some t → listens_on (tpc t) = true →
     (tfd t ∉ open_fds o) ∧ tfd t ∈ open_fds (ssys s) ∧ tfd t ∈ listening (ssys s) ∧
     ∀ j u, spawned s !! j = Some u → listens_on (tpc u) = true → tfd t = tfd u → i = j) ∧
  (∀ i t io, spawned s !! i = Some t → tpc t = TDestroy → tio t = Some io → loop io = Idle) ∧
  (kpc s = KIdle → running_ s = false →
     Forall (λ t, tpc t = TDone) (spawned s) ∧ open_fds (ssys s) = open_fds o) ∧
  (∀ a u, coro_act port_ n a s = Some (Undef u) →
     (u = NullDeref ∧ ctx_refuses s) ∨
     (u = UseAfterFree ∧ a = Ctl ∧
      ∃ i t, stopping (kpc s) i ∧ spawned s !! i = Some t ∧ tpc t = TDone)).
Proof.
  intros Hr. assert (SInv o s) as HI.
  { eapply runs_invariant; [apply sinv_new|by apply sinv_step|exact Hr]. }
  assert (∀ p, listens_on p = true → holds_fd p = true) as Hlh by (by destruct p).
  pose proof (sv_owns _ _ HI) as Ho. split_and!; [..|intros a u; by eapply coro_undef].
  - intros i t Hi Hl. destruct (ow_held _ _ _ Ho _ _ Hi (Hlh _ Hl)) as (H1 & H2 & H3).
    split_and!; auto. intros j u Hj Hu E. by eapply (ow_inj _ _ _ Ho); eauto.
  - intros i t io Hi Ht Eio. pose proof (Forall_lookup_1 _ _ _ _ (sv_threads _ _ HI) Hi) as Hok.
    unfold thread_ok in Hok. rewrite Ht in Hok. destruct Hok as (io1 & E & _ & Hid).
    assert (io1 = io) as -> by congruence. by apply Hid.
  - intros Hk Hf. pose proof (sv_flag _ _ HI) as Hfl. rewrite Hk in Hfl. specialize (Hfl Hf).
    assert (Forall (λ t, tpc t = TDone) (spawned s)) as Hd.
    { apply Forall_lookup. intros i t Hi. destruct (decide (tpc t = TDone)) as [|Hne]; [done|].
      pose proof (sv_join _ _ HI _ _ Hi Hne) as Hin. unfold to_join in Hin. rewrite Hk, Hfl in Hin.
      by apply elem_of_nil in Hin. }
    split; [done|]. apply set_eq. intros fd. split; [|apply (ow_base _ _ _ Ho)].
    intros [?|(i & t & Hi & Hh & _)]%(ow_all _ _ _ Ho); [done|].
    by rewrite (Forall_lookup_1 _ _ _ _ Hd Hi) in Hh.
Qed.

(** ** Executions *)

Definition coro_os : SimpleSockets.os := SimpleSockets.Os {[0; 1; 2]} ∅ false.
Definition demo_coro : server SimpleSockets.os SimpleRing.ring := new_coro_server coro_os.

Definition steps_of (i k : nat) : list coro_action := replicate k (InThread i true 64).

(** Two threads; the first accepts a client and submits the next accept; then [stop()]. *)
Definition coro_acts : list coro_action :=
  [CallStart] ++ replicate 3 Ctl ++ steps_of 0 13 ++ [Resume 0 CAccept 128] ++ steps_of 1 11 ++
  [CallStop] ++ replicate 6 Ctl.

Definition coro_stopped : server SimpleSockets.os SimpleRing.ring :=
  default demo_coro (coro_exec 18080 2 (coro_acts ++ steps_of 0 7 ++ steps_of 1 10 ++ replicate 3 Ctl)
    demo_coro).

Lemma coro_exec_runs port_ n ls (s s' : server SimpleSockets.os SimpleRing.ring) :
  coro_exec port_ n ls s = Some s' → runs (coro_server_step port_ n) s ls s'.
Proof.
  apply exec_runs. intros u l v. unfold coro_server_step.
  destruct (coro_act port_ n l u) as [[?|?]|]; naive_solver.
Qed.

Lemma coroutine_server_stops_witness :
  kpc coro_stopped = KIdle ∧ length (spawned coro_stopped) = 2%nat ∧
  Forall (λ t, tpc t = TDone) (spawned coro_stopped) ∧
  open_fds (ssys coro_stopped) = open_fds coro_os.
Proof.
  assert (kpc coro_stopped = KIdle) as Hk by (vm_compute; reflexivity).
  assert (running_ coro_stopped = false) as Hf by (vm_compute; reflexivity).
  split; [exact Hk|]. split; [vm_compute; reflexivity|].
  assert (coro_exec 18080 2 (coro_acts ++ steps_of 0 7 ++ steps_of 1 10 ++ replicate 3 Ctl) demo_coro =
    Some coro_stopped) as Hr by (vm_compute; reflexivity).
  exact (proj1 (proj2 (proj2 (coroutine_server_stops 18080 2 coro_os _ coro_stopped
    (coro_exec_runs _ _ _ _ _ Hr)))) Hk Hf).
Defined.

(** Nothing takes a context out of [contexts_] when its thread ends.  Here the thread sees the
    store of [ctx->stop()], leaves [run()] and destroys the context before [ctx->stop()]
    has taken the context's mutex. *)
Lemma stop_uses_destroyed_context :
  ∃ s, coro_exec 18080 1 ([CallStart] ++ replicate 2 Ctl ++ steps_of 0 10 ++ [CallStop] ++
         replicate 2 Ctl ++ steps_of 0 4) demo_coro = Some s ∧
    coro_act 18080 1 Ctl s = Some (Undef UseAfterFree).
Proof. eexists. split; [vm_compute; reflexivity|]. reflexivity. Qed.

(** A thread that registers its context after [stop()] has walked through [contexts_]
    waits in [run()] for completions that never come, and [join] does not return. *)
Lemma late_registration_hangs :
  ∃ s, coro_exec 18080 1 ([CallStart] ++ replicate 2 Ctl ++ steps_of 0 6 ++ [CallStop] ++
         replicate 2 Ctl ++ [InThread 0 true 0; InThread 0 false 0] ++ steps_of 0 3) demo_coro = Some s ∧
    kpc s = KJoin [0%nat] ∧ coro_act 18080 1 Ctl s = None ∧
    (∀ i b addr, coro_act 18080 1 (InThread i b addr) s = None) ∧
    (∀ i c addr, coro_act 18080 1 (Resume i c addr) s = None).
Proof.
  eexists. split; [vm_compute; reflexivity|]. split_and!; [reflexivity..| |].
  - intros [|[|i]] b addr; reflexivity.
  - intros [|[|i]] c addr; reflexivity.
Qed.
